(* ===== verification/_CoqProject ===== *)
-Q . S2P
Prelude.v
Concurrency.v
WorkStealing.v
Mpsc.v
SharedMpsc.v
Task.v
TaskGroup.v
ObjectPool.v
ExecutionQueue.v
TimerHeap.v
Timer.v
Mpmc.v
Platform.v
PlatformWindows.v
Result.v
Cancel.v
FramePool.v
World.v
Workers.v
Scheduler.v
Butex.v
Mutex.v
Event.v
Cond.v
CoroTask.v
CoroScheduler.v
Coroutine.v
Runtime.v
Api.v
TaskHandle.v
CoroRun.v
Exclusion.v
Monitor.v
Demo.v
DemoRun.v
