(* ===== verification/Prelude.v ===== *)
(** * cothread: a verification of the M:N task library

    cothread runs many lightweight tasks (bthreads, with stacks and context
    switches of their own, and C++20 coroutines) on a few worker threads.  This
    library models it from the sources ([include/], [src/]) and proves
    what its parts promise, and where they do not keep it.

    ** How code is modelled

    A C++ function is a [prog S A] (below): a tree of atomic actions on a state
    of type [S], with loops.  Each load, store, read-modify-write, access to a
    member and lock of a mutex is one action, so that two threads interleave at
    every place where the program shares memory.  An index out of range, a
    null or dangling pointer, the loading of a context that was not saved are
    [Bad]; waiting (a mutex, a futex, a thread to join, a context switch) is
    [Block].  [zoom] runs the operation of a component inside a larger state.
    Integers are [Z] with the wrap-around of their width written out ([i32] for
    atomic counters, [u32], [u64]); the signed 64-bit arithmetic of deadlines and
    timeouts is [int64], undefined when it overflows.  Pointers are numbers; an
    object is in a map by address.

    There are two semantics.  [wp p Q s]: run alone from [s], [p] terminates
    without undefined behaviour and without blocking, and [Q] holds of the result
    and the state; all sequential theorems are of this form, so they include
    termination.  [reachable c c']: a pool of threads takes atomic steps in any
    order, a scheduler choosing also the spurious failures of
    [compare_exchange_weak] and the spurious ends of futex waits (which the
    sequential semantics does not have).  The interleaving is sequentially
    consistent: no reordering by weaker memory orders is modelled.  [drive] runs a
    schedule and evaluates to a reachable configuration; theorems that an
    unwanted execution exists are proved by it.  Concurrency.v is a rely-guarantee
    logic with ghost state over the same semantics, for theorems on all
    interleavings.  [diverges] says that no amount of fuel is enough;
    [goes_wrong] that the run reaches undefined behaviour.

    ** The files

    - Prelude.v (this file): machine integers, programs, semantics, their rules;
      Concurrency.v: rely-guarantee triples, frames ([keeps]) and adequacy.
    - WorkStealing.v: [WorkStealingQueue] (queue/work_stealing_queue).  Owner and
      any number of thieves: no task is lost or given twice as long as the owner
      only pushes; with [Pop] a task can be given twice.
    - Mpsc.v, SharedMpsc.v: [MpscQueue] (queue/mpsc_queue.hpp) with any number
      of producers, and the sharded queue of the scheduler
      (queue/shared_mpsc_queue) as a refinement of a list of lists.
    - Mpmc.v: [MpmcQueue] (queue/mpmc_queue.hpp), the waiters of a butex, with
      waiters that withdraw.
    - Task.v, TaskGroup.v: [TaskMeta], [TaskMetaBase], and the pool of tasks with
      its lock-free free list and its generation-checked identifiers
      (core/task_meta*, core/task_group).
    - ObjectPool.v, ExecutionQueue.v: pool/object_pool.hpp, queue/execution_queue.
    - TimerHeap.v, Timer.v: the binary heap of timers and [TimerThread]
      (detail/timer_thread): scheduling, cancelling, firing.
    - Platform.v: stacks, threads, faults, futexes, time (platform_linux.cpp);
      PlatformWindows.v: the same interface on Windows (platform_windows.cpp),
      on which nothing else here depends.
    - World.v: the record of everything the runtime's threads share (one field
      per member of [Scheduler], [Worker], [Mutex], [Event], [CondVar]).
    - Workers.v: the batch, the local queue and the caches of a [Worker];
      Scheduler.v: the idle registry, submitting, picking and stealing,
      yielding, waiting for work, starting and shutting down
      (core/worker, core/scheduler).  [submitted self v v' idle k p ts] there is
      what everything that wakes tasks promises, whoever calls it: the tasks
      [ts] are at the end of the place [p] where [self] queues tasks (the
      global queue for a thread outside the runtime, the queue of its worker for
      a bthread or the loop of a worker), and for each an idle worker, while
      there was one, is off the registry and was woken.  Runtime.v: the main loop and the end of a
      task (Worker::Run, bthread_exit, BthreadEntry).
    - Butex.v: [Butex] (sync/butex) with timeouts; Mutex.v, Event.v, Cond.v:
      sync/mutex, sync/event, sync/cond, the awaiters included; Exclusion.v:
      mutual exclusion of [Mutex] among bthreads that may wait on condition
      variables, over all interleavings; Monitor.v: rules for programs whose
      variables are protected by a [Mutex], from those of Exclusion.v; Demo.v:
      clients proved by these rules, the counter and the flag of demo/demo.cpp;
      DemoRun.v: demo/demo.cpp and demo/yield_demo.cpp as whole programs, and
      executions of them from the constructor of the scheduler on.
    - Api.v: the C interface (bthread.cpp), task handles (core/task), spawn and
      once (api/); TaskHandle.v: handles as objects that are moved
      (core/task.hpp), api/config.hpp, the end of the task pool.
    - Result.v, Cancel.v, FramePool.v: coro/result.h, coro/cancel.h (a source and
      its tokens under any interleaving), coro/frame_pool (one owner for each
      block under any interleaving).
    - CoroTask.v: the four promise types and the four task types of
      coro/coroutine.h; CoroScheduler.v: coro/scheduler (the thread that wakes
      sleeping coroutines, the awaiters of sleep and yield, the metadata pool);
      Coroutine.v: creating, suspending, resuming, ending and spawning a
      coroutine (Scheduler::Spawn, co_spawn, spawn_coro); CoroRun.v: executions
      of whole programs with coroutines.

    ** Context switches

    The loop of a worker and the code of each task are threads of the pool.
    [SwapTo w t] records that the thread of [w] executes the context of [t] and
    blocks until the context is given back; the code of [t] moves only while some
    worker executes it ([resumed]).  Loading the context of a task that is
    being executed is [Bad].  [Worker::Current()] is the worker that executes the
    caller's context.  The assembly of the switch itself is not modelled.

    ** Coroutines

    What the compiler does with a coroutine follows the C++ standard.  A frame is
    a record in a map, at the address of its block in the frame pool; it holds
    the promise, the copy of the argument, and whether the coroutine is at its
    final suspension point.  The body is a thread of the pool, named by the
    serial number in the frame, that moves only while some worker executes the
    frame.  At a suspension point the body gives the worker back with the
    awaiter ([suspension]) and the worker runs its [await_suspend]: from there
    on another worker may resume the coroutine, as in C++.  A handle returned by
    [await_suspend] is resumed next (symmetric transfer).  Resuming a coroutine
    that is executed or at its end, and touching a frame that was destroyed, are
    [Bad].  Destroying a suspended coroutine frees the frame; the destructors of
    its local variables are not run.  [T] is [int], the only instance with a
    value that Scheduler::Spawn is compiled for.  The waits of the sleep thread
    on its condition variable may end at any time.  A moved-from string is
    empty.  [std::malloc] may fail where the scheduler says so.

    ** The theorems

    Refinements: each queue, run alone, behaves as its specification on lists;
    heaps pop in order of deadline.  Functional: submitting, picking, waking,
    notifying, setting, spawning, creating, joining, scheduling, cancelling and
    firing timers do what they are meant to do, with the whole effect on the
    state they touch; waking, notifying, setting and spawning for every kind of
    caller, [bthread_create] and [bthread_join] for a thread outside the
    runtime.  [Wake] is proved for waiters that are suspended without a timeout,
    [set] of an event that resets itself has a theorem of its own.  Over all
    interleavings: the work-stealing and the multi-producer queue (nothing is
    lost, nothing given twice), mutual exclusion and the variables protected by
    it, the frame pool (no block is lost or has two owners), cancellation.
    Identifiers: no stale identifier names a task.  Ownership: objects of a
    pool, frames and task handles have one owner.  Coroutines: what a body
    returns is what [get] gives, the end resumes the awaiter, sleepers are woken
    in order.  Composition: executions in which a bthread, and a coroutine that
    sleeps, are created, run by a worker and joined, and of whole programs.
    The theorems about executions that go wrong name defects of the code: lost
    wake-ups, contexts loaded before they are saved, ABA on the free list,
    overflows, frames and metadata freed too early.

    ** Bounds

    The fuel of [run] and [drive] is only in theorems that evaluate a
    concrete execution (at most 20000 steps at a stretch); everything else holds for all
    states that satisfy the hypotheses, which bound counters where the code lets
    them overflow ([INT_MAX] pushes, identifiers or entries of the trace, 2^32
    generations, the capacity of a ring): [place_fits] and [queueing] say so for
    submitting, [spec_fits] for the sharded queue, [deadline_fits] for timers.

    ** Not modelled

    - the context switch in assembly and [MakeContext]'s layout of the stack;
      calls that only hand something to the system (installing the handler of
      faults, joining a thread on Linux); the headers platform.hpp, futex.hpp,
      stack.hpp and context.hpp, which nothing includes;
    - weak memory orders; the timestamps of the trace log; the contents of
      stacks;
    - CoroutineScheduler::global_queue(), which returns a queue that nothing uses;
      CoroutineScheduler::Spawn and Worker::Resume are declared and never
      defined;
    - the functions of the user: they are parameters (a callback of a timer is
      a number recorded in a log, the code of a bthread or a coroutine is an
      argument);
    - what the programs of demo/ print; demo/coro_demo.cpp, benchmark/ and tests/. *)

From Stdlib Require Import ZArith Lia.
From stdpp Require Import base numbers list gmap relations option.

(** ** Pointers and machine integers *)

(** Objects (tasks, nodes, timer entries, memory blocks) are named by an
    address; a C++ pointer is an [option ptr], [None] being [nullptr]. *)
Abbreviation ptr := nat (only parsing).

(** Reduction to [w] bits, and the two's complement reading of the result. *)
Definition wrapu (w x : Z) : Z := x mod 2 ^ w.
Definition wraps (w x : Z) : Z := (x + 2 ^ (w - 1)) mod 2 ^ w - 2 ^ (w - 1).
Abbreviation u32 := (wrapu 32).
Abbreviation u64 := (wrapu 64).
Abbreviation i32 := (wraps 32).

Definition INT_MAX : Z := 2 ^ 31 - 1.
Definition INT_MIN : Z := - 2 ^ 31.

Lemma wraps_small w x : (- 2 ^ (w - 1) <= x < 2 ^ (w - 1))%Z -> (0 < w)%Z -> wraps w x = x.
Proof.
  intros Hx Hw. unfold wraps.
  assert (2 ^ w = 2 * 2 ^ (w - 1))%Z by (rewrite <- Z.pow_succ_r by lia; f_equal; lia).
  rewrite Z.mod_small by lia. lia.
Qed.

Lemma i32_small x : (INT_MIN <= x <= INT_MAX)%Z -> i32 x = x.
Proof. unfold INT_MIN, INT_MAX. intros H. apply wraps_small; lia. Qed.

Lemma wrapu_small w x : (0 <= x < 2 ^ w)%Z -> wrapu w x = x.
Proof. apply Z.mod_small. Qed.

(** Two 32-bit halves packed in a 64-bit word. *)
Lemma pack_arith hi lo : (0 <= hi < 2 ^ 32)%Z -> (0 <= lo < 2 ^ 32)%Z ->
  Z.lor (u64 (Z.shiftl hi 32)) lo = (hi * 2 ^ 32 + lo)%Z.
Proof.
  intros Hv Hi. unfold wrapu.
  rewrite Z.shiftl_mul_pow2, Z.mod_small by lia.
  rewrite <- Z.lxor_lor, <- Z.add_nocarry_lxor; [done|..];
    apply Z.bits_inj'; intros n Hn; rewrite Z.land_spec, Z.bits_0;
    rewrite <- Z.shiftl_mul_pow2 by lia; rewrite Z.shiftl_spec by done;
    (destruct (Z.lt_ge_cases n 32) as [Hlt|Hge];
     [rewrite Z.testbit_neg_r by lia; done|]);
    rewrite <- (Z.mod_small lo (2 ^ 32)), (Z.mod_pow2_bits_high lo 32 n) by lia;
    apply andb_false_r.
Qed.

Lemma pack_low hi lo : (0 <= hi < 2 ^ 32)%Z -> (0 <= lo < 2 ^ 32)%Z ->
  u32 (Z.land (Z.lor (u64 (Z.shiftl hi 32)) lo) 0xFFFFFFFF) = lo.
Proof.
  intros Hv Hi. rewrite pack_arith by done. unfold wrapu.
  change 0xFFFFFFFF%Z with (Z.ones 32). rewrite Z.land_ones by lia.
  rewrite Z.mod_mod by lia. rewrite Z.add_comm, Z.mod_add by lia. by apply Z.mod_small.
Qed.

Lemma pack_high hi lo : (0 <= hi < 2 ^ 32)%Z -> (0 <= lo < 2 ^ 32)%Z ->
  u32 (Z.shiftr (Z.lor (u64 (Z.shiftl hi 32)) lo) 32) = hi.
Proof.
  intros Hv Hi. rewrite pack_arith by done. unfold wrapu.
  rewrite Z.shiftr_div_pow2 by lia.
  rewrite Z.div_add_l, (Z.div_small lo), Z.add_0_r by lia. by apply Z.mod_small.
Qed.

(** ** Programs over a shared state

    A C++ function is a tree of atomic actions on the state it shares with the
    other threads.  [Act f k] performs one atomic action: the boolean handed to
    [f] is the scheduler's choice of a spurious failure, which only
    [compare_exchange_weak] looks at; [Block] means the action is not enabled
    yet and [Bad] that the program has undefined behaviour there.
    [Loop body i k] is a [while (true)] whose body either goes round again with
    a new loop state or leaves the loop with a value. *)
Inductive eff (S B : Type) : Type :=
| Go (b : B) (s : S)
| Block
| Bad.
Arguments Go {S B} b s.
Arguments Block {S B}.
Arguments Bad {S B}.

Inductive prog (S A : Type) : Type :=
| Ret (a : A)
| Act {B : Type} (f : bool -> S -> eff S B) (k : B -> prog S A)
| Loop {I B : Type} (body : I -> prog S (I + B)) (i : I) (k : B -> prog S A).
Arguments Ret {S A} a.
Arguments Act {S A B} f k.
Arguments Loop {S A I B} body i k.

Fixpoint bind {S A B} (p : prog S A) (g : A -> prog S B) : prog S B :=
  match p with
  | Ret a => g a
  | Act f k => Act f (fun b => bind (k b) g)
  | Loop body i k => Loop body i (fun b => bind (k b) g)
  end.

Declare Scope prog_scope.
Delimit Scope prog_scope with prog.
Bind Scope prog_scope with prog.
Notation "x <- p ;; q" := (bind p (fun x => q))
  (at level 90, p at next level, right associativity) : prog_scope.
Notation "p ;;; q" := (bind p (fun _ => q))
  (at level 90, right associativity) : prog_scope.
Open Scope prog_scope.

(** [while (true) body] with the loop state threaded explicitly. *)
Definition loop {S I B} (i : I) (body : I -> prog S (I + B)) : prog S B :=
  Loop body i Ret.

(** ** Atomic variables *)

(** A field of the shared state: how to read it and how to overwrite it. *)
Record field (S B : Type) := Field { rd : S -> B; wr : B -> S -> S }.
Arguments Field {S B} rd wr.
Arguments rd {S B} f s.
Arguments wr {S B} f v s.

(** The field of a record read by the projection [proj], from the record's eta
    expansion [eta]. *)
Ltac lens eta proj :=
  refine (Field proj _); let v := fresh "v" in let o := fresh "o" in intros v o;
  let b := eval cbv beta delta [eta] in (eta o) in
  let f := eval pattern (proj o) in b in
  lazymatch f with ?F _ => let r := eval cbv beta in (F v) in exact r end.

(** A field of a field. *)
Definition sub {S B C} (f : field S B) (g : field B C) : field S C :=
  Field (fun s => rd g (rd f s)) (fun v s => wr f (wr g v (rd f s)) s).

Section Atomics.
Context {S B : Type}.

Definition act {C} (f : S -> eff S C) : prog S C := Act (fun _ s => f s) Ret.
Definition load (v : field S B) : prog S B := act (fun s => Go (rd v s) s).
Definition store (v : field S B) (x : B) : prog S unit :=
  act (fun s => Go tt (wr v x s)).
Definition exchange (v : field S B) (x : B) : prog S B :=
  act (fun s => Go (rd v s) (wr v x s)).
(** Read-modify-write; returns the value before the modification. *)
Definition fetch (v : field S B) (g : B -> B) : prog S B :=
  act (fun s => Go (rd v s) (wr v (g (rd v s)) s)).

Context `{EqDecision B}.
(** [compare_exchange_strong(expected, new)]: the flag, and the value found
    (what C++ writes back into [expected] on failure). *)
Definition cas (v : field S B) (expected new : B) : prog S (bool * B) :=
  act (fun s => if decide (rd v s = expected) then Go (true, rd v s) (wr v new s)
                else Go (false, rd v s) s).
(** [compare_exchange_weak]: may also fail spuriously. *)
Definition cas_weak (v : field S B) (expected new : B) : prog S (bool * B) :=
  Act (fun sp s => if decide (rd v s = expected)
                   then if sp then Go (false, rd v s) s
                        else Go (true, rd v s) (wr v new s)
                   else Go (false, rd v s) s) Ret.
End Atomics.

(** A pause or a yield of the processor: no effect on memory. *)
Definition pause {S} : prog S unit := act (fun s => Go tt s).
(** [std::mutex]: locking waits until it is free. *)
Definition lock {S} (m : field S bool) : prog S unit :=
  act (fun s => if rd m s then Block else Go tt (wr m true s)).
Definition unlock {S} (m : field S bool) : prog S unit := store m false.
(** Undefined behaviour (an index out of range, a null dereference). *)
Definition undefined {S A} : prog S A := Act (fun _ _ => @Bad S A) Ret.
(** The result of signed 64-bit arithmetic: overflow is undefined behaviour. *)
Definition fits64 (x : Z) : Prop := (- 2 ^ 63 <= x < 2 ^ 63)%Z.
#[export] Instance fits64_dec x : Decision (fits64 x) := ltac:(unfold fits64; apply _).
Definition int64 {S} (x : Z) : prog S Z := if decide (fits64 x) then Ret x else undefined.

(** An operation of a component used inside a larger state. *)
Fixpoint zoom {W S} (v : field W S) {A} (p : prog S A) : prog W A :=
  match p with
  | Ret a => Ret a
  | Act f k =>
      Act (fun sp w => match f sp (rd v w) with
                       | Go b s => Go b (wr v s w)
                       | Block => Block
                       | Bad => Bad
                       end) (fun b => zoom v (k b))
  | Loop body i k => Loop (fun i => zoom v (body i)) i (fun b => zoom v (k b))
  end.

(** The same for a component of an object on the heap; using an object that is
    not there is undefined behaviour. *)
Fixpoint zoom_at {W O S} (heap : field W (gmap ptr O)) (p : ptr) (v : field O S) {A}
    (q : prog S A) : prog W A :=
  match q with
  | Ret a => Ret a
  | Act f k =>
      Act (fun sp w => match rd heap w !! p with
                       | Some o => match f sp (rd v o) with
                                   | Go b s => Go b (wr heap (<[p := wr v s o]> (rd heap w)) w)
                                   | Block => Block
                                   | Bad => Bad
                                   end
                       | None => Bad
                       end) (fun b => zoom_at heap p v (k b))
  | Loop body i k => Loop (fun i => zoom_at heap p v (body i)) i (fun b => zoom_at heap p v (k b))
  end.

(** The same for an object that may be absent. *)
Fixpoint zoom_opt {W S} (v : field W (option S)) {A} (q : prog S A) : prog W A :=
  match q with
  | Ret a => Ret a
  | Act f k =>
      Act (fun sp w => match rd v w with
                       | Some o => match f sp o with
                                   | Go b s => Go b (wr v (Some s) w)
                                   | Block => Block
                                   | Bad => Bad
                                   end
                       | None => Bad
                       end) (fun b => zoom_opt v (k b))
  | Loop body i k => Loop (fun i => zoom_opt v (body i)) i (fun b => zoom_opt v (k b))
  end.

(** ** Sequential semantics: a function running alone

    [exec p s a s'] is the run of [p] from [s], uninterrupted and with no
    spurious failure, that returns [a] in state [s']; [run] computes it with
    fuel.  [wp p Q s] says the run exists - so [p] terminates without undefined
    behaviour and without blocking - and its result satisfies [Q]. *)
Inductive exec {S : Type} : forall {A : Type}, prog S A -> S -> A -> S -> Prop :=
| exec_ret {A} (a : A) s : exec (Ret a) s a s
| exec_act {A B} (f : bool -> S -> eff S B) (k : B -> prog S A) s b s' a s'' :
    f false s = Go b s' -> exec (k b) s' a s'' -> exec (Act f k) s a s''
| exec_loop {A I B} (body : I -> prog S (I + B)) i (k : B -> prog S A) s r s' a s'' :
    exec (body i) s r s' ->
    exec (match r with inl i' => Loop body i' k | inr b => k b end) s' a s'' ->
    exec (Loop body i k) s a s''.

Inductive outcome (S A : Type) : Type :=
| Done (a : A) (s : S)
| Blocked (s : S)
| Undefined (s : S)
| OutOfFuel.
Arguments Done {S A} a s.
Arguments Blocked {S A} s.
Arguments Undefined {S A} s.
Arguments OutOfFuel {S A}.

Fixpoint run {S A} (n : nat) (p : prog S A) (s : S) {struct n} : outcome S A :=
  match n with
  | O => OutOfFuel
  | Datatypes.S n =>
      match p with
      | Ret a => Done a s
      | Act f k =>
          match f false s with
          | Go b s' => run n (k b) s'
          | Block => Blocked s
          | Bad => Undefined s
          end
      | Loop body i k =>
          match run n (body i) s with
          | Done (inl i') s' => run n (Loop body i' k) s'
          | Done (inr b) s' => run n (k b) s'
          | Blocked s' => Blocked s'
          | Undefined s' => Undefined s'
          | OutOfFuel => OutOfFuel
          end
      end
  end.

Definition wp {S A} (p : prog S A) (Q : A -> S -> Prop) (s : S) : Prop :=
  exists a s', exec p s a s' /\ Q a s'.

(** The run has undefined behaviour. *)
Definition goes_wrong {S A} (p : prog S A) (s : S) : Prop :=
  exists n s', run n p s = Undefined s'.

Section Semantics.
Context {S : Type}.

Lemma run_exec {A} n (p : prog S A) s a s' : run n p s = Done a s' -> exec p s a s'.
Proof.
  revert A p s a s'; induction n as [|n IH]; intros A p s a s' H; simpl in H; [done|].
  destruct p as [a0|B f k|I B body i k].
  - injection H as <- <-; constructor.
  - destruct (f false s) as [b s1| |] eqn:E; [|done..].
    eapply exec_act; eauto.
  - destruct (run n (body i) s) as [[i'|b] s1|s1|s1|] eqn:E; try done;
      apply IH in E; apply IH in H; (eapply exec_loop; [exact E|exact H]).
Qed.

Lemma run_mono {A} n m (p : prog S A) s :
  n <= m -> run n p s <> OutOfFuel -> run m p s = run n p s.
Proof.
  revert A m p s; induction n as [|n IH]; intros A m p s Hle Hne; [done|].
  destruct m as [|m]; [lia|]; simpl in *.
  destruct p as [a0|B f k|I B body i k]; [done| |].
  - destruct (f false s); [|done..]. apply IH; [lia|done].
  - rewrite (IH _ m); [|lia| by intros E; rewrite E in Hne].
    destruct (run n (body i) s) as [[i'|b] s1|s1|s1|]; try done; apply IH; lia || done.
Qed.

Lemma exec_run {A} (p : prog S A) s a s' : exec p s a s' -> exists n, run n p s = Done a s'.
Proof.
  induction 1 as [A a s|A B f k s b s' a s'' Hf _ [n IH]
                 |A I B body i k s r s' a s'' _ [n1 IH1] _ [n2 IH2]].
  - by exists 1.
  - exists (1 + n); simpl. by rewrite Hf.
  - exists (1 + Nat.max n1 n2); simpl.
    rewrite (run_mono n1), IH1; [|lia|by rewrite IH1].
    destruct r as [i'|b]; (rewrite (run_mono n2); [exact IH2|lia|by rewrite IH2]).
Qed.

Lemma exec_det {A} (p : prog S A) s a1 s1 a2 s2 :
  exec p s a1 s1 -> exec p s a2 s2 -> a1 = a2 /\ s1 = s2.
Proof.
  intros [n1 H1]%exec_run [n2 H2]%exec_run.
  assert (E1 : run (Nat.max n1 n2) p s = Done a1 s1)
    by (rewrite (run_mono n1); [done|lia|by rewrite H1]).
  assert (E2 : run (Nat.max n1 n2) p s = Done a2 s2)
    by (rewrite (run_mono n2); [done|lia|by rewrite H2]).
  rewrite E1 in E2; by injection E2.
Qed.

Lemma exec_bind {A B} (p : prog S A) (g : A -> prog S B) s a s' b s'' :
  exec p s a s' -> exec (g a) s' b s'' -> exec (bind p g) s b s''.
Proof.
  intros H; revert B g b s''; induction H as
    [A a s|A C f k s c s' a s1 Hf _ IH|A I C body i k s r s' a s1 H1 _ _ IH2];
    intros B g b s'' Hg; simpl; [done| |].
  - eapply exec_act; eauto.
  - eapply exec_loop; [exact H1|]. destruct r; simpl in *; auto.
Qed.

Lemma run_bind {A B} (p : prog S A) (g : A -> prog S B) s a s' m :
  exec p s a s' -> run m (g a) s' <> OutOfFuel ->
  exists n, run n (bind p g) s = run m (g a) s'.
Proof.
  intros H; revert B g m; induction H as
    [A a s|A C f k s c s' a s1 Hf _ IH|A I C body i k s r s' a s1 H1 _ _ IH2];
    intros B g m Hm; simpl; [by exists m| |].
  - destruct (IH B g m Hm) as [n Hn]. exists (1 + n); simpl. by rewrite Hf.
  - apply exec_run in H1 as [n1 H1].
    destruct (IH2 B g m Hm) as [n2 H2]. exists (1 + Nat.max n1 n2); simpl.
    rewrite (run_mono n1), H1; [|lia|by rewrite H1].
    destruct r as [i'|b]; simpl in *; (rewrite (run_mono n2); [exact H2|lia|by rewrite H2]).
Qed.

Lemma wrong_act {A B} (f : bool -> S -> eff S B) (k : B -> prog S A) s :
  match f false s with Go b s' => goes_wrong (k b) s' | Block => False | Bad => True end ->
  goes_wrong (Act f k) s.
Proof.
  destruct (f false s) as [b s1| |] eqn:E; [|done|].
  - intros (n & s' & H). exists (1 + n), s'; simpl. by rewrite E.
  - intros _. exists 1, s; simpl. by rewrite E.
Qed.

Lemma wrong_bind {A B} (p : prog S A) (g : A -> prog S B) s (Q : A -> S -> Prop) :
  wp p Q s -> (forall a s', Q a s' -> goes_wrong (g a) s') -> goes_wrong (bind p g) s.
Proof.
  intros (a & s1 & Hex & HQ) H. destruct (H a s1 HQ) as (m & s2 & Hm).
  destruct (run_bind p g s a s1 m Hex) as [n Hn]; [by rewrite Hm|].
  exists n, s2. by rewrite Hn.
Qed.

(** Evaluation finds it. *)
Lemma run_wrong {A} n (p : prog S A) s :
  match run n p s with Undefined _ => true | _ => false end = true -> goes_wrong p s.
Proof. destruct (run n p s) as [| |s1|] eqn:E; intros; [done|done|by exists n, s1|done]. Qed.

Lemma wrong_bind_left {A B} (p : prog S A) (g : A -> prog S B) s :
  goes_wrong p s -> goes_wrong (bind p g) s.
Proof.
  intros (n & s' & H). exists n, s'. revert A B p g s s' H.
  induction n as [|n IH]; intros A B p g s s' H; [done|].
  destruct p as [a|C f k|I C body i k]; simpl in H |- *; [done| |].
  - destruct (f false s); [by apply IH|done|by injection H as ->].
  - destruct (run n (body i) s) as [[i'|b] s1|s1|s1|]; try done;
      [by apply (IH _ _ (Loop body i' k))|by apply IH|by injection H as ->].
Qed.

(** The run never ends: no amount of fuel is enough. *)
Definition diverges {A} (p : prog S A) (s : S) : Prop := forall n, run n p s = OutOfFuel.

Lemma run_exec_max {A} n (p : prog S A) s a s' : exec p s a s' ->
  run n p s = OutOfFuel \/ run n p s = Done a s'.
Proof.
  intros [m H]%exec_run. destruct (run n p s) eqn:E; [|..|by left]; right;
    (rewrite <- E, <- (run_mono n (Nat.max n m)) by (lia || by rewrite E);
     rewrite (run_mono m) by (lia || by rewrite H); exact H).
Qed.

Lemma diverges_loop {A I B} (Inv : I -> S -> Prop) (body : I -> prog S (I + B)) i (k : B -> prog S A) s :
  Inv i s ->
  (forall i s, Inv i s -> wp (body i) (fun r s' => exists i', r = inl i' /\ Inv i' s') s) ->
  diverges (Loop body i k) s.
Proof.
  intros HI Hbody n. revert i s HI. induction n as [|n IH]; intros i s HI; [done|]. simpl.
  destruct (Hbody _ _ HI) as (r & s1 & Hex & i' & -> & HI').
  destruct (run_exec_max n _ _ _ _ Hex) as [->| ->]; [done|by apply IH].
Qed.

Lemma diverges_bind_left {A B} (p : prog S A) (g : A -> prog S B) s :
  diverges p s -> diverges (bind p g) s.
Proof.
  intros H n. specialize (H n). revert A B p g s H.
  induction n as [|n IH]; intros A B p g s H; [done|].
  destruct p as [a|C f k|I C body i k]; simpl in H |- *; [done| |].
  - destruct (f false s); [by apply IH|done..].
  - destruct (run n (body i) s) as [[i'|b] s1|s1|s1|]; try done;
      [by apply (IH _ _ (Loop body i' k))|by apply IH].
Qed.

Lemma diverges_bind {A B} (p : prog S A) (g : A -> prog S B) s (Q : A -> S -> Prop) :
  wp p Q s -> (forall a s', Q a s' -> diverges (g a) s') -> diverges (bind p g) s.
Proof.
  intros (a & s1 & Hex & HQ) H. specialize (H a s1 HQ). clear HQ. intros n. revert n.
  induction Hex as [A a s|A C f k s c s1 a s2 Hf _ IH|A I C body i k s r s1 a s2 H1 _ _ IH2]; intros n.
  - apply H.
  - destruct n as [|n]; [done|]. simpl. rewrite Hf. by apply IH.
  - destruct n as [|n]; [done|]. simpl.
    destruct (run_exec_max n _ _ _ _ H1) as [->| ->]; [done|]. destruct r; simpl in *; by apply IH2.
Qed.

(** A run that goes wrong neither returns nor satisfies anything. *)
Lemma wrong_not_wp {A} (p : prog S A) s Q : goes_wrong p s -> wp p Q s -> False.
Proof.
  intros (n & s1 & H1) (a & s2 & [m H2]%exec_run & _).
  assert (E1 : run (Nat.max n m) p s = Undefined s1)
    by (rewrite (run_mono n); [done|lia|by rewrite H1]).
  assert (E2 : run (Nat.max n m) p s = Done a s2)
    by (rewrite (run_mono m); [done|lia|by rewrite H2]).
  congruence.
Qed.

Lemma wp_ret {A} (a : A) (Q : A -> S -> Prop) s : Q a s -> wp (Ret a) Q s.
Proof. intros; do 2 eexists; split; [constructor|done]. Qed.

Lemma wp_act {A B} (f : bool -> S -> eff S B) (k : B -> prog S A) Q s :
  match f false s with Go b s' => wp (k b) Q s' | Block | Bad => False end ->
  wp (Act f k) Q s.
Proof.
  destruct (f false s) eqn:E; [|done..].
  intros (a & s2 & H & HQ). exists a, s2; split; [eapply exec_act|]; eauto.
Qed.

Lemma wp_bind {A B} (p : prog S A) (g : A -> prog S B) Q s :
  wp p (fun a => wp (g a) Q) s -> wp (bind p g) Q s.
Proof.
  intros (a & s1 & H1 & b & s2 & H2 & HQ). exists b, s2; split; [|done].
  eapply exec_bind; eauto.
Qed.

Lemma wp_mono {A} (p : prog S A) (Q Q' : A -> S -> Prop) s :
  wp p Q s -> (forall a s', Q a s' -> Q' a s') -> wp p Q' s.
Proof. intros (a & s' & H & HQ) HQQ. exists a, s'; auto. Qed.

Lemma wp_loop {A I B} (body : I -> prog S (I + B)) i (k : B -> prog S A) Q s :
  wp (body i) (fun r s' => match r with
                           | inl i' => wp (Loop body i' k) Q s'
                           | inr b => wp (k b) Q s'
                           end) s ->
  wp (Loop body i k) Q s.
Proof.
  intros (r & s1 & H1 & H2).
  assert (H3 : wp (match r with inl i' => Loop body i' k | inr b => k b end) Q s1)
    by by destruct r.
  destruct H3 as (a & s2 & H3 & HQ). exists a, s2; split; [|done].
  eapply exec_loop; eauto.
Qed.

(** The rule for loops: an invariant and a measure that decreases. *)
Lemma wp_loop_measure {A I B} (Inv : I -> S -> Prop) (m : I -> S -> nat)
    (body : I -> prog S (I + B)) i (k : B -> prog S A) Q s :
  Inv i s ->
  (forall i s, Inv i s ->
     wp (body i) (fun r s' => match r with
                              | inl i' => Inv i' s' /\ m i' s' < m i s
                              | inr b => wp (k b) Q s'
                              end) s) ->
  wp (Loop body i k) Q s.
Proof.
  intros HI Hbody. remember (m i s) as n eqn:Hn. revert i s HI Hn.
  induction n as [n IH] using lt_wf_ind; intros i s HI ->.
  apply wp_loop. eapply wp_mono; [by apply Hbody|].
  intros [i'|b] s'; [|done]. intros [HI' Hlt]. by eapply IH.
Qed.

(** The result of a terminating run satisfies every postcondition proved. *)
Lemma wp_exec {A} (p : prog S A) Q s a s' : wp p Q s -> exec p s a s' -> Q a s'.
Proof.
  intros (a1 & s1 & H1 & HQ) H2. by destruct (exec_det _ _ _ _ _ _ H1 H2) as [-> ->].
Qed.

Lemma wp_and {A} (p : prog S A) (Q Q' : A -> S -> Prop) s :
  wp p Q s -> wp p Q' s -> wp p (fun a s' => Q a s' /\ Q' a s') s.
Proof. intros (a & s1 & H1 & HQ) H. exists a, s1. split; [done|]. split; [done|]. by eapply wp_exec. Qed.

Lemma wp_run {A} n (p : prog S A) (Q : A -> S -> Prop) s a s' :
  run n p s = Done a s' -> Q a s' -> wp p Q s.
Proof. intros H%run_exec HQ. by exists a, s'. Qed.
End Semantics.

(** ** The rules for the atomic primitives *)

Section Rules.
Context {S B : Type} (v : field S B).

Lemma wp_load_bind {A} (g : B -> prog S A) Q s :
  wp (g (rd v s)) Q s -> wp (x <- load v ;; g x) Q s.
Proof. intros; by apply wp_act. Qed.
Lemma wp_load Q s : Q (rd v s) s -> wp (load v) Q s.
Proof. intros; apply wp_act; simpl. by apply wp_ret. Qed.
Lemma wp_store_bind {A} x (g : unit -> prog S A) Q s :
  wp (g tt) Q (wr v x s) -> wp (u <- store v x ;; g u) Q s.
Proof. intros; by apply wp_act. Qed.
Lemma wp_store x Q s : Q tt (wr v x s) -> wp (store v x) Q s.
Proof. intros; apply wp_act; simpl. by apply wp_ret. Qed.
Lemma wp_exchange_bind {A} x (g : B -> prog S A) Q s :
  wp (g (rd v s)) Q (wr v x s) -> wp (y <- exchange v x ;; g y) Q s.
Proof. intros; by apply wp_act. Qed.
Lemma wp_fetch_bind {A} h (g : B -> prog S A) Q s :
  wp (g (rd v s)) Q (wr v (h (rd v s)) s) -> wp (y <- fetch v h ;; g y) Q s.
Proof. intros; by apply wp_act. Qed.
Lemma wp_fetch h Q s : Q (rd v s) (wr v (h (rd v s)) s) -> wp (fetch v h) Q s.
Proof. intros; apply wp_act; simpl. by apply wp_ret. Qed.

Context `{EqDecision B}.
Lemma wp_cas_bind {A} e n (g : bool * B -> prog S A) Q s :
  (rd v s = e -> wp (g (true, e)) Q (wr v n s)) ->
  (rd v s <> e -> wp (g (false, rd v s)) Q s) ->
  wp (y <- cas v e n ;; g y) Q s.
Proof.
  intros Ht Hf; apply wp_act; simpl. case_decide as Hd; [rewrite Hd; auto|auto].
Qed.
Lemma wp_cas_weak_bind {A} e n (g : bool * B -> prog S A) Q s :
  (rd v s = e -> wp (g (true, e)) Q (wr v n s)) ->
  (rd v s <> e -> wp (g (false, rd v s)) Q s) ->
  wp (y <- cas_weak v e n ;; g y) Q s.
Proof.
  intros Ht Hf; apply wp_act; simpl. case_decide as Hd; [rewrite Hd; auto|auto].
Qed.
Lemma wp_pause_bind {A} (g : unit -> prog S A) Q s :
  wp (g tt) Q s -> wp (u <- pause ;; g u) Q s.
Proof. intros; by apply wp_act. Qed.
End Rules.

Section CoreRules.
Context {S : Type}.

Lemma wp_act_bind {A B} (f : S -> eff S B) (g : B -> prog S A) Q s :
  match f s with Go b s' => wp (g b) Q s' | Block | Bad => False end ->
  wp (x <- act f ;; g x) Q s.
Proof. intros; by apply wp_act. Qed.

Lemma wp_lock_bind {A} (m : field S bool) (g : unit -> prog S A) Q s :
  rd m s = false -> wp (g tt) Q (wr m true s) -> wp (u <- lock m ;; g u) Q s.
Proof. intros Hm H. apply wp_act; simpl. by rewrite Hm. Qed.

Lemma wp_act_last {B} (f : S -> eff S B) Q s :
  match f s with Go b s' => Q b s' | Block | Bad => False end -> wp (act f) Q s.
Proof. intros H; apply wp_act. destruct (f s); [by apply wp_ret|done..]. Qed.

Lemma wp_ret_bind {A B} (b : B) (g : B -> prog S A) Q s :
  wp (g b) Q s -> wp (x <- Ret b ;; g x) Q s.
Proof. done. Qed.

Lemma wp_int64_bind {A} x (g : Z -> prog S A) Q s :
  fits64 x -> wp (g x) Q s -> wp (y <- int64 x ;; g y) Q s.
Proof. intros Hx. unfold int64. by rewrite decide_True. Qed.

Lemma exec_bind_inv {A B} (p : prog S A) (g : A -> prog S B) s b s2 :
  exec (bind p g) s b s2 -> exists a s1, exec p s a s1 /\ exec (g a) s1 b s2.
Proof.
  intros [n H]%exec_run. revert A p B g s b s2 H.
  induction n as [|n IH]; intros A p D g s c s3 H; [done|].
  destruct p as [a|B f k|I B body i k]; simpl in H.
  - exists a, s; split; [constructor|]. by eapply (run_exec (Datatypes.S n)).
  - destruct (f false s) as [b s1| |] eqn:E; [|done..].
    apply IH in H as (a & s2 & H1 & H2). exists a, s2; split; [|done].
    by eapply exec_act.
  - destruct (run n (body i) s) as [[i'|b] s1| | |] eqn:E; try done; apply run_exec in E.
    + destruct (IH _ (Loop body i' k) _ g s1 c s3 H) as (a & s2 & H1 & H2).
      exists a, s2; split; [|done]. by eapply exec_loop.
    + apply IH in H as (a & s2 & H1 & H2).
      exists a, s2; split; [|done]. by eapply exec_loop.
Qed.

Lemma wp_ret_inv {A} (a : A) (Q : A -> S -> Prop) s : wp (Ret a) Q s -> Q a s.
Proof. intros (b & s' & H & HQ). apply exec_run in H as [[|n] H]; [done|]. by injection H as <- <-. Qed.

Lemma wp_bind_inv {A B} (p : prog S A) (g : A -> prog S B) Q s :
  wp (bind p g) Q s -> wp p (fun a => wp (g a) Q) s.
Proof.
  intros (b & s2 & (a & s1 & H1 & H2)%exec_bind_inv & HQ). exists a, s1. split; [done|]. by exists b, s2.
Qed.

Lemma wp_assoc {A B C} (p : prog S A) (g : A -> prog S B) (h : B -> prog S C) Q s :
  wp (x <- p ;; y <- g x ;; h y) Q s -> wp (y <- (x <- p ;; g x) ;; h y) Q s.
Proof.
  intros H%wp_bind_inv. apply wp_bind, wp_bind. eapply wp_mono; [exact H|].
  intros a s1 H1%wp_bind_inv. exact H1.
Qed.

Lemma wp_loop_once {I B} i (body : I -> prog S (I + B)) Q s :
  wp (body i) (fun r s' => match r with
                           | inl i' => wp (loop i' body) Q s'
                           | inr b => Q b s'
                           end) s ->
  wp (loop i body) Q s.
Proof.
  intros H. apply wp_loop. eapply wp_mono; [exact H|]. intros [i'|b] s' ?; [done|].
  by apply wp_ret.
Qed.

Lemma wp_loop_inv {I B} (Inv : I -> S -> Prop) (m : I -> S -> nat) i
    (body : I -> prog S (I + B)) Q s :
  Inv i s ->
  (forall i s, Inv i s ->
     wp (body i) (fun r s' => match r with
                              | inl i' => Inv i' s' /\ m i' s' < m i s
                              | inr b => Q b s'
                              end) s) ->
  wp (loop i body) Q s.
Proof.
  intros HI H. eapply (wp_loop_measure Inv m); [done|]. intros i' s' HI'.
  eapply wp_mono; [by apply H|]. intros [i2|b] s2; [done|]. intros; by apply wp_ret.
Qed.
End CoreRules.

Arguments bind : simpl never.
Arguments load : simpl never.
Arguments store : simpl never.
Arguments exchange : simpl never.
Arguments fetch : simpl never.
Arguments cas : simpl never.
Arguments cas_weak : simpl never.
Arguments act : simpl never.
Arguments pause : simpl never.
Arguments lock : simpl never.
Arguments unlock : simpl never.
Arguments loop : simpl never.
Arguments undefined : simpl never.
Arguments wrapu : simpl never.
Arguments wraps : simpl never.

(** One step of symbolic execution, and as many as do not need a decision. *)
Ltac wp_step :=
  lazymatch goal with
  | |- wp (Ret _) _ _ => apply wp_ret
  | |- wp (bind (Ret _) _) _ _ => apply wp_ret_bind
  | |- wp (bind (load _) _) _ _ => apply wp_load_bind
  | |- wp (load _) _ _ => apply wp_load
  | |- wp (bind (store _ _) _) _ _ => apply wp_store_bind
  | |- wp (store _ _) _ _ => apply wp_store
  | |- wp (bind (exchange _ _) _) _ _ => apply wp_exchange_bind
  | |- wp (bind (fetch _ _) _) _ _ => apply wp_fetch_bind
  | |- wp (fetch _ _) _ _ => apply wp_fetch
  | |- wp (bind pause _) _ _ => apply wp_pause_bind
  | |- wp (bind (unlock _) _) _ _ => apply wp_store_bind
  | |- wp (unlock _) _ _ => apply wp_store
  | |- wp (bind (act _) _) _ _ => apply wp_act_bind
  | |- wp (act _) _ _ => apply wp_act_last
  | |- wp (bind (bind _ _) _) _ _ => apply wp_assoc
  end; simpl.
Ltac wp_go := repeat wp_step.

(** The same for runs that reach undefined behaviour. *)
Ltac wrong_step :=
  lazymatch goal with
  | |- goes_wrong (bind (Ret ?a) ?g) _ => change (goes_wrong (g a)); cbv beta
  | |- goes_wrong (bind (bind _ _) _) _ => fail "reassociate"
  | |- goes_wrong _ _ => apply wrong_act; simpl
  end.

(** A field behaves like a field of a record. *)
Class FieldOk {S B} (v : field S B) : Prop := {
  rd_wr s x : rd v (wr v x s) = x;
  wr_wr s x y : wr v x (wr v y s) = wr v x s;
  wr_rd s : wr v (rd v s) s = s;
}.

Lemma exec_zoom {W S} (v : field W S) `{!FieldOk v} {A} (p : prog S A) s a s' w :
  exec p s a s' -> rd v w = s -> exec (zoom v p) w a (wr v s' w).
Proof.
  intros H; revert w; induction H as
    [A a s|A C f k s c s1 a s2 Hf _ IH|A I C body i k s r s1 a s2 _ IH1 _ IH2];
    intros w Hw; simpl.
  - rewrite <- Hw, wr_rd. constructor.
  - eapply exec_act; [by rewrite Hw, Hf|].
    rewrite <- (wr_wr w s2 s1). apply IH, rd_wr.
  - eapply exec_loop; [by apply IH1|].
    rewrite <- (wr_wr w s2 s1).
    assert (E : forall (r0 : I + C),
      zoom v (match r0 with inl i' => Loop body i' k | inr b => k b end) =
      match r0 with inl i' => Loop (fun i => zoom v (body i)) i' (fun b => zoom v (k b))
                  | inr b => zoom v (k b) end) by by intros [].
    rewrite <- E. apply IH2, rd_wr.
Qed.

Lemma wp_zoom {W S} (v : field W S) `{!FieldOk v} {A} (p : prog S A) Q w :
  wp p (fun a s' => Q a (wr v s' w)) (rd v w) -> wp (zoom v p) Q w.
Proof. intros (a & s' & H & HQ). exists a, (wr v s' w); split; [|done]. by eapply exec_zoom. Qed.

Lemma wp_zoom_bind {W S} (v : field W S) `{!FieldOk v} {A B} (p : prog S A)
    (g : A -> prog W B) Q w :
  wp p (fun a s' => wp (g a) Q (wr v s' w)) (rd v w) -> wp (x <- zoom v p ;; g x) Q w.
Proof. intros H. by apply wp_bind, wp_zoom. Qed.

(** A component's undefined behaviour is the whole's. *)
Lemma run_zoom {W S} (v : field W S) `{!FieldOk v} {A} n (p : prog S A) w :
  match run n p (rd v w) with
  | Done a s => run n (zoom v p) w = Done a (wr v s w)
  | Blocked s => run n (zoom v p) w = Blocked (wr v s w)
  | Undefined s => run n (zoom v p) w = Undefined (wr v s w)
  | OutOfFuel => run n (zoom v p) w = OutOfFuel
  end.
Proof.
  revert A p w; induction n as [|n IH]; intros A p w; [done|].
  destruct p as [a|B f k|I B body i k]; simpl.
  - by rewrite wr_rd.
  - destruct (f false (rd v w)) as [b s1| |] eqn:E; [|by rewrite wr_rd..].
    specialize (IH _ (k b) (wr v s1 w)). rewrite rd_wr in IH.
    destruct (run n (k b) s1); rewrite IH, ?wr_wr; done.
  - pose proof (IH _ (body i) w) as H1.
    destruct (run n (body i) (rd v w)) as [[i'|b] s1| | |]; rewrite H1; try done.
    + specialize (IH _ (Loop body i' k) (wr v s1 w)). rewrite rd_wr in IH. simpl in IH.
      destruct (run n (Loop body i' k) s1); rewrite IH, ?wr_wr; done.
    + specialize (IH _ (k b) (wr v s1 w)). rewrite rd_wr in IH.
      destruct (run n (k b) s1); rewrite IH, ?wr_wr; done.
Qed.

Lemma wrong_zoom {W S} (v : field W S) `{!FieldOk v} {A} (p : prog S A) w :
  goes_wrong p (rd v w) -> goes_wrong (zoom v p) w.
Proof.
  intros (n & s & H). pose proof (run_zoom v n p w) as Hz. rewrite H in Hz. by exists n, (wr v s w).
Qed.

Lemma diverges_zoom {W S} (v : field W S) `{!FieldOk v} {A} (p : prog S A) w :
  diverges p (rd v w) -> diverges (zoom v p) w.
Proof. intros H n. pose proof (run_zoom v n p w) as Hz. by rewrite (H n) in Hz. Qed.

Arguments zoom : simpl never.
Lemma exec_zoom_at {W O S} (heap : field W (gmap ptr O)) (p : ptr) (v : field O S)
    `{!FieldOk heap, !FieldOk v} {A} (q : prog S A) s a s' w o :
  exec q s a s' -> rd heap w !! p = Some o -> rd v o = s ->
  exec (zoom_at heap p v q) w a (wr heap (<[p := wr v s' o]> (rd heap w)) w).
Proof.
  intros H; revert w o; induction H as
    [A a s|A C f k s c s1 a s2 Hf _ IH|A I C body i k s r s1 a s2 _ IH1 _ IH2];
    intros w o Ho Hw; simpl.
  - rewrite <- Hw, wr_rd, insert_id, wr_rd by done. constructor.
  - eapply exec_act; [by rewrite Ho, Hw, Hf|].
    assert (E : wr heap (<[p:=wr v s2 o]> (rd heap w)) w =
      let w1 := wr heap (<[p:=wr v s1 o]> (rd heap w)) w in
      wr heap (<[p:=wr v s2 (wr v s1 o)]> (rd heap w1)) w1).
    { simpl. by rewrite rd_wr, wr_wr, insert_insert_eq, wr_wr. }
    rewrite E. apply IH; [by rewrite rd_wr, lookup_insert_eq|apply rd_wr].
  - eapply exec_loop; [by apply IH1|].
    assert (E : wr heap (<[p:=wr v s2 o]> (rd heap w)) w =
      let w1 := wr heap (<[p:=wr v s1 o]> (rd heap w)) w in
      wr heap (<[p:=wr v s2 (wr v s1 o)]> (rd heap w1)) w1).
    { simpl. by rewrite rd_wr, wr_wr, insert_insert_eq, wr_wr. }
    rewrite E.
    assert (E2 : forall (r0 : I + C),
      zoom_at heap p v (match r0 with inl i' => Loop body i' k | inr b => k b end) =
      match r0 with inl i' => Loop (fun i => zoom_at heap p v (body i)) i' (fun b => zoom_at heap p v (k b))
                  | inr b => zoom_at heap p v (k b) end) by by intros [].
    rewrite <- E2. apply IH2; [by rewrite rd_wr, lookup_insert_eq|apply rd_wr].
Qed.

Lemma wp_zoom_at_bind {W O S} (heap : field W (gmap ptr O)) (p : ptr) (v : field O S)
    `{!FieldOk heap, !FieldOk v} {A B} (q : prog S A) (g : A -> prog W B) Q w o :
  rd heap w !! p = Some o ->
  wp q (fun a s' => wp (g a) Q (wr heap (<[p := wr v s' o]> (rd heap w)) w)) (rd v o) ->
  wp (x <- zoom_at heap p v q ;; g x) Q w.
Proof.
  intros Ho (a & s' & H & HQ). apply wp_bind.
  exists a, (wr heap (<[p := wr v s' o]> (rd heap w)) w). split; [|done].
  by eapply exec_zoom_at.
Qed.

Lemma exec_zoom_opt {W S} (v : field W (option S)) `{!FieldOk v} {A} (q : prog S A) s a s' w :
  exec q s a s' -> rd v w = Some s -> exec (zoom_opt v q) w a (wr v (Some s') w).
Proof.
  intros H; revert w; induction H as
    [A a s|A C f k s c s1 a s2 Hf _ IH|A I C body i k s r s1 a s2 _ IH1 _ IH2];
    intros w Hw; simpl.
  - rewrite <- Hw, wr_rd. constructor.
  - eapply exec_act; [by rewrite Hw, Hf|].
    rewrite <- (wr_wr w (Some s2) (Some s1)). apply IH, rd_wr.
  - eapply exec_loop; [by apply IH1|].
    rewrite <- (wr_wr w (Some s2) (Some s1)).
    assert (E : forall (r0 : I + C),
      zoom_opt v (match r0 with inl i' => Loop body i' k | inr b => k b end) =
      match r0 with inl i' => Loop (fun i => zoom_opt v (body i)) i' (fun b => zoom_opt v (k b))
                  | inr b => zoom_opt v (k b) end) by by intros [].
    rewrite <- E. apply IH2, rd_wr.
Qed.

Lemma wp_zoom_opt_bind {W S} (v : field W (option S)) `{!FieldOk v} {A B} (q : prog S A)
    (g : A -> prog W B) Q w s :
  rd v w = Some s -> wp q (fun a s' => wp (g a) Q (wr v (Some s') w)) s ->
  wp (x <- zoom_opt v q ;; g x) Q w.
Proof.
  intros Hs (a & s' & H & HQ). apply wp_bind. exists a, (wr v (Some s') w).
  split; [by eapply exec_zoom_opt|done].
Qed.

Arguments zoom_opt : simpl never.

(** The field that is the whole state, and a field of a field. *)
Definition whole {S} : field S S := Field (fun s => s) (fun s _ => s).
#[export] Instance whole_ok S : FieldOk (@whole S).
Proof. by split. Qed.

#[export] Instance sub_ok {S B C} (f : field S B) (g : field B C) :
  FieldOk f -> FieldOk g -> FieldOk (sub f g).
Proof.
  split; intros; simpl.
  - by rewrite !rd_wr.
  - by rewrite rd_wr, !wr_wr.
  - by rewrite !wr_rd.
Qed.

Arguments zoom_at : simpl never.


(** ** Arrays and objects

    An index out of range and an address that is not allocated are undefined
    behaviour. *)
Section Arrays.
Context {S B : Type} (a : field S (list B)).

Definition load_at (i : Z) : prog S B :=
  act (fun s => if (0 <=? i)%Z then
                  match rd a s !! Z.to_nat i with Some x => Go x s | None => Bad end
                else Bad).
Definition store_at (i : Z) (x : B) : prog S unit :=
  act (fun s => if (0 <=? i)%Z && (i <? Z.of_nat (length (rd a s)))%Z
                then Go tt (wr a (<[Z.to_nat i := x]> (rd a s)) s) else Bad).
Definition fetch_at (i : Z) (g : B -> B) : prog S B :=
  act (fun s => if (0 <=? i)%Z then
                  match rd a s !! Z.to_nat i with
                  | Some x => Go x (wr a (<[Z.to_nat i := g x]> (rd a s)) s)
                  | None => Bad
                  end
                else Bad).

Lemma wp_load_at_bind {A} i x (g : B -> prog S A) Q s :
  (0 <= i)%Z -> rd a s !! Z.to_nat i = Some x -> wp (g x) Q s ->
  wp (y <- load_at i ;; g y) Q s.
Proof. intros Hi Hx H. apply wp_act; simpl. by rewrite (proj2 (Z.leb_le _ _) Hi), Hx. Qed.

Lemma wp_store_at_bind {A} i x (g : unit -> prog S A) Q s :
  (0 <= i < Z.of_nat (length (rd a s)))%Z ->
  wp (g tt) Q (wr a (<[Z.to_nat i := x]> (rd a s)) s) ->
  wp (u <- store_at i x ;; g u) Q s.
Proof.
  intros Hi H. apply wp_act; simpl. rewrite (proj2 (Z.leb_le 0 i)) by lia.
  by rewrite (proj2 (Z.ltb_lt _ _)) by lia.
Qed.

Lemma wp_fetch_at_bind {A} i h x (g : B -> prog S A) Q s :
  (0 <= i)%Z -> rd a s !! Z.to_nat i = Some x ->
  wp (g x) Q (wr a (<[Z.to_nat i := h x]> (rd a s)) s) ->
  wp (y <- fetch_at i h ;; g y) Q s.
Proof. intros Hi Hx H. apply wp_act; simpl. by rewrite (proj2 (Z.leb_le _ _) Hi), Hx. Qed.
End Arrays.

Section Objects.
Context {S O : Type} (heap : field S (gmap ptr O)).

(** [p->f], [p->f = v], and the read-modify-write accesses to [p->f]. *)
Definition get {B} (p : ptr) (f : field O B) : prog S B :=
  act (fun s => match rd heap s !! p with Some o => Go (rd f o) s | None => Bad end).
Definition set {B} (p : ptr) (f : field O B) (v : B) : prog S unit :=
  act (fun s => match rd heap s !! p with
                | Some o => Go tt (wr heap (<[p := wr f v o]> (rd heap s)) s)
                | None => Bad
                end).
Definition modify {B} (p : ptr) (f : field O B) (g : B -> B) : prog S B :=
  act (fun s => match rd heap s !! p with
                | Some o => Go (rd f o) (wr heap (<[p := wr f (g (rd f o)) o]> (rd heap s)) s)
                | None => Bad
                end).
Definition cas_on {B} `{EqDecision B} (p : ptr) (f : field O B) (expected new : B)
    : prog S (bool * B) :=
  act (fun s => match rd heap s !! p with
                | Some o => if decide (rd f o = expected)
                            then Go (true, rd f o) (wr heap (<[p := wr f new o]> (rd heap s)) s)
                            else Go (false, rd f o) s
                | None => Bad
                end).

Definition cas_weak_on {B} `{EqDecision B} (p : ptr) (f : field O B) (expected new : B)
    : prog S (bool * B) :=
  Act (fun sp s => match rd heap s !! p with
                   | Some o => if decide (rd f o = expected)
                               then if sp then Go (false, rd f o) s
                                    else Go (true, rd f o) (wr heap (<[p := wr f new o]> (rd heap s)) s)
                               else Go (false, rd f o) s
                   | None => Bad
                   end) Ret.

Lemma wp_cas_on_bind {A B} `{EqDecision B} p o (f : field O B) expected new
    (g : bool * B -> prog S A) Q s :
  rd heap s !! p = Some o ->
  (if decide (rd f o = expected)
   then wp (g (true, rd f o)) Q (wr heap (<[p := wr f new o]> (rd heap s)) s)
   else wp (g (false, rd f o)) Q s) ->
  wp (y <- cas_on p f expected new ;; g y) Q s.
Proof. intros Ho H. apply wp_act; simpl. rewrite Ho. by destruct (decide _). Qed.

Lemma wp_cas_weak_on_bind {A B} `{EqDecision B} p o (f : field O B) expected new
    (g : bool * B -> prog S A) Q s :
  rd heap s !! p = Some o ->
  (if decide (rd f o = expected)
   then wp (g (true, rd f o)) Q (wr heap (<[p := wr f new o]> (rd heap s)) s)
   else wp (g (false, rd f o)) Q s) ->
  wp (y <- cas_weak_on p f expected new ;; g y) Q s.
Proof. intros Ho H. apply wp_act; simpl. rewrite Ho. by destruct (decide _). Qed.

Lemma wp_get_bind {A B} p o (f : field O B) (g : B -> prog S A) Q s :
  rd heap s !! p = Some o -> wp (g (rd f o)) Q s -> wp (y <- get p f ;; g y) Q s.
Proof. intros Ho H. apply wp_act; simpl. by rewrite Ho. Qed.

Lemma wp_set_bind {A B} p o (f : field O B) v (g : unit -> prog S A) Q s :
  rd heap s !! p = Some o -> wp (g tt) Q (wr heap (<[p := wr f v o]> (rd heap s)) s) ->
  wp (u <- set p f v ;; g u) Q s.
Proof. intros Ho H. apply wp_act; simpl. by rewrite Ho. Qed.

Lemma wp_set {B} p o (f : field O B) v Q s :
  rd heap s !! p = Some o -> Q tt (wr heap (<[p := wr f v o]> (rd heap s)) s) -> wp (set p f v) Q s.
Proof. intros Ho H. apply wp_act; simpl. rewrite Ho. by apply wp_ret. Qed.

Lemma wp_modify_bind {A B} p o (f : field O B) h (g : B -> prog S A) Q s :
  rd heap s !! p = Some o ->
  wp (g (rd f o)) Q (wr heap (<[p := wr f (h (rd f o)) o]> (rd heap s)) s) ->
  wp (y <- modify p f h ;; g y) Q s.
Proof. intros Ho H. apply wp_act; simpl. by rewrite Ho. Qed.
End Objects.

Arguments load_at : simpl never.
Arguments store_at : simpl never.
Arguments fetch_at : simpl never.
Arguments get : simpl never.
Arguments set : simpl never.
Arguments modify : simpl never.
Arguments cas_on : simpl never.
Arguments cas_weak_on : simpl never.

(** ** Interleaving semantics: threads sharing the state

    A configuration is a pool of threads and the shared state.  One step picks
    a thread and performs its next atomic action (sequentially consistent
    interleaving); the scheduler also picks the spurious failures. *)
Definition tstep {S A} (sp : bool) (p : prog S A) (s : S) : option (prog S A * S) :=
  match p with
  | Ret _ => None
  | Act f k => match f sp s with Go b s' => Some (k b, s') | Block | Bad => None end
  | Loop body i k =>
      Some (bind (body i)
              (fun r => match r with inl i' => Loop body i' k | inr b => k b end), s)
  end.

(** The thread's next action has undefined behaviour. *)
Definition is_bad {S A} (p : prog S A) (s : S) : bool :=
  match p with
  | Act f _ => match f false s with Bad => true | Go _ _ | Block => false end
  | Ret _ | Loop _ _ _ => false
  end.

(** The thread can neither go on (but for a spurious wake-up) nor has it returned. *)
Definition is_stuck {S A} (s : S) (p : prog S A) : bool :=
  match tstep false p s, p with None, Act _ _ => true | _, _ => false end.

(** The thread has returned. *)
Definition result {S A} (p : prog S A) : option A :=
  match p with Ret a => Some a | Act _ _ | Loop _ _ _ => None end.

Definition conf (S A : Type) : Type := list (prog S A) * S.

Inductive pstep {S A} : conf S A -> conf S A -> Prop :=
| pstep_thread ts s i sp p p' s' :
    ts !! i = Some p -> tstep sp p s = Some (p', s') ->
    pstep (ts, s) (<[i := p']> ts, s').

Definition reachable {S A} (c c' : conf S A) : Prop := rtc pstep c c'.

(** A schedule: which thread moves, and whether its weak CAS fails. *)
Fixpoint sched {S A} (l : list (nat * bool)) (c : conf S A) : option (conf S A) :=
  match l with
  | [] => Some c
  | (i, sp) :: l =>
      match c.1 !! i with
      | Some p => match tstep sp p c.2 with
                  | Some (p', s') => sched l (<[i := p']> c.1, s')
                  | None => None
                  end
      | None => None
      end
  end.

(** [n] uninterrupted steps of thread [i]. *)
Definition turn (i n : nat) : list (nat * bool) := replicate n (i, false).

(** What a schedule leads to, the part that evaluates to a first-order value:
    the threads' results and an observation of the state. *)
Definition sched_results {S A O} (obs : S -> O) (l : list (nat * bool)) (c : conf S A)
    : option (list (option A) * O) :=
  (fun c' : conf S A => (result <$> c'.1, obs c'.2)) <$> sched l c.

(** After the schedule the next action of thread [i] is undefined. *)
Definition sched_is_bad {S A} (i : nat) (l : list (nat * bool)) (c : conf S A) : bool :=
  match sched l c with
  | Some c' => match c'.1 !! i with Some t => is_bad t c'.2 | None => false end
  | None => false
  end.

(** Thread [i] moves, without spurious failures, until [stop] holds, it cannot
    go on or the fuel is used up; and several such stretches. *)
Fixpoint go_until {S A} (fuel : nat) (stop : S -> bool) (i : nat) (c : conf S A) : conf S A :=
  match fuel with
  | O => c
  | Datatypes.S fuel =>
      if stop c.2 then c
      else match c.1 !! i with
           | Some p => match tstep false p c.2 with
                       | Some (p', s') => go_until fuel stop i (<[i := p']> c.1, s')
                       | None => c
                       end
           | None => c
           end
  end.

Inductive stretch (S : Type) := Until (i : nat) (stop : S -> bool) | Steps (i n : nat) | All (i : nat).
Arguments Until {S} i stop.
Arguments Steps {S} i n.
Arguments All {S} i.

Definition go {S A} (fuel : nat) (x : stretch S) (c : conf S A) : conf S A :=
  match x with
  | Until i stop => go_until fuel stop i c
  | Steps i n => go_until n (fun _ => false) i c
  | All i => go_until fuel (fun _ => false) i c
  end.

Fixpoint drive {S A} (fuel : nat) (l : list (stretch S)) (c : conf S A) : conf S A :=
  match l with [] => c | x :: l => drive fuel l (go fuel x c) end.

(** What the threads returned, which of them are about to do something
    undefined, and an observation of the state. *)
Definition drive_results {S A O} (obs : S -> O) (fuel : nat) (l : list (stretch S)) (c : conf S A)
    : list (option A) * list bool * O :=
  let c' := drive fuel l c in (result <$> c'.1, (fun p => is_bad p c'.2) <$> c'.1, obs c'.2).

Section Pool.
Context {S A : Type}.
Implicit Types c : conf S A.

Lemma sched_reachable l c c' : sched l c = Some c' -> reachable c c'.
Proof.
  revert c; induction l as [|[i sp] l IH]; intros [ts s] H; simpl in H.
  - injection H as <-. apply rtc_refl.
  - destruct (ts !! i) as [p|] eqn:Hi; [|done].
    destruct (tstep sp p s) as [[p' s']|] eqn:Hs; [|done].
    eapply rtc_l; [by econstructor|by apply IH].
Qed.

Lemma sched_results_reachable {O} (obs : S -> O) l c rs o :
  sched_results obs l c = Some (rs, o) ->
  exists ts s, reachable c (ts, s) /\ (result <$> ts) = rs /\ obs s = o.
Proof.
  unfold sched_results. destruct (sched l c) as [[ts s]|] eqn:E; [|done].
  intros [= <- <-]. exists ts, s. split; [by eapply sched_reachable|done].
Qed.

Lemma sched_is_bad_reachable i l c : sched_is_bad i l c = true ->
  exists ts s t, reachable c (ts, s) /\ ts !! i = Some t /\ is_bad t s = true.
Proof.
  unfold sched_is_bad. destruct (sched l c) as [[ts s]|] eqn:E; [|done]. simpl.
  destruct (ts !! i) as [t|] eqn:Et; [|done]. intros Hb.
  exists ts, s, t. split; [by eapply sched_reachable|done].
Qed.

Lemma go_until_reachable fuel stop i c : reachable c (go_until fuel stop i c).
Proof.
  revert c; induction fuel as [|fuel IH]; intros [ts s]; [apply rtc_refl|]. simpl.
  destruct (stop s); [apply rtc_refl|]. destruct (ts !! i) as [p|] eqn:Hi; [|apply rtc_refl].
  destruct (tstep false p s) as [[p' s']|] eqn:Hs; [|apply rtc_refl].
  eapply rtc_l; [by econstructor|apply IH].
Qed.

Lemma drive_reachable fuel l c : reachable c (drive fuel l c).
Proof.
  revert c; induction l as [|x l IH]; intros c; [apply rtc_refl|]. simpl.
  unfold reachable. etrans; [|apply IH]. destruct x; apply go_until_reachable.
Qed.

Lemma drive_results_reachable {O} (obs : S -> O) fuel l c rs bads o :
  drive_results obs fuel l c = (rs, bads, o) ->
  exists ts s, reachable c (ts, s) /\ (result <$> ts) = rs /\
    ((fun p => is_bad p s) <$> ts) = bads /\ obs s = o.
Proof.
  unfold drive_results. intros [= <- <- <-]. destruct (drive fuel l c) as [ts s] eqn:E.
  exists ts, s. split; [rewrite <- E; apply drive_reachable|done].
Qed.

Lemma result_lookup (ts : list (prog S A)) rs i r :
  (result <$> ts) = rs -> rs !! i = Some (Some r) -> ts !! i = Some (Ret r).
Proof.
  intros <- H. apply list_lookup_fmap_Some in H as (p & Hr & Hp).
  destruct p; simplify_eq/=. done.
Qed.

Lemma reachable_inv (Inv : conf S A -> Prop) c c' :
  Inv c -> (forall c c', Inv c -> pstep c c' -> Inv c') -> reachable c c' -> Inv c'.
Proof. intros H0 Hstep; induction 1 as [|c1 c2 c3 Hs _ IH]; eauto. Qed.

Lemma exec_pool {B} (p : prog S B) s b s' (g : B -> prog S A) ts i :
  exec p s b s' -> ts !! i = Some (bind p g) ->
  reachable (ts, s) (<[i := g b]> ts, s').
Proof.
  intros H; revert g ts; induction H as
    [B b s|B C f k s c s1 b s2 Hf _ IH|B I C body i0 k s r s1 b s2 _ IH1 _ IH2];
    intros g ts Hi.
  - rewrite list_insert_id by done. apply rtc_refl.
  - eapply rtc_l.
    + eapply (pstep_thread _ _ i false); [exact Hi|]. simpl. by rewrite Hf.
    + rewrite <- (list_insert_insert_eq ts i (g b) (bind (k c) g)).
      apply IH. apply list_lookup_insert_eq. by eapply lookup_lt_Some.
  - eapply rtc_l; [eapply (pstep_thread _ _ i false); [exact Hi|done]|].
    pose proof (lookup_lt_Some _ _ _ Hi) as Hlt.
    etrans.
    + apply IH1. rewrite list_lookup_insert_eq by done. done.
    + simpl. rewrite list_insert_insert_eq.
      destruct r as [i'|b']; simpl in *;
        [rewrite <- (list_insert_insert_eq ts i (g b)
           (Loop body i' (fun b => bind (k b) g)))
        |rewrite <- (list_insert_insert_eq ts i (g b) (bind (k b') g))];
        apply IH2; by apply list_lookup_insert_eq.
Qed.
End Pool.
