(* ===== verification/Concurrency.v ===== *)
(** * A rely-guarantee logic with ghost state

    The lock-free parts of the library are verified under every interleaving of
    their atomic actions.  This file gives the proof rules: a global invariant
    [I] on the shared state and a ghost state, a guarantee [G i] that the steps
    of thread [i] satisfy, and triples [rg i P p Q] for a thread whose local
    assertion [P] is stable under the guarantees of the others.  [rg_adequacy]
    turns one triple per thread into a fact about every reachable
    configuration of the pool. *)

From Stdlib Require Import ZArith Lia FunctionalExtensionality.
From stdpp Require Import base numbers list gmap relations option.
From S2P Require Import Prelude.

#[local] Arguments bind : simpl nomatch.

Lemma bind_assoc {S A B C} (p : prog S A) (g : A -> prog S B) (h : B -> prog S C) :
  bind (bind p g) h = bind p (fun a => bind (g a) h).
Proof.
  revert B C g h; induction p as [A a|A D f k IH|A J D body IHb i k IH];
    intros B C g h; cbn [bind]; [done|f_equal; apply functional_extensionality; intros; apply IH..].
Qed.

Lemma bind_ret {S A} (p : prog S A) : bind p Ret = p.
Proof.
  induction p as [A a|A D f k IH|A J D body IHb i k IH]; cbn [bind];
    [done|f_equal; apply functional_extensionality; intros; apply IH..].
Qed.

Section RelyGuarantee.
Context {S Γ : Type}.
Abbreviation cfg := (S * Γ)%type.
Context (I : cfg -> Prop) (G : nat -> cfg -> cfg -> Prop).

Definition env_step (i : nat) (c c' : cfg) : Prop :=
  exists j, j <> i /\ G j c c' /\ I c'.
Definition rely (i : nat) : cfg -> cfg -> Prop := rtc (env_step i).

(** An assertion other threads cannot invalidate. *)
Definition stable (i : nat) (P : cfg -> Prop) : Prop :=
  forall j c c', j <> i -> I c -> P c -> G j c c' -> I c' -> P c'.

Lemma stable_rely i P c c' : stable i P -> I c -> P c -> rely i c c' -> I c' /\ P c'.
Proof.
  intros Hst HI HP Hr. induction Hr as [c|c1 c2 c3 (j & Hj & HG & HI2) _ IH]; [done|].
  apply IH; [done|]. exact (Hst j c1 c2 Hj HI HP HG HI2).
Qed.

(** [safe i n p c Q]: for [n] more steps of thread [i] running [p], whatever
    the others do meanwhile, no undefined behaviour, the invariant and the
    guarantee are kept, and a returned value satisfies [Q]. *)
Fixpoint safe (i n : nat) {A} (p : prog S A) (c : cfg) (Q : A -> cfg -> Prop) : Prop :=
  match n with
  | O => True
  | Datatypes.S n =>
      forall c1, rely i c c1 -> I c1 ->
        (forall a, result p = Some a -> Q a c1) /\
        is_bad p c1.1 = false /\
        (forall sp p' s', tstep sp p c1.1 = Some (p', s') ->
           exists γ', G i c1 (s', γ') /\ I (s', γ') /\ safe i n p' (s', γ') Q)
  end.

Definition rg (i : nat) {A} (P : cfg -> Prop) (p : prog S A) (Q : A -> cfg -> Prop) : Prop :=
  forall c n, I c -> P c -> safe i n p c Q.

Lemma safe_rely i n {A} (p : prog S A) c c' Q : safe i n p c Q -> rely i c c' -> safe i n p c' Q.
Proof.
  destruct n; simpl; [done|]. intros H Hr c1 Hr1. apply H. unfold rely. by etrans.
Qed.

Lemma safe_mono i n m {A} (p : prog S A) c Q : m <= n -> safe i n p c Q -> safe i m p c Q.
Proof.
  revert m p c; induction n as [|n IH]; intros [|m] p c Hle; simpl; try done; [lia|].
  intros H c1 Hr HI1. destruct (H c1 Hr HI1) as (HQ & Hb & Hs). split; [done|]. split; [done|].
  intros sp p' s' Hst. destruct (Hs _ _ _ Hst) as (γ' & ? & ? & ?). exists γ'; split; [done|].
  split; [done|]. apply IH; [lia|done].
Qed.

Lemma safe_bind i n {A B} (p : prog S A) (g : A -> prog S B) c Q Q' :
  I c ->
  (forall a c' m, m <= n -> I c' -> Q a c' -> safe i m (g a) c' Q') ->
  safe i n p c Q -> safe i n (bind p g) c Q'.
Proof.
  revert p c; induction n as [|n IH]; intros p c HI0 Hg Hp; [done|].
  destruct p as [a|D f k|J D body j k].
  - eapply safe_mono; [exact (le_n _)|]. apply Hg; [lia|done|].
    destruct (Hp c) as (HQ & _); [apply rtc_refl|done|]. by apply HQ.
  - cbn [safe] in Hp |- *. intros c1 Hr HI1. destruct (Hp c1 Hr HI1) as (_ & Hb & Hs).
    split; [done|]. split; [exact Hb|]. intros sp p' s' Hst. cbn [bind tstep] in *.
    destruct (f sp c1.1) as [b s1| |] eqn:E; [|done..]. injection Hst as <- <-.
    destruct (Hs sp (k b) s1) as (γ' & HG & HI' & Hsafe); [by rewrite E|].
    exists γ'; split; [done|]. split; [done|]. apply IH; [done| |done].
    intros a c' m Hm. apply Hg; lia.
  - cbn [safe] in Hp |- *. intros c1 Hr HI1. destruct (Hp c1 Hr HI1) as (_ & Hb & Hs).
    split; [done|]. split; [done|]. intros sp p' s' Hst. cbn [bind tstep] in *.
    injection Hst as <- <-. destruct (Hs sp _ _ eq_refl) as (γ' & HG & HI' & Hsafe).
    exists γ'; split; [done|]. split; [done|].
    apply (IH _ (c1.1, γ')) in Hsafe; [|done|intros a c' m Hm; apply Hg; lia].
    rewrite bind_assoc in Hsafe.
    assert (E : (fun r => bind (match r with inl i' => Loop body i' k | inr b => k b end) g) =
                (fun r => match r with
                          | inl i' => Loop body i' (fun b => bind (k b) g)
                          | inr b => bind (k b) g
                          end)) by (apply functional_extensionality; by intros []).
    rewrite E in Hsafe. exact Hsafe.
Qed.

Lemma rg_bind i {A B} P (p : prog S A) (g : A -> prog S B) R Q :
  rg i P p R -> (forall a, rg i (R a) (g a) Q) -> rg i P (bind p g) Q.
Proof.
  intros Hp Hg c n HI HP. eapply safe_bind; [done| |by apply Hp].
  intros a c' m Hm HI' HR. by apply Hg.
Qed.

Lemma rg_ret i {A} (a : A) (P : cfg -> Prop) (Q : A -> cfg -> Prop) :
  stable i P -> (forall c, I c -> P c -> Q a c) -> rg i P (Ret a) Q.
Proof.
  intros Hst HQ c n HI HP. destruct n as [|n]; cbn [safe]; [done|]. intros c1 Hr HI1.
  destruct (stable_rely i P c c1 Hst HI HP Hr) as [_ HP1].
  split; [intros a0 [= <-]; by apply HQ|]. by split.
Qed.

Lemma rg_act i {A B} (f : bool -> S -> eff S B) (k : B -> prog S A) P P' Q :
  stable i P ->
  (forall sp s γ, I (s, γ) -> P (s, γ) ->
     match f sp s with
     | Go b s' => exists γ', G i (s, γ) (s', γ') /\ I (s', γ') /\ P' b (s', γ')
     | Block => True
     | Bad => False
     end) ->
  (forall b, rg i (P' b) (k b) Q) ->
  rg i P (Act f k) Q.
Proof.
  intros Hst Hf Hk c n HI HP. destruct n as [|n]; cbn [safe]; [done|]. intros [s1 γ1] Hr HI1.
  destruct (stable_rely i P c _ Hst HI HP Hr) as [_ HP1].
  split; [done|]. cbn [is_bad tstep fst]. split.
  - specialize (Hf false s1 γ1 HI1 HP1). by destruct (f false s1).
  - intros sp p' s' Hs. specialize (Hf sp s1 γ1 HI1 HP1).
    destruct (f sp s1) as [b s2| |]; [|done..]. injection Hs as <- <-.
    destruct Hf as (γ' & HG & HI' & HP'). exists γ'; split; [done|]. split; [done|].
    by apply Hk.
Qed.

(** The silent step that enters a loop must be allowed by the guarantee. *)
Hypothesis G_refl : forall i c, I c -> G i c c.

Lemma rg_loop i {A J B} (Inv : J -> cfg -> Prop) (body : J -> prog S (J + B)) j
    (k : B -> prog S A) R Q :
  (forall j, stable i (Inv j)) ->
  (forall j, rg i (Inv j) (body j)
               (fun r c => match r with inl j' => Inv j' c | inr b => R b c end)) ->
  (forall b, rg i (R b) (k b) Q) ->
  rg i (Inv j) (Loop body j k) Q.
Proof.
  intros Hst Hbody Hk c n. revert j c; induction n as [|n IH]; intros j c HI HP; [done|].
  cbn [safe]. intros [s1 γ1] Hr HI1.
  destruct (stable_rely i _ c _ (Hst j) HI HP Hr) as [_ HP1].
  split; [done|]. split; [done|]. intros sp p' s' [= <- <-].
  exists γ1; split; [by apply G_refl|]. split; [done|].
  eapply safe_bind; [done| |by apply Hbody].
  intros [j'|b] c' m Hm HI' HR; [|by apply Hk].
  eapply safe_mono; [exact Hm|]. by apply IH.
Qed.

Lemma rg_while i {J B} (Inv : J -> cfg -> Prop) (body : J -> prog S (J + B)) j R :
  (forall j, stable i (Inv j)) -> (forall b, stable i (R b)) ->
  (forall j, rg i (Inv j) (body j)
               (fun r c => match r with inl j' => Inv j' c | inr b => R b c end)) ->
  rg i (Inv j) (loop j body) R.
Proof.
  intros Hst HstR Hbody. eapply rg_loop; [done|exact Hbody|].
  intros b. by apply rg_ret.
Qed.

Lemma rg_pre i {A} (P P' : cfg -> Prop) (p : prog S A) Q :
  (forall c, I c -> P c -> P' c) -> rg i P' p Q -> rg i P p Q.
Proof. intros HP H c n HI HPc. apply H; auto. Qed.

Lemma safe_post i n {A} (p : prog S A) c (Q Q' : A -> cfg -> Prop) :
  (forall a c, I c -> Q a c -> Q' a c) -> safe i n p c Q -> safe i n p c Q'.
Proof.
  intros HQ. revert p c; induction n as [|n IH]; intros p c; cbn [safe]; [done|].
  intros H c1 Hr HI1. destruct (H c1 Hr HI1) as (Ha & Hb & Hs). split_and!; [auto|done|].
  intros sp p' s' Hst. destruct (Hs _ _ _ Hst) as (γ' & ? & ? & ?). exists γ'; auto.
Qed.

Lemma rg_post i {A} (P : cfg -> Prop) (p : prog S A) (Q Q' : A -> cfg -> Prop) :
  (forall a c, I c -> Q a c -> Q' a c) -> rg i P p Q -> rg i P p Q'.
Proof. intros HQ H c n HI HP. eapply safe_post; [exact HQ|by apply H]. Qed.

(** The rules for one atomic access followed by the rest of the function. *)
Lemma rg_atomic i {A B} (f : S -> eff S B) (g : B -> prog S A) P P' Q :
  stable i P ->
  (forall s γ, I (s, γ) -> P (s, γ) ->
     match f s with
     | Go b s' => exists γ', G i (s, γ) (s', γ') /\ I (s', γ') /\ P' b (s', γ')
     | Block => True
     | Bad => False
     end) ->
  (forall b, rg i (P' b) (g b) Q) ->
  rg i P (x <- act f ;; g x) Q.
Proof. intros Hst Hf Hg. apply (rg_act i (fun _ => f) g P P' Q Hst); auto. Qed.

Lemma rg_load i {A B} (v : field S B) (g : B -> prog S A) P P' Q :
  stable i P ->
  (forall s γ, I (s, γ) -> P (s, γ) -> P' (rd v s) (s, γ)) ->
  (forall b, rg i (P' b) (g b) Q) ->
  rg i P (x <- load v ;; g x) Q.
Proof.
  intros Hst Hf Hg. apply (rg_atomic i _ g P P' Q Hst); [|done].
  intros s γ HI HP. exists γ. auto.
Qed.

Lemma rg_store i {A B} (v : field S B) x (g : unit -> prog S A) P P' Q :
  stable i P ->
  (forall s γ, I (s, γ) -> P (s, γ) ->
     exists γ', G i (s, γ) (wr v x s, γ') /\ I (wr v x s, γ') /\ P' (wr v x s, γ')) ->
  rg i P' (g tt) Q ->
  rg i P (u <- store v x ;; g u) Q.
Proof.
  intros Hst Hf Hg. apply (rg_atomic i _ g P (fun _ => P') Q Hst); [done|by intros []].
Qed.

Lemma rg_store_last i {B} (v : field S B) x P (Q : unit -> cfg -> Prop) :
  stable i P -> stable i (Q tt) ->
  (forall s γ, I (s, γ) -> P (s, γ) ->
     exists γ', G i (s, γ) (wr v x s, γ') /\ I (wr v x s, γ') /\ Q tt (wr v x s, γ')) ->
  rg i P (store v x) Q.
Proof.
  intros Hst HstQ Hf. rewrite <- (bind_ret (store v x)).
  apply (rg_atomic i _ Ret P Q Q Hst); [done|intros []; by apply rg_ret].
Qed.

Lemma rg_exchange i {A B} (v : field S B) x (g : B -> prog S A) P P' Q :
  stable i P ->
  (forall s γ, I (s, γ) -> P (s, γ) ->
     exists γ', G i (s, γ) (wr v x s, γ') /\ I (wr v x s, γ') /\ P' (rd v s) (wr v x s, γ')) ->
  (forall b, rg i (P' b) (g b) Q) ->
  rg i P (y <- exchange v x ;; g y) Q.
Proof. intros Hst Hf Hg. apply (rg_atomic i _ g P P' Q Hst); auto. Qed.

Context {B : Type} `{EqDecision B}.
Lemma rg_cas i {A} (v : field S B) e n (g : bool * B -> prog S A) P P' Q :
  stable i P ->
  (forall s γ, I (s, γ) -> P (s, γ) -> rd v s = e ->
     exists γ', G i (s, γ) (wr v n s, γ') /\ I (wr v n s, γ') /\ P' (true, e) (wr v n s, γ')) ->
  (forall s γ, I (s, γ) -> P (s, γ) -> rd v s <> e -> P' (false, rd v s) (s, γ)) ->
  (forall b, rg i (P' b) (g b) Q) ->
  rg i P (y <- cas v e n ;; g y) Q.
Proof.
  intros Hst Ht Hf Hg. apply (rg_atomic i _ g P P' Q Hst); [|done].
  intros s γ HI HP. case_decide as Hd; [rewrite Hd; auto|exists γ; auto].
Qed.

Lemma rg_cas_weak i {A} (v : field S B) e n (g : bool * B -> prog S A) P P' Q :
  stable i P ->
  (forall s γ, I (s, γ) -> P (s, γ) -> rd v s = e ->
     exists γ', G i (s, γ) (wr v n s, γ') /\ I (wr v n s, γ') /\ P' (true, e) (wr v n s, γ')) ->
  (forall s γ, I (s, γ) -> P (s, γ) -> P' (false, rd v s) (s, γ)) ->
  (forall b, rg i (P' b) (g b) Q) ->
  rg i P (y <- cas_weak v e n ;; g y) Q.
Proof.
  intros Hst Ht Hf Hg. apply (rg_act i _ g P P' Q Hst); [|done].
  intros sp s γ HI HP. case_decide as Hd; [|exists γ; auto].
  destruct sp; [exists γ; auto|rewrite Hd; auto].
Qed.

(** One step of a pool of [k] threads: the guarantee of one of them. *)
Definition pool_step (k : nat) (c c' : cfg) : Prop := exists i, (i < k)%nat /\ G i c c' /\ I c'.

(** What every thread's step relates, the whole run relates. *)
Lemma pool_steps_ind k (R : cfg -> cfg -> Prop) (HR : PreOrder R)
  (Hstep : forall i c c', (i < k)%nat -> G i c c' -> I c' -> R c c') c c' : rtc (pool_step k) c c' -> R c c'.
Proof.
  intros Hr. induction Hr as [c|c1 c2 c3 (i & Hi & HG & HI) _ IH]; [reflexivity|].
  etrans; [by eapply Hstep|exact IH].
Qed.

(** One triple per thread: every reachable configuration satisfies the
    invariant for some ghost state which the guarantees of these threads led
    to, no thread is about to do something undefined, and the threads that
    have returned satisfy their postconditions. *)
Theorem rg_adequacy_steps {A} (ps : list (prog S A)) (Q : nat -> A -> cfg -> Prop) s γ ts s' :
  I (s, γ) ->
  (forall i p, ps !! i = Some p -> exists P, P (s, γ) /\ rg i P p (Q i)) ->
  reachable (ps, s) (ts, s') ->
  exists γ', rtc (pool_step (length ps)) (s, γ) (s', γ') /\ I (s', γ') /\ length ts = length ps /\
    forall i p, ts !! i = Some p ->
      is_bad p s' = false /\ forall a, result p = Some a -> Q i a (s', γ').
Proof.
  intros HI Hps Hreach. apply rtc_nsteps in Hreach as [n Hn].
  assert (Hsafe : forall i p, ps !! i = Some p -> safe i (Datatypes.S n) p (s, γ) (Q i)).
  { intros i p Hp. destruct (Hps i p Hp) as (P & HP & Hrg). by apply Hrg. }
  clear Hps. revert ps s γ HI Hsafe Hn.
  induction n as [|n IH]; intros ps s γ HI Hsafe Hn.
  - inversion Hn; subst. exists γ. split; [apply rtc_refl|]. split; [done|]. split; [done|]. intros i p Hp.
    destruct (Hsafe i p Hp (s', γ)) as (HQ & Hb & _); [apply rtc_refl|done|]. by split.
  - inversion Hn as [|? ? [ts1 s1] ? Hstep Hrest]; subst.
    inversion Hstep as [ts0 s0 i sp p p' s2 Hi Hst]; subst.
    destruct (Hsafe i p Hi (s, γ)) as (_ & _ & Hs); [apply rtc_refl|done|].
    destruct (Hs sp p' s1 Hst) as (γ1 & HG & HI1 & Hp').
    destruct (IH (<[i := p']> ps) s1 γ1 HI1) as (γ' & Hr & Hγ'); [|done|].
    + intros j q Hj. destruct (decide (i = j)) as [<-|Hne].
      * rewrite list_lookup_insert_eq in Hj by (by eapply lookup_lt_Some).
        by injection Hj as <-.
      * rewrite list_lookup_insert_ne in Hj by done.
        eapply (safe_mono _ (Datatypes.S (Datatypes.S n))); [lia|].
        eapply safe_rely; [by apply Hsafe|]. apply rtc_once. by exists i.
    + rewrite length_insert in *. exists γ'. split; [|exact Hγ']. eapply rtc_l; [|exact Hr].
      exists i. split; [by eapply lookup_lt_Some|done].
Qed.

Theorem rg_adequacy {A} (ps : list (prog S A)) (Q : nat -> A -> cfg -> Prop) s γ ts s' :
  I (s, γ) ->
  (forall i p, ps !! i = Some p -> exists P, P (s, γ) /\ rg i P p (Q i)) ->
  reachable (ps, s) (ts, s') ->
  exists γ', I (s', γ') /\ forall i p, ts !! i = Some p ->
    is_bad p s' = false /\ forall a, result p = Some a -> Q i a (s', γ').
Proof.
  intros HI Hps Hr. destruct (rg_adequacy_steps ps Q s γ ts s' HI Hps Hr) as (γ' & _ & HI' & _ & Hts).
  by exists γ'.
Qed.
End RelyGuarantee.

(** All threads have returned, with these results. *)
Definition returned {S A} (ts : list (prog S A)) (outs : list A) : Prop :=
  Forall2 (fun p a => result p = Some a) ts outs.

(** What holds of each thread's result then holds of the list of them. *)
Lemma returned_eq {S A} (ts : list (prog S A)) (outs xs : list A) : returned ts outs -> length ts = length xs ->
  (forall i a, ts !! i ≫= result = Some a -> xs !! i = Some a) -> outs = xs.
Proof.
  intros Hr Hl H. pose proof Hr as Hl'. apply Forall2_length in Hl'. apply list_eq_same_length with (n := length xs);
    [done|congruence|]. intros i x y Hi Hx Hy.
  destruct (Forall2_lookup_r _ _ _ i x Hr Hx) as (p & Hp & Ha).
  rewrite (H i x) in Hy by (by rewrite Hp). congruence.
Qed.

(** ** Partial correctness

    A thread that would do something undefined stops instead: what the logic
    then shows holds up to the first undefined behaviour. *)
Fixpoint forgive {S A} (p : prog S A) : prog S A :=
  match p with
  | Ret a => Ret a
  | Act f k => Act (fun sp s => match f sp s with Bad => Block | r => r end) (fun b => forgive (k b))
  | Loop body i k => Loop (fun i => forgive (body i)) i (fun b => forgive (k b))
  end.

Lemma forgive_bind {S A B} (p : prog S A) (g : A -> prog S B) :
  forgive (bind p g) = bind (forgive p) (fun a => forgive (g a)).
Proof.
  revert B g; induction p as [A a|A D f k IH|A J D body IHb i k IH]; intros B g; cbn [bind forgive];
    [done|f_equal; apply functional_extensionality; intros; apply IH..].
Qed.

Lemma forgive_result {S A} (p : prog S A) : result (forgive p) = result p.
Proof. by destruct p. Qed.

Lemma forgive_not_bad {S A} (p : prog S A) s : is_bad (forgive p) s = false.
Proof. destruct p as [|B f k|]; simpl; [done| |done]. by destruct (f false s). Qed.

Lemma forgive_step {S A} sp (p p' : prog S A) s s' :
  tstep sp p s = Some (p', s') -> tstep sp (forgive p) s = Some (forgive p', s').
Proof.
  destruct p as [a|B f k|J B body i k]; simpl; [done| |].
  - destruct (f sp s); [|done..]. by intros [= <- <-].
  - intros [= <- <-]. rewrite forgive_bind. do 3 f_equal. apply functional_extensionality. by intros [].
Qed.

Lemma forgive_reachable {S A} (ps ts : list (prog S A)) s s' :
  reachable (ps, s) (ts, s') -> reachable (forgive <$> ps, s) (forgive <$> ts, s').
Proof.
  intros H. change (reachable (forgive <$> (ps, s).1, (ps, s).2) (forgive <$> (ts, s').1, (ts, s').2)).
  induction H as [[ps0 s0]|c1 c2 c3 Hs _ IH]; [apply rtc_refl|].
  destruct Hs as [ts0 s0 i sp p p' s2 Hi Hst]. eapply rtc_l; [|exact IH]. simpl.
  rewrite list_fmap_insert. eapply pstep_thread; [by rewrite list_lookup_fmap, Hi|by apply forgive_step].
Qed.

Corollary rg_partial_adequacy {S Γ A} (I : S * Γ -> Prop) (G : nat -> S * Γ -> S * Γ -> Prop)
    (ps : list (prog S A)) (Q : nat -> A -> S * Γ -> Prop) s γ ts s' :
  I (s, γ) ->
  (forall i p, ps !! i = Some p -> exists P, P (s, γ) /\ rg I G i P (forgive p) (Q i)) ->
  reachable (ps, s) (ts, s') ->
  exists γ', I (s', γ') /\ forall i a, result <$> ts !! i = Some (Some a) -> Q i a (s', γ').
Proof.
  intros HI Hps Hr. destruct (rg_adequacy I G (forgive <$> ps) Q s γ (forgive <$> ts) s' HI) as (γ' & HI' & HQ).
  - intros i p Hp. apply list_lookup_fmap_Some in Hp as (q & -> & Hq). by apply Hps.
  - by apply forgive_reachable.
  - exists γ'. split; [done|]. intros i a Hi. destruct (ts !! i) as [p|] eqn:Hp; [|done]. injection Hi as Hi.
    eapply (HQ i (forgive p)); [by rewrite list_lookup_fmap, Hp|by rewrite forgive_result].
Qed.

(** ** Frames

    [keeps J R p Φ]: in states satisfying [J], which [R] preserves, the actions
    of [p] make only changes allowed by [R], and a value returned satisfies
    [Φ]. *)
Inductive keeps {S} (J : S -> Prop) (R : S -> S -> Prop) : forall {A}, prog S A -> (A -> Prop) -> Prop :=
| keeps_ret {A} (a : A) (Φ : A -> Prop) : Φ a -> keeps J R (Ret a) Φ
| keeps_act {A B} (f : bool -> S -> eff S B) (k : B -> prog S A) (Φ : A -> Prop) :
    (forall sp s b s', J s -> f sp s = Go b s' -> R s s') ->
    (forall sp s b s', J s -> f sp s = Go b s' -> keeps J R (k b) Φ) ->
    keeps J R (Act f k) Φ
| keeps_loop {A X B} (body : X -> prog S (X + B)) (i : X) (k : B -> prog S A) (Φ : A -> Prop)
    (Inv : X -> Prop) (Θ : B -> Prop) :
    Inv i ->
    (forall i, Inv i -> keeps J R (body i) (fun r => match r with inl i => Inv i | inr b => Θ b end)) ->
    (forall b, Θ b -> keeps J R (k b) Φ) ->
    keeps J R (Loop body i k) Φ.

Section Keeps.
Context {S : Type} (J : S -> Prop) (R : S -> S -> Prop).

Lemma keeps_bind {A B} (p : prog S A) (g : A -> prog S B) Φ Ψ :
  keeps J R p Ψ -> (forall a, Ψ a -> keeps J R (g a) Φ) -> keeps J R (bind p g) Φ.
Proof.
  intros H. revert B g Φ. induction H as [A a Ψ Ha|A C f k Ψ HR _ IH|A X C body i k Ψ Inv Θ Hi Hb _ _ IH2];
    intros B g Φ Hg; cbn [bind]; [by apply Hg| |].
  - constructor; [done|]. intros sp s b s' HJ E. by eapply IH.
  - apply (keeps_loop _ _ _ _ _ _ Inv Θ); [done|exact Hb|]. intros b Hb'. by apply IH2.
Qed.

Lemma keeps_mono {A} (p : prog S A) (Φ Ψ : A -> Prop) :
  keeps J R p Φ -> (forall a, Φ a -> Ψ a) -> keeps J R p Ψ.
Proof.
  intros H HΦ. rewrite <- (bind_ret p). eapply keeps_bind; [exact H|]. intros a Ha. constructor. by apply HΦ.
Qed.

Lemma keeps_one {B} (f : bool -> S -> eff S B) (Φ : B -> Prop) :
  (forall sp s b s', J s -> f sp s = Go b s' -> R s s' /\ Φ b) -> keeps J R (Act f Ret) Φ.
Proof.
  intros H. constructor; intros sp s b s' HJ E; destruct (H sp s b s' HJ E); [done|by constructor].
Qed.

(** A loop whose state carries no information. *)
Lemma keeps_while {X B} (i : X) (body : X -> prog S (X + B)) (Φ : B -> Prop) :
  (forall i, keeps J R (body i) (fun r => match r with inl _ => True | inr b => Φ b end)) ->
  keeps J R (loop i body) Φ.
Proof.
  intros H. apply (keeps_loop _ _ _ _ _ _ (fun _ => True) Φ); [done|by intros|]. intros b Hb. by constructor.
Qed.

(** The accesses to fields and objects: what they write must be allowed. *)
Hypothesis R_refl : forall s, J s -> R s s.

Lemma keeps_act_of {B} (f : S -> eff S B) :
  (forall s b s', J s -> f s = Go b s' -> R s s') -> keeps J R (act f) (fun _ => True).
Proof. intros H. apply keeps_one. intros sp s b s' HJ E. split; [by eapply H|done]. Qed.

Lemma keeps_load {B} (v : field S B) : keeps J R (load v) (fun _ => True).
Proof. apply keeps_act_of. intros s b s' HJ [= _ <-]. by apply R_refl. Qed.

Lemma keeps_write {B} (v : field S B) : (forall s x, J s -> R s (wr v x s)) ->
  (forall x, keeps J R (store v x) (fun _ => True)) /\
  (forall g, keeps J R (fetch v g) (fun _ => True)) /\
  (forall x, keeps J R (exchange v x) (fun _ => True)) /\
  (forall `{EqDecision B} e n, keeps J R (cas v e n) (fun _ => True)) /\
  (forall `{EqDecision B} e n, keeps J R (cas_weak v e n) (fun _ => True)).
Proof.
  intros H. split; [|split; [|split; [|split]]].
  1-3: intros x; apply keeps_act_of; intros s b s' HJ [= _ <-]; by apply H.
  - intros ? e n. apply keeps_act_of. intros s b s' HJ E.
    case_decide; injection E as <- <-; [by apply H|by apply R_refl].
  - intros ? e n. apply keeps_one. intros sp s b s' HJ E. split; [|done].
    case_decide; [destruct sp|]; injection E as <- <-; [by apply R_refl|by apply H|by apply R_refl].
Qed.

Lemma keeps_pause : keeps J R pause (fun _ => True).
Proof. apply keeps_act_of. intros s b s' HJ [= _ <-]. by apply R_refl. Qed.

Lemma keeps_int64 x : keeps J R (int64 x) (fun _ => True).
Proof. unfold int64. case_decide; [by constructor|]. by constructor. Qed.

Lemma keeps_lock (v : field S bool) : (forall s x, J s -> R s (wr v x s)) -> keeps J R (lock v) (fun _ => True).
Proof. intros H. apply keeps_act_of. intros s b s' HJ E. destruct (rd v s); [done|]. injection E as _ <-. by apply H. Qed.

Lemma keeps_array {B} (a : field S (list B)) : (forall s x, J s -> R s (wr a x s)) ->
  (forall i, keeps J R (load_at a i) (fun _ => True)) /\
  (forall i x, keeps J R (store_at a i x) (fun _ => True)) /\
  (forall i g, keeps J R (fetch_at a i g) (fun _ => True)).
Proof.
  intros H. split; [|split]; intros; apply keeps_act_of; intros s b s' HJ E; repeat case_match; try done;
    injection E as <- <-; by (apply H || apply R_refl).
Qed.

Lemma keeps_get {O B} (heap : field S (gmap ptr O)) p (f : field O B) : keeps J R (get heap p f) (fun _ => True).
Proof.
  apply keeps_act_of. intros s b s' HJ E. destruct (rd heap s !! p); [|done].
  injection E as _ <-. by apply R_refl.
Qed.

Lemma keeps_object {O B} (heap : field S (gmap ptr O)) p (f : field O B) :
  (forall s x, J s -> R s (wr heap x s)) ->
  (forall x, keeps J R (set heap p f x) (fun _ => True)) /\
  (forall g, keeps J R (modify heap p f g) (fun _ => True)) /\
  (forall `{EqDecision B} e n, keeps J R (cas_on heap p f e n) (fun _ => True)).
Proof.
  intros H. split; [|split].
  1-2: intros x; apply keeps_act_of; intros s b s' HJ E; destruct (rd heap s !! p); [|done];
    injection E as <- <-; by apply H.
  intros ? e n. apply keeps_act_of. intros s b s' HJ E. destruct (rd heap s !! p); [|done].
  case_decide; injection E as <- <-; [by apply H|by apply R_refl].
Qed.

(** A component that is a field of the state. *)
Lemma keeps_zoom {T A} (v : field S T) (p : prog T A) :
  (forall s x, J s -> R s (wr v x s)) -> keeps J R (zoom v p) (fun _ => True).
Proof.
  intros H. induction p as [A a|A B f k IH|A X B body IHb i k IH]; simpl.
  - by constructor.
  - constructor; intros sp s b s' HJ E; destruct (f sp (rd v s)) as [b1 s1| |]; try done;
    injection E as <- <-; (apply IH || by apply H).
  - apply (keeps_loop _ _ _ _ _ _ (fun _ => True) (fun _ => True)); [done| |intros; apply IH].
    intros j _. eapply keeps_mono; [apply IHb|]. by intros [].
Qed.

Lemma keeps_zoom_at {O T A} (heap : field S (gmap ptr O)) q (v : field O T) (p : prog T A) :
  (forall s x, J s -> R s (wr heap x s)) -> keeps J R (zoom_at heap q v p) (fun _ => True).
Proof.
  intros H. induction p as [A a|A B f k IH|A X B body IHb i k IH]; simpl.
  - by constructor.
  - constructor; intros sp s b s' HJ E; destruct (rd heap s !! q) as [o|]; try done;
      destruct (f sp (rd v o)) as [b1 s1| |]; try done; injection E as <- <-; (apply IH || by apply H).
  - apply (keeps_loop _ _ _ _ _ _ (fun _ => True) (fun _ => True)); [done| |intros; apply IH].
    intros j _. eapply keeps_mono; [apply IHb|]. by intros [].
Qed.

Lemma keeps_zoom_opt {T A} (v : field S (option T)) (p : prog T A) :
  (forall s x, J s -> R s (wr v x s)) -> keeps J R (zoom_opt v p) (fun _ => True).
Proof.
  intros H. induction p as [A a|A B f k IH|A X B body IHb i k IH]; simpl.
  - by constructor.
  - constructor; intros sp s b s' HJ E; destruct (rd v s) as [o|]; try done;
      destruct (f sp o) as [b1 s1| |]; try done; injection E as <- <-; (apply IH || by apply H).
  - apply (keeps_loop _ _ _ _ _ _ (fun _ => True) (fun _ => True)); [done| |intros; apply IH].
    intros j _. eapply keeps_mono; [apply IHb|]. by intros [].
Qed.

(** What keeps the frame is a step of a thread that keeps its assertion. *)
Lemma rg_keeps {Γ A} (I : S * Γ -> Prop) (G : nat -> S * Γ -> S * Γ -> Prop) i (P : S * Γ -> Prop)
    (p : prog S A) (Φ : A -> Prop) :
  (forall i c, I c -> G i c c) ->
  (forall s γ, I (s, γ) -> J s) ->
  (forall s s' γ, I (s, γ) -> P (s, γ) -> R s s' -> I (s', γ) /\ G i (s, γ) (s', γ) /\ P (s', γ)) ->
  stable I G i P ->
  keeps J R p Φ -> rg I G i P (forgive p) (fun a c => Φ a /\ P c).
Proof.
  intros HG HJ HR Hst H.
  induction H as [A a Φ Ha|A C f k Φ Hstep _ IH|A X C body x k Φ Inv Θ Hi _ IHb _ IHk]; cbn [forgive].
  - by apply rg_ret.
  - apply (rg_act I G i _ _ P (fun b c => P c /\ (rg I G i P (forgive (k b)) (fun a c => Φ a /\ P c)))); [exact Hst| |].
    + intros sp s γ HI HP. destruct (f sp s) as [b s'| |] eqn:E; [|done..].
      pose proof (IH sp s b s' (HJ _ _ HI) E) as Hk.
      destruct (HR _ _ _ HI HP (Hstep sp s b s' (HJ _ _ HI) E)) as (H1 & H2 & H3). by exists γ.
    + intros b c n HI [HP Hk]. by apply Hk.
  - apply (rg_pre I G i P (fun c => Inv x /\ P c)); [done|].
    apply (rg_loop I G HG i (fun y c => Inv y /\ P c) _ x _ (fun b c => Θ b /\ P c)).
    + intros y j c c' Hne HI [HInv HP] Hg HI'. split; [done|]. exact (Hst j c c' Hne HI HP Hg HI').
    + intros y c n HIc [HInv HP]. eapply safe_post; [|by apply (IHb y HInv)].
      intros [y'|b] c' _ [? ?]; done.
    + intros b c n HIc [HΘ HP]. by apply (IHk b HΘ).
Qed.
End Keeps.

(** ** A component inside a larger state

    What was proved of the operations of a component, with ghost state [Γ],
    holds of them inside a state that has the component as a field, with more
    ghost state [X]; [K] is what the thread knows of the rest. *)

#[local] Arguments zoom : simpl nomatch.

Lemma zoom_bind {W S A B} (v : field W S) (p : prog S A) (g : A -> prog S B) :
  zoom v (bind p g) = bind (zoom v p) (fun a => zoom v (g a)).
Proof.
  revert B g; induction p as [A a|A D f k IH|A J D body IHb i k IH]; intros B g; cbn [bind zoom];
    [done|f_equal; apply functional_extensionality; intros; apply IH..].
Qed.

Lemma zoom_result {W S A} (v : field W S) (p : prog S A) : result (zoom v p) = result p.
Proof. by destruct p. Qed.

Lemma zoom_bad {W S A} (v : field W S) (p : prog S A) w : is_bad (zoom v p) w = is_bad p (rd v w).
Proof. destruct p as [|B f k|]; simpl; [done| |done]. by destruct (f false (rd v w)). Qed.

Lemma zoom_step {W S A} (v : field W S) `{!FieldOk v} sp (p : prog S A) w q w' :
  tstep sp (zoom v p) w = Some (q, w') ->
  exists p' s', tstep sp p (rd v w) = Some (p', s') /\ q = zoom v p' /\ w' = wr v s' w.
Proof.
  destruct p as [a|B f k|J B body i k]; simpl; [done| |].
  - destruct (f sp (rd v w)) as [b s| |]; [|done..]. intros [= <- <-]. by exists (k b), s.
  - intros [= <- <-]. eexists _, _. split; [done|]. rewrite zoom_bind. split; [|by rewrite wr_rd].
    f_equal. apply functional_extensionality. by intros [].
Qed.

Section Zoom.
Context {W S Γ X : Type} (v : field W S) `{!FieldOk v}.
Context (I : S * Γ -> Prop) (G : nat -> S * Γ -> S * Γ -> Prop).
Context (I' : W * (Γ * X) -> Prop) (G' : nat -> W * (Γ * X) -> W * (Γ * X) -> Prop).

Definition inside (c : W * (Γ * X)) : S * Γ := (rd v c.1, c.2.1).
Definition moved (c : W * (Γ * X)) (d : S * Γ) : W * (Γ * X) := (wr v d.1 c.1, (d.2, c.2.2)).

Hypothesis HI : forall c, I' c -> I (inside c).
Hypothesis HG : forall j c c', G' j c c' -> G j (inside c) (inside c').
Hypothesis Hmove : forall i c d, I' c -> G i (inside c) d -> I d -> I' (moved c d) /\ G' i c (moved c d).

Lemma inside_rely i c c' : rely I' G' i c c' -> rely I G i (inside c) (inside c').
Proof.
  intros Hr. induction Hr as [c|c1 c2 c3 (j & Hj & Hg & Hi) _ IH]; [apply rtc_refl|].
  eapply rtc_l; [|exact IH]. exists j. auto.
Qed.

Lemma safe_zoom i n {A} (p : prog S A) c Q (K : W * (Γ * X) -> Prop) :
  stable I' G' i K -> (forall c d, I' c -> K c -> G i (inside c) d -> K (moved c d)) ->
  I' c -> K c -> safe I G i n p (inside c) Q ->
  safe I' G' i n (zoom v p) c (fun a c => Q a (inside c) /\ K c).
Proof.
  intros HK HKm. revert p c. induction n as [|n IH]; intros p c HIc HKc; cbn [safe]; [done|].
  intros H c1 Hr HI1. destruct (stable_rely I' G' i K c c1 HK HIc HKc Hr) as [_ HK1].
  destruct (H (inside c1) (inside_rely i c c1 Hr) (HI c1 HI1)) as (HQ & Hb & Hs). split; [|split].
  - rewrite zoom_result. intros a Ha. split; [by apply HQ|done].
  - by rewrite zoom_bad.
  - intros sp q w' Hst. apply zoom_step in Hst as (p' & s' & Hst & -> & ->); [|done].
    destruct (Hs sp p' s' Hst) as (γ' & Hg & Hi & Hsafe).
    destruct (Hmove i c1 (s', γ') HI1 Hg Hi) as [Hi' Hg'].
    exists (γ', c1.2.2). split; [exact Hg'|]. split; [exact Hi'|].
    apply IH; [exact Hi'|by apply (HKm c1 (s', γ'))|].
    replace (inside (wr v s' c1.1, (γ', c1.2.2))) with (s', γ'); [done|]. unfold inside. simpl. by rewrite rd_wr.
Qed.

Lemma rg_zoom i {A} P (p : prog S A) Q (K : W * (Γ * X) -> Prop) :
  stable I' G' i K -> (forall c d, I' c -> K c -> G i (inside c) d -> K (moved c d)) ->
  rg I G i P p Q ->
  rg I' G' i (fun c => P (inside c) /\ K c) (zoom v p) (fun a c => Q a (inside c) /\ K c).
Proof. intros HK HKm H c n HIc [HP HKc]. apply safe_zoom; auto. Qed.
End Zoom.

#[local] Arguments forgive : simpl nomatch.

Lemma forgive_zoom {W S A} (v : field W S) (p : prog S A) : forgive (zoom v p) = zoom v (forgive p).
Proof.
  induction p as [A a|A D f k IH|A J D body IHb i k IH]; simpl; [done| |].
  - f_equal; [|apply functional_extensionality; intros; apply IH].
    apply functional_extensionality; intros sp. apply functional_extensionality; intros w. by destruct (f sp (rd v w)).
  - f_equal; apply functional_extensionality; intros; [apply IHb|apply IH].
Qed.
