(* ===== verification/WorkStealing.v ===== *)
(** * The work-stealing queue

    Model of [include/bthread/queue/work_stealing_queue.hpp] and
    [src/bthread/queue/work_stealing_queue.cpp]: the ring buffer with packed
    [version:32 | index:32] words, its owner operations [Push], [Pop] and
    [PopMultiple] and the thief operation [Steal]. *)

From Stdlib Require Import ZArith Lia.
From stdpp Require Import base numbers list gmap relations option.
From S2P Require Import Prelude Concurrency.

Open Scope Z_scope.

Module WorkStealingQueue.

Definition CAPACITY : Z := 1024.

(** Packing of a version and an index in one 64-bit word. *)
Definition ExtractIndex (v : Z) : Z := u32 (Z.land v 0xFFFFFFFF).
Definition ExtractVersion (v : Z) : Z := u32 (Z.shiftr v 32).
Definition MakeVal (ver idx : Z) : Z := Z.lor (u64 (Z.shiftl ver 32)) idx.

(** The queue object: [buffer_], [head_] and [tail_]. *)
Record queue := Queue { buffer : list (option ptr); head_word : Z; tail_word : Z }.

Definition head_ : field queue Z :=
  Field head_word (fun v q => Queue (buffer q) v (tail_word q)).
Definition tail_ : field queue Z :=
  Field tail_word (fun v q => Queue (buffer q) (head_word q) v).

(** [buffer_[idx].load()] and [buffer_[idx].store(x)]. *)
Definition load_slot (idx : Z) : prog queue (option ptr) :=
  act (fun q => match buffer q !! Z.to_nat idx with
                | Some x => Go x q
                | None => Bad
                end).
Definition store_slot (idx : Z) (x : option ptr) : prog queue unit :=
  act (fun q => if decide (Z.to_nat idx < length (buffer q))%nat
                then Go tt (Queue (<[Z.to_nat idx := x]> (buffer q)) (head_word q) (tail_word q))
                else Bad).

(** The constructor: every slot null, both words zero. *)
Definition WorkStealingQueue : queue :=
  Queue (replicate (Z.to_nat CAPACITY) None) 0 0.

Definition Push (task : ptr) : prog queue unit :=
  t <- load tail_ ;;
  let idx := ExtractIndex t in
  store_slot idx (Some task) ;;;
  store tail_ (MakeVal (u32 (ExtractVersion t + 1)) (u32 (u32 (idx + 1) mod CAPACITY))).

Definition Pop : prog queue (option ptr) :=
  h <- load head_ ;;
  t <- load tail_ ;;
  if ExtractIndex h =? ExtractIndex t then Ret None
  else
    let idx := u32 (u64 (u32 (ExtractIndex t - 1) + CAPACITY) mod CAPACITY) in
    task <- load_slot idx ;;
    if idx =? ExtractIndex h then
      c <- cas head_ h (MakeVal (u32 (ExtractVersion h + 1))
                                (u32 (u32 (idx + 1) mod CAPACITY))) ;;
      if c.1 : bool then
        store tail_ (MakeVal (u32 (ExtractVersion t + 1))
                             (u32 (u32 (idx + 1) mod CAPACITY))) ;;;
        Ret task
      else Ret None
    else
      store tail_ (MakeVal (u32 (ExtractVersion t + 1)) idx) ;;;
      Ret task.

Definition MAX_STEAL_ATTEMPTS : Z := 3.

Definition Steal : prog queue (option ptr) :=
  loop 0 (fun attempt =>
    if attempt <? MAX_STEAL_ATTEMPTS then
      h <- load head_ ;;
      t <- load tail_ ;;
      if ExtractIndex h =? ExtractIndex t then Ret (inr None)
      else
        let idx := ExtractIndex h in
        task <- load_slot idx ;;
        c <- cas_weak head_ h (MakeVal (u32 (ExtractVersion h + 1))
                                       (u32 (u32 (idx + 1) mod CAPACITY))) ;;
        if c.1 : bool then Ret (inr task) else Ret (inl (attempt + 1))
    else Ret (inr None)).

Definition Empty : prog queue bool :=
  h <- load head_ ;;
  t <- load tail_ ;;
  Ret (ExtractIndex h =? ExtractIndex t).

(** [PopMultiple]: the tasks written to the caller's buffer, in order. *)
Definition PopMultiple (max_count : Z) : prog queue (list ptr) :=
  loop [] (fun out =>
    if Z.of_nat (length out) <? max_count then
      task <- Pop ;;
      match task with
      | None => Ret (inr out)
      | Some x => Ret (inl (out ++ [x]))
      end
    else Ret (inr out)).

(** ** Packed words *)

Lemma MakeVal_arith ver idx :
  0 <= ver < 2 ^ 32 -> 0 <= idx < 2 ^ 32 -> MakeVal ver idx = ver * 2 ^ 32 + idx.
Proof. apply pack_arith. Qed.

Lemma ExtractIndex_MakeVal ver idx :
  0 <= ver < 2 ^ 32 -> 0 <= idx < 2 ^ 32 -> ExtractIndex (MakeVal ver idx) = idx.
Proof. apply pack_low. Qed.

Lemma ExtractVersion_MakeVal ver idx :
  0 <= ver < 2 ^ 32 -> 0 <= idx < 2 ^ 32 -> ExtractVersion (MakeVal ver idx) = ver.
Proof. apply pack_high. Qed.

(** The next and the previous ring positions, as the code computes them. *)
Lemma next_index i : 0 <= i < CAPACITY -> u32 (u32 (i + 1) mod CAPACITY) = (i + 1) mod CAPACITY.
Proof.
  unfold wrapu, CAPACITY; intros Hi. rewrite (Z.mod_small (i + 1)) by lia.
  apply Z.mod_small. pose proof (Z.mod_pos_bound (i + 1) 1024); lia.
Qed.

Lemma prev_index i : 0 <= i < CAPACITY ->
  u32 (u64 (u32 (i - 1) + CAPACITY) mod CAPACITY) = (i - 1) mod CAPACITY.
Proof.
  unfold wrapu, CAPACITY; intros Hi.
  rewrite (Z.mod_small _ (2 ^ 64)) by (pose proof (Z.mod_pos_bound (i - 1) (2 ^ 32)); lia).
  replace ((i - 1) mod 2 ^ 32 + 1024) with ((i - 1) mod 2 ^ 32 + 1 * 1024) by lia.
  rewrite Z.mod_add by lia.
  rewrite (Z.mod_small _ (2 ^ 32)) by (pose proof (Z.mod_pos_bound ((i - 1) mod 2 ^ 32) 1024); lia).
  apply Z.mod_mod_divide. by exists 4194304.
Qed.

Lemma u32_range x : 0 <= u32 x < 2 ^ 32.
Proof. by apply Z.mod_pos_bound. Qed.

Lemma index_lt_word i : 0 <= i < CAPACITY -> 0 <= i < 2 ^ 32.
Proof. unfold CAPACITY; lia. Qed.

Lemma mod_capacity x : 0 <= x mod CAPACITY < CAPACITY.
Proof. by apply Z.mod_pos_bound. Qed.

Create HintDb wsq.
#[local] Hint Resolve u32_range index_lt_word mod_capacity : wsq.

Ltac wsq_words :=
  repeat first [rewrite ExtractIndex_MakeVal by eauto with wsq
               |rewrite ExtractVersion_MakeVal by eauto with wsq
               |rewrite next_index by eauto with wsq
               |rewrite prev_index by eauto with wsq].
(** Linear arithmetic with the ring's [mod]. *)
Ltac ring_lia := unfold CAPACITY in *; Z.to_euclidean_division_equations; lia.

(** ** The abstract queue *)

(** [repr q l]: the queue object holds the tasks [l], oldest first. *)
Record at_index (q : queue) (vh vt h : Z) (l : list ptr) : Prop := {
  at_buffer : length (buffer q) = Z.to_nat CAPACITY;
  at_vh : 0 <= vh < 2 ^ 32;
  at_vt : 0 <= vt < 2 ^ 32;
  at_h : 0 <= h < CAPACITY;
  at_head : head_word q = MakeVal vh h;
  at_tail : tail_word q = MakeVal vt ((h + Z.of_nat (length l)) mod CAPACITY);
  at_size : Z.of_nat (length l) < CAPACITY;
  at_slots : forall i x, l !! i = Some x ->
    buffer q !! Z.to_nat ((h + Z.of_nat i) mod CAPACITY) = Some (Some x);
}.

Definition repr (q : queue) (l : list ptr) : Prop :=
  exists vh vt h, at_index q vh vt h l.

Lemma slot_inj h i j : 0 <= i < CAPACITY -> 0 <= j < CAPACITY ->
  (h + i) mod CAPACITY = (h + j) mod CAPACITY -> i = j.
Proof. ring_lia. Qed.

Lemma tail_eq_head q vh vt h l : at_index q vh vt h l ->
  (h =? (h + Z.of_nat (length l)) mod CAPACITY) = match l with [] => true | _ :: _ => false end.
Proof.
  intros H. pose proof (at_size _ _ _ _ _ H). pose proof (at_h _ _ _ _ _ H).
  destruct l as [|x l]; simpl length in *; ring_lia.
Qed.

Lemma wsq_repr_empty : repr WorkStealingQueue [].
Proof.
  exists 0, 0, 0. split; try done; try (vm_compute; done).
Qed.

(** One store to the slot past the last element leaves the elements alone. *)
Lemma slots_store q vh vt h l x : at_index q vh vt h l ->
  forall i y, (l ++ [x]) !! i = Some y ->
    <[Z.to_nat ((h + Z.of_nat (length l)) mod CAPACITY) := Some x]> (buffer q)
      !! Z.to_nat ((h + Z.of_nat i) mod CAPACITY) = Some (Some y).
Proof.
  intros [Hb _ _ Hh _ _ Hn Hs] i y Hi.
  pose proof (mod_capacity (h + Z.of_nat i)). pose proof (mod_capacity (h + Z.of_nat (length l))).
  destruct (decide (i < length l)%nat) as [Hlt|Hge].
  - rewrite lookup_app_l in Hi by done.
    rewrite list_lookup_insert_ne; [by apply Hs|].
    intros E%Z2Nat.inj; [|lia..]. apply slot_inj in E; lia.
  - rewrite lookup_app_r in Hi by lia.
    assert (i = length l) as -> by (apply lookup_lt_Some in Hi; simpl in Hi; lia).
    rewrite Nat.sub_diag in Hi; simplify_eq/=.
    apply list_lookup_insert_eq. rewrite Hb. apply Z2Nat.inj_lt; lia || by vm_compute.
Qed.

(** What [Push] does, whatever the number of stored tasks. *)
Lemma Push_run q vh vt h l x Q : at_index q vh vt h l ->
  Q tt (Queue (<[Z.to_nat ((h + Z.of_nat (length l)) mod CAPACITY) := Some x]> (buffer q))
              (head_word q)
              (MakeVal (u32 (vt + 1)) ((h + Z.of_nat (S (length l))) mod CAPACITY))) ->
  wp (Push x) Q q.
Proof.
  intros H HQ. destruct H as [Hb Hvh Hvt Hh Hhd Htl Hn Hs].
  unfold Push. wp_go. rewrite Htl. wsq_words. unfold store_slot.
  apply wp_act_bind. rewrite decide_True by
    (rewrite Hb; apply Z2Nat.inj_lt; pose proof (mod_capacity (h + Z.of_nat (length l))); lia).
  wp_go.
  rewrite Zplus_mod_idemp_l in *.
  replace (h + Z.of_nat (S (length l))) with (h + Z.of_nat (length l) + 1) in HQ by lia.
  done.
Qed.

Lemma Push_at q vh vt h l x : at_index q vh vt h l ->
  Z.of_nat (length l) < CAPACITY - 1 ->
  wp (Push x) (fun _ q' => head_word q' = head_word q /\ at_index q' vh (u32 (vt + 1)) h (l ++ [x])) q.
Proof.
  intros H Hn. eapply Push_run; [done|]. split; [done|].
  pose proof (slots_store _ _ _ _ _ x H) as Hs.
  destruct H as [Hb Hvh Hvt Hh Hhd Htl _ _].
  split; simpl; try done; rewrite ?length_insert, ?length_app; simpl; auto with wsq.
  - by rewrite Nat.add_1_r.
  - lia.
Qed.

Lemma Pop_at q vh vt h l x : at_index q vh vt h (l ++ [x]) ->
  wp Pop (fun r q' => r = Some x /\ repr q' l) q.
Proof.
  intros H. pose proof (tail_eq_head _ _ _ _ _ H) as Hemp.
  destruct H as [Hb Hvh Hvt Hh Hhd Htl Hn Hs].
  assert (Hx : buffer q !! Z.to_nat ((h + Z.of_nat (length l)) mod CAPACITY) = Some (Some x))
    by (apply Hs; by rewrite lookup_app_r, Nat.sub_diag by done).
  rewrite length_app in *; simpl in *.
  unfold Pop. wp_go. rewrite Hhd, Htl. wsq_words. rewrite Hemp.
  destruct (l ++ [x]) as [|y l'] eqn:E; [by destruct l|]. rewrite <- E in *; clear E y l'.
  assert (Hidx : ((h + Z.of_nat (length l + 1)) mod CAPACITY - 1) mod CAPACITY
                 = (h + Z.of_nat (length l)) mod CAPACITY) by ring_lia.
  rewrite Hidx. apply wp_act_bind; rewrite Hx; simpl.
  destruct (Z.eqb_spec ((h + Z.of_nat (length l)) mod CAPACITY) h) as [Hone|Hmany].
  - assert (l = []) as ->
      by (destruct l as [|z l]; [done|]; simpl length in *; exfalso; ring_lia).
    simpl in *. rewrite Hone.
    apply wp_cas_bind; simpl; [intros _|by rewrite Hhd].
    wp_go; split; [done|].
    exists (u32 (vh + 1)), (u32 (vt + 1)), ((h + 1) mod CAPACITY).
    split; simpl; try done; auto with wsq.
    by rewrite Z.add_0_r, Z.mod_mod.
  - wp_go; split; [done|].
    exists vh, (u32 (vt + 1)), h. split; simpl; try done; auto with wsq; [lia|].
    intros i y Hi. apply Hs. rewrite lookup_app_l; [done|by eapply lookup_lt_Some].
Qed.

Lemma Pop_empty q vh vt h : at_index q vh vt h [] -> wp Pop (fun r q' => r = None /\ q' = q) q.
Proof.
  intros H. pose proof (tail_eq_head _ _ _ _ _ H) as Hemp.
  destruct H as [Hb Hvh Hvt Hh Hhd Htl Hn Hs].
  unfold Pop. wp_go. rewrite Hhd, Htl. wsq_words. rewrite Hemp.
  by wp_go.
Qed.

Lemma Steal_at q vh vt h x l : at_index q vh vt h (x :: l) ->
  wp Steal (fun r q' => r = Some x /\ repr q' l) q.
Proof.
  intros H. pose proof (tail_eq_head _ _ _ _ _ H) as Hemp.
  destruct H as [Hb Hvh Hvt Hh Hhd Htl Hn Hs].
  apply wp_loop_once; simpl. wp_go.
  rewrite Hhd, Htl. wsq_words. simpl length in *. rewrite Hemp.
  pose proof (Hs 0%nat x eq_refl) as Hx. rewrite Z.add_0_r, Z.mod_small in Hx by done.
  apply wp_act_bind; rewrite Hx; simpl.
  apply wp_cas_weak_bind; simpl; [intros _|by rewrite Hhd].
  wp_go; split; [done|].
  exists (u32 (vh + 1)), vt, ((h + 1) mod CAPACITY). split; simpl; try done; auto with wsq.
  - rewrite Zplus_mod_idemp_l, Htl. do 2 f_equal; lia.
  - lia.
  - intros i y Hi. rewrite Zplus_mod_idemp_l.
    replace (h + 1 + Z.of_nat i) with (h + Z.of_nat (S i)) by lia. by apply Hs.
Qed.

Lemma Steal_empty q vh vt h : at_index q vh vt h [] ->
  wp Steal (fun r q' => r = None /\ q' = q) q.
Proof.
  intros H. pose proof (tail_eq_head _ _ _ _ _ H) as Hemp.
  destruct H as [Hb Hvh Hvt Hh Hhd Htl Hn Hs].
  apply wp_loop_once; simpl. wp_go.
  rewrite Hhd, Htl. wsq_words. rewrite Hemp. wp_go; done.
Qed.

(** The three operations on the abstract queue. *)
Lemma wsq_push_repr q l x : repr q l -> Z.of_nat (length l) < CAPACITY - 1 ->
  wp (Push x) (fun _ q' => repr q' (l ++ [x])) q.
Proof.
  intros (vh & vt & h & H) Hn. eapply wp_mono; [by eapply Push_at|].
  intros _ q' [_ H']. by do 3 eexists.
Qed.

Lemma wsq_pop_repr q l : repr q l ->
  wp Pop (fun r q' => r = list.last l /\ repr q' (take (pred (length l)) l)) q.
Proof.
  intros (vh & vt & h & H). destruct l as [|x l _] using rev_ind.
  - eapply wp_mono; [by eapply Pop_empty|]. intros r q' [-> ->]. split; [done|by do 3 eexists].
  - eapply wp_mono; [by eapply Pop_at|]. intros r q' [-> Hq].
    rewrite last_snoc, length_app, Nat.add_1_r; simpl. by rewrite take_app_length.
Qed.

Lemma wsq_steal_repr q l : repr q l ->
  wp Steal (fun r q' => r = head l /\ repr q' (tail l)) q.
Proof.
  intros (vh & vt & h & H). destruct l as [|x l].
  - eapply wp_mono; [by eapply Steal_empty|]. intros r q' [-> ->]. split; [done|by do 3 eexists].
  - by eapply Steal_at.
Qed.

Lemma wsq_empty_repr q l : repr q l ->
  wp Empty (fun r q' => r = bool_decide (l = []) /\ q' = q) q.
Proof.
  intros (vh & vt & h & H). destruct H as [] eqn:EH. clear EH. unfold Empty. wp_go.
  rewrite at_head0, at_tail0. wsq_words. rewrite (tail_eq_head _ _ _ _ _ H). by destruct l.
Qed.

(** ** One owner pushing, any number of thieves *)

Fixpoint push_all (xs : list ptr) : prog queue (list ptr) :=
  match xs with
  | [] => Ret []
  | x :: xs => Push x ;;; push_all xs
  end.

(** A thief that tries [n] times; it returns what it stole. *)
Fixpoint steal_n (n : nat) (acc : list ptr) : prog queue (list ptr) :=
  match n with
  | O => Ret acc
  | S n => r <- Steal ;; steal_n n (acc ++ option_list r)
  end.

(** [got all σ i]: what thread [i] took, when [σ] names the thief of each
    stolen task, the tasks being stolen in the order of [all]. *)
Definition got (all : list ptr) (σ : list nat) (i : nat) : list ptr :=
  (filter (fun x => x.1 = i) (zip σ all)).*2.

Lemma got_snoc all σ i o x : all !! length σ = Some x ->
  got all (σ ++ [o]) i = got all σ i ++ (if decide (o = i) then [x] else []).
Proof.
  intros Hx. unfold got.
  rewrite <- (take_drop_middle all (length σ) x Hx).
  assert (Hl : length σ = length (take (length σ) all))
    by (rewrite length_take_le; [done|apply lookup_lt_Some in Hx; lia]).
  rewrite zip_with_app by done.
  assert (E : zip σ (take (length σ) all ++ x :: drop (S (length σ)) all)
              = zip σ (take (length σ) all))
    by (rewrite <- (app_nil_r σ) at 1; rewrite zip_with_app by done; simpl; by rewrite app_nil_r).
  rewrite E, list.filter_app, fmap_app. f_equal. simpl.
  rewrite filter_cons, filter_nil; simpl. by case_decide.
Qed.

Section Stealing.
(** The initial queue holds [l0]; the owner pushes [xs]; there is room. *)
Context (vh vt h : Z) (l0 xs : list ptr).
Abbreviation all := (l0 ++ xs).
Hypothesis Hvh : 0 <= vh < 2 ^ 32.
Hypothesis Hvt : 0 <= vt < 2 ^ 32.
Hypothesis Hh : 0 <= h < CAPACITY.
Hypothesis Hroom : Z.of_nat (length all) < CAPACITY.

(** Ghost state: how many of [all] are in or through the queue, and the
    thread that took each of those already stolen. *)
Record ghost := Ghost { pushed : nat; stolen : list nat }.

Definition head_at (n : nat) : Z :=
  MakeVal (u32 (vh + Z.of_nat n)) ((h + Z.of_nat n) mod CAPACITY).
Definition tail_index (n : nat) : Z := (h + Z.of_nat n) mod CAPACITY.

Record Inv (c : queue * ghost) : Prop := {
  inv_buffer : length (buffer c.1) = Z.to_nat CAPACITY;
  inv_head : head_word c.1 = head_at (length (stolen c.2));
  inv_tail : exists v, 0 <= v < 2 ^ 32 /\ tail_word c.1 = MakeVal v (tail_index (pushed c.2));
  inv_count : (length (stolen c.2) <= pushed c.2 <= length all)%nat;
  inv_slots : forall j x, (j < pushed c.2)%nat -> all !! j = Some x ->
    buffer c.1 !! Z.to_nat (tail_index j) = Some (Some x);
}.

(** The owner only pushes, thief [i] only appends itself to the thieves. *)
Definition Guar (i : nat) (c c' : queue * ghost) : Prop :=
  match i with
  | O => stolen c'.2 = stolen c.2 /\ (pushed c.2 <= pushed c'.2)%nat
  | S _ => pushed c'.2 = pushed c.2 /\ buffer c'.1 = buffer c.1 /\
           tail_word c'.1 = tail_word c.1 /\
           (stolen c'.2 = stolen c.2 \/ stolen c'.2 = stolen c.2 ++ [i])
  end.

Lemma wsq_guar_refl i c : Inv c -> Guar i c c.
Proof. destruct i; simpl; auto. Qed.

Lemma Guar_thief j c c' : j <> 0%nat -> Guar j c c' ->
  pushed c'.2 = pushed c.2 /\ buffer c'.1 = buffer c.1 /\ tail_word c'.1 = tail_word c.1.
Proof. destruct j; simpl; [done|]. by intros _ (-> & -> & -> & _). Qed.

(** Assertions on what only the owner changes are stable for the owner. *)
Lemma stable_owner (P : nat -> list (option ptr) -> Z -> Prop) :
  stable Inv Guar 0 (fun c => P (pushed c.2) (buffer c.1) (tail_word c.1)).
Proof. intros j c c' Hj _ HP (-> & -> & ->)%Guar_thief _; done. Qed.

Lemma index_inj m n : (m <= length all)%nat -> (n <= length all)%nat ->
  tail_index m = tail_index n -> m = n.
Proof. intros ?? E%slot_inj; lia. Qed.

Lemma head_at_inj m n : (m <= length all)%nat -> (n <= length all)%nat ->
  head_at m = head_at n -> m = n.
Proof.
  intros ?? E%(f_equal ExtractIndex). unfold head_at in E.
  rewrite !ExtractIndex_MakeVal in E by eauto with wsq. by apply index_inj.
Qed.

(** The owner. *)
Lemma owner_ok ys :
  rg Inv Guar 0 (fun c => ys = drop (pushed c.2) all) (push_all ys)
     (fun _ c => pushed c.2 = length all).
Proof.
  induction ys as [|y ys IH]; simpl.
  - apply rg_ret; [apply (stable_owner (fun p _ _ => [] = drop p all))|].
    intros c HI E. apply (f_equal length) in E. rewrite length_drop in E. simpl in E.
    pose proof (inv_count _ HI). lia.
  - unfold Push. rewrite bind_assoc.
    apply rg_load with (P' := fun t c => y :: ys = drop (pushed c.2) all /\ t = tail_word c.1);
      [apply wsq_guar_refl|apply (stable_owner (fun p _ _ => y :: ys = drop p all))|done|].
    intros t. rewrite bind_assoc. unfold store_slot.
    apply rg_atomic with (P' := fun _ c => (y :: ys = drop (pushed c.2) all /\ t = tail_word c.1)
      /\ buffer c.1 !! Z.to_nat (tail_index (pushed c.2)) = Some (Some y)).
    + apply (stable_owner (fun p _ w => y :: ys = drop p all /\ t = w)).
    + intros q γ HI [E ->]. destruct HI as [Hb Hhd (v & Hv & Htl) Hc Hs]; simpl in *.
      rewrite Htl. unfold tail_index in *. wsq_words.
      pose proof (mod_capacity (h + Z.of_nat (pushed γ))) as Hm.
      assert (Hlt : (Z.to_nat ((h + Z.of_nat (pushed γ)) mod CAPACITY) < length (buffer q))%nat)
        by (rewrite Hb; apply Z2Nat.inj_lt; lia).
      rewrite decide_True by done.
      exists γ; split; [done|]. simpl. split; [|by rewrite list_lookup_insert_eq by done].
      split; simpl; rewrite ?length_insert; eauto.
      intros j x Hj Hx. rewrite list_lookup_insert_ne; [by apply Hs|].
      unfold tail_index. intros E2%Z2Nat.inj; [|pose proof (mod_capacity (h + Z.of_nat j)); lia..].
      apply slot_inj in E2; lia.
    + intros _.
      apply rg_store with (P' := fun c => ys = drop (pushed c.2) all); [| |exact IH].
      * apply (stable_owner (fun p b w => (y :: ys = drop p all /\ t = w) /\
          b !! Z.to_nat (tail_index p) = Some (Some y))).
      * intros q γ HI [[E ->] Hsl]. destruct HI as [Hb Hhd (v & Hv & Htl) Hc Hs]; simpl in *.
        rewrite Htl. unfold tail_index in *. wsq_words.
        assert (Hy : all !! pushed γ = Some y)
          by (rewrite <- (Nat.add_0_r (pushed γ)), <- lookup_drop, <- E; done).
        pose proof (lookup_lt_Some _ _ _ Hy) as Hlt.
        exists (Ghost (S (pushed γ)) (stolen γ)). simpl. split; [split; [done|lia]|].
        split; [|erewrite drop_S in E by done; by simplify_eq].
        split; simpl; try done; [|lia|].
        -- exists (u32 (v + 1)). split; [auto with wsq|]. f_equal.
           unfold tail_index. rewrite Zplus_mod_idemp_l. f_equal. lia.
        -- intros j x Hj Hx. destruct (decide (j = pushed γ)) as [->|];
             [by simplify_eq|apply Hs; [lia|done]].
Qed.

(** A thief. *)
Definition has (i : nat) (acc : list ptr) (c : queue * ghost) : Prop :=
  acc = got all (stolen c.2) i.

Lemma Guar_other i j c c' : j <> i -> Inv c' -> Guar j c c' ->
  got all (stolen c'.2) i = got all (stolen c.2) i /\
  (length (stolen c.2) <= length (stolen c'.2))%nat /\ (pushed c.2 <= pushed c'.2)%nat.
Proof.
  intros Hne HI. destruct j as [|j]; simpl; [intros [-> ?]; split; [done|lia]|].
  intros (-> & _ & _ & [->| E]); [split; [done|lia]|]. pose proof (inv_count _ HI) as Hc.
  rewrite E in *. rewrite length_app in *. simpl in *.
  destruct (lookup_lt_is_Some_2 all (length (stolen c.2))) as [x Hx]; [lia|].
  erewrite got_snoc by done. rewrite decide_False by done. rewrite app_nil_r. split; [done|lia].
Qed.

Lemma stable_thief i acc (P : nat -> nat -> Prop) :
  (forall s p s' p', (s <= s')%nat -> (p <= p')%nat -> P s p -> P s' p') ->
  stable Inv Guar i (fun c => has i acc c /\ P (length (stolen c.2)) (pushed c.2)).
Proof.
  intros Hm j c c' Hj _ [Ha HP] HG HI'. destruct (Guar_other i j c c' Hj HI' HG) as (E & ? & ?).
  split; [by unfold has; rewrite E|]. eapply Hm; eauto.
Qed.

(** What [Steal] knows: the head word is one that was, the tail word is one that
    was when the head had that value, and the slot still holds the task. *)
Definition head_seen (i : nat) acc (hw : Z) (c : queue * ghost) : Prop := has i acc c /\
  exists n, (n <= length (stolen c.2) /\ n <= length all)%nat /\ hw = head_at n.
Definition tail_seen (i : nat) acc (hw tw : Z) (c : queue * ghost) : Prop := has i acc c /\
  exists n p, ((n <= length (stolen c.2) /\ n <= length all) /\ n <= p <= pushed c.2)%nat /\
    hw = head_at n /\ ExtractIndex tw = tail_index p.
Definition slot_seen (i : nat) acc (hw : Z) (task : option ptr) (c : queue * ghost) : Prop := has i acc c /\
  exists n x, ((n <= length (stolen c.2) /\ n < length all) /\ n < pushed c.2)%nat /\
    hw = head_at n /\ task = Some x /\ all !! n = Some x.

Lemma stable_has i acc : stable Inv Guar i (has i acc).
Proof.
  intros j c c' Hj HI HX HG HI'.
  exact (proj1 (stable_thief i acc (fun _ _ => True) (fun _ _ _ _ _ _ H => H) j c c' Hj HI (conj HX I) HG HI')).
Qed.

Lemma stable_head_seen i acc hw : stable Inv Guar i (head_seen i acc hw).
Proof.
  apply (stable_thief i acc (fun s p => exists n, (n <= s /\ n <= length all)%nat /\ hw = head_at n)).
  intros s p s' p' Hs Hp (n & [? ?] & ->). exists n. lia.
Qed.

Lemma stable_tail_seen i acc hw tw : stable Inv Guar i (tail_seen i acc hw tw).
Proof.
  apply (stable_thief i acc (fun s p0 => exists n p, ((n <= s /\ n <= length all) /\ n <= p <= p0)%nat /\
    hw = head_at n /\ ExtractIndex tw = tail_index p)).
  intros s p s' p' Hs Hp (n & p0 & [[? ?] ?] & ? & ?). exists n, p0. split; [lia|done].
Qed.

Lemma stable_slot_seen i acc hw task : stable Inv Guar i (slot_seen i acc hw task).
Proof.
  apply (stable_thief i acc (fun s p0 => exists n x, ((n <= s /\ n < length all) /\ n < p0)%nat /\
    hw = head_at n /\ task = Some x /\ all !! n = Some x)).
  intros s p s' p' Hs Hp (n & x & [[? ?] ?] & ? & ?). exists n, x. split; [lia|done].
Qed.

(** The queue was not empty: the slot of the head holds the task. *)
Lemma slot_holds i acc hw tw q γ : ExtractIndex hw <> ExtractIndex tw -> Inv (q, γ) ->
  tail_seen i acc hw tw (q, γ) ->
  exists x, buffer q !! Z.to_nat (ExtractIndex hw) = Some (Some x) /\ slot_seen i acc hw (Some x) (q, γ).
Proof.
  intros Hne HI [HX (n & p & [[Hn Hna] Hp] & Ehw & Etw)]. simpl in *.
  assert (Hidx : ExtractIndex hw = tail_index n)
    by (rewrite Ehw; unfold head_at; rewrite ExtractIndex_MakeVal; eauto with wsq).
  rewrite Hidx, Etw in Hne. rewrite Hidx.
  assert (n < p)%nat by (destruct (decide (n = p)) as [->|]; [done|lia]).
  pose proof (inv_count _ HI). simpl in *.
  destruct (lookup_lt_is_Some_2 all n) as [x Hx]; [lia|]. exists x.
  split; [apply (inv_slots _ HI n x); simpl; done || lia|]. split; [done|].
  exists n, x. simpl. split; [lia|done].
Qed.

(** The compare-and-swap of the head succeeds: the task is taken. *)
Lemma head_taken i acc hw task q γ : i <> 0%nat -> Inv (q, γ) -> slot_seen i acc hw task (q, γ) -> head_word q = hw ->
  let q' := wr head_ (MakeVal (u32 (ExtractVersion hw + 1)) (u32 (u32 (ExtractIndex hw + 1) mod CAPACITY))) q in
  exists γ', Guar i (q, γ) (q', γ') /\ Inv (q', γ') /\ has i (acc ++ option_list task) (q', γ').
Proof.
  intros Hi HI [HX (n & x & [[Hn Hna] Hp] & -> & -> & Hx)] Ecur. simpl in *.
  pose proof (inv_count _ HI) as Hc. pose proof (inv_head _ HI) as Hhd0; simpl in *. rewrite Hhd0 in Ecur.
  apply head_at_inj in Ecur; [|lia..]. subst n.
  exists (Ghost (pushed γ) (stolen γ ++ [i])).
  destruct i as [|i]; [done|]. split; [simpl; auto|]. split.
  - destruct HI as [Hb Hhd Htl _ Hs]. split; simpl in *; try done.
    + unfold head_at. rewrite ExtractVersion_MakeVal, ExtractIndex_MakeVal by eauto with wsq.
      rewrite next_index by eauto with wsq.
      rewrite length_app; simpl. unfold wrapu at 1 2 3. f_equal.
      * rewrite Zplus_mod_idemp_l. f_equal; lia.
      * rewrite Zplus_mod_idemp_l. f_equal; lia.
    + rewrite length_app; simpl. lia.
  - unfold has in *. simpl. erewrite got_snoc by done. rewrite decide_True by done. by rewrite HX.
Qed.

Lemma Steal_ok i acc : i <> 0%nat ->
  rg Inv Guar i (has i acc) Steal (fun r => has i (acc ++ option_list r)).
Proof.
  intros Hi. unfold Steal.
  apply rg_while with (Inv := fun _ => has i acc); [apply wsq_guar_refl|intros _; apply stable_has|
    intros r; apply stable_has|]. intros a.
  destruct (a <? MAX_STEAL_ATTEMPTS);
    [|apply rg_ret; [apply stable_has|intros c _ HX; by rewrite app_nil_r]].
  apply rg_load with (P' := head_seen i acc); [apply wsq_guar_refl|apply stable_has| |].
  { intros q γ HI HX. split; [done|]. pose proof (inv_count _ HI). simpl in *.
    exists (length (stolen γ)). split; [lia|apply (inv_head _ HI)]. }
  intros hw. apply rg_load with (P' := tail_seen i acc hw); [apply wsq_guar_refl|apply stable_head_seen| |].
  { intros q γ HI [HX (n & Hn & ->)]. split; [done|]. simpl in *.
    pose proof (inv_count _ HI). destruct (inv_tail _ HI) as (v & Hv & Ht). simpl in *.
    exists n, (pushed γ). split; [lia|]. split; [done|].
    rewrite Ht, ExtractIndex_MakeVal; eauto with wsq. }
  intros tw. destruct (Z.eqb_spec (ExtractIndex hw) (ExtractIndex tw)) as [Heq|Hne].
  { apply rg_ret; [apply stable_tail_seen|]. intros c _ [HX _]. by rewrite app_nil_r. }
  apply rg_atomic with (P' := slot_seen i acc hw); [apply stable_tail_seen| |].
  { intros q γ HI H. destruct (slot_holds i acc hw tw q γ Hne HI H) as (x & -> & Hx).
    exists γ. split; [by apply wsq_guar_refl|by split]. }
  intros task.
  apply rg_cas_weak with (P' := fun (r : bool * Z) => has i (if r.1 then acc ++ option_list task else acc)).
  { apply wsq_guar_refl. }
  { apply stable_slot_seen. }
  { intros q γ HI H Ecur. by apply head_taken. }
  { by intros q γ HI [HX _]. }
  intros [[] w]; simpl; (apply rg_ret; [apply stable_has|done]).
Qed.

Lemma steal_n_ok i n acc : i <> 0%nat ->
  rg Inv Guar i (has i acc) (steal_n n acc) (has i).
Proof.
  intros Hi. revert acc; induction n as [|n IH]; intros acc; simpl.
  - apply rg_ret; [|done]. intros j c c' Hj HI HX HG HI'.
    exact (proj1 (stable_thief i acc (fun _ _ => True) (fun _ _ _ _ _ _ H => H)
             j c c' Hj HI (conj HX I) HG HI')).
  - eapply rg_bind; [by apply Steal_ok|]. intros r. apply IH.
Qed.

Lemma Inv_repr c : Inv c -> pushed c.2 = length all ->
  repr c.1 (drop (length (stolen c.2)) all).
Proof.
  intros [Hb Hhd (v & Hv & Htl) Hc Hs] Hp.
  exists (u32 (vh + Z.of_nat (length (stolen c.2)))), v,
    ((h + Z.of_nat (length (stolen c.2))) mod CAPACITY).
  split; auto with wsq; rewrite ?length_drop.
  - rewrite Htl. unfold tail_index. rewrite Zplus_mod_idemp_l. do 2 f_equal. lia.
  - lia.
  - intros i x Hi. rewrite lookup_drop in Hi. rewrite Zplus_mod_idemp_l.
    assert (Hlt : (length (stolen c.2) + i < pushed c.2)%nat)
      by (apply lookup_lt_Some in Hi; lia).
    rewrite <- (Hs _ _ Hlt Hi).
    unfold tail_index. do 3 f_equal. lia.
Qed.
End Stealing.

Lemma got_sublist all σ i : got all σ i `sublist_of` all.
Proof.
  unfold got. revert all; induction σ as [|o σ IH]; intros [|x all]; simpl; try apply sublist_nil_l.
  rewrite list.filter_cons; simpl. case_decide; simpl; [by apply sublist_skip|by apply sublist_cons].
Qed.

Lemma got_lookup all σ i x : x ∈ got all σ i ->
  exists j, σ !! j = Some i /\ all !! j = Some x.
Proof.
  unfold got. rewrite list_elem_of_fmap. intros ([o y] & -> & Hx).
  rewrite list_elem_of_filter in Hx. destruct Hx as [Ho Hx]; simpl in *; subst o.
  apply list_elem_of_lookup in Hx as [j Hj]. apply lookup_zip_Some in Hj. by exists j.
Qed.

Lemma got_disjoint all σ i j : NoDup all -> i <> j -> got all σ i ## got all σ j.
Proof.
  intros Hnd Hne x (a & Ha & Hx)%got_lookup (b & Hb & Hy)%got_lookup.
  assert (a = b) as -> by (by eapply NoDup_lookup). congruence.
Qed.

(** Only the thieves that exist take tasks. *)
Lemma thieves_exist vh h l0 xs k c c' : rtc (pool_step (Inv vh h l0 xs) Guar k) c c' ->
  Forall (fun i => 0 < i < k)%nat (stolen c.2) -> Forall (fun i => 0 < i < k)%nat (stolen c'.2).
Proof.
  revert c c'. apply (pool_steps_ind (Inv vh h l0 xs) Guar k (fun c c' =>
    Forall (fun i => 0 < i < k)%nat (stolen c.2) -> Forall (fun i => 0 < i < k)%nat (stolen c'.2))).
  { split; [by intros ?|intros ? ? ? H1 H2 H; auto]. }
  intros [|i] d d' Hi HG _ H; simpl in HG; [by destruct HG as [-> _]|].
  destruct HG as (_ & _ & _ & [->| ->]); [done|]. apply Forall_app. split; [done|]. constructor; [lia|done].
Qed.

(** The tasks stolen are exactly what the thieves have. *)
Lemma got_shares k all σ : (length σ <= length all)%nat -> Forall (fun i => 0 < i < S k)%nat σ ->
  take (length σ) all ≡ₚ concat ((fun i => got all σ (S i)) <$> seq 0 k).
Proof.
  intros Hl. induction σ as [|o σ IH] using rev_ind; intros Hσ.
  - cbn [length]. rewrite take_0. clear Hl Hσ. generalize 0%nat.
    induction k as [|k IH]; intros n; [done|]. simpl. by destruct all.
  - rewrite length_app in Hl |- *. simpl in *. apply Forall_app in Hσ as [Hσ Ho]. inversion Ho as [|? ? Ho' _]; subst.
    destruct (lookup_lt_is_Some_2 all (length σ)) as [x Hx]; [lia|].
    rewrite Nat.add_1_r, (take_S_r _ _ _ Hx), IH by (done || lia).
    destruct o as [|o]; [lia|].
    assert (E : seq 0 k = seq 0 o ++ o :: seq (S o) (k - S o)).
    { replace (o :: seq (S o) (k - S o)) with (seq o (S (k - S o))) by done.
      rewrite <- seq_app. f_equal. lia. }
    rewrite E, !fmap_app, !concat_app. simpl. rewrite (got_snoc _ _ _ _ _ Hx), decide_True by done.
    assert (Hne : forall l : list nat, o ∉ l -> (fun i => got all (σ ++ [S o]) (S i)) <$> l = (fun i => got all σ (S i)) <$> l).
    { intros l Hl'. apply list_fmap_ext. intros j i Hj. rewrite (got_snoc _ _ _ _ _ Hx), decide_False, app_nil_r; [done|].
      intros [= ->]. apply Hl'. by eapply list_elem_of_lookup_2. }
    rewrite !Hne by (intros H%elem_of_seq; lia). rewrite <- !app_assoc.
    apply Permutation_app_head, Permutation_app_head. apply Permutation_app_comm.
Qed.

(** C4: In every interleaving of an owner pushing distinct tasks with any
    number of thieves calling Steal any number of times, where fewer tasks
    than the ring capacity are involved (those queued at the start included),
    each thief gets a subsequence of the tasks in push order, no task goes to
    two thieves, no access is out of range, and when all have returned no task
    is lost: the tasks the thieves got and the ones the queue holds, a suffix
    of the tasks in push order, are together exactly the tasks, each once. *)
Theorem stealing_delivers_once q l0 xs ns ts q' :
  repr q l0 -> NoDup (l0 ++ xs) -> Z.of_nat (length (l0 ++ xs)) < CAPACITY ->
  reachable (push_all xs :: ((fun n => steal_n n []) <$> ns), q) (ts, q') ->
  (forall i out, ts !! S i ≫= result = Some out -> out `sublist_of` (l0 ++ xs)) /\
  (forall i j oi oj, i <> j -> ts !! S i ≫= result = Some oi ->
     ts !! S j ≫= result = Some oj -> oi ## oj) /\
  (forall outs, returned ts outs -> exists n, repr q' (drop n (l0 ++ xs)) /\
     l0 ++ xs ≡ₚ concat (tail outs) ++ drop n (l0 ++ xs)) /\
  (forall i p, ts !! i = Some p -> is_bad p q' = false).
Proof.
  intros (vh & vt & h & H) Hnd Hroom Hreach. destruct H as [Hb Hvh Hvt Hh Hhd Htl Hn Hs].
  destruct (rg_adequacy_steps (Inv vh h l0 xs) Guar
    (push_all xs :: ((fun n => steal_n n []) <$> ns))
    (fun i out c => match i with O => pushed c.2 = length (l0 ++ xs) | S _ => has l0 xs i out c end)
    q (Ghost (length l0) []) ts q') as ([p σ] & Hsteps & HI & Hlen & Hts); [| |exact Hreach|].
  - split; simpl; try done.
    + unfold head_at. rewrite !Z.add_0_r, Hhd. unfold wrapu. rewrite !Z.mod_small; done.
    + by exists vt.
    + rewrite length_app. lia.
    + intros j x Hj Hx. apply Hs. by rewrite lookup_app_l in Hx.
  - intros [|i] pr Hpr; simpl in Hpr.
    + injection Hpr as <-. exists (fun c => xs = drop (pushed c.2) (l0 ++ xs)). split.
      * simpl. by rewrite drop_app_length.
      * by eapply owner_ok.
    + apply list_lookup_fmap_Some in Hpr as (n & -> & Hn').
      exists (has l0 xs (S i) []). split; [|by eapply steal_n_ok].
      unfold has, got. by destruct (l0 ++ xs).
  - apply thieves_exist in Hsteps; [|constructor]. simpl in Hsteps, Hlen. rewrite length_fmap in Hlen, Hsteps.
    assert (Hthief : forall i out, ts !! S i ≫= result = Some out -> out = got (l0 ++ xs) σ (S i)).
    { intros i out Ho. destruct (ts !! S i) as [pr|] eqn:E; [|done]. simpl in Ho.
      destruct (Hts _ _ E) as [_ HQ]. by apply (HQ out Ho). }
    split_and!.
    + intros i out ->%Hthief. apply got_sublist.
    + intros i j oi oj Hne ->%Hthief ->%Hthief. apply got_disjoint; [done|lia].
    + intros outs Houts. destruct ts as [|t ts]; [done|]. inversion Houts as [|? o ? outs' Ho Houts']; subst.
      destruct (Hts O t eq_refl) as [_ HQ]. specialize (HQ _ Ho). exists (length σ).
      split; [exact (Inv_repr vh h l0 xs Hroom _ HI HQ)|]. simpl in Hlen |- *. injection Hlen as Hlen.
      rewrite (returned_eq ts outs' ((fun i => got (l0 ++ xs) σ (S i)) <$> seq 0 (length ns)) Houts').
      * rewrite <- got_shares; [by rewrite take_drop| |done]. pose proof (inv_count _ _ _ _ _ HI). simpl in *. lia.
      * by rewrite length_fmap, length_seq.
      * intros i a Hi. rewrite (Hthief i a Hi), list_lookup_fmap.
        rewrite lookup_seq_lt; [done|]. destruct (ts !! i) eqn:E; [|done]. apply lookup_lt_Some in E. lia.
    + intros i pr E. by destruct (Hts _ _ E).
Qed.

(** Two tasks, two thieves: each takes one while the owner pushes. *)
Definition two_thieves : conf queue (list ptr) :=
  drive 100 [Steps 0 3; Steps 1 2; All 0; All 2; All 1]
    (push_all [7%nat; 8%nat; 9%nat] :: ((fun n => steal_n n []) <$> [1%nat; 1%nat]), WorkStealingQueue).

Lemma stealing_delivers_once_witness :
  repr WorkStealingQueue [] /\ exists n, repr two_thieves.2 (drop n [7%nat; 8%nat; 9%nat]) /\
    [7%nat; 8%nat; 9%nat] ≡ₚ concat [[8%nat]; [7%nat]] ++ drop n [7%nat; 8%nat; 9%nat].
Proof.
  split; [apply wsq_repr_empty|].
  destruct (stealing_delivers_once WorkStealingQueue [] [7%nat; 8%nat; 9%nat] [1%nat; 1%nat]
    two_thieves.1 two_thieves.2) as (_ & _ & H & _); [apply wsq_repr_empty| |done| |].
  - apply (bool_decide_unpack _). vm_compute. exact I.
  - rewrite <- surjective_pairing. apply drive_reachable.
  - apply (H [[]; [8%nat]; [7%nat]]). unfold returned. vm_compute. repeat constructor.
Defined.

(** ** The queue as a double-ended queue *)

Inductive op := OpPush (x : ptr) | OpPop | OpSteal.

Definition do_op (o : op) : prog queue (option ptr) :=
  match o with
  | OpPush x => Push x ;;; Ret None
  | OpPop => Pop
  | OpSteal => Steal
  end.

Fixpoint do_ops (os : list op) : prog queue (list (option ptr)) :=
  match os with
  | [] => Ret []
  | o :: os => r <- do_op o ;; rs <- do_ops os ;; Ret (r :: rs)
  end.

(** The specification: a list, oldest task first. *)
Definition deque_step (l : list ptr) (o : op) : list ptr * option ptr :=
  match o with
  | OpPush x => (l ++ [x], None)
  | OpPop => (take (pred (length l)) l, list.last l)
  | OpSteal => (tail l, head l)
  end.

Fixpoint deque_run (l : list ptr) (os : list op) : list ptr * list (option ptr) :=
  match os with
  | [] => (l, [])
  | o :: os =>
      let '(l', r) := deque_step l o in
      let '(l'', rs) := deque_run l' os in (l'', r :: rs)
  end.

(** No push finds [CAPACITY - 1] tasks in the queue. *)
Fixpoint deque_fits (l : list ptr) (os : list op) : bool :=
  match os with
  | [] => true
  | o :: os =>
      match o with OpPush _ => Z.of_nat (length l) <? CAPACITY - 1 | _ => true end
      && deque_fits (deque_step l o).1 os
  end.

Lemma wsq_op_refines q l o : repr q l -> deque_fits l [o] = true ->
  wp (do_op o) (fun r q' => r = (deque_step l o).2 /\ repr q' (deque_step l o).1) q.
Proof.
  intros H Hfit. destruct o as [x| |]; simpl in *.
  - apply wp_bind. eapply wp_mono; [apply wsq_push_repr; [done|lia]|].
    intros [] q' H'. by wp_go.
  - by apply wsq_pop_repr.
  - by apply wsq_steal_repr.
Qed.

(** C29: Run by one thread, any sequence of Push, Pop and Steal calls that
    keeps fewer than CAPACITY-1 tasks queued behaves as a deque: Push and Pop
    at the tail, Steal at the head. *)
Theorem wsq_refines_deque os q l :
  repr q l -> deque_fits l os = true ->
  wp (do_ops os) (fun rs q' => rs = (deque_run l os).2 /\ repr q' (deque_run l os).1) q.
Proof.
  revert q l; induction os as [|o os IH]; intros q l H Hfit; simpl; [by wp_go|].
  cbn [deque_fits] in Hfit. apply andb_true_iff in Hfit as [Hfit1 Hfit2].
  apply wp_bind. eapply wp_mono; [apply wsq_op_refines; [done|simpl; by rewrite Hfit1]|].
  intros r q' [-> H']. destruct (deque_step l o) as [l' r'] eqn:E; simpl in *.
  apply wp_bind. eapply wp_mono; [by apply IH|]. intros rs q'' [-> H''].
  destruct (deque_run l' os) as [l'' rs']; simpl in *. by wp_go.
Qed.

Lemma wsq_refines_deque_witness :
  wp (do_ops [OpPush 1%nat; OpPush 2%nat; OpSteal; OpPop; OpPop])
     (fun rs q' => rs = [None; None; Some 1%nat; Some 2%nat; None] /\ repr q' [])
     WorkStealingQueue.
Proof.
  exact (wsq_refines_deque [OpPush 1%nat; OpPush 2%nat; OpSteal; OpPop; OpPop]
           WorkStealingQueue [] wsq_repr_empty eq_refl).
Defined.

Lemma wsq_pop_multiple_repr q l m :
  repr q l -> 0 <= m ->
  wp (PopMultiple m) (fun out q' => out = take (Z.to_nat m) (reverse l) /\
                        repr q' (take (length l - Z.to_nat m) l)) q.
Proof.
  intros H Hm. unfold PopMultiple.
  apply (wp_loop_inv
    (fun out q' => exists l', l = l' ++ reverse out /\ repr q' l' /\ Z.of_nat (length out) <= m)
    (fun out _ => Z.to_nat (m - Z.of_nat (length out)))).
  { exists l. simpl. by rewrite app_nil_r. }
  clear H q. intros out q (l' & -> & H & Hle).
  destruct (Z.ltb_spec (Z.of_nat (length out)) m) as [Hlt|Hge].
  - apply wp_bind. eapply wp_mono; [by apply wsq_pop_repr|]. intros r q' [-> H'].
    revert H H'. induction l' as [|x l2 _] using rev_ind; intros H H'; simpl in *.
    + wp_go. rewrite reverse_involutive, take_ge, length_reverse by lia.
      by replace (length out - Z.to_nat m)%nat with 0%nat by lia.
    + rewrite last_snoc. wp_go.
      rewrite length_app, Nat.add_1_r in H'; simpl in H'. rewrite take_app_length in H'.
      split; [|rewrite length_app; simpl; lia].
      exists l2. rewrite reverse_app, <- app_assoc, length_app; simpl. split_and!; [done..|lia].
  - wp_go. assert (Z.to_nat m = length out) as -> by lia.
    rewrite reverse_app, reverse_involutive, take_app_length, length_app, length_reverse.
    rewrite Nat.add_sub, take_app_length. done.
Qed.

(** PopMultiple(buffer, max_count) run by the owner alone returns the newest
    min(max_count, size) tasks, newest first, and leaves the others in place.
    *)
Theorem PopMultiple_takes_newest q l m :
  repr q l -> 0 <= m ->
  wp (PopMultiple m) (fun out q' => out = take (Z.to_nat m) (reverse l) /\
                        repr q' (take (length l - Z.to_nat m) l)) q.
Proof. apply wsq_pop_multiple_repr. Qed.

Lemma PopMultiple_takes_newest_witness :
  wp (Push 1%nat ;;; Push 2%nat ;;; PopMultiple 8)
     (fun out q' => out = [2%nat; 1%nat] /\ repr q' []) WorkStealingQueue.
Proof.
  apply wp_bind. eapply wp_mono; [by apply (wsq_push_repr _ [] 1%nat wsq_repr_empty)|].
  intros [] q H. apply wp_bind. eapply wp_mono; [by apply (wsq_push_repr _ [1%nat] 2%nat H)|].
  intros [] q' H'. exact (PopMultiple_takes_newest q' [1%nat; 2%nat] 8 H' ltac:(lia)).
Defined.

(** Pushing onto a ring that already holds CAPACITY-1 tasks makes head and
    tail indices equal, so the queue reports empty and all the tasks are lost.
    *)
Theorem Push_at_capacity_loses_all q l x :
  repr q l -> Z.of_nat (length l) = CAPACITY - 1 ->
  wp (Push x ;;; Empty) (fun b q' => b = true /\ repr q' []) q.
Proof.
  intros (vh & vt & h & H) Hn. apply wp_bind. eapply Push_run; [done|].
  destruct H as [Hb Hvh Hvt Hh Hhd Htl _ _].
  assert (E : (h + Z.of_nat (S (length l))) mod CAPACITY = h) by ring_lia.
  rewrite E. unfold Empty. wp_go. rewrite Hhd. wsq_words. split; [apply Z.eqb_refl|].
  exists vh, (u32 (vt + 1)), h. split; simpl; rewrite ?length_insert; auto with wsq; try done.
  by rewrite Z.add_0_r, Z.mod_small.
Qed.

(** A queue object that holds [l], for the concrete examples. *)
Definition holding (l : list ptr) : queue :=
  Queue ((Some <$> l) ++ replicate (Z.to_nat CAPACITY - length l) None) 0
        (MakeVal 0 (Z.of_nat (length l))).

Lemma holding_repr l : Z.of_nat (length l) < CAPACITY -> repr (holding l) l.
Proof.
  intros Hl. exists 0, 0, 0. split; simpl; try done.
  - rewrite length_app, length_fmap, length_replicate. unfold CAPACITY in *. lia.
  - by rewrite Z.mod_small by lia.
  - intros i x Hi. pose proof (lookup_lt_Some _ _ _ Hi).
    rewrite Z.add_0_l, Z.mod_small, Nat2Z.id by lia.
    by rewrite lookup_app_l, list_lookup_fmap, Hi by by rewrite length_fmap.
Qed.

Lemma Push_at_capacity_loses_all_witness :
  wp (Push 5%nat ;;; Empty) (fun b q' => b = true /\ repr q' [])
     (holding (replicate 1023 7%nat)).
Proof.
  exact (Push_at_capacity_loses_all (holding (replicate 1023 7%nat)) (replicate 1023 7%nat) 5%nat
           (holding_repr (replicate 1023 7%nat) ltac:(rewrite length_replicate; done))
           ltac:(rewrite length_replicate; done)).
Defined.

(** The owner taking the last task but one while two thieves take both. *)
Definition two_tasks : queue := holding [10%nat; 11%nat].

(** There is an interleaving of the owner calling Pop with two thieves calling
    Steal on a queue of two tasks in which one task is returned twice. *)
Theorem Pop_races_with_Steal :
  exists ts q', repr two_tasks [10%nat; 11%nat] /\
    reachable ([Pop; Steal; Steal], two_tasks) (ts, q') /\
    map result ts = [Some (Some 11%nat); Some (Some 10%nat); Some (Some 11%nat)].
Proof.
  destruct (sched (turn 0 3 ++ turn 1 5 ++ turn 2 5 ++ turn 0 1) ([Pop; Steal; Steal], two_tasks))
    as [[ts q']|] eqn:E; [|by vm_compute in E].
  exists ts, q'. split; [by apply holding_repr|]. split; [by eapply sched_reachable|].
  vm_compute in E. injection E as <- <-. reflexivity.
Qed.

End WorkStealingQueue.
