(* ===== verification/Mpsc.v ===== *)
(** * The intrusive multi-producer single-consumer queue

    Model of [include/bthread/queue/mpsc_queue.hpp] ([MpscQueue], used as
    [TaskQueue] and, through the [waiter_next] policy, as [WaiterQueue]):
    sequential correctness, FIFO delivery under every interleaving of any
    number of producers with one consumer, and the race that loses items. *)

From Stdlib Require Import ZArith Lia.
From stdpp Require Import base numbers list gmap relations option.
From S2P Require Import Prelude Concurrency.

Open Scope Z_scope.

Module MpscQueue.

(** [head_], [tail_], and the link field of the nodes that the policy selects
    ([next] or [waiter_next]); an absent link is [nullptr]. *)
Record mpsc := Mpsc { mhead : option ptr; mtail : option ptr; nexts : gmap ptr ptr }.

Definition head_ : field mpsc (option ptr) :=
  Field mhead (fun v q => Mpsc v (mtail q) (nexts q)).
Definition tail_ : field mpsc (option ptr) :=
  Field mtail (fun v q => Mpsc (mhead q) v (nexts q)).
(** [Policy::Get(p)]. *)
Definition Get (p : ptr) : field mpsc (option ptr) :=
  Field (fun q => nexts q !! p)
        (fun v q => Mpsc (mhead q) (mtail q) (partial_alter (fun _ => v) p (nexts q))).
Definition Clear (p : ptr) : prog mpsc unit := store (Get p) None.

Definition Push (item : ptr) : prog mpsc unit :=
  Clear item ;;;
  prev <- exchange head_ (Some item) ;;
  match prev with
  | Some p => store (Get p) (Some item)
  | None => store tail_ (Some item)
  end.

Definition MAX_PAUSE_SPINS : Z := 100.
Definition MAX_YIELD_SPINS : Z := 10.

(** The spin of [Pop] on [t]: it is left with [inl tt] for the restart
    [return Pop()] and with [inr r] for [return r]. *)
Definition Pop_spin (t : ptr) (counts : Z * Z)
    : prog mpsc (Z * Z + (unit + option ptr)) :=
  let '(pause_count, yield_count) := counts in
  n <- load (Get t) ;;
  match n with
  | Some n => store tail_ (Some n) ;;; Clear t ;;; Ret (inr (inr (Some t)))
  | None =>
      if pause_count <? MAX_PAUSE_SPINS then
        pause ;;; Ret (inl (pause_count + 1, yield_count))
      else if yield_count <? MAX_YIELD_SPINS then
        pause ;;; Ret (inl (0, yield_count + 1))
      else
        current_tail <- load tail_ ;;
        if decide (current_tail <> Some t) then Ret (inr (inl tt))
        else
          current_head <- load head_ ;;
          match current_head with
          | None => Ret (inr (inr None))
          | Some _ => Ret (inl (0, 0))
          end
  end.

Definition Pop : prog mpsc (option ptr) :=
  loop tt (fun _ =>
    t <- load tail_ ;;
    match t with
    | None => Ret (inr None)
    | Some t =>
        next <- load (Get t) ;;
        match next with
        | Some n => store tail_ (Some n) ;;; Clear t ;;; Ret (inr (Some t))
        | None =>
            c <- cas head_ (Some t) None ;;
            if c.1 : bool then store tail_ None ;;; Clear t ;;; Ret (inr (Some t))
            else loop (0, 0) (Pop_spin t)
        end
    end).

Definition Empty : prog mpsc bool :=
  t <- load tail_ ;; Ret (bool_decide (t = None)).

(** The items written to the caller's buffer, in order. *)
Definition PopMultiple (max_count : Z) : prog mpsc (list ptr) :=
  loop [] (fun out =>
    if Z.of_nat (length out) <? max_count then
      item <- Pop ;;
      match item with
      | None => Ret (inr out)
      | Some x => Ret (inl (out ++ [x]))
      end
    else Ret (inr out)).

(** ** The abstract queue *)

(** [linked m l]: the nodes of [l] are chained by [m], the last one to null. *)
Definition linked (m : gmap ptr ptr) (l : list ptr) : Prop :=
  forall k x, l !! k = Some x -> m !! x = l !! S k.

Record repr (q : mpsc) (l : list ptr) : Prop := {
  repr_head : mhead q = list.last l;
  repr_tail : mtail q = head l;
  repr_nodup : NoDup l;
  repr_links : linked (nexts q) l;
}.

(** Nodes outside [l] keep their links. *)
Definition frame (l : list ptr) (q q' : mpsc) : Prop :=
  forall y, y ∉ l -> nexts q' !! y = nexts q !! y.

Lemma repr_nil m : repr (Mpsc None None m) [].
Proof. by split; [done|done|constructor|]. Qed.

Lemma mpsc_repr_empty : repr (Mpsc None None ∅) [].
Proof. apply repr_nil. Qed.

Lemma linked_ext m m' l : (forall x, x ∈ l -> m' !! x = m !! x) -> linked m l -> linked m' l.
Proof.
  intros E H k x Hk. rewrite E; [by apply H|]. by eapply list_elem_of_lookup_2.
Qed.

Lemma linked_tail m x l : linked m (x :: l) -> linked m l.
Proof. intros H k y Hk. exact (H (S k) y Hk). Qed.

Lemma linked_snoc m l p x : NoDup (l ++ [p]) -> x ∉ l ++ [p] -> linked m (l ++ [p]) -> m !! x = None ->
  linked (<[p := x]> m) ((l ++ [p]) ++ [x]).
Proof.
  intros Hnd Hx H Hmx k y Hk. destruct (decide (k < length (l ++ [p]))%nat) as [Hlt|Hge].
  - rewrite lookup_app_l in Hk by done.
    destruct (decide (y = p)) as [->|Hne].
    + assert (k = length l) as ->.
      { eapply NoDup_lookup; [exact Hnd|exact Hk|]. by rewrite list_lookup_middle. }
      rewrite lookup_insert_eq, lookup_app_r by (rewrite length_app; simpl; lia).
      by replace (S (length l) - length (l ++ [p]))%nat with O by (rewrite length_app; simpl; lia).
    + rewrite lookup_insert_ne by done. rewrite (H k y Hk).
      assert (S k < length (l ++ [p]))%nat; [|by rewrite (lookup_app_l (l ++ [p])) by done].
      destruct (decide (k = length l)) as [->|]; [|rewrite length_app in *; simpl in *; lia].
      rewrite list_lookup_middle in Hk by done. by simplify_eq.
  - rewrite lookup_app_r in Hk by lia.
    destruct (k - length (l ++ [p]))%nat eqn:E; [|done]. simpl in Hk. simplify_eq.
    rewrite lookup_insert_ne, Hmx.
    + symmetry. apply lookup_ge_None_2. rewrite length_app. simpl. lia.
    + intros ->. set_solver.
Qed.

Lemma mpsc_push_repr q l x : repr q l -> x ∉ l ->
  wp (Push x) (fun _ q' => repr q' (l ++ [x]) /\ frame (l ++ [x]) q q') q.
Proof.
  intros [Hh Ht Hnd Hl] Hx. unfold Push, Clear. wp_go. rewrite Hh.
  assert (Hnd' : NoDup (l ++ [x])).
  { apply list.NoDup_app. split; [done|]. split; [set_solver|apply NoDup_singleton]. }
  assert (Hl' : linked (delete x (nexts q)) l).
  { eapply linked_ext; [|exact Hl]. intros y Hy. apply lookup_delete_ne. set_solver. }
  destruct l as [|p l _] using rev_ind; simpl.
  - wp_go. split; [split; simpl; try done|].
    + intros [|k] y Hk; simpl in *; simplify_eq. apply lookup_partial_alter_eq.
    + intros y Hy; simpl. apply lookup_partial_alter_ne. set_solver.
  - rewrite last_snoc. wp_go. split; [split; simpl; try done|].
    + by rewrite last_snoc.
    + rewrite Ht. by destruct l.
    + apply linked_snoc; try done. by rewrite lookup_partial_alter_eq.
    + intros y Hy; simpl. rewrite !lookup_partial_alter_ne by set_solver. done.
Qed.

Lemma mpsc_pop_repr q l : repr q l ->
  wp Pop (fun r q' => r = head l /\ repr q' (tail l) /\ frame l q q') q.
Proof.
  intros [Hh Ht Hnd Hl]. unfold Pop. apply wp_loop_once. wp_go. rewrite Ht.
  destruct l as [|x l]; simpl; [by wp_go|].
  apply list.NoDup_cons in Hnd as [Hx Hnd]. wp_go. rewrite (Hl O x eq_refl); simpl.
  assert (Hl' : linked (delete x (nexts q)) l).
  { eapply linked_ext; [|by eapply linked_tail].
    intros y Hy. apply lookup_delete_ne. set_solver. }
  destruct l as [|y l]; simpl.
  - apply wp_cas_bind; simpl; [intros _|by rewrite Hh]. unfold Clear. wp_go.
    split; [done|]. split; [by split|].
    intros y Hy; simpl. apply lookup_partial_alter_ne. set_solver.
  - unfold Clear. wp_go. split; [done|]. split; [by split|].
    intros z Hz; simpl. apply lookup_partial_alter_ne. set_solver.
Qed.

(** ** Any number of producers, one consumer *)

Fixpoint push_all (xs : list ptr) : prog mpsc (list ptr) :=
  match xs with
  | [] => Ret []
  | x :: xs => Push x ;;; push_all xs
  end.

(** The consumer calls [Pop] [n] times and collects the items. *)
Fixpoint pop_n (n : nat) (acc : list ptr) : prog mpsc (list ptr) :=
  match n with
  | O => Ret acc
  | S n => r <- Pop ;; pop_n n (acc ++ option_list r)
  end.

(** The items of producer [i] in the order of the exchanges. *)
Definition by_thread (i : nat) (ord : list (nat * ptr)) : list ptr :=
  (filter (fun x => x.1 = i) ord).*2.

Lemma by_thread_snoc i ord j x :
  by_thread i (ord ++ [(j, x)]) = by_thread i ord ++ (if decide (j = i) then [x] else []).
Proof.
  unfold by_thread. rewrite list.filter_app, fmap_app. f_equal.
  rewrite list.filter_cons, list.filter_nil; simpl. by case_decide.
Qed.

Lemma by_thread_elem i ord x : x ∈ by_thread i ord <-> (i, x) ∈ ord.
Proof.
  unfold by_thread. rewrite list_elem_of_fmap. split.
  - intros ([j y] & -> & [E H]%list_elem_of_filter); simpl in *. by subst.
  - intros H. exists (i, x). split; [done|]. by apply list_elem_of_filter.
Qed.

Section Concurrent.
(** [work i] is what producer [i] pushes; thread 0 is the consumer. *)
Context (work : nat -> list ptr).
Hypothesis work_0 : work O = [].
Hypothesis work_nodup : forall i, NoDup (work i).
Hypothesis work_disjoint : forall i j x, i <> j -> x ∈ work i -> x ∉ work j.

(** Ghost state: the order of the exchanges with the thread of each; how
    many items have left the queue; the producers between their exchange and
    the store that publishes the item; the item the consumer is claiming. *)
Record ghost := Ghost {
  ord : list (nat * ptr);
  popped : nat;
  pend : gmap nat (option ptr * ptr);
  claimed : option ptr;
}.

Definition item (γ : ghost) (k : nat) : option ptr := (ord γ).*2 !! k.
Definition first (γ : ghost) : option ptr := item γ (popped γ).

Record Inv (c : mpsc * ghost) : Prop := {
  inv_work : forall i, by_thread i (ord c.2) `prefix_of` work i;
  inv_nodup : NoDup (ord c.2).*2;
  inv_popped : (popped c.2 <= length (ord c.2))%nat;
  inv_head : mhead c.1 = list.last (drop (popped c.2) (ord c.2).*2);
  inv_link : forall k x, (popped c.2 <= k)%nat -> item c.2 k = Some x ->
    nexts c.1 !! x = item c.2 (S k) \/
    (nexts c.1 !! x = None /\ exists i y, pend c.2 !! i = Some (Some x, y));
  inv_pend_link : forall i x y, pend c.2 !! i = Some (Some x, y) ->
    nexts c.1 !! x = None /\
    exists k, (popped c.2 <= k)%nat /\ item c.2 k = Some x /\ ord c.2 !! S k = Some (i, y);
  inv_pend_tail : forall i y, pend c.2 !! i = Some (None, y) ->
    mtail c.1 <> Some y /\ ord c.2 !! popped c.2 = Some (i, y);
  inv_tail : match claimed c.2 with
             | None => mtail c.1 = None \/ (mtail c.1 = first c.2 /\ is_Some (first c.2))
             | Some t => t ∈ take (popped c.2) (ord c.2).*2 /\
                 (mtail c.1 = Some t \/ (mtail c.1 = first c.2 /\ is_Some (first c.2)))
             end;
}.

(** What each thread promises: the consumer touches the links of items
    already pushed only; a producer appends its own items, keeps every link
    that is set, and writes [tail_] only to publish the first item. *)
Definition Guar (i : nat) (c c' : mpsc * ghost) : Prop :=
  (forall y, y ∉ (ord c.2).*2 -> y ∉ work i -> nexts c'.1 !! y = nexts c.1 !! y) /\
  (forall j, j <> i -> pend c'.2 !! j = pend c.2 !! j) /\
  match i with
  | O => ord c'.2 = ord c.2
  | S _ =>
      (ord c'.2 = ord c.2 \/ exists x, x ∈ work i /\ ord c'.2 = ord c.2 ++ [(i, x)]) /\
      popped c'.2 = popped c.2 /\ claimed c'.2 = claimed c.2 /\
      (forall y z, y ∈ (ord c.2).*2 -> nexts c.1 !! y = Some z -> nexts c'.1 !! y = Some z) /\
      (mtail c'.1 = mtail c.1 \/ exists y, first c.2 = Some y /\ mtail c.1 <> Some y)
  end.

Lemma mpsc_guar_refl i c : Inv c -> Guar i c c.
Proof. intros _. unfold Guar. split_and!; try done. destruct i; [done|split_and!; auto]. Qed.

Lemma Guar_ord i c c' : Guar i c c' ->
  ord c'.2 = ord c.2 \/ exists x, x ∈ work i /\ ord c'.2 = ord c.2 ++ [(i, x)].
Proof. intros (_ & _ & H). destruct i; [by left|]. by destruct H as (H & _). Qed.

Lemma item_app γ γ' l k x : ord γ' = ord γ ++ l -> item γ k = Some x -> item γ' k = Some x.
Proof.
  unfold item. intros -> H. rewrite fmap_app. apply lookup_app_l_Some, H.
Qed.

Lemma item_stable i c c' k x : Guar i c c' -> item c.2 k = Some x -> item c'.2 k = Some x.
Proof.
  intros HG H. destruct (Guar_ord i c c' HG) as [E|(y & _ & E)].
  - unfold item in *. by rewrite E.
  - by eapply item_app.
Qed.

Lemma item_inj c j k x : Inv c -> item c.2 j = Some x -> item c.2 k = Some x -> j = k.
Proof. intros HI. apply NoDup_lookup, (inv_nodup _ HI). Qed.

Lemma item_elem γ k x : item γ k = Some x -> x ∈ (ord γ).*2.
Proof. apply list_elem_of_lookup_2. Qed.

(** An item still to be pushed by [i] is not in the queue. *)
Lemma work_fresh c i k x : Inv c -> by_thread i (ord c.2) = take k (work i) ->
  work i !! k = Some x -> x ∉ (ord c.2).*2.
Proof.
  intros HI Hk Hx ([j y] & E & Hy)%list_elem_of_fmap; simpl in *; subst y.
  apply by_thread_elem in Hy. destruct (decide (j = i)) as [->|Hne].
  - rewrite Hk in Hy. apply list_elem_of_lookup_1 in Hy as [m Hm].
    pose proof (lookup_lt_Some _ _ _ Hm). rewrite length_take in *.
    rewrite lookup_take_lt in Hm by lia.
    pose proof (NoDup_lookup _ _ _ _ (work_nodup i) Hx Hm). lia.
  - assert (Hj : x ∈ work j) by (eapply elem_of_prefix; [exact Hy|apply (inv_work _ HI)]).
    eapply (work_disjoint j i); [done|exact Hj|]. by eapply list_elem_of_lookup_2.
Qed.

(** *** The consumer *)

(** [acc] is what it has popped, and no claim is under way. *)
Definition idle (acc : list ptr) (c : mpsc * ghost) : Prop :=
  acc = take (popped c.2) (ord c.2).*2 /\ claimed c.2 = None.
(** [t] is at the front and the consumer has seen it there. *)
Definition at_front (acc : list ptr) (t : ptr) (c : mpsc * ghost) : Prop :=
  idle acc c /\ first c.2 = Some t /\ mtail c.1 = Some t.

Lemma take_popped j c c' : j <> O -> Inv c -> Guar j c c' ->
  popped c'.2 = popped c.2 /\ claimed c'.2 = claimed c.2 /\
  take (popped c'.2) (ord c'.2).*2 = take (popped c.2) (ord c.2).*2.
Proof.
  intros Hj HI HG. pose proof (Guar_ord j c c' HG) as Ho.
  destruct j as [|j]; [done|]. destruct HG as (_ & _ & _ & Hp & Hc & _).
  rewrite Hp, Hc. split_and!; try done. pose proof (inv_popped _ HI).
  destruct Ho as [->|(x & _ & ->)]; [done|]. rewrite fmap_app.
  apply take_app_le. by rewrite length_fmap.
Qed.

Lemma stable_idle acc : stable Inv Guar O (idle acc).
Proof.
  intros j c c' Hj HI [Ha Hc] HG _. destruct (take_popped j c c' Hj HI HG) as (E1 & E2 & E3).
  split; congruence.
Qed.

Lemma stable_front acc t : stable Inv Guar O (at_front acc t).
Proof.
  intros j c c' Hj HI (Hid & Hf & Ht) HG HI'.
  split; [exact (stable_idle acc j c c' Hj HI Hid HG HI')|].
  destruct (take_popped j c c' Hj HI HG) as (Hp & _ & _).
  split.
  - unfold first in *. rewrite Hp. by eapply item_stable.
  - destruct j as [|j]; [done|]. destruct HG as (_ & _ & _ & _ & _ & _ & [->|(y & Hy & Hne)]);
      [done|]. congruence.
Qed.

(** The item behind the front one has been linked. *)
Definition second (acc : list ptr) (t n : ptr) (c : mpsc * ghost) : Prop :=
  at_front acc t c /\ item c.2 (S (popped c.2)) = Some n /\ nexts c.1 !! t = Some n.

Lemma stable_second acc t n : stable Inv Guar O (second acc t n).
Proof.
  intros j c c' Hj HI (Hfr & Hs & Hn) HG HI'. split; [exact (stable_front acc t j c c' Hj HI Hfr HG HI')|].
  destruct (take_popped j c c' Hj HI HG) as (Hp & _ & _). rewrite Hp.
  split; [by eapply item_stable|].
  destruct j as [|j]; [done|]. destruct HG as (_ & _ & _ & _ & _ & Hl & _).
  apply Hl; [|done]. destruct Hfr as (_ & Hf & _). by eapply item_elem.
Qed.

(** Reading a link of the front item that is set gives the second item. *)
Lemma read_second acc t n c : Inv c -> at_front acc t c -> nexts c.1 !! t = Some n ->
  second acc t n c.
Proof.
  intros HI Hfr Hn. split; [done|]. split; [|done]. destruct Hfr as (_ & Hf & _).
  destruct (inv_link _ HI (popped c.2) t) as [E|[E _]]; [lia|done|congruence|congruence].
Qed.

Lemma in_popped_ne c t k x : Inv c -> t ∈ take (popped c.2) (ord c.2).*2 ->
  (popped c.2 <= k)%nat -> item c.2 k = Some x -> x <> t.
Proof.
  intros HI [j Hj]%list_elem_of_lookup_1 Hk Hx ->.
  pose proof (lookup_lt_Some _ _ _ Hj) as Hlt. rewrite length_take in Hlt.
  rewrite lookup_take_lt in Hj by lia. pose proof (item_inj c j k t HI Hj Hx). lia.
Qed.

Lemma take_first γ t : first γ = Some t ->
  take (S (popped γ)) (ord γ).*2 = take (popped γ) (ord γ).*2 ++ [t].
Proof. apply take_S_r. Qed.

(** Resetting the link of an item that has left the queue. *)
Lemma Clear_popped acc t {A} (r : A) (Q : A -> mpsc * ghost -> Prop) :
  (forall c, Inv c -> idle (acc ++ [t]) c -> Q r c) ->
  rg Inv Guar O (idle (acc ++ [t])) (Clear t ;;; Ret r) Q.
Proof.
  intros HQ. unfold Clear. apply rg_store with (P' := idle (acc ++ [t]));
    [apply stable_idle| |apply rg_ret; [apply stable_idle|done]].
  intros q γ HI [Ha Hc]. exists γ.
  assert (Ht : t ∈ take (popped γ) (ord γ).*2) by (simpl in Ha; rewrite <- Ha; set_solver).
  pose proof (in_popped_ne (q, γ) t) as Hne; simpl in Hne.
  split; [|split; [|done]].
  - split_and!; try done. intros y Hy _; simpl. apply lookup_partial_alter_ne.
    intros ->. apply Hy. by eapply elem_of_take in Ht as (? & ?%list_elem_of_lookup_2 & _).
  - destruct HI as [H1 H2 H3 H4 H5 H6 H7 H8]; split; simpl in *; try done.
    + intros k x Hk Hx. rewrite lookup_partial_alter_ne; [by apply H5|].
      intros <-. by eapply Hne.
    + intros i x y Hp. destruct (H6 i x y Hp) as (Hn & k & Hk & Hx & Ho).
      split; [|by exists k]. rewrite lookup_partial_alter_ne; [done|].
      intros <-. by eapply Hne.
Qed.

(** The front item leaves because its successor is linked. *)
Lemma unlink_ok acc t n {A} (r : A) (Q : A -> mpsc * ghost -> Prop) :
  (forall c, Inv c -> idle (acc ++ [t]) c -> Q r c) ->
  rg Inv Guar O (second acc t n) (store tail_ (Some n) ;;; Clear t ;;; Ret r) Q.
Proof.
  intros HQ. apply rg_store with (P' := idle (acc ++ [t]));
    [apply stable_second| |by apply Clear_popped].
  intros q γ HI (([Ha Hc] & Hf & Ht) & Hs & Hn); simpl in *.
  exists (Ghost (ord γ) (S (popped γ)) (pend γ) None).
  pose proof (item_inj (q, γ)) as Hinj; simpl in Hinj.
  split; [|split].
  - split_and!; done.
  - destruct HI as [H1 H2 H3 H4 H5 H6 H7 H8]; split; simpl in *; try done.
    + apply lookup_lt_Some in Hs. rewrite length_fmap in Hs. lia.
    + rewrite H4. unfold first, item in *. rewrite (drop_S _ _ _ Hf), (drop_S _ _ _ Hs). done.
    + intros k x Hk Hx. apply H5; [lia|done].
    + intros i x y Hp. destruct (H6 i x y Hp) as (Hnx & k & Hk & Hx & Ho).
      split; [done|]. exists k. split; [|done]. destruct (decide (k = popped γ)) as [->|]; [|lia].
      unfold first in Hf. congruence.
    + intros i y Hp. destruct (H7 i y Hp) as [Hne Ho]. exfalso. apply Hne.
      rewrite Ht, <- Hf. unfold first, item. by rewrite list_lookup_fmap, Ho.
    + right. unfold first; simpl. unfold item in *; simpl. by rewrite Hs.
  - split; [|done]. simpl. rewrite Ha. symmetry. by apply take_first.
Qed.

(** The claim of the last item: from the successful CAS on. *)
Definition claiming (acc : list ptr) (t : ptr) (c : mpsc * ghost) : Prop :=
  acc = take (popped c.2) (ord c.2).*2 /\ claimed c.2 = Some t.

Lemma claim_ok acc t {A} (r : A) (Q : A -> mpsc * ghost -> Prop) :
  (forall c, Inv c -> idle (acc ++ [t]) c -> Q r c) ->
  rg Inv Guar O (claiming (acc ++ [t]) t) (store tail_ None ;;; Clear t ;;; Ret r) Q.
Proof.
  intros HQ. apply rg_store with (P' := idle (acc ++ [t])); [| |by apply Clear_popped].
  - intros j c c' Hj HI [Ha Hc] HG _.
    destruct (take_popped j c c' Hj HI HG) as (E1 & E2 & E3). split; congruence.
  - intros q γ HI [Ha Hc]; simpl in *.
    exists (Ghost (ord γ) (popped γ) (pend γ) None). split; [split_and!; done|].
    split; [|done]. destruct HI as [H1 H2 H3 H4 H5 H6 H7 H8]; split; simpl in *; try done.
    + intros i y Hp. split; [done|]. by apply H7.
    + by left.
Qed.

Lemma cas_claims acc t q γ : Inv (q, γ) -> at_front acc t (q, γ) -> mhead q = Some t ->
  exists γ', Guar O (q, γ) (wr head_ None q, γ') /\ Inv (wr head_ None q, γ') /\
    claiming (acc ++ [t]) t (wr head_ None q, γ').
Proof.
  intros HI ([Ha Hc] & Hf & Ht) Hh; simpl in *.
  exists (Ghost (ord γ) (S (popped γ)) (pend γ) (Some t)).
  assert (Hlen : length (ord γ) = S (popped γ)).
  { pose proof (inv_head _ HI) as H4; simpl in H4.
    pose proof (lookup_lt_Some _ _ _ Hf) as Hlt. rewrite length_fmap in Hlt.
    rewrite Hh, last_lookup, lookup_drop, length_drop, length_fmap in H4.
    pose proof (item_inj (q, γ) _ _ t HI Hf (eq_sym H4)) as E. simpl in E. lia. }
  split; [split_and!; done|]. split.
  - destruct HI as [H1 H2 H3 H4 H5 H6 H7 H8]; split; simpl in *; try done.
    + lia.
    + rewrite drop_ge; [done|]. rewrite length_fmap. lia.
    + intros k x Hk Hx. apply lookup_lt_Some in Hx. rewrite length_fmap in Hx. simpl in Hx. lia.
    + intros i x y Hp. destruct (H6 i x y Hp) as (_ & k & Hk & _ & Ho).
      apply lookup_lt_Some in Ho. lia.
    + intros i y Hp. destruct (H7 i y Hp) as [Hne Ho]. exfalso. apply Hne.
      rewrite Ht, <- Hf. unfold first, item. by rewrite list_lookup_fmap, Ho.
    + split; [|by left]. rewrite (take_first _ _ Hf). set_solver.
  - split; [|done]. simpl. rewrite Ha. symmetry. by apply take_first.
Qed.

Lemma Pop_spin_ok acc t counts :
  rg Inv Guar O (at_front acc t) (Pop_spin t counts)
    (fun r => match r with
              | inl _ => at_front acc t
              | inr (inl _) => idle acc
              | inr (inr r) => idle (acc ++ option_list r)
              end).
Proof.
  destruct counts as [pause_count yield_count]; simpl.
  assert (Hidle : forall c, at_front acc t c -> idle acc c) by (by intros c []).
  apply rg_load with (P' := fun n => match n with
                                     | Some n => second acc t n
                                     | None => at_front acc t
                                     end); [apply mpsc_guar_refl|apply stable_front| |].
  { intros q γ HI Hfr. simpl. destruct (nexts q !! t) as [n|] eqn:E; [|done].
    by apply read_second. }
  intros [n|]; [by apply unlink_ok|].
  destruct (pause_count <? MAX_PAUSE_SPINS).
  { unfold pause. apply rg_atomic with (P' := fun _ => at_front acc t);
      [apply stable_front|intros q γ HI Hfr; exists γ; auto using mpsc_guar_refl|].
    intros _. apply rg_ret; [apply stable_front|done]. }
  destruct (yield_count <? MAX_YIELD_SPINS).
  { unfold pause. apply rg_atomic with (P' := fun _ => at_front acc t);
      [apply stable_front|intros q γ HI Hfr; exists γ; auto using mpsc_guar_refl|].
    intros _. apply rg_ret; [apply stable_front|done]. }
  apply rg_load with (P' := fun _ => at_front acc t); [apply mpsc_guar_refl|apply stable_front|done|].
  intros ct. case_decide; [apply rg_ret; [apply stable_front|auto]|].
  apply rg_load with (P' := fun _ => at_front acc t); [apply mpsc_guar_refl|apply stable_front|done|].
  intros [hd|]; apply rg_ret; try apply stable_front; [done|].
  intros c _ Hfr. rewrite app_nil_r. auto.
Qed.

Lemma Pop_ok acc : rg Inv Guar O (idle acc) Pop (fun r => idle (acc ++ option_list r)).
Proof.
  unfold Pop. apply rg_while with (Inv := fun _ => idle acc);
    [apply mpsc_guar_refl|intros; apply stable_idle..|]. intros _.
  apply rg_load with (P' := fun t => match t with
                                     | Some t => at_front acc t
                                     | None => idle acc
                                     end); [apply mpsc_guar_refl|apply stable_idle| |].
  { intros q γ HI Hid. simpl. destruct (mtail q) as [t|] eqn:E; [|done]. split; [done|].
    destruct Hid as [_ Hc]. pose proof (inv_tail _ HI) as Ht; simpl in *. rewrite Hc in Ht.
    destruct Ht as [Ht|[Ht Hs]]; [congruence|]. split; congruence. }
  intros [t|]; [|apply rg_ret; [apply stable_idle|intros c _ Hid; by rewrite app_nil_r]].
  apply rg_load with (P' := fun n => match n with
                                     | Some n => second acc t n
                                     | None => at_front acc t
                                     end); [apply mpsc_guar_refl|apply stable_front| |].
  { intros q γ HI Hfr. simpl. destruct (nexts q !! t) as [n|] eqn:E; [|done].
    by apply read_second. }
  intros [n|]; [by apply unlink_ok|].
  apply rg_cas with (P' := fun (r : bool * option ptr) =>
      if r.1 then claiming (acc ++ [t]) t else at_front acc t);
    [apply mpsc_guar_refl|apply stable_front|by apply cas_claims|done|].
  intros [[] v]; simpl; [by apply claim_ok|].
  apply (rg_while Inv Guar mpsc_guar_refl O (fun _ => at_front acc t) (Pop_spin t) (0, 0)
    (fun r c => match r with inl _ => idle acc c | inr r => idle (acc ++ option_list r) c end));
    [intros; apply stable_front|intros [|]; apply stable_idle|].
  intros counts. eapply rg_post; [|apply Pop_spin_ok]. by intros [|[|]].
Qed.

Lemma pop_n_ok n acc : rg Inv Guar O (idle acc) (pop_n n acc) idle.
Proof.
  revert acc; induction n as [|n IH]; intros acc; simpl.
  - apply rg_ret; [apply stable_idle|done].
  - eapply rg_bind; [apply Pop_ok|]. intros r. apply IH.
Qed.

(** *** The producers *)

Definition ready (i k : nat) (c : mpsc * ghost) : Prop :=
  by_thread i (ord c.2) = take k (work i) /\ pend c.2 !! i = None.
Definition cleared (i k : nat) (x : ptr) (c : mpsc * ghost) : Prop :=
  ready i k c /\ nexts c.1 !! x = None.
Definition linking (i k : nat) (prev : option ptr) (x : ptr) (c : mpsc * ghost) : Prop :=
  by_thread i (ord c.2) = take (S k) (work i) /\ pend c.2 !! i = Some (prev, x).

Lemma other_by_thread i j c c' : j <> i -> Guar j c c' ->
  by_thread i (ord c'.2) = by_thread i (ord c.2) /\ pend c'.2 !! i = pend c.2 !! i.
Proof.
  intros Hj HG. destruct (Guar_ord j c c' HG) as [E|(x & _ & E)]; rewrite E;
    destruct HG as (_ & Hp & _); (split; [|by apply Hp]); [done|].
  rewrite by_thread_snoc, decide_False by done. apply app_nil_r.
Qed.

Lemma stable_ready i k : stable Inv Guar i (ready i k).
Proof.
  intros j c c' Hj HI [H1 H2] HG _. destruct (other_by_thread i j c c' Hj HG) as [E1 E2].
  split; congruence.
Qed.

Lemma stable_linking i k prev x : stable Inv Guar i (linking i k prev x).
Proof.
  intros j c c' Hj HI [H1 H2] HG _. destruct (other_by_thread i j c c' Hj HG) as [E1 E2].
  split; congruence.
Qed.

Lemma stable_cleared i k x : work i !! k = Some x -> stable Inv Guar i (cleared i k x).
Proof.
  intros Hx j c c' Hj HI [Hr Hn] HG HI'.
  split; [exact (stable_ready i k j c c' Hj HI Hr HG HI')|].
  destruct Hr as [Hb _]. destruct HG as (Hl & _). rewrite Hl; [done| |].
  - by eapply work_fresh.
  - apply (work_disjoint i j); [done|]. by eapply list_elem_of_lookup_2.
Qed.

Lemma Clear_new i k x q γ : work i !! k = Some x -> i <> O -> Inv (q, γ) -> ready i k (q, γ) ->
  Guar i (q, γ) (wr (Get x) None q, γ) /\ Inv (wr (Get x) None q, γ) /\
  cleared i k x (wr (Get x) None q, γ).
Proof.
  intros Hx Hi HI Hr.
  assert (Hf : x ∉ (ord γ).*2) by (eapply (work_fresh (q, γ)); [done|apply Hr|done]).
  assert (Hl : forall y, y ∈ (ord γ).*2 -> nexts (wr (Get x) None q) !! y = nexts q !! y)
    by (intros y Hy; simpl; apply lookup_partial_alter_ne; congruence).
  split; [|split].
  - destruct i as [|i]; [done|]. split_and!; try done; simpl; auto.
    + intros y _ Hy. apply lookup_partial_alter_ne. intros ->.
      apply Hy. by eapply list_elem_of_lookup_2.
    + intros y z Hy E. exact (eq_trans (Hl y Hy) E).
  - destruct HI as [H1 H2 H3 H4 H5 H6 H7 H8]; split; try done.
    + intros m y Hm Hy. cbn [fst snd] in *. rewrite (Hl y) by (by eapply item_elem). by apply H5.
    + intros j y z Hp. cbn [fst snd] in *. destruct (H6 j y z Hp) as (Hn & m & Hm & Hy & Ho).
      rewrite (Hl y) by (by eapply item_elem). split; [done|]. by exists m.
  - split; [done|]. apply lookup_partial_alter_eq.
Qed.

Lemma item_last γ x : item γ (length (ord γ)) = Some x -> False.
Proof. intros H%lookup_lt_Some. rewrite length_fmap in H. lia. Qed.

Lemma head_item c p : Inv c -> mhead c.1 = Some p ->
  exists k, (popped c.2 <= k)%nat /\ item c.2 k = Some p /\ S k = length (ord c.2).
Proof.
  intros HI Hh. pose proof (inv_popped _ HI). rewrite (inv_head _ HI) in Hh.
  rewrite last_lookup, lookup_drop, length_drop, length_fmap in Hh.
  pose proof (lookup_lt_Some _ _ _ Hh) as Hlt. rewrite length_fmap in Hlt.
  eexists; split; [|split; [exact Hh|]]; lia.
Qed.

(** Thread [i] has put [x] after the items, behind [prev]. *)
Definition appended (i : nat) (x : ptr) (prev : option ptr) (γ : ghost) : ghost :=
  Ghost (ord γ ++ [(i, x)]) (popped γ) (<[i := (prev, x)]> (pend γ)) (claimed γ).

Lemma appended_item i x prev γ m y : item γ m = Some y -> item (appended i x prev γ) m = Some y.
Proof. by apply item_app with (l := [(i, x)]). Qed.

Lemma appended_first i x prev γ : is_Some (first γ) -> first (appended i x prev γ) = first γ.
Proof. intros [y Hy]. rewrite Hy. by apply appended_item. Qed.

Lemma appended_items i x prev γ m y : item (appended i x prev γ) m = Some y ->
  item γ m = Some y \/ (m = length (ord γ) /\ y = x).
Proof.
  intros Hm. unfold item in *; simpl in *. rewrite fmap_app in Hm.
  apply lookup_app_Some in Hm as [|[Hge Hm]]; [by left|right]. rewrite length_fmap in *.
  destruct (m - length (ord γ))%nat eqn:E; [|done]. simpl in Hm. simplify_eq. lia.
Qed.

(** The invariant after the exchange of the head, clause by clause. *)
Lemma appended_link i x q γ m y : Inv (q, γ) -> pend γ !! i = None -> nexts q !! x = None ->
  (popped γ <= m)%nat -> item (appended i x (mhead q) γ) m = Some y ->
  nexts q !! y = item (appended i x (mhead q) γ) (S m) \/
  (nexts q !! y = None /\ exists j z, pend (appended i x (mhead q) γ) !! j = Some (Some y, z)).
Proof.
  intros HI Hnp Hn Hm Hy. pose proof (inv_head _ HI) as H4. cbn [fst snd] in H4.
  destruct (appended_items _ _ _ _ _ _ Hy) as [Hy'|[-> ->]].
  - destruct (inv_link _ HI m y Hm Hy') as [E|(E & j & z & Hp)]; cbn [fst snd] in *.
    + destruct (item γ (S m)) as [z|] eqn:Ez; [left; rewrite E; symmetry; by apply appended_item|].
      right. split; [done|]. exists i, x. simpl.
      assert (S m = length (ord γ)) as Em.
      { apply lookup_ge_None in Ez. apply lookup_lt_Some in Hy'. rewrite length_fmap in *. lia. }
      assert (mhead q = Some y) as ->; [|apply lookup_insert_eq].
      rewrite H4, last_lookup, lookup_drop, length_drop, length_fmap.
      replace (popped γ + _)%nat with m by lia. done.
    + right. split; [done|]. exists j, z. simpl. rewrite lookup_insert_ne; [done|]. intros ->. congruence.
  - left. rewrite Hn. symmetry. apply lookup_ge_None_2. simpl. rewrite length_fmap, length_app; simpl. lia.
Qed.

Lemma appended_pend_link i x q γ j p z : Inv (q, γ) -> pend (appended i x (mhead q) γ) !! j = Some (Some p, z) ->
  nexts q !! p = None /\
  exists m, (popped γ <= m)%nat /\ item (appended i x (mhead q) γ) m = Some p /\ (ord γ ++ [(i, x)]) !! S m = Some (j, z).
Proof.
  intros HI Hp. simpl in Hp. apply lookup_insert_Some in Hp as [[<- [= Eh <-]]|[Hj Hp]].
  - destruct (head_item (q, γ) p HI Eh) as (m & Hm & Hp & Em). cbn [fst snd] in *.
    split; [|exists m; split_and!; [done|by apply appended_item|]].
    + destruct (inv_link _ HI m p Hm Hp) as [E|[E _]]; [|done]. cbn [fst snd] in E. rewrite E, Em.
      apply lookup_ge_None_2. by rewrite length_fmap.
    + rewrite Em. by apply list_lookup_middle.
  - destruct (inv_pend_link _ HI j p z Hp) as (Hpn & m & Hm & Hy & Ho).
    split; [done|]. exists m. split_and!; [done|by apply appended_item|by apply lookup_app_l_Some].
Qed.

Lemma appended_pend_tail i x q γ j z : Inv (q, γ) -> x ∉ (ord γ).*2 ->
  pend (appended i x (mhead q) γ) !! j = Some (None, z) ->
  mtail q <> Some z /\ (ord γ ++ [(i, x)]) !! popped γ = Some (j, z).
Proof.
  intros HI Hf Hp. simpl in Hp. apply lookup_insert_Some in Hp as [[<- [= Eh <-]]|[Hj Hp]].
  - pose proof (inv_head _ HI) as H4. pose proof (inv_popped _ HI) as H3. pose proof (inv_tail _ HI) as H8.
    cbn [fst snd] in *. rewrite H4, list.last_None in Eh.
    assert (popped γ = length (ord γ)) as Epop.
    { pose proof (length_drop (ord γ).*2 (popped γ)) as El. rewrite Eh, length_fmap in El. simpl in El. lia. }
    assert (Hfn : first γ = None) by (apply lookup_ge_None_2; rewrite length_fmap; lia).
    split; [|rewrite Epop; by apply list_lookup_middle].
    intros Et. destruct (claimed γ) as [t|].
    + destruct H8 as [Hin [E|[_ [? ?]]]]; [|congruence]. rewrite E in Et. simplify_eq.
      apply Hf. eapply elem_of_take in Hin as (m & Hm & _). by eapply list_elem_of_lookup_2.
    + destruct H8 as [E|[_ [? ?]]]; congruence.
  - destruct (inv_pend_tail _ HI j z Hp) as [Hne Ho]. split; [done|]. by apply lookup_app_l_Some.
Qed.

Lemma appended_Inv i k x q γ : work i !! k = Some x -> Inv (q, γ) -> cleared i k x (q, γ) ->
  Inv (wr head_ (Some x) q, appended i x (mhead q) γ).
Proof.
  intros Hx HI [[Hb Hnp] Hn]; cbn [fst snd] in *.
  assert (Hf : x ∉ (ord γ).*2) by (by eapply (work_fresh (q, γ))).
  pose proof (appended_first i x (mhead q) γ) as Hft. split; cbn [fst snd].
  - intros j. simpl. rewrite by_thread_snoc. destruct (decide (i = j)) as [->|Hj].
    + rewrite Hb, <- (take_S_r _ _ x) by done. apply prefix_take.
    + rewrite app_nil_r. apply (inv_work _ HI).
  - simpl. rewrite fmap_app. apply list.NoDup_app. split; [apply (inv_nodup _ HI)|].
    split; [|apply NoDup_singleton]. by intros y Hy ->%list_elem_of_singleton.
  - simpl. rewrite length_app; simpl. pose proof (inv_popped _ HI). simpl in *. lia.
  - pose proof (inv_popped _ HI) as H3. simpl in *. rewrite fmap_app, drop_app_le by (rewrite length_fmap; lia).
    change ([(i, x)].*2) with [x]. by rewrite last_snoc.
  - intros m y Hm Hy. exact (appended_link i x q γ m y HI Hnp Hn Hm Hy).
  - intros j p z Hp. exact (appended_pend_link i x q γ j p z HI Hp).
  - intros j z Hp. exact (appended_pend_tail i x q γ j z HI Hf Hp).
  - pose proof (inv_tail _ HI) as H8. pose proof (inv_popped _ HI) as H3. cbn [fst snd] in *.
    change (mtail (wr head_ (Some x) q)) with (mtail q). cbn [claimed popped appended].
    destruct (claimed γ) as [t|].
    + destruct H8 as [Hin H8]. split.
      * simpl. rewrite fmap_app, take_app_le by (rewrite length_fmap; lia). done.
      * destruct H8 as [?|[E Hs]]; [by left|right]. by rewrite Hft.
    + destruct H8 as [?|[E Hs]]; [by left|right]. by rewrite Hft.
Qed.

Lemma exchange_new i k x q γ : work i !! k = Some x -> i <> O ->
  Inv (q, γ) -> cleared i k x (q, γ) ->
  exists γ', Guar i (q, γ) (wr head_ (Some x) q, γ') /\ Inv (wr head_ (Some x) q, γ') /\
    linking i k (mhead q) x (wr head_ (Some x) q, γ').
Proof.
  intros Hx Hi HI Hc. exists (appended i x (mhead q) γ). split; [|split; [by eapply appended_Inv|split]].
  - destruct i as [|i]; [done|]. split_and!; simpl; try done; auto.
    + intros j Hj. by apply lookup_insert_ne.
    + right. exists x. split; [by eapply list_elem_of_lookup_2|done].
  - destruct Hc as [[Hb _] _]. simpl in *. rewrite by_thread_snoc, decide_True, Hb by done.
    symmetry. by apply take_S_r.
  - apply lookup_insert_eq.
Qed.

(** What the two publishing stores share: the producer is no longer pending. *)
Definition publish (i : nat) (γ : ghost) : ghost :=
  Ghost (ord γ) (popped γ) (delete i (pend γ)) (claimed γ).

Lemma pend_delete i j γ r : pend (publish i γ) !! j = Some r -> j <> i /\ pend γ !! j = Some r.
Proof. simpl. intros [Hne H]%lookup_delete_Some. auto. Qed.

Lemma link_new i k p x q γ : i <> O -> Inv (q, γ) -> linking i k (Some p) x (q, γ) ->
  exists γ', Guar i (q, γ) (wr (Get p) (Some x) q, γ') /\ Inv (wr (Get p) (Some x) q, γ') /\
    ready i (S k) (wr (Get p) (Some x) q, γ').
Proof.
  intros Hi HI [Hb Hp]; cbn [fst snd] in *. exists (publish i γ).
  destruct (inv_pend_link _ HI i p x Hp) as (Hpn & m & Hm & Hpm & Ho); cbn [fst snd] in *.
  assert (Hpin : p ∈ (ord γ).*2) by by eapply item_elem.
  assert (Hxm : item γ (S m) = Some x) by (unfold item; by rewrite list_lookup_fmap, Ho).
  assert (Hl : forall y, y <> p -> nexts (wr (Get p) (Some x) q) !! y = nexts q !! y)
    by (intros y Hy; simpl; by apply lookup_partial_alter_ne).
  pose proof (item_inj (q, γ)) as Hinj; cbn [fst snd] in Hinj.
  split; [|split; [|split; [done|apply lookup_delete_eq]]].
  - destruct i as [|i]; [done|]. split_and!; simpl; try done; auto.
    + intros y Hy _. apply Hl. by intros ->.
    + intros j Hj. by apply lookup_delete_ne.
    + intros y z Hy Hyz. rewrite <- Hyz. apply Hl. congruence.
  - pose proof HI as HI0. destruct HI as [H1 H2 H3 H4 H5 H6 H7 H8]. split; cbn [fst snd] in *; try done.
    + intros m' y Hm' Hy. change (item (publish i γ)) with (item γ) in *.
      destruct (decide (y = p)) as [->|Hne].
      * left. rewrite (Hinj m' m p HI0 Hy Hpm), Hxm. apply lookup_partial_alter_eq.
      * rewrite (Hl y Hne). destruct (H5 m' y Hm' Hy) as [E|(E & j & z & Hj)]; [by left|].
        right. split; [done|]. exists j, z. simpl. rewrite lookup_delete_ne; [done|]. congruence.
    + intros j y z Hj. apply pend_delete in Hj as [Hji Hj].
      destruct (H6 j y z Hj) as (Hn & m' & Hm' & Hy & Ho').
      rewrite Hl; [split; [done|by exists m']|]. intros ->.
      rewrite (Hinj m' m p HI0 Hy Hpm) in Ho'. congruence.
    + intros j z Hj. apply pend_delete in Hj as [_ Hj]. by apply H7 in Hj.
Qed.

Lemma tail_new i k x q γ : i <> O -> Inv (q, γ) -> linking i k None x (q, γ) ->
  exists γ', Guar i (q, γ) (wr tail_ (Some x) q, γ') /\ Inv (wr tail_ (Some x) q, γ') /\
    ready i (S k) (wr tail_ (Some x) q, γ').
Proof.
  intros Hi HI [Hb Hp]; cbn [fst snd] in *. exists (publish i γ).
  destruct (inv_pend_tail _ HI i x Hp) as (Hne & Ho); cbn [fst snd] in *.
  assert (Hf : first γ = Some x) by (unfold first, item; by rewrite list_lookup_fmap, Ho).
  split; [|split; [|split; [done|apply lookup_delete_eq]]].
  - destruct i as [|i]; [done|]. split_and!; simpl; try done; auto.
    + intros j Hj. by apply lookup_delete_ne.
    + right. by exists x.
  - destruct HI as [H1 H2 H3 H4 H5 H6 H7 H8]. split; cbn [fst snd] in *; try done.
    + intros m y Hm Hy. destruct (H5 m y Hm Hy) as [E|(E & j & z & Hj)]; [by left|].
      right. split; [done|]. exists j, z. simpl. rewrite lookup_delete_ne; [done|]. congruence.
    + intros j y z Hj. apply pend_delete in Hj as [_ Hj]. by apply H6 in Hj.
    + intros j z Hj. apply pend_delete in Hj as [Hji Hj].
      destruct (H7 j z Hj) as [_ Ho']. simpl in Ho'. congruence.
    + change (first (publish i γ)) with (first γ). cbn [claimed publish].
      assert (mtail (wr tail_ (Some x) q) = first γ /\ is_Some (first γ)) by (by rewrite Hf).
      destruct (claimed γ); [split; [apply H8|]|]; by right.
Qed.

Lemma Push_ok i k x : i <> O -> work i !! k = Some x ->
  rg Inv Guar i (ready i k) (Push x) (fun _ => ready i (S k)).
Proof.
  intros Hi Hx. unfold Push, Clear.
  apply rg_store with (P' := cleared i k x);
    [apply stable_ready|intros q γ HI Hr; exists γ; by apply Clear_new|].
  apply rg_exchange with (P' := fun prev => linking i k prev x);
    [by apply stable_cleared|intros; by apply exchange_new|].
  intros [p|]; (apply rg_store_last; [apply stable_linking|apply stable_ready|]);
    intros q γ HI Hp; [by eapply link_new|by eapply tail_new].
Qed.

Lemma push_all_ok i k : i <> O ->
  rg Inv Guar i (ready i k) (push_all (drop k (work i))) (fun _ _ => True).
Proof.
  intros Hi. remember (drop k (work i)) as xs eqn:Exs.
  revert k Exs; induction xs as [|x xs IH]; intros k Exs; simpl.
  - apply rg_ret; [apply stable_ready|done].
  - assert (Hx : work i !! k = Some x).
    { rewrite <- (Nat.add_0_r k), <- lookup_drop, <- Exs. done. }
    eapply rg_bind; [by apply Push_ok|]. intros []. apply IH.
    rewrite (drop_S _ _ _ Hx) in Exs. by injection Exs.
Qed.

Lemma Inv_init : Inv (Mpsc None None ∅, Ghost [] 0 ∅ None).
Proof.
  split; simpl; try done; [intros i; apply prefix_nil|constructor|by left].
Qed.
End Concurrent.

(** ** Delivery under every interleaving *)

Definition works (xss : list (list ptr)) (i : nat) : list ptr :=
  match i with O => [] | S j => default [] (xss !! j) end.

Lemma works_elem xss i x : x ∈ works xss i <-> exists j xs, i = S j /\ xss !! j = Some xs /\ x ∈ xs.
Proof.
  destruct i as [|j]; simpl; [set_solver|]. destruct (xss !! j) as [xs|] eqn:E; simpl.
  - split; [intros; by exists j, xs|]. by intros (? & ? & [= <-] & ? & ?); simplify_eq.
  - split; [by intros ?%not_elem_of_nil|]. intros (? & ? & [= <-] & ? & ?); simplify_eq.
Qed.

Lemma concat_nodup (xss : list (list ptr)) : NoDup (concat xss) ->
  (forall i, NoDup (works xss i)) /\
  (forall i j x, i <> j -> x ∈ works xss i -> x ∉ works xss j).
Proof.
  intros H. split.
  - intros [|j]; simpl; [constructor|]. destruct (xss !! j) as [xs|] eqn:E; simpl; [|constructor].
    apply list_elem_of_split_length in E as (l1 & l2 & -> & _).
    rewrite concat_app in H; simpl in H. apply list.NoDup_app in H as (_ & _ & H).
    by apply list.NoDup_app in H as (H & _).
  - intros i j x Hij (i' & xs & -> & Hi & Hx)%works_elem (j' & ys & -> & Hj & Hy)%works_elem.
    assert (Hne : i' <> j') by congruence. clear Hij.
    enough (forall a b (xs ys : list ptr), (a < b)%nat -> xss !! a = Some xs ->
              xss !! b = Some ys -> x ∈ xs -> x ∈ ys -> False) as Hlt.
    { destruct (Nat.lt_ge_cases i' j'); [|assert (j' < i')%nat by lia]; eauto. }
    clear -H. intros a b xs ys Hab Ha Hb Hx Hy.
    apply list_elem_of_split_length in Ha as (l1 & l2 & -> & ->).
    rewrite concat_app in H; simpl in H. apply list.NoDup_app in H as (_ & _ & H).
    apply list.NoDup_app in H as (_ & H & _). apply (H x Hx). apply list_elem_of_In.
    apply in_concat. exists ys. split; [|by apply list_elem_of_In].
    rewrite lookup_app_r in Hb by lia. destruct (b - length l1)%nat eqn:E; [lia|].
    apply list_elem_of_In. by eapply list_elem_of_lookup_2.
Qed.

(** Selecting the items of one producer among those exchanged. *)
Lemma filter_by_thread (work : nat -> list ptr) i ord :
  (forall i j x, i <> j -> x ∈ work i -> x ∉ work j) ->
  (forall j x, (j, x) ∈ ord -> x ∈ work j) ->
  filter (fun x => x ∈ work i) ord.*2 = by_thread i ord.
Proof.
  intros Hd. induction ord as [|[j x] ord IH] using rev_ind; intros Hw; [done|].
  rewrite fmap_app, list.filter_app, by_thread_snoc, IH by set_solver. f_equal.
  assert (Hx : x ∈ work j) by (apply Hw; set_solver).
  change ([(j, x)].*2) with [x]. rewrite list.filter_cons, list.filter_nil.
  destruct (decide (j = i)) as [->|Hne]; [by rewrite decide_True|].
  rewrite decide_False; [done|]. by eapply Hd.
Qed.

Lemma by_thread_take i n ord : by_thread i (take n ord) `prefix_of` by_thread i ord.
Proof.
  exists (by_thread i (drop n ord)). unfold by_thread.
  by rewrite <- fmap_app, <- list.filter_app, take_drop.
Qed.

(** C5: In every interleaving of any number of producers, each pushing its own
    list of distinct items, with one consumer popping, nobody dereferences a
    bad pointer, the consumer receives no item twice and only pushed items,
    and it receives the items of each producer in the order that producer
    pushed them, with no gap. *)
Theorem mpsc_fifo (n : nat) (xss : list (list ptr)) (ts : list (prog mpsc (list ptr))) (s : mpsc)
    (Hxs : NoDup (concat xss))
    (Hr : reachable (pop_n n [] :: (push_all <$> xss), Mpsc None None ∅) (ts, s)) :
  (forall i p, ts !! i = Some p -> is_bad p s = false) /\
  (forall p out, ts !! O = Some p -> result p = Some out ->
     NoDup out /\ (forall x, x ∈ out -> x ∈ concat xss) /\
     (forall j xs, xss !! j = Some xs -> filter (fun x => x ∈ xs) out `prefix_of` xs)).
Proof.
  pose proof (concat_nodup xss Hxs) as [Hnd Hdj]. set (work := works xss).
  destruct (rg_adequacy (Inv work) (Guar work) (pop_n n [] :: (push_all <$> xss))
    (fun i out c => match i with O => idle out c | S _ => True end)
    (Mpsc None None ∅) (Ghost [] 0 ∅ None) ts s) as ([o m pe cl] & HI & Hts).
  - apply Inv_init.
  - intros [|i] p Hp; simpl in Hp.
    + simplify_eq. exists (idle []). split; [done|]. by apply pop_n_ok.
    + apply list_lookup_fmap_Some in Hp as (xs & -> & Hi).
      exists (ready work (S i) 0). split; [done|].
      pose proof (push_all_ok work Hnd Hdj (S i) 0 ltac:(done)) as Hpush.
      unfold work in Hpush at 4. simpl in Hpush. rewrite Hi in Hpush. simpl in Hpush.
      rewrite drop_0 in Hpush. eapply rg_post; [|exact Hpush]. done.
  - exact Hr.
  - split; [intros i p Hp; by apply (Hts i p)|].
    intros p out Hp Hout. destruct (Hts O p Hp) as [_ HQ].
    destruct (HQ out Hout) as [-> _]; simpl. clear HQ Hts.
    destruct HI as [H1 H2 _ _ _ _ _ _]; simpl in *.
    assert (Hw : forall j x, (j, x) ∈ o -> x ∈ work j).
    { intros j x Hx. eapply elem_of_prefix; [by apply by_thread_elem|apply H1]. }
    rewrite <- fmap_take in *. split_and!.
    + rewrite fmap_take. eapply sublist_NoDup; [exact H2|apply sublist_take].
    + intros x ([j y] & -> & Hx)%list_elem_of_fmap. simpl.
      assert (Hxo : (j, y) ∈ o) by (apply elem_of_take in Hx as (? & ? & _); by eapply list_elem_of_lookup_2).
      apply Hw, works_elem in Hxo as (i & xs & _ & Hi & Hy).
      apply list_elem_of_In, in_concat. exists xs. split; apply list_elem_of_In; [|done].
      by eapply list_elem_of_lookup_2.
    + intros j xs Hj.
      assert (E : work (S j) = xs) by (unfold work; simpl; by rewrite Hj).
      subst xs. rewrite (filter_by_thread work (S j)) by
        (done || (intros ? ? Hx; apply Hw; apply elem_of_take in Hx as (? & ? & _); by eapply list_elem_of_lookup_2)).
      etrans; [apply by_thread_take|apply H1].
Qed.

Lemma mpsc_fifo_witness :
  exists ts s, NoDup (concat [[1; 2]; [3]]%nat) /\
    reachable (pop_n 1 [] :: (push_all <$> [[1; 2]; [3]]%nat), Mpsc None None ∅) (ts, s) /\
    ts !! O = Some (Ret [1%nat]) /\
    filter (fun x => x ∈ [1; 2]%nat) [1%nat] `prefix_of` [1; 2]%nat.
Proof.
  assert (Hn : NoDup (concat [[1; 2]; [3]]%nat)) by (apply (bool_decide_unpack _); vm_compute; exact I).
  destruct (sched_results_reachable (fun _ => tt) (turn 1 3 ++ turn 2 3 ++ turn 1 3 ++ turn 0 5)
    (pop_n 1 [] :: (push_all <$> [[1; 2]; [3]]%nat), Mpsc None None ∅)
    [Some [1%nat]; Some []; Some []] tt) as (ts & s & Hr & Hts & _); [vm_compute; reflexivity|].
  exists ts, s. split; [exact Hn|]. split; [exact Hr|].
  pose proof (result_lookup ts _ O [1%nat] Hts eq_refl) as H0. split; [exact H0|].
  destruct (mpsc_fifo 1 [[1; 2]; [3]]%nat _ _ Hn Hr) as [_ H].
  destruct (H _ [1%nat] H0 eq_refl) as (_ & _ & Hp). exact (Hp 0%nat _ eq_refl).
Defined.

(** ** Alone, the queue is a FIFO list *)

Lemma Empty_repr q l : repr q l -> wp Empty (fun r q' => r = bool_decide (l = []) /\ q' = q) q.
Proof.
  intros [_ Ht _ _]. unfold Empty. wp_go. split; [|done]. rewrite Ht. by destruct l.
Qed.

Inductive op := OpPush (x : ptr) | OpPop | OpPopMultiple (n : nat).

Definition do_op (o : op) : prog mpsc (list ptr) :=
  match o with
  | OpPush x => Push x ;;; Ret []
  | OpPop => r <- Pop ;; Ret (option_list r)
  | OpPopMultiple n => PopMultiple (Z.of_nat n)
  end.

Fixpoint do_ops (os : list op) : prog mpsc (list (list ptr)) :=
  match os with
  | [] => Ret []
  | o :: os => r <- do_op o ;; rs <- do_ops os ;; Ret (r :: rs)
  end.

Definition fifo_step (l : list ptr) (o : op) : list ptr * list ptr :=
  match o with
  | OpPush x => (l ++ [x], [])
  | OpPop => (drop 1 l, take 1 l)
  | OpPopMultiple n => (drop n l, take n l)
  end.

Fixpoint fifo_run (l : list ptr) (os : list op) : list ptr * list (list ptr) :=
  match os with
  | [] => (l, [])
  | o :: os => let '(l, r) := fifo_step l o in
               let '(l, rs) := fifo_run l os in (l, r :: rs)
  end.

(** An item is pushed again only once it has left the queue. *)
Fixpoint fifo_fits (l : list ptr) (os : list op) : bool :=
  match os with
  | [] => true
  | o :: os =>
      match o with OpPush x => bool_decide (x ∉ l) | _ => true end &&
      fifo_fits (fifo_step l o).1 os
  end.

Lemma PopMultiple_repr n q l : repr q l ->
  wp (PopMultiple (Z.of_nat n)) (fun r q' => r = take n l /\ repr q' (drop n l)) q.
Proof.
  intros H. unfold PopMultiple.
  apply (wp_loop_inv (fun out q' => (length out <= n)%nat /\
           exists m, out = take m l /\ repr q' (drop m l)) (fun out _ => n - length out)%nat).
  - split; [simpl; lia|]. by exists O.
  - intros out q' (Hlen & m & -> & H'). destruct (Z.ltb_spec (Z.of_nat (length (take m l))) (Z.of_nat n)) as [Hlt|Hge].
    + apply wp_bind. eapply wp_mono; [by apply mpsc_pop_repr|]. intros r q2 (-> & H2 & _).
      destruct (drop m l) as [|x l'] eqn:E; simpl in *; apply wp_ret.
      * assert (length l <= m)%nat by (pose proof (length_drop l m) as D; rewrite E in D; simpl in D; lia).
        rewrite length_take in *. rewrite take_ge, (take_ge l n), (drop_ge l n) by lia. done.
      * assert (Hx : l !! m = Some x) by (rewrite <- (Nat.add_0_r m), <- lookup_drop, E; done).
        pose proof (lookup_lt_Some _ _ _ Hx). rewrite length_app, length_take in *; simpl.
        split; [|lia]. split; [lia|]. exists (S m). split; [by rewrite (take_S_r _ _ _ Hx)|].
        rewrite (drop_S _ _ _ Hx) in E. by simplify_eq.
    + apply wp_ret. rewrite length_take in *. destruct (decide (m <= length l)%nat) as [Hm|Hm].
      * assert (m = n) as -> by lia. done.
      * assert (n = length l) by lia. rewrite take_ge, (take_ge l n) by lia. split; [done|].
        rewrite drop_ge in * by lia. done.
Qed.

Lemma mpsc_op_refines q l o : repr q l -> fifo_fits l [o] = true ->
  wp (do_op o) (fun r q' => r = (fifo_step l o).2 /\ repr q' (fifo_step l o).1) q.
Proof.
  intros H Hfit. destruct o as [x| |n]; simpl in *.
  - rewrite andb_true_r in Hfit. apply bool_decide_eq_true_1 in Hfit.
    apply wp_bind. eapply wp_mono; [by apply mpsc_push_repr|]. intros u q' [H' _]. by wp_go.
  - apply wp_bind. eapply wp_mono; [by apply mpsc_pop_repr|]. intros r q' (-> & H' & _). wp_go.
    by destruct l.
  - by apply PopMultiple_repr.
Qed.

(** C30: Run by one thread, any sequence of Push, Pop and PopMultiple calls on
    an MpscQueue (an item being pushed again only after it was popped)
    terminates and behaves as a FIFO list. *)
Theorem mpsc_refines_fifo os q l :
  repr q l -> fifo_fits l os = true ->
  wp (do_ops os) (fun rs q' => rs = (fifo_run l os).2 /\ repr q' (fifo_run l os).1) q.
Proof.
  revert q l; induction os as [|o os IH]; intros q l H Hfit; simpl; [by wp_go|].
  cbn [fifo_fits] in Hfit. apply andb_true_iff in Hfit as [Hfit1 Hfit2].
  apply wp_bind. eapply wp_mono; [apply mpsc_op_refines; [done|simpl; by rewrite Hfit1]|].
  intros r q' [-> H']. destruct (fifo_step l o) as [l' r'] eqn:E; simpl in *.
  apply wp_bind. eapply wp_mono; [by apply IH|]. intros rs q'' [-> H''].
  destruct (fifo_run l' os) as [l'' rs']; simpl in *. by wp_go.
Qed.

Lemma mpsc_refines_fifo_witness :
  wp (do_ops [OpPush 1; OpPush 2; OpPush 3; OpPop; OpPush 1; OpPopMultiple 2; OpPop; OpPop]%nat)
     (fun rs q' => rs = [[]; []; []; [1]; []; [2; 3]; [1]; []]%nat /\ repr q' [])
     (Mpsc None None ∅).
Proof.
  exact (mpsc_refines_fifo
           [OpPush 1; OpPush 2; OpPush 3; OpPop; OpPush 1; OpPopMultiple 2; OpPop; OpPop]%nat
           (Mpsc None None ∅) [] mpsc_repr_empty eq_refl).
Defined.

(** ** Where the protocol fails *)

(** The pool in which a producer pushes 2 between the consumer's successful
    CAS of [head_] and its store of [tail_]. *)
Definition consumer_then_producer : conf mpsc (list ptr) :=
  ([pop_n 1 []; push_all [2%nat]], Mpsc (Some 1%nat) (Some 1%nat) ∅).

(** [stranded q]: the queue holds an item the consumer never finds. *)
Definition stranded (q : mpsc) : Prop := is_Some (mhead q) /\ mtail q = None.

Lemma stranded_push q x : stranded q -> wp (Push x) (fun _ => stranded) q.
Proof.
  intros [[p Hp] Ht]. unfold Push, Clear. wp_go. rewrite Hp. wp_go. split; [by eexists|done].
Qed.

Lemma stranded_push_all q xs : stranded q -> wp (push_all xs) (fun _ => stranded) q.
Proof.
  revert q; induction xs as [|x xs IH]; intros q H; simpl; [by wp_go|].
  apply wp_bind. eapply wp_mono; [by apply stranded_push|]. intros u q' H'. by apply IH.
Qed.

(** There is an interleaving in which a producer pushes between the consumer
    clearing head_ and clearing tail_; afterwards the pushed item is in the
    queue but every later Pop returns null, whatever is pushed. *)
Theorem Pop_may_strand_the_queue : exists q,
  reachable consumer_then_producer ([Ret [1%nat]; Ret []], q) /\
  forall xs, wp (push_all xs ;;; Pop) (fun r _ => r = None) q.
Proof.
  eexists. split.
  - eapply (sched_reachable (turn 0 4 ++ turn 1 3 ++ turn 0 2)). reflexivity.
  - intros xs. apply wp_bind. eapply wp_mono; [apply stranded_push_all; split; [by eexists|done]|].
    intros u q [_ Ht]. unfold Pop. apply wp_loop_once. wp_go. rewrite Ht. by wp_go.
Qed.

End MpscQueue.
