(* ===== verification/SharedMpsc.v ===== *)
(** * The sharded task queue

    Model of [SharedMPSCQueue] ([include/bthread/queue/shared_mpsc_queue.hpp],
    [src/bthread/queue/shared_mpsc_queue.cpp]): the shards are [MpscQueue]s
    whose nodes share one memory of links. *)

From Stdlib Require Import ZArith Lia FunctionalExtensionality.
From stdpp Require Import base numbers list gmap relations option.
From S2P Require Import Prelude Mpsc.

Open Scope Z_scope.

Module SharedMPSCQueue.

Definition MAX_SHARDS : Z := 256.

(** [shards_] gives [head_] and [tail_] of each shard; [links] is the [next]
    field of all tasks. *)
Record shared := Shared {
  rr : Z;
  total : Z;
  workers : Z;
  shards : nat -> option ptr * option ptr;
  links : gmap ptr ptr;
}.

Definition round_robin_ : field shared Z :=
  Field rr (fun v s => Shared v (total s) (workers s) (shards s) (links s)).
Definition total_count_ : field shared Z :=
  Field total (fun v s => Shared (rr s) v (workers s) (shards s) (links s)).
Definition worker_count_ : field shared Z :=
  Field workers (fun v s => Shared (rr s) (total s) v (shards s) (links s)).
(** [shards_[i]]. *)
Definition shards_ (i : nat) : field shared MpscQueue.mpsc :=
  Field (fun s => MpscQueue.Mpsc (shards s i).1 (shards s i).2 (links s))
        (fun q s => Shared (rr s) (total s) (workers s)
                      (fun j => if decide (j = i) then (MpscQueue.mhead q, MpscQueue.mtail q)
                                else shards s j)
                      (MpscQueue.nexts q)).

Definition SharedMPSCQueue : shared := Shared 0 0 0 (fun _ => (None, None)) ∅.

Definition Init (worker_count : Z) : prog shared unit := store worker_count_ worker_count.

Definition Push (task : ptr) : prog shared unit :=
  old <- fetch round_robin_ (fun x => i32 (x + 1)) ;;
  wc <- load worker_count_ ;;
  if decide (wc = 0) then undefined
  else
    let shard := Z.rem old wc in
    if (0 <=? shard) && (shard <? MAX_SHARDS) then
      zoom (shards_ (Z.to_nat shard)) (MpscQueue.Push task) ;;;
      fetch total_count_ (fun x => i32 (x + 1)) ;;;
      Ret tt
    else undefined.

(** Popping [shards_[i]], an array of MAX_SHARDS, and counting the task out. *)
Definition Pop_shard (i : Z) : prog shared (option ptr) :=
  if (0 <=? i) && (i <? MAX_SHARDS) then
    task <- zoom (shards_ (Z.to_nat i)) MpscQueue.Pop ;;
    match task with
    | Some _ => fetch total_count_ (fun x => i32 (x - 1)) ;;; Ret task
    | None => Ret None
    end
  else undefined.

Definition Pop_steal (worker_id : Z) : prog shared (option ptr) :=
  loop 0 (fun i =>
    wc <- load worker_count_ ;;
    if i <? wc then
      if decide (i = worker_id) then Ret (inl (i + 1))
      else
        task <- Pop_shard i ;;
        match task with
        | Some _ => Ret (inr task)
        | None => Ret (inl (i + 1))
        end
    else Ret (inr None)).

Definition Pop (worker_id : Z) : prog shared (option ptr) :=
  wc <- load worker_count_ ;;
  if (0 <=? worker_id) && (worker_id <? wc) then
    task <- Pop_shard worker_id ;;
    match task with
    | Some _ => Ret task
    | None => Pop_steal worker_id
    end
  else Pop_steal worker_id.

Definition Empty : prog shared bool :=
  n <- load total_count_ ;; Ret (n =? 0).

(** ** The shards as lists *)

#[local] Instance shards_ok i : FieldOk (shards_ i).
Proof.
  split.
  - intros s [h t n]. simpl. by rewrite decide_True.
  - intros s x y. simpl. f_equal. apply functional_extensionality. intros j. by case_decide.
  - intros [r t w sh l]. simpl. f_equal. apply functional_extensionality. intros j.
    case_decide as E; [|done]. subst. by destruct (sh i).
Qed.

Definition count (ls : list (list ptr)) : nat := length (concat ls).

Record repr (s : shared) (ls : list (list ptr)) : Prop := {
  repr_workers : workers s = Z.of_nat (length ls);
  repr_max : 0 < workers s <= MAX_SHARDS;
  repr_shards : forall i l, ls !! i = Some l -> MpscQueue.repr (rd (shards_ i) s) l;
  repr_disjoint : forall i j l l' x, i <> j -> ls !! i = Some l -> ls !! j = Some l' ->
    x ∈ l -> x ∉ l';
  repr_total : total s = Z.of_nat (count ls);
}.

Lemma count_insert i ls l l' : ls !! i = Some l ->
  (count (<[i := l']> ls) + length l = count ls + length l')%nat.
Proof.
  unfold count. revert i; induction ls as [|l0 ls IH]; intros [|i] H; simpl in *; simplify_eq;
    rewrite !length_app; [lia|]. specialize (IH i H). lia.
Qed.

Lemma count_lookup i ls l : ls !! i = Some l -> (length l <= count ls)%nat.
Proof. intros H. pose proof (count_insert i ls l [] H). simpl in *. lia. Qed.

Lemma count_0 ls : count ls = O <-> forall i l, ls !! i = Some l -> l = [].
Proof.
  split.
  - intros H i l Hl. apply count_lookup in Hl. destruct l; [done|simpl in *; lia].
  - unfold count. induction ls as [|l ls IH]; intros H; [done|]. simpl.
    rewrite (H O l eq_refl). apply IH. intros i. apply (H (S i)).
Qed.

(** Changing the list of one shard, links of other nodes being kept. *)
Lemma repr_update s ls i l l' q' n :
  repr s ls -> ls !! i = Some l -> MpscQueue.repr q' l' ->
  (forall y, y ∉ l -> y ∉ l' -> MpscQueue.nexts q' !! y = links s !! y) ->
  (forall j lj x, j <> i -> ls !! j = Some lj -> x ∈ l' -> x ∉ lj) ->
  n = Z.of_nat (count (<[i := l']> ls)) ->
  repr (wr total_count_ n (wr (shards_ i) q' s)) (<[i := l']> ls).
Proof.
  intros [H1 H2 H3 H4 H5] Hi Hq Hf Hd Hn.
  pose proof (lookup_lt_Some _ _ _ Hi) as Hlt. split; simpl; try done.
  - by rewrite length_insert.
  - intros j lj Hj. destruct (decide (j = i)) as [->|Hne].
    + rewrite list_lookup_insert_eq in Hj by done. simplify_eq. by destruct q'.
    + rewrite list_lookup_insert_ne in Hj by done. specialize (H3 j lj Hj).
      destruct H3 as [Hh Ht Hnd Hl]; split; simpl in *; try done.
      eapply MpscQueue.linked_ext; [|exact Hl]. intros y Hy. simpl. apply Hf.
      * intros Hy'. by eapply (H4 i j).
      * intros Hy'. by eapply (Hd j).
  - intros a b la lb x Hab Ha Hb Hx.
    destruct (decide (a = i)) as [->|Hai], (decide (b = i)) as [->|Hbi]; [done|..];
      repeat (rewrite list_lookup_insert_eq in * by done);
      repeat (rewrite list_lookup_insert_ne in * by done); simplify_eq.
    + by eapply Hd.
    + intros Hx'. by eapply (Hd a).
    + by eapply (H4 a b).
Qed.

(** [pop_from ls i]: the head of shard [i] and the shards left. *)
Definition pop_from (ls : list (list ptr)) (i : nat) : option (ptr * list (list ptr)) :=
  match ls !! i with
  | Some (x :: l) => Some (x, <[i := l]> ls)
  | _ => None
  end.

Definition first_nonempty (ls : list (list ptr)) : option nat :=
  fst <$> list_find (fun l => l <> []) ls.

(** [x] appended to shard [i]. *)
Definition push_to (ls : list (list ptr)) (i : nat) (x : ptr) : list (list ptr) :=
  match ls !! i with Some l => <[i := l ++ [x]]> ls | None => ls end.

(** The own shard if it has a task, else the first shard that has one. *)
Definition shared_pop (w : Z) (ls : list (list ptr)) : option (ptr * list (list ptr)) :=
  match (if 0 <=? w then pop_from ls (Z.to_nat w) else None) with
  | Some r => Some r
  | None => first_nonempty ls ≫= pop_from ls
  end.

Lemma Pop_shard_repr s ls i : repr s ls -> 0 <= i < workers s -> total s <= INT_MAX ->
  wp (Pop_shard i) (fun r s' =>
    rr s' = rr s /\
    match pop_from ls (Z.to_nat i) with
    | Some (x, ls') => r = Some x /\ repr s' ls'
    | None => r = None /\ repr s' ls
    end) s.
Proof.
  intros H Hi Hmax. pose proof H as [H1 H2 H3 H4 H5].
  destruct (lookup_lt_is_Some_2 ls (Z.to_nat i)) as [l Hl]; [lia|].
  unfold Pop_shard, pop_from. rewrite Hl, (proj2 (Z.leb_le _ _)), (proj2 (Z.ltb_lt _ _)) by lia. simpl andb. cbv iota.
  apply wp_zoom_bind; [apply _|].
  eapply wp_mono; [by apply MpscQueue.mpsc_pop_repr, H3|].
  intros r q' (-> & Hq & Hf). pose proof (count_insert (Z.to_nat i) ls l (tail l) Hl) as Hc.
  assert (Hup : forall n, n = Z.of_nat (count (<[Z.to_nat i := tail l]> ls)) ->
    repr (wr total_count_ n (wr (shards_ (Z.to_nat i)) q' s)) (<[Z.to_nat i := tail l]> ls)).
  { intros n Hn. eapply repr_update; try done; [intros y Hy _; by apply Hf|].
    intros j lj x Hj Hlj Hx. eapply (H4 (Z.to_nat i) j); [done..|]. by destruct l; [|right]. }
  destruct l as [|x l]; simpl in *.
  - wp_go. split; [done|]. split; [done|].
    rewrite list_insert_id in Hup by done. specialize (Hup (total s)).
    destruct s. by apply Hup.
  - wp_go. split; [done|]. split; [done|]. apply Hup.
    pose proof (count_lookup _ _ _ Hl) as Hge; simpl in Hge.
    rewrite i32_small by (unfold INT_MIN, INT_MAX in *; lia). lia.
Qed.

Lemma Pop_steal_repr s ls w : repr s ls -> total s <= INT_MAX ->
  (0 <= w < workers s -> pop_from ls (Z.to_nat w) = None) ->
  wp (Pop_steal w) (fun r s' =>
    rr s' = rr s /\
    match first_nonempty ls ≫= pop_from ls with
    | Some (x, ls') => r = Some x /\ repr s' ls'
    | None => r = None /\ repr s' ls
    end) s.
Proof.
  intros H Hmax Hw. unfold Pop_steal.
  apply (wp_loop_inv (fun i s' => 0 <= i <= workers s /\ rr s' = rr s /\ workers s' = workers s /\
           total s' = total s /\ repr s' ls /\
           forall k, Z.of_nat k < i -> pop_from ls k = None)
         (fun i _ => Z.to_nat (workers s - i))).
  - pose proof (repr_max _ _ H). split_and!; [lia|lia|done..|intros k; lia].
  - intros i s' (Hi & Hrr & Hwk & Htot & H' & Hk). wp_go. rewrite Hwk.
    assert (Hnext : pop_from ls (Z.to_nat i) = None ->
      forall k, Z.of_nat k < i + 1 -> pop_from ls k = None).
    { intros E k Hlt. destruct (decide (Z.of_nat k = i)) as [<-|]; [|apply Hk; lia].
      by rewrite Nat2Z.id in E. }
    destruct (Z.ltb_spec i (workers s)) as [Hlt|Hge].
    + case_decide as Hiw.
      * wp_go. subst. split; [|lia]. split_and!; try done; [lia|lia|]. apply Hnext, Hw. lia.
      * apply wp_bind. eapply wp_mono; [apply (Pop_shard_repr _ _ _ H'); lia|].
        intros r s2 [Hr2 Hpop]. destruct (pop_from ls (Z.to_nat i)) as [[x ls']|] eqn:E.
        -- destruct Hpop as [-> H2]. wp_go. split; [congruence|].
           assert (first_nonempty ls = Some (Z.to_nat i)) as ->.
           { unfold first_nonempty. unfold pop_from in E.
             destruct (ls !! Z.to_nat i) as [[|y l]|] eqn:El; [done| |done].
             assert (list_find (fun l => l <> []) ls = Some (Z.to_nat i, y :: l)) as ->; [|done].
             apply list_find_Some. split_and!; [done|done|]. intros j lj Hj Hlt'.
             specialize (Hk j ltac:(lia)). unfold pop_from in Hk. rewrite Hj in Hk.
             destruct lj; [|done]. by intros ?. }
           simpl. rewrite E. done.
        -- destruct Hpop as [-> H2]. wp_go. split; [|lia].
           pose proof (repr_workers _ _ H2). pose proof (repr_workers _ _ H').
           pose proof (repr_total _ _ H2). pose proof (repr_total _ _ H').
           split_and!; try done; try lia; try congruence. by apply Hnext.
    + wp_go. split; [done|].
      assert (first_nonempty ls = None) as ->; [|done].
      unfold first_nonempty. destruct (list_find _ ls) as [[j l]|] eqn:E; [|done].
      apply list_find_Some in E as (Hj & Hne & _).
      pose proof (lookup_lt_Some _ _ _ Hj). pose proof (repr_workers _ _ H).
      specialize (Hk j ltac:(lia)). unfold pop_from in Hk. rewrite Hj in Hk. by destruct l.
Qed.

Lemma shared_pop_repr s ls w : repr s ls -> total s <= INT_MAX ->
  wp (Pop w) (fun r s' =>
    rr s' = rr s /\
    match shared_pop w ls with
    | Some (x, ls') => r = Some x /\ repr s' ls'
    | None => r = None /\ repr s' ls
    end) s.
Proof.
  intros H Hmax. unfold Pop, shared_pop. wp_go.
  destruct (Z.leb_spec 0 w) as [Hw|Hw]; simpl.
  - destruct (Z.ltb_spec w (workers s)) as [Hlt|Hge].
    + apply wp_bind. eapply wp_mono; [by apply (Pop_shard_repr _ _ _ H)|].
      intros r s1 [Hr Hpop]. destruct (pop_from ls (Z.to_nat w)) as [[x ls']|] eqn:E.
      * destruct Hpop as [-> H1]. by wp_go.
      * destruct Hpop as [-> H1]. rewrite <- Hr. apply Pop_steal_repr; [done| |done].
        by rewrite (repr_total _ _ H1), <- (repr_total _ _ H).
    + assert (pop_from ls (Z.to_nat w) = None) as ->.
      { unfold pop_from. rewrite lookup_ge_None_2; [done|].
        pose proof (repr_workers _ _ H). lia. }
      apply Pop_steal_repr; [done..|lia].
  - apply Pop_steal_repr; [done..|lia].
Qed.

Lemma shared_push_repr s ls x : repr s ls -> 0 <= rr s < INT_MAX -> total s < INT_MAX ->
  (forall l, l ∈ ls -> x ∉ l) ->
  let i := Z.to_nat (Z.rem (rr s) (workers s)) in
  wp (Push x) (fun _ s' => rr s' = rr s + 1 /\ total s' = total s + 1 /\
                           repr s' (push_to ls i x)) s.
Proof.
  intros H Hrr Hmax Hx i. pose proof H as [H1 H2 H3 H4 H5]. unfold Push. wp_go.
  rewrite decide_False by lia.
  pose proof (Z.rem_bound_pos (rr s) (workers s) ltac:(lia) ltac:(lia)) as Hrem.
  rewrite (proj2 (Z.leb_le 0 _)), (proj2 (Z.ltb_lt _ _)) by (unfold MAX_SHARDS in *; lia).
  simpl. fold i. destruct (lookup_lt_is_Some_2 ls i) as [l Hl]; [unfold i; lia|].
  apply wp_zoom_bind; [apply _|]. eapply wp_mono.
  { apply MpscQueue.mpsc_push_repr; [by apply H3|]. apply Hx. by eapply list_elem_of_lookup_2. }
  intros u q' [Hq Hf]. wp_go. pose proof (count_insert i ls l (l ++ [x]) Hl) as Hc.
  rewrite length_app in Hc; simpl in Hc.
  rewrite !i32_small by (unfold INT_MIN, INT_MAX in *; lia).
  split; [done|]. split; [done|].
  unfold push_to. rewrite Hl.
  refine (repr_update (wr round_robin_ (rr s + 1) s) _ i l (l ++ [x]) q' _ _ Hl Hq _ _ _).
  - by split.
  - intros y _ Hy. by apply Hf.
  - intros j lj y Hj Hlj [Hy| ->%list_elem_of_singleton]%elem_of_app.
    + by eapply (H4 i j).
    + apply Hx. by eapply list_elem_of_lookup_2.
  - simpl. lia.
Qed.

(** ** The queue as a whole *)

Inductive op := OpPush (x : ptr) | OpPop (worker_id : Z) | OpEmpty.

(** The task returned, and [Empty]'s answer as the presence of a value. *)
Definition do_op (o : op) : prog shared (option ptr) :=
  match o with
  | OpPush x => Push x ;;; Ret None
  | OpPop w => Pop w
  | OpEmpty => b <- Empty ;; Ret (if b : bool then None else Some O)
  end.

Fixpoint do_ops (os : list op) : prog shared (list (option ptr)) :=
  match os with
  | [] => Ret []
  | o :: os => r <- do_op o ;; rs <- do_ops os ;; Ret (r :: rs)
  end.

(** The specification: the shards' lists and the number of pushes so far. *)
Definition spec := (list (list ptr) * Z)%type.

Definition spec_step (σ : spec) (o : op) : spec * option ptr :=
  let '(ls, n) := σ in
  match o with
  | OpPush x => ((push_to ls (Z.to_nat (n mod Z.of_nat (length ls))) x, n + 1), None)
  | OpPop w => match shared_pop w ls with
               | Some (x, ls') => ((ls', n), Some x)
               | None => ((ls, n), None)
               end
  | OpEmpty => (σ, if decide (Forall (fun l => l = []) ls) then None else Some O)
  end.

Fixpoint spec_run (σ : spec) (os : list op) : spec * list (option ptr) :=
  match os with
  | [] => (σ, [])
  | o :: os => let '(σ, r) := spec_step σ o in
               let '(σ, rs) := spec_run σ os in (σ, r :: rs)
  end.

(** No task is pushed while queued, and the counters stay in range. *)
Fixpoint spec_fits (σ : spec) (os : list op) : bool :=
  match os with
  | [] => true
  | o :: os =>
      (0 <=? σ.2) && (σ.2 <? INT_MAX) && (Z.of_nat (count σ.1) <? INT_MAX) &&
      match o with OpPush x => bool_decide (Forall (fun l => x ∉ l) σ.1) | _ => true end &&
      spec_fits (spec_step σ o).1 os
  end.

Lemma spec_fits_app σ os os' : spec_fits σ (os ++ os') = spec_fits σ os && spec_fits (spec_run σ os).1 os'.
Proof.
  revert σ; induction os as [|o os IH]; intros σ; [done|]. simpl. rewrite IH.
  destruct (spec_step σ o) as [σ1 r]. simpl. destruct (spec_run σ1 os) as [σ2 rs]. simpl.
  by rewrite andb_assoc.
Qed.

Lemma spec_run_app σ os os' : (spec_run σ (os ++ os')).1 = (spec_run (spec_run σ os).1 os').1.
Proof.
  revert σ; induction os as [|o os IH]; intros σ; [done|]. simpl.
  destruct (spec_step σ o) as [σ1 r]. specialize (IH σ1).
  destruct (spec_run σ1 (os ++ os')) as [σ3 rs3]. by destruct (spec_run σ1 os) as [σ2 rs].
Qed.

Definition refines (s : shared) (σ : spec) : Prop := repr s σ.1 /\ rr s = σ.2.

Lemma shared_op_refines s σ o : refines s σ -> spec_fits σ [o] = true ->
  wp (do_op o) (fun r s' => r = (spec_step σ o).2 /\ refines s' (spec_step σ o).1) s.
Proof.
  destruct σ as [ls n]. intros [H Hn] Hfit; simpl in *.
  rewrite andb_true_r in Hfit. rewrite !andb_true_iff, !Z.ltb_lt, Z.leb_le in Hfit.
  destruct Hfit as [[[Hn1 Hn2] Hc] Hx]. pose proof (repr_total _ _ H) as Ht.
  destruct o as [x|w|]; simpl.
  - apply bool_decide_eq_true_1 in Hx. rewrite list.Forall_forall in Hx.
    pose proof (repr_max _ _ H).
    rewrite <- (repr_workers _ _ H), <- Hn, <- Z.rem_mod_nonneg by lia.
    apply wp_bind. eapply wp_mono; [apply (shared_push_repr _ _ x H); [lia|lia|done]|].
    intros u s' (Hr & _ & H'). wp_go. done.
  - eapply wp_mono; [apply (shared_pop_repr _ _ w H); lia|].
    intros r s' [Hr Hp]. destruct (shared_pop w ls) as [[x ls']|]; simpl;
      destruct Hp as [-> Hp]; unfold refines; simpl; by rewrite Hr.
  - unfold Empty. wp_go. rewrite Ht. split; [|done].
    assert (Hiff : count ls = O <-> Forall (fun l => l = []) ls).
    { rewrite count_0, list.Forall_forall. split; intros E.
      - intros l [i Hi]%list_elem_of_lookup_1. by eapply E.
      - intros i l Hi. apply E. by eapply list_elem_of_lookup_2. }
    destruct (Z.eqb_spec (Z.of_nat (count ls)) 0); case_decide as Hd; try done.
    + exfalso. apply Hd, Hiff. lia.
    + apply Hiff in Hd. lia.
Qed.

(** C11: Run by one thread, any sequence of Push, Pop(worker_id) and Empty
    calls on the sharded queue with fewer than INT_MAX pushes in all, no task
    being pushed while it is queued, terminates and returns what the
    list-of-shards specification returns: round-robin placement, own shard
    first, then the first non-empty shard; total_count_ equals the number of
    queued tasks. *)
Theorem shared_queue_refines os s σ :
  refines s σ -> spec_fits σ os = true ->
  wp (do_ops os) (fun rs s' => rs = (spec_run σ os).2 /\ refines s' (spec_run σ os).1) s.
Proof.
  revert s σ; induction os as [|o os IH]; intros s σ H Hfit; simpl; [by wp_go|].
  cbn [spec_fits] in Hfit. apply andb_true_iff in Hfit as [Hfit1 Hfit2].
  apply wp_bind. eapply wp_mono; [apply shared_op_refines; [done|simpl; by rewrite Hfit1]|].
  intros r s' [-> H']. destruct (spec_step σ o) as [σ' r'] eqn:E; simpl in *.
  apply wp_bind. eapply wp_mono; [by apply IH|]. intros rs s'' [-> H''].
  destruct (spec_run σ' os) as [σ'' rs']; simpl in *. by wp_go.
Qed.

(** A queue initialised for [n] workers. *)
Lemma Init_repr n : 0 < n <= MAX_SHARDS ->
  wp (Init n) (fun _ s => repr s (replicate (Z.to_nat n) []) /\ rr s = 0) SharedMPSCQueue.
Proof.
  intros Hn. unfold Init. wp_go. split; [split; simpl|done].
  - rewrite length_replicate. lia.
  - done.
  - intros i l [-> _]%lookup_replicate. apply MpscQueue.repr_nil.
  - intros i j l l' x _ [-> _]%lookup_replicate. set_solver.
  - enough (count (replicate (Z.to_nat n) []) = O) as -> by done.
    apply count_0. by intros i l [-> _]%lookup_replicate.
Qed.

Definition two_shards : shared := Shared 0 0 2 (fun _ => (None, None)) ∅.

Lemma two_shards_repr : refines two_shards ([[]; []], 0).
Proof.
  destruct (Init_repr 2 ltac:(done)) as (u & s & [n Hex]%exec_run & H & Hr).
  destruct n as [|[|n]]; [done..|]. injection Hex as <- <-. by split.
Qed.

Lemma shared_queue_refines_witness :
  wp (do_ops [OpPush 1; OpPush 2; OpPush 3; OpPop 1; OpPop 1; OpEmpty; OpPop (-1); OpEmpty]%nat)
     (fun rs s' => rs = [None; None; None; Some 2; Some 1; Some 0; Some 3; None]%nat /\
                   refines s' ([[]; []], 3)) two_shards.
Proof.
  exact (shared_queue_refines [OpPush 1; OpPush 2; OpPush 3; OpPop 1; OpPop 1; OpEmpty; OpPop (-1); OpEmpty]%nat
           two_shards ([[]; []], 0) two_shards_repr eq_refl).
Defined.

(** The specification loses and duplicates nothing: a pop removes the task it
    returns, and finds one whenever there is one. *)
Lemma pop_from_perm ls i : match pop_from ls i with
                           | Some (x, ls') => concat ls ≡ₚ x :: concat ls'
                           | None => True
                           end.
Proof.
  unfold pop_from. revert i; induction ls as [|l ls IH]; intros [|i]; simpl; try done.
  - by destruct l.
  - specialize (IH i). destruct (ls !! i) as [[|x l']|]; [done| |done]. simpl in *.
    rewrite IH. by rewrite Permutation_middle.
Qed.

Lemma first_nonempty_perm ls : match first_nonempty ls ≫= pop_from ls with
                               | Some (x, ls') => concat ls ≡ₚ x :: concat ls'
                               | None => concat ls = []
                               end.
Proof.
  unfold first_nonempty. destruct (list_find _ ls) as [[j l]|] eqn:E; simpl.
  - pose proof (pop_from_perm ls j) as Hp. destruct (pop_from ls j) as [[x ls']|] eqn:Ej; [done|].
    apply list_find_Some in E as (Hj & Hne & _). unfold pop_from in Ej.
    rewrite Hj in Ej. by destruct l.
  - apply list_find_None in E. apply nil_length_inv, count_0.
    intros i l Hi. eapply Forall_lookup_1 in E; [|exact Hi]. simpl in E. destruct l; [done|by destruct E].
Qed.

Lemma shared_pop_none w ls : shared_pop w ls = None -> forall l, l ∈ ls -> l = [].
Proof.
  intros H. pose proof (first_nonempty_perm ls) as Hf. unfold shared_pop in H.
  destruct (if 0 <=? w then pop_from ls (Z.to_nat w) else None); [done|]. rewrite H in Hf.
  intros l [i Hi]%list_elem_of_lookup_1. apply (f_equal length) in Hf. exact (proj1 (count_0 ls) Hf i l Hi).
Qed.

(** The specification that Pop implements takes exactly the returned task out
    of the multiset of queued tasks, prefers the own shard, and finds nothing
    only when every shard is empty. *)
Theorem shared_pop_takes_one (w : Z) (ls : list (list ptr)) :
  match shared_pop w ls with
  | Some (x, ls') => concat ls ≡ₚ x :: concat ls' /\
      (ls !! Z.to_nat w ≫= head = Some x \/ w < 0 \/ ls !! Z.to_nat w ≫= head = None)
  | None => concat ls = []
  end.
Proof.
  pose proof (first_nonempty_perm ls) as Hfirst.
  unfold shared_pop. destruct (Z.leb_spec 0 w) as [Hw|Hw].
  - pose proof (pop_from_perm ls (Z.to_nat w)) as Hp.
    destruct (pop_from ls (Z.to_nat w)) as [[x ls']|] eqn:E.
    + split; [done|]. left. unfold pop_from in E.
      destruct (ls !! Z.to_nat w) as [[|y l]|]; [done| |done]. by simplify_eq/=.
    + assert (Hn : ls !! Z.to_nat w ≫= head = None).
      { unfold pop_from in E. destruct (ls !! Z.to_nat w) as [[|y l]|]; done. }
      destruct (first_nonempty ls ≫= pop_from ls) as [[x ls']|]; auto.
  - destruct (first_nonempty ls ≫= pop_from ls) as [[x ls']|]; auto.
Qed.

(** ** Where it fails *)

Lemma Push_total s x : 0 <= Z.rem (rr s) (workers s) < MAX_SHARDS -> workers s <> 0 ->
  wp (Push x) (fun _ s' => rr s' = i32 (rr s + 1) /\ workers s' = workers s) s.
Proof.
  intros Hrem Hwc. unfold Push. wp_go. rewrite decide_False by done.
  rewrite (proj2 (Z.leb_le 0 _)), (proj2 (Z.ltb_lt _ _)) by lia. simpl.
  apply wp_zoom_bind; [apply _|]. unfold MpscQueue.Push, MpscQueue.Clear. wp_go.
  destruct (shards s _).1; by wp_go.
Qed.

(** Once round_robin_ has reached INT_MAX, the push after the next one indexes
    shards_ with a negative number (unless the worker count divides 2^31):
    undefined behaviour. *)
Theorem Push_after_overflow_is_undefined (s : shared) (x y : ptr)
    (Hrr : rr s = INT_MAX) (Hwc : 0 < workers s <= MAX_SHARDS)
    (Hdiv : (2 ^ 31) mod workers s <> 0) :
  goes_wrong (Push x ;;; Push y) s.
Proof.
  eapply wrong_bind; [apply Push_total; [|lia]|].
  { pose proof (Z.rem_bound_pos (rr s) (workers s)) as Hb.
    unfold INT_MAX, MAX_SHARDS in *. lia. }
  intros u s1 [Hr1 Hw1]. assert (Hr : rr s1 = - 2 ^ 31) by by rewrite Hr1, Hrr.
  assert (Hneg : Z.rem (rr s1) (workers s1) < 0).
  { rewrite Hr, Hw1, Z.rem_opp_l by lia. rewrite Z.rem_mod_nonneg by lia.
    pose proof (Z.mod_pos_bound (2 ^ 31) (workers s)). lia. }
  unfold Push. do 2 wrong_step. rewrite decide_False by lia.
  rewrite (proj2 (Z.leb_gt 0 _)) by lia. by wrong_step.
Qed.

Lemma Push_after_overflow_is_undefined_witness :
  goes_wrong (Push 1%nat ;;; Push 2%nat) (Shared INT_MAX 0 3 (fun _ => (None, None)) ∅).
Proof.
  apply (Push_after_overflow_is_undefined (Shared INT_MAX 0 3 (fun _ => (None, None)) ∅) 1%nat 2%nat);
    [reflexivity|simpl; unfold MAX_SHARDS; lia|vm_compute; discriminate].
Defined.

(** Worker 0 pops its own shard while worker 1 steals from it. *)
Definition two_queued : shared :=
  Shared 2 2 2 (fun i => if decide (i = 0%nat) then (Some 2%nat, Some 1%nat) else (None, None))
         {[1%nat := 2%nat]}.

(** There is an interleaving of worker 0 popping its own shard with worker 1
    stealing from that shard in which both return the same task. *)
Theorem stealing_duplicates_a_task :
  repr two_queued [[1; 2]; []]%nat /\
  exists ts s, reachable ([Pop 0; Pop 1], two_queued) (ts, s) /\
    ts !! 0%nat = Some (Ret (Some 1%nat)) /\ ts !! 1%nat = Some (Ret (Some 1%nat)).
Proof.
  split.
  - split; simpl; try done.
    + intros [|[|i]] l Hl; simpl in *; simplify_eq; [|apply MpscQueue.repr_nil].
      split; [done..|apply (bool_decide_unpack _); vm_compute; exact I|].
      intros [|[|k]] x Hx; simpl in *; simplify_eq; reflexivity.
    + intros i j l l' x Hij Hi Hj. destruct i as [|[|i]], j as [|[|j]]; simpl in *; simplify_eq; set_solver.
  - destruct (sched_results_reachable (fun _ => tt) (turn 0 4 ++ turn 1 11 ++ turn 0 3)
      ([Pop 0; Pop 1], two_queued) [Some (Some 1%nat); Some (Some 1%nat)] tt)
      as (ts & s & Hr & Hts & _); [vm_compute; reflexivity|].
    exists ts, s. split; [done|].
    split; by eapply result_lookup.
Qed.

Lemma shared_pop_empty w ls : (forall l, l ∈ ls -> l = []) -> shared_pop w ls = None.
Proof.
  intros H. assert (G : forall i, pop_from ls i = None).
  { intros i. unfold pop_from. destruct (ls !! i) as [l|] eqn:E; [|done].
    by rewrite (H l) by (by eapply list_elem_of_lookup_2). }
  unfold shared_pop. rewrite G. destruct (0 <=? w), (first_nonempty ls); simpl; by rewrite ?G.
Qed.

End SharedMPSCQueue.
