(* ===== verification/Task.v ===== *)
(** * Task metadata

    Model of [include/bthread/core/task_meta_base.hpp] and
    [include/bthread/core/task_meta.hpp]: the states, and the record of a task
    with one field per member the code reads or writes.  The intrusive links
    [next] and [waiter_next] of all tasks are two maps of the memory (the
    [nexts] and [links] of Mpsc.v and SharedMpsc.v); [context] is modelled by the
    switches of Scheduler.v; [uses_xmm], [legacy_next] and [waiter.prev] are
    never read. *)

From Stdlib Require Import ZArith Lia.
From stdpp Require Import base numbers list gmap relations option.
From S2P Require Import Prelude.

Open Scope Z_scope.

Module Task.

Inductive TaskState := READY | RUNNING | SUSPENDED | FINISHED.
Inductive TaskType := BTHREAD | COROUTINE.

#[global] Instance TaskState_eq_dec : EqDecision TaskState.
Proof. solve_decision. Defined.
#[global] Instance TaskType_eq_dec : EqDecision TaskType.
Proof. solve_decision. Defined.

(** Addresses of stacks and of functions and their arguments are numbers. *)
Record TaskMeta := Meta {
  m_state : TaskState;
  m_type : TaskType;
  m_owner_worker : option nat;
  m_waiting_sync : option ptr;
  m_slot_index : Z;
  m_generation : Z;
  m_stack : option Z;
  m_stack_size : Z;
  m_is_waiting : bool;
  m_wake_count : Z;
  m_waiting_butex : option ptr;
  m_w_next : option ptr; (** waiter.next *)
  m_w_wakeup : bool; (** waiter.wakeup *)
  m_w_timed_out : bool; (** waiter.timed_out *)
  m_w_deadline_us : Z; (** waiter.deadline_us *)
  m_w_timer_id : Z; (** waiter.timer_id *)
  m_mpmc_next : option ptr; (** mpmc_node.next *)
  m_mpmc_claimed : bool; (** mpmc_node.claimed *)
  m_fn : option Z;
  m_arg : Z;
  m_result : Z;
  m_join_butex : option ptr;
  m_join_waiters : Z;
  m_ref_count : Z;
  m_local_worker : option nat;
}.

Definition Meta_eta (o : TaskMeta) : TaskMeta :=
  Meta (m_state o) (m_type o) (m_owner_worker o) (m_waiting_sync o) (m_slot_index o)
    (m_generation o) (m_stack o) (m_stack_size o) (m_is_waiting o) (m_wake_count o)
    (m_waiting_butex o) (m_w_next o) (m_w_wakeup o) (m_w_timed_out o) (m_w_deadline_us o)
    (m_w_timer_id o) (m_mpmc_next o) (m_mpmc_claimed o) (m_fn o) (m_arg o) (m_result o)
    (m_join_butex o) (m_join_waiters o) (m_ref_count o) (m_local_worker o).

Definition state : field TaskMeta TaskState := ltac:(lens Meta_eta m_state).
Definition type : field TaskMeta TaskType := ltac:(lens Meta_eta m_type).
Definition owner_worker : field TaskMeta (option nat) := ltac:(lens Meta_eta m_owner_worker).
Definition waiting_sync : field TaskMeta (option ptr) := ltac:(lens Meta_eta m_waiting_sync).
Definition slot_index : field TaskMeta Z := ltac:(lens Meta_eta m_slot_index).
Definition generation : field TaskMeta Z := ltac:(lens Meta_eta m_generation).
Definition stack : field TaskMeta (option Z) := ltac:(lens Meta_eta m_stack).
Definition stack_size : field TaskMeta Z := ltac:(lens Meta_eta m_stack_size).
Definition is_waiting : field TaskMeta bool := ltac:(lens Meta_eta m_is_waiting).
Definition wake_count : field TaskMeta Z := ltac:(lens Meta_eta m_wake_count).
Definition waiting_butex : field TaskMeta (option ptr) := ltac:(lens Meta_eta m_waiting_butex).
Definition w_next : field TaskMeta (option ptr) := ltac:(lens Meta_eta m_w_next).
Definition w_wakeup : field TaskMeta bool := ltac:(lens Meta_eta m_w_wakeup).
Definition w_timed_out : field TaskMeta bool := ltac:(lens Meta_eta m_w_timed_out).
Definition w_deadline_us : field TaskMeta Z := ltac:(lens Meta_eta m_w_deadline_us).
Definition w_timer_id : field TaskMeta Z := ltac:(lens Meta_eta m_w_timer_id).
Definition mpmc_next : field TaskMeta (option ptr) := ltac:(lens Meta_eta m_mpmc_next).
Definition mpmc_claimed : field TaskMeta bool := ltac:(lens Meta_eta m_mpmc_claimed).
Definition fn : field TaskMeta (option Z) := ltac:(lens Meta_eta m_fn).
Definition arg : field TaskMeta Z := ltac:(lens Meta_eta m_arg).
Definition result : field TaskMeta Z := ltac:(lens Meta_eta m_result).
Definition join_butex : field TaskMeta (option ptr) := ltac:(lens Meta_eta m_join_butex).
Definition join_waiters : field TaskMeta Z := ltac:(lens Meta_eta m_join_waiters).
Definition ref_count : field TaskMeta Z := ltac:(lens Meta_eta m_ref_count).
Definition local_worker : field TaskMeta (option nat) := ltac:(lens Meta_eta m_local_worker).

(** [new TaskMeta()]. *)
Definition new_TaskMeta : TaskMeta :=
  Meta READY BTHREAD None None 0 0 None 0 false 0 None None false false 0 0 None false
       None 0 0 None 0 0 None.

Definition is_READY_or_RUNNING (s : TaskState) : bool :=
  match s with READY | RUNNING => true | SUSPENDED | FINISHED => false end.

Section Meta.
Context {S : Type} (heap : field S (gmap ptr TaskMeta)).

Definition can_resume (p : ptr) : prog S bool :=
  s <- get heap p state ;; Ret (is_READY_or_RUNNING s).
Definition is_finished (p : ptr) : prog S bool :=
  s <- get heap p state ;; Ret (bool_decide (s = FINISHED)).
(** [ref_count.fetch_sub(1) == 1]. *)
Definition Release (p : ptr) : prog S bool :=
  n <- modify heap p ref_count (fun n => i32 (n - 1)) ;; Ret (n =? 1).
End Meta.

(** A [Butex]: the two ends of its waiter queue and its value. *)
Record Butex := MkButex {
  b_head_ : option ptr;
  b_tail_ : option ptr;
  b_value_ : Z;
}.

Definition MkButex_eta (o : Butex) : Butex :=
  MkButex (b_head_ o) (b_tail_ o) (b_value_ o).

Definition head_ : field Butex (option ptr) := ltac:(lens MkButex_eta b_head_).
Definition tail_ : field Butex (option ptr) := ltac:(lens MkButex_eta b_tail_).
Definition value_ : field Butex Z := ltac:(lens MkButex_eta b_value_).

Definition new_Butex : Butex := MkButex None None 0.

(** ** Memory

    The live tasks and butexes by address, the [next] and [waiter_next] fields
    of the tasks, and the address of the next allocation. *)
Record memory := Memory {
  mem_tasks : gmap ptr TaskMeta;
  mem_butexes : gmap ptr Butex;
  mem_next : gmap ptr ptr;
  mem_waiter_next : gmap ptr ptr;
  mem_brk : ptr;
}.

Definition Memory_eta (o : memory) : memory :=
  Memory (mem_tasks o) (mem_butexes o) (mem_next o) (mem_waiter_next o) (mem_brk o).

Definition tasks : field memory (gmap ptr TaskMeta) := ltac:(lens Memory_eta mem_tasks).
Definition butexes : field memory (gmap ptr Butex) := ltac:(lens Memory_eta mem_butexes).
Definition next : field memory (gmap ptr ptr) := ltac:(lens Memory_eta mem_next).
Definition waiter_next : field memory (gmap ptr ptr) := ltac:(lens Memory_eta mem_waiter_next).
Definition brk : field memory ptr := ltac:(lens Memory_eta mem_brk).

Definition no_memory : memory := Memory ∅ ∅ ∅ ∅ 1%nat.

Section Allocation.
Context {S : Type} (mem : field S memory).

Definition alloc {O} (heap : field memory (gmap ptr O)) (o : O) : prog S ptr :=
  act (fun s => let m := rd mem s in let p := mem_brk m in
                Go p (wr mem (wr brk (1 + p)%nat (wr heap (<[p := o]> (rd heap m)) m)) s)).
Definition free {O} (heap : field memory (gmap ptr O)) (p : ptr) : prog S unit :=
  act (fun s => match rd heap (rd mem s) !! p with
                | Some _ => Go tt (wr (sub mem heap) (delete p (rd heap (rd mem s))) s)
                | None => Bad
                end).
End Allocation.

End Task.
