(* ===== verification/TaskGroup.v ===== *)
(** * The pool of task metadata

    Model of [TaskGroup] ([include/bthread/core/task_group.hpp],
    [src/bthread/core/task_group.cpp]): the lock-free free list of slots, the
    table from slots to [TaskMeta]s, and the generation-checked [bthread_t]
    identifiers. *)

From Stdlib Require Import ZArith Lia.
From stdpp Require Import base numbers list gmap relations option.
From S2P Require Import Prelude Task.

Open Scope Z_scope.

Module TaskGroup.
Import Task.

Definition POOL_SIZE : Z := 16384.

(** [task_pool_], [free_slots_], [free_head_], [generations_] and
    [worker_count_], with the memory the tasks live in. *)
Record group := Group {
  g_mem : memory;
  g_task_pool : list (option ptr);
  g_free_slots : list Z;
  g_free_head : Z;
  g_generations : list Z;
  g_worker_count : Z;
}.

Definition Group_eta (g : group) : group :=
  Group (g_mem g) (g_task_pool g) (g_free_slots g) (g_free_head g) (g_generations g)
    (g_worker_count g).

Definition mem : field group memory := ltac:(lens Group_eta g_mem).
Definition task_pool_ : field group (list (option ptr)) := ltac:(lens Group_eta g_task_pool).
Definition free_slots_ : field group (list Z) := ltac:(lens Group_eta g_free_slots).
Definition free_head_ : field group Z := ltac:(lens Group_eta g_free_head).
Definition generations_ : field group (list Z) := ltac:(lens Group_eta g_generations).
Definition worker_count_ : field group Z := ltac:(lens Group_eta g_worker_count).
Definition heap : field group (gmap ptr TaskMeta) := sub mem tasks.

(** The constructor: slot [i] links to [i + 1], the last one to -1. *)
Definition TaskGroup (m : memory) : group :=
  let n := Z.to_nat POOL_SIZE in
  Group m (replicate n None) (((fun i => Z.of_nat i + 1) <$> seq 0 (n - 1)) ++ [-1]) 0
    (replicate n 1) 0.

(** The metadata of a slot just claimed: created on first use. *)
Definition slot_meta (slot : Z) : prog group ptr :=
  meta <- load_at task_pool_ slot ;;
  match meta with
  | None =>
      p <- alloc mem tasks new_TaskMeta ;;
      set heap p slot_index (u32 slot) ;;;
      gen <- load_at generations_ slot ;;
      set heap p generation gen ;;;
      store_at task_pool_ slot (Some p) ;;;
      Ret p
  | Some p =>
      set heap p slot_index (u32 slot) ;;;
      gen <- load_at generations_ slot ;;
      set heap p generation gen ;;;
      Ret p
  end.

Definition AllocTaskMeta : prog group (option ptr) :=
  slot <- load free_head_ ;;
  loop slot (fun slot =>
    if 0 <=? slot then
      next <- load_at free_slots_ slot ;;
      c <- cas_weak free_head_ slot next ;;
      if c.1 : bool then p <- slot_meta slot ;; Ret (inr (Some p)) else Ret (inl c.2)
    else Ret (inr None)).

(** The walk that collects at most 16 slots; returns them with the slot
    after the last one. *)
Definition collect_slots (head count : Z) : prog group (list Z * Z) :=
  loop ([], head) (fun '(claim, current) =>
    if (0 <=? current) && (Z.of_nat (length claim) <? count) && (Z.of_nat (length claim) <? 16) then
      next <- load_at free_slots_ current ;;
      Ret (inl (claim ++ [current], next))
    else Ret (inr (claim, current))).

(** The slots written to the caller's array. *)
Definition AllocMultipleSlots (count : Z) : prog group (list Z) :=
  if count <=? 0 then Ret []
  else
    loop tt (fun _ =>
      head <- load free_head_ ;;
      if head <? 0 then Ret (inr [])
      else
        c <- collect_slots head count ;;
        let '(slots_to_claim, new_head) := c in
        if decide (slots_to_claim = []) then Ret (inr [])
        else
          r <- cas_weak free_head_ head new_head ;;
          if r.1 : bool then Ret (inr (take (Z.to_nat count) slots_to_claim)) else Ret (inl tt)).

Definition GetOrCreateTaskMeta (slot : Z) : prog group (option ptr) :=
  if (slot <? 0) || (slot >=? POOL_SIZE) then Ret None
  else p <- slot_meta slot ;; Ret (Some p).

(** The reset of a task's fields before its slot is freed. *)
Definition reset_task (p : ptr) (new_gen : Z) : prog group unit :=
  set heap p generation new_gen ;;;
  set heap p state READY ;;;
  set heap p ref_count 0 ;;;
  set heap p fn None ;;;
  set heap p arg 0 ;;;
  set heap p Task.result 0 ;;;
  set heap p join_waiters 0 ;;;
  set heap p waiting_butex None ;;;
  set heap p w_next None ;;;
  set heap p w_wakeup false ;;;
  set heap p w_timed_out false ;;;
  set heap p w_deadline_us 0 ;;;
  set heap p w_timer_id 0 ;;;
  set heap p local_worker None ;;;
  act (fun g => Go tt (wr (sub mem next) (delete p (rd (sub mem next) g)) g)).

Definition DeallocTaskMeta (task : option ptr) : prog group unit :=
  match task with
  | None => Ret tt
  | Some p =>
      slot <- get heap p slot_index ;;
      jb <- get heap p join_butex ;;
      (match jb with
       | Some b => free mem butexes b ;;; set heap p join_butex None ;;; Ret tt
       | None => Ret tt
       end) ;;;
      old_gen <- fetch_at generations_ slot (fun g => u32 (g + 1)) ;;
      reset_task p (u32 (old_gen + 1)) ;;;
      old_head <- load free_head_ ;;
      loop old_head (fun old_head =>
        store_at free_slots_ slot old_head ;;;
        c <- cas_weak free_head_ old_head (i32 slot) ;;
        if c.1 : bool then Ret (inr tt) else Ret (inl c.2))
  end.

Definition EncodeId (slot gen : Z) : Z := Z.lor (u64 (Z.shiftl gen 32)) slot.

Definition DecodeId (tid : Z) : prog group (option ptr) :=
  let slot := u32 (Z.land tid 0xFFFFFFFF) in
  let gen := u32 (Z.shiftr tid 32) in
  if slot >=? POOL_SIZE then Ret None
  else
    meta <- load_at task_pool_ slot ;;
    match meta with
    | Some p => g <- get heap p generation ;; Ret (if g =? gen then Some p else None)
    | None => Ret None
    end.

Definition GetTaskBySlot (slot : Z) : prog group (option ptr) :=
  if slot >=? POOL_SIZE then Ret None else load_at task_pool_ slot.

Definition worker_count : prog group Z := load worker_count_.
Definition set_worker_count (count : Z) : prog group unit := store worker_count_ count.

Definition GetSuspendedTasks : prog group (list ptr) :=
  loop (0, []) (fun '(i, suspended) =>
    if i <? POOL_SIZE then
      meta <- load_at task_pool_ i ;;
      match meta with
      | Some p =>
          st <- get heap p state ;;
          Ret (inl (i + 1, if decide (st = SUSPENDED) then suspended ++ [p] else suspended))
      | None => Ret (inl (i + 1, suspended))
      end
    else Ret (inr suspended)).

(** ** The free list *)

(** [pool_ok g l]: the free list of [g] is [l], every slot in it is in range,
    and each metadata in the table carries its slot and its slot's generation. *)
Record pool_ok (g : group) (l : list Z) : Prop := {
  ok_pool : Z.of_nat (length (g_task_pool g)) = POOL_SIZE;
  ok_frees : Z.of_nat (length (g_free_slots g)) = POOL_SIZE;
  ok_gens : Z.of_nat (length (g_generations g)) = POOL_SIZE;
  ok_head : g_free_head g = default (-1) (head l);
  ok_range : forall x, x ∈ l -> 0 <= x < POOL_SIZE;
  ok_chain : forall k x, l !! k = Some x ->
    g_free_slots g !! Z.to_nat x = Some (default (-1) (l !! S k));
  ok_nodup : NoDup l;
  ok_word : forall k x, g_generations g !! k = Some x -> 0 <= x < 2 ^ 32;
  ok_meta : forall k p, g_task_pool g !! k = Some (Some p) ->
    exists m, rd heap g !! p = Some m /\ m_slot_index m = Z.of_nat k /\
              g_generations g !! k = Some (m_generation m);
  ok_brk : forall p, is_Some (rd heap g !! p) -> (p < mem_brk (g_mem g))%nat;
}.

Lemma pool_slot g l x : pool_ok g l -> 0 <= x < POOL_SIZE ->
  exists o, g_task_pool g !! Z.to_nat x = Some o.
Proof. intros H Hx. apply lookup_lt_is_Some_2. pose proof (ok_pool _ _ H). lia. Qed.

Lemma gen_slot g l x : pool_ok g l -> 0 <= x < POOL_SIZE ->
  exists n, g_generations g !! Z.to_nat x = Some n /\ 0 <= n < 2 ^ 32.
Proof.
  intros H Hx. destruct (lookup_lt_is_Some_2 (g_generations g) (Z.to_nat x)) as [n Hn].
  { pose proof (ok_gens _ _ H). lia. }
  exists n. split; [done|]. by eapply ok_word.
Qed.

(** Two slots never share their metadata. *)
Lemma pool_inj g l i j p : pool_ok g l -> g_task_pool g !! i = Some (Some p) ->
  g_task_pool g !! j = Some (Some p) -> i = j.
Proof.
  intros H Hi Hj. destruct (ok_meta _ _ H i p Hi) as (m & Hm & Hs & _).
  destruct (ok_meta _ _ H j p Hj) as (m' & Hm' & Hs' & _).
  assert (m = m') by congruence. subst. lia.
Qed.

(** Taking the front of the free list. *)
Lemma pool_ok_tail g x l : pool_ok g (x :: l) -> pool_ok (wr free_head_ (default (-1) (head l)) g) l.
Proof.
  intros []. split; simpl; try done.
  - intros y Hy. apply ok_range0. by right.
  - intros k y Hy. exact (ok_chain0 (S k) y Hy).
  - by apply list.NoDup_cons in ok_nodup0 as [_ ?].
Qed.

(** The table gets the metadata [p] of slot [x], its generation unchanged. *)
Definition claimed_meta (x : Z) (p : ptr) (g g' : group) : Prop :=
  g_free_head g' = g_free_head g /\ g_generations g' = g_generations g /\
  g_task_pool g' !! Z.to_nat x = Some (Some p) /\
  (forall q, g_task_pool g !! Z.to_nat x = Some (Some q) -> q = p) /\
  (forall q m, rd heap g !! q = Some m -> rd heap g' !! q = Some m) /\
  (forall y, y <> Z.to_nat x -> g_task_pool g' !! y = g_task_pool g !! y).

Lemma slot_meta_ok g l x : pool_ok g l -> 0 <= x < POOL_SIZE ->
  wp (slot_meta x) (fun p g' => pool_ok g' l /\ claimed_meta x p g g') g.
Proof.
  intros H Hx. destruct (pool_slot g l x H Hx) as [o Ho].
  destruct (gen_slot g l x H Hx) as (n & Hn & Hword).
  assert (Hu : u32 x = x) by (apply wrapu_small; unfold POOL_SIZE in *; lia).
  unfold slot_meta. eapply wp_load_at_bind; [lia|exact Ho|].
  destruct o as [p|].
  - destruct (ok_meta _ _ H _ p Ho) as (m & Hm & Hs & Hg). rewrite Hn in Hg. injection Hg as ->.
    eapply wp_set_bind; [exact Hm|]. eapply wp_load_at_bind; [lia|exact Hn|].
    eapply wp_set_bind; [apply lookup_insert_eq|]. apply wp_ret.
    match goal with |- pool_ok ?g' _ /\ _ => assert (g' = g) as -> end.
    { rewrite Hu. destruct g as [[] pool fs fh gs wc]; simpl in *. rewrite insert_insert_eq.
      f_equal. f_equal. apply insert_id. rewrite Hm. f_equal.
      destruct m; simpl in *; f_equal; lia. }
    split; [done|]. split_and!; congruence || done.
  - unfold alloc. apply wp_act_bind. set (p := mem_brk (g_mem g)).
    eapply wp_set_bind; [apply lookup_insert_eq|].
    eapply wp_load_at_bind; [lia|exact Hn|].
    eapply wp_set_bind; [apply lookup_insert_eq|].
    eapply wp_store_at_bind; [simpl; pose proof (ok_pool _ _ H); lia|].
    apply wp_ret. rewrite Hu.
    assert (Hfresh : rd heap g !! p = None).
    { destruct (rd heap g !! p) eqn:E; [|done].
      assert (p < mem_brk (g_mem g))%nat by (apply (ok_brk _ _ H); by eexists). unfold p in *. lia. }
    assert (Hlen : (Z.to_nat x < length (g_task_pool g))%nat) by (by eapply lookup_lt_Some).
    split.
    + destruct H. split; simpl; rewrite ?length_insert; try done.
      * intros k q Hq. apply list_lookup_insert_Some in Hq as [(<- & [= <-] & _)|[Hne Hq]].
        -- eexists. rewrite !insert_insert_eq, lookup_insert_eq. split; [done|]. simpl.
           split; [lia|done].
        -- destruct (ok_meta0 k q Hq) as (m & Hm & ? & ?). exists m. split; [|done].
           assert (p <> q) by (intros E; rewrite <- E in Hm; simpl in *; congruence).
           by rewrite !insert_insert_eq, lookup_insert_ne.
      * intros q Hq. rewrite !insert_insert_eq in Hq.
        destruct (decide (q = p)) as [->|Hne]; [lia|]. rewrite lookup_insert_ne in Hq by done.
        apply ok_brk0 in Hq. unfold p. lia.
    + split_and!; simpl; try done.
      * by apply list_lookup_insert_eq.
      * intros q Hq. congruence.
      * intros q m Hq. assert (p <> q) by (intros E; rewrite <- E in Hq; simpl in *; congruence).
        by rewrite !insert_insert_eq, lookup_insert_ne.
      * intros y Hy. by apply list_lookup_insert_ne.
Qed.

(** ** Identifiers *)

(** What [DecodeId] computes. *)
Definition decode (g : group) (tid : Z) : option ptr :=
  let slot := u32 (Z.land tid 0xFFFFFFFF) in
  if slot >=? POOL_SIZE then None
  else
    match g_task_pool g !! Z.to_nat slot with
    | Some (Some p) =>
        match rd heap g !! p with
        | Some m => if m_generation m =? u32 (Z.shiftr tid 32) then Some p else None
        | None => None
        end
    | _ => None
    end.

Lemma DecodeId_decode g l tid : pool_ok g l ->
  wp (DecodeId tid) (fun r g' => r = decode g tid /\ g' = g) g.
Proof.
  intros H. unfold DecodeId, decode.
  set (slot := u32 (Z.land tid 0xFFFFFFFF)). assert (Hs : 0 <= slot < 2 ^ 32) by (by apply Z.mod_pos_bound).
  destruct (Z.geb_spec slot POOL_SIZE) as [Hge|Hlt]; [by wp_go|].
  destruct (pool_slot g l slot H) as [o Ho]; [lia|].
  eapply wp_load_at_bind; [lia|exact Ho|]. rewrite Ho. destruct o as [p|]; [|by wp_go].
  destruct (ok_meta _ _ H _ p Ho) as (m & Hm & _). eapply wp_get_bind; [exact Hm|].
  rewrite Hm. by wp_go.
Qed.

Lemma decode_EncodeId g slot gen : 0 <= slot < POOL_SIZE -> 0 <= gen < 2 ^ 32 ->
  decode g (EncodeId slot gen) =
    match g_task_pool g !! Z.to_nat slot with
    | Some (Some p) =>
        match rd heap g !! p with
        | Some m => if m_generation m =? gen then Some p else None
        | None => None
        end
    | _ => None
    end.
Proof.
  intros Hs Hg. unfold decode, EncodeId.
  rewrite pack_low, pack_high by (unfold POOL_SIZE in *; lia).
  destruct (Z.geb_spec slot POOL_SIZE); [lia|done].
Qed.

(** The generation of slot [x]. *)
Definition gen_of (g : group) (x : Z) : Z := default 0 (g_generations g !! Z.to_nat x).

Lemma decode_mono g g' : g_generations g' = g_generations g ->
  (forall k q, g_task_pool g !! k = Some (Some q) -> g_task_pool g' !! k = Some (Some q)) ->
  (forall q m, rd heap g !! q = Some m -> rd heap g' !! q = Some m) ->
  forall tid q, decode g tid = Some q -> decode g' tid = Some q.
Proof.
  intros _ Hpool Hheap tid q. unfold decode. destruct (_ >=? _); [done|].
  destruct (g_task_pool g !! _) as [[p|]|] eqn:E; try done. rewrite (Hpool _ _ E).
  destruct (rd heap g !! p) as [m|] eqn:E'; [|done]. by rewrite (Hheap _ _ E').
Qed.

Lemma claimed_decode g g' l x p : pool_ok g' l -> 0 <= x < POOL_SIZE -> claimed_meta x p g g' ->
  decode g' (EncodeId x (gen_of g x)) = Some p /\
  (forall tid q, decode g tid = Some q -> decode g' tid = Some q).
Proof.
  intros H' Hx (_ & Hgen & Hp & Hq & Hm & Hne).
  destruct (gen_slot g' l x H' Hx) as (n & Hn & Hw).
  destruct (ok_meta _ _ H' _ p Hp) as (m & Hmp & _ & Hmg).
  assert (gen_of g x = n) as -> by (unfold gen_of; by rewrite <- Hgen, Hn).
  split.
  - rewrite decode_EncodeId, Hp, Hmp by done. rewrite Hn in Hmg. injection Hmg as ->.
    by rewrite Z.eqb_refl.
  - apply decode_mono; [done| |done]. intros k q Hk.
    destruct (decide (k = Z.to_nat x)) as [->|Hkx]; [by rewrite (Hq q Hk)|by rewrite Hne].
Qed.

Lemma AllocTaskMeta_pops g l (H : pool_ok g l) :
  wp AllocTaskMeta (fun r g' =>
    match l with
    | [] => r = None /\ g' = g
    | x :: l' => exists p, r = Some p /\ pool_ok g' l' /\ gen_of g' x = gen_of g x /\
        decode g' (EncodeId x (gen_of g x)) = Some p /\
        (forall tid q, decode g tid = Some q -> decode g' tid = Some q)
    end) g.
Proof.
  unfold AllocTaskMeta. wp_go. apply wp_loop_once. rewrite (ok_head _ _ H).
  destruct l as [|x l]; simpl; [by wp_go|].
  assert (Hx : 0 <= x < POOL_SIZE) by (apply (ok_range _ _ H); by left).
  rewrite (proj2 (Z.leb_le 0 x)) by lia.
  eapply wp_load_at_bind; [lia|by apply (ok_chain _ _ H 0)|].
  apply wp_cas_weak_bind; simpl; [intros _|by rewrite (ok_head _ _ H)].
  rewrite <- head_lookup. apply wp_bind. eapply wp_mono; [exact (slot_meta_ok _ l x (pool_ok_tail g x l H) Hx)|].
  intros p g' [H' Hc]. wp_go. exists p. split; [done|]. split; [done|].
  split; [unfold gen_of; by destruct Hc as (_ & -> & _)|].
  exact (claimed_decode (wr free_head_ (default (-1) (head l)) g) g' l x p H' Hx Hc).
Qed.

(** What the slot's metadata is once it is claimed, and where. *)
Definition slot_task (g : group) (x : Z) : ptr :=
  match g_task_pool g !! Z.to_nat x with Some (Some p) => p | Some None | None => mem_brk (g_mem g) end.
Definition slot_content (g : group) (x : Z) : TaskMeta :=
  wr generation (gen_of g x) (wr slot_index x
    (match g_task_pool g !! Z.to_nat x with
     | Some (Some p) => default new_TaskMeta (rd heap g !! p)
     | Some None | None => new_TaskMeta
     end)).

(** Everything but the tasks: the butexes and the links. *)
Definition same_links (g g' : group) : Prop :=
  mem_butexes (g_mem g') = mem_butexes (g_mem g) /\ mem_next (g_mem g') = mem_next (g_mem g) /\
  mem_waiter_next (g_mem g') = mem_waiter_next (g_mem g).

Lemma slot_meta_memory g l x : pool_ok g l -> 0 <= x < POOL_SIZE ->
  wp (slot_meta x) (fun p g' => p = slot_task g x /\
    g_task_pool g' = <[Z.to_nat x := Some p]> (g_task_pool g) /\
    rd heap g' = <[p := slot_content g x]> (rd heap g) /\ same_links g g' /\
    g_generations g' = g_generations g /\ mem_brk (g_mem g) <= mem_brk (g_mem g'))%nat g.
Proof.
  intros H Hx. destruct (pool_slot g l x H Hx) as [o Ho].
  destruct (gen_slot g l x H Hx) as (n & Hn & Hword).
  assert (Hu : u32 x = x) by (apply wrapu_small; unfold POOL_SIZE in *; lia).
  unfold slot_meta, slot_task, slot_content, gen_of. rewrite Ho, Hn.
  eapply wp_load_at_bind; [lia|exact Ho|]. destruct o as [p|].
  - destruct (ok_meta _ _ H _ p Ho) as (m & Hm & _).
    eapply wp_set_bind; [exact Hm|]. eapply wp_load_at_bind; [lia|exact Hn|].
    eapply wp_set_bind; [apply lookup_insert_eq|]. apply wp_ret. rewrite Hu, Hm.
    split; [done|]. split; [by rewrite list_insert_id|]. split; [|done].
    simpl. by rewrite insert_insert_eq.
  - unfold alloc. apply wp_act_bind. eapply wp_set_bind; [apply lookup_insert_eq|].
    eapply wp_load_at_bind; [lia|exact Hn|]. eapply wp_set_bind; [apply lookup_insert_eq|].
    eapply wp_store_at_bind; [simpl; pose proof (ok_pool _ _ H); lia|]. apply wp_ret. rewrite Hu.
    split; [done|]. split; [done|]. split; [simpl; by rewrite !insert_insert_eq|].
    split; [done|]. split; [done|]. simpl. lia.
Qed.

Lemma AllocTaskMeta_memory g l x : pool_ok g (x :: l) ->
  wp AllocTaskMeta (fun r g' => r = Some (slot_task g x) /\
    g_task_pool g' = <[Z.to_nat x := r]> (g_task_pool g) /\
    rd heap g' = <[slot_task g x := slot_content g x]> (rd heap g) /\ same_links g g' /\
    g_generations g' = g_generations g) g.
Proof.
  intros H. assert (Hx : 0 <= x < POOL_SIZE) by (apply (ok_range _ _ H); by left).
  unfold AllocTaskMeta. wp_go. apply wp_loop_once. rewrite (ok_head _ _ H). simpl.
  rewrite (proj2 (Z.leb_le 0 x)) by lia.
  eapply wp_load_at_bind; [lia|by apply (ok_chain _ _ H 0)|].
  apply wp_cas_weak_bind; simpl; [intros _|by rewrite (ok_head _ _ H)].
  rewrite <- head_lookup. apply wp_bind.
  eapply wp_mono; [exact (slot_meta_memory _ l x (pool_ok_tail g x l H) Hx)|].
  intros p g' (-> & H1 & H2 & H3 & H4 & _). wp_go. by split_and!.
Qed.

(** AllocTaskMeta returns null exactly when the free list is empty; otherwise
    it takes its first slot, the bthread_t built from that slot and its
    generation decodes to the returned task, and no identifier valid before is
    lost. *)
Theorem AllocTaskMeta_pops_slot g l (H : pool_ok g l) :
  wp AllocTaskMeta (fun r g' =>
    match l with
    | [] => r = None /\ g' = g
    | x :: l' => exists p, r = Some p /\ pool_ok g' l' /\ gen_of g' x = gen_of g x /\
        decode g' (EncodeId x (gen_of g x)) = Some p /\
        (forall tid q, decode g tid = Some q -> decode g' tid = Some q)
    end) g.
Proof. by apply AllocTaskMeta_pops. Qed.

(** ** Freeing a slot *)

(** [g] is [g0] after writes to the metadata [p] of slot [x], whose
    generation is now [n]. *)
Record touched (p : ptr) (x n : Z) (g0 g : group) : Prop := {
  t_pool : g_task_pool g = g_task_pool g0;
  t_frees : g_free_slots g = g_free_slots g0;
  t_head : g_free_head g = g_free_head g0;
  t_gens : g_generations g = g_generations g0;
  t_meta : exists m, rd heap g !! p = Some m /\ m_slot_index m = x /\ m_generation m = n;
  t_other : forall q, q <> p -> rd heap g !! q = rd heap g0 !! q;
  t_brk : mem_brk (g_mem g) = mem_brk (g_mem g0);
}.

(** Removing slot [x]'s old identifier: what freeing does to the table. *)
Lemma touched_decode p x n g g0 g' l :
  pool_ok g l -> 0 <= x < POOL_SIZE -> g_task_pool g !! Z.to_nat x = Some (Some p) ->
  n <> gen_of g x -> g_task_pool g0 = g_task_pool g ->
  (forall q, q <> p -> rd heap g0 !! q = rd heap g !! q) -> touched p x n g0 g' ->
  decode g' (EncodeId x (gen_of g x)) = None /\
  (forall tid q, q <> p -> decode g tid = Some q -> decode g' tid = Some q).
Proof.
  intros H Hx Hp Hn Hpool Hheap []. destruct t_meta0 as (m & Hm & _ & Hmg).
  assert (Hw : 0 <= gen_of g x < 2 ^ 32).
  { destruct (gen_slot g l x H Hx) as (k & Hk & Hw). unfold gen_of. by rewrite Hk. }
  split.
  - rewrite decode_EncodeId, t_pool0, Hpool, Hp, Hm by done.
    by rewrite (proj2 (Z.eqb_neq _ _)) by congruence.
  - intros tid q Hq. unfold decode. cbv zeta. rewrite t_pool0, Hpool.
    destruct (u32 (Z.land tid 0xFFFFFFFF) >=? POOL_SIZE); [done|].
    destruct (g_task_pool g !! Z.to_nat (u32 (Z.land tid 0xFFFFFFFF))) as [[r|]|]; try done.
    destruct (decide (r = p)) as [->|Hr].
    + intros E. destruct (rd heap g !! p) as [m1|]; [|done].
      destruct (m_generation m1 =? _) in E; [injection E as ->|]; done.
    + by rewrite t_other0, Hheap.
Qed.

Lemma pool_ok_free p x n g g0 l :
  pool_ok g l -> 0 <= x < POOL_SIZE -> x ∉ l -> g_task_pool g !! Z.to_nat x = Some (Some p) ->
  0 <= n < 2 ^ 32 ->
  g_task_pool g0 = g_task_pool g -> g_free_slots g0 = g_free_slots g ->
  g_free_head g0 = g_free_head g ->
  g_generations g0 = <[Z.to_nat x := n]> (g_generations g) ->
  touched p x n g0 g0 -> (forall q, q <> p -> rd heap g0 !! q = rd heap g !! q) ->
  mem_brk (g_mem g0) = mem_brk (g_mem g) ->
  pool_ok (wr free_head_ x (wr free_slots_ (<[Z.to_nat x := g_free_head g]> (g_free_slots g)) g0))
    (x :: l).
Proof.
  intros H Hx Hxl Hp Hn E1 E2 E3 E4 Ht Hq Hb. pose proof H as H0.
  destruct H as [H1 H2 H3 H4 H5 H6 H7 H8 H9 H10].
  destruct (t_meta _ _ _ _ _ Ht) as (m & Hm & Hmx & Hmn).
  split; simpl; rewrite ?E1, ?E4, ?length_insert; try done.
  - intros y [->|Hy]%elem_of_cons; [done|by apply H5].
  - intros [|k] y Hy; simpl in *.
    + injection Hy as <-. rewrite list_lookup_insert_eq by lia. by rewrite H4, head_lookup.
    + assert (y ∈ l) by (by eapply list_elem_of_lookup_2).
      rewrite list_lookup_insert_ne; [by apply H6|].
      intros E. apply Z2Nat.inj in E; [congruence|lia|]. by apply H5.
  - by constructor.
  - intros k y Hy. apply list_lookup_insert_Some in Hy as [(_ & <- & _)|[_ Hy]]; [done|].
    by eapply H8.
  - intros k q Hk. destruct (decide (k = Z.to_nat x)) as [->|Hne].
    + assert (q = p) as -> by congruence. exists m. split; [done|]. split; [lia|].
      rewrite list_lookup_insert_eq by lia. congruence.
    + assert (q <> p) by (intros ->; by pose proof (pool_inj _ _ _ _ _ H0 Hk Hp)).
      destruct (H9 k q Hk) as (m' & Hm' & ? & ?). exists m'.
      change (rd heap g0 !! q = Some m' /\ m_slot_index m' = Z.of_nat k /\
        <[Z.to_nat x:=n]> (g_generations g) !! k = Some (m_generation m')).
      rewrite (Hq q), list_lookup_insert_ne by done. done.
  - intros q Hs. change (is_Some (rd heap g0 !! q)) in Hs. rewrite Hb. apply H10.
    destruct (decide (q = p)) as [->|Hne]; [|by rewrite <- Hq].
    destruct (H9 _ _ Hp) as (m' & Hm' & _). by eexists.
Qed.

(** The join butex of [p], if any, is alive. *)
Definition join_butex_live (g : group) (p : ptr) : Prop :=
  forall m b, rd heap g !! p = Some m -> m_join_butex m = Some b ->
    is_Some (rd (sub mem butexes) g !! b).

(** What the metadata is after its slot was freed. *)
Definition reset_meta (n : Z) (m : TaskMeta) : TaskMeta :=
  wr local_worker None (wr w_timer_id 0 (wr w_deadline_us 0 (wr w_timed_out false (wr w_wakeup false
    (wr w_next None (wr waiting_butex None (wr join_waiters 0 (wr Task.result 0 (wr arg 0 (wr fn None
      (wr ref_count 0 (wr state READY (wr generation n (wr join_butex None m)))))))))))))).

Definition drop_join_butex (m : TaskMeta) (g : group) : group :=
  match m_join_butex m with
  | Some b => wr (sub mem butexes) (delete b (rd (sub mem butexes) g)) g
  | None => g
  end.

(** The pool after freeing task [p], which was [m], of slot [x]. *)
Definition freed (g : group) (x : Z) (p : ptr) (m : TaskMeta) : group :=
  let n := u32 (gen_of g x + 1) in
  wr free_head_ x (wr free_slots_ (<[Z.to_nat x := g_free_head g]> (g_free_slots g))
    (wr (sub mem next) (delete p (rd (sub mem next) g))
      (wr heap (<[p := reset_meta n m]> (rd heap g))
        (wr generations_ (<[Z.to_nat x := n]> (g_generations g)) (drop_join_butex m g))))).

Lemma reset_task_eq p n m g : rd heap g !! p = Some m -> m_join_butex m = None ->
  wp (reset_task p n) (fun _ g' =>
    g' = wr (sub mem next) (delete p (rd (sub mem next) g)) (wr heap (<[p := reset_meta n m]> (rd heap g)) g)) g.
Proof.
  intros Hm Hj. unfold reset_task. eapply wp_set_bind; [exact Hm|].
  do 13 (eapply wp_set_bind; [apply lookup_insert_eq|]).
  apply wp_act_last. assert (E : wr join_butex None m = m) by (destruct m; simpl in *; by subst).
  unfold reset_meta. rewrite E. simpl. by rewrite !insert_insert_eq.
Qed.

Lemma DeallocTaskMeta_eq g l x p m : pool_ok g l -> 0 <= x < POOL_SIZE ->
  g_task_pool g !! Z.to_nat x = Some (Some p) -> rd heap g !! p = Some m -> join_butex_live g p ->
  wp (DeallocTaskMeta (Some p)) (fun _ g' => g' = freed g x p m) g.
Proof.
  intros H Hx Hp Hm Hb. destruct (ok_meta _ _ H _ p Hp) as (m' & Hm' & Hs & _).
  rewrite Z2Nat.id in Hs by lia. assert (m' = m) as -> by congruence. clear Hm'.
  destruct (gen_slot g l x H Hx) as (n & Hn & Hw). unfold freed, gen_of. rewrite Hn.
  unfold DeallocTaskMeta. eapply wp_get_bind; [exact Hm|]. eapply wp_get_bind; [exact Hm|].
  change (rd slot_index m) with (m_slot_index m). change (rd join_butex m) with (m_join_butex m). rewrite Hs.
  apply wp_bind. apply wp_mono with (Q := fun _ g1 =>
    g1 = wr heap (<[p := wr join_butex None m]> (rd heap g)) (drop_join_butex m g)).
  { unfold drop_join_butex. destruct (m_join_butex m) as [b|] eqn:Ej.
    - destruct (Hb m b Hm Ej) as [o Ho]. unfold free. apply wp_act_bind.
      change (rd butexes (rd mem g) !! b) with (rd (sub mem butexes) g !! b). rewrite Ho.
      eapply wp_set_bind; [exact Hm|]. by apply wp_ret.
    - assert (E : wr join_butex None m = m) by (destruct m; simpl in *; by subst).
      rewrite E, insert_id by done. apply wp_ret. by destruct g as [[] ? ? ? ? ?]. }
  intros u g1 ->. set (g1 := wr heap (<[p := wr join_butex None m]> (rd heap g)) (drop_join_butex m g)).
  assert (F : g_generations g1 = g_generations g /\ g_free_slots g1 = g_free_slots g /\
              g_free_head g1 = g_free_head g).
  { unfold g1, drop_join_butex. by destruct (m_join_butex m). }
  destruct F as (F1 & F2 & F3).
  eapply (wp_fetch_at_bind _ _ _ n); [lia|change (g_generations g1 !! Z.to_nat x = Some n); rewrite F1; exact Hn|].
  apply wp_bind.
  eapply wp_mono; [apply (reset_task_eq p _ (wr join_butex None m)); [apply lookup_insert_eq|done]|].
  intros [] g3 ->. apply wp_load_bind, wp_loop_once.
  eapply wp_store_at_bind; [change (0 <= x < Z.of_nat (length (g_free_slots g1))); rewrite F2; pose proof (ok_frees _ _ H); lia|].
  apply wp_cas_weak_bind; [intros _|done]. apply wp_ret.
  assert (Hi : i32 x = x) by (apply i32_small; unfold POOL_SIZE, INT_MIN, INT_MAX in *; lia).
  rewrite Hi. clear F1 F2 F3. subst g1. unfold drop_join_butex.
  destruct (m_join_butex m); simpl; by rewrite insert_insert_eq.
Qed.

Lemma DeallocTaskMeta_frees g l x p (H : pool_ok g l) (Hx : 0 <= x < POOL_SIZE)
    (Hp : g_task_pool g !! Z.to_nat x = Some (Some p)) (Hxl : x ∉ l) (Hb : join_butex_live g p) :
  wp (DeallocTaskMeta (Some p)) (fun _ g' =>
    pool_ok g' (x :: l) /\ gen_of g' x = u32 (gen_of g x + 1) /\
    decode g' (EncodeId x (gen_of g x)) = None /\
    (forall tid q, q <> p -> decode g tid = Some q -> decode g' tid = Some q)) g.
Proof.
  destruct (ok_meta _ _ H _ p Hp) as (m & Hm & Hs & Hg). rewrite Z2Nat.id in Hs by lia.
  destruct (gen_slot g l x H Hx) as (n & Hn & Hw). rewrite Hn in Hg. injection Hg as Hg.
  assert (Hgen : gen_of g x = n) by (unfold gen_of; by rewrite Hn).
  eapply wp_mono; [by eapply DeallocTaskMeta_eq|]. intros _ g' ->.
  set (n' := u32 (gen_of g x + 1)).
  assert (Hn' : n' <> gen_of g x).
  { unfold n', wrapu. intros E. destruct (decide (gen_of g x + 1 < 2 ^ 32)).
    - rewrite Z.mod_small in E by lia. lia.
    - replace (gen_of g x + 1) with (2 ^ 32) in E by lia. rewrite Z.mod_same in E by lia. lia. }
  assert (F : g_task_pool (freed g x p m) = g_task_pool g /\
              g_generations (freed g x p m) = <[Z.to_nat x := n']> (g_generations g) /\
              rd heap (freed g x p m) = <[p := reset_meta n' m]> (rd heap g) /\
              mem_brk (g_mem (freed g x p m)) = mem_brk (g_mem g)).
  { unfold freed, drop_join_butex. by destruct (m_join_butex m). }
  destruct F as (F1 & F2 & F3 & F4).
  assert (Hheap : forall q, q <> p -> rd heap (freed g x p m) !! q = rd heap g !! q)
    by (intros q Hq; by rewrite F3, lookup_insert_ne).
  assert (Ht : forall g0, g_task_pool g0 = g_task_pool g -> g_generations g0 = g_generations (freed g x p m) ->
            g_mem g0 = g_mem (freed g x p m) -> touched p x n' g0 g0).
  { intros g0 _ _ E. split; try done. exists (reset_meta n' m). unfold heap. simpl. rewrite E.
    split; [change (rd heap (freed g x p m) !! p = Some (reset_meta n' m)); rewrite F3; apply lookup_insert_eq|done]. }
  split.
  - set (g0 := wr free_head_ (g_free_head g) (wr free_slots_ (g_free_slots g) (freed g x p m))).
    pose proof (pool_ok_free p x n' g g0 l H Hx Hxl Hp) as G. apply G; try done.
    + by apply Z.mod_pos_bound.
    + by apply Ht.
  - split; [unfold gen_of at 1; rewrite F2, list_lookup_insert_eq; [done|by eapply lookup_lt_Some]|].
    refine (touched_decode p x n' g (freed g x p m) (freed g x p m) l H Hx Hp Hn' F1 Hheap _). by apply Ht.
Qed.

(** Freeing an allocated task puts its slot at the front of the free list,
    bumps the slot generation modulo 2^32, makes the old bthread_t decode to
    null, and leaves every identifier of another task valid. *)
Theorem DeallocTaskMeta_retires_id g l x p (H : pool_ok g l) (Hx : 0 <= x < POOL_SIZE)
    (Hp : g_task_pool g !! Z.to_nat x = Some (Some p)) (Hxl : x ∉ l) (Hb : join_butex_live g p) :
  wp (DeallocTaskMeta (Some p)) (fun _ g' =>
    pool_ok g' (x :: l) /\ gen_of g' x = u32 (gen_of g x + 1) /\
    decode g' (EncodeId x (gen_of g x)) = None /\
    (forall tid q, q <> p -> decode g tid = Some q -> decode g' tid = Some q)) g.
Proof. by apply DeallocTaskMeta_frees. Qed.

(** ** Claiming several slots *)

Lemma pool_ok_drop g l n : pool_ok g l ->
  pool_ok (wr free_head_ (default (-1) (l !! n)) g) (drop n l).
Proof.
  intros []. split; simpl; try done.
  - by rewrite head_lookup, lookup_drop, Nat.add_0_r.
  - intros y [i Hi]%list_elem_of_lookup_1. rewrite lookup_drop in Hi. apply ok_range0.
    by eapply list_elem_of_lookup_2.
  - intros k y Hy. rewrite lookup_drop in *. rewrite Nat.add_succ_r. by apply ok_chain0.
  - eapply sublist_NoDup; [exact ok_nodup0|apply sublist_drop].
Qed.

Lemma collect_slots_ok g l count : pool_ok g l -> 0 < count ->
  let n := Nat.min (Z.to_nat count) 16 in
  wp (collect_slots (g_free_head g) count)
     (fun r g' => r = (take n l, default (-1) (l !! n)) /\ g' = g) g.
Proof.
  intros H Hc n. unfold collect_slots.
  apply (wp_loop_inv (fun st g' => g' = g /\
           exists k, (k <= n)%nat /\ (k <= length l)%nat /\ st = (take k l, default (-1) (l !! k)))
         (fun st _ => n - length st.1)%nat).
  - split; [done|]. exists O. split_and!; [lia|lia|].
    by rewrite (ok_head _ _ H), head_lookup.
  - intros st g' (-> & k & Hkn & Hkl & ->). simpl. rewrite length_take, Nat.min_l by lia.
    destruct (l !! k) as [x|] eqn:Hx; simpl.
    + assert (Hr : 0 <= x < POOL_SIZE) by (apply (ok_range _ _ H); by eapply list_elem_of_lookup_2).
      pose proof (lookup_lt_Some _ _ _ Hx).
      rewrite (proj2 (Z.leb_le 0 x)) by lia. simpl.
      destruct (decide (k < n)%nat) as [Hlt|Hge].
      * rewrite !(proj2 (Z.ltb_lt _ _)) by lia. simpl.
        eapply wp_load_at_bind; [lia|by apply (ok_chain _ _ H)|]. wp_go.
        split; [split; [done|]|].
        -- exists (S k). split_and!; [lia|lia|]. by rewrite (take_S_r _ _ _ Hx).
        -- rewrite length_app, length_take; simpl. lia.
      * assert (k = n) as -> by lia. rewrite Hx.
        destruct (decide (Z.of_nat n < count)).
        -- rewrite (proj2 (Z.ltb_lt _ _)), (proj2 (Z.ltb_ge _ 16)) by lia. rewrite ?andb_false_r; simpl; by wp_go.
        -- rewrite (proj2 (Z.ltb_ge _ count)) by lia. rewrite ?andb_false_r; simpl; by wp_go.
    + apply lookup_ge_None in Hx as Hx'. wp_go. split; [|done].
      rewrite !take_ge, (lookup_ge_None_2 l n) by lia. done.
Qed.

Lemma AllocMultipleSlots_front g l count (H : pool_ok g l) (Hc : 0 < count) :
  let n := Nat.min (Z.to_nat count) 16 in
  wp (AllocMultipleSlots count) (fun r g' =>
    r = take n l /\ pool_ok g' (drop n l) /\
    g_task_pool g' = g_task_pool g /\ g_generations g' = g_generations g) g.
Proof.
  intros n. unfold AllocMultipleSlots. rewrite (proj2 (Z.leb_gt _ _)) by lia.
  apply wp_loop_once. wp_go. pose proof (ok_head _ _ H) as Hh.
  destruct l as [|x l]; simpl in Hh.
  - rewrite Hh. simpl. wp_go. rewrite take_nil, drop_nil. by split.
  - assert (Hx : 0 <= x < POOL_SIZE) by (apply (ok_range _ _ H); by left).
    rewrite (proj2 (Z.ltb_ge _ _)) by lia. apply wp_bind.
    eapply wp_mono; [by apply (collect_slots_ok g (x :: l))|]. fold n.
    intros r g' [-> ->]. simpl.
    assert (Hne : take n (x :: l) <> []) by (destruct n eqn:En; [lia|done]).
    rewrite decide_False by done.
    apply wp_cas_weak_bind; simpl; [intros _|done]. wp_go.
    split; [apply take_ge; rewrite length_take; lia|]. split; [|done].
    exact (pool_ok_drop g (x :: l) n H).
Qed.

(** C36: AllocMultipleSlots(count) takes the first min(count, 16, available)
    slots of the free list in order and leaves the rest, the table and the
    generations alone. *)
Theorem AllocMultipleSlots_takes_front g l count (H : pool_ok g l) (Hc : 0 < count) :
  let n := Nat.min (Z.to_nat count) 16 in
  wp (AllocMultipleSlots count) (fun r g' =>
    r = take n l /\ pool_ok g' (drop n l) /\
    g_task_pool g' = g_task_pool g /\ g_generations g' = g_generations g) g.
Proof. by apply AllocMultipleSlots_front. Qed.

Lemma TaskGroup_ok m : mem_tasks m = ∅ -> pool_ok (TaskGroup m) (Z.of_nat <$> seq 0 (Z.to_nat POOL_SIZE)).
Proof.
  intros Hm. assert (HN : Z.of_nat (Z.to_nat POOL_SIZE) = POOL_SIZE) by done.
  unfold TaskGroup. generalize dependent (Z.to_nat POOL_SIZE). intros n Hn.
  assert (Hn' : (0 < n)%nat) by (unfold POOL_SIZE in *; lia).
  split; simpl.
  - by rewrite length_replicate.
  - rewrite length_app, length_fmap, length_seq; simpl. lia.
  - by rewrite length_replicate.
  - destruct n; [lia|done].
  - intros x (k & -> & Hk)%list_elem_of_fmap. apply elem_of_seq in Hk. lia.
  - intros k x Hk. apply list_lookup_fmap_Some in Hk as (j & -> & Hj).
    apply lookup_seq in Hj as [-> Hlt]. simpl. rewrite Nat2Z.id, list_lookup_fmap.
    destruct (decide (S k = n)) as [E|E].
    + rewrite lookup_app_r by (rewrite length_fmap, length_seq; lia).
      rewrite length_fmap, length_seq, lookup_seq_ge by lia.
      by replace (k - (n - 1))%nat with O by lia.
    + rewrite lookup_app_l by (rewrite length_fmap, length_seq; lia).
      rewrite list_lookup_fmap, !lookup_seq_lt by lia. simpl. f_equal. lia.
  - apply NoDup_fmap_2; [intros ? ? ?; lia|apply NoDup_seq].
  - intros k x [-> _]%lookup_replicate. done.
  - intros k p [? _]%lookup_replicate. done.
  - intros p. unfold heap; simpl. rewrite Hm. by intros [? ?].
Qed.

Lemma all_slots : Z.of_nat <$> seq 0 (Z.to_nat POOL_SIZE) =
  0 :: (Z.of_nat <$> seq 1 (Z.to_nat POOL_SIZE - 1)).
Proof.
  assert (H : (0 < Z.to_nat POOL_SIZE)%nat) by (unfold POOL_SIZE; lia).
  destruct (Z.to_nat POOL_SIZE) as [|n]; [lia|]. simpl. by rewrite Nat.sub_0_r.
Qed.

Lemma AllocTaskMeta_pops_slot_witness :
  wp AllocTaskMeta (fun r g' => exists p, r = Some p /\
    decode g' (EncodeId 0 (gen_of (TaskGroup no_memory) 0)) = Some p) (TaskGroup no_memory).
Proof.
  eapply wp_mono; [exact (AllocTaskMeta_pops_slot _ _ (TaskGroup_ok no_memory eq_refl))|].
  intros r g' H. rewrite all_slots in H. destruct H as (p & Hr & _ & _ & Hd & _). by exists p.
Defined.

Lemma AllocMultipleSlots_takes_front_witness :
  wp (AllocMultipleSlots 3) (fun r g' => r = [0; 1; 2]) (TaskGroup no_memory).
Proof.
  eapply wp_mono;
    [exact (AllocMultipleSlots_takes_front _ _ 3 (TaskGroup_ok no_memory eq_refl) eq_refl)|].
  intros r g' [-> _]. reflexivity.
Defined.

(** The pool after its first allocation. *)
Lemma first_task : exists g p, exec AllocTaskMeta (TaskGroup no_memory) (Some p) g /\
  pool_ok g (Z.of_nat <$> seq 1 (Z.to_nat POOL_SIZE - 1)) /\
  g_task_pool g !! 0%nat = Some (Some p) /\ join_butex_live g p /\ gen_of g 0 = 1.
Proof.
  assert (F : match run 20 AllocTaskMeta (TaskGroup no_memory) with
              | Done r g => (r, g_task_pool g !! 0%nat, m_join_butex <$> rd heap g !! 1%nat, gen_of g 0)
              | _ => (None, None, None, 0)
              end = (Some 1%nat, Some (Some 1%nat), Some None, 1)) by (vm_compute; reflexivity).
  destruct (run 20 AllocTaskMeta (TaskGroup no_memory)) as [r g| | |] eqn:E; try discriminate F.
  apply run_exec in E. remember (m_join_butex <$> rd heap g !! 1%nat) as j eqn:Ej.
  injection F as -> Hp -> Hg.
  exists g, 1%nat. split; [exact E|].
  pose proof (wp_exec _ _ _ _ _ (AllocTaskMeta_pops _ _ (TaskGroup_ok no_memory eq_refl)) E) as H.
  rewrite all_slots in H. destruct H as (p & _ & H & _). split; [exact H|]. split; [exact Hp|].
  split; [|exact Hg]. intros m b Hm Hb. rewrite Hm in Ej. simpl in Ej. congruence.
Qed.

Lemma DeallocTaskMeta_retires_id_witness : exists g p,
  decode g (EncodeId 0 1) = Some p /\
  wp (DeallocTaskMeta (Some p)) (fun _ g' => decode g' (EncodeId 0 1) = None) g.
Proof.
  destruct first_task as (g & p & _ & H & Hp & Hj & Hg). exists g, p. split.
  - destruct (ok_meta _ _ H 0%nat p Hp) as (m & Hm & _ & Hmg).
    rewrite decode_EncodeId by (unfold POOL_SIZE; lia).
    change (Z.to_nat 0) with 0%nat. rewrite Hp, Hm.
    unfold gen_of in Hg. change (Z.to_nat 0) with 0%nat in Hg. rewrite Hmg in Hg.
    simpl in Hg. rewrite Hg. reflexivity.
  - assert (Hn : (0 : Z) ∉ Z.of_nat <$> seq 1 (Z.to_nat POOL_SIZE - 1)).
    { intros (k & Hk & Hin)%list_elem_of_fmap. apply elem_of_seq in Hin. lia. }
    eapply wp_mono; [exact (DeallocTaskMeta_retires_id g _ 0 p H ltac:(done) Hp Hn Hj)|].
    intros u g' (_ & _ & Hd & _). rewrite Hg in Hd. exact Hd.
Defined.

(** ** Concurrent allocation *)

Definition alloc_twice : prog group (option ptr) :=
  _ <- AllocTaskMeta ;; AllocTaskMeta.

(** Takes two tasks and gives the first one back; the second is returned. *)
Definition alloc_two_free_one : prog group (option ptr) :=
  a <- AllocTaskMeta ;; b <- AllocTaskMeta ;; DeallocTaskMeta a ;;; Ret b.

(** There is an interleaving of one thread allocating with another that
    allocates two tasks and frees one, from the initial pool, after which both
    threads own the same task (the ABA problem of the free list). *)
Theorem free_list_reuse_hands_out_one_task_twice : exists ts g p,
  reachable ([alloc_twice; alloc_two_free_one], TaskGroup no_memory) (ts, g) /\
  ts !! 0%nat = Some (Ret (Some p)) /\ ts !! 1%nat = Some (Ret (Some p)).
Proof.
  destruct (sched_results_reachable (fun _ => tt) (turn 0 3 ++ turn 1 42 ++ turn 0 13)
    ([alloc_twice; alloc_two_free_one], TaskGroup no_memory) [Some (Some 2%nat); Some (Some 2%nat)] tt)
    as (ts & g & Hr & Hts & _); [vm_compute; reflexivity|].
  exists ts, g, 2%nat. split; [done|]. split; by eapply result_lookup.
Qed.

(** ** Handles

    A client that allocates and frees tasks: the identifiers it holds with
    their tasks, and those it gave up. *)
Record client := Client { live : list (Z * ptr); dead : list Z }.

Inductive pool_op := OpAlloc | OpFree (i : nat).

Definition do_pool_op (o : pool_op) (c : client) : prog group client :=
  match o with
  | OpAlloc =>
      r <- AllocTaskMeta ;;
      match r with
      | None => Ret c
      | Some p =>
          slot <- get heap p slot_index ;;
          gen <- get heap p generation ;;
          Ret (Client (live c ++ [(EncodeId slot gen, p)]) (dead c))
      end
  | OpFree i =>
      match live c !! i with
      | None => Ret c
      | Some (tid, p) => DeallocTaskMeta (Some p) ;;; Ret (Client (delete i (live c)) (tid :: dead c))
      end
  end.

Fixpoint do_pool_ops (os : list pool_op) (c : client) : prog group client :=
  match os with [] => Ret c | o :: os => c <- do_pool_op o c ;; do_pool_ops os c end.

(** [l] is the free list, [xs] the slots of the tasks held. *)
Record handles (c : client) (g : group) (l xs : list Z) : Prop := {
  h_pool : pool_ok g l;
  h_slots : NoDup (l ++ xs) /\ Z.of_nat (length (l ++ xs)) = POOL_SIZE /\ forall x, x ∈ xs -> 0 <= x < POOL_SIZE;
  h_live : Forall2 (fun x h => h.1 = EncodeId x (gen_of g x) /\ g_task_pool g !! Z.to_nat x = Some (Some h.2))
             xs (live c);
  h_join : forall p m, rd heap g !! p = Some m -> m_join_butex m = None;
  h_gens : forall x, 0 <= x < POOL_SIZE -> 1 <= gen_of g x <= 1 + Z.of_nat (length (dead c));
  h_dead : forall tid, tid ∈ dead c -> exists x k, 0 <= x < POOL_SIZE /\ 0 <= k < gen_of g x /\ tid = EncodeId x k;
}.

Lemma decode_slot g l x k : pool_ok g l -> 0 <= x < POOL_SIZE -> 0 <= k < 2 ^ 32 ->
  decode g (EncodeId x k) = match g_task_pool g !! Z.to_nat x with
                            | Some (Some p) => if gen_of g x =? k then Some p else None
                            | Some None | None => None
                            end.
Proof.
  intros H Hx Hk. rewrite decode_EncodeId by done.
  destruct (g_task_pool g !! Z.to_nat x) as [[p|]|] eqn:E; try done.
  destruct (ok_meta _ _ H _ p E) as (m & -> & _ & Hg). unfold gen_of. by rewrite Hg.
Qed.

Lemma handles_alloc c g l xs : handles c g l xs ->
  wp (do_pool_op OpAlloc c) (fun c' g' =>
    (exists l' xs', handles c' g' l' xs') /\ (length (dead c') <= S (length (dead c)))%nat) g.
Proof.
  intros [H1 (H2 & H3 & H4) H5 H6 H7 H8]. unfold do_pool_op. destruct l as [|x l].
  { apply wp_bind. eapply wp_mono; [by eapply AllocTaskMeta_pops|]. intros r g' [-> ->]. apply wp_ret.
    split; [by exists [], xs|lia]. }
  assert (Hx : 0 <= x < POOL_SIZE) by (apply (ok_range _ _ H1); by left).
  apply wp_bind. eapply wp_mono; [apply wp_and; [by eapply AllocTaskMeta_pops|by eapply AllocTaskMeta_memory]|].
  intros r g' [(p & Hr & G1 & _) (-> & G2 & G3 & _ & G4)]. injection Hr as <-.
  set (p := slot_task g x) in *. set (m := slot_content g x) in *.
  assert (Hm : rd heap g' !! p = Some m) by (rewrite G3; apply lookup_insert_eq).
  eapply wp_get_bind; [exact Hm|]. eapply wp_get_bind; [exact Hm|]. apply wp_ret.
  split; [exists l, (xs ++ [x])|simpl; lia].
  assert (Hgen : forall y, gen_of g' y = gen_of g y) by (intros y; unfold gen_of; by rewrite G4).
  assert (Hxs : x ∉ xs).
  { rewrite list.NoDup_app in H2. destruct H2 as (_ & H2 & _). apply H2. by left. }
  assert (Hlen : (Z.to_nat x < length (g_task_pool g))%nat).
  { pose proof (ok_pool _ _ H1). lia. }
  split; simpl; try done.
  - split; [|split].
    + rewrite app_assoc, (Permutation_app_comm (l ++ xs) [x]). exact H2.
    + rewrite length_app in H3 |- *. rewrite length_app. simpl in *. lia.
    + intros y [Hy|Hy]%elem_of_app; [by apply H4|]. apply list_elem_of_singleton in Hy. by subst.
  - apply Forall2_app; [|constructor; [|constructor]].
    + apply Forall2_same_length_lookup_2; [by eapply Forall2_length|].
      intros i y h Hy Hh. destruct (Forall2_lookup_lr _ _ _ _ _ _ H5 Hy Hh) as [E1 E2].
      assert (Hyx : y <> x) by (intros ->; apply Hxs; by eapply list_elem_of_lookup_2).
      assert (0 <= y < POOL_SIZE) by (apply H4; by eapply list_elem_of_lookup_2).
      rewrite Hgen, G2, list_lookup_insert_ne by lia. done.
    + simpl. rewrite Hgen, G2, list_lookup_insert_eq by done. done.
  - intros q o. change (rd heap g' !! q = Some o -> m_join_butex o = None). rewrite G3. destruct (decide (q = p)) as [->|Hne].
    + rewrite lookup_insert_eq. intros [= <-]. unfold m, slot_content. simpl.
      destruct (g_task_pool g !! Z.to_nat x) as [[r|]|] eqn:E; try done.
      change (m_join_butex (default new_TaskMeta (rd heap g !! r)) = None).
      destruct (rd heap g !! r) as [o|] eqn:Eo; [exact (H6 _ _ Eo)|done].
    + rewrite lookup_insert_ne by done. by apply H6.
  - intros y Hy. rewrite Hgen. by apply H7.
  - intros tid Ht. destruct (H8 tid Ht) as (y & k & ?). exists y, k. by rewrite Hgen.
Qed.

Lemma handles_free c g l xs i : handles c g l xs -> Z.of_nat (length (dead c)) < 2 ^ 32 - 2 ->
  wp (do_pool_op (OpFree i) c) (fun c' g' =>
    (exists l' xs', handles c' g' l' xs') /\ (length (dead c') <= S (length (dead c)))%nat) g.
Proof.
  intros H Hn. pose proof H as [H1 (H2 & H3 & H4) H5 H6 H7 H8]. unfold do_pool_op.
  destruct (live c !! i) as [[tid p]|] eqn:Ei; [|apply wp_ret; split; [by exists l, xs|lia]].
  destruct (Forall2_lookup_r _ _ _ _ _ H5 Ei) as (x & Hxi & Et & Hp). simpl in Et, Hp.
  assert (Hx : 0 <= x < POOL_SIZE) by (apply H4; by eapply list_elem_of_lookup_2).
  destruct (ok_meta _ _ H1 _ p Hp) as (m & Hm & _).
  assert (Hb : join_butex_live g p).
  { intros m' b Hm' Hj. pose proof (H6 _ _ Hm'). congruence. }
  assert (Hxl : x ∉ l).
  { intros Hin. rewrite list.NoDup_app in H2. destruct H2 as (_ & H2 & _). apply (H2 x Hin).
    by eapply list_elem_of_lookup_2. }
  apply wp_bind. eapply wp_mono.
  { apply wp_and; [by apply (DeallocTaskMeta_frees g l x p)|by apply (DeallocTaskMeta_eq g l x p m)]. }
  intros _ g' [(G1 & G2 & _) E]. apply wp_ret. split; [exists (x :: l), (delete i xs)|simpl; lia].
  pose proof (H6 _ _ Hm) as Hj.
  assert (F : g_task_pool g' = g_task_pool g /\ rd heap g' = <[p := reset_meta (u32 (gen_of g x + 1)) m]> (rd heap g) /\
              g_generations g' = <[Z.to_nat x := u32 (gen_of g x + 1)]> (g_generations g)).
  { rewrite E. unfold freed, drop_join_butex. by rewrite Hj. }
  destruct F as (F1 & F2 & F3). pose proof (H7 x Hx) as Hgx.
  rewrite wrapu_small in G2, F2, F3 by lia.
  assert (Hgen : forall y, 0 <= y -> y <> x -> gen_of g' y = gen_of g y).
  { intros y Hy Hne. unfold gen_of. by rewrite F3, list_lookup_insert_ne by lia. }
  assert (Eperm : x :: l ++ delete i xs ≡ₚ l ++ xs).
  { rewrite Permutation_middle. f_equiv. symmetry. exact (delete_Permutation xs i x Hxi). }
  assert (Hxd : x ∉ delete i xs).
  { pose proof H2 as Hx2. rewrite <- Eperm in Hx2. apply list.NoDup_cons in Hx2 as [Hx2 _]. set_solver. }
  assert (Elen : Z.of_nat (length ((x :: l) ++ delete i xs)) = POOL_SIZE).
  { change ((x :: l) ++ delete i xs) with (x :: l ++ delete i xs). by rewrite Eperm. }
  split; simpl; try done.
  - split; [by rewrite Eperm|]. split.
    + exact Elen.
    + intros y Hy. apply H4. by eapply list.elem_of_submseteq, submseteq_delete.
  - pose proof (list.Forall2_delete _ _ _ i H5) as H5'.
    apply Forall2_same_length_lookup_2; [exact (list.Forall2_length _ _ _ H5')|]. intros k y h Hy Hh.
    destruct (Forall2_lookup_lr _ _ _ _ _ _ H5' Hy Hh) as [E1 E2]. apply list_elem_of_lookup_2 in Hy.
    assert (y <> x) by (by intros ->).
    assert (0 <= y < POOL_SIZE) by (apply H4; by eapply list.elem_of_submseteq, submseteq_delete).
    by rewrite Hgen, F1 by (lia || done).
  - intros q o. change (rd heap g' !! q = Some o -> m_join_butex o = None). rewrite F2.
    destruct (decide (q = p)) as [->|Hne];
      [rewrite lookup_insert_eq; by intros [= <-]|rewrite lookup_insert_ne by done; by apply H6].
  - intros y Hy. destruct (decide (y = x)) as [->|Hne]; [rewrite G2; lia|].
    rewrite Hgen by (lia || done). pose proof (H7 y Hy). lia.
  - intros t [->|Ht]%elem_of_cons.
    + exists x, (gen_of g x). split; [done|]. split; [rewrite G2; lia|done].
    + destruct (H8 t Ht) as (y & k & Hy & Hk & ->). exists y, k. split; [done|]. split; [|done].
      destruct (decide (y = x)) as [->|Hne]; [rewrite G2; lia|]. by rewrite Hgen by (lia || done).
Qed.


Lemma handles_op o c g l xs : handles c g l xs -> Z.of_nat (length (dead c)) < 2 ^ 32 - 2 ->
  wp (do_pool_op o c) (fun c' g' =>
    (exists l' xs', handles c' g' l' xs') /\ (length (dead c') <= S (length (dead c)))%nat) g.
Proof. destruct o; intros H Hn; [by eapply handles_alloc|by eapply handles_free]. Qed.

(** What the handles of a client are good for. *)
Lemma handles_decode c g l xs : handles c g l xs -> Z.of_nat (length (dead c)) < 2 ^ 32 - 1 ->
  (forall h, h ∈ live c -> decode g h.1 = Some h.2) /\ NoDup (snd <$> live c) /\
  (forall tid, tid ∈ dead c -> decode g tid = None).
Proof.
  intros [H1 (H2 & H3 & H4) H5 H6 H7 H8] Hn.
  assert (Hw : forall x, 0 <= x < POOL_SIZE -> 0 <= gen_of g x < 2 ^ 32) by (intros x Hx; specialize (H7 x Hx); lia).
  split; [|split].
  - intros h [i Hi]%list_elem_of_lookup_1. destruct (Forall2_lookup_r _ _ _ _ _ H5 Hi) as (x & Hx & -> & Hp).
    assert (0 <= x < POOL_SIZE) by (apply H4; by eapply list_elem_of_lookup_2).
    rewrite (decode_slot g l) by auto. by rewrite Hp, Z.eqb_refl.
  - apply NoDup_alt. intros i j p Hi Hj. rewrite !list_lookup_fmap in Hi, Hj.
    apply fmap_Some in Hi as (h & Hi & ->). apply fmap_Some in Hj as (h' & Hj & E).
    destruct (Forall2_lookup_r _ _ _ _ _ H5 Hi) as (x & Hx & _ & Hp).
    destruct (Forall2_lookup_r _ _ _ _ _ H5 Hj) as (y & Hy & _ & Hq).
    rewrite <- E in Hq. pose proof (pool_inj _ _ _ _ _ H1 Hp Hq) as Exy.
    assert (0 <= x < POOL_SIZE) by (apply H4; by eapply list_elem_of_lookup_2).
    assert (0 <= y < POOL_SIZE) by (apply H4; by eapply list_elem_of_lookup_2).
    assert (x = y) as -> by lia. apply list.NoDup_app in H2 as (_ & _ & H2). by eapply NoDup_lookup.
  - intros tid Ht. destruct (H8 tid Ht) as (x & k & Hx & Hk & ->). specialize (Hw x Hx).
    rewrite (decode_slot g l) by (lia || done).
    destruct (g_task_pool g !! Z.to_nat x) as [[p|]|]; [|done..]. by rewrite (proj2 (Z.eqb_neq _ _)) by lia.
Qed.

Lemma handles_start m : mem_tasks m = ∅ ->
  handles (Client [] []) (TaskGroup m) (Z.of_nat <$> seq 0 (Z.to_nat POOL_SIZE)) [].
Proof.
  intros Hm. pose proof (TaskGroup_ok m Hm) as H. split; try done.
  - rewrite app_nil_r. split; [apply (ok_nodup _ _ H)|]. split; [|intros x Hx; by apply not_elem_of_nil in Hx].
    rewrite length_fmap, length_seq. done.
  - intros p o. unfold heap. simpl. by rewrite Hm.
  - intros x Hx. destruct (gen_slot _ _ x H Hx) as (n & Hn & _). unfold gen_of. rewrite Hn. simpl.
    apply lookup_replicate in Hn as [-> _]. lia.
  - intros tid Ht. by apply not_elem_of_nil in Ht.
Qed.

(** C10: After any sequence of fewer than 2^32 - 2 allocations and frees from
    the initial pool the pool is well-formed, every identifier held decodes to
    its task, no two held tasks are the same, every identifier given up
    decodes to null, and the free list has exactly the slots not held. *)
Theorem task_ids_are_sound m os (Hm : mem_tasks m = ∅) (Hn : Z.of_nat (length os) < 2 ^ 32 - 2) :
  wp (do_pool_ops os (Client [] [])) (fun c g =>
    (forall tid p, (tid, p) ∈ live c -> wp (DecodeId tid) (fun r g' => r = Some p /\ g' = g) g) /\
    NoDup (snd <$> live c) /\
    (forall tid, tid ∈ dead c -> wp (DecodeId tid) (fun r g' => r = None /\ g' = g) g) /\
    exists l, pool_ok g l /\ Z.of_nat (length l + length (live c)) = POOL_SIZE) (TaskGroup m).
Proof.
  assert (G : forall os c g l xs, handles c g l xs -> Z.of_nat (length (dead c) + length os) < 2 ^ 32 - 2 ->
    wp (do_pool_ops os c) (fun c' g' => (exists l' xs', handles c' g' l' xs') /\
      Z.of_nat (length (dead c')) < 2 ^ 32 - 2) g).
  { clear. intros os. induction os as [|o os IH]; intros c g l xs H Hn; simpl in *.
    - apply wp_ret. split; [by exists l, xs|lia].
    - apply wp_bind. eapply wp_mono; [eapply handles_op; [exact H|lia]|].
      intros c' g' [(l' & xs' & H') Hd]. eapply IH; [exact H'|lia]. }
  eapply wp_mono; [eapply G; [by apply handles_start|simpl; lia]|].
  intros c g [(l & xs & H) Hd]. destruct (handles_decode _ _ _ _ H ltac:(lia)) as (D1 & D2 & D3).
  pose proof (h_pool _ _ _ _ H) as Hp. split; [|split; [exact D2|split]].
  - intros tid p Hin. specialize (D1 _ Hin). simpl in D1. rewrite <- D1. by eapply DecodeId_decode.
  - intros tid Hin. rewrite <- (D3 _ Hin). by eapply DecodeId_decode.
  - exists l. split; [exact Hp|]. destruct (h_slots _ _ _ _ H) as (_ & E & _). rewrite length_app in E.
    by rewrite <- (list.Forall2_length _ _ _ (h_live _ _ _ _ H)).
Qed.

Example task_ids_are_sound_witness :
  wp (do_pool_ops [OpAlloc; OpAlloc; OpFree 0; OpAlloc] (Client [] [])) (fun c g =>
    (forall tid p, (tid, p) ∈ live c -> wp (DecodeId tid) (fun r g' => r = Some p /\ g' = g) g) /\
    NoDup (snd <$> live c) /\
    (forall tid, tid ∈ dead c -> wp (DecodeId tid) (fun r g' => r = None /\ g' = g) g) /\
    exists l, pool_ok g l /\ Z.of_nat (length l + length (live c)) = POOL_SIZE) (TaskGroup no_memory).
Proof. apply (task_ids_are_sound no_memory [OpAlloc; OpAlloc; OpFree 0; OpAlloc]); [reflexivity|simpl; lia]. Defined.

(** ** Writing to a task *)

(** [g'] is [g] with [m'] instead of [m] at [p]. *)
Record updated (p : ptr) (m m' : TaskMeta) (g g' : group) : Prop := {
  up_pool : g_task_pool g' = g_task_pool g;
  up_frees : g_free_slots g' = g_free_slots g;
  up_head : g_free_head g' = g_free_head g;
  up_gens : g_generations g' = g_generations g;
  up_brk : (mem_brk (g_mem g) <= mem_brk (g_mem g'))%nat;
  up_was : rd heap g !! p = Some m;
  up_heap : rd heap g' = <[p := m']> (rd heap g);
  up_slot : m_slot_index m' = m_slot_index m;
  up_gen : m_generation m' = m_generation m;
}.

Lemma pool_ok_updated p m m' g g' l : updated p m m' g g' -> pool_ok g l -> pool_ok g' l.
Proof.
  intros [] H. destruct H. split; rewrite ?up_pool0, ?up_frees0, ?up_head0, ?up_gens0; try done.
  - intros k q Hq. destruct (ok_meta0 k q Hq) as (o & Ho & Hs & Hg). rewrite up_heap0.
    destruct (decide (q = p)) as [->|Hne].
    + rewrite lookup_insert_eq. exists m'. assert (o = m) as -> by congruence.
      split; [done|]. rewrite up_slot0, up_gen0. done.
    + rewrite lookup_insert_ne by done. by exists o.
  - intros q Hq. rewrite up_heap0 in Hq. enough (q < mem_brk (g_mem g))%nat by lia. apply ok_brk0.
    destruct (decide (q = p)) as [->|Hne]; [by exists m|by rewrite lookup_insert_ne in Hq].
Qed.

Lemma decode_updated p m m' g g' tid : updated p m m' g g' -> decode g' tid = decode g tid.
Proof.
  intros []. unfold decode. cbv zeta. rewrite up_pool0. destruct (_ >=? _); [done|].
  destruct (g_task_pool g !! _) as [[q|]|]; try done. rewrite up_heap0.
  destruct (decide (q = p)) as [->|Hne]; [|by rewrite lookup_insert_ne].
  by rewrite lookup_insert_eq, up_was0, up_gen0.
Qed.

Lemma updated_trans p m m' m'' g g' g'' : updated p m m' g g' -> updated p m' m'' g' g'' -> updated p m m'' g g''.
Proof.
  intros [] []. split; try congruence; [lia|]. by rewrite up_heap1, up_heap0, insert_insert_eq.
Qed.

End TaskGroup.
