(* ===== verification/ObjectPool.v ===== *)
(** * The object pool

    Model of [include/bthread/pool/object_pool.hpp]: a Treiber stack of spare
    objects with a size limit.  Objects are allocated and deleted for real, so
    touching a deleted object is undefined behaviour. *)

From Stdlib Require Import ZArith Lia.
From stdpp Require Import base numbers list gmap relations option.
From S2P Require Import Prelude.

Open Scope Z_scope.

Module ObjectPool.

(** The pool, with the live objects ([pool_next] kept apart from the rest of
    the object) and the address of the next allocation. *)
Record pool (T : Type) := Pool {
  p_objs : gmap ptr T;
  p_next : gmap ptr (option ptr);
  p_brk : ptr;
  p_max_size : Z;
  p_head : option ptr;
  p_count : Z;
}.
Arguments Pool {T}.
Arguments p_objs {T}.
Arguments p_next {T}.
Arguments p_brk {T}.
Arguments p_max_size {T}.
Arguments p_head {T}.
Arguments p_count {T}.

Section Pool.
Context {T : Type} (new_T : T).

Definition Pool_eta (p : pool T) : pool T :=
  Pool (p_objs p) (p_next p) (p_brk p) (p_max_size p) (p_head p) (p_count p).

Definition objs : field (pool T) (gmap ptr T) := ltac:(lens Pool_eta (@p_objs T)).
Definition pool_nexts : field (pool T) (gmap ptr (option ptr)) := ltac:(lens Pool_eta (@p_next T)).
Definition brk : field (pool T) ptr := ltac:(lens Pool_eta (@p_brk T)).
Definition max_size_ : field (pool T) Z := ltac:(lens Pool_eta (@p_max_size T)).
Definition head_ : field (pool T) (option ptr) := ltac:(lens Pool_eta (@p_head T)).
Definition count_ : field (pool T) Z := ltac:(lens Pool_eta (@p_count T)).

(** The member [pool_next] of a live object. *)
Definition pool_next : field (option ptr) (option ptr) := Field (fun v => v) (fun v _ => v).

Definition ObjectPool (max_size : Z) : pool T := Pool ∅ ∅ 1%nat max_size None 0.

(** [new T()] and [delete]. *)
Definition new_obj : prog (pool T) ptr :=
  act (fun p => let o := p_brk p in
                Go o (Pool (<[o := new_T]> (p_objs p)) (<[o := None]> (p_next p)) (1 + o)%nat
                        (p_max_size p) (p_head p) (p_count p))).
Definition delete_obj (o : ptr) : prog (pool T) unit :=
  act (fun p => match p_objs p !! o with
                | Some _ => Go tt (Pool (delete o (p_objs p)) (delete o (p_next p)) (p_brk p)
                                     (p_max_size p) (p_head p) (p_count p))
                | None => Bad
                end).

Definition Acquire : prog (pool T) ptr :=
  obj <- load head_ ;;
  loop obj (fun obj =>
    match obj with
    | Some o =>
        next <- get pool_nexts o pool_next ;;
        c <- cas_weak head_ (Some o) next ;;
        if c.1 : bool then
          fetch count_ (fun n => u64 (n - 1)) ;;;
          set pool_nexts o pool_next None ;;;
          Ret (inr o)
        else Ret (inl c.2)
    | None => o <- new_obj ;; Ret (inr o)
    end).

Definition Release (obj : option ptr) : prog (pool T) unit :=
  match obj with
  | None => Ret tt
  | Some o =>
      current_count <- load count_ ;;
      max_size <- load max_size_ ;;
      if current_count >=? max_size then delete_obj o
      else
        set pool_nexts o pool_next None ;;;
        expected <- load head_ ;;
        loop expected (fun expected =>
          set pool_nexts o pool_next expected ;;;
          c <- cas_weak head_ expected (Some o) ;;
          if c.1 : bool then Ret (inr tt) else Ret (inl c.2)) ;;;
        fetch count_ (fun n => u64 (n + 1)) ;;;
        Ret tt
  end.

Definition size : prog (pool T) Z := load count_.
Definition max_size : prog (pool T) Z := load max_size_.

(** The destructor: every pooled object is deleted. *)
Definition Drain : prog (pool T) unit :=
  current <- load head_ ;;
  loop current (fun current =>
    match current with
    | Some o => next <- get pool_nexts o pool_next ;; delete_obj o ;;; Ret (inl next)
    | None => Ret (inr tt)
    end).

(** ** The pool as a stack *)

Record repr (p : pool T) (l : list ptr) : Prop := {
  repr_head : p_head p = head l;
  repr_link : forall k o, l !! k = Some o -> p_next p !! o = Some (l !! S k);
  repr_nodup : NoDup l;
  repr_count : p_count p = Z.of_nat (length l);
  repr_limit : p_count p <= p_max_size p < 2 ^ 64;
  repr_live : forall o, is_Some (p_next p !! o) <-> is_Some (p_objs p !! o);
  repr_brk : forall o, is_Some (p_objs p !! o) -> (o < p_brk p)%nat;
}.

Lemma ObjectPool_repr n : 0 <= n < 2 ^ 64 -> repr (ObjectPool n) [].
Proof.
  intros Hn. split; simpl; try done; try lia; try apply NoDup_nil_2;
    intros o; rewrite ?lookup_empty; [by split; intros [? ?]|by intros [? ?]].
Qed.

Lemma repr_live_in p l o : repr p l -> o ∈ l -> is_Some (p_objs p !! o).
Proof.
  intros H [k Hk]%list_elem_of_lookup_1. apply (repr_live _ _ H).
  rewrite (repr_link _ _ H k o Hk). by eexists.
Qed.

(** What an operation on object [o] leaves alone. *)
Definition others (o : ptr) (p p' : pool T) : Prop :=
  p_max_size p' = p_max_size p /\ forall o', o' <> o -> p_objs p' !! o' = p_objs p !! o'.

Lemma Acquire_repr p l : repr p l ->
  wp Acquire (fun o p' => others o p p' /\ (o ∉ tail l) /\ is_Some (p_objs p' !! o) /\
    match l with
    | o' :: l' => o = o' /\ repr p' l' /\ p_objs p' = p_objs p
    | [] => p_objs p !! o = None /\ p_objs p' !! o = Some new_T /\ repr p' []
    end) p.
Proof.
  intros H. unfold Acquire. wp_go. apply wp_loop_once. rewrite (repr_head _ _ H).
  destruct l as [|o l]; simpl.
  - unfold new_obj. wp_go. set (o := p_brk p). assert (Ho : p_objs p !! o = None).
    { destruct (p_objs p !! o) eqn:E; [|done]. assert (o < p_brk p)%nat; [|unfold o in *; lia].
      apply (repr_brk _ _ H). by eexists. }
    rewrite lookup_insert_eq. split.
    { split; [done|]. intros o' Ho'. simpl. by rewrite lookup_insert_ne. }
    split; [by apply not_elem_of_nil|]. split; [by eexists|]. split; [done|]. split; [done|].
    destruct H. split; simpl; try done.
    + intros o'. destruct (decide (o' = o)) as [->|Hne];
        [by rewrite !lookup_insert_eq|by rewrite !lookup_insert_ne].
    + intros o' Ho'. destruct (decide (o' = o)) as [->|Hne]; [unfold o; lia|].
      rewrite lookup_insert_ne in Ho' by done. apply repr_brk0 in Ho'. unfold o. lia.
  - pose proof (repr_link _ _ H O o eq_refl) as Hl.
    eapply wp_get_bind; [exact Hl|]. apply wp_cas_weak_bind; simpl;
      [intros _|by rewrite (repr_head _ _ H)]. wp_go.
    eapply wp_set_bind; [exact Hl|]. wp_go.
    pose proof (repr_nodup _ _ H) as [Hol Hnd]%list.NoDup_cons. split; [by split|]. split; [done|].
    split; [apply (repr_live_in p (o :: l)); [done|by left]|]. split; [done|]. split; [|done].
    destruct H. split; simpl; try done.
    + by rewrite head_lookup.
    + intros k o' Ho'. assert (o <> o') by (intros ->; apply Hol; by eapply list_elem_of_lookup_2).
      rewrite lookup_insert_ne by done. exact (repr_link0 (S k) o' Ho').
    + simpl in repr_count0. rewrite wrapu_small by lia. lia.
    + simpl in repr_count0. rewrite wrapu_small by lia. lia.
    + intros o'. rewrite <- repr_live0. destruct (decide (o' = o)) as [->|Hne];
        [rewrite lookup_insert_eq, Hl; by split|by rewrite lookup_insert_ne].
Qed.

Lemma Release_repr p l o : repr p l -> o ∉ l -> is_Some (p_objs p !! o) ->
  wp (Release (Some o)) (fun _ p' => others o p p' /\
    if decide (Z.of_nat (length l) < p_max_size p)
    then repr p' (o :: l) /\ p_objs p' = p_objs p
    else repr p' l /\ p_objs p' = delete o (p_objs p)) p.
Proof.
  intros H Hol Ho. unfold Release. wp_go. rewrite (repr_count _ _ H).
  destruct (Z.geb_spec (Z.of_nat (length l)) (p_max_size p)) as [Hfull|Hroom].
  - unfold delete_obj. apply wp_act_last. destruct Ho as [v ->].
    rewrite decide_False by lia.
    split; [split; [done|]; intros o' Ho'; simpl; by rewrite lookup_delete_ne|]. split; [|done].
    destruct H. split; simpl; try done.
    + intros k o' Ho'. rewrite lookup_delete_ne; [by apply repr_link0|].
      intros ->. apply Hol. by eapply list_elem_of_lookup_2.
    + intros o'. destruct (decide (o' = o)) as [->|Hne];
        [rewrite !lookup_delete_eq; by split; intros [? ?]|by rewrite !lookup_delete_ne].
    + intros o' Ho'. destruct (decide (o' = o)) as [->|Hne];
        [rewrite lookup_delete_eq in Ho'; by destruct Ho'|]. rewrite lookup_delete_ne in Ho' by done.
      by apply repr_brk0.
  - pose proof (proj2 (repr_live _ _ H o) Ho) as [nx Hnx].
    eapply wp_set_bind; [exact Hnx|]. wp_go. apply wp_bind, wp_loop_once.
    eapply wp_set_bind; [apply lookup_insert_eq|]. apply wp_cas_weak_bind; simpl; [intros _|done].
    wp_go. rewrite insert_insert_eq, decide_True by lia. split; [by split|]. split; [|done].
    pose proof (repr_count _ _ H). pose proof (repr_limit _ _ H).
    destruct H. split; simpl; try done.
    + intros [|k] o' Ho'; simpl in *.
      * injection Ho' as <-. by rewrite lookup_insert_eq, <- head_lookup, repr_head0.
      * rewrite lookup_insert_ne; [by apply repr_link0|].
        intros ->. apply Hol. by eapply list_elem_of_lookup_2.
    + by constructor.
    + rewrite wrapu_small by lia. lia.
    + rewrite wrapu_small by lia. lia.
    + intros o'. rewrite <- repr_live0. destruct (decide (o' = o)) as [->|Hne];
        [rewrite lookup_insert_eq, Hnx; by split|by rewrite lookup_insert_ne].
Qed.
End Pool.

(** ** A client that holds several objects *)

Inductive op := OpAcquire | OpRelease (k : nat).

(** [OpRelease k] gives back the [k]-th object held. *)
Fixpoint client {T} (new_T : T) (os : list op) (held : list ptr) : prog (pool T) (list ptr) :=
  match os with
  | [] => Ret held
  | OpAcquire :: os => o <- Acquire new_T ;; client new_T os (held ++ [o])
  | OpRelease k :: os => Release (held !! k) ;;; client new_T os (delete k held)
  end.

(** The objects held are live, distinct, and not in the pool; and every live
    object is in the pool or held. *)
Definition owned {T} (p : pool T) (l held : list ptr) : Prop :=
  repr p l /\ NoDup held /\ (forall o, o ∈ held -> (o ∉ l) /\ is_Some (p_objs p !! o)) /\
  (forall o, is_Some (p_objs p !! o) -> o ∈ l \/ o ∈ held).

Lemma ObjectPool_owned {T} n : 0 <= n < 2 ^ 64 -> owned (ObjectPool n : pool T) [] [].
Proof.
  intros Hn. split; [by apply ObjectPool_repr|]. split; [apply NoDup_nil_2|]. split.
  - intros o Ho. by apply not_elem_of_nil in Ho.
  - intros o. simpl. rewrite lookup_empty. by intros [].
Qed.

(** The live objects are those in the pool and those held, each once. *)
Lemma owned_all {T} (p : pool T) l held : owned p l held -> elements (dom (p_objs p)) ≡ₚ l ++ held.
Proof.
  intros (H & Hnd & Hh & Ha). apply NoDup_Permutation.
  - apply NoDup_elements.
  - apply list.NoDup_app. split; [apply (repr_nodup _ _ H)|]. split; [|done].
    intros o Ho Hin. by apply (proj1 (Hh o Hin)).
  - intros o. rewrite elem_of_elements, elem_of_dom, elem_of_app. split; [apply Ha|].
    intros [Ho|Ho]; [by eapply repr_live_in|by apply Hh].
Qed.

(** Writing the contents of a live object. *)
Lemma owned_set {T} (p : pool T) l held o v : owned p l held -> is_Some (p_objs p !! o) ->
  owned (wr objs (<[o := v]> (p_objs p)) p) l held.
Proof.
  intros ([] & Hnd & Hh & Ha) Ho.
  assert (Hs : forall o', is_Some (<[o := v]> (p_objs p) !! o') <-> is_Some (p_objs p !! o')).
  { intros o'. destruct (decide (o = o')) as [<-|Hne];
      [rewrite lookup_insert_eq; by split|by rewrite lookup_insert_ne]. }
  split; [split; simpl; try done|split; [done|split]].
  - intros o'. by rewrite Hs.
  - intros o'. rewrite Hs. apply repr_brk0.
  - intros o' Ho'. simpl. rewrite Hs. by apply Hh.
  - intros o'. simpl. rewrite Hs. apply Ha.
Qed.

Lemma owned_acquire {T} (new_T : T) p l held : owned p l held ->
  wp (Acquire new_T) (fun o p' => exists l', owned p' l' (held ++ [o]) /\ others o p p') p.
Proof.
  intros (H & Hnd & Hh & Ha). eapply wp_mono; [by apply Acquire_repr|].
  intros o p' ([Hmax Hoth] & Hol & Hlive & Hl).
  assert (Hnew : (o ∉ held) /\ exists l', repr p' l' /\ (o ∉ l') /\ (forall o', o' ∈ l' -> o' ∈ l) /\
    forall o', o' ∈ l -> o' = o \/ o' ∈ l').
  { destruct l as [|o' l'].
    - destruct Hl as (Hn & _ & H'). split.
      + intros Ho. destruct (Hh o Ho) as [_ [? ?]]. congruence.
      + exists []. split; [done|]. split; [apply not_elem_of_nil|]. split; [done|]. by intros ? ?%not_elem_of_nil.
    - destruct Hl as (-> & H' & _). split.
      + intros Ho. destruct (Hh o' Ho) as [Hno _]. apply Hno. by left.
      + exists l'. split; [done|]. split; [done|]. split; [intros; by right|]. intros x Hx. by apply elem_of_cons. }
  destruct Hnew as (Hno & l' & H' & Hol' & Hsub & Hsup). exists l'. split; [|by split]. split; [done|].
  split; [|split].
  - apply list.NoDup_app. split; [done|]. split; [|apply NoDup_singleton].
    by intros x Hx ->%list_elem_of_singleton.
  - intros x [Hx|Hx%list_elem_of_singleton]%elem_of_app.
    + destruct (Hh x Hx) as [Hxl Hxlive]. split; [intros Hin; apply Hxl, Hsub, Hin|].
      rewrite Hoth; [done|]. by intros ->.
    + subst. by split.
  - intros x Hx. rewrite elem_of_app, list_elem_of_singleton. destruct (decide (x = o)) as [->|Hne]; [auto|].
    rewrite Hoth in Hx by done. destruct (Ha x Hx) as [[->|?]%Hsup|?]; auto.
Qed.

(** Every object but the [k]-th one held is unchanged. *)
Definition others_at {T} (held : list ptr) (k : nat) (p p' : pool T) : Prop :=
  p_max_size p' = p_max_size p /\
  forall o, held !! k <> Some o -> p_objs p' !! o = p_objs p !! o.

Lemma owned_release {T} (p : pool T) l held k : owned p l held ->
  wp (Release (held !! k)) (fun _ p' => exists l', owned p' l' (delete k held) /\
                                                 others_at held k p p') p.
Proof.
  intros (H & Hnd & Hh & Ha). destruct (held !! k) as [o|] eqn:Hk.
  - assert (Ho : o ∈ held) by (by eapply list_elem_of_lookup_2). destruct (Hh o Ho) as [Hol Hlive].
    pose proof (delete_Permutation _ _ _ Hk) as Hperm. rewrite Hperm in Hnd.
    apply list.NoDup_cons in Hnd as [Hod Hnd].
    eapply wp_mono; [by apply (Release_repr _ l o)|]. intros u p' ([Hmax Hoth] & Hd).
    assert (Hrest : forall x, x ∈ delete k held -> x <> o /\ (x ∉ l) /\ is_Some (p_objs p' !! x)).
    { intros x Hx. assert (Hxo : x <> o) by (by intros ->). rewrite (Hoth x Hxo).
      split; [done|]. apply Hh. rewrite Hperm. by right. }
    assert (Hat : others_at held k p p').
    { split; [done|]. intros o' Ho'. apply Hoth. congruence. }
    assert (Hall : forall x, is_Some (p_objs p' !! x) -> x = o \/ x ∈ l \/ x ∈ delete k held).
    { intros x Hx. destruct (decide (x = o)) as [->|Hne]; [by left|]. rewrite Hoth in Hx by done.
      destruct (Ha x Hx) as [?|Hin]; [auto|]. rewrite Hperm in Hin. set_solver. }
    case_decide; destruct Hd as [H' Hobj]; eexists; (split; [|exact Hat]); (split; [exact H'|]);
      (split; [done|]); (split; [intros x Hx; destruct (Hrest x Hx) as (? & ? & ?); (split; [|done]); set_solver|]);
      intros x Hx; destruct (Hall x Hx) as [->|[?|?]]; auto; [left; by left|left; by right|].
    rewrite Hobj, lookup_delete_eq in Hx. by destruct Hx.
  - apply (wp_ret tt). exists l. split; [|by split].
    assert (delete k held = held) as ->; [|done].
    apply lookup_ge_None in Hk. rewrite delete_take_drop, take_ge, drop_ge, app_nil_r by lia. done.
Qed.

(** C32: Run by one thread, any sequence of Acquire and Release calls keeps
    every live object in exactly one place, the pool or the hands of the
    client, so that none is leaked, never touches a deleted object, and keeps
    at most max_size spare objects. *)
Theorem pool_objects_have_one_owner {T} (new_T : T) os p l held :
  owned p l held ->
  wp (client new_T os held) (fun held' p' => exists l',
    owned p' l' held' /\ elements (dom (p_objs p')) ≡ₚ l' ++ held' /\
    Z.of_nat (length l') <= p_max_size p) p.
Proof.
  revert p l held; induction os as [|[|k] os IH]; intros p l held H; simpl.
  - wp_go. exists l. split; [done|]. split; [by apply owned_all|]. destruct H as [H _].
    rewrite <- (repr_count _ _ H). apply (repr_limit _ _ H).
  - apply wp_bind. eapply wp_mono; [by apply (owned_acquire new_T p l)|]. intros o p' (l' & H' & <- & _).
    by apply (IH p' l').
  - apply wp_bind. eapply wp_mono; [by apply (owned_release p l)|]. intros u p' (l' & H' & <- & _).
    by apply (IH p' l').
Qed.

Lemma pool_objects_have_one_owner_witness :
  wp (client 0%Z [OpAcquire; OpAcquire; OpAcquire; OpRelease 1; OpRelease 0; OpAcquire] [])
     (fun held p' => exists l', owned p' l' held /\ elements (dom (p_objs p')) ≡ₚ l' ++ held /\
       Z.of_nat (length l') <= 1) (ObjectPool 1).
Proof.
  apply (pool_objects_have_one_owner 0%Z _ (ObjectPool 1) [] []). apply ObjectPool_owned. lia.
Defined.

(** ** Concurrent use *)

Definition acquire_one : prog (pool Z) unit := _ <- Acquire 0 ;; Ret tt.
(** Takes two objects and gives both back, the last one first. *)
Definition acquire_and_return_two : prog (pool Z) unit :=
  a <- Acquire 0 ;; b <- Acquire 0 ;; Release (Some b) ;;; Release (Some a) ;;; Ret tt.

(** A pool of at most one object that holds object 1. *)
Definition one_spare : pool Z := Pool {[1%nat := 0]} {[1%nat := None]} 2%nat 1 (Some 1%nat) 1.

Lemma one_spare_repr : repr one_spare [1%nat].
Proof.
  split; simpl; try done.
  - intros [|k] o Hk; simpl in *; simplify_eq. by rewrite lookup_singleton_eq.
  - apply NoDup_singleton.
  - intros o. destruct (decide (o = 1%nat)) as [->|];
      [rewrite !lookup_singleton_eq; by split; eexists|by rewrite !lookup_singleton_ne].
  - intros o Ho. destruct (decide (o = 1%nat)) as [->|]; [lia|].
    rewrite lookup_singleton_ne in Ho by done. by destruct Ho.
Qed.

(** There is an interleaving of two threads on a pool with one spare object in
    which Acquire reads pool_next of an object the other thread has deleted.
    *)
Theorem Acquire_may_touch_a_deleted_object :
  repr one_spare [1%nat] /\
  exists ts p t, reachable ([acquire_one; acquire_and_return_two], one_spare) (ts, p) /\
    ts !! 0%nat = Some t /\ is_bad t p = true.
Proof.
  split; [apply one_spare_repr|].
  apply (sched_is_bad_reachable 0 (turn 0 2 ++ turn 1 20)). vm_compute. reflexivity.
Qed.

End ObjectPool.
