(* ===== verification/ExecutionQueue.v ===== *)
(** * The execution queue

    Model of [ExecutionQueue] ([include/bthread/queue/execution_queue.hpp],
    [src/bthread/queue/execution_queue.cpp]): wrappers taken from an object pool
    and queued in an [MpscQueue]. *)

From Stdlib Require Import ZArith Lia.
From stdpp Require Import base numbers list gmap relations option.
From S2P Require Import Prelude Mpsc ObjectPool.

Open Scope Z_scope.

Module ExecutionQueue.

(** A [std::function<void()>]: empty, or a function named by a number.  A
    [TaskWrapper] is its function; its links are kept by the queue and by the
    pool.  [q_log] records the functions called, in order. *)
Abbreviation Task := (option Z) (only parsing).

Record exec_queue := ExecQueue {
  q_queue : MpscQueue.mpsc;
  q_pool : ObjectPool.pool Task;
  q_stopped : bool;
  q_pending : bool;
  q_log : list Z;
}.

Definition ExecQueue_eta (q : exec_queue) : exec_queue :=
  ExecQueue (q_queue q) (q_pool q) (q_stopped q) (q_pending q) (q_log q).

Definition queue_ : field exec_queue MpscQueue.mpsc := ltac:(lens ExecQueue_eta q_queue).
Definition pool_ : field exec_queue (ObjectPool.pool Task) := ltac:(lens ExecQueue_eta q_pool).
Definition stopped_ : field exec_queue bool := ltac:(lens ExecQueue_eta q_stopped).
Definition pending_ : field exec_queue bool := ltac:(lens ExecQueue_eta q_pending).
Definition log : field exec_queue (list Z) := ltac:(lens ExecQueue_eta q_log).

#[export] Instance queue_ok : FieldOk queue_.
Proof. split; [done..|by intros []]. Qed.
#[export] Instance pool_ok : FieldOk pool_.
Proof. split; [done..|by intros []]. Qed.

Definition wrappers : field exec_queue (gmap ptr Task) := sub pool_ ObjectPool.objs.
(** The member [task] of a wrapper. *)
Definition task_ : field Task Task := Field (fun v => v) (fun v _ => v).

Definition ExecutionQueue : exec_queue :=
  ExecQueue (MpscQueue.Mpsc None None ∅) (ObjectPool.ObjectPool 64) false false [].

(** [task()]. *)
Definition invoke (f : Z) : prog exec_queue unit := fetch log (fun l => l ++ [f]) ;;; Ret tt.

Definition ExecuteOne : prog exec_queue bool :=
  stopped <- load stopped_ ;;
  if stopped : bool then Ret false
  else
    wrapper <- zoom queue_ MpscQueue.Pop ;;
    match wrapper with
    | None => store pending_ false ;;; Ret false
    | Some w =>
        task <- get wrappers w task_ ;;
        set wrappers w task_ None ;;;
        zoom pool_ (ObjectPool.Release (Some w)) ;;;
        match task with
        | Some f => invoke f ;;; Ret true
        | None => Ret false
        end
    end.

Definition Execute : prog exec_queue Z :=
  loop 0 (fun executed =>
    more <- ExecuteOne ;;
    if more : bool then
      if executed =? INT_MAX then undefined else Ret (inl (executed + 1))
    else Ret (inr executed)).

Definition Stop : prog exec_queue unit :=
  store stopped_ true ;;; Execute ;;; Ret tt.

Definition Submit (task : Task) : prog exec_queue unit :=
  stopped <- load stopped_ ;;
  if stopped : bool then Ret tt
  else
    wrapper <- zoom pool_ (ObjectPool.Acquire None) ;;
    set wrappers wrapper task_ task ;;;
    zoom queue_ (MpscQueue.Push wrapper) ;;;
    store pending_ true ;;;
    Ret tt.

Definition HasPending : prog exec_queue bool := load pending_.

(** ** The functions waiting, in order *)

Definition repr (q : exec_queue) (fs : list Task) : Prop :=
  exists ws l, MpscQueue.repr (q_queue q) ws /\ ObjectPool.owned (q_pool q) l ws /\
    Forall2 (fun w f => ObjectPool.p_objs (q_pool q) !! w = Some f) ws fs.

Lemma ExecutionQueue_repr : repr ExecutionQueue [].
Proof.
  exists [], []. split; [apply MpscQueue.mpsc_repr_empty|]. split; [|constructor].
  by apply ObjectPool.ObjectPool_owned.
Qed.

Lemma Forall2_objs (m m' : gmap ptr Task) ws fs :
  Forall2 (fun w f => m !! w = Some f) ws fs -> (forall w, w ∈ ws -> m' !! w = m !! w) ->
  Forall2 (fun w f => m' !! w = Some f) ws fs.
Proof.
  induction 1 as [|w f ws fs Hw _ IH]; intros H; constructor.
  - rewrite H; [done|by left].
  - apply IH. intros w' Hw'. apply H. by right.
Qed.

Lemma Submit_repr q fs f : repr q fs -> q_stopped q = false ->
  wp (Submit f) (fun _ q' => repr q' (fs ++ [f]) /\ q_log q' = q_log q /\
                             q_stopped q' = false /\ q_pending q' = true) q.
Proof.
  intros (ws & l & Hq & Hp & Hf) Hs. unfold Submit. wp_go. rewrite Hs.
  apply wp_zoom_bind; [apply _|]. simpl.
  pose proof (ObjectPool.owned_acquire None _ _ _ Hp) as Hown.
  destruct Hp as [Hp [Hnd Hh]].
  pose proof (ObjectPool.Acquire_repr None _ _ Hp) as Hacq.
  destruct Hown as (o & p' & Hex & l' & Hown & _).
  apply (wp_exec _ _ _ _ _ Hacq) in Hex as Hpost. exists o, p'. split; [exact Hex|].
  destruct Hpost as ([_ Hoth] & _ & Ho & _). destruct Ho as [v Ho].
  eapply wp_set_bind; [exact Ho|].
  destruct Hown as (Hp' & Hnd' & Hh') eqn:E. clear E.
  apply list.NoDup_app in Hnd' as Hnd2. destruct Hnd2 as (_ & Hno & _).
  assert (How : o ∉ ws) by (intros Hin; apply (Hno o Hin); by left).
  apply wp_zoom_bind; [apply _|]. simpl. eapply wp_mono; [by apply MpscQueue.mpsc_push_repr|].
  intros u q' [Hq' _]. wp_go. split; [|done].
  exists (ws ++ [o]), l'. split; [done|]. split; [by apply ObjectPool.owned_set; [|by eexists]|]. simpl.
  apply Forall2_app; [|constructor; [by rewrite lookup_insert_eq|constructor]].
  eapply Forall2_objs; [exact Hf|]. intros w Hw.
  assert (w <> o) by (by intros ->). by rewrite lookup_insert_ne, Hoth.
Qed.

Lemma ExecuteOne_repr q fs : repr q fs -> q_stopped q = false ->
  wp ExecuteOne (fun r q' => q_stopped q' = false /\
    match fs with
    | [] => r = false /\ q_log q' = q_log q /\ q_pending q' = false /\ repr q' []
    | Some f :: fs' => r = true /\ q_log q' = q_log q ++ [f] /\ repr q' fs'
    | None :: fs' => r = false /\ q_log q' = q_log q /\ repr q' fs'
    end) q.
Proof.
  intros (ws & l & Hq & Hp & Hf) Hs. unfold ExecuteOne. wp_go. rewrite Hs.
  apply wp_zoom_bind; [apply _|]. simpl. eapply wp_mono; [by apply MpscQueue.mpsc_pop_repr|].
  intros r q' (-> & Hq' & _). destruct Hf as [|w f ws fs Hw Hf]; simpl in *.
  - wp_go. split; [done|]. split_and!; try done. exists [], l. by split_and!.
  - eapply wp_get_bind; [exact Hw|]. eapply wp_set_bind; [exact Hw|].
    apply wp_zoom_bind; [apply _|]. simpl.
    assert (Hp' : ObjectPool.owned (wr ObjectPool.objs (<[w := None]> (ObjectPool.p_objs (q_pool q)))
                                      (q_pool q)) l (w :: ws)) by (apply ObjectPool.owned_set; [done|by eexists]).
    pose proof (ObjectPool.owned_release _ _ _ 0%nat Hp') as (u & p2 & Hex & l2 & Hown & _).
    destruct Hp' as (Hr' & Hnd & Hh & _). destruct (Hh w) as [Hwl Hwlive]; [by left|].
    pose proof (wp_exec _ _ _ _ _ (ObjectPool.Release_repr _ l w Hr' Hwl Hwlive) Hex) as [[_ Hoth] _].
    simpl in Hex. exists u, p2. split; [exact Hex|].
    assert (Hrepr : forall lg, repr (ExecQueue q' p2 (q_stopped q) (q_pending q) lg) fs).
    { intros lg. exists ws, l2. split; [done|]. split; [exact Hown|]. simpl.
      eapply Forall2_objs; [exact Hf|]. intros w' Hw'.
      assert (w' <> w) by (intros ->; by apply list.NoDup_cons in Hnd as [? _]).
      rewrite Hoth by done. simpl. by rewrite lookup_insert_ne. }
    rewrite Hs in Hrepr. destruct f as [f|]; unfold invoke; wp_go; rewrite Hs; by split_and!.
Qed.

(** The functions run before the queue is empty or an empty function is met,
    and what is left after them. *)
Fixpoint run_prefix (fs : list Task) : list Z * list Task :=
  match fs with
  | [] => ([], [])
  | Some f :: fs => let '(ran, rest) := run_prefix fs in (f :: ran, rest)
  | None :: fs => ([], fs)
  end.

Lemma Execute_run q fs : repr q fs -> q_stopped q = false -> Z.of_nat (length fs) <= INT_MAX ->
  wp Execute (fun n q' => n = Z.of_nat (length (run_prefix fs).1) /\
    q_log q' = q_log q ++ (run_prefix fs).1 /\ repr q' (run_prefix fs).2 /\ q_stopped q' = false) q.
Proof.
  intros H Hs Hlen. unfold Execute.
  assert (Hgen : forall fs k q, repr q fs -> q_stopped q = false -> 0 <= k ->
    k + Z.of_nat (length fs) <= INT_MAX ->
    wp (loop k (fun executed => more <- ExecuteOne ;;
          if more : bool then if executed =? INT_MAX then undefined else Ret (inl (executed + 1))
          else Ret (inr executed)))
       (fun n q' => n = k + Z.of_nat (length (run_prefix fs).1) /\
          q_log q' = q_log q ++ (run_prefix fs).1 /\ repr q' (run_prefix fs).2 /\
          q_stopped q' = false) q).
  { clear. intros fs. induction fs as [|[f|] fs IH]; intros k q H Hs Hk Hlen;
      apply wp_loop_once, wp_bind; (eapply wp_mono; [by apply ExecuteOne_repr|]);
      intros r q' [Hs' Hr]; simpl in *.
    - destruct Hr as (-> & Hlog & _ & H'). wp_go. rewrite app_nil_r. split_and!; try done. lia.
    - destruct Hr as (-> & Hlog & H').
      rewrite (proj2 (Z.eqb_neq _ _)) by lia. wp_go.
      eapply wp_mono; [apply IH; [done..|lia|lia]|]. intros n q2 (-> & Hlog2 & H2 & Hs2).
      destruct (run_prefix fs) as [ran rest]; simpl in *. split_and!; try done; [lia|].
      by rewrite Hlog2, Hlog, <- app_assoc.
    - destruct Hr as (-> & Hlog & H'). wp_go. rewrite app_nil_r. split_and!; try done. lia. }
  apply (Hgen fs 0 q); [done..|lia].
Qed.

Fixpoint submit_all (fs : list Task) : prog exec_queue unit :=
  match fs with
  | [] => Ret tt
  | f :: fs => Submit f ;;; submit_all fs
  end.

Lemma submit_all_repr gs q fs : repr q fs -> q_stopped q = false ->
  wp (submit_all gs) (fun _ q' => repr q' (fs ++ gs) /\ q_log q' = q_log q /\ q_stopped q' = false) q.
Proof.
  revert q fs; induction gs as [|g gs IH]; intros q fs H Hs; simpl.
  - wp_go. by rewrite app_nil_r.
  - apply wp_bind. eapply wp_mono; [by apply Submit_repr|]. intros u q' (H' & Hlog & Hs' & _).
    eapply wp_mono; [by apply IH|]. intros u' q2 (H2 & Hlog2 & Hs2).
    rewrite <- app_assoc in H2. split_and!; try done. congruence.
Qed.

(** C31: Execute calls the submitted functions in submission order up to the
    first empty one, which it takes out without calling it and where it stops,
    returns how many it called, and leaves the rest queued; when none is empty
    it executes them all. *)
Theorem Execute_runs_in_submission_order gs :
  Z.of_nat (length gs) <= INT_MAX ->
  wp (submit_all gs ;;; Execute) (fun n q' =>
    q_log q' = (run_prefix gs).1 /\ n = Z.of_nat (length (q_log q')) /\
    repr q' (run_prefix gs).2) ExecutionQueue.
Proof.
  intros Hlen. apply wp_bind.
  eapply wp_mono; [apply (submit_all_repr gs _ [] ExecutionQueue_repr eq_refl)|].
  intros u q (H & Hlog & Hs). simpl in H.
  eapply wp_mono; [by apply Execute_run|]. intros n q' (-> & Hlog' & H' & _).
  rewrite Hlog', Hlog. by split_and!.
Qed.

Lemma Execute_runs_in_submission_order_witness :
  wp (submit_all [Some 7; Some 8; None; Some 9] ;;; Execute) (fun n q' =>
    q_log q' = [7; 8] /\ n = Z.of_nat (length (q_log q')) /\ repr q' [Some 9]) ExecutionQueue.
Proof.
  exact (Execute_runs_in_submission_order [Some 7; Some 8; None; Some 9] ltac:(done)).
Defined.

(** Stop calls none of the functions still queued: they stay in the queue. *)
Theorem Stop_runs_nothing gs :
  wp (submit_all gs ;;; Stop) (fun _ q' => q_log q' = [] /\ repr q' gs) ExecutionQueue.
Proof.
  apply wp_bind.
  eapply wp_mono; [apply (submit_all_repr gs _ [] ExecutionQueue_repr eq_refl)|].
  intros u q (H & Hlog & _). unfold Stop, Execute. wp_go. apply wp_bind, wp_loop_once.
  unfold ExecuteOne. wp_go. split; [exact Hlog|].
  destruct H as (ws & l & H1 & H2 & H3). by exists ws, l.
Qed.

End ExecutionQueue.
