(* ===== verification/TimerHeap.v ===== *)
(** * The timer heap

    Model of the binary heap of [src/bthread/detail/timer_thread.cpp]:
    [ShardSiftUp], [ShardSiftDown], [ShardPopFromHeap] and their copies
    [SiftUp], [SiftDown], [AddToHeap], [PopFromHeap], [RemoveFromHeap] for the
    global heap.  A heap is the vector of entry addresses; [None] is an index
    out of range or an entry that is not live. *)

From Stdlib Require Import ZArith Lia ZifyNat.
From stdpp Require Import base numbers list gmap relations option sorting.
From S2P Require Import Prelude.

Open Scope Z_scope.

(** [lia] on the indices [2 * i + 1], [2 * i + 2] and [(i - 1) / 2]. *)
Ltac Zify.zify_post_hook ::= Z.to_euclidean_division_equations.
#[local] Arguments Nat.div : simpl never.

Module TimerHeap.

(** [TimerEntry] without the pool link. *)
Record TimerEntry := Entry {
  e_callback : Z;
  e_arg : Z;
  e_deadline_us : Z;
  e_id : Z;
  e_cancelled : bool;
}.

Definition Entry_eta (e : TimerEntry) : TimerEntry :=
  Entry (e_callback e) (e_arg e) (e_deadline_us e) (e_id e) (e_cancelled e).

Definition callback : field TimerEntry Z := ltac:(lens Entry_eta e_callback).
Definition arg : field TimerEntry Z := ltac:(lens Entry_eta e_arg).
Definition deadline_us : field TimerEntry Z := ltac:(lens Entry_eta e_deadline_us).
Definition id : field TimerEntry Z := ltac:(lens Entry_eta e_id).
Definition cancelled : field TimerEntry bool := ltac:(lens Entry_eta e_cancelled).

Section Heap.
(** The live entries. *)
Context (es : gmap ptr TimerEntry).

(** [heap[i]->deadline_us]. *)
Definition deadline_at (heap : list ptr) (i : nat) : option Z :=
  p ← heap !! i; e ← es !! p; Some (e_deadline_us e).

(** [std::swap(heap[i], heap[j])]. *)
Definition swap (heap : list ptr) (i j : nat) : option (list ptr) :=
  x ← heap !! i; y ← heap !! j; Some (<[i := y]> (<[j := x]> heap)).

(** The loop runs at most [fuel] times; [idx] rounds are enough. *)
Fixpoint sift_up (fuel : nat) (heap : list ptr) (idx : nat) : option (list ptr) :=
  match fuel with
  | O => Some heap
  | S fuel =>
      if decide (0 < idx)%nat then
        let parent := ((idx - 1) / 2)%nat in
        dp ← deadline_at heap parent;
        di ← deadline_at heap idx;
        if dp <=? di then Some heap
        else heap' ← swap heap idx parent; sift_up fuel heap' parent
      else Some heap
  end.
Definition ShardSiftUp (heap : list ptr) (idx : nat) : option (list ptr) := sift_up idx heap idx.

(** [if (c < n && heap[c]->deadline_us < heap[smallest]->deadline_us) smallest = c;]. *)
Definition pick_smaller (heap : list ptr) (c smallest : nat) : option nat :=
  if decide (c < length heap)%nat then
    dc ← deadline_at heap c;
    ds ← deadline_at heap smallest;
    Some (if dc <? ds then c else smallest)
  else Some smallest.

(** At most [length heap] rounds. *)
Fixpoint sift_down (fuel : nat) (heap : list ptr) (idx : nat) : option (list ptr) :=
  match fuel with
  | O => Some heap
  | S fuel =>
      s1 ← pick_smaller heap (2 * idx + 1) idx;
      smallest ← pick_smaller heap (2 * idx + 2) s1;
      if decide (smallest = idx) then Some heap
      else heap' ← swap heap idx smallest; sift_down fuel heap' smallest
  end.
Definition ShardSiftDown (heap : list ptr) (idx : nat) : option (list ptr) :=
  sift_down (length heap) heap idx.

(** [heap[0] = heap.back(); heap.pop_back();]. *)
Definition ShardPopFromHeap (heap : list ptr) : option (list ptr) :=
  match list.last heap with
  | None => Some heap
  | Some b =>
      let heap := take (length heap - 1) (<[O := b]> heap) in
      if decide (heap = []) then Some heap else ShardSiftDown heap 0
  end.

(** The copies that work on the global [heap_]. *)
Definition SiftUp (heap_ : list ptr) (idx : nat) : option (list ptr) := ShardSiftUp heap_ idx.
Definition SiftDown (heap_ : list ptr) (idx : nat) : option (list ptr) := ShardSiftDown heap_ idx.
Definition AddToHeap (heap_ : list ptr) (entry : ptr) : option (list ptr) :=
  SiftUp (heap_ ++ [entry]) (length heap_).
Definition PopFromHeap (heap_ : list ptr) : option (option ptr * list ptr) :=
  match heap_ with
  | [] => Some (None, heap_)
  | root :: _ => heap' ← ShardPopFromHeap heap_; Some (Some root, heap')
  end.
Definition RemoveFromHeap (heap_ : list ptr) (entry : ptr) : option (list ptr) :=
  match fst <$> list_find (fun p => p = entry) heap_ with
  | None => Some heap_
  | Some idx =>
      b ← list.last heap_;
      let heap_ := take (length heap_ - 1) (<[idx := b]> heap_) in
      if decide (0 < idx)%nat then
        di ← deadline_at heap_ idx;
        dp ← deadline_at heap_ ((idx - 1) / 2);
        if di <? dp then SiftUp heap_ idx else SiftDown heap_ idx
      else SiftDown heap_ idx
  end.

(** ** Order *)

Definition key (p : ptr) : Z := from_option e_deadline_us 0 (es !! p).

Definition live (heap : list ptr) : Prop := forall p, p ∈ heap -> is_Some (es !! p).

(** No entry is due before its parent. *)
Definition heap_ordered (h : list ptr) : Prop :=
  forall i x y, (0 < i)%nat -> h !! i = Some x -> h !! ((i - 1) / 2)%nat = Some y -> key y <= key x.

Lemma deadline_at_key h i p : live h -> h !! i = Some p -> deadline_at h i = Some (key p).
Proof.
  intros Hl Hp. unfold deadline_at, key. rewrite Hp; simpl.
  destruct (Hl p) as [e ->]; [by eapply list_elem_of_lookup_2|done].
Qed.

Lemma swap_lookup h i j x y : h !! i = Some x -> h !! j = Some y ->
  exists h', swap h i j = Some h' /\ h' ≡ₚ h /\ length h' = length h /\
    forall k, h' !! k = if decide (k = i) then Some y else if decide (k = j) then Some x else h !! k.
Proof.
  intros Hi Hj. unfold swap. rewrite Hi, Hj; simpl. eexists. split; [done|].
  pose proof (lookup_lt_Some _ _ _ Hi). pose proof (lookup_lt_Some _ _ _ Hj).
  assert (Hk : forall k, <[i := y]> (<[j := x]> h) !! k =
    if decide (k = i) then Some y else if decide (k = j) then Some x else h !! k).
  { intros k. case_decide as E; [subst; apply list_lookup_insert_eq; by rewrite length_insert|].
    rewrite list_lookup_insert_ne by done. case_decide as E'; [subst; by apply list_lookup_insert_eq|].
    by rewrite list_lookup_insert_ne. }
  split; [|split; [by rewrite !length_insert|exact Hk]].
  by apply Permutation_insert_swap.
Qed.

Lemma live_perm h h' : live h -> h' ≡ₚ h -> live h'.
Proof. intros H Hp p Hin. apply H. by rewrite <- Hp. Qed.

(** Ordered but for the edge above [j]; the grandparent edges across [j] hold. *)
Definition ordered_above (h : list ptr) (j : nat) : Prop :=
  (forall i x y, (0 < i)%nat -> i <> j -> h !! i = Some x -> h !! ((i - 1) / 2)%nat = Some y ->
     key y <= key x) /\
  (forall i x z, (0 < i)%nat -> ((i - 1) / 2)%nat = j -> (0 < j)%nat -> h !! i = Some x ->
     h !! ((j - 1) / 2)%nat = Some z -> key z <= key x).

Lemma sift_up_ok fuel h j : live h -> (j < length h)%nat -> (j <= fuel)%nat -> ordered_above h j ->
  exists h', sift_up fuel h j = Some h' /\ h' ≡ₚ h /\ heap_ordered h'.
Proof.
  revert h j; induction fuel as [|fuel IH]; intros h j Hl Hj Hf [Ho Hg]; simpl.
  - exists h. split; [done|]. split; [done|]. intros i x y Hi Hx Hy. by apply (Ho i x y Hi ltac:(lia)).
  - case_decide as H0; [|exists h; split; [done|split; [done|]]; intros i x y Hi Hx Hy; by apply (Ho i x y Hi ltac:(lia))].
    destruct (lookup_lt_is_Some_2 h j Hj) as [x Hx].
    destruct (lookup_lt_is_Some_2 h ((j - 1) / 2)) as [y Hy]; [lia|].
    rewrite (deadline_at_key _ _ _ Hl Hy), (deadline_at_key _ _ _ Hl Hx); simpl.
    destruct (Z.leb_spec (key y) (key x)) as [Hle|Hgt].
    + exists h. split; [done|]. split; [done|]. intros i a b Hi Ha Hb.
      destruct (decide (i = j)) as [->|]; [congruence|by eapply Ho].
    + destruct (swap_lookup h j ((j - 1) / 2) x y Hx Hy) as (h' & -> & Hp & Hlen & Hk); simpl.
      destruct (IH h' ((j - 1) / 2)%nat) as (h2 & -> & Hp2 & Hord).
      * by eapply live_perm.
      * lia.
      * lia.
      * split.
        -- intros i a b Hi Hne. rewrite !Hk. intros Ha Hb.
           destruct (decide (i = j)) as [->|Hij].
           { rewrite decide_False, decide_True in Hb by lia. simplify_eq. lia. }
           rewrite decide_False in Ha by done.
           destruct (decide (((i - 1) / 2)%nat = j)) as [E|E].
           { simplify_eq. eapply (Hg i); [lia..|exact Ha|exact Hy]. }
           destruct (decide (((i - 1) / 2)%nat = ((j - 1) / 2)%nat)) as [E'|E'].
           { simplify_eq. assert (key y <= key a); [|lia].
             apply (Ho i); [lia|done|done|by rewrite E']. }
           by eapply Ho.
        -- intros i a z Hi Hpi Hpp. rewrite !Hk. intros Ha Hz.
           rewrite decide_False, decide_False in Hz by lia.
           assert (Hzy : key z <= key y) by (apply (Ho ((j - 1) / 2)%nat); [lia|lia|done|done]).
           destruct (decide (i = j)) as [->|Hij]; [by simplify_eq|].
           rewrite decide_False in Ha by lia.
           assert (key y <= key a); [|lia]. apply (Ho i); [lia|done|done|by rewrite Hpi].
      * exists h2. split; [done|]. split; [by rewrite Hp2|done].
Qed.

Lemma ShardSiftUp_ok h j : live h -> (j < length h)%nat -> ordered_above h j ->
  exists h', ShardSiftUp h j = Some h' /\ h' ≡ₚ h /\ heap_ordered h'.
Proof. intros. by apply sift_up_ok. Qed.

(** Ordered but for the edges below [j]. *)
Definition ordered_below (h : list ptr) (j : nat) : Prop :=
  (forall i x y, (0 < i)%nat -> ((i - 1) / 2)%nat <> j -> h !! i = Some x ->
     h !! ((i - 1) / 2)%nat = Some y -> key y <= key x) /\
  (forall i x z, (0 < i)%nat -> ((i - 1) / 2)%nat = j -> (0 < j)%nat -> h !! i = Some x ->
     h !! ((j - 1) / 2)%nat = Some z -> key z <= key x).

Lemma pick_smaller_ok h c s x : live h -> h !! s = Some x ->
  exists s' x', pick_smaller h c s = Some s' /\ h !! s' = Some x' /\ (s' = s \/ s' = c) /\
    key x' <= key x /\ (s' <> s -> key x' < key x) /\
    forall y, h !! c = Some y -> key x' <= key y.
Proof.
  intros Hl Hs. unfold pick_smaller. case_decide as Hc.
  - destruct (lookup_lt_is_Some_2 h c Hc) as [y Hy].
    rewrite (deadline_at_key _ _ _ Hl Hy), (deadline_at_key _ _ _ Hl Hs); simpl.
    destruct (Z.ltb_spec (key y) (key x)).
    + exists c, y. split_and!; try done; [by right|lia|]. intros; simplify_eq; lia.
    + exists s, x. split_and!; try done; [by left|]. intros; simplify_eq; lia.
  - exists s, x. split_and!; try done; [by left|].
    intros y Hy%lookup_lt_Some. lia.
Qed.

Lemma sift_down_ok fuel h j : live h -> (j < length h)%nat -> (length h <= fuel + j)%nat ->
  ordered_below h j -> exists h', sift_down fuel h j = Some h' /\ h' ≡ₚ h /\ heap_ordered h'.
Proof.
  revert h j; induction fuel as [|fuel IH]; intros h j Hl Hj Hf [Ho Hg]; [lia|].
  destruct (lookup_lt_is_Some_2 h j Hj) as [x Hx]. cbn [sift_down].
  destruct (pick_smaller_ok h (2 * j + 1) j x Hl Hx) as (s1 & x1 & -> & Hx1 & Hs1 & Hle1 & Hlt1 & Hm1).
  simpl. change (j + (j + 0) + 2)%nat with (2 * j + 2)%nat.
  destruct (pick_smaller_ok h (2 * j + 2) s1 x1 Hl Hx1) as (s & xs & E2 & Hxs & Hs & Hle2 & Hlt2 & Hm2).
  unfold mbind in *. rewrite E2. simpl.
  assert (Hmin : forall i y, (0 < i)%nat -> ((i - 1) / 2)%nat = j -> h !! i = Some y -> key xs <= key y).
  { intros i y Hi Hp Hy. assert (i = 2 * j + 1 \/ i = 2 * j + 2)%nat as [-> | ->] by lia.
    - pose proof (Hm1 y Hy). lia.
    - by apply Hm2. }
  case_decide as Hsj.
  - subst s. simplify_eq. exists h. split; [done|]. split; [done|]. intros i a b Hi Ha Hb.
    destruct (decide (((i - 1) / 2)%nat = j)) as [E|]; [|by eapply Ho].
    rewrite E in Hb. simplify_eq. by eapply Hmin.
  - assert (Hsc : (s = 2 * j + 1 \/ s = 2 * j + 2)%nat) by (destruct Hs, Hs1; subst; auto; done).
    assert (Hlts : key xs < key x).
    { destruct (decide (s = s1)) as [->|Hne]; [|specialize (Hlt2 Hne); lia].
      destruct (decide (s1 = j)) as [->|Hne1]; [done|]. simplify_eq. specialize (Hlt1 Hne1). lia. }
    destruct (swap_lookup h j s x xs Hx Hxs) as (h' & -> & Hp & Hlen & Hk); simpl.
    pose proof (lookup_lt_Some _ _ _ Hxs).
    destruct (IH h' s) as (h2 & -> & Hp2 & Hord).
    + by eapply live_perm.
    + lia.
    + lia.
    + split.
      * intros i a b Hi Hne. rewrite !Hk. intros Ha Hb.
        rewrite (decide_False (P := ((i - 1) / 2)%nat = s)) in Hb by done.
        destruct (decide (((i - 1) / 2)%nat = j)) as [E|E].
        { simplify_eq. rewrite decide_False in Ha by lia. destruct (decide (i = s)) as [->|His].
          - simplify_eq. lia.
          - by eapply Hmin. }
        destruct (decide (i = j)) as [->|Hij].
        { simplify_eq. apply (Hg s a b); [lia|lia|lia|done|done]. }
        destruct (decide (i = s)) as [->|His]; [lia|]. by eapply Ho.
      * intros i a z Hi Hpi Hps. rewrite !Hk. intros Ha Hz.
        replace ((s - 1) / 2)%nat with j in Hz by lia. rewrite decide_True in Hz by done.
        simplify_eq. rewrite decide_False, decide_False in Ha by lia.
        apply (Ho i a z); [lia|lia|done|done].
    + exists h2. split; [done|]. split; [by rewrite Hp2|done].
Qed.

(** The root is due first. *)
Lemma root_min h r : heap_ordered h -> h !! 0%nat = Some r -> forall p, p ∈ h -> key r <= key p.
Proof.
  intros Ho Hr p [i Hi]%list_elem_of_lookup_1. revert p Hi.
  induction i as [i IH] using lt_wf_ind; intros p Hi.
  destruct (decide (i = 0)%nat) as [->|Hne]; [by simplify_eq|].
  destruct (lookup_lt_is_Some_2 h ((i - 1) / 2)) as [q Hq]; [apply lookup_lt_Some in Hi; lia|].
  assert (key r <= key q) by (apply (IH ((i - 1) / 2)%nat); [lia|done]).
  assert (key q <= key p) by (apply (Ho i); [lia|done|done]). lia.
Qed.

Lemma heap_ordered_take h n : heap_ordered h -> heap_ordered (take n h).
Proof.
  intros H i x y Hi Hx Hy. apply lookup_take_Some in Hx as [Hx _]. apply lookup_take_Some in Hy as [Hy _].
  by eapply H.
Qed.

Lemma ShardPopFromHeap_run h : live h -> heap_ordered h ->
  match h with
  | [] => ShardPopFromHeap h = Some []
  | r :: _ => exists h', ShardPopFromHeap h = Some h' /\ h ≡ₚ r :: h' /\ heap_ordered h' /\
                forall p, p ∈ h' -> key r <= key p
  end.
Proof.
  intros Hl Ho. destruct h as [|r t]; [done|].
  assert (Hmin : forall p, p ∈ r :: t -> key r <= key p) by (by apply root_min).
  unfold ShardPopFromHeap. destruct t as [|b t _] using rev_ind.
  - simpl. exists []. split_and!; try done. intros p Hp. by apply not_elem_of_nil in Hp.
  - assert (Hlast : list.last (r :: t ++ [b]) = Some b) by (rewrite app_comm_cons; apply last_snoc).
    rewrite Hlast. cbv zeta.
    assert (E : take (length (r :: t ++ [b]) - 1) (<[0%nat := b]> (r :: t ++ [b])) = b :: t).
    { simpl. rewrite length_app. simpl. replace (length t + 1 - 0)%nat with (S (length t)) by lia.
      simpl. by rewrite take_app_length. }
    rewrite E, decide_False by done. unfold ShardSiftDown.
    assert (Hperm : r :: t ++ [b] ≡ₚ r :: b :: t) by (by rewrite <- Permutation_cons_append).
    assert (Hl' : live (b :: t)).
    { intros p Hp. apply Hl. rewrite Hperm. by right. }
    destruct (sift_down_ok (length (b :: t)) (b :: t) 0 Hl') as (h' & -> & Hp & Hord).
    + simpl; lia.
    + lia.
    + split; [|lia]. intros i x y Hi Hne Hx Hy.
      destruct i as [|i]; [lia|]. destruct ((S i - 1) / 2)%nat as [|k] eqn:Ek; [lia|].
      apply (Ho (S i) x y); [lia| |rewrite Ek];
        rewrite app_comm_cons; apply lookup_app_l_Some; [exact Hx|exact Hy].
    + exists h'. split; [done|]. split; [by rewrite Hp|]. split; [done|].
      intros p Hin. apply Hmin. rewrite Hperm. right. by rewrite <- Hp.
Qed.

Lemma push_run h p : live (h ++ [p]) -> heap_ordered h ->
  exists h', ShardSiftUp (h ++ [p]) (length h) = Some h' /\ h' ≡ₚ p :: h /\ heap_ordered h'.
Proof.
  intros Hl Ho. destruct (ShardSiftUp_ok (h ++ [p]) (length h) Hl) as (h' & -> & Hp & Hord).
  - rewrite length_app; simpl; lia.
  - split.
    + intros i x y Hi Hne Hx Hy. pose proof (lookup_lt_Some _ _ _ Hx) as Hlt.
      rewrite length_app in Hlt; simpl in Hlt.
      rewrite lookup_app_l in Hx by lia. rewrite lookup_app_l in Hy by lia. by eapply Ho.
    + intros i x z Hi Hpi _ Hx. apply lookup_lt_Some in Hx. rewrite length_app in Hx; simpl in Hx. lia.
  - exists h'. split; [done|]. split; [|done]. by rewrite Hp, <- Permutation_cons_append.
Qed.

(** ** The heap as a priority queue *)

Fixpoint add_all (ps : list ptr) (h : list ptr) : option (list ptr) :=
  match ps with
  | [] => Some h
  | p :: ps => h' ← AddToHeap h p; add_all ps h'
  end.

(** Pops until the heap is empty, at most [n] times. *)
Fixpoint pop_all (n : nat) (h : list ptr) : option (list ptr) :=
  match n with
  | O => Some []
  | S n =>
      r ← PopFromHeap h;
      match r with
      | (None, _) => Some []
      | (Some p, h') => out ← pop_all n h'; Some (p :: out)
      end
  end.

Lemma add_all_run ps h : live (ps ++ h) -> heap_ordered h ->
  exists h', add_all ps h = Some h' /\ h' ≡ₚ ps ++ h /\ heap_ordered h'.
Proof.
  revert h; induction ps as [|p ps IH]; intros h Hl Ho; simpl; [by exists h|].
  unfold AddToHeap, SiftUp. destruct (push_run h p) as (h1 & -> & Hp1 & Ho1); [|done|].
  { intros q Hq. apply Hl. rewrite !elem_of_app, list_elem_of_singleton in *. set_solver. }
  simpl. destruct (IH h1) as (h2 & -> & Hp2 & Ho2); [|done|].
  { intros q Hq. apply Hl. rewrite Hp1 in Hq. simpl. by rewrite Permutation_middle. }
  exists h2. split; [done|]. split; [|done]. by rewrite Hp2, Hp1, Permutation_middle.
Qed.

Lemma pop_all_run h : live h -> heap_ordered h ->
  exists out, pop_all (length h) h = Some out /\ out ≡ₚ h /\
    StronglySorted (fun p q => key p <= key q) out.
Proof.
  remember (length h) as n eqn:Hn. revert h Hn; induction n as [|n IH]; intros h Hn Hl Ho.
  - destruct h; [|done]. exists []. split; [done|]. split; [done|constructor].
  - destruct h as [|r t]; [done|]. cbn [pop_all PopFromHeap].
    destruct (ShardPopFromHeap_run (r :: t) Hl Ho) as (h' & -> & Hp & Ho' & Hmin). simpl.
    destruct (IH h') as (out & -> & Hpo & Hs).
    + apply Permutation_length in Hp. simpl in *. lia.
    + intros q Hq. apply Hl. rewrite Hp. by right.
    + done.
    + exists (r :: out). split; [done|]. split; [by rewrite Hpo, Hp|]. constructor; [done|].
      apply list.Forall_forall. intros q Hq. apply Hmin. by rewrite <- Hpo.
Qed.
End Heap.

(** C28: Adding timer entries one by one with the push and sift-up of the code
    and popping until the heap is empty never indexes out of range and returns
    the same entries in order of deadline. *)
Theorem heap_pops_in_deadline_order es ps (H : live es ps) :
  exists h out, add_all es ps [] = Some h /\ heap_ordered es h /\
    pop_all es (length ps) h = Some out /\ out ≡ₚ ps /\
    StronglySorted (fun p q => key es p <= key es q) out.
Proof.
  destruct (add_all_run es ps []) as (h & Ha & Hp & Ho).
  - by rewrite app_nil_r.
  - intros i x y _ Hx. by rewrite lookup_nil in Hx.
  - rewrite app_nil_r in Hp. destruct (pop_all_run es h) as (out & Hout & Hpo & Hs); [|done|].
    + by eapply live_perm.
    + exists h, out. split; [done|]. split; [done|]. rewrite <- Hp. by split_and!.
Qed.

Definition three_entries : gmap ptr TimerEntry :=
  {[ 1%nat := Entry 0 0 30 0 false; 2%nat := Entry 0 0 10 1 false; 3%nat := Entry 0 0 20 2 false ]}.

Lemma heap_pops_in_deadline_order_witness :
  exists h out, add_all three_entries [1; 2; 3]%nat [] = Some h /\
    heap_ordered three_entries h /\ pop_all three_entries 3 h = Some out /\
    out ≡ₚ [1; 2; 3]%nat /\ StronglySorted (fun p q => key three_entries p <= key three_entries q) out.
Proof.
  apply (heap_pops_in_deadline_order three_entries [1; 2; 3]%nat).
  intros p Hp. rewrite !elem_of_cons in Hp.
  destruct Hp as [-> |[-> |[-> |Hp%not_elem_of_nil]]]; [eexists; reflexivity..|done].
Defined.

(** Removing the last entry of a heap that has others reads one position
    beyond the end of the vector. *)
Theorem RemoveFromHeap_last_is_out_of_range es h p :
  h <> [] -> p ∉ h -> RemoveFromHeap es (h ++ [p]) p = None.
Proof.
  intros Hne Hp. unfold RemoveFromHeap.
  assert (Hf : list_find (fun q => q = p) (h ++ [p]) = Some (length h, p)).
  { apply list_find_Some. split; [by apply list_lookup_middle|]. split; [done|].
    intros j y Hj Hlt ->. rewrite lookup_app_l in Hj by done. apply Hp.
    by eapply list_elem_of_lookup_2. }
  rewrite Hf. simpl. rewrite last_snoc. simpl.
  assert (E : take (length (h ++ [p]) - 1) (<[length h := p]> (h ++ [p])) = h).
  { rewrite list_insert_id by (by apply list_lookup_middle). rewrite length_app; simpl.
    replace (length h + 1 - 1)%nat with (length h) by lia. apply take_app_length. }
  assert (Hlen : (0 < length h)%nat) by (destruct h; [done|simpl; lia]).
  rewrite E, decide_True by exact Hlen.
  assert (Hd : deadline_at es h (length h) = None)
    by (unfold deadline_at; by rewrite lookup_ge_None_2).
  by rewrite Hd.
Qed.

Lemma RemoveFromHeap_last_is_out_of_range_witness : RemoveFromHeap three_entries [2; 3]%nat 3 = None.
Proof.
  apply (RemoveFromHeap_last_is_out_of_range three_entries [2%nat] 3%nat); [done|].
  by rewrite list_elem_of_singleton.
Defined.

End TimerHeap.
