(* ===== verification/Timer.v ===== *)
(** * The timer thread

    Model of [TimerThread] ([include/bthread/detail/timer_thread.hpp],
    [src/bthread/detail/timer_thread.cpp]): sharded scheduling, cancelling, the
    processing of expired timers and the thread's main loop.  The heaps are
    those of TimerHeap.v and the entries come from an object pool. *)

From Stdlib Require Import ZArith Lia FunctionalExtensionality.
From stdpp Require Import base numbers list gmap relations option sorting.
From S2P Require Import Prelude ObjectPool TimerHeap.

Open Scope Z_scope.

Module Timer.
Import TimerHeap.

Definition MAX_SHARDS : Z := 256.
Definition INT64_MAX : Z := 2 ^ 63 - 1.

(** A [TimerShard]: its mutex, its heap and [next_deadline]. *)
Record shard := Shard { s_mutex : bool; s_heap : list ptr; s_next_deadline : Z }.

Definition Shard_eta (s : shard) : shard := Shard (s_mutex s) (s_heap s) (s_next_deadline s).
Definition mutex : field shard bool := ltac:(lens Shard_eta s_mutex).
Definition heap : field shard (list ptr) := ltac:(lens Shard_eta s_heap).
Definition next_deadline : field shard Z := ltac:(lens Shard_eta s_next_deadline).

(** The timer thread's object, with the monotonic clock [t_now], the list
    [t_fired] of the callbacks made so far with their arguments, and whether
    the thread has returned. *)
Record timer := Timer {
  t_pool : ObjectPool.pool TimerEntry;
  t_shards : nat -> shard;
  t_shard_assign : Z;
  t_worker_count : Z;
  t_heap : list ptr;
  t_heap_mutex : bool;
  t_running : bool;
  t_wakeup_futex : Z;
  t_next_id : Z;
  t_now : Z;
  t_fired : list (Z * Z);
  t_exited : bool;
}.

Definition Timer_eta (t : timer) : timer :=
  Timer (t_pool t) (t_shards t) (t_shard_assign t) (t_worker_count t) (t_heap t) (t_heap_mutex t)
    (t_running t) (t_wakeup_futex t) (t_next_id t) (t_now t) (t_fired t) (t_exited t).

Definition entry_pool_ : field timer (ObjectPool.pool TimerEntry) := ltac:(lens Timer_eta t_pool).
Definition all_shards : field timer (nat -> shard) := ltac:(lens Timer_eta t_shards).
Definition shard_assign_ : field timer Z := ltac:(lens Timer_eta t_shard_assign).
Definition worker_count_ : field timer Z := ltac:(lens Timer_eta t_worker_count).
Definition heap_ : field timer (list ptr) := ltac:(lens Timer_eta t_heap).
Definition heap_mutex_ : field timer bool := ltac:(lens Timer_eta t_heap_mutex).
Definition running_ : field timer bool := ltac:(lens Timer_eta t_running).
Definition wakeup_futex_ : field timer Z := ltac:(lens Timer_eta t_wakeup_futex).
Definition next_id_ : field timer Z := ltac:(lens Timer_eta t_next_id).
Definition now : field timer Z := ltac:(lens Timer_eta t_now).
Definition fired : field timer (list (Z * Z)) := ltac:(lens Timer_eta t_fired).
Definition exited : field timer bool := ltac:(lens Timer_eta t_exited).

(** [shards_[i]]. *)
Definition shards_ (i : nat) : field timer shard :=
  Field (fun t => t_shards t i)
        (fun v t => wr all_shards (fun j => if decide (j = i) then v else t_shards t j) t).

Definition entries : field timer (gmap ptr TimerEntry) := sub entry_pool_ ObjectPool.objs.

Definition new_TimerEntry : TimerEntry := Entry 0 0 0 0 false.

(** A change of a heap that may be undefined. *)
Definition update_heap (v : field timer (list ptr))
    (f : gmap ptr TimerEntry -> list ptr -> option (list ptr)) : prog timer unit :=
  act (fun t => match f (rd entries t) (rd v t) with
                | Some h => Go tt (wr v h t)
                | None => Bad
                end).

Definition GetTimeOfDayUs : prog timer Z := load now.
(** [callback(arg)]. *)
Definition call (c a : Z) : prog timer unit := fetch fired (fun l => l ++ [(c, a)]) ;;; Ret tt.

(** The constructor. *)
Definition TimerThread (start : Z) : timer :=
  Timer (ObjectPool.ObjectPool 256) (fun _ => Shard false [] INT64_MAX) 0 0 [] false false 0 0
    start [] false.

Definition Init (worker_count : Z) : prog timer unit :=
  store worker_count_ (Z.min worker_count MAX_SHARDS) ;;;
  wc <- load worker_count_ ;;
  if wc <=? 0 then store worker_count_ 1 else Ret tt.

(** [Start] without the creation of the thread, which runs [TimerThreadMain];
    the result says whether it is created. *)
Definition Start : prog timer bool :=
  r <- load running_ ;;
  if r : bool then Ret false else store running_ true ;;; Ret true.

(** A timespec: seconds and nanoseconds. *)
(** Taking an entry from the pool and filling it. *)
Definition new_entry (cb a deadline : Z) : prog timer ptr :=
  entry <- zoom entry_pool_ (ObjectPool.Acquire new_TimerEntry) ;;
  set entries entry callback cb ;;;
  set entries entry arg a ;;;
  set entries entry deadline_us deadline ;;;
  i <- fetch next_id_ (fun n => i32 (n + 1)) ;;
  set entries entry id i ;;;
  set entries entry cancelled false ;;;
  Ret entry.

Definition add_to_shard (shard_id : nat) (entry : ptr) : prog timer unit :=
  let sh := shards_ shard_id in
  lock (sub sh mutex) ;;;
  update_heap (sub sh heap) (fun es h => ShardSiftUp es (h ++ [entry]) (length h)) ;;;
  d <- get entries entry deadline_us ;;
  nd <- load (sub sh next_deadline) ;;
  (if d <? nd then store (sub sh next_deadline) d else Ret tt) ;;;
  unlock (sub sh mutex).

Definition Schedule (cb a : Z) (delay : option (Z * Z)) : prog timer Z :=
  match delay with
  | None => Ret (-1)
  | Some (tv_sec, tv_nsec) =>
      sec_us <- int64 (tv_sec * 1000000) ;;
      delay_us <- int64 (sec_us + Z.quot tv_nsec 1000) ;;
      now_us <- GetTimeOfDayUs ;;
      deadline <- int64 (now_us + delay_us) ;;
      entry <- new_entry cb a deadline ;;
      wc <- load worker_count_ ;;
      (if 0 <? wc then
         n <- fetch shard_assign_ (fun n => i32 (n + 1)) ;;
         let shard_id := Z.rem n wc in
         if (0 <=? shard_id) && (shard_id <? MAX_SHARDS) then add_to_shard (Z.to_nat shard_id) entry
         else undefined
       else
         lock heap_mutex_ ;;;
         update_heap heap_ (fun es h => AddToHeap es h entry) ;;;
         unlock heap_mutex_) ;;;
      get entries entry id
  end.

(** The search of one heap for [timer_id], marking the first entry found. *)
Definition cancel_in (h : list ptr) (timer_id : Z) : prog timer bool :=
  loop h (fun h =>
    match h with
    | [] => Ret (inr false)
    | p :: h =>
        i <- get entries p id ;;
        if i =? timer_id then set entries p cancelled true ;;; Ret (inr true)
        else Ret (inl h)
    end).

Definition Cancel (timer_id : Z) : prog timer bool :=
  wc <- load worker_count_ ;;
  if 0 <? wc then
    loop 0 (fun i =>
      if i <? wc then
        let sh := shards_ (Z.to_nat i) in
        lock (sub sh mutex) ;;;
        h <- load (sub sh heap) ;;
        r <- cancel_in h timer_id ;;
        unlock (sub sh mutex) ;;;
        if r : bool then Ret (inr true) else Ret (inl (i + 1))
      else Ret (inr false))
  else
    lock heap_mutex_ ;;;
    h <- load heap_ ;;
    r <- cancel_in h timer_id ;;
    unlock heap_mutex_ ;;;
    Ret r.

(** One round of the loop of [ProcessShard]; [inr] leaves the loop. *)
Definition process_round (sh : field timer shard) (now_us : Z) : prog timer (unit + unit) :=
  h <- load (sub sh heap) ;;
  match h with
  | [] => Ret (inr tt)
  | entry :: _ =>
      d <- get entries entry deadline_us ;;
      if d <=? now_us then
        c <- get entries entry cancelled ;;
        if c : bool then
          update_heap (sub sh heap) ShardPopFromHeap ;;;
          zoom entry_pool_ (ObjectPool.Release (Some entry)) ;;;
          Ret (inl tt)
        else
          update_heap (sub sh heap) ShardPopFromHeap ;;;
          h <- load (sub sh heap) ;;
          (match h with
           | first :: _ => d <- get entries first deadline_us ;; store (sub sh next_deadline) d
           | [] => store (sub sh next_deadline) INT64_MAX
           end) ;;;
          cb <- get entries entry callback ;;
          a <- get entries entry arg ;;
          zoom entry_pool_ (ObjectPool.Release (Some entry)) ;;;
          unlock (sub sh mutex) ;;;
          call cb a ;;;
          lock (sub sh mutex) ;;;
          Ret (inl tt)
      else Ret (inr tt)
  end.

Definition ProcessShard (sh : field timer shard) : prog timer unit :=
  now_us <- GetTimeOfDayUs ;;
  lock (sub sh mutex) ;;;
  loop tt (fun _ => process_round sh now_us) ;;;
  h <- load (sub sh heap) ;;
  (match h with
   | first :: _ => d <- get entries first deadline_us ;; store (sub sh next_deadline) d
   | [] => Ret tt
   end) ;;;
  unlock (sub sh mutex).

(** The sharded part of a round of the main loop: the earliest deadline seen. *)
Definition check_shards (wc now_us : Z) : prog timer Z :=
  loop (0, INT64_MAX) (fun '(i, min_deadline) =>
    if i <? wc then
      let sh := shards_ (Z.to_nat i) in
      d <- load (sub sh next_deadline) ;;
      let m := if d <? min_deadline then d else min_deadline in
      if d <=? now_us then
        ProcessShard sh ;;;
        d' <- load (sub sh next_deadline) ;;
        Ret (inl (i + 1, if d' <? m then d' else m))
      else Ret (inl (i + 1, m))
    else Ret (inr min_deadline)).

(** The same for the global heap. *)
Definition check_global (now_us : Z) : prog timer Z :=
  lock heap_mutex_ ;;;
  m <- loop tt (fun _ =>
    h <- load heap_ ;;
    match h with
    | [] => Ret (inr INT64_MAX)
    | entry :: _ =>
        c <- get entries entry cancelled ;;
        if c : bool then
          update_heap heap_ (fun es h => snd <$> PopFromHeap es h) ;;;
          zoom entry_pool_ (ObjectPool.Release (Some entry)) ;;;
          Ret (inl tt)
        else
          d <- get entries entry deadline_us ;;
          if now_us <? d then Ret (inr d)
          else
            update_heap heap_ (fun es h => snd <$> PopFromHeap es h) ;;;
            cb <- get entries entry callback ;;
            a <- get entries entry arg ;;
            zoom entry_pool_ (ObjectPool.Release (Some entry)) ;;;
            unlock heap_mutex_ ;;;
            call cb a ;;;
            lock heap_mutex_ ;;;
            Ret (inl tt)
    end) ;;
  unlock heap_mutex_ ;;;
  Ret m.

(** The time to sleep, as seconds and nanoseconds. *)
Definition sleep_time (min_deadline now_us : Z) : Z * Z :=
  let sleep_us := min_deadline - now_us in
  let sleep_us := if (sleep_us <=? 0) || (min_deadline =? INT64_MAX) then 100000 else sleep_us in
  (Z.quot sleep_us 1000000, Z.rem sleep_us 1000000 * 1000).

(** A round of [TimerThreadMain]; returns the timeout of the futex wait. *)
Definition timer_round : prog timer (Z * Z) :=
  now_us <- GetTimeOfDayUs ;;
  wc <- load worker_count_ ;;
  m <- (if 0 <? wc then check_shards wc now_us else check_global now_us) ;;
  Ret (sleep_time m now_us).

(** The futex wait returns when it is woken, when the timeout has passed, or
    when the value has changed: it is not waited for here. *)
Definition TimerThreadMain : prog timer unit :=
  loop tt (fun _ =>
    r <- load running_ ;;
    if r : bool then
      timer_round ;;; _ <- load wakeup_futex_ ;; pause ;;; Ret (inl tt)
    else store exited true ;;; Ret (inr tt)).

Definition release_all (h : list ptr) : prog timer unit :=
  loop h (fun h =>
    match h with
    | [] => Ret (inr tt)
    | p :: h => zoom entry_pool_ (ObjectPool.Release (Some p)) ;;; Ret (inl h)
    end).

Definition Stop : prog timer unit :=
  r <- load running_ ;;
  if r : bool then
    store running_ false ;;;
    fetch wakeup_futex_ (fun n => i32 (n + 1)) ;;;
    act (fun t => if t_exited t then Go tt t else Block) ;;;
    wc <- load worker_count_ ;;
    if 0 <? wc then
      loop 0 (fun i =>
        if i <? wc then
          let sh := shards_ (Z.to_nat i) in
          lock (sub sh mutex) ;;;
          h <- load (sub sh heap) ;;
          release_all h ;;;
          store (sub sh heap) [] ;;;
          unlock (sub sh mutex) ;;;
          Ret (inl (i + 1))
        else Ret (inr tt))
    else
      lock heap_mutex_ ;;;
      h <- load heap_ ;;
      release_all h ;;;
      store heap_ [] ;;;
      unlock heap_mutex_
  else Ret tt.

(** ** Invariant *)

#[export] Instance entry_pool_ok : FieldOk entry_pool_.
Proof. split; [done..|by intros []]. Qed.

Definition hp (t : timer) (i : nat) : list ptr := s_heap (t_shards t i).
Definition es (t : timer) : gmap ptr TimerEntry := rd entries t.

(** Every queued entry is live and in one shard; every heap is ordered; the
    deadline a shard advertises is not after any of its entries. *)
Record timer_ok (t : timer) : Prop := {
  ok_pool : exists l held, ObjectPool.owned (t_pool t) l held /\ forall i p, p ∈ hp t i -> p ∈ held;
  ok_nodup : forall i, NoDup (hp t i);
  ok_one : forall i j p, i <> j -> p ∈ hp t i -> p ∉ hp t j;
  ok_ordered : forall i, heap_ordered (es t) (hp t i);
  ok_next : forall i p, p ∈ hp t i -> s_next_deadline (t_shards t i) <= key (es t) p;
}.

Lemma ok_live t i : timer_ok t -> live (es t) (hp t i).
Proof.
  intros H p Hp. destruct (ok_pool _ H) as (l & held & (_ & _ & Hh & _) & Hin).
  by destruct (Hh p (Hin i p Hp)).
Qed.

Lemma heap_ordered_ext e e' h : (forall p, p ∈ h -> key e' p = key e p) ->
  heap_ordered e h -> heap_ordered e' h.
Proof.
  intros E H i x y Hi Hx Hy. rewrite !E by (by eapply list_elem_of_lookup_2). by eapply H.
Qed.

Lemma key_insert_ne (e : gmap ptr TimerEntry) p q v : p <> q -> key (<[p := v]> e) q = key e q.
Proof. intros H. unfold key. by rewrite lookup_insert_ne. Qed.

Lemma TimerThread_ok n : timer_ok (TimerThread n).
Proof.
  split; simpl; unfold hp; simpl.
  - exists [], []. split; [|done]. by apply ObjectPool.ObjectPool_owned.
  - intros i. apply NoDup_nil_2.
  - intros i j p _ Hp. by apply not_elem_of_nil in Hp.
  - intros i k x y _ Hx. by rewrite lookup_nil in Hx.
  - intros i p Hp. by apply not_elem_of_nil in Hp.
Qed.

(** ** Scheduling *)

(** The state with entry [p] added to shard [i]. *)
Definition scheduled (t t' : timer) (i : nat) (p : ptr) (e : TimerEntry) : Prop :=
  hp t' i ≡ₚ p :: hp t i /\ (forall j, j <> i -> t_shards t' j = t_shards t j) /\
  es t' !! p = Some e /\ (forall j q, q ∈ hp t j -> q <> p /\ es t' !! q = es t !! q) /\
  s_mutex (t_shards t' i) = false /\ t_now t' = t_now t /\ t_worker_count t' = t_worker_count t.

Lemma schedule_ok t l held p e h' nd i pool' :
  timer_ok t -> ObjectPool.owned pool' l (held ++ [p]) ->
  (forall j q, q ∈ hp t j -> q ∈ held) -> (forall q, q ∈ held -> q <> p) ->
  (forall q, q <> p -> ObjectPool.p_objs pool' !! q = es t !! q) ->
  ObjectPool.p_objs pool' !! p = Some e ->
  h' ≡ₚ p :: hp t i -> heap_ordered (ObjectPool.p_objs pool') h' ->
  nd <= e_deadline_us e -> nd <= s_next_deadline (t_shards t i) ->
  forall t', t_pool t' = pool' -> t_worker_count t' = t_worker_count t -> t_now t' = t_now t ->
    t_shards t' = (fun j => if decide (j = i) then Shard false h' nd else t_shards t j) ->
    timer_ok t' /\ scheduled t t' i p e.
Proof.
  intros H Hown Hin Hne Hoth He Hp Hord Hnd1 Hnd2 t' E1 E2 E3 E4.
  assert (Hhp : forall j, hp t' j = if decide (j = i) then h' else hp t j).
  { intros j. unfold hp. rewrite E4. by case_decide. }
  assert (Hes : es t' = ObjectPool.p_objs pool') by (unfold es, entries; simpl; by rewrite E1).
  assert (Hkey : forall q, q <> p -> key (es t') q = key (es t) q)
    by (intros q Hq; rewrite Hes; unfold key; by rewrite Hoth).
  assert (Hnew : forall j, p ∉ hp t j) by (intros j Hj; by apply (Hne p); [eapply Hin|]).
  split; [split|].
  - exists l, (held ++ [p]). rewrite E1. split; [done|]. intros j q. rewrite Hhp. case_decide.
    + rewrite Hp. intros [-> |Hq]%elem_of_cons; [set_solver|]. apply elem_of_app. left. by eapply Hin.
    + intros Hq. apply elem_of_app. left. by eapply Hin.
  - intros j. rewrite Hhp. case_decide; [|apply (ok_nodup _ H)]. rewrite Hp.
    constructor; [apply Hnew|apply (ok_nodup _ H)].
  - intros j k q Hjk. rewrite !Hhp. case_decide as Ej; case_decide as Ek; subst; try done.
    + rewrite Hp. intros [-> |Hq]%elem_of_cons; [apply Hnew|by eapply (ok_one _ H)].
    + rewrite Hp. intros Hq [-> |Hq']%elem_of_cons; [by eapply Hnew|by eapply (ok_one _ H)].
    + by apply (ok_one _ H).
  - intros j. rewrite Hhp. case_decide; [by rewrite Hes|].
    apply (heap_ordered_ext (es t)); [|apply (ok_ordered _ H)].
    intros q Hq. apply Hkey. intros ->. by eapply Hnew.
  - intros j q. rewrite Hhp, E4. case_decide as Ej; simpl.
    + rewrite Hp. intros [-> |Hq]%elem_of_cons.
      * rewrite Hes. unfold key. by rewrite He.
      * rewrite Hkey by (intros ->; by eapply Hnew). pose proof (ok_next _ H i q Hq). lia.
    + intros Hq. rewrite Hkey by (intros ->; by eapply Hnew). by apply (ok_next _ H).
  - split; [by rewrite Hhp, decide_True|]. split; [intros j Hj; by rewrite E4, decide_False|].
    split; [by rewrite Hes|]. split.
    + intros j q Hq. assert (q <> p) by (intros ->; by eapply Hnew).
      split; [done|]. rewrite Hes. by apply Hoth.
    + rewrite E4, decide_True by done. by split_and!.
Qed.

Lemma new_entry_ok t cb a dl l held : ObjectPool.owned (t_pool t) l held ->
  wp (new_entry cb a dl) (fun p t' => exists l' pool',
    t' = wr next_id_ (i32 (t_next_id t + 1)) (wr entry_pool_ pool' t) /\
    ObjectPool.owned pool' l' (held ++ [p]) /\ (forall q, q ∈ held -> q <> p) /\
    (forall q, q <> p -> ObjectPool.p_objs pool' !! q = es t !! q) /\
    ObjectPool.p_objs pool' !! p = Some (Entry cb a dl (t_next_id t) false)) t.
Proof.
  intros Hown. unfold new_entry. apply wp_zoom_bind; [apply _|].
  eapply wp_mono; [exact (ObjectPool.owned_acquire new_TimerEntry _ l held Hown)|]. intros p pool' (l' & Hown' & _ & Hoth).
  pose proof Hown' as (_ & Hnd & Hh & _). apply list.NoDup_app in Hnd as (_ & Hpne & _).
  destruct (Hh p) as [_ [e0 He0]]; [set_solver|].
  eapply wp_set_bind; [exact He0|]. do 2 (eapply wp_set_bind; [apply lookup_insert_eq|]).
  apply wp_fetch_bind. do 2 (eapply wp_set_bind; [apply lookup_insert_eq|]). apply wp_ret.
  simpl. rewrite !insert_insert_eq.
  set (e := Entry cb a dl (t_next_id t) false). exists l', (wr ObjectPool.objs (<[p := e]> (ObjectPool.p_objs pool')) pool').
  split; [done|]. split; [by apply ObjectPool.owned_set; [|by eexists]|]. split; [intros q Hq ->; apply (Hpne p Hq); by left|].
  simpl. split; [|apply lookup_insert_eq]. intros q Hq. rewrite lookup_insert_ne by done. by apply Hoth.
Qed.

Lemma add_to_shard_ok t i p e : s_mutex (t_shards t i) = false -> es t !! p = Some e ->
  (forall q, q ∈ hp t i -> is_Some (es t !! q)) -> heap_ordered (es t) (hp t i) ->
  wp (add_to_shard i p) (fun _ t' => exists h' nd, h' ≡ₚ p :: hp t i /\ heap_ordered (es t) h' /\
    nd <= e_deadline_us e /\ nd <= s_next_deadline (t_shards t i) /\
    t' = wr all_shards (fun j => if decide (j = i) then Shard false h' nd else t_shards t j) t) t.
Proof.
  intros Hfree He Hlive Hord. unfold add_to_shard. apply wp_lock_bind; [exact Hfree|].
  unfold update_heap. apply wp_act_bind. simpl. rewrite decide_True by done. simpl.
  destruct (push_run (es t) (hp t i) p) as (h' & Hpush & Hp & Hord'); [|exact Hord|].
  { intros q [Hq|Hq%list_elem_of_singleton]%elem_of_app; [by apply Hlive|]. subst q. by rewrite He. }
  unfold hp, es, entries in Hpush. simpl in Hpush. rewrite Hpush.
  eapply wp_get_bind; [exact He|]. apply wp_load_bind. simpl. rewrite decide_True by done. simpl.
  assert (Hend : forall nd t', nd <= e_deadline_us e -> nd <= s_next_deadline (t_shards t i) ->
    t' = wr all_shards (t_shards t') t ->
    (forall j, t_shards t' j = if decide (j = i) then Shard true h' nd else t_shards t j) ->
    wp (unlock (sub (shards_ i) mutex)) (fun _ t' => exists h' nd, h' ≡ₚ p :: hp t i /\ heap_ordered (es t) h' /\
      nd <= e_deadline_us e /\ nd <= s_next_deadline (t_shards t i) /\
      t' = wr all_shards (fun j => if decide (j = i) then Shard false h' nd else t_shards t j) t) t').
  { intros nd t' Hn1 Hn2 E1 E2. unfold unlock. apply wp_store. exists h', nd. repeat (split; [done|]).
    simpl. rewrite E1. simpl. f_equal.
    apply functional_extensionality. intros j. rewrite !E2. by repeat case_decide. }
  destruct (Z.ltb_spec (e_deadline_us e) (s_next_deadline (t_shards t i))) as [Hlt|Hge].
  - apply wp_store_bind. apply (Hend (e_deadline_us e)); simpl; try done; try lia. intros j. by repeat case_decide.
  - apply wp_ret_bind. apply (Hend (s_next_deadline (t_shards t i))); simpl; try done; try lia.
    intros j. by repeat case_decide.
Qed.

(** The identifiers of the queued entries were given out before. *)
Definition ids_given (t : timer) : Prop :=
  0 <= t_next_id t /\ forall j q v, q ∈ hp t j -> es t !! q = Some v -> 0 <= e_id v < t_next_id t.

(** The deadline of a timer fits its 64-bit member. *)
Definition deadline_fits (now sec nsec : Z) : Prop :=
  fits64 (sec * 1000000) /\ fits64 (sec * 1000000 + Z.quot nsec 1000) /\
  fits64 (now + (sec * 1000000 + Z.quot nsec 1000)).

Lemma scheduled_ids t t' i p e : ids_given t -> scheduled t t' i p e -> e_id e = t_next_id t ->
  t_next_id t' = t_next_id t + 1 -> ids_given t'.
Proof.
  intros [H1 H2] (Hp & Hoth & He & Hent & _) Hid Hn. split; [lia|]. intros j q v Hq Hv.
  assert (Hq' : q = p \/ q ∈ hp t j).
  { destruct (decide (j = i)) as [->|Hne]; [by rewrite Hp, elem_of_cons in Hq|].
    right. unfold hp in *. by rewrite <- Hoth. }
  destruct (decide (q = p)) as [->|Hne].
  - rewrite He in Hv. injection Hv as <-. lia.
  - destruct Hq' as [->|Hq']; [done|]. destruct (Hent j q Hq') as [_ E]. rewrite E in Hv.
    specialize (H2 j q v Hq' Hv). lia.
Qed.

(** C26: On a sharded timer thread with its mutexes free, while fewer than
    INT_MAX identifiers are given and when the deadline fits 64 bits, Schedule
    returns an identifier that is not negative and that no queued entry has,
    and adds one entry, with the deadline now + delay and that identifier, to
    the next shard in round-robin order, keeping every heap ordered and every
    advertised deadline a lower bound; the next identifier and the next shard
    advance by one, and besides the shards and the entries nothing else
    changes. *)
Theorem Schedule_adds_entry t cb a sec nsec :
  timer_ok t -> 0 < t_worker_count t <= MAX_SHARDS -> 0 <= t_shard_assign t ->
  (forall i, s_mutex (t_shards t i) = false) ->
  ids_given t -> t_next_id t < INT_MAX -> deadline_fits (t_now t) sec nsec ->
  let i := Z.to_nat (t_shard_assign t mod t_worker_count t) in
  let e := Entry cb a (t_now t + (sec * 1000000 + Z.quot nsec 1000)) (t_next_id t) false in
  wp (Schedule cb a (Some (sec, nsec))) (fun r t' =>
    r = t_next_id t /\ 0 <= r /\ (forall j q v, q ∈ hp t j -> es t !! q = Some v -> e_id v <> r) /\
    timer_ok t' /\ ids_given t' /\ (exists p, scheduled t t' i p e) /\
    t' = wr next_id_ (r + 1) (wr shard_assign_ (i32 (t_shard_assign t + 1))
           (wr all_shards (t_shards t') (wr entry_pool_ (t_pool t') t)))) t.
Proof.
  intros H Hwc Has Hfree Hids Hmax (Hf1 & Hf2 & Hf3) i e. unfold Schedule, GetTimeOfDayUs.
  do 2 (apply wp_int64_bind; [done|]). apply wp_load_bind. apply wp_int64_bind; [done|]. apply wp_bind.
  destruct (ok_pool _ H) as (l & held & Hown & Hin).
  eapply wp_mono; [by eapply new_entry_ok|]. intros p t1 (l' & pool' & -> & Hown' & Hne & Hoth & Hp).
  apply wp_load_bind. simpl. rewrite (proj2 (Z.ltb_lt _ _)) by lia. apply wp_assoc, wp_fetch_bind. simpl.
  pose proof (Z.mod_pos_bound (t_shard_assign t) (t_worker_count t) ltac:(lia)) as Hmod.
  rewrite Z.rem_mod_nonneg by lia. fold i.
  rewrite (proj2 (Z.leb_le 0 _)), (proj2 (Z.ltb_lt _ _)) by (unfold MAX_SHARDS in *; lia). cbn [andb].
  apply wp_bind. match goal with |- wp _ _ ?x => set (t1 := x) end.
  assert (Eq : forall q, q ∈ hp t i -> ObjectPool.p_objs pool' !! q = es t !! q) by (intros q Hq; eapply Hoth, Hne, Hin, Hq).
  eapply wp_mono.
  { apply (add_to_shard_ok t1 i p e (Hfree i) Hp).
    - intros q Hq. change (is_Some (ObjectPool.p_objs pool' !! q)). rewrite (Eq q Hq). by eapply (ok_live _ i H).
    - apply (heap_ordered_ext (es t)); [|apply (ok_ordered _ H)]. intros q Hq. unfold key.
      by change (es t1) with (ObjectPool.p_objs pool'); rewrite Eq. }
  intros [] t' (h' & nd & Hperm & Hord & Hn1 & Hn2 & ->).
  match goal with |- wp _ _ ?x => set (t2 := x) end.
  destruct (schedule_ok t l' held p e h' nd i pool' H Hown' Hin Hne Hoth Hp Hperm Hord Hn1 Hn2 t2
    eq_refl eq_refl eq_refl eq_refl) as [Hok Hsch].
  destruct Hids as [Hi0 Hids].
  assert (En : i32 (t_next_id t + 1) = t_next_id t + 1) by (apply i32_small; unfold INT_MIN, INT_MAX in *; lia).
  unfold get. apply wp_act_last. simpl. rewrite Hp. split; [done|].
  split; [done|]. split; [intros j q v Hq Hv; specialize (Hids j q v Hq Hv); simpl; lia|].
  split; [done|]. split; [by eapply (scheduled_ids t t2)|]. split; [by exists p|].
  cbn [e_id]. by rewrite <- En.
Qed.

(** ** Processing *)

(** The calls made when [p] expires: none if it is cancelled. *)
Definition call_of (e : gmap ptr TimerEntry) (p : ptr) : list (Z * Z) :=
  match e !! p with
  | Some v => if e_cancelled v then [] else [(e_callback v, e_arg v)]
  | None => []
  end.

(** The state with entry [p] taken out of shard [i]. *)
Definition popped_one (t t' : timer) (i : nat) (p : ptr) : Prop :=
  hp t i ≡ₚ p :: hp t' i /\ (forall j, j <> i -> t_shards t' j = t_shards t j) /\
  (forall j q, q ∈ hp t' j -> es t' !! q = es t !! q) /\
  t_now t' = t_now t /\ t_worker_count t' = t_worker_count t /\
  t_fired t' = t_fired t ++ call_of (es t) p /\ s_mutex (t_shards t' i) = true.

Lemma pop_ok t i p h' nd l held k pool' :
  timer_ok t -> hp t i ≡ₚ p :: h' -> heap_ordered (es t) h' ->
  (forall q, q ∈ h' -> nd <= key (es t) q) ->
  (forall j q, q ∈ hp t j -> q ∈ held) -> held !! k = Some p -> NoDup held ->
  ObjectPool.owned pool' l (delete k held) ->
  (forall q, q <> p -> ObjectPool.p_objs pool' !! q = es t !! q) ->
  forall t', t_pool t' = pool' -> t_worker_count t' = t_worker_count t -> t_now t' = t_now t ->
    t_fired t' = t_fired t ++ call_of (es t) p ->
    t_shards t' = (fun j => if decide (j = i) then Shard true h' nd else t_shards t j) ->
    timer_ok t' /\ popped_one t t' i p.
Proof.
  intros H Hp Hord Hnd Hin Hk Hnh Hown Hoth t' E1 E2 E3 E4 E5.
  assert (Hhp : forall j, hp t' j = if decide (j = i) then h' else hp t j).
  { intros j. unfold hp. rewrite E5. by case_decide. }
  assert (Hes : es t' = ObjectPool.p_objs pool') by (unfold es, entries; simpl; by rewrite E1).
  pose proof (ok_nodup _ H i) as Hni. rewrite Hp in Hni. apply list.NoDup_cons in Hni as [Hph Hnh'].
  assert (Hsub : forall j q, q ∈ hp t' j -> q ∈ hp t j /\ q <> p).
  { intros j q. rewrite Hhp. case_decide as Ej; [subst|].
    - intros Hq. split; [rewrite Hp; by right|by intros ->].
    - intros Hq. split; [done|]. intros ->. apply (ok_one _ H j i p Ej Hq). rewrite Hp. by left. }
  assert (Hsame : forall j q, q ∈ hp t' j -> es t' !! q = es t !! q).
  { intros j q Hq. rewrite Hes. apply Hoth. by eapply Hsub. }
  assert (Hkey : forall j q, q ∈ hp t' j -> key (es t') q = key (es t) q)
    by (intros j q Hq; unfold key; by erewrite Hsame).
  split; [split|].
  - exists l, (delete k held). rewrite E1. split; [done|]. intros j q Hq.
    destruct (Hsub j q Hq) as [Hq' Hne]. apply Hin in Hq'.
    rewrite (delete_Permutation _ _ _ Hk) in Hq'. by apply elem_of_cons in Hq' as [->|].
  - intros j. rewrite Hhp. case_decide; [done|apply (ok_nodup _ H)].
  - intros a b q Hab Ha Hb. apply Hsub in Ha as [Ha _]. apply Hsub in Hb as [Hb _].
    by eapply (ok_one _ H).
  - intros j. apply (heap_ordered_ext (es t)); [by apply Hkey|]. rewrite Hhp.
    case_decide; [done|apply (ok_ordered _ H)].
  - intros j q Hq. rewrite (Hkey j q Hq), E5. case_decide as Ej; simpl.
    + apply Hnd. rewrite Hhp, decide_True in Hq by done. done.
    + apply (ok_next _ H). by eapply Hsub.
  - split; [by rewrite Hhp, decide_True|]. split; [intros j Hj; by rewrite E5, decide_False|].
    split; [done|]. rewrite E5, decide_True by done. by split_and!.
Qed.

(** Releasing an entry of shard [i] to the pool. *)
Lemma release_ok t i p : timer_ok t -> p ∈ hp t i ->
  exists l l' held k pool', (forall j q, q ∈ hp t j -> q ∈ held) /\ held !! k = Some p /\ NoDup held /\
    ObjectPool.owned (t_pool t) l held /\
    exec (ObjectPool.Release (Some p)) (t_pool t) tt pool' /\
    ObjectPool.owned pool' l' (delete k held) /\
    (forall q, q <> p -> ObjectPool.p_objs pool' !! q = es t !! q).
Proof.
  intros H Hp. destruct (ok_pool _ H) as (l & held & Hown & Hin).
  destruct (list_elem_of_lookup_1 held p (Hin i p Hp)) as [k Hk].
  destruct (ObjectPool.owned_release _ l held k Hown) as ([] & pool' & Hex & l' & Hown' & _ & Hoth).
  rewrite Hk in Hex. exists l, l', held, k, pool'. split_and!; try done; [apply Hown|].
  intros q Hq. apply Hoth. congruence.
Qed.

(** Giving the entry back and making the call, with the mutex released. *)
Lemma release_and_call t i p v pool' nd h' (Q : unit + unit -> timer -> Prop) : es t !! p = Some v ->
  exec (ObjectPool.Release (Some p)) (t_pool t) tt pool' ->
  (forall t', t_pool t' = pool' -> t_worker_count t' = t_worker_count t -> t_now t' = t_now t ->
    t_fired t' = t_fired t ++ [(e_callback v, e_arg v)] ->
    t_shards t' = (fun j => if decide (j = i) then Shard true h' nd else t_shards t j) -> Q (inl tt) t') ->
  wp (cb <- get entries p callback ;; a <- get entries p arg ;;
      zoom entry_pool_ (ObjectPool.Release (Some p)) ;;;
      unlock (sub (shards_ i) mutex) ;;; call cb a ;;; lock (sub (shards_ i) mutex) ;;; Ret (inl tt)) Q
     (wr (sub (shards_ i) next_deadline) nd (wr (sub (shards_ i) heap) h' t)).
Proof.
  intros Hv Hex HQ. do 2 (eapply wp_get_bind; [exact Hv|]).
  apply wp_zoom_bind; [apply _|]. exists tt, pool'. split; [exact Hex|]. unfold unlock, call.
  apply wp_store_bind, wp_assoc, wp_fetch_bind, wp_ret_bind, wp_lock_bind.
  { simpl. by rewrite !decide_True by done. }
  apply wp_ret, HQ; try done; simpl.
  rewrite !decide_True by done. simpl. apply functional_extensionality. intros j. by repeat case_decide.
Qed.

Lemma pop_heap_bind t i h' {A} (g : unit -> prog timer A) Q : ShardPopFromHeap (es t) (hp t i) = Some h' ->
  wp (g tt) Q (wr (sub (shards_ i) heap) h' t) ->
  wp (u <- update_heap (sub (shards_ i) heap) ShardPopFromHeap ;; g u) Q t.
Proof.
  intros Hrun Hg. unfold update_heap. apply wp_act_bind.
  change (rd (sub (shards_ i) heap) t) with (hp t i). change (rd entries t) with (es t). by rewrite Hrun.
Qed.

Lemma process_round_ok t i now_us : timer_ok t -> s_mutex (t_shards t i) = true ->
  wp (process_round (shards_ i) now_us) (fun r t' =>
    match hp t i with
    | [] => r = inr tt /\ t' = t
    | p :: _ => if key (es t) p <=? now_us
                then r = inl tt /\ timer_ok t' /\ popped_one t t' i p
                else r = inr tt /\ t' = t
    end) t.
Proof.
  intros H Hm. unfold process_round. apply wp_load_bind. simpl.
  change (s_heap (t_shards t i)) with (hp t i).
  destruct (hp t i) as [|p r] eqn:Eh; [by wp_go|].
  assert (Hp : p ∈ hp t i) by (rewrite Eh; by left).
  destruct (ok_live t i H p Hp) as [v Hv].
  assert (Hkey : key (es t) p = e_deadline_us v) by (unfold key; by rewrite Hv).
  eapply wp_get_bind; [exact Hv|]. change (rd deadline_us v) with (e_deadline_us v). rewrite Hkey.
  destruct (Z.leb_spec (e_deadline_us v) now_us) as [Hle|Hgt]; [|by wp_go].
  eapply wp_get_bind; [exact Hv|]. change (rd cancelled v) with (e_cancelled v).
  assert (Hcall : call_of (es t) p = if e_cancelled v then [] else [(e_callback v, e_arg v)])
    by (unfold call_of; by rewrite Hv).
  pose proof (ShardPopFromHeap_run (es t) (hp t i) (ok_live t i H) (ok_ordered t H i)) as Hpop.
  rewrite Eh in Hpop. destruct Hpop as (h' & Hrun & Hperm & Hord & Hmin).
  destruct (release_ok t i p H Hp) as (l & l' & held & k & pool' & Hin & Hk & Hnd & _ & Hex & Hown & Hoth).
  assert (Hfin : forall nd t', (forall q, q ∈ h' -> nd <= key (es t) q) ->
    t_pool t' = pool' -> t_worker_count t' = t_worker_count t -> t_now t' = t_now t ->
    t_fired t' = t_fired t ++ call_of (es t) p ->
    t_shards t' = (fun j => if decide (j = i) then Shard true h' nd else t_shards t j) ->
    timer_ok t' /\ popped_one t t' i p).
  { intros nd t' Hnd'. eapply pop_ok; try done. by rewrite Eh. }
  destruct (e_cancelled v) eqn:Ec.
  - apply (pop_heap_bind t i h'); [by rewrite Eh|]. apply wp_zoom_bind; [apply _|]. exists tt, pool'. split; [exact Hex|]. wp_go.
    split; [done|]. apply (Hfin (s_next_deadline (t_shards t i))); try done; simpl.
    + intros q Hq. apply (ok_next _ H). rewrite Eh, Hperm. by right.
    + by rewrite Hcall, app_nil_r.
    + rewrite Hm. apply functional_extensionality. intros j. by case_decide.
  - apply (pop_heap_bind t i h'); [by rewrite Eh|]. apply wp_load_bind. simpl. rewrite decide_True by done. simpl.
    assert (Hrest : forall nd t', (forall q, q ∈ h' -> nd <= key (es t) q) ->
      t_pool t' = pool' -> t_worker_count t' = t_worker_count t -> t_now t' = t_now t ->
      t_fired t' = t_fired t ++ [(e_callback v, e_arg v)] ->
      t_shards t' = (fun j => if decide (j = i) then Shard true h' nd else t_shards t j) ->
      inl tt = inl tt :> unit + unit /\ timer_ok t' /\ popped_one t t' i p).
    { intros nd t' Hnd' ? ? ? E ?. split; [done|]. apply (Hfin nd); try done. by rewrite Hcall. }
    destruct h' as [|f h'']; simpl.
    + apply wp_store_bind. eapply (release_and_call t i p v pool'); [done..|]. intros t' E1 E2 E3 E4 E5.
      refine (Hrest _ t' _ E1 E2 E3 E4 E5). intros q Hq. by apply not_elem_of_nil in Hq.
    + assert (Hf : f ∈ hp t i) by (rewrite Eh, Hperm; right; by left).
      destruct (ok_live t i H f Hf) as [w Hw].
      apply wp_assoc. eapply wp_get_bind; [exact Hw|]. apply wp_store_bind.
      eapply (release_and_call t i p v pool'); [done..|]. intros t' E1 E2 E3 E4 E5. refine (Hrest _ t' _ E1 E2 E3 E4 E5).
      intros q Hq. change (rd deadline_us w) with (e_deadline_us w).
      assert (key (es t) f = e_deadline_us w) as <- by (unfold key; by rewrite Hw).
      by eapply (root_min _ (f :: h'')).
Qed.

(** [popped] has been taken out of shard [i], earliest first, and fired. *)
Record processed (t t' : timer) (i : nat) (now_us : Z) (popped : list ptr) : Prop := {
  pr_perm : hp t i ≡ₚ popped ++ hp t' i;
  pr_fired : t_fired t' = t_fired t ++ concat (call_of (es t) <$> popped);
  pr_sorted : StronglySorted (fun p q => key (es t) p <= key (es t) q) popped;
  pr_due : forall p, p ∈ popped -> key (es t) p <= now_us;
  pr_others : forall j, j <> i -> t_shards t' j = t_shards t j;
  pr_entries : forall j q, q ∈ hp t' j -> es t' !! q = es t !! q;
  pr_before : forall p q, p ∈ popped -> q ∈ hp t' i -> key (es t) p <= key (es t) q;
}.

Lemma processed_key t t' i n popped j q : processed t t' i n popped -> q ∈ hp t' j ->
  key (es t') q = key (es t) q.
Proof. intros H Hq. unfold key. by rewrite (pr_entries _ _ _ _ _ H j q Hq). Qed.

Lemma StronglySorted_snoc {A} (R : A -> A -> Prop) l x :
  StronglySorted R l -> (forall y, y ∈ l -> R y x) -> StronglySorted R (l ++ [x]).
Proof.
  induction 1 as [|y l Hs IH Hy]; intros Hx; simpl.
  - constructor; constructor.
  - constructor; [apply IH; intros z Hz; apply Hx; by right|].
    apply list.Forall_app. split; [done|]. constructor; [|constructor]. apply Hx. by left.
Qed.

Lemma processed_step t t1 t2 i now_us popped p r :
  processed t t1 i now_us popped -> hp t1 i = p :: r -> key (es t1) p <= now_us ->
  heap_ordered (es t1) (hp t1 i) ->
  popped_one t1 t2 i p -> processed t t2 i now_us (popped ++ [p]).
Proof.
  intros Hpr Eh Hle Hord (Hperm & Hoth & Hent & _ & _ & Hf & _).
  assert (Hp : p ∈ hp t1 i) by (rewrite Eh; by left).
  pose proof (processed_key _ _ _ _ _ i p Hpr Hp) as Hkp. pose proof Hpr as [].
  assert (Hmin : forall q, q ∈ hp t1 i -> key (es t) p <= key (es t) q).
  { intros q Hq. rewrite <- Hkp, <- (processed_key _ _ _ _ _ i q Hpr Hq).
    eapply root_min; [exact Hord| |exact Hq]. by rewrite Eh. }
  assert (Hsub : forall j q, q ∈ hp t2 j -> q ∈ hp t1 j).
  { intros j q Hq. destruct (decide (j = i)) as [->|Hne]; [rewrite Hperm; by right|].
    unfold hp in *. by rewrite <- Hoth. }
  split.
  - rewrite pr_perm0, Hperm, <- app_assoc. done.
  - rewrite Hf, pr_fired0, <- app_assoc, fmap_app, concat_app. simpl. rewrite app_nil_r.
    unfold call_of at 2 4. by rewrite (pr_entries0 i p Hp).
  - apply StronglySorted_snoc; [done|]. intros q Hq. by apply pr_before0.
  - intros q [Hq|Hq%list_elem_of_singleton]%elem_of_app; [by apply pr_due0|subst; lia].
  - intros j Hj. by rewrite Hoth, pr_others0.
  - intros j q Hq. rewrite (Hent j q Hq). apply (pr_entries0 j q). by apply Hsub.
  - intros a q [Ha|Ha%list_elem_of_singleton]%elem_of_app Hq.
    + apply pr_before0; [done|by apply Hsub].
    + subst. apply Hmin. by apply Hsub.
Qed.

Lemma timer_ok_ext t t' : timer_ok t -> t_pool t' = t_pool t -> (forall j, hp t' j = hp t j) ->
  (forall j p, p ∈ hp t j -> s_next_deadline (t_shards t' j) <= key (es t) p) -> timer_ok t'.
Proof.
  intros [H1 H2 H3 H4 H5] Hpool Hhp Hnd.
  assert (Hes : es t' = es t) by (unfold es, entries; simpl; by rewrite Hpool).
  split.
  - destruct H1 as (l & held & Hown & Hin). exists l, held. rewrite Hpool. split; [done|].
    intros j p. rewrite Hhp. apply Hin.
  - intros j. rewrite Hhp. apply H2.
  - intros j k p. rewrite !Hhp. apply H3.
  - intros j. rewrite Hhp, Hes. apply H4.
  - intros j p. rewrite Hhp, Hes. apply Hnd.
Qed.

Lemma processed_ext t t1 t2 i n popped : processed t t1 i n popped -> t_pool t2 = t_pool t1 ->
  (forall j, hp t2 j = hp t1 j) -> t_fired t2 = t_fired t1 ->
  (forall j, j <> i -> t_shards t2 j = t_shards t1 j) -> processed t t2 i n popped.
Proof.
  intros [H1 H2 H3 H4 H5 H6 H7] Hpool Hhp Hf Hj.
  assert (Hes : es t2 = es t1) by (unfold es, entries; simpl; by rewrite Hpool).
  split; rewrite ?Hhp, ?Hf, ?Hes; try done.
  - intros j Hne. by rewrite Hj, H5.
  - intros j q. rewrite Hhp. apply H6.
Qed.

Lemma processed_refl t i n : processed t t i n [].
Proof.
  split; simpl; try done.
  - by rewrite app_nil_r.
  - constructor.
  - intros p Hp. by apply not_elem_of_nil in Hp.
  - intros p q Hp. by apply not_elem_of_nil in Hp.
Qed.

Lemma hp_shard i (f : field shard bool) b t j : (forall v s, s_heap (wr f v s) = s_heap s) ->
  hp (wr (sub (shards_ i) f) b t) j = hp t j.
Proof. intros Hf. unfold hp; simpl. case_decide; subst; [apply Hf|done]. Qed.

(** What is established when the loop of [ProcessShard] stops. *)
Definition all_processed (t t' : timer) (i : nat) : Prop :=
  timer_ok t' /\ exists popped, processed t t' i (t_now t) popped /\
    (forall q, q ∈ hp t' i -> t_now t < key (es t) q).

Lemma process_loop_ok t t0 i : timer_ok t0 -> s_mutex (t_shards t0 i) = true ->
  processed t t0 i (t_now t) [] ->
  wp (loop tt (fun _ => process_round (shards_ i) (t_now t)))
     (fun _ t' => s_mutex (t_shards t' i) = true /\ all_processed t t' i) t0.
Proof.
  intros H0 Hm0 Hp0.
  apply (wp_loop_inv (fun _ t' => timer_ok t' /\ s_mutex (t_shards t' i) = true /\
           exists popped, processed t t' i (t_now t) popped)
         (fun _ t' => length (hp t' i))).
  { split_and!; try done. by exists []. }
  clear. intros [] t1 (H1 & Hm1 & popped & Hpr).
  eapply wp_mono; [by apply process_round_ok|]. intros r t2 Hr.
  pose proof (ok_ordered _ H1 i) as Hord1.
  destruct (hp t1 i) as [|p rest] eqn:Eh.
  - destruct Hr as [-> ->]. split; [done|]. split; [done|]. exists popped. split; [done|].
    intros q Hq. rewrite Eh in Hq. by apply not_elem_of_nil in Hq.
  - destruct (Z.leb_spec (key (es t1) p) (t_now t)) as [Hle|Hgt].
    + destruct Hr as (-> & H2 & Hpop). split.
      * split; [done|]. split; [apply Hpop|]. exists (popped ++ [p]).
        eapply processed_step; try done. by rewrite Eh.
      * destruct Hpop as (Hperm & _). apply Permutation_length in Hperm.
        rewrite Eh in Hperm. simpl in *. lia.
    + destruct Hr as [-> ->]. split; [done|]. split; [done|]. exists popped. split; [done|].
      intros q Hq. rewrite <- (processed_key _ _ _ _ _ i q Hpr Hq).
      assert (key (es t1) p <= key (es t1) q); [|lia].
      eapply root_min; [exact Hord1|done|]. by rewrite <- Eh.
Qed.

Lemma ProcessShard_run t i : timer_ok t -> s_mutex (t_shards t i) = false ->
  wp (ProcessShard (shards_ i)) (fun _ t' => s_mutex (t_shards t' i) = false /\ all_processed t t' i /\
      forall r q, hp t' i = r :: q -> s_next_deadline (t_shards t' i) = key (es t) r) t.
Proof.
  intros H Hm. unfold ProcessShard, GetTimeOfDayUs. apply wp_load_bind, wp_lock_bind; [exact Hm|].
  apply wp_bind. eapply wp_mono.
  { apply process_loop_ok.
    - eapply timer_ok_ext; [exact H|done|intros j; by apply hp_shard|].
      intros j p Hp. simpl. case_decide; subst; by apply (ok_next _ H).
    - simpl. by rewrite decide_True.
    - eapply processed_ext; [apply processed_refl|done|intros j; by apply hp_shard|done|].
      intros j Hj. simpl. by rewrite decide_False. }
  intros [] t1 (Hm1 & H1 & popped & Hpr & Hlate). apply wp_load_bind. simpl.
  change (s_heap (t_shards t1 i)) with (hp t1 i).
  assert (Hfin : forall t2, t_pool t2 = t_pool t1 -> (forall j, hp t2 j = hp t1 j) ->
    t_fired t2 = t_fired t1 -> (forall j, j <> i -> t_shards t2 j = t_shards t1 j) ->
    (forall p, p ∈ hp t1 i -> s_next_deadline (t_shards t2 i) <= key (es t1) p) ->
    all_processed t t2 i).
  { intros t2 E1 E2 E3 E4 E5. split.
    - eapply timer_ok_ext; [exact H1|done..|]. intros j p Hp.
      destruct (decide (j = i)) as [->|Hne]; [by apply E5|rewrite E4 by done; by apply (ok_next _ H1)].
    - exists popped. split; [by eapply processed_ext|]. intros q. rewrite E2. apply Hlate. }
  unfold unlock. destruct (hp t1 i) as [|r rest] eqn:Eh.
  - apply wp_ret_bind, wp_store. split; [simpl; by rewrite decide_True|]. split.
    + apply Hfin; try done; [intros j; by apply hp_shard|intros j Hj; simpl; by rewrite decide_False|].
      intros p Hp. by apply not_elem_of_nil in Hp.
    + intros r q. rewrite hp_shard by done. by rewrite Eh.
  - assert (Hr : r ∈ hp t1 i) by (rewrite Eh; by left).
    destruct (ok_live t1 i H1 r Hr) as [v Hv].
    assert (Hkr : key (es t1) r = e_deadline_us v) by (unfold key; by rewrite Hv).
    apply wp_assoc. eapply wp_get_bind; [exact Hv|]. apply wp_store_bind, wp_store.
    change (rd deadline_us v) with (e_deadline_us v). rewrite <- Hkr.
    split; [simpl; by rewrite decide_True|]. split.
    + apply Hfin; try done.
      * intros j. unfold hp; simpl. repeat case_decide; by subst.
      * intros j Hj. simpl. by rewrite !decide_False.
      * intros p Hp. simpl. rewrite !decide_True by done. simpl.
        eapply root_min; [apply (ok_ordered _ H1 i)|rewrite Eh; done|by rewrite Eh].
    + intros r' q E. simpl. rewrite !decide_True by done. simpl.
      assert (r' = r) as ->.
      { unfold hp in E, Eh; simpl in E. rewrite !decide_True in E by done. simpl in E. congruence. }
      by apply (processed_key _ _ _ _ _ i r Hpr).
Qed.

(** C14: ProcessShard takes out of its shard exactly the entries whose
    deadline has passed, calls back those not cancelled, once each and in
    deadline order, leaves the later entries and the other shards alone, keeps
    the heap invariant and, while entries remain, advertises the earliest
    deadline. *)
Theorem ProcessShard_fires_expired t i (H : timer_ok t) (Hm : s_mutex (t_shards t i) = false) :
  wp (ProcessShard (shards_ i)) (fun _ t' => timer_ok t' /\ s_mutex (t_shards t' i) = false /\
    exists popped, hp t i ≡ₚ popped ++ hp t' i /\
      StronglySorted (fun p q => key (es t) p <= key (es t) q) popped /\
      t_fired t' = t_fired t ++ concat (call_of (es t) <$> popped) /\
      (forall p, p ∈ popped -> key (es t) p <= t_now t) /\
      (forall q, q ∈ hp t' i -> t_now t < key (es t) q) /\
      (forall j, j <> i -> t_shards t' j = t_shards t j) /\
      (forall r q, hp t' i = r :: q -> s_next_deadline (t_shards t' i) = key (es t) r)) t.
Proof.
  eapply wp_mono; [by apply ProcessShard_run|].
  intros [] t' (Hm' & (H' & popped & [] & Hlate) & Hnext).
  split; [done|]. split; [done|]. exists popped. by split_and!.
Qed.

(** A timer thread with one worker's shard. *)
Definition one_shard : timer := wr worker_count_ 1 (TimerThread 5).

Lemma one_shard_ok : timer_ok one_shard.
Proof.
  apply (timer_ok_ext (TimerThread 5) _ (TimerThread_ok 5)); try done.
  intros j p Hp. by apply not_elem_of_nil in Hp.
Qed.

Example Schedule_adds_entry_witness :
  wp (Schedule 7 8 (Some (0, 2000))) (fun r t' =>
    r = 0 /\ t_next_id t' = 1 /\ t_shard_assign t' = 1 /\ timer_ok t' /\
    exists p, scheduled one_shard t' 0 p (Entry 7 8 7 0 false)) one_shard.
Proof.
  eapply wp_mono; [apply (Schedule_adds_entry one_shard 7 8 0 2000);
    [exact one_shard_ok|by vm_compute|done|done| |done|by split_and!; vm_compute]|].
  - split; [done|]. intros j q v Hq. by apply not_elem_of_nil in Hq.
  - intros r t' (-> & _ & _ & H1 & _ & H2 & E). split; [done|]. split; [by rewrite E|]. split; [by rewrite E|]. split; [exact H1|exact H2].
Defined.

(** The same thread with an entry of shard 0 that is due. *)
Definition one_due : timer :=
  Timer (ObjectPool.Pool {[1%nat := Entry 7 8 3 0 false]} {[1%nat := None]} 2 256 None 0)
    (fun j => if decide (j = 0%nat) then Shard false [1%nat] 3 else Shard false [] INT64_MAX)
    1 1 [] false false 0 1 5 [] false.

Lemma one_due_owned : ObjectPool.owned (t_pool one_due) [] [1%nat].
Proof.
  split; [|split; [by apply (NoDup_singleton 1%nat)|]].
  - split; simpl; try done; try apply NoDup_nil_2.
    + intros o. destruct (decide (o = 1%nat)) as [->|Hne];
        [by rewrite !lookup_singleton_eq|by rewrite !lookup_singleton_ne].
    + intros o [v [<- _]%lookup_singleton_Some]. lia.
  - split.
    + intros o ->%list_elem_of_singleton. split; [by apply not_elem_of_nil|by eexists].
    + intros o [v Hv]. simpl in Hv. apply lookup_singleton_Some in Hv as [<- _]. right. by apply list_elem_of_singleton.
Qed.

Lemma one_due_ok : timer_ok one_due.
Proof.
  assert (H0 : forall q, q ∉ ([] : list ptr)) by (intros q; apply not_elem_of_nil).
  refine (proj1 (schedule_ok one_shard [] [] 1%nat (Entry 7 8 3 0 false) [1%nat] 3 0%nat
    (t_pool one_due) one_shard_ok one_due_owned _ _ _ _ _ _ _ _ one_due _ _ _ _)); try done.
  - intros q Hq. by apply H0 in Hq.
  - intros q Hq. by apply lookup_singleton_ne.
  - intros [|k] x y Hk Hx; [lia|]. simpl in Hx. by rewrite lookup_nil in Hx.
Qed.

Example ProcessShard_fires_expired_witness :
  wp (ProcessShard (shards_ 0)) (fun _ t' => timer_ok t' /\ s_mutex (t_shards t' 0%nat) = false /\
    exists popped, [1%nat] ≡ₚ popped ++ hp t' 0 /\
      StronglySorted (fun p q => key (es one_due) p <= key (es one_due) q) popped /\
      t_fired t' = [] ++ concat (call_of (es one_due) <$> popped) /\
      (forall p, p ∈ popped -> key (es one_due) p <= 5) /\
      (forall q, q ∈ hp t' 0 -> 5 < key (es one_due) q) /\
      (forall j, j <> 0%nat -> t_shards t' j = t_shards one_due j) /\
      (forall r q, hp t' 0 = r :: q -> s_next_deadline (t_shards t' 0%nat) = key (es one_due) r)) one_due.
Proof. apply (ProcessShard_fires_expired one_due 0 one_due_ok). reflexivity. Defined.

(** There is an interleaving in which a timer of delay 0 fires and its entry
    is reused before Schedule reads entry->id again: two calls of Schedule
    return the same identifier. *)
Theorem Schedule_may_return_another_id :
  exists ts t, reachable
    ([Schedule 7 8 (Some (0, 0)); ProcessShard (shards_ 0) ;;; Ret 0; Schedule 9 9 (Some (0, 0))],
     one_shard) (ts, t) /\
    t_fired t = [(7, 8)] /\ ts !! 0%nat = Some (Ret 1) /\ ts !! 2%nat = Some (Ret 1).
Proof.
  destruct (sched_results_reachable t_fired (turn 0 18 ++ turn 1 26 ++ turn 2 22 ++ turn 0 1)
    ([Schedule 7 8 (Some (0, 0)); ProcessShard (shards_ 0) ;;; Ret 0; Schedule 9 9 (Some (0, 0))],
     one_shard) [Some 1; Some 0; Some 1] [(7, 8)]) as (ts & t & Hr & Hts & Hf);
    [vm_compute; reflexivity|].
  exists ts, t. split; [exact Hr|]. split; [exact Hf|].
  by split; apply (result_lookup _ _ _ _ Hts).
Qed.

(** ** Cancelling *)

Lemma cancel_in_run t h timer_id : live (es t) h ->
  wp (cancel_in h timer_id) (fun r t' =>
    if r : bool then exists p v, p ∈ h /\ es t !! p = Some v /\ e_id v = timer_id /\
                       t' = wr entries (<[p := wr cancelled true v]> (es t)) t
    else t' = t /\ forall p v, p ∈ h -> es t !! p = Some v -> e_id v <> timer_id) t.
Proof.
  unfold cancel_in. induction h as [|p h IH]; intros Hl; apply wp_loop_once.
  - wp_go. split; [done|]. intros p v Hp. by apply not_elem_of_nil in Hp.
  - destruct (Hl p) as [v Hv]; [by left|]. eapply wp_get_bind; [exact Hv|]. simpl.
    destruct (Z.eqb_spec (e_id v) timer_id) as [He|Hne].
    + eapply wp_set_bind; [exact Hv|]. wp_go. exists p, v. by split_and!; [left|..].
    + wp_go. eapply wp_mono; [apply IH; intros q Hq; apply Hl; by right|].
      intros [] t'; [intros (q & w & Hq & Hw); exists q, w; by split; [right|]|].
      intros [-> Hno]. split; [done|]. intros q w [-> |Hq]%elem_of_cons Hw; [by simplify_eq|].
      by eapply Hno.
Qed.

(** Marking an entry does not touch what the invariant is about. *)
Lemma timer_ok_marked t p v : timer_ok t -> es t !! p = Some v ->
  timer_ok (wr entries (<[p := wr cancelled true v]> (es t)) t).
Proof.
  intros [(l & held & Hown & Hin) H2 H3 H4 H5] Hv. set (t' := wr entries _ t).
  assert (Hkey : forall q, key (es t') q = key (es t) q).
  { intros q. unfold es at 1, entries, key; simpl.
    destruct (decide (q = p)) as [->|Hne]; [by rewrite lookup_insert_eq, Hv|].
    by rewrite lookup_insert_ne. }
  split; [|exact H2|exact H3| |].
  - exists l, held. split; [apply (ObjectPool.owned_set _ l held p (wr cancelled true v) Hown); by eexists|exact Hin].
  - intros j. apply (heap_ordered_ext (es t)); [by intros|apply H4].
  - intros j q Hq. rewrite Hkey. by apply H5.
Qed.

(** Locking a shard's mutex and unlocking it. *)
Lemma shard_relocked t i : s_mutex (t_shards t i) = false ->
  wr (sub (shards_ i) mutex) false (wr (sub (shards_ i) mutex) true t) = t.
Proof.
  intros Hm. destruct t as [pool sh]. simpl in *. f_equal. apply functional_extensionality. intros j.
  repeat case_decide; subst; try done. by destruct (sh i); simpl in *; subst.
Qed.

(** C27: On a sharded timer thread with its mutexes free Cancel(id) returns
    true exactly when an entry with that identifier is queued, and then marks
    one such entry so that it will not be called back and changes nothing
    else; otherwise nothing at all changes: every mutex is free again. The
    heaps keep their order either way. *)
Theorem Cancel_marks_entry t timer_id (H : timer_ok t) (Hwc : 0 < t_worker_count t)
    (Hm : forall i, s_mutex (t_shards t i) = false) :
  wp (Cancel timer_id) (fun r t' =>
    if r : bool then exists i p v, Z.of_nat i < t_worker_count t /\ p ∈ hp t i /\
        es t !! p = Some v /\ e_id v = timer_id /\
        t' = wr entries (<[p := wr cancelled true v]> (es t)) t /\
        timer_ok t' /\ call_of (es t') p = []
    else t' = t /\ forall i p v, Z.of_nat i < t_worker_count t -> p ∈ hp t i ->
        es t !! p = Some v -> e_id v <> timer_id) t.
Proof.
  unfold Cancel. apply wp_load_bind. simpl. rewrite (proj2 (Z.ltb_lt _ _) Hwc).
  apply (wp_loop_inv (fun i t' => t' = t /\ 0 <= i <= t_worker_count t /\
      forall j p v, Z.of_nat j < i -> p ∈ hp t j -> es t !! p = Some v -> e_id v <> timer_id)
    (fun i _ => Z.to_nat (t_worker_count t - i))).
  { split; [done|]. split; [lia|]. intros j p v Hj. lia. }
  intros i t1 (-> & Hi & Hno). destruct (Z.ltb_spec i (t_worker_count t)) as [Hlt|Hge].
  - apply wp_lock_bind; [apply Hm|]. apply wp_load_bind. set (t2 := wr (sub (shards_ (Z.to_nat i)) mutex) true t).
    assert (Eh : rd (sub (shards_ (Z.to_nat i)) heap) t2 = hp t (Z.to_nat i)) by (simpl; by rewrite decide_True).
    rewrite Eh. change (es t) with (es t2). apply wp_bind.
    eapply wp_mono; [apply cancel_in_run; by apply (ok_live t)|].
    intros [] t3; unfold unlock.
    + intros (p & v & Hp & Hv & He & ->). apply wp_store_bind, wp_ret.
      assert (E : wr (sub (shards_ (Z.to_nat i)) mutex) false (wr entries (<[p := wr cancelled true v]> (es t2)) t2)
                  = wr entries (<[p := wr cancelled true v]> (es t)) t).
      { change (wr entries (<[p := wr cancelled true v]> (es t2))
                 (wr (sub (shards_ (Z.to_nat i)) mutex) false t2) = wr entries (<[p := wr cancelled true v]> (es t)) t).
        unfold t2. by rewrite shard_relocked. }
      rewrite E. exists (Z.to_nat i), p, v. split; [lia|]. split_and!; try done; [by apply timer_ok_marked|].
      unfold call_of, es, entries; simpl. by rewrite lookup_insert_eq.
    + intros [-> Hno2]. apply wp_store_bind, wp_ret. unfold t2. rewrite shard_relocked by apply Hm.
      split; [|lia]. split; [done|]. split; [lia|].
      intros j p v Hj. destruct (decide (j = Z.to_nat i)) as [->|Hne]; [apply Hno2|].
      apply Hno. lia.
  - apply wp_ret. split; [done|]. intros j p v Hj. apply Hno. lia.
Qed.

Example Cancel_marks_entry_witness :
  wp (Cancel 0) (fun r t' =>
    if r : bool then exists i p v, Z.of_nat i < 1 /\ p ∈ hp one_due i /\
        es one_due !! p = Some v /\ e_id v = 0 /\
        t' = wr entries (<[p := wr cancelled true v]> (es one_due)) one_due /\
        timer_ok t' /\ call_of (es t') p = []
    else t' = one_due /\ forall i p v, Z.of_nat i < 1 -> p ∈ hp one_due i ->
        es one_due !! p = Some v -> e_id v <> 0) one_due.
Proof.
  apply (Cancel_marks_entry one_due 0 one_due_ok); [reflexivity|].
  intros i. simpl. by case_decide.
Defined.

End Timer.
