(* ===== verification/Mpmc.v ===== *)
(** * The queue of waiters

    Model of [MpmcQueue] ([include/bthread/queue/mpmc_queue.hpp]) as a [Butex]
    uses it: [head_] and [tail_] are members of the butex, the nodes are
    [mpmc_node] in the tasks. *)

From Stdlib Require Import ZArith Lia.
From stdpp Require Import base numbers list gmap relations option.
From S2P Require Import Prelude Task.

Open Scope Z_scope.

Module MpmcQueue.
Import Task.

(** The numbers of the enumeration constants, and those that [AddToHead]
    compares with. *)
Definition state_code (s : TaskState) : Z :=
  match s with READY => 0 | RUNNING => 1 | SUSPENDED => 2 | FINISHED => 3 end.
Definition MPMC_TASK_STATE_READY : Z := 1.
Definition MPMC_TASK_STATE_RUNNING : Z := 2.

Definition MAX_EMPTY_SPINS : Z := 1000.

Section Queue.
(** The butex. *)
Context (b : ptr).
Implicit Types (l : list (ptr * bool)) (p q : ptr) (c : bool) (m : memory).

Definition GetNext (p : ptr) : prog memory (option ptr) := get tasks p mpmc_next.
Definition SetNext (p : ptr) (n : option ptr) : prog memory unit := set tasks p mpmc_next n.
Definition ClearNext (p : ptr) : prog memory unit := set tasks p mpmc_next None.
Definition SetClaimed (p : ptr) (c : bool) : prog memory unit := set tasks p mpmc_claimed c.
Definition ClearClaimed (p : ptr) : prog memory unit := set tasks p mpmc_claimed false.

(** [is_waiting && !is_waiting->load()], the pointer being that of the item's
    own flag or null. *)
Definition stopped_waiting (item : ptr) (is_waiting : bool) : prog memory bool :=
  if is_waiting then w <- get tasks item Task.is_waiting ;; Ret (negb w) else Ret false.

Definition AddToTail (item : ptr) (is_waiting : bool) : prog memory unit :=
  s <- stopped_waiting item is_waiting ;;
  if s : bool then Ret tt
  else
    ClearNext item ;;;
    ClearClaimed item ;;;
    prev <- modify butexes b tail_ (fun _ => Some item) ;;
    s <- stopped_waiting item is_waiting ;;
    if s : bool then SetClaimed item true
    else
      match prev with
      | Some p => SetNext p (Some item)
      | None => cas_on butexes b head_ None (Some item) ;;; Ret tt
      end.

(** [state] says whether the pointer to the state is given. *)
Definition AddToHead (item : ptr) (is_waiting state : bool) : prog memory unit :=
  s <- stopped_waiting item is_waiting ;;
  if s : bool then Ret tt
  else
    loop tt (fun _ =>
      old_head <- get butexes b head_ ;;
      s <- stopped_waiting item is_waiting ;;
      if s : bool then Ret (inr tt)
      else
        SetNext item old_head ;;;
        c <- cas_on butexes b head_ old_head (Some item) ;;
        if c.1 : bool then
          s <- stopped_waiting item is_waiting ;;
          if s : bool then
            claimed_only <- (if state then
                               st <- get tasks item Task.state ;;
                               Ret ((state_code st =? MPMC_TASK_STATE_READY) ||
                                    (state_code st =? MPMC_TASK_STATE_RUNNING))
                             else Ret false) ;;
            if claimed_only : bool then SetClaimed item true ;;; Ret (inr tt)
            else
              SetClaimed item true ;;;
              cas_on butexes b head_ (Some item) old_head ;;;
              Ret (inr tt)
          else
            (match old_head with
             | None => cas_on butexes b tail_ None (Some item) ;;; Ret tt
             | Some _ => Ret tt
             end) ;;;
            Ret (inr tt)
        else Ret (inl tt)).

(** Taking out the only node. *)
Definition unlink_last (head : ptr) : prog memory bool :=
  c <- cas_on butexes b head_ (Some head) None ;;
  if c.1 : bool then cas_on butexes b tail_ (Some head) None ;;; Ret true else Ret false.

(** A round of [PopFromHead], with [empty_spin_count]. *)
Definition pop_round (empty_spin_count : Z) : prog memory (Z + option ptr) :=
  head <- get butexes b head_ ;;
  match head with
  | None =>
      tail <- get butexes b tail_ ;;
      match tail with
      | None => Ret (inr None)
      | Some _ =>
          let n := empty_spin_count + 1 in
          if n <? MAX_EMPTY_SPINS then pause ;;; Ret (inl n)
          else pause ;;; Ret (inl 0)
      end
  | Some h =>
      claimed <- modify tasks h mpmc_claimed (fun _ => true) ;;
      next <- GetNext h ;;
      if claimed : bool then
        match next with
        | Some n => cas_weak_on butexes b head_ (Some h) (Some n) ;;; Ret (inl 0)
        | None =>
            tail <- get butexes b tail_ ;;
            (if decide (tail = Some h) then unlink_last h ;;; Ret tt else Ret tt) ;;;
            pause ;;; Ret (inl 0)
        end
      else
        match next with
        | None =>
            last <- unlink_last h ;;
            if last : bool then Ret (inr (Some h))
            else SetClaimed h false ;;; pause ;;; Ret (inl 0)
        | Some n =>
            c <- cas_on butexes b head_ (Some h) (Some n) ;;
            if c.1 : bool then Ret (inr (Some h))
            else SetClaimed h false ;;; pause ;;; Ret (inl 0)
        end
  end.

Definition PopFromHead : prog memory (option ptr) := loop 0 pop_round.

(** The items written to the caller's buffer. *)
Definition PopMultipleFromHead (max_count : Z) : prog memory (list ptr) :=
  loop [] (fun out =>
    if Z.of_nat (length out) <? max_count then
      item <- PopFromHead ;;
      match item with
      | None => Ret (inr out)
      | Some p => Ret (inl (out ++ [p]))
      end
    else Ret (inr out)).

Definition Remove (item : ptr) (is_waiting : bool) : prog memory unit :=
  if is_waiting then
    c <- cas_on tasks item Task.is_waiting true false ;;
    if c.1 : bool then SetClaimed item true else Ret tt
  else Ret tt.

Definition IsEmpty : prog memory bool :=
  h <- get butexes b head_ ;; Ret (bool_decide (h = None)).

(** ** The queue as a list

    [repr m l]: the nodes of the queue in order; a node whose [claimed] flag is
    set was removed and will be skipped. *)
Definition node (m : memory) (p : ptr) (next : option ptr) (claimed : bool) : Prop :=
  exists o, mem_tasks m !! p = Some o /\ m_mpmc_next o = next /\ m_mpmc_claimed o = claimed.

Record repr (m : memory) (l : list (ptr * bool)) : Prop := {
  repr_butex : exists o, mem_butexes m !! b = Some o /\ b_head_ o = head l.*1 /\ b_tail_ o = list.last l.*1;
  repr_nodes : forall k p c, l !! k = Some (p, c) -> node m p (l.*1 !! S k) c;
  repr_nodup : NoDup l.*1;
}.

(** The items not removed. *)
Definition items (l : list (ptr * bool)) : list ptr := (filter (fun x => x.2 = false) l).*1.

(** ** The operations on that list, one caller at a time *)

(** Nothing but nodes and the two ends of this queue changes. *)
Definition nodes_only (m m' : memory) : Prop :=
  m' = wr tasks (mem_tasks m') (wr butexes (mem_butexes m') m) /\
  (forall q, q <> b -> mem_butexes m' !! q = mem_butexes m !! q) /\
  (forall o, mem_butexes m !! b = Some o -> exists h t, mem_butexes m' !! b = Some (wr head_ h (wr tail_ t o))) /\
  (forall q, mem_tasks m !! q = None -> mem_tasks m' !! q = None) /\
  (forall q o, mem_tasks m !! q = Some o ->
     exists n c, mem_tasks m' !! q = Some (wr mpmc_next n (wr mpmc_claimed c o))).

Lemma nodes_only_refl m : nodes_only m m.
Proof.
  split; [by destruct m|]. split; [done|]. split; [intros o ->; by exists (b_head_ o), (b_tail_ o); destruct o|].
  split; [done|]. intros q o ->. exists (m_mpmc_next o), (m_mpmc_claimed o). by destruct o.
Qed.

Lemma nodes_only_trans m1 m2 m3 : nodes_only m1 m2 -> nodes_only m2 m3 -> nodes_only m1 m3.
Proof.
  intros (A1 & A2 & A3 & A4 & A5) (B1 & B2 & B3 & B4 & B5).
  split; [rewrite B1, A1; by destruct m1|]. split; [intros q Hq; by rewrite B2, A2|].
  split. { intros o Ho. destruct (A3 o Ho) as (h & t & H1). destruct (B3 _ H1) as (h' & t' & ->).
           by exists h', t'. }
  split; [intros q Hq; by apply B4, A4|].
  intros q o Hq. destruct (A5 q o Hq) as (n & c & H1). destruct (B5 _ _ H1) as (n' & c' & ->).
  by exists n', c'.
Qed.

(** The two kinds of step. *)
Lemma nodes_only_task m p o n c : mem_tasks m !! p = Some o ->
  nodes_only m (wr tasks (<[p := wr mpmc_next n (wr mpmc_claimed c o)]> (mem_tasks m)) m).
Proof.
  intros Hp. destruct (nodes_only_refl m) as (A1 & A2 & A3 & A4 & A5). split; [by destruct m|].
  split; [done|]. split; [done|]. split; simpl.
  - intros q Hq. rewrite lookup_insert_ne by congruence. by apply A4.
  - intros q o' Hq. destruct (decide (q = p)) as [->|Hne].
    + rewrite lookup_insert_eq. assert (o' = o) as -> by congruence. by exists n, c.
    + rewrite lookup_insert_ne by done. by apply A5.
Qed.

Lemma nodes_only_ends m o h t : mem_butexes m !! b = Some o ->
  nodes_only m (wr butexes (<[b := wr head_ h (wr tail_ t o)]> (mem_butexes m)) m).
Proof.
  intros Ho. destruct (nodes_only_refl m) as (A1 & A2 & A3 & A4 & A5). split; [by destruct m|].
  split; [intros q Hq; simpl; by rewrite lookup_insert_ne|].
  split; [|done]. intros o' Ho'. assert (o' = o) as -> by congruence. exists h, t. simpl.
  by rewrite lookup_insert_eq.
Qed.

Lemma node_ne m p q o next c : p <> q -> node m p next c ->
  node (wr tasks (<[q := o]> (mem_tasks m)) m) p next c.
Proof. intros Hne (o' & Ho & H). exists o'. simpl. by rewrite lookup_insert_ne. Qed.

Lemma repr_fst_lookup l k p c : l !! k = Some (p, c) -> (l.*1 : list ptr) !! k = Some p.
Proof. intros H. by rewrite list_lookup_fmap, H. Qed.

(** Moving [head_] over the first node. *)
Lemma repr_advance m p c x l o : repr m ((p, c) :: x :: l) -> mem_butexes m !! b = Some o ->
  repr (wr butexes (<[b := wr head_ (Some x.1) o]> (mem_butexes m)) m) (x :: l).
Proof.
  intros [(o' & Ho' & Hh & Ht) Hn Hnd] Ho. rewrite Ho in Ho'. injection Ho' as <-. split.
  - eexists. split; [apply lookup_insert_eq|]. simpl. by split; [|rewrite Ht].
  - intros k q d Hk. exact (Hn (S k) q d Hk).
  - by apply list.NoDup_cons in Hnd as [_ ?].
Qed.

(** Changing a node that is not in the queue. *)
Lemma repr_outside m l p o : repr m l -> p ∉ l.*1 -> repr (wr tasks (<[p := o]> (mem_tasks m)) m) l.
Proof.
  intros [H1 H2 H3] Hp. split; [done| |done]. intros k q c Hk. apply node_ne; [|by apply H2].
  intros ->. apply Hp. by eapply list_elem_of_lookup_2, repr_fst_lookup.
Qed.

(** The flag [is_waiting] of a task, if the task exists. *)
Definition waiting (m : memory) (p : ptr) : option bool := m_is_waiting <$> mem_tasks m !! p.

Lemma stopped_waiting_ok m p w A (g : bool -> prog memory A) Q : waiting m p = Some true ->
  wp (g false) Q m -> wp (s <- stopped_waiting p w ;; g s) Q m.
Proof.
  intros Hw H. unfold stopped_waiting. destruct w; [|by apply wp_ret_bind].
  unfold waiting in Hw. destruct (mem_tasks m !! p) as [o|] eqn:Ho; [|done]. injection Hw as Hw.
  apply wp_assoc. eapply wp_get_bind; [exact Ho|]. simpl. rewrite Hw. by apply wp_ret_bind.
Qed.

(** Linking a new last node. *)
Lemma repr_append m l p o : repr m l -> p ∉ l.*1 -> mem_tasks m !! p = Some o ->
  m_mpmc_next o = None -> m_mpmc_claimed o = false ->
  forall m', mem_tasks m' = match list.last l with
                            | Some (q, _) => from_option (fun oq => <[q := wr mpmc_next (Some p) oq]> (mem_tasks m))
                                               (mem_tasks m) (mem_tasks m !! q)
                            | None => mem_tasks m
                            end ->
  (exists ob, mem_butexes m' !! b = Some ob /\
     b_head_ ob = match head l.*1 with Some h => Some h | None => Some p end /\ b_tail_ ob = Some p) ->
  repr m' (l ++ [(p, false)]).
Proof.
  intros [(ob & Hob & Hh & Ht) Hn Hnd] Hp Ho Hnx Hcl m' Hm' (ob' & Hob' & Hh' & Ht').
  split.
  - exists ob'. split; [done|]. rewrite fmap_app. simpl. rewrite last_snoc. split; [|done].
    rewrite Hh'. by destruct l as [|[]].
  - intros k q c Hk. destruct l as [|[z d] l' _] using rev_ind.
    + destruct k as [|k]; [|done]. injection Hk as <- <-. simpl. exists o. by rewrite Hm'.
    + rewrite last_snoc in Hm'. destruct (Hn (length l') z d) as (oz & Hoz & Hz & Hzc);
        [by apply list_lookup_middle|]. rewrite Hoz in Hm'. simpl in Hm'.
      rewrite fmap_app in Hnd, Hp. simpl in *.
      assert (Hzp : z <> p) by (intros ->; apply Hp; set_solver).
      destruct (decide (k = length (l' ++ [(z, d)]))) as [->|Hne].
      * rewrite list_lookup_middle in Hk by done. injection Hk as <- <-.
        exists o. rewrite Hm', lookup_insert_ne by done. split; [done|].
        rewrite Hnx. split; [|done]. symmetry. apply lookup_ge_None_2.
        rewrite length_fmap, !length_app. simpl. lia.
      * assert (Hlt : (k < length (l' ++ [(z, d)]))%nat).
        { apply lookup_lt_Some in Hk. rewrite length_app in Hk. simpl in Hk. lia. }
        rewrite lookup_app_l in Hk by done. destruct (decide (k = length l')) as [->|Hne2].
        -- rewrite list_lookup_middle in Hk by done. injection Hk as <- <-.
           exists (wr mpmc_next (Some p) oz). rewrite Hm', lookup_insert_eq. split; [done|].
           split; [|done]. simpl. symmetry. rewrite !fmap_app. simpl.
           rewrite list_lookup_middle; [done|]. rewrite length_app, length_fmap. simpl. lia.
        -- destruct (Hn k q c Hk) as (oq & Hoq & Hq & Hqc). rewrite length_app in Hlt. simpl in Hlt.
           assert (q <> z).
           { intros ->. apply list.NoDup_app in Hnd as (_ & Hd & _). apply (Hd z); [|by left].
             rewrite lookup_app_l in Hk by lia. by eapply list_elem_of_lookup_2, repr_fst_lookup. }
           exists oq. rewrite Hm', lookup_insert_ne by done. split; [done|]. rewrite Hq. split; [|done].
           rewrite !fmap_app. simpl. rewrite (lookup_app_l (_ ++ [z])); [done|].
           rewrite length_app, length_fmap. simpl. lia.
  - rewrite fmap_app. simpl. apply list.NoDup_app. split; [done|]. split; [|apply NoDup_singleton].
    intros x Hx ->%list_elem_of_singleton. done.
Qed.

Lemma nodes_only_then_ends m m1 o h t : nodes_only m m1 -> mem_butexes m1 !! b = Some o ->
  nodes_only m (wr butexes (<[b := wr head_ h (wr tail_ t o)]> (mem_butexes m1)) m1).
Proof. intros H Ho. eapply nodes_only_trans; [exact H|by apply nodes_only_ends]. Qed.

Lemma waiting_nodes m m' p : nodes_only m m' -> waiting m' p = waiting m p.
Proof.
  intros (_ & _ & _ & H1 & H2). unfold waiting. destruct (mem_tasks m !! p) as [o|] eqn:Ho.
  - destruct (H2 _ _ Ho) as (n & c & ->). done.
  - by rewrite H1.
Qed.

Lemma AddToTail_repr m l p w : repr m l -> p ∉ l.*1 -> waiting m p = Some true ->
  wp (AddToTail p w) (fun _ m' => repr m' (l ++ [(p, false)]) /\ nodes_only m m') m.
Proof.
  intros H Hp Hw. unfold AddToTail. apply stopped_waiting_ok; [done|].
  pose proof Hw as Hw'. unfold waiting in Hw'. destruct (mem_tasks m !! p) as [o|] eqn:Ho; [|done].
  pose proof (repr_butex _ _ H) as (ob & Hob & Hh & Ht). unfold ClearNext, ClearClaimed.
  eapply wp_set_bind; [exact Ho|]. eapply wp_set_bind; [apply lookup_insert_eq|].
  simpl. rewrite insert_insert_eq. eapply wp_modify_bind; [exact Hob|]. simpl.
  set (o1 := wr mpmc_claimed false (wr mpmc_next None o)). match goal with |- wp _ _ ?s => set (m1 := s) end.
  assert (N1 : nodes_only m m1).
  { exact (nodes_only_then_ends _ _ ob (b_head_ ob) (Some p) (nodes_only_task m p o None false Ho) Hob). }
  assert (Ho1 : mem_tasks m1 !! p = Some o1) by apply lookup_insert_eq.
  apply stopped_waiting_ok; [by rewrite (waiting_nodes _ _ _ N1)|].
  assert (Hrep : repr (wr tasks (<[p := o1]> (mem_tasks m)) m) l) by (by apply repr_outside).
  destruct (b_tail_ ob) as [z|] eqn:Ez.
  - unfold SetNext. symmetry in Ht. destruct l as [|[z' d] l _] using rev_ind; [done|].
    rewrite fmap_app in Ht. simpl in Ht. rewrite last_snoc in Ht. injection Ht as ->.
    destruct (repr_nodes _ _ Hrep (length l) z d) as (oz & Hoz & _); [by apply list_lookup_middle|].
    eapply wp_set; [exact Hoz|]. split.
    + eapply (repr_append _ _ p o1 Hrep); [exact Hp|apply lookup_insert_eq|done|done| |].
      * rewrite last_snoc, Hoz. done.
      * eexists. split; [apply lookup_insert_eq|]. simpl. split; [|done]. rewrite Hh.
        by destruct l as [|[]].
    + eapply nodes_only_trans; [exact N1|].
      exact (nodes_only_task m1 z oz (Some p) (m_mpmc_claimed oz) Hoz).
  - destruct l as [|[z d] l _] using rev_ind;
      [|rewrite fmap_app in Ht; simpl in Ht; rewrite last_snoc in Ht; done].
    eapply wp_cas_on_bind; [apply lookup_insert_eq|]. simpl. rewrite decide_True by done. apply wp_ret.
    simpl. rewrite insert_insert_eq. split.
    + eapply (repr_append _ [] p o1 Hrep); [exact Hp|apply lookup_insert_eq|done..|].
      eexists. split; [apply lookup_insert_eq|]. by simpl.
    + exact (nodes_only_then_ends _ _ ob (Some p) (Some p) (nodes_only_task m p o None false Ho) Hob).
Qed.

(** The list without its first live item. *)
Fixpoint after_pop l : list (ptr * bool) :=
  match l with
  | [] => []
  | (_, true) :: l => after_pop l
  | (_, false) :: l => l
  end.

(** Setting the [claimed] flag of the first node. *)
Lemma repr_claim m p c l o d : repr m ((p, c) :: l) -> mem_tasks m !! p = Some o ->
  repr (wr tasks (<[p := wr mpmc_claimed d o]> (mem_tasks m)) m) ((p, d) :: l).
Proof.
  intros [H1 H2 H3] Ho. split; [done| |done]. intros [|k] q e Hk; simpl in Hk.
  - injection Hk as <- <-. destruct (H2 O p c eq_refl) as (o' & Ho' & Hn & _).
    assert (o' = o) as -> by congruence. eexists. split; [apply lookup_insert_eq|]. by split.
  - apply node_ne; [|exact (H2 (S k) q e Hk)]. intros ->. apply list.NoDup_cons in H3 as [H3 _].
    apply H3. by eapply list_elem_of_lookup_2, repr_fst_lookup.
Qed.

Lemma unlink_last_ok m p c : repr m [(p, c)] ->
  wp (unlink_last p) (fun r m' => r = true /\ repr m' [] /\ nodes_only m m') m.
Proof.
  intros [(ob & Hob & Hh & Ht) Hn Hnd]. unfold unlink_last. simpl in Hh, Ht.
  eapply wp_cas_on_bind; [exact Hob|]. simpl. rewrite decide_True by done.
  eapply wp_cas_on_bind; [apply lookup_insert_eq|]. simpl. rewrite decide_True by done.
  apply wp_ret. simpl. rewrite insert_insert_eq. split; [done|].
  split; [|exact (nodes_only_ends m ob None None Hob)]. split; [|done|constructor].
  eexists. split; [apply lookup_insert_eq|]. done.
Qed.

Lemma pop_round_ok m l n : repr m l ->
  wp (pop_round n) (fun r m' => nodes_only m m' /\
    match l with
    | [] => r = inr None /\ repr m' []
    | (p, true) :: l' => r = inl 0 /\ repr m' l'
    | (p, false) :: l' => r = inr (Some p) /\ repr m' l'
    end) m.
Proof.
  intros H. pose proof (repr_butex _ _ H) as (ob & Hob & Hh & Ht). unfold pop_round.
  eapply wp_get_bind; [exact Hob|]. simpl. rewrite Hh. destruct l as [|[p c] l]; simpl.
  - eapply wp_get_bind; [exact Hob|]. simpl. rewrite Ht. apply wp_ret.
    split; [apply nodes_only_refl|]. by split.
  - destruct (repr_nodes _ _ H O p c eq_refl) as (o & Ho & Hnx & Hcl). simpl in Hnx.
    eapply wp_modify_bind; [exact Ho|]. simpl. rewrite Hcl.
    set (m1 := wr tasks (<[p := wr mpmc_claimed true o]> (mem_tasks m)) m).
    pose proof (repr_claim m p c l o true H Ho) as H1. fold m1 in H1.
    assert (N1 : nodes_only m m1).
    { replace (wr mpmc_claimed true o) with (wr mpmc_next (m_mpmc_next o) (wr mpmc_claimed true o))
        in m1 by (by destruct o). by apply nodes_only_task. }
    unfold GetNext. eapply wp_get_bind; [apply lookup_insert_eq|].
    match goal with |- wp _ _ ?s => change s with m1 end. simpl. rewrite Hnx.
    destruct l as [|x l]; simpl.
    + destruct c.
      * eapply wp_get_bind; [exact Hob|]. simpl. rewrite Ht, decide_True by done. apply wp_assoc.
        apply wp_bind. eapply wp_mono; [exact (unlink_last_ok m1 p true H1)|]. intros r m2 (-> & H2 & N2).
        apply wp_ret_bind, wp_pause_bind, wp_ret. split; [by eapply nodes_only_trans|]. by split.
      * apply wp_bind. eapply wp_mono; [exact (unlink_last_ok m1 p true H1)|]. intros r m2 (-> & H2 & N2).
        apply wp_ret. split; [by eapply nodes_only_trans|]. by split.
    + pose proof (repr_advance m1 p true x l ob H1 Hob) as H2.
      assert (N2 : nodes_only m (wr butexes (<[b := wr head_ (Some x.1) ob]> (mem_butexes m1)) m1)).
      { exact (nodes_only_then_ends _ _ ob (Some x.1) (b_tail_ ob) N1 Hob). }
      destruct c.
      * eapply wp_cas_weak_on_bind; [exact Hob|]. simpl. rewrite decide_True by done.
        apply wp_ret. split; [exact N2|]. by split.
      * eapply wp_cas_on_bind; [exact Hob|]. simpl. rewrite decide_True by done.
        apply wp_ret. split; [exact N2|]. by split.
Qed.

Lemma PopFromHead_repr m l : repr m l ->
  wp (PopFromHead) (fun r m' => r = head (items l) /\ repr m' (after_pop l) /\ nodes_only m m') m.
Proof.
  unfold PopFromHead. generalize 0 at 1. revert m. induction l as [|[p []] l IH]; intros m n H;
    apply wp_loop_once; (eapply wp_mono; [by eapply pop_round_ok|]); intros r m1 [N1 Hr]; simpl in Hr;
    destruct Hr as [-> H1].
  - by split_and!.
  - eapply wp_mono; [by apply IH|]. intros r m2 (-> & H2 & N2). unfold items. simpl.
    split; [done|]. split; [done|]. by eapply nodes_only_trans.
  - unfold items. simpl. by split_and!.
Qed.

Lemma AddToHead_repr m l p w st o : repr m l -> p ∉ l.*1 -> mem_tasks m !! p = Some o ->
  m_is_waiting o = true ->
  wp (AddToHead p w st) (fun _ m' => repr m' ((p, m_mpmc_claimed o) :: l) /\ nodes_only m m') m.
Proof.
  intros H Hp Ho Hwo. assert (Hw : waiting m p = Some true) by (unfold waiting; by rewrite Ho, <- Hwo).
  unfold AddToHead. apply stopped_waiting_ok; [done|].
  pose proof (repr_butex _ _ H) as (ob & Hob & Hh & Ht). apply wp_loop_once.
  eapply wp_get_bind; [exact Hob|]. apply stopped_waiting_ok; [done|].
  eapply wp_set_bind; [exact Ho|]. eapply wp_cas_on_bind; [exact Hob|]. rewrite decide_True by done.
  set (o1 := wr mpmc_next (rd head_ ob) o).
  match goal with |- wp _ _ ?s => set (m1 := s) end.
  assert (N1 : nodes_only m m1).
  { pose proof (nodes_only_task m p o (rd head_ ob) (m_mpmc_claimed o) Ho) as N.
    exact (nodes_only_then_ends _ _ ob (Some p) (b_tail_ ob) N Hob). }
  apply stopped_waiting_ok; [by rewrite (waiting_nodes _ _ _ N1)|]. simpl.
  assert (Hfin : forall m2, mem_tasks m2 = <[p := o1]> (mem_tasks m) ->
    mem_butexes m2 = <[b := wr head_ (Some p) (wr tail_ (list.last (p :: l.*1)) ob)]> (mem_butexes m) ->
    repr m2 ((p, m_mpmc_claimed o) :: l)).
  { intros m2 E1 E2. split.
    - eexists. rewrite E2. split; [apply lookup_insert_eq|]. done.
    - intros [|k] q c Hk; simpl in Hk.
      + injection Hk as <- <-. exists o1. rewrite E1. split; [apply lookup_insert_eq|]. split; [|done].
        simpl. rewrite Hh. apply head_lookup.
      + destruct (repr_nodes _ _ H k q c Hk) as (oq & Hoq & Hq). exists oq. rewrite E1.
        rewrite lookup_insert_ne; [done|]. intros ->. apply Hp.
        by eapply list_elem_of_lookup_2, repr_fst_lookup.
    - simpl. apply list.NoDup_cons. split; [done|]. apply (repr_nodup _ _ H). }
  rewrite Hh. destruct l as [|x l]; simpl.
  - eapply wp_cas_on_bind; [apply lookup_insert_eq|]. rewrite decide_True by done. wp_go. split.
    + apply Hfin; [done|]. simpl. by rewrite insert_insert_eq.
    + exact (nodes_only_then_ends _ m1 _ (Some p) (Some p) N1 (lookup_insert_eq _ _ _)).
  - wp_go. split; [|exact N1]. apply Hfin; [done|]. simpl in Ht |- *. rewrite <- Ht. by destruct ob.
Qed.

Lemma IsEmpty_repr m l : repr m l ->
  wp IsEmpty (fun r m' => r = bool_decide (l = []) /\ m' = m) m.
Proof.
  intros H. pose proof (repr_butex _ _ H) as (ob & Hob & Hh & Ht). unfold IsEmpty.
  eapply wp_get_bind; [exact Hob|]. apply wp_ret. split; [|done]. simpl. rewrite Hh.
  apply bool_decide_ext. by destruct l as [|[]].
Qed.

(** Marking an item, wherever it is. *)
Definition mark p l : list (ptr * bool) := (fun x => if decide (x.1 = p) then (x.1, true) else x) <$> l.

Lemma mark_fst p l : (mark p l).*1 = l.*1.
Proof.
  unfold mark. rewrite <- list_fmap_compose. apply list_fmap_ext. intros i [q c] _. simpl.
  by destruct (decide (q = p)).
Qed.

Lemma repr_mark m l p o : repr m l -> mem_tasks m !! p = Some o ->
  repr (wr tasks (<[p := wr mpmc_claimed true (wr is_waiting false o)]> (mem_tasks m)) m) (mark p l).
Proof.
  intros [H1 H2 H3] Ho. split; rewrite mark_fst; [done| |done]. intros k q c Hk.
  unfold mark in Hk. apply list_lookup_fmap_Some in Hk as ([q' c'] & E & Hk).
  destruct (H2 _ _ _ Hk) as (oq & Hoq & Hq & Hqc). simpl in E. destruct (decide (q' = p)) as [->|Hne].
  - injection E as -> ->. assert (oq = o) as -> by congruence. eexists. split; [apply lookup_insert_eq|].
    by split.
  - injection E as -> ->. exists oq. simpl. by rewrite lookup_insert_ne.
Qed.

Lemma items_after_pop l : items (after_pop l) = tail (items l).
Proof. induction l as [|[p []] l IH]; [done|..]; unfold items in *; simpl; by rewrite ?IH. Qed.

(** The list after popping up to [n] waiters: the withdrawn ones before them go
    too, and those before the end when there are not as many. *)
Fixpoint after_pops (n : nat) (l : list (ptr * bool)) : list (ptr * bool) :=
  match n with
  | O => l
  | S n => match items l with [] => after_pop l | _ :: _ => after_pops n (after_pop l) end
  end.

Lemma items_after_pops n l : items (after_pops n l) = drop n (items l).
Proof.
  revert l; induction n as [|n IH]; intros l; simpl; [by rewrite drop_0|].
  destruct (items l) as [|p rest] eqn:E; [by rewrite items_after_pop, E|].
  by rewrite IH, items_after_pop, E.
Qed.

Lemma PopMultipleFromHead_pops m l n : repr m l ->
  wp (PopMultipleFromHead n) (fun out m' => out = take (Z.to_nat n) (items l) /\ nodes_only m m' /\
    repr m' (after_pops (Z.to_nat n) l)) m.
Proof.
  intros H. unfold PopMultipleFromHead.
  apply (wp_loop_inv (fun out m' => (length out <= Z.to_nat n)%nat /\ out = take (length out) (items l) /\
           nodes_only m m' /\ exists l', repr m' l' /\ items l' = drop (length out) (items l) /\
           after_pops (Z.to_nat n - length out) l' = after_pops (Z.to_nat n) l)
         (fun out _ => Z.to_nat n - length out)%nat).
  { split; [simpl; lia|]. split; [done|]. split; [apply nodes_only_refl|]. exists l.
    split; [done|]. split; [done|]. cbn [length]. by rewrite Nat.sub_0_r. }
  intros out m1 (Hlen & Hout & N1 & l1 & H1 & Hi & Ha).
  destruct (Z.ltb_spec (Z.of_nat (length out)) n) as [Hlt|Hge].
  - destruct (Z.to_nat n - length out)%nat as [|k] eqn:Ek; [lia|]. simpl in Ha.
    apply wp_bind. eapply wp_mono; [by apply PopFromHead_repr|]. intros r m2 (-> & H2 & N2).
    destruct (items l1) as [|p rest] eqn:Ei; symmetry in Hi; simpl; apply wp_ret.
    + assert (length (items l) <= length out)%nat.
      { apply (f_equal length) in Hi. rewrite length_drop in Hi. simpl in Hi. lia. }
      split; [rewrite Hout, !take_ge by lia; done|]. split; [by eapply nodes_only_trans|]. by rewrite <- Ha.
    + assert (Hp : items l !! length out = Some p).
      { apply (f_equal head) in Hi. rewrite head_lookup, lookup_drop, Nat.add_0_r in Hi. done. }
      rewrite length_app. cbn [length]. rewrite Nat.add_1_r. split; [|lia]. split; [lia|].
      split; [by rewrite (take_S_r _ _ p), <- Hout by done|]. split; [by eapply nodes_only_trans|].
      exists (after_pop l1). split; [done|]. rewrite (drop_S _ p) in Hi by done. injection Hi as Hi.
      rewrite items_after_pop, Ei. split; [by rewrite Hi|]. rewrite <- Ha. f_equal. lia.
  - apply wp_ret. assert (length out = Z.to_nat n) as El by lia. rewrite <- El. split; [done|].
    split; [done|]. rewrite <- El, Nat.sub_diag in Ha. simpl in Ha. by rewrite <- Ha.
Qed.

Lemma PopMultipleFromHead_repr m l n : repr m l ->
  wp (PopMultipleFromHead n) (fun out m' => out = take (Z.to_nat n) (items l) /\ nodes_only m m' /\
    exists l', repr m' l' /\ items l' = drop (Z.to_nat n) (items l)) m.
Proof.
  intros H. eapply wp_mono; [by apply PopMultipleFromHead_pops|]. intros out m' (H1 & H2 & H3).
  split; [done|]. split; [done|]. eexists. split; [exact H3|apply items_after_pops].
Qed.

(** ** The queue and its items

    The list of the queue and, for every task, its flag [is_waiting]. *)
Definition waiters_of : Type := list (ptr * bool) * gmap ptr bool.

(** An item enters the queue as [Wait] lets it: marked as waiting, its node
    prepared. *)
Inductive queue_op :=
| EnterTail (p : ptr) | EnterHead (p : ptr) | Pop | PopSeveral (n : Z) | Withdraw (p : ptr) | AskEmpty.
Inductive queue_ret := Unit | Item (p : option ptr) | Items (ps : list ptr) | Flag (e : bool).

Definition prepare p : prog memory unit :=
  set tasks p is_waiting true ;;; ClearNext p ;;; ClearClaimed p.

Definition do_queue_op (op : queue_op) : prog memory queue_ret :=
  match op with
  | EnterTail p => prepare p ;;; AddToTail p true ;;; Ret Unit
  | EnterHead p => prepare p ;;; AddToHead p true true ;;; Ret Unit
  | Pop => r <- PopFromHead ;; Ret (Item r)
  | PopSeveral n => r <- PopMultipleFromHead n ;; Ret (Items r)
  | Withdraw p => Remove p true ;;; Ret Unit
  | AskEmpty => e <- IsEmpty ;; Ret (Flag e)
  end.

Fixpoint do_queue_ops (ops : list queue_op) : prog memory (list queue_ret) :=
  match ops with
  | [] => Ret []
  | op :: ops => r <- do_queue_op op ;; rs <- do_queue_ops ops ;; Ret (r :: rs)
  end.

(** What an operation means.  An item may not enter while its node is in the
    queue, removed or not. *)
Definition queue_step (s : waiters_of) (op : queue_op) : option (queue_ret * waiters_of) :=
  let '(l, W) := s in
  match op with
  | EnterTail p =>
      if bool_decide (p ∈ dom W /\ p ∉ l.*1) then Some (Unit, (l ++ [(p, false)], <[p := true]> W)) else None
  | EnterHead p =>
      if bool_decide (p ∈ dom W /\ p ∉ l.*1) then Some (Unit, ((p, false) :: l, <[p := true]> W)) else None
  | Pop => Some (Item (head (items l)), (after_pop l, W))
  | PopSeveral n => Some (Items (take (Z.to_nat n) (items l)), (after_pops (Z.to_nat n) l, W))
  | Withdraw p =>
      match W !! p with
      | Some true => Some (Unit, (mark p l, <[p := false]> W))
      | Some false => Some (Unit, (l, W))
      | None => None
      end
  | AskEmpty => Some (Flag (bool_decide (l = [])), (l, W))
  end.

Fixpoint queue_steps (s : waiters_of) (ops : list queue_op) : option (list queue_ret * waiters_of) :=
  match ops with
  | [] => Some ([], s)
  | op :: ops => '(r, s) ← queue_step s op; '(rs, s) ← queue_steps s ops; Some (r :: rs, s)
  end.

Definition abstracts m (s : waiters_of) : Prop := repr m s.1 /\ s.2 = m_is_waiting <$> mem_tasks m.

Lemma nodes_only_waiting m m' : nodes_only m m' -> m_is_waiting <$> mem_tasks m' = m_is_waiting <$> mem_tasks m.
Proof. intros H. apply map_eq. intros p. rewrite !lookup_fmap. apply (waiting_nodes _ _ p H). Qed.

Lemma prepare_ok m l p o : repr m l -> p ∉ l.*1 -> mem_tasks m !! p = Some o ->
  wp (prepare p) (fun _ m' => repr m' l /\
    exists o', mem_tasks m' !! p = Some o' /\ m_is_waiting o' = true /\ m_mpmc_claimed o' = false /\
    m_is_waiting <$> mem_tasks m' = <[p := true]> (m_is_waiting <$> mem_tasks m)) m.
Proof.
  intros H Hp Ho. unfold prepare, ClearNext, ClearClaimed. eapply wp_set_bind; [exact Ho|].
  eapply wp_set_bind; [apply lookup_insert_eq|]. eapply wp_set; [apply lookup_insert_eq|].
  simpl. rewrite !insert_insert_eq. split.
  - match goal with |- context [<[p := ?x]> _] => exact (repr_outside m l p x H Hp) end.
  - eexists. split; [apply lookup_insert_eq|]. split; [done|]. split; [done|]. by rewrite fmap_insert.
Qed.

Lemma do_queue_op_ok m s op r s' : abstracts m s -> queue_step s op = Some (r, s') ->
  wp (do_queue_op op) (fun r' m' => r' = r /\ abstracts m' s') m.
Proof.
  destruct s as [l W]. intros [H HW] E. simpl in H, HW. subst W. destruct op as [p|p| |n|p|]; simpl in *.
  - case_bool_decide as Hc; [|done]. injection E as <- <-. destruct Hc as [Hd Hp].
    rewrite dom_fmap in Hd. apply elem_of_dom in Hd as [o Ho]. apply wp_bind.
    eapply wp_mono; [by eapply prepare_ok|]. intros [] m1 (H1 & o1 & Ho1 & Hw & Hc & HW).
    apply wp_bind. eapply wp_mono.
    { apply (AddToTail_repr m1 l p true H1 Hp). unfold waiting. by rewrite Ho1, <- Hw. }
    intros [] m2 [H2 N]. apply wp_ret. split; [done|]. split; [done|]. simpl.
    by rewrite (nodes_only_waiting _ _ N).
  - case_bool_decide as Hc; [|done]. injection E as <- <-. destruct Hc as [Hd Hp].
    rewrite dom_fmap in Hd. apply elem_of_dom in Hd as [o Ho]. apply wp_bind.
    eapply wp_mono; [by eapply prepare_ok|]. intros [] m1 (H1 & o1 & Ho1 & Hw & Hc & HW).
    apply wp_bind. eapply wp_mono; [exact (AddToHead_repr m1 l p true true o1 H1 Hp Ho1 Hw)|].
    intros [] m2 [H2 N]. apply wp_ret. split; [done|]. rewrite Hc in H2. split; [done|]. simpl.
    by rewrite (nodes_only_waiting _ _ N).
  - injection E as <- <-. apply wp_bind. eapply wp_mono; [by apply PopFromHead_repr|].
    intros r' m1 (-> & H1 & N). apply wp_ret. split; [done|]. split; [done|]. simpl.
    by rewrite (nodes_only_waiting _ _ N).
  - injection E as <- <-. apply wp_bind. eapply wp_mono; [by apply PopMultipleFromHead_pops|].
    intros r' m1 (-> & N & H1). apply wp_ret. split; [done|]. split; [done|]. simpl.
    by rewrite (nodes_only_waiting _ _ N).
  - rewrite lookup_fmap in E. destruct (mem_tasks m !! p) as [o|] eqn:Ho; [|done]. simpl in E.
    unfold Remove. apply wp_assoc. eapply wp_cas_on_bind; [exact Ho|]. simpl.
    destruct (m_is_waiting o) eqn:Hw; injection E as <- <-.
    + rewrite decide_True by done. unfold SetClaimed. eapply wp_set_bind; [apply lookup_insert_eq|].
      apply wp_ret. split; [done|]. simpl. rewrite insert_insert_eq. split; [by apply repr_mark|].
      simpl. by rewrite fmap_insert.
    + rewrite decide_False by done. by wp_go.
  - injection E as <- <-. apply wp_bind. eapply wp_mono; [by apply IsEmpty_repr|].
    intros r' m1 (-> & ->). by apply wp_ret.
Qed.

(** C12: Run by one thread, any sequence of entering at the tail or the head,
    withdrawing, popping one or up to n waiters and asking whether the queue
    is empty, in which nobody enters while its node is still in the queue,
    terminates and behaves as a list of waiters some of which have withdrawn:
    popping returns the first that has not, popping up to n the first n that
    have not, in order. *)
Theorem waiter_queue_refines m s ops rs s' (H : abstracts m s) (E : queue_steps s ops = Some (rs, s')) :
  wp (do_queue_ops ops) (fun rs' m' => rs' = rs /\ abstracts m' s') m.
Proof.
  revert m s rs H E. induction ops as [|op ops IH]; intros m s rs H E; simpl in *.
  - injection E as <- <-. by apply wp_ret.
  - destruct (queue_step s op) as [[r s1]|] eqn:E1; [|done]. simpl in E.
    destruct (queue_steps s1 ops) as [[rs1 s2]|] eqn:E2; [|done]. injection E as <- <-.
    apply wp_bind. eapply wp_mono; [by eapply do_queue_op_ok|]. intros r' m1 [-> H1].
    apply wp_bind. eapply wp_mono; [by eapply IH|]. intros rs' m2 [-> H2]. by apply wp_ret.
Qed.

(** ** Where the queue does not keep its promise *)

(** Any number of rounds when there is an end but no beginning. *)
Lemma PopFromHead_stranded m o t : mem_butexes m !! b = Some o -> b_head_ o = None -> b_tail_ o = Some t ->
  diverges PopFromHead m.
Proof.
  intros Ho Hh Ht. unfold PopFromHead, loop.
  apply (diverges_loop (fun _ m' => m' = m)); [done|]. intros n m' ->. unfold pop_round.
  eapply wp_get_bind; [exact Ho|]. simpl. rewrite Hh. eapply wp_get_bind; [exact Ho|]. simpl. rewrite Ht.
  destruct (n + 1 <? MAX_EMPTY_SPINS); apply wp_pause_bind, wp_ret; by eexists.
Qed.

(** A node that is its own successor. *)
Definition cycle m p (c : bool) : Prop :=
  (exists o, mem_butexes m !! b = Some o /\ b_head_ o = Some p) /\
  (exists o, mem_tasks m !! p = Some o /\ m_mpmc_next o = Some p /\ m_mpmc_claimed o = c).

Lemma pop_round_cycle m p c n : cycle m p c ->
  wp (pop_round n) (fun r m' => r = (if c then inl 0 else inr (Some p)) /\ cycle m' p true) m.
Proof.
  intros [(ob & Hob & Hh) (o & Ho & Hn & Hc)]. unfold pop_round, GetNext.
  eapply wp_get_bind; [exact Hob|]. simpl. rewrite Hh. eapply wp_modify_bind; [exact Ho|]. simpl.
  eapply wp_get_bind; [apply lookup_insert_eq|]. simpl. rewrite Hc, Hn. destruct c.
  - eapply wp_cas_weak_on_bind; [exact Hob|]. simpl. rewrite decide_True by done. apply wp_ret.
    split; [done|]. split; simpl; (eexists; split; [apply lookup_insert_eq|]); done.
  - eapply wp_cas_on_bind; [exact Hob|]. simpl. rewrite decide_True by done. apply wp_ret.
    split; [done|]. split; simpl; (eexists; split; [apply lookup_insert_eq|]); done.
Qed.

Lemma PopFromHead_cycle m p : cycle m p true -> diverges PopFromHead m.
Proof.
  intros H. unfold PopFromHead, loop. apply (diverges_loop (fun _ m' => cycle m' p true)); [exact H|].
  intros n m' H'. eapply wp_mono; [by apply pop_round_cycle|]. intros r m2 [-> H2]. by eexists.
Qed.

(** Appending the last node again. *)
Lemma AddToTail_again m p w o ob : mem_butexes m !! b = Some ob -> b_head_ ob = Some p ->
  b_tail_ ob = Some p -> mem_tasks m !! p = Some o -> m_is_waiting o = true ->
  wp (AddToTail p w) (fun _ m' => cycle m' p false) m.
Proof.
  intros Hob Hh Ht Ho Hw. unfold AddToTail, ClearNext, ClearClaimed.
  apply stopped_waiting_ok; [unfold waiting; by rewrite Ho, <- Hw|].
  eapply wp_set_bind; [exact Ho|]. eapply wp_set_bind; [apply lookup_insert_eq|].
  eapply wp_modify_bind; [exact Hob|].
  apply stopped_waiting_ok; [unfold waiting; simpl; rewrite lookup_insert_eq; simpl; by rewrite Hw|].
  simpl. rewrite Ht. unfold SetNext. eapply wp_set; [apply lookup_insert_eq|].
  split; simpl; (eexists; split; [apply lookup_insert_eq|]); done.
Qed.

Lemma hangs_after op ops m (Q : memory -> Prop) : wp (do_queue_op op) (fun _ => Q) m ->
  (forall m', Q m' -> diverges (do_queue_ops ops) m') -> diverges (do_queue_ops (op :: ops)) m.
Proof.
  intros H1 H2. simpl. eapply (diverges_bind _ _ _ (fun _ => Q)); [exact H1|]. intros r m' HQ.
  by apply diverges_bind_left, H2.
Qed.

Lemma hangs_step m s op ops s' : abstracts m s -> snd <$> queue_step s op = Some s' ->
  (forall m', abstracts m' s' -> diverges (do_queue_ops ops) m') -> diverges (do_queue_ops (op :: ops)) m.
Proof.
  intros H E Hrest. apply fmap_Some in E as ([r s1] & E & ->). eapply hangs_after; [|exact Hrest].
  eapply wp_mono; [by eapply do_queue_op_ok|]. intros r' m' [_ H']. exact H'.
Qed.

(** A waiter that withdraws and enters again while its node is still linked
    makes a cycle: after one pop the next PopFromHead never returns. *)
Theorem reentering_a_withdrawn_item_hangs m p o (H : repr m []) (Ho : mem_tasks m !! p = Some o) :
  diverges (do_queue_ops [EnterTail p; Withdraw p; EnterTail p; Pop; Pop]) m.
Proof.
  assert (Hdom : p ∈ dom (m_is_waiting <$> mem_tasks m)) by (rewrite dom_fmap; by eapply elem_of_dom_2).
  eapply (hangs_step m ([], m_is_waiting <$> mem_tasks m)); [by split| |].
  { simpl. by rewrite bool_decide_true by (split; [done|by apply not_elem_of_nil]). }
  intros m1 H1. eapply (hangs_step m1); [exact H1| |].
  { simpl. by rewrite lookup_insert_eq, decide_True by done. }
  intros m2 [H2 HW2]. simpl in H2, HW2. apply (hangs_after _ _ m2 (fun m' => cycle m' p false)).
  { destruct (repr_butex _ _ H2) as (ob & Hob & Hh & Ht).
    destruct (repr_nodes _ _ H2 O p true eq_refl) as (o2 & Ho2 & _). simpl. apply wp_bind.
    unfold prepare, ClearNext, ClearClaimed. eapply wp_set_bind; [exact Ho2|].
    eapply wp_set_bind; [apply lookup_insert_eq|]. eapply wp_set; [apply lookup_insert_eq|].
    apply wp_bind. eapply wp_mono; [eapply (AddToTail_again _ p true _ ob)|].
    - exact Hob.
    - exact Hh.
    - exact Ht.
    - apply lookup_insert_eq.
    - done.
    - intros [] m' H'. by apply wp_ret. }
  intros m3 H3. apply (hangs_after _ _ m3 (fun m' => cycle m' p true)).
  { unfold do_queue_op, PopFromHead. apply wp_bind, wp_loop_once.
    eapply wp_mono; [by apply pop_round_cycle|]. intros r m' [-> H']. by apply wp_ret. }
  intros m4 H4. apply diverges_bind_left. by eapply diverges_bind_left, PopFromHead_cycle.
Qed.

(** ** Taking out several, and what keeps the queue *)

Lemma items_nodup m l : repr m l -> NoDup (items l).
Proof.
  intros [_ _ H]. unfold items. eapply sublist_NoDup; [exact H|]. apply fmap_sublist, sublist_filter.
Qed.

Lemma items_node m l p : repr m l -> p ∈ items l -> exists n, node m p n false.
Proof.
  intros H Hp. unfold items in Hp. apply list_elem_of_fmap in Hp as ([q c] & -> & Hp).
  apply list_elem_of_filter in Hp as [Hc Hp]. simpl in Hc. subst c.
  apply list_elem_of_lookup_1 in Hp as [k Hk]. eexists. exact (repr_nodes _ _ H k q false Hk).
Qed.

Lemma repr_same_nodes m m' l : repr m l -> mem_butexes m' !! b = mem_butexes m !! b ->
  (forall p n c, node m p n c -> node m' p n c) -> repr m' l.
Proof. intros [H1 H2 H3] Hb Hn. split; [by rewrite Hb| |done]. intros k p c Hk. by apply Hn, H2. Qed.

End Queue.

(** ** Instances *)

(** Butex 5 with an empty queue, and three suspended tasks. *)
Definition three_tasks : memory :=
  Memory (<[1%nat := new_TaskMeta]> (<[2%nat := new_TaskMeta]> {[3%nat := new_TaskMeta]}))
         {[5%nat := new_Butex]} ∅ ∅ 6.

Lemma three_tasks_repr : repr 5 three_tasks [].
Proof. split; [by eexists|done|constructor]. Qed.

(** Two enter, the first withdraws, a third goes in front: the third comes
    first, then the second; they come together when asked for together. *)
Example waiter_queue_refines_witness :
  wp (do_queue_ops 5 [EnterTail 1; EnterTail 2; Withdraw 1; EnterHead 3; Pop; Pop; AskEmpty; Pop;
                      EnterTail 1; EnterTail 2; EnterTail 3; PopSeveral 2; PopSeveral 16])
     (fun rs _ => rs = [Unit; Unit; Unit; Unit; Item (Some 3%nat); Item (Some 2%nat); Flag true; Item None;
                        Unit; Unit; Unit; Items [1; 2]%nat; Items [3]%nat])
     three_tasks.
Proof.
  set (ops := [EnterTail 1; _; _; _; _; _; _; _; _; _; _; _; _]).
  destruct (queue_steps ([], m_is_waiting <$> mem_tasks three_tasks) ops) as [[rs s']|] eqn:E; [|by vm_compute in E].
  eapply wp_mono.
  - apply (waiter_queue_refines 5 three_tasks ([], m_is_waiting <$> mem_tasks three_tasks) ops rs s' ); [|exact E].
    split; [exact three_tasks_repr|reflexivity].
  - assert (E' : fst <$> queue_steps ([], m_is_waiting <$> mem_tasks three_tasks) ops = Some rs) by by rewrite E.
    clear E. vm_compute in E'. injection E' as <-. intros rs' m' [H _]. exact H.
Defined.

Example reentering_a_withdrawn_item_hangs_witness :
  diverges (do_queue_ops 5 [EnterTail 1; Withdraw 1; EnterTail 1; Pop; Pop]) three_tasks.
Proof.
  apply (reentering_a_withdrawn_item_hangs 5 three_tasks 1 new_TaskMeta three_tasks_repr). reflexivity.
Defined.

(** Task 1 is queued; one thread takes it out while another appends task 2. *)
Definition one_waiting : memory :=
  Memory (<[1%nat := wr is_waiting true new_TaskMeta]> {[2%nat := wr is_waiting true new_TaskMeta]})
         {[5%nat := MkButex (Some 1%nat) (Some 1%nat) 0]} ∅ ∅ 6.

(** The appending thread takes the old end just before the other empties the
    queue, and links its item to it afterwards. *)
Definition crossing : list (nat * bool) := turn 1 4 ++ turn 0 6 ++ turn 1 2.

(** There is an interleaving of PopFromHead taking the last waiter with
    AddToTail after which the new waiter is not reachable from the head,
    IsEmpty answers true and every later PopFromHead spins forever. *)
Theorem a_waiter_can_be_lost_between_pop_and_append :
  exists ts m, reachable ([PopFromHead 5; AddToTail 5 2 true ;;; Ret None], one_waiting) (ts, m) /\
    Prelude.result <$> ts = [Some (Some 1%nat); Some None] /\
    wp (IsEmpty 5) (fun e _ => e = true) m /\ diverges (PopFromHead 5) m.
Proof.
  destruct (sched_results_reachable (fun m => (mem_butexes m !! 5%nat))
    crossing ([PopFromHead 5; AddToTail 5 2 true ;;; Ret None], one_waiting)
    [Some (Some 1%nat); Some None] (Some (MkButex None (Some 2%nat) 0))) as (ts & m & H1 & H2 & H3).
  { vm_compute. reflexivity. }
  exists ts, m. split; [exact H1|]. split; [exact H2|]. split.
  - unfold IsEmpty. eapply wp_get_bind; [exact H3|]. by apply wp_ret.
  - by eapply PopFromHead_stranded.
Qed.

End MpmcQueue.
