(* ===== verification/Platform.v ===== *)
(** * The platform layer

    Model of [src/platform/platform_linux.cpp]: stacks, threads,
    faults, the clock, futexes and, from [src/bthread.cpp], the conversion of
    delays.  The memory mappings are
    those made here; the addresses that [mmap] will return are part of the
    state, so that nothing is assumed of them but what a theorem says. *)

From Stdlib Require Import ZArith Lia.
From stdpp Require Import base numbers list gmap relations option.
From S2P Require Import Prelude.

Open Scope Z_scope.

Module Platform.

Definition EPERM : Z := 1.
Definition ESRCH : Z := 3.
Definition EAGAIN : Z := 11.
Definition ENOMEM : Z := 12.
Definition EBUSY : Z := 16.
Definition EINVAL : Z := 22.
Definition EDEADLK : Z := 35.
Definition ETIMEDOUT : Z := 110.
Definition ECANCELED : Z := 125.

Definition PAGE_SIZE : Z := 4096.

(** [StackHeader]: where the mapping is, how long, and for which size. *)
Record StackHeader := Header { base_ptr : Z; total_size : Z; requested_size : Z }.

(** A mapping: its length, the header at its start, and the pages without
    access. *)
Record region := Region { r_length : Z; r_header : StackHeader; r_noaccess : list Z }.

(** The mappings by base address, and what the next calls of [mmap] return
    ([None] for [MAP_FAILED]). *)
Record vm := Vm { vm_maps : gmap Z region; vm_answers : list (option Z) }.

Definition Vm_eta (m : vm) : vm := Vm (vm_maps m) (vm_answers m).
Definition maps : field vm (gmap Z region) := ltac:(lens Vm_eta vm_maps).
Definition answers : field vm (list (option Z)) := ltac:(lens Vm_eta vm_answers).

(** [mmap(nullptr, total, ...)] with the header stored at the start of it. *)
Definition mmap (total : Z) (h : Z -> StackHeader) : prog vm (option Z) :=
  act (fun m => match vm_answers m with
                | Some a :: rest => Go (Some a) (Vm (<[a := Region total (h a) []]> (vm_maps m)) rest)
                | None :: rest => Go None (Vm (vm_maps m) rest)
                | [] => Go None m
                end).
(** [mprotect(page, PAGE_SIZE, PROT_NONE)], for a page of the mapping at [a]. *)
Definition mprotect (a page : Z) : prog vm unit :=
  act (fun m => match vm_maps m !! a with
                | Some r => Go tt (Vm (<[a := Region (r_length r) (r_header r) (page :: r_noaccess r)]> (vm_maps m))
                                     (vm_answers m))
                | None => Bad
                end).
(** Unmapping something else than one of the mappings takes away memory that is
    in use. *)
Definition munmap (a total : Z) : prog vm unit :=
  act (fun m => match vm_maps m !! a with
                | Some r => if r_length r =? total then Go tt (Vm (delete a (vm_maps m)) (vm_answers m)) else Bad
                | None => Bad
                end).
(** Reading the header at an address where there is none is undefined: the page
    is the guard page, unmapped or holds other data. *)
Definition header_at (a : Z) : prog vm StackHeader :=
  act (fun m => match vm_maps m !! a with Some r => Go (r_header r) m | None => Bad end).

Definition AllocateStack (size : Z) : prog vm (option Z) :=
  let total := u64 (PAGE_SIZE + PAGE_SIZE + size + 16) in
  ptr <- mmap total (fun a => Header a total size) ;;
  match ptr with
  | None => Ret None
  | Some ptr =>
      mprotect ptr (u64 (ptr + PAGE_SIZE)) ;;;
      let stack_top := u64 (ptr + total) in
      Ret (Some (Z.land stack_top (u64 (Z.lnot 0xF))))
  end.

Definition DeallocateStack (stack_top : option Z) (size : Z) : prog vm unit :=
  match stack_top with
  | None => Ret tt
  | Some stack_addr =>
      let guard_page_start := Z.land (u64 (stack_addr - size - PAGE_SIZE)) (u64 (Z.lnot (PAGE_SIZE - 1))) in
      let header_page_start := u64 (guard_page_start - PAGE_SIZE) in
      header <- header_at header_page_start ;;
      if (requested_size header =? size) && (base_ptr header =? header_page_start) then
        munmap (base_ptr header) (total_size header)
      else munmap header_page_start (u64 (PAGE_SIZE + PAGE_SIZE + size + 16))
  end.

(** [FutexWait]: the kernel puts the thread to sleep if the word still holds
    [expected]; it wakes when the word has changed (whoever changes it calls
    [FutexWake]) and may wake earlier, because the time is over or because of a
    signal. *)
Definition FutexWait {S} (v : field S Z) (expected : Z) (timeout : option (Z * Z)) : prog S Z :=
  Act (fun sp s => if rd v s =? expected
                   then if sp then Go (if timeout is Some _ then ETIMEDOUT else 0) s else Block
                   else Go 0 s) Ret.
(** [FutexWake] itself changes nothing in memory. *)
Definition FutexWake {S} : prog S unit := pause.

Definition NS_PER_US : Z := 1000.
Definition US_PER_SEC : Z := 1000000.

(** [ToAbsoluteTimeout], the clock being [now_us]. *)
Definition ToAbsoluteTimeout (now_us delay_us : Z) : Z * Z :=
  let delay_sec := delay_us / US_PER_SEC in
  let delay_ns := u64 (delay_us mod US_PER_SEC * NS_PER_US) in
  let tv_sec := u64 now_us / US_PER_SEC + delay_sec in
  let tv_nsec := u64 (u64 now_us mod US_PER_SEC * NS_PER_US) + delay_ns in
  if tv_nsec >=? 1000000000 then (tv_sec + 1, tv_nsec - 1000000000) else (tv_sec, tv_nsec).

(** ** Threads *)

(** [ThreadStartData]: what a new thread is to call. *)
Record ThreadStartData := StartData { fn : ptr; arg : ptr }.

(** The start data that exist, the address of the next one, what
    [pthread_create] will answer ([None] when it fails), the start data handed
    to each thread, and the calls that threads have made, oldest first. *)
Record process := Process {
  p_start_data : gmap ptr ThreadStartData;
  p_next : ptr;
  p_answers : list (option ptr);
  p_threads : list (ptr * ptr);
  p_calls : list (ptr * ptr)
}.

Definition new_StartData (d : ThreadStartData) : prog process ptr :=
  act (fun p => Go (p_next p)
    (Process (<[p_next p := d]> (p_start_data p)) (S (p_next p)) (p_answers p) (p_threads p) (p_calls p))).
Definition delete_StartData (data : ptr) : prog process unit :=
  act (fun p => match p_start_data p !! data with
                | Some _ => Go tt (Process (delete data (p_start_data p)) (p_next p) (p_answers p)
                                     (p_threads p) (p_calls p))
                | None => Bad
                end).
(** [pthread_create(&thread, nullptr, ThreadWrapper, data)]. *)
Definition pthread_create (data : ptr) : prog process (option ptr) :=
  act (fun p => match p_answers p with
                | Some th :: rest => Go (Some th) (Process (p_start_data p) (p_next p) rest
                                                     (p_threads p ++ [(th, data)]) (p_calls p))
                | None :: rest => Go None (Process (p_start_data p) (p_next p) rest (p_threads p) (p_calls p))
                | [] => Go None p
                end).
(** [data->fn(data->arg)]. *)
Definition call_fn (data : ptr) : prog process unit :=
  act (fun p => match p_start_data p !! data with
                | Some d => Go tt (Process (p_start_data p) (p_next p) (p_answers p) (p_threads p)
                                     (p_calls p ++ [(fn d, arg d)]))
                | None => Bad
                end).

(** What a new thread does. *)
Definition ThreadWrapper (data : ptr) : prog process unit :=
  call_fn data ;;;
  delete_StartData data.

Definition CreateThread (f a : ptr) : prog process (option ptr) :=
  data <- new_StartData (StartData f a) ;;
  thread <- pthread_create data ;;
  match thread with
  | None => delete_StartData data ;;; Ret None
  | Some th => Ret (Some th)
  end.

(** ** Faults *)

Definition SIGSEGV : Z := 11.

(** [g_stack_bottom], to which nothing is assigned. *)
Definition g_stack_bottom : Z := 0.

(** How the handler ends: the process exits, or the signal is raised again with
    its default action. *)
Inductive ending := Exits (status : Z) | RaisesDefault.

Definition StackOverflowHandler (stack_bottom sig si_addr : Z) : ending :=
  if (sig =? SIGSEGV) && negb (stack_bottom =? 0) then
    if (stack_bottom <=? si_addr) && (si_addr <? u64 (stack_bottom + PAGE_SIZE)) then Exits 1
    else RaisesDefault
  else RaisesDefault.

(** ** The clock *)

(** [GetTimeOfDayUs], the clock being at [tv_sec] and [tv_nsec]. *)
Definition GetTimeOfDayUs (tv_sec tv_nsec : Z) : Z := wraps 64 (tv_sec * 1000000 + tv_nsec / 1000).

(** ** Address arithmetic *)

(** Clearing the low [k] bits of a 64-bit address. *)
Lemma land_clear_low x k : 0 <= x < 2 ^ 64 -> 0 <= k ->
  Z.land x (u64 (Z.lnot (2 ^ k - 1))) = x - x mod 2 ^ k.
Proof.
  intros Hx Hk. unfold wrapu. rewrite <- Z.land_ones, (Z.land_comm (Z.lnot _)), Z.land_assoc by lia.
  rewrite (Z.land_ones x 64), (Z.mod_small x) by lia.
  replace (2 ^ k - 1) with (Z.ones k) by (rewrite Z.ones_equiv; lia).
  rewrite <- Z.ldiff_land, Z.ldiff_ones_r by lia.
  rewrite Z.shiftl_mul_pow2, Z.shiftr_div_pow2 by lia.
  rewrite (Z.div_mod x (2 ^ k)) at 2 by lia. lia.
Qed.

Lemma align16 x : 0 <= x < 2 ^ 64 -> Z.land x (u64 (Z.lnot 0xF)) = x - x mod 16.
Proof. intros H. exact (land_clear_low x 4 H ltac:(lia)). Qed.

Lemma page_start x : 0 <= x < 2 ^ 64 ->
  Z.land x (u64 (Z.lnot (PAGE_SIZE - 1))) = x - x mod PAGE_SIZE.
Proof. intros H. exact (land_clear_low x 12 H ltac:(lia)). Qed.

(** A base address [mmap] may return for a stack of [size] bytes. *)
Definition fits (base size : Z) : Prop :=
  0 <= size /\ 0 < base /\ base mod PAGE_SIZE = 0 /\ base + 2 * PAGE_SIZE + size + 16 < 2 ^ 64.

Definition top_of (base size : Z) : Z :=
  let e := base + 2 * PAGE_SIZE + size + 16 in e - e mod 16.

Ltac addr_lia :=
  unfold fits, top_of, PAGE_SIZE in *; Z.to_euclidean_division_equations; lia.

(** The mapping of a stack: its second page is the guard. *)
Definition stack_region (base size : Z) : region :=
  Region (2 * PAGE_SIZE + size + 16) (Header base (2 * PAGE_SIZE + size + 16) size) [base + PAGE_SIZE].

Lemma AllocateStack_run m base size rest : vm_answers m = Some base :: rest -> fits base size ->
  wp (AllocateStack size) (fun r m' => r = Some (top_of base size) /\
    m' = Vm (<[base := stack_region base size]> (vm_maps m)) rest) m.
Proof.
  intros Ha Hf. unfold AllocateStack, mmap.
  assert (Et : u64 (PAGE_SIZE + PAGE_SIZE + size + 16) = 2 * PAGE_SIZE + size + 16)
    by (rewrite wrapu_small; addr_lia).
  rewrite Et. apply wp_act_bind. rewrite Ha. unfold mprotect. apply wp_act_bind. simpl.
  rewrite lookup_insert_eq, insert_insert_eq. apply wp_ret.
  rewrite !(wrapu_small 64 (base + _)), align16 by addr_lia. split; [|done].
  f_equal. unfold top_of. by replace (base + (2 * PAGE_SIZE + size + 16))
    with (base + 2 * PAGE_SIZE + size + 16) by lia.
Qed.

(** Where [DeallocateStack] looks for the header. *)
Lemma header_page base size size' : fits base size -> 0 <= size' <= size ->
  let guard := Z.land (u64 (top_of base size - size' - PAGE_SIZE)) (u64 (Z.lnot (PAGE_SIZE - 1))) in
  u64 (guard - PAGE_SIZE) = base + (size - size' + 16 - (size + 16) mod 16) / PAGE_SIZE * PAGE_SIZE.
Proof.
  intros Hf Hs. cbv zeta. assert (Hb : (base + 2 * PAGE_SIZE + size + 16) mod 16 = (size + 16) mod 16)
    by addr_lia.
  unfold top_of. rewrite Hb.
  rewrite (wrapu_small 64 (_ - _ - PAGE_SIZE)), page_start by addr_lia.
  assert (E : base + 2 * PAGE_SIZE + size + 16 - (size + 16) mod 16 - size' - PAGE_SIZE =
    base + PAGE_SIZE + (size - size' + 16 - (size + 16) mod 16)) by lia.
  rewrite E. clear E Hb. set (d := size - size' + 16 - (size + 16) mod 16).
  assert (0 <= d) by (unfold d; addr_lia).
  assert (Em : (base + PAGE_SIZE + d) mod PAGE_SIZE = d mod PAGE_SIZE) by addr_lia.
  rewrite Em. rewrite wrapu_small; unfold d in *; addr_lia.
Qed.

(** C34: AllocateStack returns a 16-byte aligned top with the requested bytes
    between the guard page and it, and DeallocateStack of that top with the
    same size unmaps exactly that mapping. *)
Theorem stack_roundtrip m base size rest (Ha : vm_answers m = Some base :: rest)
    (Hf : fits base size) (Hfresh : vm_maps m !! base = None) :
  wp (AllocateStack size) (fun r m' => exists top, r = Some top /\ top mod 16 = 0 /\
    base + 2 * PAGE_SIZE <= top - size /\ top <= base + (2 * PAGE_SIZE + size + 16) /\
    vm_maps m' !! base = Some (stack_region base size) /\
    wp (DeallocateStack r size) (fun _ m'' => m'' = Vm (vm_maps m) rest) m') m.
Proof.
  eapply wp_mono; [by apply AllocateStack_run|]. intros r m' [-> ->].
  exists (top_of base size). split; [done|]. split; [addr_lia|]. split; [addr_lia|].
  split; [addr_lia|]. simpl. rewrite lookup_insert_eq. split; [done|].
  unfold DeallocateStack. rewrite header_page by addr_lia.
  replace (base + (size - size + 16 - (size + 16) mod 16) / PAGE_SIZE * PAGE_SIZE) with base by addr_lia.
  unfold header_at, munmap. apply wp_act_bind; simpl. rewrite lookup_insert_eq; simpl. rewrite !Z.eqb_refl; simpl.
  apply wp_act_last. simpl. rewrite lookup_insert_eq; simpl. by rewrite Z.eqb_refl, delete_insert_id.
Qed.

Lemma stack_roundtrip_witness :
  wp (AllocateStack 8192) (fun r m' => exists top, r = Some top /\ top mod 16 = 0 /\
    65536 + 2 * PAGE_SIZE <= top - 8192 /\ top <= 65536 + (2 * PAGE_SIZE + 8192 + 16) /\
    vm_maps m' !! 65536 = Some (stack_region 65536 8192) /\
    wp (DeallocateStack r 8192) (fun _ m'' => m'' = Vm ∅ []) m') (Vm ∅ [Some 65536]).
Proof.
  apply (stack_roundtrip (Vm ∅ [Some 65536]) 65536 8192 []); [done|by vm_compute|by apply lookup_empty].
Defined.

(** With a smaller size the header is looked for where there is none. *)
Lemma DeallocateStack_header_missing base size size' : fits base size -> 0 <= size' ->
  size' + PAGE_SIZE <= size ->
  goes_wrong (DeallocateStack (Some (top_of base size)) size')
    (Vm {[ base := stack_region base size ]} []).
Proof.
  intros Hf Hs Hlt. unfold DeallocateStack. rewrite header_page by addr_lia.
  apply wrong_act. unfold header_at. simpl. rewrite lookup_singleton_ne; [done|]. addr_lia.
Qed.

(** DeallocateStack with a size at least a page smaller than the allocated one
    reads a header where there is none. *)
Theorem DeallocateStack_smaller_size_is_undefined base size size' (Hf : fits base size)
    (Hs : 0 <= size') (Hlt : size' + PAGE_SIZE <= size) :
  goes_wrong (top <- AllocateStack size ;; DeallocateStack top size') (Vm ∅ [Some base]).
Proof.
  eapply wrong_bind; [by apply (AllocateStack_run _ base size [])|].
  intros r m' [-> ->]. simpl. rewrite insert_empty. by apply DeallocateStack_header_missing.
Qed.

Lemma DeallocateStack_smaller_size_is_undefined_witness :
  goes_wrong (top <- AllocateStack 8192 ;; DeallocateStack top 4096) (Vm ∅ [Some 65536]).
Proof.
  apply (DeallocateStack_smaller_size_is_undefined 65536 8192 4096); by vm_compute.
Defined.

(** C39: For every non-negative 64-bit clock and every unsigned 64-bit delay
    the seconds and nanoseconds returned are the exact sum, and the
    nanoseconds are below one second. *)
Theorem ToAbsoluteTimeout_exact now_us delay_us (Hn : 0 <= now_us < 2 ^ 63) (Hd : 0 <= delay_us < 2 ^ 64) :
  let '(sec, nsec) := ToAbsoluteTimeout now_us delay_us in
  0 <= nsec < 1000000000 /\ sec * 1000000 * 1000 + nsec = (now_us + delay_us) * 1000.
Proof.
  unfold ToAbsoluteTimeout, US_PER_SEC, NS_PER_US.
  rewrite (wrapu_small 64 now_us) by lia. rewrite !wrapu_small by (Z.to_euclidean_division_equations; lia).
  destruct (Z.geb_spec (now_us mod 1000000 * 1000 + delay_us mod 1000000 * 1000) 1000000000);
    Z.to_euclidean_division_equations; lia.
Qed.

Lemma ToAbsoluteTimeout_exact_witness :
  let '(sec, nsec) := ToAbsoluteTimeout 1999999 3000001 in
  0 <= nsec < 1000000000 /\ sec * 1000000 * 1000 + nsec = (1999999 + 3000001) * 1000.
Proof. apply (ToAbsoluteTimeout_exact 1999999 3000001); lia. Defined.

(** CreateThread either fails and leaves no start data behind, or starts one
    thread; that thread then makes the call it was created for, once, and
    frees its start data, whatever other threads have done to theirs. *)
Theorem CreateThread_starts_one_call p f a (Hn : p_start_data p !! p_next p = None) :
  wp (CreateThread f a) (fun r p' => p_calls p' = p_calls p /\
    match r with
    | None => p_threads p' = p_threads p /\ p_start_data p' = p_start_data p
    | Some th => exists data, p_threads p' = p_threads p ++ [(th, data)] /\
        p_start_data p' = <[data := StartData f a]> (p_start_data p) /\
        forall q, p_start_data q !! data = Some (StartData f a) ->
          wp (ThreadWrapper data) (fun _ q' => p_calls q' = p_calls q ++ [(f, a)] /\
            p_start_data q' = delete data (p_start_data q)) q
    end) p.
Proof.
  unfold CreateThread. apply wp_act_bind; simpl. apply wp_act_bind; simpl.
  destruct (p_answers p) as [|[th|] rest]; simpl.
  - apply wp_act_bind; simpl. rewrite lookup_insert_eq. apply wp_ret; simpl. by rewrite delete_insert_id.
  - apply wp_ret. split; [done|]. exists (p_next p). split; [done|]. split; [done|].
    intros q Hq. unfold ThreadWrapper. apply wp_act_bind; simpl. rewrite Hq.
    apply wp_act_last; simpl. by rewrite Hq.
  - apply wp_act_bind; simpl. rewrite lookup_insert_eq. apply wp_ret; simpl. by rewrite delete_insert_id.
Qed.

Lemma CreateThread_starts_one_call_witness :
  wp (CreateThread 5 6) (fun r p' => p_calls p' = [] /\
    forall data, p_threads p' = [(9%nat, data)] -> p_start_data p' !! data = Some (StartData 5 6))
    (Process ∅ 1 [Some 9%nat] [] []).
Proof.
  eapply wp_mono; [exact (CreateThread_starts_one_call (Process ∅ 1 [Some 9%nat] [] []) 5 6 eq_refl)|].
  intros [th|] p' [Hc H]; (split; [done|]); intros data' E.
  - destruct H as (data & Ht & Hd & _). rewrite Ht in E. simpl in E.
    injection E as -> ->. by rewrite Hd, lookup_insert_eq.
  - destruct H as [Ht _]. by rewrite Ht in E.
Defined.

(** A fault in the guard page of a stack is recognised when g_stack_bottom is
    that page; the code never stores a page there, and so every fault has the
    default action. *)
Theorem no_overflow_is_detected :
  (forall base size addr, fits base size -> base + PAGE_SIZE <= addr < base + 2 * PAGE_SIZE ->
    StackOverflowHandler (base + PAGE_SIZE) SIGSEGV addr = Exits 1) /\
  forall sig addr, StackOverflowHandler g_stack_bottom sig addr = RaisesDefault.
Proof.
  split.
  - intros base size addr Hf Ha. unfold StackOverflowHandler. rewrite wrapu_small by addr_lia.
    rewrite Z.eqb_refl, (proj2 (Z.eqb_neq _ 0)) by addr_lia. simpl.
    rewrite (proj2 (Z.leb_le _ _)), (proj2 (Z.ltb_lt _ _)) by addr_lia. done.
  - intros sig addr. unfold StackOverflowHandler. by destruct (sig =? SIGSEGV).
Qed.

(** The clock read later is not earlier, and no reading is a microsecond or
    more behind. *)
Theorem GetTimeOfDayUs_monotone s n s' n' (Hs : 0 <= s /\ s' < 2 ^ 43) (Hn : 0 <= n < 1000000000)
    (Hn' : 0 <= n' < 1000000000) (Hle : s * 1000000000 + n <= s' * 1000000000 + n') :
  GetTimeOfDayUs s n <= GetTimeOfDayUs s' n' /\
  GetTimeOfDayUs s n * 1000 <= s * 1000000000 + n < GetTimeOfDayUs s n * 1000 + 1000.
Proof.
  assert (s <= s') by lia. unfold GetTimeOfDayUs.
  rewrite !wraps_small by (Z.to_euclidean_division_equations; lia).
  Z.to_euclidean_division_equations; lia.
Qed.

Lemma GetTimeOfDayUs_monotone_witness :
  GetTimeOfDayUs 7 999999999 <= GetTimeOfDayUs 8 0 /\
  GetTimeOfDayUs 7 999999999 * 1000 <= 7 * 1000000000 + 999999999 < GetTimeOfDayUs 7 999999999 * 1000 + 1000.
Proof. apply (GetTimeOfDayUs_monotone 7 999999999 8 0); lia. Defined.

End Platform.
