(* ===== verification/PlatformWindows.v ===== *)
(** * The platform layer on Windows

    Model of [src/platform/platform_windows.cpp]: the same interface as
    Platform.v, on the calls of Windows.  The rest of the development runs on
    the platform layer of Linux. *)

From Stdlib Require Import ZArith Lia.
From stdpp Require Import base numbers list gmap relations option.
From S2P Require Import Prelude Platform.

Open Scope Z_scope.

Module PlatformWindows.

Abbreviation PAGE_SIZE := Platform.PAGE_SIZE.
Definition STACK_GUARD_PAGES : Z := 2.

(** ** Stacks *)

(** A region of [VirtualAlloc]: its size and the pages without access. *)
Record region := Region { r_size : Z; r_noaccess : list Z }.
(** The regions by base address, and what the next calls of [VirtualAlloc]
    return ([None] for the null pointer). *)
Record vm := Vm { vm_regions : gmap Z region; vm_answers : list (option Z) }.

Definition VirtualAlloc (total : Z) : prog vm (option Z) :=
  act (fun m => match vm_answers m with
                | Some a :: rest => Go (Some a) (Vm (<[a := Region total []]> (vm_regions m)) rest)
                | None :: rest => Go None (Vm (vm_regions m) rest)
                | [] => Go None m
                end).
(** [VirtualProtect(page, PAGE_SIZE, PAGE_NOACCESS, &old)], for a page of the
    region at [a]. *)
Definition VirtualProtect (a page : Z) : prog vm unit :=
  act (fun m => match vm_regions m !! a with
                | Some r => Go tt (Vm (<[a := Region (r_size r) (page :: r_noaccess r)]> (vm_regions m)) (vm_answers m))
                | None => Bad
                end).
(** [VirtualFree(a, 0, MEM_RELEASE)] fails, and changes nothing, unless a region
    starts at [a]. *)
Definition VirtualFree (a : Z) : prog vm bool :=
  act (fun m => match vm_regions m !! a with
                | Some _ => Go true (Vm (delete a (vm_regions m)) (vm_answers m))
                | None => Go false m
                end).

(** Making the lowest pages inaccessible, from the [i]th. *)
Definition protect_guards (ptr i : Z) : prog vm unit :=
  loop i (fun i =>
    if i <? STACK_GUARD_PAGES then
      VirtualProtect ptr (u64 (ptr + i * PAGE_SIZE)) ;;;
      Ret (inl (i + 1))
    else Ret (inr tt)).

Definition AllocateStack (size : Z) : prog vm (option Z) :=
  let total := u64 (size + PAGE_SIZE * STACK_GUARD_PAGES) in
  ptr <- VirtualAlloc total ;;
  match ptr with
  | None => Ret None
  | Some ptr =>
      protect_guards ptr 0 ;;;
      let stack_top := u64 (ptr + total) in
      Ret (Some (Z.land stack_top (u64 (Z.lnot 0xF))))
  end.

Definition DeallocateStack (stack_top : option Z) (size : Z) : prog vm unit :=
  match stack_top with
  | None => Ret tt
  | Some stack_top =>
      let total := u64 (size + PAGE_SIZE * STACK_GUARD_PAGES) in
      VirtualFree (u64 (stack_top - total)) ;;;
      Ret tt
  end.

(** ** Threads *)

Import Platform(process, ThreadStartData, StartData, new_StartData, delete_StartData, pthread_create, call_fn,
  p_start_data, p_next, p_threads, p_calls, Process).

Definition BthreadThreadWrapper (data : ptr) : prog process unit :=
  call_fn data ;;;
  delete_StartData data.

(** [::CreateThread] answers as [pthread_create] does: a handle or nothing. *)
Definition CreateThread (f a : ptr) : prog process (option ptr) :=
  data <- new_StartData (StartData f a) ;;
  thread <- pthread_create data ;;
  match thread with
  | None => delete_StartData data ;;; Ret None
  | Some th => Ret (Some th)
  end.

(** The open handles of threads, and whether the thread has ended. *)
Abbreviation handles := (gmap ptr bool).

(** [WaitForSingleObject(thread, INFINITE); CloseHandle(thread)]. *)
Definition JoinThread (th : ptr) : prog handles unit :=
  act (fun hs => match hs !! th with Some true => Go tt hs | Some false => Block | None => Bad end) ;;;
  act (fun hs => Go tt (delete th hs)).

(** ** Faults *)

Definition EXCEPTION_STACK_OVERFLOW : Z := 0xC00000FD.
Inductive ending := Exits (status : Z) | ContinuesSearch.

Definition StackOverflowHandler (code : Z) : ending :=
  if code =? EXCEPTION_STACK_OVERFLOW then Exits 1 else ContinuesSearch.

(** ** Futexes *)

Definition INFINITE : Z := 2 ^ 32 - 1.

Definition timeout_ms (timeout : option (Z * Z)) : Z :=
  match timeout with
  | Some (tv_sec, tv_nsec) => u32 (wraps 64 (tv_sec * 1000 + Z.quot tv_nsec 1000000))
  | None => INFINITE
  end.

(** [WaitOnAddress] returns at once if the word has another value; the wait ends
    when it changes, or before: a wait with a limit because the time is over. *)
Definition FutexWait {S} (v : field S Z) (expected : Z) (timeout : option (Z * Z)) : prog S Z :=
  let ms := timeout_ms timeout in
  Act (fun sp s => if rd v s =? expected
                   then if sp then Go (if ms =? INFINITE then 0 else Platform.ETIMEDOUT) s else Block
                   else Go 0 s) Ret.

(** Which call [FutexWake] makes. *)
Inductive wake := WakeByAddressSingle | WakeByAddressAll.
Definition FutexWake (count : Z) : wake :=
  if count =? 1 then WakeByAddressSingle else WakeByAddressAll.

(** ** The clock *)

(** [GetTimeOfDayUs], from the counter and its frequency. *)
Definition GetTimeOfDayUs (freq counter : Z) : Z :=
  let sec := Z.quot counter freq in
  let frac := Z.quot (wraps 64 (Z.rem counter freq * 1000000)) freq in
  wraps 64 (sec * 1000000 + frac).

(** ** Stacks are given back *)

(** A base address [VirtualAlloc] may return for a stack of [size] bytes. *)
Definition fits (base size : Z) : Prop :=
  0 <= size /\ 0 < base /\ base mod PAGE_SIZE = 0 /\ base + size + PAGE_SIZE * STACK_GUARD_PAGES < 2 ^ 64.

Definition top_of (base size : Z) : Z := base + (size + PAGE_SIZE * STACK_GUARD_PAGES) - size mod 16.

Definition stack_region (base size : Z) : region :=
  Region (size + PAGE_SIZE * STACK_GUARD_PAGES) [base + PAGE_SIZE; base].

Ltac addr_lia :=
  unfold fits, top_of, STACK_GUARD_PAGES, Platform.PAGE_SIZE in *; Z.to_euclidean_division_equations; lia.

Lemma protect_guards_ok m a r : vm_regions m !! a = Some r -> 0 < a -> a + PAGE_SIZE < 2 ^ 64 ->
  wp (protect_guards a 0) (fun _ m' =>
    m' = Vm (<[a := Region (r_size r) (a + PAGE_SIZE :: a :: r_noaccess r)]> (vm_regions m)) (vm_answers m)) m.
Proof.
  intros Hr Ha Hb. unfold protect_guards, STACK_GUARD_PAGES.
  apply wp_loop_once. simpl. apply wp_act_bind. rewrite Hr. apply wp_ret.
  apply wp_loop_once. simpl. apply wp_act_bind; simpl. rewrite lookup_insert_eq. apply wp_ret.
  apply wp_loop_once. simpl. apply wp_ret. simpl.
  rewrite insert_insert_eq, !wrapu_small by addr_lia. change (0 + 1) with 1.
  by rewrite Z.mul_1_l, Z.mul_0_l, Z.add_0_r.
Qed.

Lemma align16_top base size : fits base size ->
  Z.land (u64 (base + (size + PAGE_SIZE * STACK_GUARD_PAGES))) (u64 (Z.lnot 0xF)) = top_of base size.
Proof.
  intros Hf. rewrite (wrapu_small 64 (base + _)), Platform.align16 by addr_lia. addr_lia.
Qed.

Lemma windows_stack_allocated m base size rest : vm_answers m = Some base :: rest -> fits base size ->
  wp (AllocateStack size) (fun r m' => r = Some (top_of base size) /\
    m' = Vm (<[base := stack_region base size]> (vm_regions m)) rest) m.
Proof.
  intros Ha Hf. unfold AllocateStack. rewrite (wrapu_small 64 (size + _)) by addr_lia.
  apply wp_act_bind. rewrite Ha. apply wp_bind.
  eapply wp_mono; [apply protect_guards_ok; [apply lookup_insert_eq|addr_lia|addr_lia]|].
  intros [] m' ->. apply wp_ret. rewrite align16_top by done. split; [done|].
  simpl. by rewrite insert_insert_eq.
Qed.

Lemma windows_stack_freed m base size : fits base size ->
  wp (DeallocateStack (Some (top_of base size)) size) (fun _ m' =>
    m' = Vm (delete (base - size mod 16) (vm_regions m)) (vm_answers m)) m.
Proof.
  intros Hf. unfold DeallocateStack. rewrite (wrapu_small 64 (size + _)) by addr_lia.
  replace (top_of base size - _) with (base - size mod 16) by addr_lia.
  rewrite wrapu_small by addr_lia. apply wp_act_bind. destruct (vm_regions m !! _) eqn:E; apply wp_ret; [done|].
  rewrite delete_id by done. by destruct m.
Qed.

(** The regions are where [VirtualAlloc] puts them. *)
Definition page_aligned (m : vm) : Prop := forall a, is_Some (vm_regions m !! a) -> a mod PAGE_SIZE = 0.

(** AllocateStack returns a 16-byte aligned top with the requested bytes, up
    to the alignment, above two inaccessible pages; DeallocateStack of that
    top with the same size releases the region when the size is a multiple of
    16, and otherwise leaves everything as it is: the stack is never released.
    *)
Theorem windows_stack_roundtrip m base size rest (Ha : vm_answers m = Some base :: rest)
    (Hf : fits base size) (Hfresh : vm_regions m !! base = None) (Hm : page_aligned m) :
  wp (AllocateStack size) (fun r m' => exists top, r = Some top /\ top mod 16 = 0 /\
    base + PAGE_SIZE * STACK_GUARD_PAGES + (size - size mod 16) = top /\
    vm_regions m' !! base = Some (stack_region base size) /\
    wp (DeallocateStack r size) (fun _ m'' =>
      m'' = if size mod 16 =? 0 then Vm (vm_regions m) rest else m') m') m.
Proof.
  eapply wp_mono; [by apply windows_stack_allocated|]. intros r m' [-> ->].
  exists (top_of base size). split; [done|]. split; [addr_lia|]. split; [addr_lia|].
  split; [simpl; apply lookup_insert_eq|].
  eapply wp_mono; [by apply windows_stack_freed|]. intros [] m'' ->. simpl.
  destruct (Z.eqb_spec (size mod 16) 0) as [->|Hs].
  - by rewrite Z.sub_0_r, delete_insert_id.
  - rewrite delete_id; [done|]. rewrite lookup_insert_ne by lia.
    apply eq_None_not_Some. intros H%Hm. addr_lia.
Qed.

Lemma windows_stack_roundtrip_witness :
  wp (AllocateStack 8200) (fun r m' => exists top, r = Some top /\ top mod 16 = 0 /\
    65536 + PAGE_SIZE * STACK_GUARD_PAGES + (8200 - 8200 mod 16) = top /\
    vm_regions m' !! 65536 = Some (stack_region 65536 8200) /\
    wp (DeallocateStack r 8200) (fun _ m'' =>
      m'' = if 8200 mod 16 =? 0 then Vm ∅ [] else m') m') (Vm ∅ [Some 65536]).
Proof.
  apply (windows_stack_roundtrip (Vm ∅ [Some 65536]) 65536 8200 []); [done|by vm_compute|by apply lookup_empty|].
  intros a [r Hr]. simpl in Hr. by rewrite lookup_empty in Hr.
Defined.

(** CreateThread makes the same steps as on Linux. *)
Theorem CreateThread_as_on_linux f a : CreateThread f a = Platform.CreateThread f a.
Proof. reflexivity. Qed.

(** JoinThread of a thread that has ended closes its handle; a second one is
    undefined. *)
Theorem JoinThread_closes_the_handle hs th (H : hs !! th = Some true) :
  wp (JoinThread th) (fun _ hs' => hs' = delete th hs /\ goes_wrong (JoinThread th) hs') hs.
Proof.
  unfold JoinThread. apply wp_act_bind. rewrite H. apply wp_act_last. split; [done|].
  apply wrong_act. by rewrite lookup_delete_eq.
Qed.

Lemma JoinThread_closes_the_handle_witness :
  wp (JoinThread 4) (fun _ hs' => hs' = delete 4%nat {[4%nat := true]} /\ goes_wrong (JoinThread 4) hs') {[4%nat := true]}.
Proof. by apply (JoinThread_closes_the_handle {[4%nat := true]} 4). Defined.

(** ** Time *)

(** The timeout of FutexWait is the time given, rounded down to milliseconds,
    as long as it is below INFINITE milliseconds (49 days). *)
Theorem timeout_ms_rounds_down sec nsec (Hs : 0 <= sec) (Hn : 0 <= nsec < 1000000000)
    (Hlt : sec * 1000 + nsec / 1000000 < INFINITE) :
  let ms := timeout_ms (Some (sec, nsec)) in
  ms <> INFINITE /\ ms * 1000000 <= sec * 1000000000 + nsec < (ms + 1) * 1000000.
Proof.
  unfold timeout_ms, INFINITE in *. rewrite Z.quot_div_nonneg by lia.
  rewrite wraps_small by (Z.to_euclidean_division_equations; lia).
  rewrite wrapu_small by (Z.to_euclidean_division_equations; lia).
  Z.to_euclidean_division_equations; lia.
Qed.

Lemma timeout_ms_rounds_down_witness :
  let ms := timeout_ms (Some (1, 999999)) in
  ms <> INFINITE /\ ms * 1000000 <= 1 * 1000000000 + 999999 < (ms + 1) * 1000000.
Proof. apply (timeout_ms_rounds_down 1 999999); by vm_compute. Defined.

(** A timeout of exactly INFINITE milliseconds never ends, one of a
    millisecond more ends at once, and so does one of less than a millisecond.
    *)
Theorem long_timeouts_wrap :
  timeout_ms (Some (4294967, 295000000)) = timeout_ms None /\
  timeout_ms (Some (4294967, 296000000)) = 0 /\
  timeout_ms (Some (0, 999999)) = 0.
Proof. by vm_compute. Qed.

(** C35: For every frequency below 2^43 Hz and every reading whose time in
    microseconds fits 64 bits, splitting the counter into seconds and a rest
    loses nothing: the clock is the counter in microseconds, rounded down. *)
Theorem windows_clock_exact freq counter (Hf : 0 < freq < 2 ^ 43) (Hc : 0 <= counter)
    (Hs : counter * 1000000 / freq < 2 ^ 63) :
  GetTimeOfDayUs freq counter = counter * 1000000 / freq.
Proof.
  unfold GetTimeOfDayUs. rewrite Z.rem_mod_nonneg, Z.quot_div_nonneg by lia.
  pose proof (Z.mod_pos_bound counter freq ltac:(lia)) as Hm.
  rewrite (wraps_small 64 (_ mod _ * _)) by lia.
  rewrite Z.quot_div_nonneg by lia.
  assert (E : counter / freq * 1000000 + counter mod freq * 1000000 / freq = counter * 1000000 / freq).
  { rewrite (Z.div_mod counter freq) at 3 by lia.
    replace ((freq * (counter / freq) + counter mod freq) * 1000000)
      with (counter mod freq * 1000000 + counter / freq * 1000000 * freq) by lia.
    rewrite Z.div_add by lia. lia. }
  rewrite E, wraps_small; [done| |lia].
  split; [|lia]. assert (0 <= counter * 1000000 / freq) by (apply Z.div_pos; lia). lia.
Qed.

Lemma windows_clock_exact_witness : GetTimeOfDayUs 10000000 123456789 = 123456789 * 1000000 / 10000000.
Proof. apply windows_clock_exact; by vm_compute. Defined.

End PlatformWindows.
