(* ===== verification/Result.v ===== *)
(** * Results and errors

    Model of [include/coro/result.h]: [Error], [Result<T>] and [Result<void>].
    An access that throws returns the exception on the right. *)

From Stdlib Require Import ZArith String.
From stdpp Require Import base numbers strings.
From S2P Require Import Prelude.

Open Scope Z_scope.

Module Result.

(** What is thrown: an object derived from [std::exception], by what [what()]
    says, or something else. *)
Inductive exception := StdException (what : string) | OtherException (n : Z).
Definition throws (T : Type) : Type := T + exception.

Record Error := MkError { code : Z; message : string }.

#[export] Instance exception_eq_dec : EqDecision exception.
Proof. solve_decision. Defined.
#[export] Instance Error_eq_dec : EqDecision Error.
Proof. solve_decision. Defined.

(** ** [Result<T>]: a [std::variant<T, Error>] *)

Inductive Result (T : Type) := Value (v : T) | Failure (e : Error).
Arguments Value {T} v.
Arguments Failure {T} e.

Section Result.
Context {T : Type}.

(** The default constructor. *)
Definition uninitialized : Result T := Failure (MkError (-1) "uninitialized").

Definition is_ok (r : Result T) : bool := match r with Value _ => true | Failure _ => false end.
Definition is_err (r : Result T) : bool := match r with Value _ => false | Failure _ => true end.

Definition value (r : Result T) : throws T :=
  match r with
  | Value v => inl v
  | Failure _ => inr (StdException "Result contains error")
  end.
Definition error (r : Result T) : throws Error :=
  match r with
  | Value _ => inr (StdException "Result contains value")
  | Failure e => inl e
  end.

(** Assigning through the references that the accessors return. *)
Definition set_value (r : Result T) (v : T) : throws (Result T) :=
  match r with
  | Value _ => inl (Value v)
  | Failure _ => inr (StdException "Result contains error")
  end.
Definition set_error (r : Result T) (e : Error) : throws (Result T) :=
  match r with
  | Value _ => inr (StdException "Result contains value")
  | Failure _ => inl (Failure e)
  end.

(** What a result holds, and what it was made from, are the same. *)
Definition from (x : T + Error) : Result T := match x with inl v => Value v | inr e => Failure e end.
Definition to (r : Result T) : T + Error := match r with Value v => inl v | Failure e => inr e end.

(** A result made from a value or an error answers exactly one of is_ok and
    is_err; the accessor for what it holds gives it back, the other one
    throws. *)
Theorem Result_roundtrip (x : T + Error) :
  to (from x) = x /\ is_err (from x) = negb (is_ok (from x)) /\
  match x with
  | inl v => is_ok (from x) = true /\ value (from x) = inl v /\
             error (from x) = inr (StdException "Result contains value")
  | inr e => is_ok (from x) = false /\ error (from x) = inl e /\
             value (from x) = inr (StdException "Result contains error")
  end.
Proof. by destruct x. Qed.

Lemma set_value_value r v r' : set_value r v = inl r' -> value r' = inl v.
Proof. destruct r; [|done]. by intros [= <-]. Qed.
End Result.

(** ** [Result<void>] *)

Module Void.

Record Result := MkResult { has_error_ : bool; error_ : Error }.

Definition Success : Result := MkResult false (MkError 0 "").
Definition Failure (e : Error) : Result := MkResult true e.

Definition is_ok (r : Result) : bool := negb (has_error_ r).
Definition is_err (r : Result) : bool := has_error_ r.
Definition error (r : Result) : throws Error :=
  if has_error_ r then inl (error_ r) else inr (StdException "Result contains success").

#[export] Instance Result_eq_dec : EqDecision Result.
Proof. solve_decision. Defined.
End Void.

End Result.
