(* ===== verification/Cancel.v ===== *)
(** * Cancellation

    Model of [include/coro/cancel.h]: a [CancelSource] is a flag in memory, a
    [CancellationToken] is the address of the flag, and using the flag of a
    source that was destroyed is undefined behaviour. *)

From Stdlib Require Import ZArith Lia.
From stdpp Require Import base numbers list gmap relations option.
From S2P Require Import Prelude Concurrency.

Open Scope Z_scope.

Module Cancel.

(** The live sources: their [cancelled_]; and the address of the next one. *)
Record state := State { s_sources : gmap ptr bool; s_brk : ptr }.
Definition State_eta (s : state) : state := State (s_sources s) (s_brk s).
Definition sources : field state (gmap ptr bool) := ltac:(lens State_eta s_sources).

(** The flag as a member of itself. *)
Definition flag : field bool bool := Field (fun b => b) (fun b _ => b).

(** ** [CancelSource] *)

Definition CancelSource : prog state ptr :=
  act (fun s => Go (s_brk s) (State (<[s_brk s := false]> (s_sources s)) (S (s_brk s)))).
Definition delete_CancelSource (p : ptr) : prog state unit :=
  act (fun s => match s_sources s !! p with
                | Some _ => Go tt (wr sources (delete p (s_sources s)) s)
                | None => Bad
                end).
Definition token (p : ptr) : ptr := p.
Definition cancel (p : ptr) : prog state unit := set sources p flag true.
Definition is_cancelled (p : ptr) : prog state bool := get sources p flag.
Definition reset (p : ptr) : prog state unit := set sources p flag false.

(** ** [CancellationToken] *)

Module Token.
Definition is_cancelled (flag_ : ptr) : prog state bool := get sources flag_ flag.
Definition check_cancel (flag_ : ptr) : ptr := flag_.
Definition await_ready : bool := true.
Definition await_resume (flag_ : ptr) : prog state bool := get sources flag_ flag.
(** [co_await token.check_cancel()]: it never suspends. *)
Definition co_await_check (flag_ : ptr) : prog state bool :=
  let awaiter := check_cancel flag_ in
  if await_ready then await_resume awaiter else undefined.
End Token.

(** ** What tokens report *)

Inductive op := Cancel | Check | CoCheck.

(** A thread that cancels and asks, in any order; what it was told. *)
Fixpoint client (p : ptr) (os : list op) (told : list bool) : prog state (list bool) :=
  match os with
  | [] => Ret told
  | Cancel :: os => cancel p ;;; client p os told
  | Check :: os => b <- Token.is_cancelled (token p) ;; client p os (told ++ [b])
  | CoCheck :: os => b <- Token.co_await_check (token p) ;; client p os (told ++ [b])
  end.

(** Answers are monotone: never "no" after "yes". *)
Definition monotone (l : list bool) : Prop :=
  exists n m, l = replicate n false ++ replicate m true.

Lemma monotone_app l (b : bool) : monotone l -> (true ∈ l -> b = true) -> monotone (l ++ [b]).
Proof.
  intros (n & m & ->) Hb. destruct b.
  - exists n, (S m). by rewrite <- app_assoc, <- replicate_S_end.
  - destruct m as [|m].
    + exists (S n), O. by rewrite !app_nil_r, replicate_S_end.
    + exfalso. assert (false = true) by (apply Hb, elem_of_app; right; by left). done.
Qed.

(** For each question of a thread, whether the thread has cancelled before it;
    [did] says whether it had before all of them. *)
Fixpoint cancelled_before (did : bool) (os : list op) : list bool :=
  match os with
  | [] => []
  | Cancel :: os => cancelled_before true os
  | _ :: os => did :: cancelled_before did os
  end.

#[export] Instance op_eq_dec : EqDecision op := ltac:(solve_decision).

Definition cancels (os : list op) : bool := bool_decide (Cancel ∈ os).

Lemma cancels_cons o os : cancels (o :: os) = match o with Cancel => true | _ => cancels os end.
Proof.
  unfold cancels. destruct o; [apply bool_decide_eq_true_2; by left|apply bool_decide_ext; set_solver..].
Qed.

Section Threads.
Context (p : ptr).

Definition is_set (s : state) : Prop := s_sources s !! p = Some true.
Definition live (c : state * unit) : Prop := is_Some (s_sources c.1 !! p).
(** Nobody resets the flag. *)
Definition grows (i : nat) (c c' : state * unit) : Prop := is_set c.1 -> is_set c'.1.

(** A thread that has cancelled, or was told "yes", sees the flag set. *)
Definition knows (did : bool) (told : list bool) (c : state * unit) : Prop :=
  monotone told /\ (did = true \/ true ∈ told -> is_set c.1).

Lemma knows_stable i did told : stable live grows i (knows did told).
Proof. intros j c c' _ _ [H1 H2] HG _. split; [done|]. intros Ht. by apply HG, H2. Qed.

Lemma ask_ok {A} i did told (g : bool -> prog state A) Q :
  (forall b, (did = true -> b = true) -> rg live grows i (knows did (told ++ [b])) (g b) Q) ->
  rg live grows i (knows did told) (b <- get sources p flag ;; g b) Q.
Proof.
  intros Hg. unfold get. apply rg_atomic with (P' := fun b c => (did = true -> b = true) /\ knows did (told ++ [b]) c).
  - apply knows_stable.
  - intros s [] [b Hb] [H1 H2]. simpl in *. rewrite Hb. exists tt. split; [by intros H|]. split; [by exists b|].
    assert (Hd : did = true \/ true ∈ told -> b = true) by (intros Ht; specialize (H2 Ht); unfold is_set in H2; simpl in *; congruence).
    split; [by auto|]. split; [apply monotone_app; auto|].
    intros [Hdid|[Ht|Ht%list_elem_of_singleton]%elem_of_app]; [by auto..|]. subst b. exact Hb.
  - intros b c n HI [Hd Hk]. by apply (Hg b Hd).
Qed.

Lemma cancel_client_ok i os did told : rg live grows i (knows did told) (client p os told) (fun told' c =>
  knows (did || cancels os) told' c /\
  exists new, told' = told ++ new /\ Forall2 (fun d b => d = true -> b = true) (cancelled_before did os) new).
Proof.
  revert did told; induction os as [|o os IH]; intros did told.
  - simpl. apply rg_ret; [apply knows_stable|]. intros c _ H. rewrite orb_false_r. split; [exact H|].
    exists []. by rewrite app_nil_r.
  - assert (Hask : rg live grows i (knows did told) (b <- get sources p flag ;; client p os (told ++ [b]))
      (fun told' c => knows (did || cancels os) told' c /\
         exists new, told' = told ++ new /\ Forall2 (fun d b => d = true -> b = true) (did :: cancelled_before did os) new)).
    { apply (ask_ok i did told (fun b => client p os (told ++ [b]))). intros b Hb.
      eapply rg_post; [|apply IH]. intros told' c _ (H1 & new & -> & H2). split; [exact H1|].
      exists (b :: new). split; [by rewrite <- app_assoc|by constructor]. }
    rewrite cancels_cons. destruct o; [|exact Hask..]. simpl. unfold cancel, set.
    apply rg_atomic with (P' := fun _ => knows true told); [apply knows_stable| |].
    + intros s [] [b Hb] [H1 H2]. simpl in *. rewrite Hb. exists tt.
      assert (Hs : is_set (wr sources (<[p := true]> (s_sources s)) s)) by apply lookup_insert_eq.
      split; [by intros _|]. split; [by exists true|]. by split.
    + intros []. eapply rg_post; [|apply (IH true)]. intros told' c _ H. by rewrite orb_true_r.
Qed.

(** Nobody cancels. *)
Definition unset (c : state * unit) : Prop := s_sources c.1 !! p = Some false.

Lemma quiet_client_ok i os told : cancels os = false -> Forall (eq false) told ->
  rg unset (fun _ _ _ => True) i (fun _ => True) (client p os told) (fun told' _ => Forall (eq false) told').
Proof.
  revert told; induction os as [|o os IH]; intros told Hc Ht.
  - simpl. by apply rg_ret.
  - rewrite cancels_cons in Hc.
    assert (Hask : rg unset (fun _ _ _ => True) i (fun _ => True) (b <- get sources p flag ;; client p os (told ++ [b]))
      (fun told' _ => Forall (eq false) told')).
    { unfold get. apply rg_atomic with (P' := fun b _ => b = false); [done| |].
      - intros s [] Hu _. unfold unset in Hu. simpl in *. rewrite Hu. by exists tt.
      - intros b c n HI ->. apply (IH (told ++ [false])); [by destruct o|apply Forall_app; split; [done|by repeat constructor]|done|done]. }
    by destruct o.
Qed.
End Threads.

(** C33: In every interleaving of any number of threads that cancel a source
    and check its tokens, while the source lives and nobody resets it: a
    thread that has cancelled the source is told so at every later check, and
    the source then stays cancelled; no thread is told that there was no
    cancellation after it was told that there was one; if nobody cancels a
    source that is not cancelled, every check answers that there was none; and
    nothing undefined happens. *)
Theorem cancellation_is_stable s p b oss ts s' (Hp : s_sources s !! p = Some b)
    (Hr : reachable ((fun os => client p os []) <$> oss, s) (ts, s')) :
  (forall i t, ts !! i = Some t -> is_bad t s' = false) /\
  (forall i os told, oss !! i = Some os -> ts !! i ≫= result = Some told ->
     monotone told /\ Forall2 (fun d r => d = true -> r = true) (cancelled_before false os) told /\
     (Cancel ∈ os -> s_sources s' !! p = Some true)) /\
  (b = false -> (forall os, os ∈ oss -> Cancel ∉ os) ->
     s_sources s' !! p = Some false /\
     forall i told, ts !! i ≫= result = Some told -> Forall (eq false) told).
Proof.
  set (post := fun (i : nat) (told : list bool) (c : state * unit) => exists os, oss !! i = Some os /\
    knows p (cancels os) told c /\ Forall2 (fun d r => d = true -> r = true) (cancelled_before false os) told).
  destruct (rg_adequacy (live p) (grows p) ((fun os => client p os []) <$> oss) post s tt ts s')
    as (γ & _ & H); [by exists b| |done|].
  { intros i q Hq. apply list_lookup_fmap_Some in Hq as (os & -> & Hos). exists (knows p false []).
    split; [split; [by exists O, O|]; intros [|Ht]; [done|by apply not_elem_of_nil in Ht]|].
    eapply rg_post; [|apply cancel_client_ok]. intros told c _ (H1 & new & -> & H2). exists os. by split_and!. }
  split; [intros i t Ht; by destruct (H i t Ht)|]. split.
  - intros i os told Hos Hi. destruct (ts !! i) as [t|] eqn:Ht; [|done].
    destruct (H i t Ht) as [_ HQ]. destruct (HQ told Hi) as (os' & Hos' & [H1 H2] & H3).
    assert (os' = os) as -> by congruence. split; [exact H1|]. split; [exact H3|]. intros Hc. apply H2. left.
    by apply bool_decide_eq_true_2.
  - intros -> Hno.
    destruct (rg_adequacy (unset p) (fun _ _ _ => True) ((fun os => client p os []) <$> oss)
      (fun _ told _ => Forall (eq false) told) s tt ts s') as (γ' & Hu & H'); [exact Hp| |done|].
    + intros i q Hq. apply list_lookup_fmap_Some in Hq as (os & -> & Hos). exists (fun _ => True). split; [done|].
      apply quiet_client_ok; [|constructor]. apply bool_decide_eq_false_2, Hno. by eapply list_elem_of_lookup_2.
    + split; [exact Hu|]. intros i told Hi. destruct (ts !! i) as [t|] eqn:Ht; [|done].
      by apply (H' i t Ht).
Qed.

(** A thread that has cancelled is told so by every token until somebody
    resets the source; a token used after its source was destroyed is
    undefined behaviour. *)
Theorem a_token_sees_its_source s p b (Hp : s_sources s !! p = Some b) :
  wp (cancel p ;;; a <- Token.is_cancelled (token p) ;; c <- Token.co_await_check (token p) ;; reset p ;;;
      d <- is_cancelled p ;; Ret (a, c, d)) (fun r _ => r = (true, true, false)) s /\
  goes_wrong (delete_CancelSource p ;;; Token.is_cancelled (token p)) s.
Proof.
  split.
  - eapply wp_set_bind; [exact Hp|]. eapply wp_get_bind; [apply lookup_insert_eq|].
    unfold Token.co_await_check. simpl. eapply wp_get_bind; [apply lookup_insert_eq|].
    eapply wp_set_bind; [apply lookup_insert_eq|]. eapply wp_get_bind; [apply lookup_insert_eq|]. by apply wp_ret.
  - apply (wrong_bind _ _ _ (fun _ s' => s' = wr sources (delete p (s_sources s)) s)).
    + unfold delete_CancelSource. apply wp_act_last. by rewrite Hp.
    + intros [] s' ->. apply wrong_act. simpl. by rewrite lookup_delete_eq.
Qed.

Definition one_source : state := State {[1%nat := false]} 2.

(** The second thread asks before and after the first one has cancelled. *)
Lemma asked_twice : reachable
  ((fun os => client 1 os []) <$> [[Cancel; CoCheck]; [Check; CoCheck]], one_source)
  ([Ret [true]; Ret [false; true]], State {[1%nat := true]} 2).
Proof.
  apply (sched_reachable [(1%nat, false); (0%nat, false); (1%nat, false); (0%nat, false)]).
  vm_compute. reflexivity.
Qed.

(** Nobody cancels. *)
Lemma asked_once : reachable ((fun os => client 1 os []) <$> [[Check]], one_source) ([Ret [false]], one_source).
Proof. apply (sched_reachable [(0%nat, false)]). vm_compute. reflexivity. Qed.

Lemma cancellation_is_stable_witness :
  reachable ((fun os => client 1 os []) <$> [[Cancel; CoCheck]; [Check; CoCheck]], one_source)
    ([Ret [true]; Ret [false; true]], State {[1%nat := true]} 2) /\
  Forall2 (fun d r => d = true -> r = true) [true] [true] /\ monotone [false; true] /\
  reachable ((fun os => client 1 os []) <$> [[Check]], one_source) ([Ret [false]], one_source) /\
  Forall (eq false) [false].
Proof.
  destruct (cancellation_is_stable one_source 1 false _ _ _ eq_refl asked_twice) as (_ & H & _).
  split; [exact asked_twice|]. split; [by apply (H 0%nat [Cancel; CoCheck] [true])|].
  split; [by apply (H 1%nat [Check; CoCheck] [false; true])|]. split; [exact asked_once|].
  destruct (cancellation_is_stable one_source 1 false _ _ _ eq_refl asked_once) as (_ & _ & H').
  apply (proj2 (H' eq_refl ltac:(intros os ->%list_elem_of_singleton; set_solver)) 0%nat). reflexivity.
Defined.

Lemma a_token_sees_its_source_witness :
  goes_wrong (delete_CancelSource 1 ;;; Token.is_cancelled (token 1)) one_source.
Proof. by apply (a_token_sees_its_source one_source 1 false). Defined.

End Cancel.
