(* ===== verification/FramePool.v ===== *)
(** * The pool of coroutine frames

    Model of [src/coro/frame_pool.cpp] and [include/coro/frame_pool.h]: blocks
    of one size from [malloc], with the free ones linked through their first
    word, under a mutex.  Touching memory that is not a block is undefined
    behaviour. *)

From Stdlib Require Import ZArith Lia.
From stdpp Require Import base numbers list gmap relations option.
From S2P Require Import Prelude Concurrency.

Open Scope Z_scope.

Module FramePool.

(** A block of memory: its size, and its first word, which is the [next] of a
    [FreeNode] while the block is free. *)
Record block := Block { bk_size : Z; bk_next : option ptr }.
Definition Block_eta (b : block) : block := Block (bk_size b) (bk_next b).
Definition next : field block (option ptr) := ltac:(lens Block_eta bk_next).

Record pool := Pool {
  p_block_size_ : Z;
  p_allocated_blocks_ : list ptr;
  p_free_list_ : option ptr;
  p_mutex_ : bool;
  p_blocks : gmap ptr block; (** the heap: the blocks that have been allocated *)
  p_brk : ptr;               (** the address of the next one *)
}.

Definition Pool_eta (p : pool) : pool :=
  Pool (p_block_size_ p) (p_allocated_blocks_ p) (p_free_list_ p) (p_mutex_ p) (p_blocks p) (p_brk p).

Definition block_size_ : field pool Z := ltac:(lens Pool_eta p_block_size_).
Definition allocated_blocks_ : field pool (list ptr) := ltac:(lens Pool_eta p_allocated_blocks_).
Definition free_list_ : field pool (option ptr) := ltac:(lens Pool_eta p_free_list_).
Definition mutex_ : field pool bool := ltac:(lens Pool_eta p_mutex_).
Definition blocks : field pool (gmap ptr block) := ltac:(lens Pool_eta p_blocks).

(** A pool that is not initialised. *)
Definition FramePool : pool := Pool 0 [] None false ∅ 1%nat.

Definition sizeof_FreeNode : Z := 8.

(** [std::malloc], which may fail, and [std::free]. *)
Definition malloc (size : Z) : prog pool (option ptr) :=
  Act (fun sp p => if sp then Go None p
                   else Go (Some (p_brk p))
                          (Pool (p_block_size_ p) (p_allocated_blocks_ p) (p_free_list_ p) (p_mutex_ p)
                             (<[p_brk p := Block size None]> (p_blocks p)) (1 + p_brk p)%nat)) Ret.
Definition free (b : ptr) : prog pool unit :=
  act (fun p => match p_blocks p !! b with
                | Some _ => Go tt (wr blocks (delete b (p_blocks p)) p)
                | None => Bad
                end).

(** [node->next = free_list_; free_list_ = node]. *)
Definition push_free (node : ptr) : prog pool unit :=
  head <- load free_list_ ;;
  set blocks node next head ;;;
  store free_list_ (Some node).

Definition Init (block_size initial_count : Z) : prog pool unit :=
  lock mutex_ ;;;
  store block_size_ block_size ;;;
  size <- load block_size_ ;;
  (if size <? sizeof_FreeNode then store block_size_ sizeof_FreeNode else Ret tt) ;;;
  loop 0 (fun i =>
    if i <? initial_count then
      size <- load block_size_ ;;
      block <- malloc size ;;
      (match block with
       | Some b => fetch allocated_blocks_ (fun l => l ++ [b]) ;;; push_free b
       | None => Ret tt
       end) ;;;
      Ret (inl (i + 1))
    else Ret (inr tt)) ;;;
  unlock mutex_.

Definition Allocate (size : Z) : prog pool (option ptr) :=
  block_size <- load block_size_ ;;
  large <- (if block_size <? size then Ret true
            else block_size <- load block_size_ ;; Ret (block_size =? 0)) ;;
  if large : bool then Ret None
  else
    lock mutex_ ;;;
    node <- load free_list_ ;;
    match node with
    | Some n =>
        rest <- get blocks n next ;;
        store free_list_ rest ;;;
        unlock mutex_ ;;;
        Ret (Some n)
    | None =>
        block_size <- load block_size_ ;;
        block <- malloc block_size ;;
        (match block with
         | Some b => fetch allocated_blocks_ (fun l => l ++ [b]) ;;; Ret tt
         | None => Ret tt
         end) ;;;
        unlock mutex_ ;;;
        Ret block
    end.

Definition Deallocate (block : option ptr) : prog pool unit :=
  match block with
  | None => Ret tt
  | Some b =>
      lock mutex_ ;;;
      push_free b ;;;
      unlock mutex_
  end.

Definition block_size : prog pool Z := load block_size_.

(** The destructor. *)
Definition delete_FramePool : prog pool unit :=
  lock mutex_ ;;;
  all <- load allocated_blocks_ ;;
  loop all (fun all =>
    match all with
    | [] => Ret (inr tt)
    | b :: all => free b ;;; Ret (inl all)
    end) ;;;
  unlock mutex_.

(** ** Who owns a block *)

(** The free list is [l]; the blocks of [held] are in use; together they are
    all the blocks there are, each at least of the size promised. *)
Record repr (p : pool) (l held : list ptr) : Prop := {
  rp_head : p_free_list_ p = head l;
  rp_link : forall k b, l !! k = Some b -> bk_next <$> p_blocks p !! b = Some (l !! S k);
  rp_all : held ++ l ≡ₚ p_allocated_blocks_ p;
  rp_nodup : NoDup (p_allocated_blocks_ p);
  rp_live : forall b, b ∈ p_allocated_blocks_ p ->
    exists o, p_blocks p !! b = Some o /\ p_block_size_ p <= bk_size o;
  rp_brk : forall b, b ∈ p_allocated_blocks_ p -> (b < p_brk p)%nat;
}.

#[local] Instance repr_proper p l : Proper ((≡ₚ) ==> iff) (repr p l).
Proof.
  intros h1 h2 Hh. split; intros []; split; try done; [by rewrite <- Hh|by rewrite Hh].
Qed.

(** A block has one place. *)
Lemma repr_NoDup p l held : repr p l held -> NoDup (held ++ l).
Proof. intros H. rewrite (rp_all _ _ _ H). apply (rp_nodup _ _ _ H). Qed.

Lemma repr_in p l held b : repr p l held -> b ∈ held ++ l ->
  exists o, p_blocks p !! b = Some o /\ p_block_size_ p <= bk_size o.
Proof. intros H Hb. apply (rp_live _ _ _ H). by rewrite <- (rp_all _ _ _ H). Qed.

Lemma repr_free p l held b : repr p l held -> b ∈ held -> b ∈ l -> False.
Proof. intros H%repr_NoDup H1 H2. apply list.NoDup_app in H as (_ & H & _). by apply (H b). Qed.

(** What the user of a block writes does not matter. *)
Lemma repr_write p l held b o x : repr p l held -> p_blocks p !! b = Some o -> b ∈ held ->
  repr (wr blocks (<[b := wr next x o]> (p_blocks p)) p) l held.
Proof.
  intros H Ho Hb. pose proof (repr_free _ _ _ b H Hb) as Hl. destruct H. split; simpl; try done.
  - intros k c Hc. assert (b <> c) by (intros ->; apply Hl; by eapply list_elem_of_lookup_2).
    rewrite lookup_insert_ne by done. by apply rp_link0.
  - intros c Hc. destruct (decide (b = c)) as [<-|Hne]; [|rewrite lookup_insert_ne by done; auto].
    rewrite lookup_insert_eq. destruct (rp_live0 b Hc) as (o' & E & Hs).
    assert (o' = o) as -> by congruence. by eexists.
Qed.

(** Taking the first free block. *)
Lemma repr_take p n l held : repr p (n :: l) held ->
  repr (wr free_list_ (head l) p) l (n :: held).
Proof.
  intros []. split; simpl; try done.
  - intros k b Hb. exact (rp_link0 (S k) b Hb).
  - rewrite <- rp_all0. by rewrite Permutation_middle.
Qed.

(** Giving one back, once its link is written. *)
Lemma repr_give p l b held : repr p l (b :: held) ->
  bk_next <$> p_blocks p !! b = Some (head l) ->
  repr (wr free_list_ (Some b) p) (b :: l) held.
Proof.
  intros [] Hb. split; simpl; try done.
  - intros [|k] c Hc; simpl in *; [|by apply rp_link0].
    injection Hc as <-. by rewrite Hb, head_lookup.
  - rewrite <- rp_all0. by rewrite <- Permutation_middle.
Qed.

(** A new block. *)
Lemma repr_new p l held b o : repr p l held -> b ∉ p_allocated_blocks_ p ->
  p_blocks p !! b = Some o -> p_block_size_ p <= bk_size o -> (b < p_brk p)%nat ->
  repr (wr allocated_blocks_ (p_allocated_blocks_ p ++ [b]) p) l (b :: held).
Proof.
  intros [] Hn Ho Hs Hb. split; simpl; try done.
  - rewrite rp_all0. by rewrite Permutation_app_comm.
  - apply list.NoDup_app. split; [done|]. split; [|apply NoDup_singleton].
    intros x Hx ->%list_elem_of_singleton. done.
  - intros c [Hc|Hc%list_elem_of_singleton]%elem_of_app; [auto|subst c]. by exists o.
  - intros c [Hc|Hc%list_elem_of_singleton]%elem_of_app; [auto|by subst c].
Qed.

(** What [malloc] returns. *)
Definition malloced (size : Z) (p : pool) : pool :=
  Pool (p_block_size_ p) (p_allocated_blocks_ p) (p_free_list_ p) (p_mutex_ p)
    (<[p_brk p := Block size None]> (p_blocks p)) (1 + p_brk p)%nat.

Lemma repr_malloc p l held size : repr p l held -> repr (malloced size p) l held.
Proof.
  intros H. assert (Hf : forall b, b ∈ p_allocated_blocks_ p -> p_brk p <> b)
    by (intros b Hb%(rp_brk _ _ _ H); lia).
  destruct H. split; simpl; try done.
  - intros k b Hb. rewrite lookup_insert_ne; [by apply rp_link0|]. apply Hf. rewrite <- rp_all0.
    apply elem_of_app. right. by eapply list_elem_of_lookup_2.
  - intros b Hb. rewrite lookup_insert_ne by (by apply Hf). auto.
  - intros b Hb%rp_brk0. lia.
Qed.

(** ** Concurrent use

    A client allocates, writes whatever it likes into the blocks it has, and
    gives them back, in any order. *)
Inductive op := OpAllocate (size : Z) | OpWrite (k : nat) (x : option ptr) | OpDeallocate (k : nat).

Fixpoint client (os : list op) (held : list ptr) : prog pool (list ptr) :=
  match os with
  | [] => Ret held
  | OpAllocate size :: os => b <- Allocate size ;; client os (option_list b ++ held)
  | OpWrite k x :: os =>
      match held !! k with
      | Some b => set blocks b next x ;;; client os held
      | None => client os held
      end
  | OpDeallocate k :: os => Deallocate (held !! k) ;;; client os (delete k held)
  end.

(** Ghost state: which thread is in a critical section, and what each holds. *)
Record ghost := Ghost { owner : option nat; held : list (list ptr) }.

Definition Inv (c : pool * ghost) : Prop :=
  p_mutex_ c.1 = bool_decide (owner c.2 <> None) /\ exists l, repr c.1 l (concat (held c.2)).

(** The steps of thread [i]. *)
Inductive Guar (i : nat) : pool * ghost -> pool * ghost -> Prop :=
| g_refl c : Guar i c c
| g_write p γ b o x h : held γ !! i = Some h -> b ∈ h -> p_blocks p !! b = Some o ->
    Guar i (p, γ) (wr blocks (<[b := wr next x o]> (p_blocks p)) p, γ)
| g_enter p γ : owner γ = None -> Guar i (p, γ) (wr mutex_ true p, Ghost (Some i) (held γ))
| g_leave p γ : owner γ = Some i -> Guar i (p, γ) (wr mutex_ false p, Ghost None (held γ))
| g_section p p' γ h : owner γ = Some i -> p_block_size_ p' = p_block_size_ p ->
    Guar i (p, γ) (p', Ghost (Some i) (<[i := h]> (held γ))).

Lemma concat_update (hs : list (list ptr)) i h h' : hs !! i = Some h ->
  exists rest, concat hs ≡ₚ h ++ rest /\ concat (<[i := h']> hs) ≡ₚ h' ++ rest.
Proof.
  revert i; induction hs as [|x hs IH]; intros [|i] Hi; simplify_eq/=; [by exists (concat hs)|].
  destruct (IH i Hi) as (rest & E1 & E2). exists (x ++ rest).
  split; [rewrite E1|rewrite E2]; apply Permutation_app_swap_app.
Qed.

Lemma concat_in (hs : list (list ptr)) i h b : hs !! i = Some h -> b ∈ h -> b ∈ concat hs.
Proof.
  intros Hi Hb. destruct (concat_update hs i h [] Hi) as (rest & E & _). rewrite E.
  apply elem_of_app. by left.
Qed.

(** Different threads hold different blocks. *)
Lemma concat_disjoint (hs : list (list ptr)) i j h h' b : NoDup (concat hs) -> i <> j ->
  hs !! i = Some h -> hs !! j = Some h' -> b ∈ h -> b ∈ h' -> False.
Proof.
  intros Hnd Hne Hi Hj Hb Hb'. destruct (concat_update hs i h [] Hi) as (rest & E & E2).
  rewrite E in Hnd. apply list.NoDup_app in Hnd as (_ & Hd & _). apply (Hd b Hb).
  assert (Hin : b ∈ concat (<[i := []]> hs)).
  { eapply concat_in; [|exact Hb']. by rewrite list_lookup_insert_ne. }
  by rewrite E2 in Hin.
Qed.

Section Threads.
Context (i : nat).

Definition has (h : list ptr) (c : pool * ghost) : Prop := held c.2 !! i = Some h.
Definition inside (h : list ptr) (c : pool * ghost) : Prop := owner c.2 = Some i /\ has h c.

(** What the others do to a thread inside its critical section: they write into
    their own blocks. *)
Lemma inside_env h j c c' : j <> i -> Inv c -> inside h c -> Guar j c c' ->
  c' = c \/ exists b o x h', held c.2 !! j = Some h' /\ b ∈ h' /\ p_blocks c.1 !! b = Some o /\
    c' = (wr blocks (<[b := wr next x o]> (p_blocks c.1)) c.1, c.2).
Proof.
  intros Hj HI [Ho Hh] HG. destruct HG; [by left|right; by exists b, o, x, h0|simpl in *; congruence..].
Qed.

Lemma has_stable h : stable Inv Guar i (has h).
Proof.
  intros j c c' Hj HI Hh HG _. destruct HG; try done. unfold has in *. simpl in *.
  by rewrite list_lookup_insert_ne.
Qed.

Lemma inside_stable h (P : pool * ghost -> Prop) :
  (forall p γ j b o x h', j <> i -> Inv (p, γ) -> inside h (p, γ) -> P (p, γ) -> held γ !! j = Some h' -> b ∈ h' ->
     p_blocks p !! b = Some o -> P (wr blocks (<[b := wr next x o]> (p_blocks p)) p, γ)) ->
  stable Inv Guar i (fun c => inside h c /\ P c).
Proof.
  intros HP j [p γ] c' Hj HI [Hin HPc] HG _.
  destruct (inside_env h j _ _ Hj HI Hin HG) as [->|(b & o & x & h' & H1 & H2 & H3 & ->)]; [done|].
  split; [exact Hin|]. by eapply HP.
Qed.

(** A step inside the critical section. *)
Lemma section_step h h' p p' γ l : Inv (p, γ) -> inside h (p, γ) -> p_mutex_ p' = p_mutex_ p ->
  p_block_size_ p' = p_block_size_ p -> repr p' l (concat (<[i := h']> (held γ))) ->
  let γ' := Ghost (Some i) (<[i := h']> (held γ)) in
  Guar i (p, γ) (p', γ') /\ Inv (p', γ') /\ inside h' (p', γ').
Proof.
  intros [Hm _] [Ho Hh] Hm' Hs Hr γ'. simpl in *. split; [by apply g_section|]. split.
  - split; [|by exists l]. simpl. rewrite Hm', Hm, Ho. done.
  - split; [done|]. unfold has. simpl. apply list_lookup_insert_eq. by eapply lookup_lt_Some.
Qed.

Lemma section_same h p p' γ l : Inv (p, γ) -> inside h (p, γ) -> p_mutex_ p' = p_mutex_ p ->
  p_block_size_ p' = p_block_size_ p -> repr p' l (concat (held γ)) ->
  Guar i (p, γ) (p', γ) /\ Inv (p', γ) /\ inside h (p', γ).
Proof.
  intros HI Hin Hm Hs Hr. assert (E : Ghost (Some i) (<[i := h]> (held γ)) = γ).
  { destruct γ as [o hs], Hin as [Ho Hh]. unfold has in Hh. simpl in *. by rewrite list_insert_id, Ho. }
  assert (Hr' : repr p' l (concat (<[i := h]> (held γ)))) by by rewrite list_insert_id by apply Hin.
  pose proof (section_step h h p p' γ l HI Hin Hm Hs Hr') as K. cbv zeta in K. by rewrite E in K.
Qed.

Lemma inside_only h : stable Inv Guar i (inside h).
Proof.
  intros j [p γ] c' Hj HI Hin HG _.
  by destruct (inside_env h j _ _ Hj HI Hin HG) as [->|(b & o & x & h' & _ & _ & _ & ->)].
Qed.

(** Leaving the critical section. *)
Lemma leave_last h : rg Inv Guar i (inside h) (unlock mutex_) (fun _ => has h).
Proof.
  apply rg_store_last; [apply inside_only|apply has_stable|].
  intros p γ [Hm (l & Hr)] [Ho Hh]. exists (Ghost None (held γ)). split; [by apply g_leave|].
  split; [|done]. split; [done|]. exists l. by destruct Hr.
Qed.

Lemma leave {A} h (a : A) (Q : A -> pool * ghost -> Prop) : (forall c, has h c -> Q a c) ->
  rg Inv Guar i (inside h) (unlock mutex_ ;;; Ret a) Q.
Proof.
  intros HQ. eapply (rg_bind _ _ i _ _ _ (fun _ => has h)); [apply leave_last|]. intros [].
  apply rg_ret; [apply has_stable|auto].
Qed.

(** Entering it. *)
Lemma enter {A} h (g : unit -> prog pool A) Q : rg Inv Guar i (inside h) (g tt) Q ->
  rg Inv Guar i (has h) (u <- lock mutex_ ;; g u) Q.
Proof.
  intros Hg. unfold lock. apply rg_atomic with (P' := fun _ => inside h); [apply has_stable| |by intros []].
  intros p γ [Hm (l & Hr)] Hh. simpl in Hm. simpl. rewrite Hm. case_bool_decide as Ho; [done|].
  assert (E : owner γ = None) by (by destruct (owner γ); [destruct Ho|]).
  exists (Ghost (Some i) (held γ)). split; [by apply g_enter|]. split; [|done].
  split; [done|]. exists l. by destruct Hr.
Qed.

(** Reading the head of the free list. *)
Definition sees_head (h : list ptr) (n : option ptr) (c : pool * ghost) : Prop :=
  inside h c /\ p_free_list_ c.1 = n.

Lemma sees_head_stable h n : stable Inv Guar i (sees_head h n).
Proof. by apply inside_stable. Qed.

Lemma load_head {A} h (g : option ptr -> prog pool A) Q :
  (forall n, rg Inv Guar i (sees_head h n) (g n) Q) ->
  rg Inv Guar i (inside h) (n <- load free_list_ ;; g n) Q.
Proof.
  intros Hg. apply rg_load with (P' := fun n => sees_head h n); [intros; apply g_refl|apply inside_only|done|done].
Qed.

Lemma Deallocate_ok k h : rg Inv Guar i (has h) (Deallocate (h !! k)) (fun _ => has (delete k h)).
Proof.
  destruct (h !! k) as [b|] eqn:Hk; simpl.
  2:{ apply rg_ret; [apply has_stable|]. intros c _ Hc. apply lookup_ge_None in Hk.
      by rewrite delete_take_drop, take_ge, drop_ge, app_nil_r by lia. }
  apply enter. eapply (rg_bind _ _ i _ _ _ (fun _ => inside (delete k h))); [|intros []; apply leave_last].
  unfold push_free. apply load_head. intros n.
  assert (Hb : b ∈ h) by by eapply list_elem_of_lookup_2.
  apply rg_atomic with (P' := fun _ c => inside h c /\ (p_free_list_ c.1 = n /\
    bk_next <$> p_blocks c.1 !! b = Some n)); [apply sees_head_stable| |].
  - intros p γ HI [Hin Hn]. pose proof HI as [Hm (l & Hr)].
    pose proof (concat_in _ _ _ b (proj2 Hin) Hb) as Hbc.
    destruct (repr_in p l _ b Hr) as (o & Ho & _); [apply elem_of_app; by left|].
    simpl in *. rewrite Ho. exists γ.
    destruct (section_same h p (wr blocks (<[b := wr next n o]> (p_blocks p)) p) γ l)
      as (H1 & H2 & H3); [by split; [|exists l]|done..|by apply repr_write|].
    split; [done|]. split; [done|]. split; [done|]. split; [done|]. simpl. by rewrite lookup_insert_eq.
  - intros []. apply rg_store_last.
    + apply inside_stable. intros p γ j b' o x h' Hj HI Hin [H1 H2] Hh' Hb' Ho. split; [done|]. simpl.
      rewrite lookup_insert_ne; [done|]. intros ->. destruct HI as [_ (l & Hr)].
      pose proof (repr_NoDup _ _ _ Hr) as Hnd. apply list.NoDup_app in Hnd as [Hnd _].
      exact (concat_disjoint _ j i h' h b Hnd Hj Hh' (proj2 Hin) Hb' Hb).
    + apply inside_only.
    + intros p γ HI [Hin [Hn Hnx]]. pose proof HI as [Hm (l & Hr)].
      destruct (concat_update (held γ) i h (delete k h) (proj2 Hin)) as (rest & E1 & E2).
      rewrite (delete_Permutation _ _ _ Hk) in E1. simpl in E1.
      exists (Ghost (Some i) (<[i := delete k h]> (held γ))).
      apply (section_step h (delete k h) p (wr free_list_ (Some b) p) γ (b :: l));
        [by split; [|exists l]|done..|].
      rewrite E2. rewrite E1 in Hr. apply repr_give; [done|].
      rewrite <- (rp_head _ _ _ Hr). simpl in *. by rewrite Hnx, Hn.
Qed.

(** A block fresh from [malloc], not yet recorded. *)
Definition fresh_block (h : list ptr) (b : ptr) (c : pool * ghost) : Prop :=
  inside h c /\ ((b ∉ p_allocated_blocks_ c.1) /\ (b < p_brk c.1)%nat /\
    exists o, p_blocks c.1 !! b = Some o /\ p_block_size_ c.1 <= bk_size o).

Lemma fresh_block_stable h b : stable Inv Guar i (fresh_block h b).
Proof.
  apply inside_stable. intros p γ j b' o x h' Hj HI Hin (H1 & H2 & o2 & H3 & H4) Hh' Hb' Ho.
  split; [done|]. split; [done|]. simpl. destruct (decide (b' = b)) as [->|Hne].
  - rewrite lookup_insert_eq. exists (wr next x o). split; [done|]. simpl in *. by simplify_eq.
  - rewrite lookup_insert_ne by done. by exists o2.
Qed.

Lemma expand_ok h : rg Inv Guar i (inside h)
  (block_size <- load block_size_ ;;
   block <- malloc block_size ;;
   (match block with
    | Some b => fetch allocated_blocks_ (fun l => l ++ [b]) ;;; Ret tt
    | None => Ret tt
    end) ;;;
   unlock mutex_ ;;; Ret block) (fun b => has (option_list b ++ h)).
Proof.
  apply rg_load with (P' := fun size c => inside h c /\ p_block_size_ c.1 = size);
    [intros; apply g_refl|apply inside_only|done|]. intros size.
  unfold malloc. apply rg_act with (P' := fun block c =>
    match block with Some b => fresh_block h b c | None => inside h c end); [by apply inside_stable| |].
  - intros sp p γ HI [Hin Hs]. simpl in Hs. pose proof HI as [Hm (l & Hr)]. destruct sp.
    + exists γ. split; [apply g_refl|done].
    + exists γ. destruct (section_same h p (malloced size p) γ l) as (H1 & H2 & H3);
        [by split; [|exists l]|done..|by apply repr_malloc|].
      split; [exact H1|]. split; [exact H2|]. split; [exact H3|]. simpl. split.
      * intros Hb%(rp_brk _ _ _ Hr). simpl in Hb. lia.
      * split; [lia|]. rewrite lookup_insert_eq. exists (Block size None). simpl. split; [done|lia].
  - intros [b|]; simpl.
    + apply rg_atomic with (P' := fun _ => inside (b :: h)); [apply fresh_block_stable| |].
      * intros p γ HI (Hin & Hb & Hlt & o & Ho & Hs). pose proof HI as [Hm (l & Hr)].
        destruct (concat_update (held γ) i h (b :: h) (proj2 Hin)) as (rest & E1 & E2).
        exists (Ghost (Some i) (<[i := b :: h]> (held γ))).
        apply (section_step h (b :: h) p (wr allocated_blocks_ (p_allocated_blocks_ p ++ [b]) p) γ l);
          [by split; [|exists l]|done..|].
        rewrite E2. simpl. rewrite <- E1. by eapply repr_new.
      * intros u. by apply (leave (b :: h) (Some b)).
    + by apply (leave h None).
Qed.

Lemma Allocate_ok size h : rg Inv Guar i (has h) (Allocate size) (fun b => has (option_list b ++ h)).
Proof.
  unfold Allocate. apply rg_load with (P' := fun _ => has h); [intros; apply g_refl|apply has_stable|done|].
  intros bs. eapply (rg_bind _ _ i _ _ _ (fun _ => has h)).
  { destruct (bs <? size); [by apply rg_ret; [apply has_stable|]|].
    apply rg_load with (P' := fun _ => has h); [intros; apply g_refl|apply has_stable|done|].
    intros ?. by apply rg_ret; [apply has_stable|]. }
  intros [|]; [by apply rg_ret; [apply has_stable|]|].
  apply enter, load_head. intros [n|].
  - apply rg_atomic with (P' := fun rest c => inside h c /\ exists l, repr c.1 (n :: l) (concat (held c.2)) /\
      rest = head l); [apply sees_head_stable| |].
    + intros p γ HI [Hin Hn]. pose proof HI as [Hm (l & Hr)].
      simpl in Hn. pose proof (rp_head _ _ _ Hr) as Hh. simpl in Hh. rewrite Hn in Hh.
      destruct l as [|n' l]; [done|]. injection Hh as <-.
      pose proof (rp_link _ _ _ Hr O n eq_refl) as Hl. simpl in Hl |- *.
      destruct (p_blocks p !! n) as [o|]; [|done]. injection Hl as Hl. rewrite Hl.
      exists γ. split; [apply g_refl|]. split; [done|]. split; [done|]. exists l. by rewrite head_lookup.
    + intros rest. apply rg_store with (P' := inside (n :: h)).
      * apply inside_stable. intros p γ j b o x h' Hj HI Hin (l & Hr & ->) Hh' Hb' Ho.
        exists l. split; [|done]. apply repr_write; [done..|]. by eapply concat_in.
      * intros p γ HI (Hin & l & Hr & ->). pose proof HI as [Hm _].
        destruct (concat_update (held γ) i h (n :: h) (proj2 Hin)) as (rest & E1 & E2).
        exists (Ghost (Some i) (<[i := n :: h]> (held γ))).
        apply (section_step h (n :: h) p (wr free_list_ (head l) p) γ l);
          [by split; [|eexists]|done..|].
        rewrite E2. simpl. rewrite <- E1. by apply repr_take.
      * by apply (leave (n :: h) (Some n)).
  - eapply rg_pre; [|apply expand_ok]. by intros c _ [? _].
Qed.

Lemma pool_client_ok os h : rg Inv Guar i (has h) (client os h) (fun h' => has h').
Proof.
  revert h; induction os as [|[size|k x|k] os IH]; intros h; simpl.
  - by apply rg_ret; [apply has_stable|].
  - eapply rg_bind; [apply Allocate_ok|]. intros b. apply IH.
  - destruct (h !! k) as [b|] eqn:Hk; [|apply IH].
    assert (Hb : b ∈ h) by by eapply list_elem_of_lookup_2.
    apply rg_atomic with (P' := fun _ => has h); [apply has_stable| |intros []; apply IH].
    intros p γ HI Hh. pose proof HI as [Hm (l & Hr)].
    pose proof (concat_in _ _ _ b Hh Hb) as Hbc.
    destruct (repr_in p l _ b Hr) as (o & Ho & _); [apply elem_of_app; by left|].
    simpl. rewrite Ho. exists γ. split; [by eapply g_write|]. split; [|done].
    split; [done|]. exists l. by apply repr_write.
  - eapply rg_bind; [apply Deallocate_ok|]. intros []. apply IH.
Qed.
End Threads.

(** The threads of the pool are the only holders. *)
Lemma held_count k (c c' : pool * ghost) : rtc (pool_step Inv Guar k) c c' -> length (held c'.2) = length (held c.2).
Proof.
  revert c c'. apply (pool_steps_ind Inv Guar k (fun c c' => length (held c'.2) = length (held c.2))).
  { split; [by intros ?|intros ? ? ? H1 H2; congruence]. }
  intros i c c' _ HG _. destruct HG; simpl; by rewrite ?length_insert.
Qed.

(** C15: Any number of threads allocate, write into and free frame blocks in
    any interleaving, whatever allocations fail: no thread touches memory that
    is not a block, and at every moment each block is in exactly one place,
    the free list or the hands of one thread, the one that got it; when all
    have returned no block is lost: the blocks ever allocated are exactly
    those of the free list and those the threads kept. *)
Theorem frame_blocks_have_one_owner p l oss ts p' :
  repr p l [] -> p_mutex_ p = false ->
  reachable ((fun os => client os []) <$> oss, p) (ts, p') ->
  exists l' hs, repr p' l' (concat hs) /\ length hs = length oss /\
    (forall i t, ts !! i = Some t -> is_bad t p' = false /\ forall h, result t = Some h -> hs !! i = Some h) /\
    (forall outs, returned ts outs -> p_allocated_blocks_ p' ≡ₚ l' ++ concat outs).
Proof.
  intros Hr Hm Hreach.
  destruct (rg_adequacy_steps Inv Guar ((fun os => client os []) <$> oss) (fun i h => has i h) p (Ghost None (replicate (length oss) [])) ts p')
    with (3 := Hreach) as (γ & Hsteps & [_ (l' & Hr')] & Hlen & Hts).
  - split; [simpl; by rewrite Hm|]. exists l. simpl.
    assert (concat (replicate (length oss) []) = ([] : list ptr)) as ->; [|done].
    induction (length oss); simpl; [done|exact IHn].
  - intros i q Hq. apply list_lookup_fmap_Some in Hq as (os & -> & Hos). exists (has i []).
    split; [|apply pool_client_ok]. apply lookup_replicate_2. by eapply lookup_lt_Some.
  - apply held_count in Hsteps. simpl in Hsteps. rewrite length_replicate in Hsteps. rewrite length_fmap in Hlen.
    exists l', (held γ). split_and!; [done..|]. intros outs Houts. rewrite <- (rp_all _ _ _ Hr').
    rewrite (returned_eq ts outs (held γ) Houts); [apply Permutation_app_comm|congruence|].
    intros i h Hi. destruct (ts !! i) as [t|] eqn:Ht; [|done]. by apply (Hts i t Ht).
Qed.

(** ** Alone *)

Lemma push_free_ok p l held b : repr p l (b :: held) ->
  wp (push_free b) (fun _ p' => repr p' (b :: l) held /\ p_mutex_ p' = p_mutex_ p /\
    p_block_size_ p' = p_block_size_ p) p.
Proof.
  intros H. unfold push_free. wp_step.
  destruct (repr_in p l _ b H) as (o & Ho & _); [by left|].
  eapply wp_set_bind; [exact Ho|]. wp_go. split; [|done].
  assert (H' : repr (wr blocks (<[b := wr next (p_free_list_ p) o]> (p_blocks p)) p) l (b :: held))
    by (apply repr_write; [done..|by left]).
  apply (repr_give _ _ _ _ H'). simpl. rewrite lookup_insert_eq. simpl. by rewrite (rp_head _ _ _ H).
Qed.

(** Initialising a new frame pool returns with the requested number of free
    blocks of the requested size, or the size of a list node if that is
    larger, and the mutex free. *)
Theorem Init_fills block_size n : 0 <= n ->
  wp (Init block_size n) (fun _ p => exists l, repr p l [] /\ Z.of_nat (length l) = n /\
    p_mutex_ p = false /\ p_block_size_ p = Z.max block_size sizeof_FreeNode) FramePool.
Proof.
  intros Hn. unfold Init. apply wp_lock_bind; [done|]. wp_go.
  set (Start := fun p => repr p [] [] /\ p_mutex_ p = true /\ p_block_size_ p = Z.max block_size sizeof_FreeNode).
  apply wp_bind. apply (wp_mono _ (fun _ => Start)).
  { assert (H0 : forall s m, repr (Pool s [] None m ∅ 1%nat) [] [])
      by (split; simpl; try done; [apply NoDup_nil_2|intros ? []%not_elem_of_nil..]).
    destruct (Z.ltb_spec block_size sizeof_FreeNode); wp_go; (split; [apply H0|split; [done|simpl; lia]]). }
  intros [] p0 H0. apply wp_bind.
  apply (wp_loop_inv (fun i p => 0 <= i <= n /\ exists l, repr p l [] /\ Z.of_nat (length l) = i /\
    p_mutex_ p = true /\ p_block_size_ p = Z.max block_size sizeof_FreeNode)
    (fun i _ => Z.to_nat (n - i))).
  { destruct H0 as (? & ? & ?). split; [lia|]. by exists []. }
  intros i p (Hi & l & Hr & Hl & Hmx & Hs). destruct (Z.ltb_spec i n) as [Hlt|Hge].
  - wp_step. unfold malloc. apply wp_act. simpl. apply wp_assoc. wp_step.
    apply wp_bind.
    set (p1 := wr allocated_blocks_ (p_allocated_blocks_ p ++ [p_brk p]) (malloced (p_block_size_ p) p)).
    assert (H1 : repr p1 l [p_brk p]).
    { apply (repr_new (malloced (p_block_size_ p) p) l [] (p_brk p) (Block (p_block_size_ p) None)).
      - by apply repr_malloc.
      - simpl. intros Hb%(rp_brk _ _ _ Hr). lia.
      - simpl. by rewrite lookup_insert_eq.
      - simpl. lia.
      - simpl. lia. }
    eapply wp_mono; [apply (push_free_ok p1 l [] (p_brk p) H1)|]. intros [] p2 (H2 & Hm2 & Hs2). wp_go.
    split; [|lia]. split; [lia|]. exists (p_brk p :: l). split; [done|]. split; [simpl; lia|].
    rewrite Hm2, Hs2. done.
  - wp_go. exists l. split; [by destruct Hr|]. split; [lia|]. done.
Qed.

(** Allocate gives the block freed last, or else a new one that nobody has,
    which is large enough; a request larger than a block, or from a pool that
    is not initialised, gets null and changes nothing. *)
Theorem Allocate_gives_a_block p l held size : repr p l held -> p_mutex_ p = false ->
  wp (Allocate size) (fun r p' =>
    if (p_block_size_ p <? size) || (p_block_size_ p =? 0) then r = None /\ p' = p
    else exists b o, r = Some b /\ repr p' (tail l) (b :: held) /\ p_mutex_ p' = false /\
      p_blocks p' !! b = Some o /\ size <= bk_size o /\
      (l = [] -> b ∉ held) /\ (l <> [] -> head l = Some b)) p.
Proof.
  intros H Hm. unfold Allocate. wp_step. destruct (Z.ltb_spec (p_block_size_ p) size) as [Hlt|Hge]; simpl.
  { by wp_go. }
  wp_go. destruct (Z.eqb_spec (p_block_size_ p) 0) as [Hz|Hz]; [by wp_go|].
  apply wp_lock_bind; [done|]. wp_step. rewrite (rp_head _ _ _ H). destruct l as [|b l]; simpl.
  - wp_go. unfold malloc. apply wp_act. simpl. wp_go.
    exists (p_brk p), (Block (p_block_size_ p) None). split; [done|]. split.
    { assert (H1 : repr (wr allocated_blocks_ (p_allocated_blocks_ p ++ [p_brk p]) (malloced (p_block_size_ p) p))
                     [] (p_brk p :: held)).
      { apply (repr_new (malloced (p_block_size_ p) p) [] held (p_brk p) (Block (p_block_size_ p) None)).
        - by apply repr_malloc.
        - simpl. intros Hb%(rp_brk _ _ _ H). lia.
        - simpl. by rewrite lookup_insert_eq.
        - simpl. lia.
        - simpl. lia. }
      by destruct H1. }
    split; [done|]. rewrite lookup_insert_eq. split; [done|]. split; [simpl; lia|]. split; [|done].
    intros _ Hb. assert (Hin : p_brk p ∈ p_allocated_blocks_ p)
      by (rewrite <- (rp_all _ _ _ H); apply elem_of_app; by left).
    apply (rp_brk _ _ _ H) in Hin. lia.
  - destruct (repr_in p (b :: l) held b H) as (o & Ho & Hs); [apply elem_of_app; right; by left|].
    pose proof (rp_link _ _ _ H O b eq_refl) as Hl. simpl in Hl. rewrite Ho in Hl. injection Hl as Hl.
    eapply wp_get_bind; [exact Ho|]. simpl. rewrite Hl, <- head_lookup. wp_go.
    exists b, o. split; [done|]. split; [|by repeat (split; [done || lia|])].
    pose proof (repr_take _ _ _ _ H) as H1. by destruct H1.
Qed.

(** Deallocate puts a block that is in use in front of the free list. *)
Theorem Deallocate_takes_it_back p l held b : repr p l (b :: held) -> p_mutex_ p = false ->
  wp (Deallocate (Some b)) (fun _ p' => repr p' (b :: l) held /\ p_mutex_ p' = false) p.
Proof.
  intros H Hm. simpl. apply wp_lock_bind; [done|]. apply wp_bind.
  assert (H' : repr (wr mutex_ true p) l (b :: held)) by by destruct H.
  eapply wp_mono; [by apply push_free_ok|]. intros [] p' (Hr & _ & _). wp_go. split; [by destruct Hr|done].
Qed.

(** ** Concrete runs *)

Definition small_pool : pool := Pool 64 [] None false ∅ 1%nat.

Lemma small_pool_repr : repr small_pool [] [].
Proof. split; simpl; try done; [apply NoDup_nil_2|intros ? []%not_elem_of_nil..]. Qed.

Definition two_users : list (list op) :=
  [[OpAllocate 8; OpWrite 0 (Some 7%nat); OpDeallocate 0; OpAllocate 16]; [OpAllocate 64; OpAllocate 65; OpAllocate 1]].
(** They take turns; one stops in the middle of a critical section. *)
Definition two_users_end : conf pool (list ptr) :=
  drive 100 [Steps 0 6; Steps 1 3; All 0; All 1] ((fun os => client os []) <$> two_users, small_pool).

Lemma frame_blocks_have_one_owner_witness : exists l hs, repr two_users_end.2 l (concat hs) /\
  hs !! 0%nat = Some [1%nat] /\ hs !! 1%nat = Some [3%nat; 2%nat].
Proof.
  destruct (frame_blocks_have_one_owner small_pool [] two_users two_users_end.1 two_users_end.2)
    as (l & hs & Hr & _ & Hts & _); [apply small_pool_repr|reflexivity| |].
  - rewrite <- surjective_pairing. apply drive_reachable.
  - exists l, hs. split; [exact Hr|]. split.
    + destruct (Hts 0%nat (Ret [1%nat])) as [_ H]; [vm_compute; reflexivity|]. by apply H.
    + destruct (Hts 1%nat (Ret [3%nat; 2%nat])) as [_ H]; [vm_compute; reflexivity|]. by apply H.
Defined.

Lemma Init_fills_witness : 0 <= 32 /\
  wp (Init 8192 32) (fun _ p => exists l, repr p l [] /\ Z.of_nat (length l) = 32 /\
    p_mutex_ p = false /\ p_block_size_ p = Z.max 8192 sizeof_FreeNode) FramePool.
Proof. split; [lia|]. apply (Init_fills 8192 32). lia. Defined.

Lemma Allocate_gives_a_block_witness :
  wp (Allocate 64) (fun r p' => exists b o, r = Some b /\ repr p' [] [b] /\
    p_blocks p' !! b = Some o /\ 64 <= bk_size o) small_pool.
Proof.
  eapply wp_mono; [apply (Allocate_gives_a_block small_pool [] [] 64); [apply small_pool_repr|reflexivity]|].
  simpl. intros r p' (b & o & H1 & H2 & _ & H3 & H4 & _). by exists b, o.
Defined.

Definition one_used : pool := Pool 64 [1%nat] None false {[1%nat := Block 64 None]} 2%nat.

Lemma Deallocate_takes_it_back_witness :
  wp (Deallocate (Some 1%nat)) (fun _ p' => repr p' [1%nat] [] /\ p_mutex_ p' = false) one_used.
Proof.
  apply (Deallocate_takes_it_back one_used [] [] 1); [|reflexivity].
  split; simpl; try done.
  - apply NoDup_singleton.
  - intros b ->%list_elem_of_singleton. by eexists.
  - intros b ->%list_elem_of_singleton. lia.
Defined.

End FramePool.
