(* ===== verification/World.v ===== *)
(** * The state of the runtime

    One record per class ([Worker], [Mutex], [Event], [CondVar]) and the record
    of everything the threads share: the [Scheduler] object
    ([include/bthread/core/scheduler.hpp]), the task pool, the live workers
    ([include/bthread/core/worker.hpp]) and the synchronisation objects. *)

From Stdlib Require Import ZArith Lia FunctionalExtensionality.
From stdpp Require Import base numbers list gmap relations option.
From S2P Require Import Prelude Mpsc SharedMpsc WorkStealing Task TaskGroup Timer Platform.
From S2P Require Import Result FramePool.

Open Scope Z_scope.

Module World.

(** Who executes a piece of code: a thread outside the runtime, the loop of a
    worker on its own stack, or a bthread on its stack. *)
Inductive who := Native (n : nat) | OnLoop (w : ptr) | OnStack (t : ptr).

(** The thread of a worker: not created yet, running, returned. *)
Inductive thread_state := NoThread | Started | Exited.

(** A [std::once_flag]. *)
Inductive once := NotCalled | InProgress | Called.

#[export] Instance who_eq_dec : EqDecision who.
Proof. solve_decision. Defined.
#[export] Instance thread_state_eq_dec : EqDecision thread_state.
Proof. solve_decision. Defined.
#[export] Instance once_eq_dec : EqDecision once.
Proof. solve_decision. Defined.

(** What a coroutine that gives control back waits for: the awaiter, with the
    arguments of its [await_suspend].  A [kind] is one of the promise types. *)
Inductive kind := TaskInt | TaskVoid | SafeTaskInt | SafeTaskVoid.
Inductive suspension :=
| AwaitTask (k : kind) (task : ptr)
| Yielding
| Sleeping (ms : Z)
| Locking (mutex : ptr)
| WaitingFor (event : ptr)
| WaitingOn (cond mutex : ptr)
| FinalSuspend.

#[export] Instance kind_eq_dec : EqDecision kind.
Proof. solve_decision. Defined.
#[export] Instance suspension_eq_dec : EqDecision suspension.
Proof. solve_decision. Defined.

Ltac lens_ok := split; [done..|by intros []].

(** ** Workers *)

Module Worker.

(** [local_batch_], [stack_pool_] and [task_cache_] are arrays with the number of
    elements in use; [None] is a null or never written element. *)
Record worker := MkWorker {
  w_id_ : Z;
  w_local_queue_ : WorkStealingQueue.queue;
  w_current_task_ : option ptr;
  w_local_batch_ : list (option ptr);
  w_batch_count_ : Z;
  w_stack_pool_ : list (option Z);
  w_stack_pool_count_ : Z;
  w_task_cache_ : list (option ptr);
  w_task_cache_count_ : Z;
  w_stop_flag_ : Z;
  w_wake_count_ : Z;
  w_wake_pending_ : bool;
  w_is_idle_ : bool;
  w_current_coro_meta_ : option ptr; (** the thread-local of coro/scheduler.cpp *)
  w_thread : thread_state;
  w_context : option ptr; (** the task or the coroutine whose context the thread executes *)
  w_suspending : suspension; (** what the coroutine that gave control back waits for *)
}.

Definition MkWorker_eta (o : worker) : worker :=
  MkWorker (w_id_ o) (w_local_queue_ o) (w_current_task_ o) (w_local_batch_ o) (w_batch_count_
    o) (w_stack_pool_ o) (w_stack_pool_count_ o) (w_task_cache_ o) (w_task_cache_count_ o)
    (w_stop_flag_ o) (w_wake_count_ o) (w_wake_pending_ o) (w_is_idle_ o) (w_current_coro_meta_
    o) (w_thread o) (w_context o) (w_suspending o).

Definition id_ : field worker Z := ltac:(lens MkWorker_eta w_id_).
Definition local_queue_ : field worker WorkStealingQueue.queue := ltac:(lens MkWorker_eta w_local_queue_).
Definition current_task_ : field worker (option ptr) := ltac:(lens MkWorker_eta w_current_task_).
Definition local_batch_ : field worker (list (option ptr)) := ltac:(lens MkWorker_eta w_local_batch_).
Definition batch_count_ : field worker Z := ltac:(lens MkWorker_eta w_batch_count_).
Definition stack_pool_ : field worker (list (option Z)) := ltac:(lens MkWorker_eta w_stack_pool_).
Definition stack_pool_count_ : field worker Z := ltac:(lens MkWorker_eta w_stack_pool_count_).
Definition task_cache_ : field worker (list (option ptr)) := ltac:(lens MkWorker_eta w_task_cache_).
Definition task_cache_count_ : field worker Z := ltac:(lens MkWorker_eta w_task_cache_count_).
Definition stop_flag_ : field worker Z := ltac:(lens MkWorker_eta w_stop_flag_).
Definition wake_count_ : field worker Z := ltac:(lens MkWorker_eta w_wake_count_).
Definition wake_pending_ : field worker bool := ltac:(lens MkWorker_eta w_wake_pending_).
Definition is_idle_ : field worker bool := ltac:(lens MkWorker_eta w_is_idle_).
Definition current_coro_meta_ : field worker (option ptr) := ltac:(lens MkWorker_eta w_current_coro_meta_).
Definition thread : field worker thread_state := ltac:(lens MkWorker_eta w_thread).
Definition context : field worker (option ptr) := ltac:(lens MkWorker_eta w_context).
Definition suspending : field worker suspension := ltac:(lens MkWorker_eta w_suspending).

#[export] Instance local_queue__ok : FieldOk local_queue_.
Proof. lens_ok. Qed.

Definition STACK_POOL_SIZE : Z := 8.
Definition DEFAULT_STACK_SIZE : Z := 8192.
Definition TASK_CACHE_SIZE : Z := 4.
Definition BATCH_SIZE : Z := 8.

(** The constructor. *)
Definition Worker (id : Z) : worker :=
  MkWorker id WorkStealingQueue.WorkStealingQueue None
    (replicate (Z.to_nat BATCH_SIZE) None) 0 (replicate (Z.to_nat STACK_POOL_SIZE) None) 0
    (replicate (Z.to_nat TASK_CACHE_SIZE) None) 0 0 0 false false None NoThread None FinalSuspend.

End Worker.
Import Worker.

(** ** Synchronisation objects *)

Module Mutex.

Record mutex := MkMutex {
  m_state_ : Z;
  m_pending_wake_ : Z;
  m_native : option who; (** the owner of native_mutex_ *)
  m_butex_ : option ptr;
}.

Definition MkMutex_eta (o : mutex) : mutex :=
  MkMutex (m_state_ o) (m_pending_wake_ o) (m_native o) (m_butex_ o).

Definition state_ : field mutex Z := ltac:(lens MkMutex_eta m_state_).
Definition pending_wake_ : field mutex Z := ltac:(lens MkMutex_eta m_pending_wake_).
Definition native : field mutex (option who) := ltac:(lens MkMutex_eta m_native).
Definition butex_ : field mutex (option ptr) := ltac:(lens MkMutex_eta m_butex_).

Definition Mutex : mutex := MkMutex 0 0 None None.
End Mutex.

Module Event.

Record event := MkEvent {
  e_set_ : bool; (** state_ *)
  e_auto_reset_ : bool;
}.

Definition MkEvent_eta (o : event) : event :=
  MkEvent (e_set_ o) (e_auto_reset_ o).

Definition set_ : field event bool := ltac:(lens MkEvent_eta e_set_).
Definition auto_reset_ : field event bool := ltac:(lens MkEvent_eta e_auto_reset_).

Definition Event (initial_set auto_reset : bool) : event := MkEvent initial_set auto_reset.
End Event.

Module CondVar.
(** The native condition variable is the number of threads waiting on it and
    how many of them have been signalled. *)
Record condvar := MkCond {
  c_waiting : nat; (** threads in pthread_cond_wait *)
  c_signals : nat; (** of those, how many may go *)
}.

Definition MkCond_eta (o : condvar) : condvar :=
  MkCond (c_waiting o) (c_signals o).

Definition waiting : field condvar nat := ltac:(lens MkCond_eta c_waiting).
Definition signals : field condvar nat := ltac:(lens MkCond_eta c_signals).

Definition CondVar : condvar := MkCond 0 0.
End CondVar.

Module Coro.

Record coro := MkCoro {
  k_handle : option ptr; (** the coroutine frame *)
  k_cancel_requested : bool;
}.

Definition MkCoro_eta (o : coro) : coro :=
  MkCoro (k_handle o) (k_cancel_requested o).

Definition handle : field coro (option ptr) := ltac:(lens MkCoro_eta k_handle).
Definition cancel_requested : field coro bool := ltac:(lens MkCoro_eta k_cancel_requested).

Definition CoroutineMeta : coro := MkCoro None false.
End Coro.

(** A coroutine frame: the promise, with the members that the four promise
    types have in common outside of it, and what the compiler keeps. *)
Module Frame.

Inductive promise :=
| TaskPromise (result_ : Z) (exception_ : option Result.exception)
| TaskPromiseVoid (exception_ : option Result.exception)
| SafeTaskPromise (result_ : Result.Result Z)
| SafeTaskPromiseVoid (result_ : Result.Void.Result).

Definition kind_of (p : promise) : kind :=
  match p with
  | TaskPromise _ _ => TaskInt
  | TaskPromiseVoid _ => TaskVoid
  | SafeTaskPromise _ => SafeTaskInt
  | SafeTaskPromiseVoid _ => SafeTaskVoid
  end.


Record frame := MkFrame {
  f_promise_ : promise;
  f_awaiter_ : option ptr;
  f_awaiter_meta_ : option ptr;
  f_meta_ : option ptr;
  f_serial : nat; (** which coroutine it is *)
  f_body : Z; (** its function *)
  f_arg : Z; (** the copy of the arguments *)
  f_done : bool; (** suspended at its final suspension point *)
  f_thrown : bool; (** the co_await it resumes from throws *)
}.

Definition MkFrame_eta (o : frame) : frame :=
  MkFrame (f_promise_ o) (f_awaiter_ o) (f_awaiter_meta_ o) (f_meta_ o) (f_serial o) (f_body o)
    (f_arg o) (f_done o) (f_thrown o).

Definition promise_ : field frame promise := ltac:(lens MkFrame_eta f_promise_).
Definition awaiter_ : field frame (option ptr) := ltac:(lens MkFrame_eta f_awaiter_).
Definition awaiter_meta_ : field frame (option ptr) := ltac:(lens MkFrame_eta f_awaiter_meta_).
Definition meta_ : field frame (option ptr) := ltac:(lens MkFrame_eta f_meta_).
Definition serial : field frame nat := ltac:(lens MkFrame_eta f_serial).
Definition body : field frame Z := ltac:(lens MkFrame_eta f_body).
Definition arg : field frame Z := ltac:(lens MkFrame_eta f_arg).
Definition done : field frame bool := ltac:(lens MkFrame_eta f_done).
Definition thrown : field frame bool := ltac:(lens MkFrame_eta f_thrown).

End Frame.

(** The state of [coro/coroutine.h], [coro/frame_pool.cpp] and
    [coro/scheduler.cpp]. *)
Module Coroutines.

Record coroutines := MkCoroutines {
  r_coros : gmap ptr Coro.coro; (** the coroutine part of a task *)
  r_frames : gmap ptr Frame.frame; (** the coroutine frames *)
  r_created : nat; (** how many coroutines have been created *)
  r_pool_once : once; (** init_flag of GetGlobalFramePool *)
  r_pool_block_size : Z; (** the global frame pool *)
  r_pool_allocated : list ptr;
  r_pool_free_list : option ptr;
  r_pool_mutex : bool;
  r_pool_blocks : gmap ptr FramePool.block;
  r_sleep_mutex : bool;
  r_sleep_queue_ : list (Z * ptr);
  r_sleep_thread_running_ : bool;
  r_sleep_thread_ : thread_state;
  r_sleep_init_once_ : once;
  r_steady_clock : Z; (** in nanoseconds *)
  r_meta_pool_ : list ptr;
  r_meta_mutex_ : bool;
}.

Definition MkCoroutines_eta (o : coroutines) : coroutines :=
  MkCoroutines (r_coros o) (r_frames o) (r_created o) (r_pool_once o) (r_pool_block_size o)
    (r_pool_allocated o) (r_pool_free_list o) (r_pool_mutex o) (r_pool_blocks o) (r_sleep_mutex
    o) (r_sleep_queue_ o) (r_sleep_thread_running_ o) (r_sleep_thread_ o) (r_sleep_init_once_ o)
    (r_steady_clock o) (r_meta_pool_ o) (r_meta_mutex_ o).

Definition coros : field coroutines (gmap ptr Coro.coro) := ltac:(lens MkCoroutines_eta r_coros).
Definition frames : field coroutines (gmap ptr Frame.frame) := ltac:(lens MkCoroutines_eta r_frames).
Definition created : field coroutines nat := ltac:(lens MkCoroutines_eta r_created).
Definition pool_once : field coroutines once := ltac:(lens MkCoroutines_eta r_pool_once).
Definition pool_block_size : field coroutines Z := ltac:(lens MkCoroutines_eta r_pool_block_size).
Definition pool_allocated : field coroutines (list ptr) := ltac:(lens MkCoroutines_eta r_pool_allocated).
Definition pool_free_list : field coroutines (option ptr) := ltac:(lens MkCoroutines_eta r_pool_free_list).
Definition pool_mutex : field coroutines bool := ltac:(lens MkCoroutines_eta r_pool_mutex).
Definition pool_blocks : field coroutines (gmap ptr FramePool.block) := ltac:(lens MkCoroutines_eta r_pool_blocks).
Definition sleep_mutex : field coroutines bool := ltac:(lens MkCoroutines_eta r_sleep_mutex).
Definition sleep_queue_ : field coroutines (list (Z * ptr)) := ltac:(lens MkCoroutines_eta r_sleep_queue_).
Definition sleep_thread_running_ : field coroutines bool := ltac:(lens MkCoroutines_eta r_sleep_thread_running_).
Definition sleep_thread_ : field coroutines thread_state := ltac:(lens MkCoroutines_eta r_sleep_thread_).
Definition sleep_init_once_ : field coroutines once := ltac:(lens MkCoroutines_eta r_sleep_init_once_).
Definition steady_clock : field coroutines Z := ltac:(lens MkCoroutines_eta r_steady_clock).
Definition meta_pool_ : field coroutines (list ptr) := ltac:(lens MkCoroutines_eta r_meta_pool_).
Definition meta_mutex_ : field coroutines bool := ltac:(lens MkCoroutines_eta r_meta_mutex_).

#[export] Instance coros_ok : FieldOk coros.
Proof. lens_ok. Qed.
#[export] Instance frames_ok : FieldOk frames.
Proof. lens_ok. Qed.
#[export] Instance sleep_queue__ok : FieldOk sleep_queue_.
Proof. lens_ok. Qed.

Definition no_coroutines : coroutines :=
  MkCoroutines ∅ ∅ 0 NotCalled 0 [] None false ∅ false [] false NoThread NotCalled 0 [] false.
End Coroutines.

(** ** Everything *)


Record world := World {
  v_group : TaskGroup.group;
  v_workers : gmap ptr worker; (** the live Worker objects *)
  v_mutexes : gmap ptr Mutex.mutex;
  v_events : gmap ptr Event.event;
  v_conds : gmap ptr CondVar.condvar;
  v_waiter_queues : ptr -> option ptr * option ptr; (** the waiter_queue_ of the synchronisation object at an address *)
  v_coroutines : Coroutines.coroutines; (** the coroutines, and the timer that wakes them *)
  v_made : gmap ptr bool; (** the contexts made for tasks: whether not started yet *)
  v_vm_ : Platform.vm;
  v_workers_ : list ptr;
  v_workers_mutex_ : bool;
  v_workers_atomic_ : list (option ptr);
  v_worker_count_ : Z;
  v_configured_count_ : Z;
  v_workers_ready_ : Z;
  v_round_robin : Z; (** global_queue_.round_robin_ *)
  v_total_count : Z; (** global_queue_.total_count_ *)
  v_queue_workers : Z; (** global_queue_.worker_count_ *)
  v_queue_shards : nat -> option ptr * option ptr; (** global_queue_.shards_ *)
  v_idle_head_ : Z;
  v_idle_next_ : list Z;
  v_timer_thread_ : option Timer.timer;
  v_timer_init_flag_ : once;
  v_timer_mutex_ : bool;
  v_initialized_ : bool;
  v_running_ : bool;
  v_init_once_ : once;
  v_clock : Z; (** until there is a timer thread, which then keeps the time *)
  v_trace_idx : Z;
  v_trace_buffer : list (option (Z * Z * Z * Z * Z));
  v_hardware_concurrency : Z; (** what the standard library reports *)
}.

Definition World_eta (o : world) : world :=
  World (v_group o) (v_workers o) (v_mutexes o) (v_events o) (v_conds o) (v_waiter_queues o)
    (v_coroutines o) (v_made o) (v_vm_ o) (v_workers_ o) (v_workers_mutex_ o) (v_workers_atomic_
    o) (v_worker_count_ o) (v_configured_count_ o) (v_workers_ready_ o) (v_round_robin o)
    (v_total_count o) (v_queue_workers o) (v_queue_shards o) (v_idle_head_ o) (v_idle_next_ o)
    (v_timer_thread_ o) (v_timer_init_flag_ o) (v_timer_mutex_ o) (v_initialized_ o) (v_running_
    o) (v_init_once_ o) (v_clock o) (v_trace_idx o) (v_trace_buffer o) (v_hardware_concurrency
    o).

Definition group : field world TaskGroup.group := ltac:(lens World_eta v_group).
Definition workers : field world (gmap ptr worker) := ltac:(lens World_eta v_workers).
Definition mutexes : field world (gmap ptr Mutex.mutex) := ltac:(lens World_eta v_mutexes).
Definition events : field world (gmap ptr Event.event) := ltac:(lens World_eta v_events).
Definition conds : field world (gmap ptr CondVar.condvar) := ltac:(lens World_eta v_conds).
Definition waiter_queues : field world (ptr -> option ptr * option ptr) := ltac:(lens World_eta v_waiter_queues).
Definition coroutines : field world Coroutines.coroutines := ltac:(lens World_eta v_coroutines).
Definition made : field world (gmap ptr bool) := ltac:(lens World_eta v_made).
Definition vm_ : field world Platform.vm := ltac:(lens World_eta v_vm_).
Definition workers_ : field world (list ptr) := ltac:(lens World_eta v_workers_).
Definition workers_mutex_ : field world bool := ltac:(lens World_eta v_workers_mutex_).
Definition workers_atomic_ : field world (list (option ptr)) := ltac:(lens World_eta v_workers_atomic_).
Definition worker_count_ : field world Z := ltac:(lens World_eta v_worker_count_).
Definition configured_count_ : field world Z := ltac:(lens World_eta v_configured_count_).
Definition workers_ready_ : field world Z := ltac:(lens World_eta v_workers_ready_).
Definition round_robin : field world Z := ltac:(lens World_eta v_round_robin).
Definition total_count : field world Z := ltac:(lens World_eta v_total_count).
Definition queue_workers : field world Z := ltac:(lens World_eta v_queue_workers).
Definition queue_shards : field world (nat -> option ptr * option ptr) := ltac:(lens World_eta v_queue_shards).
Definition idle_head_ : field world Z := ltac:(lens World_eta v_idle_head_).
Definition idle_next_ : field world (list Z) := ltac:(lens World_eta v_idle_next_).
Definition timer_thread_ : field world (option Timer.timer) := ltac:(lens World_eta v_timer_thread_).
Definition timer_init_flag_ : field world once := ltac:(lens World_eta v_timer_init_flag_).
Definition timer_mutex_ : field world bool := ltac:(lens World_eta v_timer_mutex_).
Definition initialized_ : field world bool := ltac:(lens World_eta v_initialized_).
Definition running_ : field world bool := ltac:(lens World_eta v_running_).
Definition init_once_ : field world once := ltac:(lens World_eta v_init_once_).
Definition clock : field world Z := ltac:(lens World_eta v_clock).
Definition trace_idx : field world Z := ltac:(lens World_eta v_trace_idx).
Definition trace_buffer : field world (list (option (Z * Z * Z * Z * Z))) := ltac:(lens World_eta v_trace_buffer).
Definition hardware_concurrency : field world Z := ltac:(lens World_eta v_hardware_concurrency).

#[export] Instance group_ok : FieldOk group.
Proof. lens_ok. Qed.
#[export] Instance workers_ok : FieldOk workers.
Proof. lens_ok. Qed.
#[export] Instance mutexes_ok : FieldOk mutexes.
Proof. lens_ok. Qed.
#[export] Instance events_ok : FieldOk events.
Proof. lens_ok. Qed.
#[export] Instance conds_ok : FieldOk conds.
Proof. lens_ok. Qed.
#[export] Instance coroutines_ok : FieldOk coroutines.
Proof. lens_ok. Qed.
#[export] Instance waiter_queues_ok : FieldOk waiter_queues.
Proof. lens_ok. Qed.
#[export] Instance vm__ok : FieldOk vm_.
Proof. lens_ok. Qed.
#[export] Instance timer_thread__ok : FieldOk timer_thread_.
Proof. lens_ok. Qed.

#[export] Instance group_mem_ok : FieldOk TaskGroup.mem.
Proof. lens_ok. Qed.
#[export] Instance mem_tasks_ok : FieldOk Task.tasks.
Proof. lens_ok. Qed.
#[export] Instance mem_butexes_ok : FieldOk Task.butexes.
Proof. lens_ok. Qed.
#[export] Instance mem_next_ok : FieldOk Task.next.
Proof. lens_ok. Qed.
#[export] Instance mem_waiter_next_ok : FieldOk Task.waiter_next.
Proof. lens_ok. Qed.

Definition mem : field world Task.memory := sub group TaskGroup.mem.
Definition tasks : field world (gmap ptr Task.TaskMeta) := sub group TaskGroup.heap.
Definition butexes : field world (gmap ptr Task.Butex) := sub mem Task.butexes.

Definition coros : field world (gmap ptr Coro.coro) := sub coroutines Coroutines.coros.
Definition frames : field world (gmap ptr Frame.frame) := sub coroutines Coroutines.frames.

#[export] Instance coros_ok : FieldOk coros.
Proof. apply sub_ok; [apply _|apply Coroutines.coros_ok]. Qed.
#[export] Instance frames_ok : FieldOk frames.
Proof. apply sub_ok; [apply _|apply Coroutines.frames_ok]. Qed.

(** The global frame pool: its blocks come from the same memory. *)
Definition frame_pool_ : field world FramePool.pool :=
  Field (fun v => let r := v_coroutines v in
           FramePool.Pool (Coroutines.r_pool_block_size r) (Coroutines.r_pool_allocated r)
             (Coroutines.r_pool_free_list r) (Coroutines.r_pool_mutex r) (Coroutines.r_pool_blocks r)
             (rd (sub mem Task.brk) v))
        (fun p v => wr coroutines
             (wr Coroutines.pool_block_size (FramePool.p_block_size_ p)
             (wr Coroutines.pool_allocated (FramePool.p_allocated_blocks_ p)
             (wr Coroutines.pool_free_list (FramePool.p_free_list_ p)
             (wr Coroutines.pool_mutex (FramePool.p_mutex_ p)
             (wr Coroutines.pool_blocks (FramePool.p_blocks p) (v_coroutines v))))))
             (wr (sub mem Task.brk) (FramePool.p_brk p) v)).

#[export] Instance frame_pool_ok : FieldOk frame_pool_.
Proof. split; [by intros ? []|done|by intros [[[]] ? ? ? ? ? []]]. Qed.

(** [global_queue_]: its nodes are linked by the [next] field of the tasks. *)
Definition global_queue_ : field world SharedMPSCQueue.shared :=
  Field (fun v => SharedMPSCQueue.Shared (v_round_robin v) (v_total_count v) (v_queue_workers v)
                    (v_queue_shards v) (rd (sub mem Task.next) v))
        (fun q v => wr round_robin (SharedMPSCQueue.rr q)
                   (wr total_count (SharedMPSCQueue.total q)
                   (wr queue_workers (SharedMPSCQueue.workers q)
                   (wr queue_shards (SharedMPSCQueue.shards q)
                   (wr (sub mem Task.next) (SharedMPSCQueue.links q) v))))).

(** The queue of the tasks waiting for the object at [p]: its nodes are linked
    by the [waiter_next] field of the tasks. *)
Definition waiter_queue_ (p : ptr) : field world MpscQueue.mpsc :=
  Field (fun v => MpscQueue.Mpsc (v_waiter_queues v p).1 (v_waiter_queues v p).2
                    (rd (sub mem Task.waiter_next) v))
        (fun q v => wr waiter_queues (fun i => if decide (i = p) then (MpscQueue.mhead q, MpscQueue.mtail q)
                                               else v_waiter_queues v i)
                   (wr (sub mem Task.waiter_next) (MpscQueue.nexts q) v)).

#[export] Instance waiter_queue_ok p : FieldOk (waiter_queue_ p).
Proof.
  split.
  - intros v []. simpl. by rewrite decide_True.
  - intros v q1 q2. unfold waiter_queue_. simpl. f_equal.
    apply functional_extensionality. intros i. by destruct (decide (i = p)).
  - intros []. unfold waiter_queue_. simpl. f_equal; [by destruct v_group0 as [[]]|].
    apply functional_extensionality. intros i. destruct (decide (i = p)) as [->|]; [|done].
    by destruct (v_waiter_queues0 p).
Qed.

#[export] Instance mem_ok : FieldOk mem.
Proof. apply _. Qed.
#[export] Instance tasks_ok : FieldOk tasks.
Proof. unfold tasks, TaskGroup.heap. apply _. Qed.
#[export] Instance butexes_ok : FieldOk butexes.
Proof. unfold butexes. apply _. Qed.
#[export] Instance global_queue_ok : FieldOk global_queue_.
Proof. split; [by intros ? []|done|by intros [[[]]]]. Qed.

Definition MAX_WORKERS : Z := 256.
Definition MAX_TRACE : Z := 10000.

(** The constructor of [Scheduler], on a machine with [cores] processors. *)
Definition Scheduler (cores : Z) (answers : list (option Z)) : world :=
  World (TaskGroup.TaskGroup Task.no_memory) ∅ ∅ ∅ ∅ (fun _ => (None, None)) Coroutines.no_coroutines ∅ (Platform.Vm ∅ answers) [] false
    (replicate (Z.to_nat MAX_WORKERS) None) 0 0 0 0 0 0 (fun _ => (None, None)) (-1)
    (replicate (Z.to_nat MAX_WORKERS) 0) None NotCalled false false false NotCalled
    0 0 (replicate (Z.to_nat MAX_TRACE) None) cores.

End World.
