(* ===== verification/Workers.v ===== *)
(** * Workers

    Model of the operations of [Worker] that touch only the worker itself, the
    task pool and the platform ([src/bthread/core/worker.cpp]): the batch in
    front of the local queue, the stack pool, the cache of task metadata, and
    the trace log.  Waking up, waiting and stealing are in
    Scheduler.v, the main loop in Runtime.v. *)

From Stdlib Require Import ZArith Lia.
From stdpp Require Import base numbers list gmap relations option.
From S2P Require Import Prelude WorkStealing Task TaskGroup Platform World.

Open Scope Z_scope.

Module Workers.
Import World World.Worker.

(** ** The trace log *)

(** [Trace]: one entry without its timestamp. *)
Definition Trace (thread_id event_type wake_count wake_pending is_idle : Z) : prog world unit :=
  idx <- fetch trace_idx (fun n => i32 (n + 1)) ;;
  if idx <? MAX_TRACE then
    store_at trace_buffer idx (Some (thread_id, event_type, wake_count, wake_pending, is_idle))
  else Ret tt.

(** ** The batch and the local queue: what the worker does alone *)

Definition IsStopped : prog worker bool := n <- load stop_flag_ ;; Ret (negb (n =? 0)).

(** [local_batch_[batch_count_++] = task]. *)
Definition push_batch (task : ptr) : prog worker unit :=
  n <- fetch batch_count_ (fun n => i32 (n + 1)) ;; store_at local_batch_ n (Some task).
(** [local_batch_[--batch_count_]]. *)
Definition pop_batch : prog worker (option ptr) :=
  n <- fetch batch_count_ (fun n => i32 (n - 1)) ;; load_at local_batch_ (n - 1).

Definition MaybeFlushBatch : prog worker unit :=
  n <- load batch_count_ ;;
  if n >=? BATCH_SIZE then
    loop 0 (fun i =>
      n <- load batch_count_ ;;
      if i <? n then
        t <- load_at local_batch_ i ;;
        (match t with
         | Some t => zoom local_queue_ (WorkStealingQueue.Push t)
         | None => undefined
         end) ;;;
        Ret (inl (i + 1))
      else Ret (inr tt)) ;;;
    store batch_count_ 0
  else Ret tt.

(** [local_queue_.PopMultiple(local_batch_, BATCH_SIZE)]. *)
Definition pop_into_batch : prog worker Z :=
  l <- zoom local_queue_ (WorkStealingQueue.PopMultiple BATCH_SIZE) ;;
  fetch local_batch_ (fun b => list_inserts 0 (Some <$> l) b) ;;;
  Ret (Z.of_nat (length l)).

(** The first two steps of [PickTask]. *)
Definition PickTask_local : prog worker (option ptr) :=
  n <- load batch_count_ ;;
  if 0 <? n then pop_batch
  else
    popped <- pop_into_batch ;;
    if 0 <? popped then store batch_count_ popped ;;; pop_batch else Ret None.

(** ** Pools *)

Definition push_stack (stack_top : option Z) : prog worker unit :=
  n <- fetch stack_pool_count_ (fun n => i32 (n + 1)) ;; store_at stack_pool_ n stack_top.
Definition pop_stack : prog worker (option Z) :=
  n <- fetch stack_pool_count_ (fun n => i32 (n - 1)) ;; load_at stack_pool_ (n - 1).
Definition push_task (meta : ptr) : prog worker unit :=
  n <- fetch task_cache_count_ (fun n => i32 (n + 1)) ;; store_at task_cache_ n (Some meta).
Definition pop_task : prog worker (option ptr) :=
  n <- fetch task_cache_count_ (fun n => i32 (n - 1)) ;; load_at task_cache_ (n - 1).

(** An operation of worker [w] on its own members. *)
Definition on (w : ptr) {A} (p : prog worker A) : prog world A := zoom_at workers w whole p.

Section Worker.
Context (w : ptr).

Definition AcquireStack (size : Z) : prog world (option Z) :=
  n <- on w (load stack_pool_count_) ;;
  if (0 <? n) && (size <=? DEFAULT_STACK_SIZE) then on w pop_stack
  else zoom vm_ (Platform.AllocateStack size).

Definition ReleaseStack (stack_top : option Z) (size : Z) : prog world unit :=
  match stack_top with
  | None => Ret tt
  | Some _ =>
      n <- on w (load stack_pool_count_) ;;
      if (n <? STACK_POOL_SIZE) && (size =? DEFAULT_STACK_SIZE) then on w (push_stack stack_top)
      else zoom vm_ (Platform.DeallocateStack stack_top size)
  end.

Definition DrainStackPool : prog world unit :=
  loop 0 (fun i =>
    n <- on w (load stack_pool_count_) ;;
    if i <? n then
      s <- on w (load_at stack_pool_ i) ;;
      (match s with
       | Some _ =>
           zoom vm_ (Platform.DeallocateStack s DEFAULT_STACK_SIZE) ;;;
           on w (store_at stack_pool_ i None)
       | None => Ret tt
       end) ;;;
      Ret (inl (i + 1))
    else Ret (inr tt)) ;;;
  on w (store stack_pool_count_ 0).

Definition RefillTaskCache : prog world unit :=
  slots <- zoom group (TaskGroup.AllocMultipleSlots TASK_CACHE_SIZE) ;;
  loop slots (fun slots =>
    match slots with
    | [] => Ret (inr tt)
    | slot :: slots =>
        meta <- zoom group (TaskGroup.GetOrCreateTaskMeta slot) ;;
        (match meta with Some meta => on w (push_task meta) | None => Ret tt end) ;;;
        Ret (inl slots)
    end).

Definition AcquireTaskMeta : prog world (option ptr) :=
  n <- on w (load task_cache_count_) ;;
  if 0 <? n then on w pop_task
  else
    RefillTaskCache ;;;
    n <- on w (load task_cache_count_) ;;
    if 0 <? n then on w pop_task else Ret None.

Definition ReleaseTaskMeta (meta : option ptr) : prog world unit :=
  match meta with
  | None => Ret tt
  | Some m =>
      n <- on w (load task_cache_count_) ;;
      if n <? TASK_CACHE_SIZE then on w (push_task m)
      else zoom group (TaskGroup.DeallocTaskMeta meta)
  end.

Definition DrainTaskCache : prog world unit :=
  loop 0 (fun i =>
    n <- on w (load task_cache_count_) ;;
    if i <? n then
      m <- on w (load_at task_cache_ i) ;;
      (match m with
       | Some _ =>
           zoom group (TaskGroup.DeallocTaskMeta m) ;;;
           on w (store_at task_cache_ i None)
       | None => Ret tt
       end) ;;;
      Ret (inl (i + 1))
    else Ret (inr tt)) ;;;
  on w (store task_cache_count_ 0).

End Worker.

(** ** The tasks a worker holds *)

(** The batch [b] (its last element is next) in front of the local queue [l]
    (oldest first). *)
Record holds (x : worker) (b l : list ptr) : Prop := {
  holds_count : w_batch_count_ x = Z.of_nat (length b);
  holds_room : length (w_local_batch_ x) = Z.to_nat BATCH_SIZE;
  holds_batch : take (length b) (w_local_batch_ x) = Some <$> b;
  holds_size : Z.of_nat (length b) <= BATCH_SIZE;
  holds_queue : WorkStealingQueue.repr (w_local_queue_ x) l;
}.

Lemma holds_lookup x b l i t : holds x b l -> b !! i = Some t -> w_local_batch_ x !! i = Some (Some t).
Proof.
  intros H Hi. assert (E : take (length b) (w_local_batch_ x) !! i = Some (Some t))
    by (rewrite (holds_batch _ _ _ H), list_lookup_fmap, Hi; done).
  rewrite lookup_take in E. by case_decide.
Qed.

(** Everything but the tasks held is kept. *)
Definition same_but_tasks (x x' : worker) : Prop :=
  x' = wr local_queue_ (w_local_queue_ x') (wr local_batch_ (w_local_batch_ x')
         (wr batch_count_ (w_batch_count_ x') x)).

Lemma push_batch_holds x b l t : holds x b l -> Z.of_nat (length b) < BATCH_SIZE ->
  wp (push_batch t) (fun _ x' => holds x' (b ++ [t]) l /\ same_but_tasks x x') x.
Proof.
  intros [H1 H2 H3 H4 H5] Hlt. unfold push_batch. apply wp_fetch_bind.
  unfold store_at. apply wp_act_last. simpl. rewrite H1, H2. unfold BATCH_SIZE in *.
  rewrite (proj2 (Z.leb_le 0 _)), (proj2 (Z.ltb_lt _ _)) by lia. simpl. rewrite Nat2Z.id.
  split; [|by destruct x]. split; simpl.
  - rewrite i32_small by (unfold INT_MIN, INT_MAX; lia). rewrite length_app. simpl. lia.
  - by rewrite length_insert.
  - rewrite length_app. simpl. rewrite Nat.add_1_r.
    rewrite (take_S_r _ _ (Some t)) by (apply list_lookup_insert_eq; lia).
    rewrite take_insert_ge by lia. by rewrite H3, fmap_app.
  - rewrite length_app. simpl. unfold BATCH_SIZE. lia.
  - done.
Qed.

Lemma pop_batch_holds x b l t : holds x (b ++ [t]) l ->
  wp pop_batch (fun r x' => r = Some t /\ holds x' b l /\ same_but_tasks x x') x.
Proof.
  intros H. unfold pop_batch. apply wp_fetch_bind.
  pose proof (holds_lookup _ _ _ (length b) t H ltac:(by apply list_lookup_middle)) as Ht.
  destruct H as [H1 H2 H3 H4 H5]. rewrite length_app in *. simpl in *. unfold BATCH_SIZE in *.
  unfold load_at. apply wp_act_last. simpl. rewrite H1. rewrite (proj2 (Z.leb_le 0 _)) by lia.
  replace (Z.to_nat (Z.of_nat (length b + 1) - 1)) with (length b) by lia. rewrite Ht.
  split; [done|]. split; [|by destruct x]. split; simpl; try done.
  - rewrite i32_small by (unfold INT_MIN, INT_MAX; lia). lia.
  - rewrite <- (Nat.min_l (length b) (length b + 1)) at 1 by lia. rewrite <- take_take, H3.
    rewrite fmap_app, take_app_le by (by rewrite length_fmap).
    rewrite take_ge; [done|by rewrite length_fmap].
  - unfold BATCH_SIZE. lia.
Qed.

(** Moving the whole batch to the queue. *)
Lemma flush_holds x b l : holds x b l -> Z.of_nat (length l + length b) < WorkStealingQueue.CAPACITY ->
  wp MaybeFlushBatch (fun _ x' => same_but_tasks x x' /\
    if decide (Z.of_nat (length b) = BATCH_SIZE) then holds x' [] (l ++ b) else x' = x) x.
Proof.
  intros H Hcap. unfold MaybeFlushBatch. apply wp_load_bind. simpl.
  pose proof (holds_count _ _ _ H) as Hc. pose proof (holds_size _ _ _ H) as Hs. rewrite Hc.
  destruct (Z.geb_spec (Z.of_nat (length b)) BATCH_SIZE) as [Hge|Hlt].
  2: { wp_go. rewrite decide_False by lia. by destruct x. }
  apply wp_bind.
  apply (wp_loop_inv (fun i x' => 0 <= i <= Z.of_nat (length b) /\ same_but_tasks x x' /\
           w_batch_count_ x' = Z.of_nat (length b) /\ w_local_batch_ x' = w_local_batch_ x /\
           WorkStealingQueue.repr (w_local_queue_ x') (l ++ take (Z.to_nat i) b))
         (fun i _ => Z.to_nat (Z.of_nat (length b) - i))).
  { split; [lia|]. split; [by destruct x|]. split; [exact Hc|]. split; [done|].
    rewrite take_0, app_nil_r. apply (holds_queue _ _ _ H). }
  intros i x1 (Hi & Hsame & E1 & E2 & Hq). wp_go. rewrite E1.
  destruct (Z.ltb_spec i (Z.of_nat (length b))) as [Hlt|Hge'].
  - destruct (lookup_lt_is_Some_2 b (Z.to_nat i)) as [t Ht]; [lia|].
    eapply wp_load_at_bind; [lia|simpl; rewrite E2; by eapply holds_lookup|].
    apply wp_zoom_bind; [apply _|]. eapply wp_mono.
    { apply WorkStealingQueue.wsq_push_repr; [exact Hq|]. rewrite length_app, length_take. lia. }
    intros [] q' Hq'. wp_go. split; [|lia]. split; [lia|]. split; [|split; [exact E1|split; [exact E2|]]].
    + rewrite Hsame. by destruct x, x1.
    + simpl. replace (Z.to_nat (i + 1)) with (S (Z.to_nat i)) by lia.
      by rewrite (take_S_r _ _ t) by done; rewrite app_assoc.
  - wp_go. assert (Ei : i = Z.of_nat (length b)) by lia. rewrite Ei, Nat2Z.id, take_ge in Hq by done.
    split; [rewrite Hsame; by destruct x, x1|]. rewrite decide_True by lia. split; simpl; try done.
    + rewrite E2. apply (holds_room _ _ _ H).
Qed.

(** The number of tasks taken from the queue at once. *)
Definition batch_of (l : list ptr) : nat := Nat.min (length l) (Z.to_nat BATCH_SIZE).

(** Which task is next, and what remains. *)
Definition next_task (b l : list ptr) : option (ptr * (list ptr * list ptr)) :=
  match list.last b with
  | Some t => Some (t, (take (pred (length b)) b, l))
  | None =>
      let k := (length l - Z.to_nat BATCH_SIZE)%nat in
      match drop k l with
      | [] => None
      | t :: rest => Some (t, (reverse rest, take k l))
      end
  end.

Lemma PickTask_local_holds x b l : holds x b l ->
  wp PickTask_local (fun r x' => same_but_tasks x x' /\
    match next_task b l with
    | Some (t, (b', l')) => r = Some t /\ holds x' b' l'
    | None => r = None /\ holds x' [] [] /\ b = [] /\ l = []
    end) x.
Proof.
  intros H. unfold PickTask_local, next_task. apply wp_load_bind. simpl. rewrite (holds_count _ _ _ H).
  destruct b as [|t b _] using rev_ind.
  - simpl. unfold pop_into_batch. apply wp_assoc. apply wp_zoom_bind; [apply _|].
    eapply wp_mono; [by apply WorkStealingQueue.wsq_pop_multiple_repr; [apply (holds_queue _ _ _ H)|]|].
    intros out q' [-> Hq]. apply wp_assoc, wp_fetch_bind, wp_ret_bind. simpl.
    set (k := (length l - Z.to_nat BATCH_SIZE)%nat) in *.
    assert (Eout : take (Z.to_nat BATCH_SIZE) (reverse l) = reverse (drop k l)).
    { rewrite <- (take_drop k l) at 1. rewrite reverse_app. unfold k.
      destruct (decide (Z.to_nat BATCH_SIZE <= length l)%nat).
      - rewrite take_app_le by (rewrite length_reverse, length_drop; lia).
        rewrite take_ge; [done|]. rewrite length_reverse, length_drop; lia.
      - rewrite (take_ge (_ ++ _)) by (rewrite length_app, !length_reverse, length_take, length_drop; lia).
        replace (length l - Z.to_nat BATCH_SIZE)%nat with 0%nat by lia. simpl. by rewrite app_nil_r. }
    rewrite Eout. clear Eout. assert (Hk : (length (drop k l) <= Z.to_nat BATCH_SIZE)%nat)
      by (rewrite length_drop; unfold k; lia).
    destruct (drop k l) as [|t rest] eqn:Ed.
    + simpl. wp_go. assert (El : l = []).
      { apply (f_equal length) in Ed. rewrite length_drop in Ed. simpl in Ed.
        destruct l; [done|]. simpl in *. unfold k, BATCH_SIZE in *. simpl in *. lia. }
      subst l. split; [by destruct x|]. split; [done|]. split; [|done].
      rewrite take_nil in Hq. destruct H. split; simpl; try done.
    + rewrite (proj2 (Z.ltb_lt _ _)) by (rewrite length_reverse; simpl; lia).
      apply wp_store_bind. simpl in Hk. rewrite reverse_cons.
      assert (Hlen : length (reverse rest ++ [t]) = S (length rest))
        by (rewrite length_app, length_reverse; simpl; lia).
      match goal with |- wp _ _ ?s => assert (Hh : holds s (reverse rest ++ [t]) (take k l)) end.
      { pose proof (holds_room _ _ _ H) as Hroom. split; simpl; try done.
        - by rewrite length_inserts.
        - rewrite Hlen. apply (list_eq_same_length _ _ (S (length rest))).
          + by rewrite length_fmap.
          + rewrite length_take, length_inserts. lia.
          + intros i y1 y2 Hi. rewrite lookup_take, decide_True by done.
            rewrite list_lookup_inserts by (rewrite ?length_fmap; lia).
            rewrite Nat.sub_0_r. intros. congruence.
        - rewrite Hlen. lia. }
      eapply wp_mono; [by apply pop_batch_holds|]. intros r x' (-> & Hx' & Hsame).
      split; [rewrite Hsame; by destruct x|]. done.
  - rewrite (proj2 (Z.ltb_lt _ _)) by (rewrite length_app; simpl; lia).
    eapply wp_mono; [by apply pop_batch_holds|]. intros r x' (-> & Hx' & Hsame).
    split; [done|]. rewrite last_snoc, length_app, Nat.add_1_r. simpl. by rewrite take_app_length.
Qed.

(** ** The tasks of a worker as two lists *)

(** [YieldCurrent]'s queueing of the task, the submission of a task by the
    worker to its own queue, and the choice of the next task. *)
Inductive task_op := OpYield (t : ptr) | OpSubmit (t : ptr) | OpPick.

Definition do_task_op (o : task_op) : prog worker (option ptr) :=
  match o with
  | OpYield t => push_batch t ;;; MaybeFlushBatch ;;; Ret None
  | OpSubmit t => zoom local_queue_ (WorkStealingQueue.Push t) ;;; Ret None
  | OpPick => PickTask_local
  end.

Fixpoint do_task_ops (os : list task_op) : prog worker (list (option ptr)) :=
  match os with
  | [] => Ret []
  | o :: os => r <- do_task_op o ;; rs <- do_task_ops os ;; Ret (r :: rs)
  end.

Definition tasks_step (s : list ptr * list ptr) (o : task_op) : (list ptr * list ptr) * option ptr :=
  let '(b, l) := s in
  match o with
  | OpYield t => (if decide (Z.of_nat (length b) + 1 = BATCH_SIZE) then ([], l ++ b ++ [t]) else (b ++ [t], l), None)
  | OpSubmit t => ((b, l ++ [t]), None)
  | OpPick => match next_task b l with
              | Some (t, s') => (s', Some t)
              | None => (s, None)
              end
  end.

Fixpoint tasks_steps (s : list ptr * list ptr) (os : list task_op)
    : (list ptr * list ptr) * list (option ptr) :=
  match os with
  | [] => (s, [])
  | o :: os => let '(s', r) := tasks_step s o in
               let '(s'', rs) := tasks_steps s' os in (s'', r :: rs)
  end.

(** Fewer tasks than the ring holds, and room in the batch, before every step. *)
Fixpoint tasks_fit (s : list ptr * list ptr) (os : list task_op) : bool :=
  match os with
  | [] => true
  | o :: os => bool_decide (Z.of_nat (length s.1 + length s.2) < WorkStealingQueue.CAPACITY - 1 /\
                            Z.of_nat (length s.1) < BATCH_SIZE) &&
               tasks_fit (tasks_step s o).1 os
  end.

Lemma task_op_holds x b l o : holds x b l ->
  Z.of_nat (length b + length l) < WorkStealingQueue.CAPACITY - 1 -> Z.of_nat (length b) < BATCH_SIZE ->
  wp (do_task_op o) (fun r x' => same_but_tasks x x' /\ r = (tasks_step (b, l) o).2 /\
    holds x' (tasks_step (b, l) o).1.1 (tasks_step (b, l) o).1.2) x.
Proof.
  intros H Hcap Hb. destruct o as [t|t|]; simpl.
  - apply wp_bind. eapply wp_mono; [by apply push_batch_holds|]. intros [] x1 [H1 Hs1].
    apply wp_bind. eapply wp_mono; [apply (flush_holds _ _ _ H1); rewrite length_app; simpl; lia|].
    intros [] x2 [Hs2 H2]. wp_go. rewrite length_app in H2. simpl in H2.
    split; [rewrite Hs2, Hs1; by destruct x, x1, x2|]. split; [done|].
    destruct (decide (Z.of_nat (length b) + 1 = BATCH_SIZE)).
    + rewrite decide_True in H2 by lia. done.
    + rewrite decide_False in H2 by lia. by subst x2.
  - apply wp_zoom_bind; [apply _|]. eapply wp_mono.
    { apply WorkStealingQueue.wsq_push_repr; [apply (holds_queue _ _ _ H)|]. lia. }
    intros [] q Hq. wp_go. split; [by destruct x|]. split; [done|]. destruct H. by split.
  - eapply wp_mono; [by apply PickTask_local_holds|]. intros r x' [Hs Hr]. split; [exact Hs|].
    destruct (next_task b l) as [(t & b' & l')|]; [done|]. by destruct Hr as (-> & Hx & -> & ->).
Qed.

#[local] Arguments tasks_step : simpl never.

(** C13: Any sequence of the operations of a worker on its batch and its local
    queue, within their capacities, returns what the specification on two
    lists returns and changes nothing else of the worker. *)
Theorem worker_queue_refines os x b l (H : holds x b l) (Hfit : tasks_fit (b, l) os = true) :
  wp (do_task_ops os) (fun rs x' => rs = (tasks_steps (b, l) os).2 /\
    holds x' (tasks_steps (b, l) os).1.1 (tasks_steps (b, l) os).1.2 /\ same_but_tasks x x') x.
Proof.
  revert x b l H Hfit; induction os as [|o os IH]; intros x b l H Hfit; simpl.
  - wp_go. split; [done|]. split; [done|]. by destruct x.
  - simpl in Hfit. apply andb_true_iff in Hfit as [[Hc Hb]%bool_decide_eq_true Hfit].
    apply wp_bind. eapply wp_mono; [by apply task_op_holds|]. intros r x1 (Hs & -> & H1).
    revert Hfit H1. destruct (tasks_step (b, l) o) as [[b1 l1] r1]. simpl. intros Hfit H1.
    apply wp_bind. eapply wp_mono; [by apply IH|]. intros rs x2 (-> & H2 & Hs2). wp_go.
    destruct (tasks_steps (b1, l1) os) as [[b2 l2] rs2]. simpl in *.
    split; [done|]. split; [done|]. rewrite Hs2, Hs. by destruct x, x1, x2.
Qed.

Lemma Worker_holds id : holds (Worker id) [] [].
Proof. split; simpl; try done. apply WorkStealingQueue.wsq_repr_empty. Qed.

Lemma worker_queue_refines_witness :
  wp (do_task_ops [OpYield 1%nat; OpSubmit 2%nat; OpPick; OpPick; OpPick]) (fun rs x' =>
    rs = [None; None; Some 1%nat; Some 2%nat; None] /\ holds x' [] [] /\
    same_but_tasks (Worker 0) x') (Worker 0).
Proof.
  exact (worker_queue_refines [OpYield 1%nat; OpSubmit 2%nat; OpPick; OpPick; OpPick]
           (Worker 0) [] [] (Worker_holds 0) eq_refl).
Defined.

(** The specification of picking a local task takes exactly the returned task
    out of the tasks of the worker, and finds nothing only when there is none.
    *)
Theorem next_task_takes_one b l :
  match next_task b l with
  | Some (t, (b', l')) => b ++ l ≡ₚ t :: b' ++ l' /\ Z.of_nat (length b') < BATCH_SIZE `max` Z.of_nat (length b)
  | None => b = [] /\ l = []
  end.
Proof.
  unfold next_task. destruct b as [|t b _] using rev_ind; simpl.
  - set (k := (length l - Z.to_nat BATCH_SIZE)%nat). destruct (drop k l) as [|t rest] eqn:Ed.
    + split; [done|]. apply (f_equal length) in Ed. rewrite length_drop in Ed.
      destruct l; [done|]. simpl in *. unfold k, BATCH_SIZE in *. simpl in *. lia.
    + split; [rewrite <- (take_drop k l) at 1; rewrite Ed; rewrite reverse_Permutation; solve_Permutation|].
      apply (f_equal length) in Ed. rewrite length_drop in Ed. simpl in Ed. rewrite length_reverse.
      unfold k, BATCH_SIZE in *. lia.
  - rewrite last_snoc, length_app, Nat.add_1_r. simpl. rewrite take_app_length.
    split; [solve_Permutation|lia].
Qed.

(** A task that yields while the batch has room is the next one its worker
    picks, whatever else is queued. *)
Theorem yield_picks_the_same_task x b l t (H : holds x b l) (Hb : Z.of_nat (length b) + 1 < BATCH_SIZE) :
  wp (push_batch t ;;; MaybeFlushBatch ;;; PickTask_local)
     (fun r x' => r = Some t /\ holds x' b l) x.
Proof.
  apply wp_bind. eapply wp_mono; [apply push_batch_holds; [exact H|lia]|]. intros [] x1 [H1 _].
  unfold MaybeFlushBatch. apply wp_assoc, wp_load_bind. simpl. rewrite (holds_count _ _ _ H1), length_app.
  simpl. destruct (Z.geb_spec (Z.of_nat (length b + 1)) BATCH_SIZE) as [Hge|_]; [lia|]. apply wp_ret_bind.
  eapply wp_mono; [by apply PickTask_local_holds|]. intros r x' [_ Hr].
  unfold next_task in Hr. rewrite last_snoc, length_app, Nat.add_1_r in Hr. simpl in Hr.
  by rewrite take_app_length in Hr.
Qed.

Lemma yield_picks_the_same_task_witness :
  wp (push_batch 5 ;;; MaybeFlushBatch ;;; PickTask_local)
     (fun r x' => r = Some 5%nat /\ holds x' [] []) (Worker 0).
Proof. apply (yield_picks_the_same_task (Worker 0) [] [] 5 (Worker_holds 0)). reflexivity. Defined.

(** ** The pools *)

Lemma wp_on_bind {A B} w (p : prog worker A) (g : A -> prog world B) Q v x :
  v_workers v !! w = Some x ->
  wp p (fun a x' => wp (g a) Q (wr workers (<[w := x']> (v_workers v)) v)) x ->
  wp (y <- on w p ;; g y) Q v.
Proof. intros Hx H. by eapply wp_zoom_at_bind; [apply _..|exact Hx|]. Qed.

Lemma wp_on {A} w (p : prog worker A) Q v x :
  v_workers v !! w = Some x ->
  wp p (fun a x' => Q a (wr workers (<[w := x']> (v_workers v)) v)) x -> wp (on w p) Q v.
Proof.
  intros Hx (a & x' & H & HQ). exists a, (wr workers (<[w := x']> (v_workers v)) v). split; [|done].
  by eapply (exec_zoom_at workers w whole).
Qed.

(** Reading a member. *)
Lemma wp_on_load_bind {A B} w (f : field worker B) (g : B -> prog world A) Q v x :
  v_workers v !! w = Some x -> wp (g (rd f x)) Q v -> wp (y <- on w (load f) ;; g y) Q v.
Proof.
  intros Hx H. eapply wp_on_bind; [exact Hx|]. apply wp_load. simpl.
  rewrite insert_id by done. by destruct v.
Qed.

(** The stacks [l] in the pool of a worker, the last one next. *)
Definition stacks (x : worker) (l : list (option Z)) : Prop :=
  w_stack_pool_count_ x = Z.of_nat (length l) /\ Z.of_nat (length l) <= STACK_POOL_SIZE /\
  length (w_stack_pool_ x) = Z.to_nat STACK_POOL_SIZE /\ take (length l) (w_stack_pool_ x) = l.

Lemma push_stack_ok x l s : stacks x l -> Z.of_nat (length l) < STACK_POOL_SIZE ->
  wp (push_stack s) (fun _ x' => stacks x' (l ++ [s])) x.
Proof.
  intros (H1 & H2 & H3 & H4) Hlt. unfold push_stack. apply wp_fetch_bind. unfold store_at.
  apply wp_act_last. simpl. unfold STACK_POOL_SIZE in *. rewrite H1, H3.
  rewrite (proj2 (Z.leb_le 0 _)), (proj2 (Z.ltb_lt _ _)) by lia. simpl. rewrite Nat2Z.id.
  unfold stacks. simpl. rewrite length_app, length_insert. simpl.
  rewrite i32_small by (unfold INT_MIN, INT_MAX; lia).
  split; [lia|]. split; [unfold STACK_POOL_SIZE; lia|]. split; [done|].
  rewrite Nat.add_1_r, (take_S_r _ _ s) by (apply list_lookup_insert_eq; lia).
  by rewrite take_insert_ge, H4 by lia.
Qed.

Lemma pop_stack_ok x l s : stacks x (l ++ [s]) ->
  wp pop_stack (fun r x' => r = s /\ stacks x' l) x.
Proof.
  intros (H1 & H2 & H3 & H4). unfold pop_stack. apply wp_fetch_bind. rewrite length_app in *. simpl in *.
  unfold load_at. apply wp_act_last. simpl. rewrite H1. rewrite (proj2 (Z.leb_le 0 _)) by lia.
  replace (Z.to_nat (Z.of_nat (length l + 1) - 1)) with (length l) by lia.
  assert (Hs : w_stack_pool_ x !! length l = Some s).
  { assert (E : take (length l + 1) (w_stack_pool_ x) !! length l = Some s)
      by (rewrite H4; by apply list_lookup_middle).
    rewrite lookup_take in E. by case_decide. }
  rewrite Hs. split; [done|]. unfold stacks, STACK_POOL_SIZE in *. simpl.
  rewrite i32_small by (unfold INT_MIN, INT_MAX; lia). split; [lia|]. split; [lia|]. split; [done|].
  rewrite <- (Nat.min_l (length l) (length l + 1)) at 1 by lia. rewrite <- take_take, H4.
  by rewrite take_app_length.
Qed.

(** A stack of the default size released to a pool with room is the next one
    acquired, with no call of mmap or munmap. *)
Theorem stack_pool_recycles v w x l top size (Hx : v_workers v !! w = Some x) (Hl : stacks x l)
    (Hroom : Z.of_nat (length l) < STACK_POOL_SIZE) (Hs : size <= DEFAULT_STACK_SIZE) :
  wp (ReleaseStack w (Some top) DEFAULT_STACK_SIZE ;;; AcquireStack w size)
     (fun r v' => r = Some top /\ v_vm_ v' = v_vm_ v /\
        exists x', v_workers v' !! w = Some x' /\ stacks x' l) v.
Proof.
  unfold ReleaseStack. apply wp_assoc. eapply wp_on_load_bind; [exact Hx|]. simpl.
  pose proof Hl as (H1 & _). rewrite H1, (proj2 (Z.ltb_lt _ _)) by done. simpl.
  eapply wp_on_bind; [exact Hx|]. eapply wp_mono; [by apply push_stack_ok|]. intros [] x1 Hl1.
  unfold AcquireStack. eapply wp_on_load_bind; [apply lookup_insert_eq|]. simpl.
  pose proof Hl1 as (H1' & _). rewrite H1', length_app. simpl.
  rewrite (proj2 (Z.ltb_lt 0 _)), (proj2 (Z.leb_le _ _)) by lia. simpl.
  eapply wp_on; [apply lookup_insert_eq|]. eapply wp_mono; [by eapply pop_stack_ok|].
  intros r x2 [-> Hl2]. split; [done|]. split; [done|]. exists x2. simpl. by rewrite lookup_insert_eq.
Qed.

(** A worker, alone. *)
Definition one_worker (x : worker) (m : Platform.vm) : world :=
  wr vm_ m (wr workers {[ 0%nat := x ]} (Scheduler 1 [])).

Lemma stack_pool_recycles_witness :
  wp (ReleaseStack 0 (Some 81920) DEFAULT_STACK_SIZE ;;; AcquireStack 0 4096)
     (fun r v' => r = Some 81920 /\ v_vm_ v' = Platform.Vm ∅ [] /\
        exists x', v_workers v' !! 0%nat = Some x' /\ stacks x' [])
     (one_worker (Worker 0) (Platform.Vm ∅ [])).
Proof.
  apply (stack_pool_recycles (one_worker (Worker 0) (Platform.Vm ∅ [])) 0 (Worker 0) [] 81920 4096);
    [reflexivity|by vm_compute|reflexivity|by vm_compute].
Defined.

(** A pooled stack handed out for a smaller size and released with that size
    is unmapped at the wrong address. *)
Theorem small_stack_release_is_undefined base x (Hf : Platform.fits base DEFAULT_STACK_SIZE)
    (Hl : stacks x [Some (Platform.top_of base DEFAULT_STACK_SIZE)]) :
  goes_wrong (s <- AcquireStack 0 4096 ;; ReleaseStack 0 s 4096)
    (one_worker x (Platform.Vm {[ base := Platform.stack_region base DEFAULT_STACK_SIZE ]} [])).
Proof.
  set (v := one_worker _ _). assert (Hx : v_workers v !! 0%nat = Some x) by done.
  eapply (wrong_bind _ _ _ (fun r v' => r = Some (Platform.top_of base DEFAULT_STACK_SIZE) /\
    v_vm_ v' = v_vm_ v /\ exists x', v_workers v' !! 0%nat = Some x' /\ stacks x' [])).
  { unfold AcquireStack. eapply wp_on_load_bind; [exact Hx|]. simpl.
    pose proof Hl as (H1 & _). rewrite H1. simpl. eapply wp_on; [exact Hx|].
    eapply wp_mono; [apply (pop_stack_ok x [] _ Hl)|]. intros r x' [-> Hx'].
    split; [done|]. split; [done|]. exists x'. simpl. by rewrite lookup_insert_eq. }
  intros r v' (-> & Hvm & x' & Hx' & H1 & _). simpl in H1. unfold ReleaseStack.
  eapply (wrong_bind _ _ _ (fun n v1 => n = 0 /\ v1 = v')).
  { eapply wp_on; [exact Hx'|]. apply wp_load. split; [done|]. rewrite insert_id by done. by destruct v'. }
  intros n v1 [-> ->]. simpl. apply (wrong_zoom vm_). simpl. rewrite Hvm.
  apply Platform.DeallocateStack_header_missing; [done|unfold Platform.PAGE_SIZE, DEFAULT_STACK_SIZE; lia..].
Qed.

Definition pooled : worker :=
  wr stack_pool_count_ 1 (wr stack_pool_ (Some 81936 :: replicate 7 None) (Worker 0)).

Lemma small_stack_release_is_undefined_witness :
  goes_wrong (s <- AcquireStack 0 4096 ;; ReleaseStack 0 s 4096)
    (one_worker pooled (Platform.Vm {[ 65536 := Platform.stack_region 65536 DEFAULT_STACK_SIZE ]} [])).
Proof. apply (small_stack_release_is_undefined 65536 pooled); by vm_compute. Defined.

(** The metadata [l] in the cache of a worker, the last one next. *)
Definition cached (x : worker) (l : list ptr) : Prop :=
  w_task_cache_count_ x = Z.of_nat (length l) /\ Z.of_nat (length l) <= TASK_CACHE_SIZE /\
  length (w_task_cache_ x) = Z.to_nat TASK_CACHE_SIZE /\ take (length l) (w_task_cache_ x) = Some <$> l.

Lemma push_task_ok x l p : cached x l -> Z.of_nat (length l) < TASK_CACHE_SIZE ->
  wp (push_task p) (fun _ x' => cached x' (l ++ [p])) x.
Proof.
  intros (H1 & H2 & H3 & H4) Hlt. unfold push_task. apply wp_fetch_bind. unfold store_at.
  apply wp_act_last. simpl. unfold TASK_CACHE_SIZE in *. rewrite H1, H3.
  rewrite (proj2 (Z.leb_le 0 _)), (proj2 (Z.ltb_lt _ _)) by lia. simpl. rewrite Nat2Z.id.
  unfold cached. simpl. rewrite length_app, length_insert. simpl.
  rewrite i32_small by (unfold INT_MIN, INT_MAX; lia).
  split; [lia|]. split; [unfold TASK_CACHE_SIZE; lia|]. split; [done|].
  rewrite Nat.add_1_r, (take_S_r _ _ (Some p)) by (apply list_lookup_insert_eq; lia).
  by rewrite take_insert_ge, H4, fmap_app by lia.
Qed.

Lemma pop_task_ok x l p : cached x (l ++ [p]) ->
  wp pop_task (fun r x' => r = Some p /\ cached x' l) x.
Proof.
  intros (H1 & H2 & H3 & H4). unfold pop_task. apply wp_fetch_bind. rewrite length_app in *. simpl in *.
  unfold load_at. apply wp_act_last. simpl. rewrite H1. rewrite (proj2 (Z.leb_le 0 _)) by lia.
  replace (Z.to_nat (Z.of_nat (length l + 1) - 1)) with (length l) by lia.
  assert (Hs : w_task_cache_ x !! length l = Some (Some p)).
  { assert (E : take (length l + 1) (w_task_cache_ x) !! length l = Some (Some p)).
    { rewrite H4, fmap_app. apply list_lookup_middle. by rewrite length_fmap. }
    rewrite lookup_take in E. by case_decide. }
  rewrite Hs. split; [done|]. unfold cached, TASK_CACHE_SIZE in *. simpl.
  rewrite i32_small by (unfold INT_MIN, INT_MAX; lia). split; [lia|]. split; [lia|]. split; [done|].
  rewrite <- (Nat.min_l (length l) (length l + 1)) at 1 by lia. rewrite <- take_take, H4.
  rewrite fmap_app, take_app_le by (by rewrite length_fmap). by rewrite take_ge by (by rewrite length_fmap).
Qed.

(** A task released to the cache of a worker and acquired again keeps its slot
    and generation: every identifier of the ended bthread decodes to the new
    one. *)
Theorem recycled_task_keeps_its_id v w x l p (Hx : v_workers v !! w = Some x) (Hl : cached x l)
    (Hroom : Z.of_nat (length l) < TASK_CACHE_SIZE) :
  wp (ReleaseTaskMeta w (Some p)) (fun _ v1 => rd group v1 = rd group v /\
    (forall tid, TaskGroup.decode (rd group v1) tid = TaskGroup.decode (rd group v) tid) /\
    wp (AcquireTaskMeta w) (fun r v2 => r = Some p /\ rd group v2 = rd group v) v1) v.
Proof.
  unfold ReleaseTaskMeta. eapply wp_on_load_bind; [exact Hx|]. simpl.
  pose proof Hl as (H1 & _). rewrite H1, (proj2 (Z.ltb_lt _ _)) by done.
  eapply wp_on; [exact Hx|]. eapply wp_mono; [by apply push_task_ok|]. intros [] x1 Hl1.
  split; [done|]. split; [done|]. unfold AcquireTaskMeta.
  eapply wp_on_load_bind; [apply lookup_insert_eq|]. simpl.
  pose proof Hl1 as (H1' & _). rewrite H1', length_app. simpl. rewrite (proj2 (Z.ltb_lt 0 _)) by lia.
  eapply wp_on; [apply lookup_insert_eq|]. eapply wp_mono; [by eapply pop_task_ok|].
  by intros r x2 [-> Hl2].
Qed.

Lemma recycled_task_keeps_its_id_witness :
  let v := one_worker (Worker 0) (Platform.Vm ∅ []) in
  wp (ReleaseTaskMeta 0 (Some 7%nat)) (fun _ v1 => rd group v1 = rd group v /\
    (forall tid, TaskGroup.decode (rd group v1) tid = TaskGroup.decode (rd group v) tid) /\
    wp (AcquireTaskMeta 0) (fun r v2 => r = Some 7%nat /\ rd group v2 = rd group v) v1) v.
Proof.
  apply (recycled_task_keeps_its_id (one_worker (Worker 0) (Platform.Vm ∅ [])) 0 (Worker 0) [] 7);
    by vm_compute.
Defined.

(** The loop that fills the cache with the metadata of the slots taken. *)
Lemma refill_ok slots : forall v w x ps l, v_workers v !! w = Some x -> cached x ps ->
  TaskGroup.pool_ok (rd group v) l -> (forall s, s ∈ slots -> 0 <= s < TaskGroup.POOL_SIZE) ->
  NoDup slots -> Z.of_nat (length ps + length slots) <= TASK_CACHE_SIZE ->
  wp (loop slots (fun slots =>
    match slots with
    | [] => Ret (inr tt)
    | slot :: slots =>
        meta <- zoom group (TaskGroup.GetOrCreateTaskMeta slot) ;;
        (match meta with Some meta => on w (push_task meta) | None => Ret tt end) ;;;
        Ret (inl slots)
    end))
    (fun _ v' => exists x' qs, v_workers v' !! w = Some x' /\ cached x' (ps ++ qs) /\
       TaskGroup.pool_ok (rd group v') l /\ length qs = length slots /\
       (forall k s, slots !! k = Some s ->
          TaskGroup.g_task_pool (rd group v') !! Z.to_nat s = Some <$> (qs !! k)) /\
       (forall y, Z.of_nat y ∉ slots ->
          TaskGroup.g_task_pool (rd group v') !! y = TaskGroup.g_task_pool (rd group v) !! y)) v.
Proof.
  induction slots as [|s slots IH]; intros v w x ps l Hx Hps Hok Hr Hnd Hlen; apply wp_loop_once.
  - wp_go. exists x, []. rewrite app_nil_r. by split_and!.
  - apply list.NoDup_cons in Hnd as [Hs Hnd]. assert (Hs0 : 0 <= s < TaskGroup.POOL_SIZE) by (apply Hr; by left).
    apply wp_zoom_bind; [apply _|]. unfold TaskGroup.GetOrCreateTaskMeta.
    rewrite (proj2 (Z.ltb_ge s 0)) by lia.
    assert (E : (s >=? TaskGroup.POOL_SIZE) = false) by lia. rewrite E. simpl.
    apply wp_bind. eapply wp_mono; [by apply (TaskGroup.slot_meta_ok _ l)|].
    intros p g' (Hok' & _ & _ & Hp & _ & _ & Hoth). apply wp_ret. simpl in Hlen.
    eapply wp_on_bind; [exact Hx|]. eapply wp_mono; [apply push_task_ok; [exact Hps|lia]|].
    intros [] x1 Hps1. apply wp_ret.
    eapply wp_mono.
    { apply (IH _ w x1 (ps ++ [p]) l); [apply lookup_insert_eq|done|exact Hok'| |done|].
      - intros y Hy. apply Hr. by right.
      - rewrite length_app. simpl. lia. }
    intros [] v' (x' & qs & Hx' & Hc & Hok2 & Hlq & Hqs & Hrest).
    exists x', (p :: qs). split; [exact Hx'|]. rewrite <- app_assoc in Hc. split; [exact Hc|].
    split; [exact Hok2|]. split; [by simpl; f_equal|]. split.
    + intros [|k] y Hy; simpl in Hy |- *; [|by apply Hqs]. injection Hy as <-.
      rewrite Hrest; [exact Hp|]. by rewrite Z2Nat.id by lia.
    + intros y Hy. rewrite Hrest by (intros Hy'; apply Hy; by right). apply Hoth.
      intros ->. apply Hy. rewrite Z2Nat.id by lia. by left.
Qed.

(** With an empty cache AcquireTaskMeta takes up to TASK_CACHE_SIZE slots from
    the pool, returns the task of the last and caches the others. *)
Theorem AcquireTaskMeta_refills v w x l (Hx : v_workers v !! w = Some x) (Hc : cached x [])
    (Hok : TaskGroup.pool_ok (rd group v) l) :
  let n := Z.to_nat TASK_CACHE_SIZE in
  wp (AcquireTaskMeta w) (fun r v' => exists x' ps,
    v_workers v' !! w = Some x' /\ TaskGroup.pool_ok (rd group v') (drop n l) /\
    (forall k s, take n l !! k = Some s ->
       TaskGroup.g_task_pool (rd group v') !! Z.to_nat s = Some <$> (ps !! k)) /\
    length ps = length (take n l) /\ r = list.last ps /\ cached x' (take (pred (length ps)) ps)) v.
Proof.
  intros n. unfold AcquireTaskMeta. eapply wp_on_load_bind; [exact Hx|]. simpl.
  pose proof Hc as (H1 & _). rewrite H1. simpl. unfold RefillTaskCache. apply wp_assoc.
  apply wp_zoom_bind; [apply _|].
  eapply wp_mono; [by apply (TaskGroup.AllocMultipleSlots_front _ l TASK_CACHE_SIZE)|].
  intros slots g' (-> & Hok' & Hpool & _).
  replace (Nat.min (Z.to_nat TASK_CACHE_SIZE) 16) with n in * by done.
  apply wp_bind. eapply wp_mono.
  { apply (refill_ok (take n l) _ w x [] (drop n l)); [exact Hx|exact Hc|exact Hok'| | |].
    - intros s Hs. apply (TaskGroup.ok_range _ _ Hok).
      apply list_elem_of_lookup_1 in Hs as [k Hk]. rewrite lookup_take in Hk. case_decide; [|done].
      by eapply list_elem_of_lookup_2.
    - eapply sublist_NoDup; [apply (TaskGroup.ok_nodup _ _ Hok)|apply sublist_take].
    - simpl. rewrite length_take. unfold n, TASK_CACHE_SIZE. lia. }
  intros [] v1 (x1 & ps & Hx1 & Hc1 & Hok1 & Hlen & Hps & _). simpl in Hc1.
  eapply wp_on_load_bind; [exact Hx1|]. simpl. pose proof Hc1 as (H1' & _). rewrite H1'.
  destruct ps as [|p ps _] using rev_ind.
  - simpl. wp_go. exists x1, []. by split_and!.
  - rewrite length_app. simpl. rewrite (proj2 (Z.ltb_lt 0 _)) by lia.
    eapply wp_on; [exact Hx1|]. eapply wp_mono; [by eapply pop_task_ok|]. intros r x2 [-> Hc2].
    exists x2, (ps ++ [p]). split; [apply lookup_insert_eq|]. split; [exact Hok1|].
    split; [exact Hps|]. split; [done|]. split; [by rewrite last_snoc|].
    rewrite length_app, Nat.add_1_r. simpl. by rewrite take_app_length.
Qed.

Lemma one_worker_pool x m :
  TaskGroup.pool_ok (rd group (one_worker x m)) (Z.of_nat <$> seq 0 (Z.to_nat TaskGroup.POOL_SIZE)).
Proof.
  change (rd group (one_worker x m)) with (TaskGroup.TaskGroup Task.no_memory).
  by apply TaskGroup.TaskGroup_ok.
Qed.

Lemma Worker_cached id : cached (Worker id) [].
Proof. by vm_compute. Qed.

Lemma AcquireTaskMeta_refills_witness :
  let v := one_worker (Worker 0) (Platform.Vm ∅ []) in
  let l := Z.of_nat <$> seq 0 (Z.to_nat TaskGroup.POOL_SIZE) in
  let n := Z.to_nat TASK_CACHE_SIZE in
  wp (AcquireTaskMeta 0) (fun r v' => exists x' ps,
    v_workers v' !! 0%nat = Some x' /\ TaskGroup.pool_ok (rd group v') (drop n l) /\
    (forall k s, take n l !! k = Some s ->
       TaskGroup.g_task_pool (rd group v') !! Z.to_nat s = Some <$> (ps !! k)) /\
    length ps = length (take n l) /\ r = list.last ps /\ cached x' (take (pred (length ps)) ps)) v.
Proof.
  exact (AcquireTaskMeta_refills (one_worker (Worker 0) (Platform.Vm ∅ [])) 0 (Worker 0) _ eq_refl
           (Worker_cached 0) (one_worker_pool _ _)).
Defined.

End Workers.
