(* ===== verification/Scheduler.v ===== *)
(** * The scheduler

    Model of [Scheduler] ([src/bthread/core/scheduler.cpp]) and of the parts of
    [Worker] that involve other workers ([src/bthread/core/worker.cpp]): the
    registry of idle workers, waking up, submitting, picking and stealing tasks,
    yielding and the switch of contexts, starting and shutting down. *)

From Stdlib Require Import ZArith Lia.
From stdpp Require Import base numbers list gmap relations option.
From S2P Require Import Prelude Mpsc SharedMpsc WorkStealing Task TaskGroup Timer Platform World.
From S2P Require Import Workers.

Open Scope Z_scope.

Module Scheduler.
Import World World.Worker Workers.

(** ** Threads and contexts *)

(** The worker whose thread executes the context of task [t]. *)
Definition worker_on (v : world) (t : ptr) : option ptr :=
  fst <$> head (filter (fun p => w_context p.2 = Some t) (map_to_list (v_workers v))).

Lemma worker_on_Some v t w : worker_on v t = Some w ->
  exists x, v_workers v !! w = Some x /\ w_context x = Some t.
Proof.
  unfold worker_on. destruct (head _) as [[w' x]|] eqn:E; [|done]. intros [= <-].
  apply head_Some in E as [l E]. assert (Hin : (w', x) ∈ (w', x) :: l) by by left.
  rewrite <- E in Hin. apply list_elem_of_filter in Hin as [Hc Hin].
  exists x. split; [by apply elem_of_map_to_list|exact Hc].
Qed.

Lemma worker_on_None v t : worker_on v t = None <->
  forall w x, v_workers v !! w = Some x -> w_context x <> Some t.
Proof.
  split.
  - unfold worker_on. destruct (head _) as [p|] eqn:E; [done|]. intros _ w x Hx Hc.
    apply head_None in E. assert (Hin : (w, x) ∈ filter (fun p : ptr * worker => w_context p.2 = Some t) (map_to_list (v_workers v)))
      by (apply list_elem_of_filter; split; [done|by apply elem_of_map_to_list]).
    rewrite E in Hin. by apply not_elem_of_nil in Hin.
  - intros H. destruct (worker_on v t) as [w|] eqn:E; [|done].
    apply worker_on_Some in E as (x & Hx & Hc). by destruct (H w x Hx).
Qed.

Lemma worker_on_unique v t w x : v_workers v !! w = Some x -> w_context x = Some t ->
  (forall w' x', v_workers v !! w' = Some x' -> w_context x' = Some t -> w' = w) -> worker_on v t = Some w.
Proof.
  intros Hx Hc Hu. destruct (worker_on v t) as [w'|] eqn:E.
  - apply worker_on_Some in E as (x' & Hx' & Hc'). by rewrite (Hu w' x').
  - apply worker_on_None with (w := w) (x := x) in E; done.
Qed.

(** [Worker::Current()], the thread-local variable of the executing thread. *)
Definition Current (self : who) : prog world (option ptr) :=
  match self with
  | Native _ => Ret None
  | OnLoop w => Ret (Some w)
  | OnStack t => act (fun v => match worker_on v t with Some w => Go (Some w) v | None => Bad end)
  end.

(** [coro::current_coro_meta()]: a thread-local variable. *)
Definition current_coro_meta (self : who) : prog world (option ptr) :=
  w <- Current self ;;
  match w with
  | Some w => on w (load current_coro_meta_)
  | None => Ret None
  end.

(** [SwapContext(&saved_context_, &task->context)] on the thread of [w]: the
    thread goes on with the context of [t] until that switches back.  The
    context of a task that is being executed has not been saved: loading it is
    undefined behaviour. *)
Definition SwapTo (w t : ptr) : prog world unit :=
  act (fun v => if decide (worker_on v t = None) then
                  match v_workers v !! w with
                  | Some x => Go tt (wr workers (<[w := wr context (Some t) x]> (v_workers v)) v)
                  | None => Bad
                  end
                else Bad) ;;;
  act (fun v => match v_workers v !! w with
                | Some x => if decide (w_context x = None) then Go tt v else Block
                | None => Bad
                end).

(** A task that is not executed waits until a worker switches to it. *)
Definition resumed (t : ptr) : prog world unit :=
  act (fun v => if decide (worker_on v t = None) then Block else Go tt v).

(** [SwapContext(&task->context, &saved_context_)] by task [t] on [w]. *)
Definition SwapFrom (self : who) (w t : ptr) : prog world unit :=
  if decide (self = OnStack t) then on w (store context None) ;;; resumed t else undefined.

Definition RunBthread (w task : ptr) : prog world unit := SwapTo w task.

Definition SuspendCurrent (self : who) (w : ptr) : prog world unit :=
  current <- on w (load current_task_) ;;
  match current with
  | None => undefined
  | Some t =>
      ty <- get tasks t Task.type ;;
      if decide (ty = Task.BTHREAD) then SwapFrom self w t else Ret tt
  end.

(** ** Waking workers *)

(** [Trace(id_, event, wake_count_, wake_pending_, is_idle_)]. *)
Definition trace_worker (w : ptr) (event : Z) : prog world unit :=
  id <- on w (load id_) ;;
  wc <- on w (load wake_count_) ;;
  wp <- on w (load wake_pending_) ;;
  idle <- on w (load is_idle_) ;;
  Trace id event wc (Z.b2z wp) (Z.b2z idle).

Definition WakeUp (w : ptr) : prog world unit :=
  trace_worker w 5 ;;;
  on w (store wake_pending_ true) ;;;
  on w (fetch wake_count_ (fun n => i32 (n + 1))) ;;;
  Platform.FutexWake ;;;
  trace_worker w 6 ;;;
  on w (store wake_pending_ false).

Definition Stop (w : ptr) : prog world unit :=
  on w (store stop_flag_ 1) ;;;
  on w (store is_idle_ false) ;;;
  on w (fetch wake_count_ (fun n => i32 (n + 1))) ;;;
  Platform.FutexWake.

Definition RegisterIdleWorker (worker_id : Z) : prog world unit :=
  old_head <- load idle_head_ ;;
  loop old_head (fun old_head =>
    store_at idle_next_ worker_id old_head ;;;
    c <- cas_weak idle_head_ old_head worker_id ;;
    if c.1 : bool then Ret (inr tt) else Ret (inl c.2)).

Definition PopIdleWorker : prog world Z :=
  worker_id <- load idle_head_ ;;
  loop worker_id (fun worker_id =>
    if 0 <=? worker_id then
      next <- load_at idle_next_ worker_id ;;
      c <- cas_weak idle_head_ worker_id next ;;
      if c.1 : bool then Ret (inr worker_id) else Ret (inl c.2)
    else Ret (inr (-1))).

Definition WakeIdleWorkers (count : Z) : prog world unit :=
  loop 0 (fun i =>
    if i <? count then
      idle_id <- PopIdleWorker ;;
      if idle_id <? 0 then Ret (inr tt)
      else
        w <- load_at workers_atomic_ idle_id ;;
        match w with
        | Some w => WakeUp w ;;; Ret (inl (i + 1))
        | None => Ret (inl (i + 1))
        end
    else Ret (inr tt)).

Definition WakeAllWorkers : prog world unit :=
  lock workers_mutex_ ;;;
  ws <- load workers_ ;;
  loop ws (fun ws => match ws with
                     | [] => Ret (inr tt)
                     | w :: ws => WakeUp w ;;; Ret (inl ws)
                     end) ;;;
  unlock workers_mutex_.

Definition GetWorker (index : Z) : prog world (option ptr) :=
  if (0 <=? index) && (index <? MAX_WORKERS) then load_at workers_atomic_ index else Ret None.

Definition WorkerReady : prog world unit := fetch workers_ready_ (fun n => i32 (n + 1)) ;;; Ret tt.

Definition RegisterIdleWorkerForTest (worker_id : Z) : prog world unit := RegisterIdleWorker worker_id.
Definition ResetIdleRegistryForTest : prog world unit := store idle_head_ (-1).

(** ** Starting *)

(** [std::call_once]: others wait until the call in progress is over. *)
Definition call_once (flag : field world once) (f : prog world unit) : prog world unit :=
  first <- act (fun v => match rd flag v with
                         | NotCalled => Go true (wr flag InProgress v)
                         | InProgress => Block
                         | Called => Go false v
                         end) ;;
  if first : bool then f ;;; store flag Called else Ret tt.

(** [new Worker(i)]. *)
Definition new_Worker (i : Z) : prog world ptr :=
  act (fun v => let w := rd (sub mem Task.brk) v in
                Go w (wr (sub mem Task.brk) (1 + w)%nat
                       (wr workers (<[w := Worker i]> (v_workers v)) v))).

Definition StartWorkers (count : Z) : prog world unit :=
  lock workers_mutex_ ;;;
  loop 0 (fun i =>
    if i <? count then
      w <- new_Worker i ;;
      on w (store thread Started) ;;;
      fetch workers_ (fun ws => ws ++ [w]) ;;;
      store_at workers_atomic_ i (Some w) ;;;
      Ret (inl (i + 1))
    else Ret (inr tt)) ;;;
  store worker_count_ count ;;;
  unlock workers_mutex_.

(** The number of workers wanted: as configured, or one per processor, or 4. *)
Definition wanted (configured hardware : Z) : Z :=
  if configured <=? 0 then (if hardware =? 0 then 4 else hardware) else configured.

Definition Init : prog world unit :=
  call_once init_once_ (
    c <- load configured_count_ ;;
    h <- load hardware_concurrency ;;
    let n := wanted c h in
    store running_ true ;;;
    StartWorkers n ;;;
    zoom group (TaskGroup.set_worker_count n) ;;;
    zoom global_queue_ (SharedMPSCQueue.Init n) ;;;
    act (fun v => if n <=? v_workers_ready_ v then Go tt v else Block) ;;;
    store initialized_ true).

Definition Init_count (worker_count : Z) : prog world unit :=
  store configured_count_ worker_count ;;; Init.

Definition GetTimeOfDayUs : prog world Z :=
  act (fun v => Go (match v_timer_thread_ v with
                    | Some t => Timer.t_now t
                    | None => v_clock v
                    end) v).

(** Returns with the timer thread existing; it is used through [on_timer]. *)
Definition GetTimerThread : prog world unit :=
  call_once timer_init_flag_ (
    lock timer_mutex_ ;;;
    t <- load timer_thread_ ;;
    (match t with
     | Some _ => Ret tt
     | None =>
         now <- load clock ;;
         store timer_thread_ (Some (Timer.TimerThread now)) ;;;
         c <- load configured_count_ ;;
         n <- load worker_count_ ;;
         h <- load hardware_concurrency ;;
         zoom_opt timer_thread_ (Timer.Init (wanted (if 0 <? c then c else n) h)) ;;;
         zoom_opt timer_thread_ Timer.Start ;;;
         Ret tt
     end) ;;;
    unlock timer_mutex_).

(** [GetTimerThread()->...]. *)
Definition on_timer {A} (p : prog Timer.timer A) : prog world A :=
  GetTimerThread ;;; zoom_opt timer_thread_ p.

(** ** Tasks *)

Definition Submit (self : who) (task : ptr) : prog world unit :=
  ready <- load initialized_ ;;
  (if ready : bool then Ret tt else Init) ;;;
  set tasks task Task.state Task.READY ;;;
  current <- Current self ;;
  match current with
  | Some w =>
      on w (zoom local_queue_ (WorkStealingQueue.Push task)) ;;;
      WakeIdleWorkers 1
  | None =>
      zoom global_queue_ (SharedMPSCQueue.Push task) ;;;
      WakeIdleWorkers 1
  end.

Definition EnqueueTask (self : who) (task : ptr) : prog world unit := Submit self task.

Definition PopGlobal (worker_id : Z) : prog world (option ptr) :=
  zoom global_queue_ (SharedMPSCQueue.Pop worker_id).

(** The round of the other workers' queues. *)
Definition steal_round (id wc : Z) : prog world (option ptr) :=
  let start := Z.rem (id + 1) wc in
  let attempts := wc * 2 in
  loop 0 (fun i =>
    if i <? attempts then
      let victim := Z.rem (start + i) wc in
      if victim =? id then Ret (inl (i + 1))
      else
        other <- GetWorker victim ;;
        match other with
        | Some o =>
            task <- on o (zoom local_queue_ WorkStealingQueue.Steal) ;;
            match task with
            | Some _ => Ret (inr task)
            | None => Ret (inl (i + 1))
            end
        | None => Ret (inl (i + 1))
        end
    else Ret (inr None)).

Definition PickTask (w : ptr) : prog world (option ptr) :=
  task <- on w PickTask_local ;;
  match task with
  | Some _ => Ret task
  | None =>
      id <- on w (load id_) ;;
      task <- PopGlobal id ;;
      match task with
      | Some _ => Ret task
      | None =>
          wc <- load worker_count_ ;;
          if wc <=? 1 then Ret None else steal_round id wc
      end
  end.

Definition YieldCurrent (self : who) (w : ptr) : prog world Z :=
  current <- on w (load current_task_) ;;
  match current with
  | None => Ret Platform.EINVAL
  | Some t =>
      n <- on w (load batch_count_) ;;
      alone <- (if n =? 0 then on w (zoom local_queue_ WorkStealingQueue.Empty) else Ret false) ;;
      if alone : bool then Ret 0
      else
        set tasks t Task.state Task.READY ;;;
        on w (push_batch t) ;;;
        on w MaybeFlushBatch ;;;
        SuspendCurrent self w ;;;
        Ret 0
  end.

(** Whether the local or the global queue holds a task. *)
Definition task_queued (w : ptr) : prog world bool :=
  e <- on w (zoom local_queue_ WorkStealingQueue.Empty) ;;
  if e : bool then e <- zoom global_queue_ SharedMPSCQueue.Empty ;; Ret (negb e) else Ret true.

Definition MAX_SPINS : Z := 50.
Definition SPIN_CHECK_INTERVAL : Z := 5.

(** A round of [WaitForTask] with the given spin count: [inr] returns. *)
Definition wait_round (w : ptr) (spin_count : Z) : prog world (Z + unit) :=
  stop <- on w IsStopped ;;
  if stop : bool then Ret (inr tt)
  else
    q <- task_queued w ;;
    if q : bool then Ret (inr tt)
    else if spin_count <? MAX_SPINS then
      pause ;;;
      let spin_count := spin_count + 1 in
      if Z.rem spin_count SPIN_CHECK_INTERVAL =? 0 then
        q <- task_queued w ;;
        if q : bool then Ret (inr tt) else Ret (inl spin_count)
      else Ret (inl spin_count)
    else
      trace_worker w 1 ;;;
      on w (store is_idle_ true) ;;;
      id <- on w (load id_) ;;
      RegisterIdleWorker id ;;;
      expected <- on w (load wake_count_) ;;
      p <- on w (load wake_pending_) ;;
      Trace id 2 expected (Z.b2z p) 1 ;;;
      q <- task_queued w ;;
      woken <- (if q : bool then Ret true else on w (load wake_pending_)) ;;
      if woken : bool then on w (store is_idle_ false) ;;; Ret (inl 0)
      else
        p <- on w (load wake_pending_) ;;
        Trace id 3 expected (Z.b2z p) 1 ;;;
        on w (Platform.FutexWait wake_count_ expected (Some (0, 1000000))) ;;;
        n <- on w (load wake_count_) ;;
        p <- on w (load wake_pending_) ;;
        Trace id 4 n (Z.b2z p) 0 ;;;
        on w (store is_idle_ false) ;;;
        Ret (inl 0).

Definition WaitForTask (w : ptr) : prog world unit := loop 0 (wait_round w).

(** ** Shutting down *)

(** [delete w], with the destructor of [Worker]. *)
Definition delete_Worker (w : ptr) : prog world unit :=
  DrainStackPool w ;;;
  DrainTaskCache w ;;;
  act (fun v => match v_workers v !! w with
                | Some _ => Go tt (wr workers (delete w (v_workers v)) v)
                | None => Bad
                end).

(** [JoinThread(w->thread())]. *)
Definition JoinThread (w : ptr) : prog world unit :=
  th <- on w (load thread) ;;
  act (fun v => match w_thread <$> v_workers v !! w with
                | Some Exited => Go tt v
                | Some _ => Block
                | None => Bad
                end).

(** Visiting a list. *)
Definition for_each {A} (l : list A) (f : A -> prog world unit) : prog world unit :=
  loop l (fun l => match l with [] => Ret (inr tt) | x :: l => f x ;;; Ret (inl l) end).

(** A shutdown attempt: stop every worker and queue every suspended task. *)
Definition stop_attempt (self : who) : prog world unit :=
  lock workers_mutex_ ;;;
  ws <- load workers_ ;;
  for_each ws Stop ;;;
  suspended <- zoom group TaskGroup.GetSuspendedTasks ;;
  for_each suspended (fun t =>
    set tasks t Task.is_waiting false ;;;
    set tasks t Task.waiting_butex None ;;;
    set tasks t Task.state Task.READY ;;;
    EnqueueTask self t) ;;;
  pause ;;;
  unlock workers_mutex_.

Definition Shutdown (self : who) : prog world unit :=
  r <- load running_ ;;
  if r : bool then
    store running_ false ;;;
    _ <- load worker_count_ ;;
    for_each (seq 0 10) (fun _ => stop_attempt self) ;;;
    pause ;;;
    lock workers_mutex_ ;;;
    ws <- load workers_ ;;
    unlock workers_mutex_ ;;;
    for_each ws (fun w => JoinThread w ;;; delete_Worker w) ;;;
    lock workers_mutex_ ;;;
    store workers_ [] ;;;
    unlock workers_mutex_ ;;;
    store worker_count_ 0 ;;;
    t <- load timer_thread_ ;;
    match t with
    | Some _ => zoom_opt timer_thread_ Timer.Stop ;;; store timer_thread_ None
    | None => Ret tt
    end
  else Ret tt.

(** ** The registry of idle workers *)

(** The registered workers [l], last registered first. *)
Record registry (v : world) (l : list Z) : Prop := {
  reg_head : v_idle_head_ v = default (-1) (head l);
  reg_links : forall k x, l !! k = Some x ->
    v_idle_next_ v !! Z.to_nat x = Some (default (-1) (l !! S k));
  reg_room : Z.of_nat (length (v_idle_next_ v)) = MAX_WORKERS;
  reg_range : forall x, x ∈ l -> 0 <= x < MAX_WORKERS;
  reg_nodup : NoDup l;
}.

(** Nothing but the registry changes. *)
Definition same_but_registry (v v' : world) : Prop :=
  v' = wr idle_head_ (v_idle_head_ v') (wr idle_next_ (v_idle_next_ v') v).

Lemma RegisterIdleWorker_registry v l x : registry v l -> 0 <= x < MAX_WORKERS -> x ∉ l ->
  wp (RegisterIdleWorker x) (fun _ v' => registry v' (x :: l) /\ same_but_registry v v') v.
Proof.
  intros [H1 H2 H3 H4 H5] Hx Hn. unfold RegisterIdleWorker. apply wp_load_bind, wp_loop_once. simpl.
  eapply wp_store_at_bind; [simpl; lia|]. apply wp_cas_weak_bind; simpl; [intros _|done]. wp_go.
  split; [|by destruct v]. split; simpl; try done.
  - intros [|k] y Hy; simpl in Hy.
    + injection Hy as <-. rewrite list_lookup_insert_eq by lia. by rewrite H1, head_lookup.
    + assert (Z.to_nat x <> Z.to_nat y).
      { assert (y ∈ l) by (by eapply list_elem_of_lookup_2). pose proof (H4 y ltac:(done)).
        intros E. apply Hn. by replace x with y by lia. }
      rewrite list_lookup_insert_ne by done. by apply H2.
  - by rewrite length_insert.
  - intros y [-> |Hy]%elem_of_cons; [done|by apply H4].
  - by constructor.
Qed.

Lemma PopIdleWorker_registry v l : registry v l ->
  wp PopIdleWorker (fun r v' => r = default (-1) (head l) /\ registry v' (tail l) /\
                                same_but_registry v v') v.
Proof.
  intros H. destruct H as [H1 H2 H3 H4 H5]. unfold PopIdleWorker. apply wp_load_bind, wp_loop_once.
  simpl. rewrite H1. destruct l as [|x l]; simpl in *.
  - wp_go. split; [done|]. split; [by split|by destruct v].
  - pose proof (H4 x ltac:(by left)) as Hx. rewrite (proj2 (Z.leb_le 0 x)) by lia.
    pose proof (H2 O x eq_refl) as Hl. eapply wp_load_at_bind; [lia|exact Hl|].
    apply wp_cas_weak_bind; simpl; [intros _|by rewrite H1]. wp_go. split; [done|].
    split; [|by destruct v]. apply list.NoDup_cons in H5 as [Hn H5]. split; simpl; try done.
    + by rewrite <- head_lookup.
    + intros k y Hy. exact (H2 (S k) y Hy).
    + intros y Hy. apply H4. by right.
Qed.

(** A worker that registers when it is first in the list already (its wait was
    over before anyone took it out) links to itself. *)
Definition looped (v : world) (x : Z) : Prop :=
  0 <= x < MAX_WORKERS /\ v_idle_head_ v = x /\ v_idle_next_ v !! Z.to_nat x = Some x.

Lemma PopIdleWorker_looped v x : looped v x ->
  wp PopIdleWorker (fun r v' => r = x /\ looped v' x) v.
Proof.
  intros (Hx & Hh & Hn). unfold PopIdleWorker. apply wp_load_bind, wp_loop_once. simpl. rewrite Hh.
  rewrite (proj2 (Z.leb_le 0 x)) by lia. eapply wp_load_at_bind; [lia|exact Hn|].
  apply wp_cas_weak_bind; simpl; [intros _|by rewrite Hh]. by wp_go.
Qed.

Fixpoint pop_idle_n (n : nat) : prog world (list Z) :=
  match n with
  | O => Ret []
  | S n => x <- PopIdleWorker ;; l <- pop_idle_n n ;; Ret (x :: l)
  end.

(** When the worker that registered last registers again, its link points to
    itself: popping returns it forever and the other idle workers are lost. *)
Theorem reregistering_loses_the_others v x l n (H : registry v (x :: l)) :
  wp (RegisterIdleWorker x ;;; pop_idle_n n) (fun r _ => r = replicate n x) v.
Proof.
  pose proof (reg_range _ _ H x ltac:(by left)) as Hx. pose proof (reg_room _ _ H) as Hr.
  unfold RegisterIdleWorker. apply wp_assoc, wp_load_bind. simpl. apply wp_bind, wp_loop_once.
  rewrite (reg_head _ _ H). simpl. eapply wp_store_at_bind; [simpl; lia|].
  apply wp_cas_weak_bind; simpl; [intros _|by rewrite (reg_head _ _ H)]. wp_go.
  match goal with |- wp _ _ ?s => assert (Hl : looped s x) end.
  { split; [done|]. split; [done|]. simpl. apply list_lookup_insert_eq. lia. }
  revert Hl. match goal with |- looped ?s x -> _ => generalize s end. clear.
  induction n as [|n IH]; intros v Hl; simpl; [by wp_go|].
  apply wp_bind. eapply wp_mono; [by apply PopIdleWorker_looped|]. intros r v' [-> Hl'].
  apply wp_bind. eapply wp_mono; [by apply IH|]. intros r v'' ->. by wp_go.
Qed.

(** ** The trace log *)

Lemma Trace_overflow v a b c d e : v_trace_idx v < 0 -> goes_wrong (Trace a b c d e) v.
Proof.
  intros H. unfold Trace. apply wrong_act. simpl. rewrite (proj2 (Z.ltb_lt _ _)) by (unfold MAX_TRACE; lia).
  apply wrong_act. simpl. rewrite (proj2 (Z.leb_gt 0 _)) by lia. done.
Qed.

(** [n] more entries can be traced. *)
Definition trace_room (v : world) (n : Z) : Prop :=
  0 <= v_trace_idx v /\ v_trace_idx v + n <= INT_MAX /\
  Z.of_nat (length (v_trace_buffer v)) = MAX_TRACE.

Definition same_but_trace (v v' : world) : Prop :=
  v' = wr trace_idx (v_trace_idx v') (wr trace_buffer (v_trace_buffer v') v).

Lemma Trace_room v n a b c d e : trace_room v n -> 0 < n ->
  wp (Trace a b c d e) (fun _ v' => trace_room v' (n - 1) /\ same_but_trace v v') v.
Proof.
  intros (H1 & H2 & H3) Hn. unfold Trace. apply wp_fetch_bind. simpl.
  rewrite i32_small by (unfold INT_MIN, INT_MAX in *; lia).
  assert (forall b', Z.of_nat (length b') = MAX_TRACE ->
    trace_room (wr trace_buffer b' (wr trace_idx (v_trace_idx v + 1) v)) (n - 1) /\
    same_but_trace v (wr trace_buffer b' (wr trace_idx (v_trace_idx v + 1) v))) as Hfin.
  { intros b' Hb'. split; [|by destruct v]. unfold trace_room. simpl. split; [lia|]. by split; [lia|]. }
  destruct (Z.ltb_spec (v_trace_idx v) MAX_TRACE) as [Hlt|Hge].
  - unfold store_at. apply wp_act_last. simpl.
    rewrite (proj2 (Z.leb_le 0 _)), (proj2 (Z.ltb_lt _ _)) by lia. apply Hfin. by rewrite length_insert.
  - wp_go. specialize (Hfin _ H3). by destruct v.
Qed.

Lemma trace_worker_room v n w x ev : v_workers v !! w = Some x -> trace_room v n -> 0 < n ->
  wp (trace_worker w ev) (fun _ v' => trace_room v' (n - 1) /\ same_but_trace v v') v.
Proof.
  intros Hx Hr Hn. unfold trace_worker. do 4 (eapply wp_on_load_bind; [exact Hx|]).
  by apply Trace_room.
Qed.

(** What [WakeUp] does to the worker. *)
Definition woken (x : worker) : worker :=
  wr wake_pending_ false (wr wake_count_ (i32 (w_wake_count_ x + 1)) x).

(** Only workers and the trace log change. *)
Definition workers_and_trace (v v' : world) : Prop :=
  v' = wr workers (v_workers v') (wr trace_idx (v_trace_idx v') (wr trace_buffer (v_trace_buffer v') v)).

Lemma same_trace_workers v v' : same_but_trace v v' -> v_workers v' = v_workers v.
Proof. intros ->. done. Qed.

Lemma WakeUp_woken v n w x : v_workers v !! w = Some x -> trace_room v n -> 1 < n ->
  wp (WakeUp w) (fun _ v' => v_workers v' = <[w := woken x]> (v_workers v) /\
    trace_room v' (n - 2) /\ workers_and_trace v v') v.
Proof.
  intros Hx Hr Hn. unfold WakeUp. apply wp_bind. eapply wp_mono; [apply (trace_worker_room v n w x 5 Hx Hr); lia|].
  intros [] v1 [Hr1 H1]. pose proof (same_trace_workers _ _ H1) as Ew.
  eapply wp_on_bind; [by rewrite Ew|]. apply wp_store.
  eapply wp_on_bind; [apply lookup_insert_eq|]. apply wp_fetch. apply wp_pause_bind.
  apply wp_bind. eapply wp_mono; [eapply trace_worker_room; [apply lookup_insert_eq|exact Hr1|lia]|].
  intros [] v2 [Hr2 H2]. pose proof (same_trace_workers _ _ H2) as Ew2.
  eapply wp_on; [rewrite Ew2; apply lookup_insert_eq|]. apply wp_store. simpl in *.
  rewrite Ew2. simpl. rewrite !insert_insert_eq, Ew. split; [by destruct x|].
  split; [replace (n - 2) with (n - 1 - 1) by lia; exact Hr2|].
  unfold workers_and_trace, same_but_trace in *. simpl. rewrite H2. rewrite H1. simpl. by destruct v.
Qed.

(** What is done to the first registered worker, if it is alive. *)
Definition wake_first (v : world) (l : list Z) (ws : gmap ptr worker) : Prop :=
  match l with
  | [] => ws = v_workers v
  | i :: _ => match v_workers_atomic_ v !! Z.to_nat i with
              | Some (Some w) => exists x, v_workers v !! w = Some x /\ ws = <[w := woken x]> (v_workers v)
              | _ => ws = v_workers v
              end
  end.

(** The pointers kept in [workers_atomic_] are those of live workers. *)
Definition atomic_ok (v : world) : Prop :=
  Z.of_nat (length (v_workers_atomic_ v)) = MAX_WORKERS /\
  forall i w, v_workers_atomic_ v !! i = Some (Some w) -> is_Some (v_workers v !! w).

(** Only the registry, the workers and the trace log change. *)
Definition waking_only (v v' : world) : Prop :=
  v' = wr idle_head_ (v_idle_head_ v') (wr idle_next_ (v_idle_next_ v')
         (wr workers (v_workers v') (wr trace_idx (v_trace_idx v')
           (wr trace_buffer (v_trace_buffer v') v)))).

Lemma WakeIdleWorkers_one v n l : registry v l -> atomic_ok v -> trace_room v n -> 1 < n ->
  wp (WakeIdleWorkers 1) (fun _ v' => registry v' (tail l) /\ wake_first v l (v_workers v') /\
    trace_room v' (n - 2) /\ waking_only v v') v.
Proof.
  intros Hreg [Hlen Hat] Hr Hn. unfold WakeIdleWorkers. apply wp_loop_once. simpl.
  apply wp_bind. eapply wp_mono; [by apply PopIdleWorker_registry|].
  intros r v1 (-> & Hreg1 & H1). destruct l as [|i l]; simpl.
  - wp_go. split; [exact Hreg1|]. rewrite H1. simpl. split; [done|].
    split; [destruct Hr as (? & ? & ?); split_and!; simpl; lia || done|]. by destruct v.
  - pose proof (reg_range _ _ Hreg i ltac:(by left)) as Hi. rewrite (proj2 (Z.ltb_ge i 0)) by lia.
    assert (Ea : v_workers_atomic_ v1 = v_workers_atomic_ v) by (rewrite H1; done).
    assert (Ew : v_workers v1 = v_workers v) by (rewrite H1; done).
    assert (Hr1 : trace_room v1 n) by (rewrite H1; exact Hr).
    destruct (lookup_lt_is_Some_2 (v_workers_atomic_ v) (Z.to_nat i)) as [o Ho]; [lia|].
    eapply wp_load_at_bind; [lia|simpl; rewrite Ea; exact Ho|]. rewrite Ho. destruct o as [w|].
    + destruct (Hat _ _ Ho) as [x Hx]. apply wp_bind.
      eapply wp_mono; [by eapply WakeUp_woken; [rewrite Ew|..]|].
      intros [] v2 (Hw2 & Hr2 & H2). wp_go. apply wp_loop_once. simpl. wp_go.
      split. { rewrite H2. destruct Hreg1. by split. }
      split; [exists x; split; [done|]; by rewrite Hw2, Ew|]. split; [exact Hr2|].
      unfold waking_only, same_but_registry, workers_and_trace in *. rewrite H2, H1. by destruct v.
    + wp_go. apply wp_loop_once. simpl. wp_go. split; [exact Hreg1|]. split; [exact Ew|].
      split; [destruct Hr1 as (? & ? & ?); split_and!; simpl; lia || done|].
      unfold waking_only, same_but_registry in *. rewrite H1. by destruct v.
Qed.

(** ** Submitting and picking tasks *)

(** What the scheduler needs in order to queue tasks. *)
Record serving (v : world) (idle : list Z) : Prop := {
  sv_init : v_initialized_ v = true;
  sv_registry : registry v idle;
  sv_atomic : atomic_ok v;
  sv_trace : trace_room v 2;
}.

(** [t] is live and ready. *)
Definition is_ready (v : world) (t : ptr) : Prop :=
  Task.m_state <$> rd tasks v !! t = Some Task.READY.

Lemma waking_only_tasks v v' t : waking_only v v' -> is_ready v t -> is_ready v' t.
Proof. intros ->. done. Qed.

Lemma waking_only_global v v' : waking_only v v' -> rd global_queue_ v' = rd global_queue_ v.
Proof. intros ->. done. Qed.

Lemma wp_set_ready v t (Q : unit -> world -> Prop) (k : unit -> prog world unit) :
  is_Some (rd tasks v !! t) ->
  (forall v', is_ready v' t -> (forall p, is_Some (rd tasks v' !! p) <-> is_Some (rd tasks v !! p)) ->
     v' = wr tasks (rd tasks v') v -> wp (k tt) Q v') ->
  wp (u <- set tasks t Task.state Task.READY ;; k u) Q v.
Proof.
  intros [m Hm] H. eapply wp_set_bind; [exact Hm|]. apply H.
  - unfold is_ready. rewrite rd_wr. by rewrite lookup_insert_eq.
  - intros p. rewrite rd_wr. destruct (decide (p = t)) as [->|Hne];
      [rewrite lookup_insert_eq, Hm; by split; eexists|by rewrite lookup_insert_ne].
  - by rewrite rd_wr.
Qed.

(** C17: A task submitted by a thread outside the runtime is ready and at the
    end of the next shard of the global queue; the last registered idle worker
    is taken off the registry and woken. *)
Theorem Submit_from_outside v n t idle ls (Hv : serving v idle) (Ht : is_Some (rd tasks v !! t))
    (Hq : SharedMPSCQueue.repr (rd global_queue_ v) ls) (Hrr : 0 <= v_round_robin v < INT_MAX)
    (Htot : v_total_count v < INT_MAX) (Hnew : forall l, l ∈ ls -> t ∉ l) :
  wp (Submit (Native n) t) (fun _ v' =>
    is_ready v' t /\ registry v' (tail idle) /\ wake_first v idle (v_workers v') /\
    SharedMPSCQueue.repr (rd global_queue_ v')
      (SharedMPSCQueue.push_to ls (Z.to_nat (Z.rem (v_round_robin v) (v_queue_workers v))) t)) v.
Proof.
  destruct Hv as [H1 H2 H3 H4]. unfold Submit. apply wp_load_bind. simpl. rewrite H1. apply wp_ret_bind.
  apply wp_set_ready; [exact Ht|]. intros v1 Hr _ E1. simpl.
  apply wp_ret_bind. apply wp_zoom_bind; [apply _|].
  assert (Eg : rd global_queue_ v1 = rd global_queue_ v) by (rewrite E1; done). rewrite Eg.
  eapply wp_mono; [by apply (SharedMPSCQueue.shared_push_repr _ ls t Hq)|].
  intros [] s (_ & _ & Hs). set (v2 := wr global_queue_ s v1).
  assert (F : registry v2 idle /\ atomic_ok v2 /\ trace_room v2 2 /\ is_ready v2 t /\
              v_workers v2 = v_workers v /\ v_workers_atomic_ v2 = v_workers_atomic_ v).
  { unfold v2. rewrite E1. split_and!; try done; try (by destruct H2); unfold is_ready in *; rewrite E1 in Hr; exact Hr. }
  destruct F as (F1 & F2 & F3 & F4 & F5 & F6).
  eapply wp_mono; [by apply (WakeIdleWorkers_one v2 2 idle)|].
  intros [] v3 (G1 & G2 & _ & G4). split; [by eapply waking_only_tasks|]. split; [exact G1|].
  split; [unfold wake_first in *; by rewrite F5, F6 in G2|].
  assert (Eg3 : rd global_queue_ v3 = s)
    by (rewrite (waking_only_global _ _ G4); unfold v2; apply rd_wr).
  rewrite <- Eg3 in Hs. exact Hs.
Qed.

(** C18: A task submitted by a worker or a bthread on it, whose ring is not
    full, is ready and at the end of the queue of that worker; the last
    registered idle worker is taken off the registry. *)
Theorem Submit_from_a_worker v self w x t idle b l (Hv : serving v idle)
    (Ht : is_Some (rd tasks v !! t))
    (Hself : forall v', v_workers v' = v_workers v ->
       wp (Current self) (fun r v'' => r = Some w /\ v'' = v') v')
    (Hx : v_workers v !! w = Some x) (Hh : holds x b l)
    (Hcap : Z.of_nat (length l) < WorkStealingQueue.CAPACITY - 1) :
  wp (Submit self t) (fun _ v' =>
    is_ready v' t /\ registry v' (tail idle) /\ rd global_queue_ v' = rd global_queue_ v /\
    exists x', v_workers v' !! w = Some x' /\ holds x' b (l ++ [t])) v.
Proof.
  destruct Hv as [H1 H2 H3 H4]. unfold Submit. apply wp_load_bind. simpl. rewrite H1. apply wp_ret_bind.
  apply wp_set_ready; [exact Ht|]. intros v1 Hr _ E1.
  assert (Ew : v_workers v1 = v_workers v) by (rewrite E1; done).
  apply wp_bind. eapply wp_mono; [by apply Hself|]. intros r v1' [-> ->].
  eapply wp_on_bind; [by rewrite Ew|]. apply wp_zoom; [apply _|]. eapply wp_mono.
  { apply WorkStealingQueue.wsq_push_repr; [apply (holds_queue _ _ _ Hh)|done]. }
  intros [] q Hq.
  assert (Hh' : holds (wr local_queue_ q x) b (l ++ [t])) by (destruct Hh; by split).
  match goal with |- wp _ _ ?s => set (v2 := s) end.
  assert (F : registry v2 idle /\ trace_room v2 2 /\ is_ready v2 t /\
              rd global_queue_ v2 = rd global_queue_ v).
  { unfold v2. unfold is_ready in *. rewrite E1 in *. split_and!; try done; by destruct H2. }
  destruct F as (F1 & F2 & F3 & F4).
  assert (F5 : v_workers v2 !! w = Some (wr local_queue_ q x)) by apply lookup_insert_eq.
  assert (F6 : atomic_ok v2).
  { destruct H3 as [Hlen Hat]. split; [unfold v2; by rewrite E1|]. intros i o Ho.
    unfold v2. simpl. rewrite Ew. destruct (decide (o = w)) as [->|Hne];
      [rewrite lookup_insert_eq; by eexists|rewrite lookup_insert_ne by done].
    apply (Hat i o). unfold v2 in Ho. by rewrite E1 in Ho. }
  eapply wp_mono; [by apply (WakeIdleWorkers_one v2 2 idle)|].
  intros [] v3 (G1 & G2 & _ & G4). split; [by eapply waking_only_tasks|]. split; [exact G1|].
  split; [pose proof (waking_only_global _ _ G4) as Eg; rewrite F4 in Eg; exact Eg|].
  revert G2. unfold wake_first. destruct idle as [|i idle]; [intros ->; by eexists|].
  destruct (v_workers_atomic_ v2 !! Z.to_nat i) as [[o|]|]; [|intros ->; by eexists..].
  intros (y & Hy & ->). destruct (decide (o = w)) as [->|Hne].
  - rewrite lookup_insert_eq. rewrite F5 in Hy. injection Hy as <-. eexists. split; [done|].
    destruct Hh'. by split.
  - rewrite lookup_insert_ne by done. by eexists.
Qed.

Lemma wp_for_each {A} (Inv : list A -> world -> Prop) (l : list A) f v : Inv l v ->
  (forall x l v, Inv (x :: l) v -> wp (f x) (fun _ v' => Inv l v') v) ->
  wp (for_each l f) (fun _ v' => Inv [] v') v.
Proof.
  intros H Hf. unfold for_each. revert v H; induction l as [|x l IH]; intros v H; apply wp_loop_once.
  - by apply wp_ret.
  - apply wp_bind. eapply wp_mono; [by apply Hf|]. intros ? v' Hv. apply wp_ret. by apply IH.
Qed.

(** ** Submitting from anywhere, again and again

    A caller's tasks go to the global queue when it is a thread outside the
    runtime, and to the worker's own queue when it is the loop of worker [w] or a
    bthread that [w] executes. *)
Inductive place :=
| Global (σ : SharedMPSCQueue.spec)
| Local (w : ptr) (b l : list ptr).

Definition place_add (p : place) (ts : list ptr) : place :=
  match p with
  | Global σ => Global (SharedMPSCQueue.spec_run σ (SharedMPSCQueue.OpPush <$> ts)).1
  | Local w b l => Local w b (l ++ ts)
  end.

(** There is room: no counter overflows, no ring is full, and no task is queued
    twice in the global queue. *)
Definition place_fits (p : place) (ts : list ptr) : bool :=
  match p with
  | Global σ => SharedMPSCQueue.spec_fits σ (SharedMPSCQueue.OpPush <$> ts)
  | Local w b l => Z.of_nat (length l) + Z.of_nat (length ts) <? WorkStealingQueue.CAPACITY
  end.

Lemma place_add_nil p : place_add p [] = p.
Proof. destruct p; simpl; [by destruct σ|by rewrite app_nil_r]. Qed.

Lemma place_add_app p ts us : place_add p (ts ++ us) = place_add (place_add p ts) us.
Proof.
  destruct p; simpl; [|by rewrite app_assoc].
  by rewrite fmap_app, SharedMPSCQueue.spec_run_app.
Qed.

Lemma place_fits_app p ts us : place_fits p (ts ++ us) = true ->
  place_fits p ts = true /\ place_fits (place_add p ts) us = true.
Proof.
  destruct p; simpl.
  - rewrite fmap_app, SharedMPSCQueue.spec_fits_app. apply andb_true_iff.
  - rewrite !length_app, !Nat2Z.inj_add, !Z.ltb_lt. lia.
Qed.

(** [self] is worker [w]'s loop or a bthread that [w], and only [w], executes. *)
Definition runs_on (self : who) (v : world) (w : ptr) : Prop :=
  match self with
  | Native _ => False
  | OnLoop w' => w' = w
  | OnStack t => exists x, v_workers v !! w = Some x /\ w_context x = Some t /\
      forall w' x', v_workers v !! w' = Some x' -> w_context x' = Some t -> w' = w
  end.

Lemma runs_on_Current self v w : runs_on self v w -> wp (Current self) (fun r v' => r = Some w /\ v' = v) v.
Proof.
  destruct self as [n|w'|t]; simpl; [done|intros ->; by apply wp_ret|].
  intros (x & Hx & Hc & Hu). apply wp_act_last. by rewrite (worker_on_unique v t w x).
Qed.

Lemma runs_on_same self v v' w :
  (forall w, w_context <$> v_workers v' !! w = w_context <$> v_workers v !! w) -> runs_on self v w -> runs_on self v' w.
Proof.
  intros E. destruct self as [n|w'|t]; simpl; [done..|]. intros (x & Hx & Hc & Hu).
  pose proof (E w) as Ew. rewrite Hx in Ew. apply fmap_Some in Ew as (x' & Hx' & Ex).
  exists x'. split; [done|]. split; [congruence|]. intros w2 x2 H2 Hc2.
  pose proof (E w2) as E2. rewrite H2 in E2. symmetry in E2. apply fmap_Some in E2 as (x3 & H3 & E3).
  apply (Hu w2 x3 H3). congruence.
Qed.

(** What the caller's place holds. *)
Definition place_of (self : who) (v : world) (p : place) : Prop :=
  match p with
  | Global σ => (exists n, self = Native n) /\ SharedMPSCQueue.refines (rd global_queue_ v) σ
  | Local w b l => runs_on self v w /\ exists x, v_workers v !! w = Some x /\ holds x b l
  end.

(** The scheduler can take [k] more tasks from [self], to be put at [p]; [idle]
    are the registered idle workers, the next to be woken first. *)
Record queueing (self : who) (v : world) (idle : list Z) (k : Z) (p : place) : Prop := {
  q_init : v_initialized_ v = true;
  q_registry : registry v idle;
  q_atomic : atomic_ok v;
  q_trace : trace_room v (2 * k);
  q_place : place_of self v p;
}.

(** The part of the state that matters for submitting. *)
Definition same_sched (v v' : world) : Prop :=
  v_initialized_ v' = v_initialized_ v /\ v_idle_head_ v' = v_idle_head_ v /\ v_idle_next_ v' = v_idle_next_ v /\
  v_workers v' = v_workers v /\ v_workers_atomic_ v' = v_workers_atomic_ v /\ v_trace_idx v' = v_trace_idx v /\
  v_trace_buffer v' = v_trace_buffer v /\ rd global_queue_ v' = rd global_queue_ v.

#[export] Instance same_sched_preorder : PreOrder same_sched.
Proof.
  split; [by intros v; split_and!|]. intros v1 v2 v3 H1 H2. unfold same_sched in *. destruct_and?.
  split_and!; congruence.
Qed.

Lemma queueing_same self v v' idle k p : same_sched v v' -> queueing self v idle k p -> queueing self v' idle k p.
Proof.
  intros (E1 & E2 & E3 & E4 & E5 & E6 & E7 & E8) [H1 [] [H3 H3'] [H4 H4'] H5]. split.
  - congruence.
  - split; rewrite ?E2, ?E3; done.
  - split; [congruence|]. by rewrite E4, E5.
  - split; [congruence|]. by rewrite E6, E7.
  - destruct p; simpl in *; [by rewrite E8|]. rewrite E4. split; [|apply H5].
    apply (runs_on_same self v); [by rewrite E4|apply H5].
Qed.

Lemma waking_only_atomic v v' l : waking_only v v' -> wake_first v l (v_workers v') -> atomic_ok v -> atomic_ok v'.
Proof.
  intros Hw Hf [Hlen Hat]. assert (Ea : v_workers_atomic_ v' = v_workers_atomic_ v) by (rewrite Hw; done).
  split; [by rewrite Ea|]. intros i w Hi. rewrite Ea in Hi. specialize (Hat _ _ Hi). revert Hf. unfold wake_first.
  destruct l as [|j l]; [by intros ->|].
  destruct (v_workers_atomic_ v !! Z.to_nat j) as [[o|]|]; [|by intros ->..].
  intros (x & Hx & ->). destruct (decide (o = w)) as [->|Hne];
    [rewrite lookup_insert_eq; by eexists|by rewrite lookup_insert_ne].
Qed.

(** Waking the workers registered as [l], in that order; the pointers are
    those of [workers_atomic_]. *)
Definition wake_worker (atomic : list (option ptr)) (i : Z) (ws : gmap ptr worker) : gmap ptr worker :=
  match atomic !! Z.to_nat i with Some (Some w) => alter woken w ws | _ => ws end.
Fixpoint wake_workers (atomic : list (option ptr)) (l : list Z) (ws : gmap ptr worker) : gmap ptr worker :=
  match l with [] => ws | i :: l => wake_workers atomic l (wake_worker atomic i ws) end.

(** Changing the local queue of the worker at [p], if [p] is a worker. *)
Definition requeued (p : place) (q : WorkStealingQueue.queue) (ws : gmap ptr worker) : gmap ptr worker :=
  match p with Global _ => ws | Local w _ _ => alter (wr local_queue_ q) w ws end.

Lemma wake_workers_app atomic l l' ws :
  wake_workers atomic (l ++ l') ws = wake_workers atomic l' (wake_workers atomic l ws).
Proof. revert ws; induction l as [|i l IH]; intros ws; [done|]. simpl. by rewrite IH. Qed.

Lemma insert_alter (f : worker -> worker) w x (ws : gmap ptr worker) :
  ws !! w = Some x -> <[w := f x]> ws = alter f w ws.
Proof.
  intros Hx. apply map_eq. intros k. destruct (decide (w = k)) as [->|Hne].
  - by rewrite lookup_insert_eq, lookup_alter_eq, Hx.
  - by rewrite lookup_insert_ne, lookup_alter_ne.
Qed.

Lemma alter_comm (f g : worker -> worker) i j (ws : gmap ptr worker) : (forall x, f (g x) = g (f x)) ->
  alter f i (alter g j ws) = alter g j (alter f i ws).
Proof.
  intros H. apply map_eq. intros k. destruct (decide (i = k)) as [->|Hi], (decide (j = k)) as [->|Hj];
    rewrite ?lookup_alter_eq, ?lookup_alter_ne, ?lookup_alter_eq, ?lookup_alter_ne by done; try done.
  destruct (ws !! k); simpl; by rewrite ?H.
Qed.

Lemma wake_workers_requeued atomic l p q ws :
  wake_workers atomic l (requeued p q ws) = requeued p q (wake_workers atomic l ws).
Proof.
  destruct p as [σ|w b ts]; [done|]. simpl. revert ws; induction l as [|i l IH]; intros ws; [done|]. simpl.
  unfold wake_worker. destruct (atomic !! Z.to_nat i) as [[o|]|]; [|apply IH..].
  rewrite alter_comm by (intros []; reflexivity). apply IH.
Qed.

Lemma requeued_requeued p q q' ws ts : requeued (place_add p ts) q' (requeued p q ws) = requeued p q' ws.
Proof.
  destruct p as [σ|w b l]; [done|]. simpl. apply map_eq. intros k. destruct (decide (w = k)) as [->|Hne].
  - rewrite !lookup_alter_eq. by destruct (ws !! k).
  - by rewrite !lookup_alter_ne.
Qed.

(** Waking changes nothing but the two members that say so. *)
Lemma wake_workers_lookup atomic l ws w x : ws !! w = Some x ->
  exists p c, wake_workers atomic l ws !! w = Some (wr wake_pending_ p (wr wake_count_ c x)).
Proof.
  revert ws x; induction l as [|i l IH]; intros ws x Hx; simpl.
  - exists (w_wake_pending_ x), (w_wake_count_ x). rewrite Hx. by destruct x.
  - unfold wake_worker. destruct (atomic !! Z.to_nat i) as [[o|]|]; [|by apply IH..].
    destruct (decide (o = w)) as [->|Hne].
    + destruct (IH (alter woken w ws) (woken x)) as (p & c & E); [by rewrite lookup_alter_eq, Hx|].
      exists p, c. rewrite E. by destruct x.
    + apply IH. by rewrite lookup_alter_ne.
Qed.

Lemma alter_context f w w' (ws : gmap ptr worker) : (forall x, w_context (f x) = w_context x) ->
  w_context <$> alter f w ws !! w' = w_context <$> ws !! w'.
Proof.
  intros H. destruct (decide (w = w')) as [->|Hne]; [|by rewrite lookup_alter_ne].
  rewrite lookup_alter_eq. destruct (ws !! w'); simpl; by rewrite ?H.
Qed.

Lemma wake_workers_context atomic l ws w : w_context <$> wake_workers atomic l ws !! w = w_context <$> ws !! w.
Proof.
  revert ws; induction l as [|i l IH]; intros ws; [done|]. simpl. rewrite IH. unfold wake_worker.
  destruct (atomic !! Z.to_nat i) as [[o|]|]; [|done..]. apply alter_context. by intros [].
Qed.

(** From [v] to [v'] the workers registered as [l] have been woken; besides that
    only the local queue of the worker at [p] may have changed. *)
Definition woke (p : place) (v v' : world) (l : list Z) : Prop :=
  v_workers_atomic_ v' = v_workers_atomic_ v /\
  exists q, v_workers v' = requeued p q (wake_workers (v_workers_atomic_ v) l (v_workers v)).

Lemma woke_nil self v p : place_of self v p -> woke p v v [].
Proof.
  intros H. split; [done|]. destruct p as [σ|w b l]; [by exists WorkStealingQueue.WorkStealingQueue|].
  destruct H as (_ & x & Hx & _). exists (w_local_queue_ x). unfold requeued. cbn [wake_workers].
  rewrite <- (insert_alter _ w x) by done.
  assert (E : wr local_queue_ (w_local_queue_ x) x = x) by by destruct x. by rewrite E, insert_id.
Qed.

Lemma woke_app p ts v v1 v2 l l' : woke p v v1 l -> woke (place_add p ts) v1 v2 l' -> woke p v v2 (l ++ l').
Proof.
  intros [E1 (q1 & H1)] [E2 (q2 & H2)]. split; [congruence|]. exists q2.
  rewrite H2, E1, H1, wake_workers_requeued, requeued_requeued, wake_workers_app. done.
Qed.

(** No worker executes another context than before. *)
Lemma woke_context p v v' l w : woke p v v' l -> w_context <$> v_workers v' !! w = w_context <$> v_workers v !! w.
Proof.
  intros [_ (q & ->)]. rewrite <- (wake_workers_context (v_workers_atomic_ v) l (v_workers v) w).
  destruct p as [σ|w' b ts]; [done|]. apply alter_context. by intros [].
Qed.

Lemma wake_first_workers v l ws : wake_first v l ws -> ws = wake_workers (v_workers_atomic_ v) (take 1 l) (v_workers v).
Proof.
  unfold wake_first. destruct l as [|i l]; [done|]. simpl. unfold wake_worker.
  destruct (v_workers_atomic_ v !! Z.to_nat i) as [[w|]|]; [|done..].
  intros (x & Hx & ->). by apply insert_alter.
Qed.

(** [self] has submitted the tasks [ts]: they are at the end of its place, in
    that order, and for each an idle worker, while there was one, has been taken
    off the registry and woken. *)
Record submitted (self : who) (v v' : world) (idle : list Z) (k : Z) (p : place) (ts : list ptr) : Prop := {
  sb_queueing : queueing self v' (drop (length ts) idle) (k - Z.of_nat (length ts)) (place_add p ts);
  sb_woke : woke p v v' (take (length ts) idle);
}.

Lemma submitted_nil self v idle k p : queueing self v idle k p -> submitted self v v idle k p [].
Proof.
  intros H. split; simpl; [by rewrite drop_0, Z.sub_0_r, place_add_nil|].
  rewrite take_0. eapply woke_nil, q_place, H.
Qed.

Lemma submitted_app self v v1 v2 idle k p ts us : submitted self v v1 idle k p ts ->
  submitted self v1 v2 (drop (length ts) idle) (k - Z.of_nat (length ts)) (place_add p ts) us ->
  submitted self v v2 idle k p (ts ++ us).
Proof.
  intros [H1 H2] [H3 H4]. split.
  - rewrite length_app, place_add_app, Nat2Z.inj_add, Z.sub_add_distr, <- drop_drop. exact H3.
  - rewrite length_app, <- take_take_drop. by eapply woke_app.
Qed.

(** What does not matter for submitting may change before and after. *)
Lemma submitted_same self v v1 v2 v3 idle k p ts : same_sched v v1 -> submitted self v1 v2 idle k p ts ->
  same_sched v2 v3 -> submitted self v v3 idle k p ts.
Proof.
  intros E1 [H1 [H2 (q & H3)]] E2. split; [by eapply queueing_same|].
  destruct E1 as (_ & _ & _ & E1 & E1' & _). destruct E2 as (_ & _ & _ & E2 & E2' & _).
  split; [congruence|]. exists q. by rewrite E2, H3, E1, E1'.
Qed.

(** The synchronisation objects, their queues and the coroutines are as they
    were. *)
Definition same_sync (v v' : world) : Prop :=
  v_events v' = v_events v /\ v_conds v' = v_conds v /\ v_mutexes v' = v_mutexes v /\
  v_waiter_queues v' = v_waiter_queues v /\
  rd (sub mem Task.waiter_next) v' = rd (sub mem Task.waiter_next) v /\
  v_coroutines v' = v_coroutines v.

(** The task pool is as it was, but for the tasks. *)
Definition same_pool (v v' : world) : Prop :=
  TaskGroup.g_task_pool (v_group v') = TaskGroup.g_task_pool (v_group v) /\
  TaskGroup.g_free_slots (v_group v') = TaskGroup.g_free_slots (v_group v) /\
  TaskGroup.g_free_head (v_group v') = TaskGroup.g_free_head (v_group v) /\
  TaskGroup.g_generations (v_group v') = TaskGroup.g_generations (v_group v) /\
  Task.mem_brk (rd mem v') = Task.mem_brk (rd mem v).

(** The end of [Submit]: the task is in its place. *)
Lemma submit_wakes self v v2 idle k p t : 0 < k -> registry v2 idle -> atomic_ok v2 -> trace_room v2 (2 * k) ->
  v_initialized_ v2 = true -> v_workers_atomic_ v2 = v_workers_atomic_ v ->
  (exists q, v_workers v2 = requeued p q (v_workers v)) -> place_of self v2 (place_add p [t]) ->
  wp (WakeIdleWorkers 1) (fun _ v' => submitted self v v' idle k p [t] /\ waking_only v2 v') v2.
Proof.
  intros Hk F1 F2 F3 F4 F5 (q & F6) F7.
  eapply wp_mono; [apply (WakeIdleWorkers_one v2 (2 * k) idle F1 F2 F3); lia|].
  intros [] v3 (G1 & G2 & G3 & G4). pose proof (waking_only_atomic _ _ _ G4 G2 F2) as G5.
  assert (Ew : v_workers v3 = wake_workers (v_workers_atomic_ v2) (take 1 idle) (v_workers v2))
    by by apply wake_first_workers.
  assert (Et : forall l : list Z, tail l = drop 1 l) by (intros []; simpl; by rewrite ?drop_0).
  split; [|exact G4]. split; [split|split].
  - rewrite G4. exact F4.
  - simpl. by rewrite <- Et.
  - exact G5.
  - replace (2 * (k - Z.of_nat (length [t]))) with (2 * k - 2) by (cbn [length]; lia). exact G3.
  - destruct p as [σ|w b l]; cbn [place_of place_add] in F7 |- *.
    + by rewrite (waking_only_global _ _ G4).
    + destruct F7 as (R & x & Hx & Hh). split.
      * apply (runs_on_same self v2); [|exact R]. intros w'. rewrite Ew. apply wake_workers_context.
      * destruct (wake_workers_lookup (v_workers_atomic_ v2) (take 1 idle) (v_workers v2) w x Hx) as (a & c & E).
        rewrite Ew. eexists. split; [exact E|]. destruct Hh. by split.
  - rewrite <- F5, G4. done.
  - exists q. rewrite Ew, F6, F5. apply wake_workers_requeued.
Qed.

Lemma Submit_submits self v t m idle k p : queueing self v idle k p -> 0 < k -> rd tasks v !! t = Some m ->
  place_fits p [t] = true ->
  wp (Submit self t) (fun _ v' => submitted self v v' idle k p [t] /\
    rd tasks v' = <[t := wr Task.state Task.READY m]> (rd tasks v) /\ rd butexes v' = rd butexes v /\
    same_sync v v' /\ same_pool v v' /\ v_made v' = v_made v) v.
Proof.
  intros [H1 H2 H3 H4 H5] Hk Ht Hfit. unfold Submit. apply wp_load_bind. simpl. rewrite H1. apply wp_ret_bind.
  eapply wp_set_bind; [exact Ht|]. match goal with |- wp _ _ ?s => set (v1 := s) end.
  assert (T1 : rd tasks v1 = <[t := wr Task.state Task.READY m]> (rd tasks v)) by apply rd_wr.
  destruct p as [σ|w b l]; cbn [place_of place_fits] in H5, Hfit.
  - destruct H5 as [(n & ->) H5]. apply wp_ret_bind. apply wp_zoom_bind; [apply _|].
    assert (Eg : rd global_queue_ v1 = rd global_queue_ v) by done. rewrite Eg.
    pose proof (SharedMPSCQueue.shared_op_refines _ _ _ H5 Hfit) as Hp. simpl in Hp.
    apply wp_bind_inv in Hp. eapply wp_mono; [exact Hp|]. intros [] s [_ Hs]%wp_ret_inv.
    set (v2 := wr global_queue_ s v1).
    assert (Eg2 : rd global_queue_ v2 = s) by apply rd_wr. rewrite <- Eg2 in Hs.
    eapply wp_mono; [apply (submit_wakes (Native n) v v2 idle k (Global σ) t Hk); try done|].
    + by destruct H2.
    + by exists WorkStealingQueue.WorkStealingQueue.
    + split; [by exists n|]. simpl. by destruct (SharedMPSCQueue.spec_step σ (SharedMPSCQueue.OpPush t)).
    + intros [] v3 (S & G4). split; [exact S|].
      split; [transitivity (rd tasks v2); [rewrite G4; done|exact T1]|].
      split; [transitivity (rd butexes v2); [rewrite G4; done|done]|].
      split; [unfold same_sync; rewrite G4; done|]. split; [unfold same_pool; rewrite G4; done|rewrite G4; done].
  - destruct H5 as (Hself & x & Hx & Hh). apply wp_bind.
    eapply wp_mono; [apply (runs_on_Current self v1 w); exact Hself|]. intros r v1' [-> ->].
    eapply wp_on_bind; [exact Hx|]. apply wp_zoom; [apply _|]. eapply wp_mono.
    { apply WorkStealingQueue.wsq_push_repr; [apply (holds_queue _ _ _ Hh)|]. apply Z.ltb_lt in Hfit. simpl in Hfit. lia. }
    intros [] q Hq. set (y := wr local_queue_ q x).
    assert (Hh' : holds y b (l ++ [t])) by (destruct Hh; by split).
    match goal with |- wp _ _ ?s => set (v2 := s) end.
    assert (Ew2 : v_workers v2 = alter (wr local_queue_ q) w (v_workers v)).
    { change (<[w := y]> (v_workers v) = alter (wr local_queue_ q) w (v_workers v)). by apply insert_alter. }
    eapply wp_mono; [apply (submit_wakes self v v2 idle k (Local w b l) t Hk); try done|].
    + by destruct H2.
    + destruct H3 as [Hlen Hat]. split; [exact Hlen|]. intros i o Ho. rewrite Ew2, lookup_alter_is_Some.
      exact (Hat i o Ho).
    + by exists q.
    + split.
      * apply (runs_on_same self v); [|exact Hself]. intros w'. rewrite Ew2. apply alter_context. by intros [].
      * exists y. split; [apply lookup_insert_eq|exact Hh'].
    + intros [] v3 (S & G4). split; [exact S|].
      split; [transitivity (rd tasks v2); [rewrite G4; done|exact T1]|].
      split; [transitivity (rd butexes v2); [rewrite G4; done|done]|].
      split; [unfold same_sync; rewrite G4; done|]. split; [unfold same_pool; rewrite G4; done|rewrite G4; done].
Qed.

(** The worker at index [k] of [workers_atomic_] holds batch [b] and queue [l]. *)
Definition worker_holds (v : world) (k : Z) (b l : list ptr) : Prop :=
  exists w x, v_workers_atomic_ v !! Z.to_nat k = Some (Some w) /\ v_workers v !! w = Some x /\
    w_id_ x = k /\ holds x b l.

Lemma steal_from v w x b l : v_workers v !! w = Some x -> holds x b l ->
  wp (on w (zoom local_queue_ WorkStealingQueue.Steal)) (fun r v' =>
    match l with
    | [] => r = None /\ v' = v
    | t :: rest => r = Some t /\ exists q, holds (wr local_queue_ q x) b rest /\
                     v' = wr workers (<[w := wr local_queue_ q x]> (v_workers v)) v
    end) v.
Proof.
  intros Hx H. eapply wp_on; [exact Hx|]. apply wp_zoom; [apply _|].
  destruct (holds_queue _ _ _ H) as (vh & vt & h & Hat). destruct l as [|t rest].
  - eapply wp_mono; [by eapply WorkStealingQueue.Steal_empty|]. intros r q [-> ->]. split; [done|].
    simpl. assert (E : wr local_queue_ (w_local_queue_ x) x = x) by (by destruct x).
    simpl in E. rewrite E, insert_id by done. by destruct v.
  - eapply wp_mono; [by eapply WorkStealingQueue.Steal_at|]. intros r q [-> Hq]. split; [done|].
    exists q. split; [|done]. destruct H. by split.
Qed.

(** The [i]-th worker visited by the worker [id] of [wc]. *)
Definition victim (id wc : Z) (i : Z) : Z := (id + 1 + i) mod wc.

Lemma victim_rem id wc i : 0 <= id < wc -> 0 <= i ->
  Z.rem (Z.rem (id + 1) wc + i) wc = victim id wc i.
Proof.
  intros H Hi. unfold victim. pose proof (Z.rem_bound_pos (id + 1) wc ltac:(lia) ltac:(lia)).
  rewrite !Z.rem_mod_nonneg by (rewrite ?Z.rem_mod_nonneg in *; lia).
  by rewrite Zplus_mod_idemp_l.
Qed.

Lemma victim_range id wc i : 0 < wc -> 0 <= victim id wc i < wc.
Proof. intros. by apply Z.mod_pos_bound. Qed.

(** Every other worker is visited. *)
Lemma victim_all id wc k : 0 <= id < wc -> 0 <= k < wc ->
  exists i, 0 <= i < wc * 2 /\ victim id wc i = k.
Proof.
  intros Hid Hk. exists ((k - (id + 1)) mod wc). pose proof (Z.mod_pos_bound (k - (id + 1)) wc ltac:(lia)).
  split; [lia|]. unfold victim. rewrite Zplus_mod_idemp_r. replace (id + 1 + (k - (id + 1))) with k by lia.
  by apply Z.mod_small.
Qed.

(** What stealing gives: the oldest task of the nearest worker that has one. *)
Definition stolen (v v' : world) (id wc : Z) (q : Z -> list ptr) (r : option ptr) : Prop :=
  match r with
  | None => v' = v /\ forall k, 0 <= k < wc -> k <> id -> q k = []
  | Some t => exists i rest b, let k := victim id wc i in
      0 <= i /\ k <> id /\ q k = t :: rest /\ worker_holds v' k b rest /\
      (forall j, 0 <= j < i -> victim id wc j <> id -> q (victim id wc j) = []) /\
      v' = wr workers (v_workers v') v
  end.

Lemma steal_round_ok v id wc q : 0 <= id < wc -> wc <= MAX_WORKERS ->
  (forall k, 0 <= k < wc -> k <> id -> exists b, worker_holds v k b (q k)) ->
  wp (steal_round id wc) (fun r v' => stolen v v' id wc q r) v.
Proof.
  intros Hid Hwc Hq. unfold steal_round.
  apply (wp_loop_inv (fun i v' => 0 <= i <= wc * 2 /\ v' = v /\
           forall j, 0 <= j < i -> victim id wc j <> id -> q (victim id wc j) = [])
         (fun i _ => Z.to_nat (wc * 2 - i))).
  { split; [lia|]. split; [done|]. intros j Hj. lia. }
  intros i v' (Hi & -> & Hno). destruct (Z.ltb_spec i (wc * 2)) as [Hlt|Hge].
  - rewrite victim_rem by lia. pose proof (victim_range id wc i ltac:(lia)) as Hvr.
    assert (Hskip : (victim id wc i <> id -> q (victim id wc i) = []) ->
      forall j, 0 <= j < i + 1 -> victim id wc j <> id -> q (victim id wc j) = []).
    { intros He j Hj. destruct (decide (j = i)) as [->|Hne]; [exact He|]. apply Hno. lia. }
    destruct (Z.eqb_spec (victim id wc i) id) as [E|Hne].
    + wp_go. split; [|lia]. split; [lia|]. split; [done|]. apply Hskip. done.
    + destruct (Hq _ Hvr Hne) as (b & w & x & Hw & Hx & Hk & Hh). unfold GetWorker.
      rewrite (proj2 (Z.leb_le 0 _)), (proj2 (Z.ltb_lt _ MAX_WORKERS)) by lia. simpl.
      eapply wp_load_at_bind; [lia|exact Hw|]. apply wp_bind.
      eapply wp_mono; [by eapply steal_from|]. intros r v1 Hr.
      destruct (q (victim id wc i)) as [|t rest] eqn:Eq.
      * destruct Hr as [-> ->]. wp_go. split; [|lia]. split; [lia|]. split; [done|].
        by apply Hskip.
      * destruct Hr as (-> & qq & Hh' & ->). wp_go. exists i, rest, b. split; [lia|].
        split; [done|]. split; [done|]. split; [|by split].
        exists w, (wr local_queue_ qq x). split; [exact Hw|]. split; [apply lookup_insert_eq|]. by split.
  - wp_go. split; [done|]. intros k Hk Hne. destruct (victim_all id wc k Hid Hk) as (j & Hj & <-).
    apply Hno; [lia|done].
Qed.

(** C9: PickTask, with no other thread running, takes the next task of its own
    batch and queue, else one of the global queue, else the oldest one in the
    local queue of another worker; it returns null only when its own batch and
    queue, every shard of the global queue and the local queues of all other
    workers are empty. The batches of other workers are not looked at. *)
Theorem PickTask_finds_work v w id b ls q (Hid : 0 <= id < v_worker_count_ v)
    (Hwc : v_worker_count_ v <= MAX_WORKERS)
    (Hw : v_workers_atomic_ v !! Z.to_nat id = Some (Some w))
    (Hown : worker_holds v id b (q id))
    (Hothers : forall k, 0 <= k < v_worker_count_ v -> k <> id -> exists b, worker_holds v k b (q k))
    (Hls : SharedMPSCQueue.repr (rd global_queue_ v) ls) (Htot : v_total_count v <= INT_MAX) :
  wp (PickTask w) (fun r v' =>
    match next_task b (q id) with
    | Some (t, (b', l')) => r = Some t /\ worker_holds v' id b' l' /\ v' = wr workers (v_workers v') v
    | None => b = [] /\ q id = [] /\
        match SharedMPSCQueue.shared_pop id ls with
        | Some (t, ls') => r = Some t /\ SharedMPSCQueue.repr (rd global_queue_ v') ls'
        | None =>
            (forall l, l ∈ ls -> l = []) /\
            match r with
            | None => forall k, 0 <= k < v_worker_count_ v -> q k = []
            | Some t => exists k b' rest, k <> id /\ q k = t :: rest /\ worker_holds v' k b' rest
            end
        end
    end) v.
Proof.
  destruct Hown as (w' & x & Hw' & Hx & Hxid & Hh). rewrite Hw in Hw'. injection Hw' as <-.
  unfold PickTask. eapply wp_on_bind; [exact Hx|]. eapply wp_mono; [by apply PickTask_local_holds|].
  intros r x' [Hsame Hr]. destruct (next_task b (q id)) as [(t & b' & l')|] eqn:En.
  - destruct Hr as [-> Hh']. wp_go. split; [done|]. split; [|done].
    exists w, x'. split; [exact Hw|]. split; [apply lookup_insert_eq|]. split; [|done].
    by rewrite Hsame.
  - destruct Hr as (-> & Hh' & -> & Hq0). set (v1 := wr workers _ v).
    eapply wp_on_load_bind; [apply lookup_insert_eq|].
    assert (Eid : rd id_ x' = id) by (rewrite Hsame; exact Hxid). rewrite Eid. clear Eid.
    unfold PopGlobal. apply wp_zoom_bind; [apply _|].
    eapply wp_mono; [by apply (SharedMPSCQueue.shared_pop_repr _ ls id)|].
    intros r s [_ Hr]. destruct (SharedMPSCQueue.shared_pop id ls) as [[t ls']|] eqn:Ep.
    + destruct Hr as [-> Hs]. wp_go. split; [done|]. split; [done|]. split; [done|].
      pose proof (rd_wr v1 s : rd global_queue_ (wr global_queue_ s v1) = s) as Eg.
      rewrite <- Eg in Hs. exact Hs.
    + destruct Hr as [-> _]. set (v2 := wr global_queue_ s v1). apply wp_load_bind.
      change (rd worker_count_ v2) with (v_worker_count_ v).
      pose proof (SharedMPSCQueue.shared_pop_none _ _ Ep) as Hempty.
      destruct (Z.leb_spec (v_worker_count_ v) 1) as [Hle|Hgt].
      * wp_go. split; [done|]. split; [done|]. split; [exact Hempty|]. intros k Hk.
        by assert (k = id) as -> by lia.
      * eapply wp_mono; [apply (steal_round_ok v2 id (v_worker_count_ v) q); [lia|lia|]|].
        { intros k Hk Hne. destruct (Hothers k Hk Hne) as (bk & o & xo & Ho & Hxo & Hik & Hhk).
          exists bk, o, xo. split; [exact Ho|]. split; [|by split].
          unfold v2, v1. simpl. rewrite lookup_insert_ne; [exact Hxo|]. congruence. }
        intros r v3 Hst. split; [done|]. split; [done|]. split; [exact Hempty|].
        destruct r as [t|]; simpl in Hst.
        -- destruct Hst as (i & rest & bk & _ & Hne & Hqk & Hh3 & _ & _). by eexists _, bk, rest.
        -- destruct Hst as [_ Hst]. intros k Hk. destruct (decide (k = id)) as [->|Hne]; [done|].
           by apply Hst.
Qed.

(** ** A scheduler with two workers

    Worker 0 (at address 1) is idle, worker 1 (at address 2) has task 5 in its
    queue; task 3 exists and nothing else is queued. *)
Definition busy_worker : worker := wr local_queue_ (WorkStealingQueue.holding [5%nat]) (Worker 1).

Definition two_workers : world :=
  wr initialized_ true (wr running_ true (wr worker_count_ 2 (wr queue_workers 2
    (wr workers (<[1%nat := Worker 0]> {[2%nat := busy_worker]})
    (wr workers_atomic_ (Some 1%nat :: Some 2%nat :: replicate 254 None)
    (wr idle_head_ 0 (wr idle_next_ ((-1) :: replicate 255 0)
    (wr tasks {[3%nat := Task.new_TaskMeta]} (Scheduler 2 []))))))))).

Lemma two_workers_serving : serving two_workers [0].
Proof.
  split; [done| | |done].
  - split; try done.
    + intros [|k] x Hk; [|done]. by injection Hk as <-.
    + intros x ->%list_elem_of_singleton. by vm_compute.
    + apply NoDup_singleton.
  - split; [done|]. intros [|[|i]] w Hi; [injection Hi as <-; by eexists..|].
    change (replicate 254 (@None ptr) !! i = Some (Some w)) in Hi. apply lookup_replicate in Hi as [? _]. done.
Qed.

Lemma two_workers_global : SharedMPSCQueue.repr (rd global_queue_ two_workers) [[]; []].
Proof.
  split; try done.
  - intros [|[|i]] l Hl; [injection Hl as <-; apply MpscQueue.repr_nil..|done].
  - intros i j l l' x _ Hi _ Hx. destruct i as [|[|i]];
      [injection Hi as <-; by apply not_elem_of_nil in Hx..|done].
Qed.

Lemma two_workers_0 : worker_holds two_workers 0 [] [].
Proof. exists 1%nat, (Worker 0). split_and!; [done..|]. apply Worker_holds. Qed.

Lemma two_workers_1 : worker_holds two_workers 1 [] [5%nat].
Proof.
  exists 2%nat, busy_worker. split_and!; [done..|]. split; try done.
  by apply WorkStealingQueue.holding_repr.
Qed.

Lemma Submit_from_outside_witness :
  wp (Submit (Native 0) 3) (fun _ v' =>
    is_ready v' 3 /\ registry v' [] /\ wake_first two_workers [0] (v_workers v') /\
    SharedMPSCQueue.repr (rd global_queue_ v') [[3%nat]; []]) two_workers.
Proof.
  refine (Submit_from_outside two_workers 0 3 [0] [[]; []] two_workers_serving _ two_workers_global _ _ _);
    [by eexists|by vm_compute|by vm_compute|].
  intros l [-> |[-> |Hl]%elem_of_cons]%elem_of_cons; [by apply not_elem_of_nil..|].
  by apply not_elem_of_nil in Hl.
Defined.

Lemma Submit_from_a_worker_witness :
  wp (Submit (OnLoop 1) 3) (fun _ v' =>
    is_ready v' 3 /\ registry v' [] /\ rd global_queue_ v' = rd global_queue_ two_workers /\
    exists x', v_workers v' !! 1%nat = Some x' /\ holds x' [] [3%nat]) two_workers.
Proof.
  refine (Submit_from_a_worker two_workers (OnLoop 1) 1 (Worker 0) 3 [0] [] [] two_workers_serving
            _ _ _ (Worker_holds 0) _); [by eexists| |done|by vm_compute].
  intros v' _. by apply wp_ret.
Defined.

Lemma PickTask_finds_work_witness :
  wp (PickTask 1) (fun r v' => ([] : list ptr) = [] /\ ([] : list ptr) = [] /\
    (forall l : list ptr, l ∈ [[]; []] -> l = []) /\
    match r with
    | None => forall k, 0 <= k < 2 -> (if k =? 1 then [5%nat] else []) = []
    | Some t => exists k b' rest, k <> 0 /\ (if k =? 1 then [5%nat] else []) = t :: rest /\
                  worker_holds v' k b' rest
    end) two_workers.
Proof.
  refine (PickTask_finds_work two_workers 1 0 [] [[]; []] (fun k => if k =? 1 then [5%nat] else [])
            _ _ _ two_workers_0 _ two_workers_global _); [by vm_compute..| |by vm_compute].
  intros k Hk Hne. change (v_worker_count_ two_workers) with 2 in Hk. assert (k = 1) as -> by lia.
  exists []. apply two_workers_1.
Defined.

Lemma reregistering_loses_the_others_witness :
  wp (RegisterIdleWorker 0 ;;; pop_idle_n 3) (fun r _ => r = [0; 0; 0]) two_workers.
Proof. apply (reregistering_loses_the_others _ 0 [] 3 (sv_registry _ _ two_workers_serving)). Defined.

(** ** Where it fails *)

(** The trace index has wrapped around. *)
Definition overflown (w : ptr) (v : world) : Prop :=
  v_trace_idx v < 0 /\ is_Some (v_workers v !! w).

Lemma on_overflown {A} w (p : prog worker A) v : overflown w v ->
  (forall x, wp p (fun _ _ => True) x) -> wp (on w p) (fun _ => overflown w) v.
Proof.
  intros [Hneg [x Hx]] Hp. eapply wp_on; [exact Hx|]. eapply wp_mono; [apply Hp|].
  intros b x' _. split; [done|]. simpl. rewrite lookup_insert_eq. by eexists.
Qed.

Lemma wrong_on_load {A B} w (f : field worker B) (g : B -> prog world A) v x :
  v_workers v !! w = Some x -> goes_wrong (g (rd f x)) v -> goes_wrong (y <- on w (load f) ;; g y) v.
Proof.
  intros Hx H. apply wrong_act. simpl. rewrite Hx. simpl. rewrite insert_id by done. by destruct v.
Qed.

(** Once the trace counter has reached INT_MAX, the next WakeUp writes to the
    trace buffer at a negative index. *)
Theorem WakeUp_after_trace_overflow v w x (Hx : v_workers v !! w = Some x) (Ht : v_trace_idx v = INT_MAX) :
  goes_wrong (WakeUp w) v.
Proof.
  unfold WakeUp. eapply (wrong_bind _ _ _ (fun _ => overflown w)).
  { unfold trace_worker. do 4 (eapply wp_on_load_bind; [exact Hx|]). unfold Trace. apply wp_fetch_bind.
    simpl. rewrite Ht. change (INT_MAX <? MAX_TRACE) with false. apply wp_ret.
    split; [by vm_compute|]. simpl. by eexists. }
  intros [] v1 H1. eapply (wrong_bind _ _ _ (fun _ => overflown w)).
  { eapply on_overflown; [exact H1|]. intros y. by apply wp_store. }
  intros [] v2 H2. eapply (wrong_bind _ _ _ (fun _ => overflown w)).
  { eapply on_overflown; [exact H2|]. intros y. by apply wp_fetch. }
  intros n v3 H3. eapply (wrong_bind _ _ _ (fun _ => overflown w)).
  { unfold Platform.FutexWake, pause. by apply wp_act_last. }
  intros [] v4 [Hneg [y Hy]]. apply wrong_bind_left. unfold trace_worker.
  do 4 (apply (wrong_on_load _ _ _ _ y Hy)). by apply Trace_overflow.
Qed.

Lemma WakeUp_after_trace_overflow_witness :
  goes_wrong (WakeUp 1) (wr trace_idx INT_MAX two_workers).
Proof. apply (WakeUp_after_trace_overflow _ 1 (Worker 0)); reflexivity. Defined.

(** Nobody idle. *)
Definition nobody_idle : world := wr idle_head_ (-1) two_workers.

(** A worker whose futex wait times out registers a second time and links to
    itself. *)
Theorem WaitForTask_registers_twice :
  registry nobody_idle [] /\
  exists ts v, reachable ([WaitForTask 1], nobody_idle) (ts, v) /\ looped v 0.
Proof.
  split; [split; try done; [intros x Hx; by apply not_elem_of_nil in Hx|apply NoDup_nil_2]|].
  destruct (sched_results_reachable (fun v => (v_idle_head_ v, v_idle_next_ v !! 0%nat))
    (turn 0 358 ++ [(0%nat, true)] ++ turn 0 363) ([WaitForTask 1], nobody_idle) [None] (0, Some 0))
    as (ts & v & Hr & _ & Ho); [vm_compute; reflexivity|].
  exists ts, v. split; [exact Hr|]. injection Ho as Hh Hn. split; [by vm_compute|]. by split.
Qed.

(** ** Yielding *)

(** YieldCurrent does nothing when the batch and the queue of the worker are
    empty, whatever the other queues hold. *)
Theorem YieldCurrent_ignores_other_queues v self w x t (Hx : v_workers v !! w = Some x)
    (Hh : holds x [] []) (Ht : w_current_task_ x = Some t) :
  wp (YieldCurrent self w) (fun r v' => r = 0 /\ v' = v) v.
Proof.
  unfold YieldCurrent. eapply wp_on_load_bind; [exact Hx|]. simpl. rewrite Ht.
  eapply wp_on_load_bind; [exact Hx|]. simpl. rewrite (holds_count _ _ _ Hh). simpl.
  eapply wp_on_bind; [exact Hx|]. apply wp_zoom; [apply _|].
  eapply wp_mono; [by apply WorkStealingQueue.wsq_empty_repr, (holds_queue _ _ _ Hh)|].
  intros r q [-> ->]. simpl.
  wp_go. split; [done|]. assert (E : wr local_queue_ (w_local_queue_ x) x = x) by (by destruct x).
  simpl in E. rewrite E, insert_id by done. by destruct v.
Qed.

Lemma YieldCurrent_ignores_other_queues_witness :
  let v := wr workers {[1%nat := wr current_task_ (Some 3%nat) (Worker 0)]} two_workers in
  wp (YieldCurrent (OnStack 3) 1) (fun r v' => r = 0 /\ v' = v) v.
Proof.
  apply (YieldCurrent_ignores_other_queues _ (OnStack 3) 1 (wr current_task_ (Some 3%nat) (Worker 0)) 3);
    [reflexivity| |reflexivity].
  destruct (Worker_holds 0). by split.
Defined.

(** Starting 257 workers writes beyond the end of workers_atomic_. *)
Theorem Init_with_too_many_workers : goes_wrong (Init_count 257) (Scheduler 1 []).
Proof. apply (run_wrong (Z.to_nat 20000)). vm_compute. reflexivity. Qed.

(** ** Nothing queued *)

(** No queue holds a task; worker [id] is at [w]. *)
Record nothing_queued (v : world) (w : ptr) (id : Z) : Prop := {
  nq_id : 0 <= id < v_worker_count_ v /\ v_worker_count_ v <= MAX_WORKERS;
  nq_atomic : v_workers_atomic_ v !! Z.to_nat id = Some (Some w);
  nq_own : worker_holds v id [] [];
  nq_others : forall k, 0 <= k < v_worker_count_ v -> k <> id -> exists b, worker_holds v k b [];
  nq_global : exists ls, SharedMPSCQueue.repr (rd global_queue_ v) ls /\ forall l, l ∈ ls -> l = [];
  nq_total : v_total_count v <= INT_MAX;
}.

Lemma PickTask_nothing v w id : nothing_queued v w id ->
  wp (PickTask w) (fun r v' => r = None /\ is_Some (v_workers v' !! w)) v.
Proof.
  intros [[Hid Hwc] Hw (w' & x & Hw' & Hx & Hxid & Hh) Hothers (ls & Hls & Hno) Htot].
  rewrite Hw in Hw'. injection Hw' as <-.
  unfold PickTask. eapply wp_on_bind; [exact Hx|]. eapply wp_mono; [by apply PickTask_local_holds|].
  intros r x' [Hsame Hr]. simpl in Hr. destruct Hr as (-> & Hh' & _). set (v1 := wr workers _ v).
  eapply wp_on_load_bind; [apply lookup_insert_eq|].
  assert (Eid : rd id_ x' = id) by (rewrite Hsame; exact Hxid). rewrite Eid. clear Eid.
  unfold PopGlobal. apply wp_zoom_bind; [apply _|].
  eapply wp_mono; [by apply (SharedMPSCQueue.shared_pop_repr _ ls id)|].
  intros r s [_ Hr]. rewrite SharedMPSCQueue.shared_pop_empty in Hr by done. destruct Hr as [-> _].
  set (v2 := wr global_queue_ s v1). apply wp_load_bind. change (rd worker_count_ v2) with (v_worker_count_ v).
  assert (H2 : v_workers v2 !! w = Some x') by apply lookup_insert_eq.
  destruct (Z.leb_spec (v_worker_count_ v) 1) as [Hle|Hgt]; [apply wp_ret; by rewrite H2|].
  eapply wp_mono; [apply (steal_round_ok v2 id (v_worker_count_ v) (fun _ => [])); [lia|lia|]|].
  - intros k Hk Hne. destruct (Hothers k Hk Hne) as (bk & o & xo & Ho & Hxo & Hik & Hhk).
    exists bk, o, xo. split; [exact Ho|]. split; [|by split].
    unfold v2, v1. simpl. rewrite lookup_insert_ne; [exact Hxo|]. congruence.
  - intros r v3 Hst. destruct r as [t|]; simpl in Hst; [by destruct Hst as (i & rest & b & _ & _ & ? & _)|].
    destruct Hst as [-> _]. by rewrite H2.
Qed.

Lemma worker_holds_member v w x y id k b l : v_workers v !! w = Some x ->
  v_workers_atomic_ v !! Z.to_nat id = Some (Some w) -> w_id_ y = w_id_ x -> (forall b l, holds x b l -> holds y b l) ->
  worker_holds v k b l -> worker_holds (wr workers (<[w := y]> (v_workers v)) v) k b l.
Proof.
  intros Hx Hw Hi Hh (o & z & Ho & Hz & Hk & Hhz). exists o.
  destruct (decide (o = w)) as [->|Hne].
  - assert (z = x) as -> by congruence. exists y. split; [exact Ho|]. split; [apply lookup_insert_eq|].
    split; [congruence|by apply Hh].
  - exists z. split; [exact Ho|]. split; [|done]. simpl. by rewrite lookup_insert_ne.
Qed.

(** Nothing else of a worker matters. *)
Lemma nothing_queued_member v w x y id : nothing_queued v w id -> v_workers v !! w = Some x ->
  w_id_ y = w_id_ x -> (forall b l, holds x b l -> holds y b l) ->
  nothing_queued (wr workers (<[w := y]> (v_workers v)) v) w id.
Proof.
  intros [H1 H2 H3 H4 H5 H6] Hx Hi Hh. split; try done.
  - by eapply worker_holds_member.
  - intros k Hk Hne. destruct (H4 k Hk Hne) as [b Hb]. exists b. by eapply worker_holds_member.
Qed.

End Scheduler.
