(* ===== verification/Butex.v ===== *)
(** * Butexes

    Model of [Butex] ([src/bthread/sync/butex.cpp], [include/bthread/sync/butex.hpp])
    and of [Scheduler::WakeButex]: waiting for a change of a value with an
    optional timeout, waking the waiters in order, and the callback of the
    timeout. *)

From Stdlib Require Import ZArith Lia.
From stdpp Require Import base numbers list gmap relations option.
From S2P Require Import Prelude Mpsc SharedMpsc WorkStealing Task TaskGroup Timer Mpmc Platform.
From S2P Require Import World Workers Scheduler.

Open Scope Z_scope.

Module Butex.
Import World World.Worker Workers Scheduler.

Definition value (b : ptr) : prog world Z := get butexes b Task.value_.
Definition set_value (b : ptr) (v : Z) : prog world unit := set butexes b Task.value_ v.

(** The address of [TimeoutCallback]. *)
Definition TimeoutCallback_address : Z := 1.

Definition TimeoutCallback (self : who) (task : ptr) : prog world unit :=
  c <- cas_on tasks task Task.w_wakeup false true ;;
  if c.1 : bool then
    set tasks task Task.w_timed_out true ;;;
    state <- get tasks task Task.state ;;
    if decide (state = Task.SUSPENDED) then
      butex <- get tasks task Task.waiting_butex ;;
      (match butex with
       | Some _ => zoom mem (MpmcQueue.Remove task true)
       | None => Ret tt
       end) ;;;
      set tasks task Task.state Task.READY ;;;
      EnqueueTask self task
    else Ret tt
  else Ret tt.

Section Wait.
Context (self : who) (b : ptr) (expected_value : Z) (timeout : option (Z * Z)).

(** A thread that is not a bthread. *)
Definition wait_pthread : prog world Z :=
  zoom_at butexes b Task.value_ (Platform.FutexWait whole expected_value timeout).

(** Setting up the timeout. *)
Definition set_timeout (task : ptr) : prog world unit :=
  match timeout with
  | Some (tv_sec, tv_nsec) =>
      now <- GetTimeOfDayUs ;;
      sec_us <- int64 (tv_sec * 1000000) ;;
      delay_us <- int64 (sec_us + Z.quot tv_nsec 1000) ;;
      deadline <- int64 (now + delay_us) ;;
      set tasks task Task.w_deadline_us deadline ;;;
      id <- on_timer (Timer.Schedule TimeoutCallback_address (Z.of_nat task) (Some (tv_sec, tv_nsec))) ;;
      set tasks task Task.w_timer_id id
  | None => Ret tt
  end.

(** From the check of the value up to the suspension: the result, or [None] when
    the task is to be suspended. *)
Definition enter_wait (task : ptr) (prepend : bool) : prog world (option Z) :=
  val <- value b ;;
  if negb (val =? expected_value) then Ret (Some 0)
  else
    c <- cas_on tasks task Task.is_waiting false true ;;
    if negb c.1 then Ret (Some 0)
    else
      set tasks task Task.mpmc_next None ;;;
      set tasks task Task.mpmc_claimed false ;;;
      val <- value b ;;
      if negb (val =? expected_value) then
        set tasks task Task.is_waiting false ;;; Ret (Some 0)
      else
        set_timeout task ;;;
        set tasks task Task.waiting_butex (Some b) ;;;
        (if prepend then zoom mem (MpmcQueue.AddToHead b task true true)
         else zoom mem (MpmcQueue.AddToTail b task true)) ;;;
        val <- value b ;;
        if negb (val =? expected_value) then
          set tasks task Task.mpmc_claimed true ;;;
          set tasks task Task.is_waiting false ;;;
          set tasks task Task.waiting_butex None ;;;
          Ret (Some 0)
        else
          saved_wake_count <- get tasks task Task.wake_count ;;
          c <- cas_on tasks task Task.state Task.RUNNING Task.SUSPENDED ;;
          if negb c.1 then
            set tasks task Task.waiting_butex None ;;;
            set tasks task Task.is_waiting false ;;;
            Ret (Some 0)
          else
            current_wake_count <- get tasks task Task.wake_count ;;
            if negb (current_wake_count =? saved_wake_count) then
              c <- cas_on tasks task Task.state Task.SUSPENDED Task.READY ;;
              (if c.1 : bool then EnqueueTask self task else Ret tt) ;;;
              set tasks task Task.waiting_butex None ;;;
              set tasks task Task.is_waiting false ;;;
              Ret (Some 0)
            else Ret None.

(** After the suspension. *)
Definition leave_wait (task : ptr) : prog world Z :=
  set tasks task Task.waiting_butex None ;;;
  r <- load running_ ;;
  if negb r then Ret Platform.ECANCELED
  else
    timed_out <- get tasks task Task.w_timed_out ;;
    Ret (if timed_out : bool then Platform.ETIMEDOUT else 0).

Definition Wait (prepend : bool) : prog world Z :=
  w <- Current self ;;
  match w with
  | None => wait_pthread
  | Some w =>
      base_task <- on w (load current_task_) ;;
      match base_task with
      | None => wait_pthread
      | Some task =>
          type <- get tasks task Task.type ;;
          if decide (type = Task.BTHREAD) then
            r <- load running_ ;;
            if negb r then Ret Platform.ECANCELED
            else
              result <- enter_wait task prepend ;;
              match result with
              | Some result => Ret result
              | None => SuspendCurrent self w ;;; leave_wait task
              end
          else wait_pthread
      end
  end.
End Wait.

Definition BATCH_SIZE : Z := 16.

(** What [Wake] does for a waiter taken from the queue. *)
Definition wake_waiter (self : who) (waiter : ptr) : prog world unit :=
  set tasks waiter Task.is_waiting false ;;;
  modify tasks waiter Task.wake_count (fun n => i32 (n + 1)) ;;;
  id <- get tasks waiter Task.w_timer_id ;;
  (if id =? 0 then Ret tt else on_timer (Timer.Cancel id) ;;; Ret tt) ;;;
  state <- get tasks waiter Task.state ;;
  if decide (state = Task.SUSPENDED) then
    set tasks waiter Task.state Task.READY ;;;
    EnqueueTask self waiter
  else Ret tt.

(** A round of the loop of [Wake]. *)
Definition wake_round (self : who) (b : ptr) (count total_woken : Z) : prog world (Z + unit) :=
  if total_woken <? count then
    waiters <- zoom mem (MpmcQueue.PopMultipleFromHead b (Z.min (count - total_woken) BATCH_SIZE)) ;;
    match waiters with
    | [] => Ret (inr tt)
    | _ :: _ =>
        for_each waiters (wake_waiter self) ;;;
        Ret (inl (total_woken + Z.of_nat (length waiters)))
    end
  else Ret (inr tt).

Definition Wake (self : who) (b : ptr) (count : Z) : prog world unit :=
  Platform.FutexWake ;;;
  loop 0 (wake_round self b count).

(** [Scheduler::WakeButex]. *)
Definition WakeButex (self : who) (b : option ptr) (count : Z) : prog world unit :=
  match b with Some b => Wake self b count | None => Ret tt end.

(** ** What can go wrong between waiting and waking

    Task 3 runs on worker 0 (at address 1); worker 1 (at address 2) has nothing
    to do; the butex is at address 9. *)
Definition one_running : world :=
  wr butexes {[9%nat := Task.new_Butex]}
    (wr tasks {[3%nat := wr Task.state Task.RUNNING Task.new_TaskMeta]}
      (wr workers (<[1%nat := wr context (Some 3%nat) (wr current_task_ (Some 3%nat) (Worker 0))]>
                     {[2%nat := Worker 1]})
        (wr idle_head_ (-1) two_workers))).

Definition waits (t b : ptr) : prog world Z := Wait (OnStack t) b 0 None false.
Definition changes_and_wakes (n : nat) (b : ptr) (count : Z) : prog world Z :=
  set_value b 1 ;;; Wake (Native n) b count ;;; Ret 0.
(** A round of the main loop: pick a task and switch to it. *)
Definition picks_and_runs (w : ptr) : prog world Z :=
  task <- PickTask w ;;
  match task with Some t => RunBthread w t ;;; Ret 0 | None => Ret (-1) end.

(** Task [t] is the first in the queue of butex [b]; task [t] is suspended; it is
    being executed. *)
Definition is_queued (b t : ptr) (v : world) : bool :=
  bool_decide (Task.b_head_ <$> rd butexes v !! b = Some (Some t)).
Definition is_suspended (t : ptr) (v : world) : bool :=
  bool_decide (Task.m_state <$> rd tasks v !! t = Some Task.SUSPENDED).
Definition is_executed (t : ptr) (v : world) : bool := bool_decide (is_Some (worker_on v t)).

(** What a worker finds when it looks for a task. *)
Definition finds (w : ptr) (v : world) : option (option ptr) :=
  match run 1000 (PickTask w) v with Done r _ => Some r | Blocked _ | Undefined _ | OutOfFuel => None end.

Lemma finds_ok w v r : finds w v = Some r -> wp (PickTask w) (fun r' _ => r' = r) v.
Proof.
  unfold finds. destruct (run 1000 (PickTask w) v) as [r' v'| | |] eqn:E; [|done..].
  intros [= ->]. by eapply wp_run.
Qed.

(** There is an interleaving of Wait with a change of the value and Wake in
    which the waiter is suspended after Wake has returned: no queue holds it,
    no worker finds it, it never runs again. *)
Theorem a_wake_before_suspension_is_lost :
  exists ts v, reachable ([waits 3 9; changes_and_wakes 0 9 1], one_running) (ts, v) /\
    Prelude.result <$> ts = [None; Some 0] /\
    is_suspended 3 v = true /\ is_executed 3 v = false /\ wp (zoom mem (MpmcQueue.IsEmpty 9)) (fun e _ => e = true) v /\
    wp (PickTask 1) (fun r _ => r = None) v /\ wp (PickTask 2) (fun r _ => r = None) v.
Proof.
  destruct (drive_results_reachable
    (fun v => (is_suspended 3 v, is_executed 3 v, rd butexes v !! 9%nat, finds 1 v, finds 2 v)) 2000
    [Until 0 (is_queued 9 3); Steps 0 1; All 1; All 0]
    ([waits 3 9; changes_and_wakes 0 9 1], one_running)
    [None; Some 0] [false; false] (true, false, Some (Task.MkButex None None 1), Some None, Some None))
    as (ts & v & Hr & H1 & _ & Ho); [vm_compute; reflexivity|].
  cbv beta in Ho. apply pair_equal_spec in Ho as [Ho H6]. apply pair_equal_spec in Ho as [Ho H5].
  apply pair_equal_spec in Ho as [Ho H4]. apply pair_equal_spec in Ho as [H2 H3].
  exists ts, v. split; [exact Hr|]. split; [exact H1|]. split; [exact H2|]. split; [exact H3|].
  split; [|split; [exact (finds_ok _ _ _ H5)|exact (finds_ok _ _ _ H6)]].
  apply wp_zoom; [apply _|]. unfold MpmcQueue.IsEmpty.
  eapply wp_get_bind; [exact H4|]. apply wp_ret. reflexivity.
Qed.

(** There is an interleaving in which a task that has published itself as
    SUSPENDED but is still on its stack is woken and picked by another worker,
    which then loads a context that has not been saved. *)
Theorem a_woken_task_may_be_run_before_it_is_suspended :
  exists ts v p, reachable ([waits 3 9; changes_and_wakes 0 9 1; picks_and_runs 2], one_running) (ts, v) /\
    Prelude.result <$> ts = [None; Some 0; None] /\ is_executed 3 v = true /\
    ts !! 2%nat = Some p /\ is_bad p v = true.
Proof.
  destruct (drive_results_reachable (is_executed 3) 2000
    [Until 0 (is_suspended 3); All 1; All 2]
    ([waits 3 9; changes_and_wakes 0 9 1; picks_and_runs 2], one_running)
    [None; Some 0; None] [false; false; true] true)
    as (ts & v & Hr & H1 & H2 & Ho); [vm_compute; reflexivity|].
  assert (H3 : ((fun p => is_bad p v) <$> ts) !! 2%nat = Some true) by (rewrite H2; reflexivity).
  apply list_lookup_fmap_Some in H3 as (p & Hp & H3). exists ts, v, p.
  split; [exact Hr|]. split; [exact H1|]. split; [exact Ho|]. split; [exact H3|]. by rewrite Hp.
Qed.

(** ** Waking *)

Lemma same_sched_mem v m : Task.mem_next m = Task.mem_next (rd mem v) -> same_sched v (wr mem m v).
Proof. intros E. split_and!; try done. simpl. by rewrite E. Qed.

Lemma same_sched_tasks v x : same_sched v (wr tasks x v).
Proof. exact (same_sched_mem v (wr Task.tasks x (rd mem v)) eq_refl). Qed.

Lemma same_sched_heaps v x y : same_sched v (wr butexes x (wr tasks y v)).
Proof. exact (same_sched_mem v (wr Task.butexes x (wr Task.tasks y (rd mem v))) eq_refl). Qed.

(** What waking does to a suspended task. *)
Definition woken_task (o : Task.TaskMeta) : Task.TaskMeta :=
  wr Task.state Task.READY (wr Task.wake_count (i32 (Task.m_wake_count o + 1)) (wr Task.is_waiting false o)).

(** A task waiting without a timer. *)
Definition suspended (o : Task.TaskMeta) : Prop :=
  Task.m_state o = Task.SUSPENDED /\ Task.m_w_timer_id o = 0.

Lemma wake_waiter_ok self v t o idle k p : rd tasks v !! t = Some o -> suspended o ->
  queueing self v idle k p -> 0 < k -> place_fits p [t] = true ->
  wp (wake_waiter self t) (fun _ v' => submitted self v v' idle k p [t] /\
    rd tasks v' = <[t := woken_task o]> (rd tasks v) /\ rd butexes v' = rd butexes v) v.
Proof.
  intros Ho [Hs Htm] Hq Hk Hfit. unfold wake_waiter. eapply wp_set_bind; [exact Ho|].
  eapply wp_modify_bind; [rewrite rd_wr; apply lookup_insert_eq|]. rewrite rd_wr, wr_wr, insert_insert_eq.
  eapply wp_get_bind; [rewrite rd_wr; apply lookup_insert_eq|].
  match goal with |- context [rd Task.w_timer_id ?x] => change (rd Task.w_timer_id x) with (Task.m_w_timer_id o) end.
  rewrite Htm. apply wp_ret_bind.
  eapply wp_get_bind; [rewrite rd_wr; apply lookup_insert_eq|].
  match goal with |- context [rd Task.state ?x] => change (rd Task.state x) with (Task.m_state o) end.
  rewrite decide_True by done.
  eapply wp_set_bind; [rewrite rd_wr; apply lookup_insert_eq|]. rewrite rd_wr, wr_wr, insert_insert_eq.
  match goal with |- wp _ _ (wr tasks (<[t := ?x]> _) _) => change x with (woken_task o) end.
  match goal with |- wp _ _ ?s => pose proof (same_sched_tasks v _ : same_sched v s) as E end.
  eapply wp_mono.
  { eapply (Submit_submits self _ t _ idle k p); [by eapply queueing_same|exact Hk|rewrite rd_wr; apply lookup_insert_eq|exact Hfit]. }
  intros [] v' (H1 & H2 & H3 & _). split; [by eapply submitted_same|]. split; [|exact H3].
  rewrite H2, rd_wr, insert_insert_eq. done.
Qed.

(** [done] have been woken since [v], the rest of the tasks are as they were
    but for their nodes. *)
Definition same_but_node (o o' : Task.TaskMeta) : Prop :=
  exists n c, o' = wr Task.mpmc_next n (wr Task.mpmc_claimed c o).

Record wakes (self : who) (v : world) (idle : list Z) (k : Z) (p : place) (done : list ptr) (v' : world)
    : Prop := {
  wk_submitted : submitted self v v' idle k p done;
  wk_tasks : forall t o, rd tasks v !! t = Some o -> exists o', rd tasks v' !! t = Some o' /\
    same_but_node (if decide (t ∈ done) then woken_task o else o) o';
}.

Lemma wakes_start self v idle k p : queueing self v idle k p -> wakes self v idle k p [] v.
Proof.
  intros H. split; [by apply submitted_nil|]. intros t o Ho. exists o. split; [done|].
  exists (Task.m_mpmc_next o), (Task.m_mpmc_claimed o). by destruct o.
Qed.

Lemma wakes_nodes self v idle k p done v' b m : wakes self v idle k p done v' ->
  MpmcQueue.nodes_only b (rd mem v') m -> wakes self v idle k p done (wr mem m v').
Proof.
  intros [H1 H2] (N1 & _ & _ & _ & N5). split.
  - eapply submitted_same; [reflexivity|exact H1|]. apply same_sched_mem. by rewrite N1.
  - intros t o Ho. destruct (H2 _ _ Ho) as (o' & Ho' & n & c & E).
    destruct (N5 _ _ Ho') as (n' & c' & Hm). eexists. split; [exact Hm|]. exists n', c'. by rewrite E.
Qed.

Lemma wakes_one self v idle k p done v' t o : wakes self v idle k p done v' -> t ∉ done ->
  rd tasks v !! t = Some o -> suspended o -> Z.of_nat (length done) < k ->
  place_fits p (done ++ [t]) = true ->
  wp (wake_waiter self t) (fun _ v'' => wakes self v idle k p (done ++ [t]) v'' /\
    rd butexes v'' = rd butexes v' /\
    exists o', rd tasks v' !! t = Some o' /\ rd tasks v'' = <[t := woken_task o']> (rd tasks v')) v'.
Proof.
  intros [H1 H2] Ht Ho Hs Hk Hfit. destruct (H2 _ _ Ho) as (o' & Ho' & Hn).
  rewrite decide_False in Hn by done. apply place_fits_app in Hfit as [_ Hfit]. eapply wp_mono.
  { eapply (wake_waiter_ok self v' t o'); [exact Ho'| |apply (sb_queueing _ _ _ _ _ _ _ H1)|lia|exact Hfit].
    destruct Hn as (x & c & ->). exact Hs. }
  intros [] v'' (G1 & G2 & G3). split; [|split; [exact G3|by exists o']]. split.
  - by eapply submitted_app.
  - intros q x Hx. rewrite G2. destruct (decide (q = t)) as [->|Hne].
    + rewrite lookup_insert_eq. eexists. split; [done|]. rewrite decide_True by set_solver.
      assert (x = o) as -> by congruence. destruct Hn as (y & c & ->). by exists y, c.
    + rewrite lookup_insert_ne by done. destruct (H2 _ _ Hx) as (x' & Hx' & E). exists x'. split; [done|].
      rewrite (decide_ext _ (q ∈ done)); [exact E|]. set_solver.
Qed.

Lemma wakes_repr v' v'' t o b l : rd butexes v'' = rd butexes v' -> rd tasks v' !! t = Some o ->
  rd tasks v'' = <[t := woken_task o]> (rd tasks v') ->
  MpmcQueue.repr b (rd mem v') l -> MpmcQueue.repr b (rd mem v'') l.
Proof.
  intros Hb Ho Ht H. change (rd butexes v'') with (Task.mem_butexes (rd mem v'')) in Hb.
  change (rd tasks v'') with (Task.mem_tasks (rd mem v'')) in Ht.
  eapply MpmcQueue.repr_same_nodes; [exact H|by rewrite Hb|]. intros p n c (q & Hq & E).
  destruct (decide (p = t)) as [->|Hne].
  - exists (woken_task q). rewrite Ht, lookup_insert_eq.
    change (rd tasks v' !! t) with (Task.mem_tasks (rd mem v') !! t) in Ho.
    rewrite Ho in Hq. injection Hq as ->. by split.
  - exists q. by rewrite Ht, lookup_insert_ne.
Qed.

(** A batch taken from the queue. *)
Lemma wake_batch self v idle k p done ws v' b l : wakes self v idle k p done v' ->
  NoDup (done ++ ws) ->
  (forall t, t ∈ ws -> exists o, rd tasks v !! t = Some o /\ suspended o) ->
  Z.of_nat (length (done ++ ws)) <= k ->
  place_fits p (done ++ ws) = true ->
  MpmcQueue.repr b (rd mem v') l ->
  wp (for_each ws (wake_waiter self)) (fun _ v'' =>
    wakes self v idle k p (done ++ ws) v'' /\ MpmcQueue.repr b (rd mem v'') l) v'.
Proof.
  intros H Hnd Hs Hk Hfit Hl.
  eapply wp_mono.
  { apply (wp_for_each (fun rest x => exists now, ws = now ++ rest /\ wakes self v idle k p (done ++ now) x /\
             MpmcQueue.repr b (rd mem x) l)).
    - exists []. by rewrite app_nil_r.
    - intros t rest x (now & -> & Hw & Hx). rewrite (app_assoc done), cons_middle, app_assoc in Hnd, Hk, Hfit.
      destruct (Hs t ltac:(set_solver)) as (o & Ho & Hso). eapply wp_mono.
      + apply (wakes_one self v idle k p (done ++ now) x t o Hw); [|exact Ho|exact Hso| |].
        * apply list.NoDup_app in Hnd as [Hnd _]. apply list.NoDup_app in Hnd as (_ & Hnd & _).
          intros Hin. apply (Hnd t Hin). by left.
        * rewrite length_app in Hk. rewrite (length_app (_ ++ _) [t]) in Hk. simpl in Hk. lia.
        * by apply place_fits_app in Hfit as [? _].
      + intros [] y (Hy & Hb & o' & Ho' & Ht). exists (now ++ [t]). split; [by rewrite <- app_assoc|].
        split; [by rewrite app_assoc|]. by eapply wakes_repr. }
  intros [] v'' (now & E & Hw & Hx). rewrite app_nil_r in E. by subst now.
Qed.

(** Taking up to [b] elements after the first [t]. *)
Lemma taken_next {A} (l out : list A) t b : out = take b (drop t l) ->
  (length out <= b)%nat /\ take (t + length out) l = take t l ++ out /\
  drop (t + length out) l = drop b (drop t l).
Proof.
  intros ->. rewrite length_take, length_drop, drop_drop. split; [lia|].
  destruct (decide (b <= length l - t)%nat) as [Hb|Hb].
  - rewrite Nat.min_l by lia. by rewrite take_take_drop.
  - rewrite Nat.min_r by lia. rewrite (take_ge (drop t l)) by (rewrite length_drop; lia).
    split; [|by rewrite !drop_ge by lia].
    destruct (decide (t <= length l)%nat) as [Ht|Ht].
    + by rewrite (take_ge l), take_drop by lia.
    + by rewrite !take_ge, drop_ge, app_nil_r by lia.
Qed.

Section Wake.
Context (self : who) (v : world) (b : ptr) (l : list (ptr * bool)) (count : Z) (idle : list Z) (k : Z).
Context (p : place).
Abbreviation woken := (take (Z.to_nat count) (MpmcQueue.items l)).
Context (Hnd : NoDup (MpmcQueue.items l))
  (Hs : forall t, t ∈ woken -> exists o, rd tasks v !! t = Some o /\ suspended o)
  (Hk : Z.of_nat (length woken) <= k)
  (Hfit : place_fits p woken = true).

(** The first [total] waiters have been woken. *)
Definition woken_so_far (total : Z) (v' : world) : Prop :=
  0 <= total <= Z.of_nat (Z.to_nat count) /\ Z.of_nat (length (take (Z.to_nat total) (MpmcQueue.items l))) = total /\
  wakes self v idle k p (take (Z.to_nat total) (MpmcQueue.items l)) v' /\
  exists l', MpmcQueue.repr b (rd mem v') l' /\ MpmcQueue.items l' = drop (Z.to_nat total) (MpmcQueue.items l).

Definition all_woken (v' : world) : Prop :=
  wakes self v idle k p woken v' /\
  exists l', MpmcQueue.repr b (rd mem v') l' /\ MpmcQueue.items l' = drop (Z.to_nat count) (MpmcQueue.items l).

(** A prefix of those to be woken satisfies the hypotheses. *)
Lemma prefix_fits a ws : take a (MpmcQueue.items l) = ws -> (a <= Z.to_nat count)%nat ->
  NoDup ws /\ (forall t, t ∈ ws -> exists o, rd tasks v !! t = Some o /\ suspended o) /\
  Z.of_nat (length ws) <= k /\ place_fits p ws = true.
Proof.
  intros <- Ha. assert (E : take a (MpmcQueue.items l) = take a woken) by (rewrite take_take; f_equal; lia).
  split; [eapply sublist_NoDup; [exact Hnd|apply sublist_take]|].
  rewrite E. split; [|split].
  - intros t Ht. apply Hs. rewrite <- (take_drop a woken). set_solver.
  - rewrite length_take. lia.
  - rewrite <- (take_drop a woken) in Hfit. by apply place_fits_app in Hfit as [? _].
Qed.

Lemma wake_round_ok total v' : woken_so_far total v' ->
  wp (wake_round self b count total) (fun r v'' => match r with
    | inl total' => woken_so_far total' v'' /\ (Z.to_nat (count - total') < Z.to_nat (count - total))%nat
    | inr _ => all_woken v''
    end) v'.
Proof.
  intros (Ht & Hlen & Hw & l' & Hl' & Hi). unfold wake_round. destruct (Z.ltb_spec total count) as [Hlt|Hge].
  2: { apply wp_ret. unfold all_woken. replace (Z.to_nat count) with (Z.to_nat total) by lia. by eauto. }
  apply wp_zoom_bind; [apply _|]. set (batch := Z.min (count - total) BATCH_SIZE).
  assert (Hb : 0 < batch) by (unfold batch, BATCH_SIZE; lia).
  eapply wp_mono; [by apply MpmcQueue.PopMultipleFromHead_repr|]. intros out m (Hout & N & l2 & Hl2 & Hi2).
  rewrite Hi in Hout, Hi2. destruct (taken_next _ _ _ _ Hout) as (Hle & Etake & Edrop).
  pose proof (wakes_nodes _ _ _ _ _ _ _ _ _ Hw N) as Hw1. set (v1 := wr mem m v') in *.
  assert (Hm : rd mem v1 = m) by apply rd_wr. rewrite <- Hm in Hl2. rewrite <- Edrop in Hi2. clear Edrop.
  destruct out as [|t out]; [|remember (t :: out) as ws eqn:Ews].
  - apply wp_ret. simpl in Hi2. rewrite Nat.add_0_r in Hi2.
    assert (Hall : (length (MpmcQueue.items l) <= Z.to_nat total)%nat).
    { symmetry in Hout. apply (f_equal length) in Hout. rewrite length_take, length_drop in Hout. simpl in Hout. lia. }
    unfold all_woken. rewrite take_ge in Hw1 by done. rewrite drop_ge in Hi2 by done.
    rewrite take_ge, drop_ge by lia. by eauto.
  - apply wp_bind. destruct (prefix_fits _ _ Etake) as (Hnd' & Hs' & Hk' & Hfit'); [lia|].
    eapply wp_mono.
    { apply (wake_batch self v idle k p _ ws v1 b l2 Hw1 Hnd'); [|exact Hk'|exact Hfit'|exact Hl2].
      intros t' Ht'. apply Hs'. set_solver. }
    intros [] v2 [Hw2 Hx]. apply wp_ret. assert (0 < length ws)%nat by (subst ws; simpl; lia).
    unfold woken_so_far. replace (Z.to_nat (total + Z.of_nat (length ws))) with (Z.to_nat total + length ws)%nat by lia.
    rewrite Etake, length_app. split; [|lia]. split; [lia|]. split; [lia|]. by eauto.
Qed.
End Wake.

(** C8: Called by anyone (a thread outside the runtime, the loop of a worker
    or a bthread), Wake(count) takes the first count waiters of the queue that
    have not withdrawn, provided they are suspended without a timeout and
    there is room for them where the caller queues tasks: it makes each ready
    and queues it once, in order, takes an idle worker off the registry and
    wakes it for each while there are any, and leaves every other waiter
    queued and every other task unchanged but for its links. *)
Theorem Wake_wakes_in_order self v b l count idle k p (woken := take (Z.to_nat count) (MpmcQueue.items l))
    (Hl : MpmcQueue.repr b (rd mem v) l)
    (Hs : forall t, t ∈ woken -> exists o, rd tasks v !! t = Some o /\ suspended o)
    (Hq : queueing self v idle k p) (Hk : Z.of_nat (length woken) <= k)
    (Hfit : place_fits p woken = true) :
  wp (Wake self b count) (fun _ v' =>
    submitted self v v' idle k p woken /\
    (forall t o, rd tasks v !! t = Some o -> exists o', rd tasks v' !! t = Some o' /\
       same_but_node (if decide (t ∈ woken) then woken_task o else o) o') /\
    exists l', MpmcQueue.repr b (rd mem v') l' /\
               MpmcQueue.items l' = drop (Z.to_nat count) (MpmcQueue.items l)) v.
Proof.
  unfold Wake. apply wp_pause_bind. pose proof (MpmcQueue.items_nodup _ _ _ Hl) as Hnd.
  apply (wp_mono _ (fun _ => all_woken self v b l count idle k p)).
  { apply (wp_loop_inv (woken_so_far self v b l count idle k p) (fun total _ => Z.to_nat (count - total))).
    - split; [lia|]. simpl. rewrite take_0. split; [done|]. split; [by apply wakes_start|]. by exists l.
    - intros total v' H. eapply wp_mono; [by apply (wake_round_ok self v b l count idle k p Hnd Hs Hk Hfit)|].
      by intros [] v''. }
  intros [] v' [[H1 H2] H3]. by split_and!.
Qed.

(** Tasks 3, 4 and 5 wait on butex 9; 4 has withdrawn. *)
Definition waiting_task (next : option ptr) (claimed : bool) : Task.TaskMeta :=
  wr Task.state Task.SUSPENDED (wr Task.is_waiting true (wr Task.mpmc_next next (wr Task.mpmc_claimed claimed
    Task.new_TaskMeta))).

Definition three_waiting : world :=
  wr butexes {[9%nat := Task.MkButex (Some 3%nat) (Some 5%nat) 1]}
    (wr tasks (<[3%nat := waiting_task (Some 4%nat) false]> (<[4%nat := waiting_task (Some 5%nat) true]>
                 {[5%nat := waiting_task None false]})) two_workers).

Lemma three_waiting_repr : MpmcQueue.repr 9 (rd mem three_waiting) [(3%nat, false); (4%nat, true); (5%nat, false)].
Proof.
  split; [by eexists| |by apply (bool_decide_unpack (NoDup [3; 4; 5]%nat)); vm_compute].
  intros [|[|[|k]]] p c Hk; [injection Hk as <- <-; by eexists..|done].
Qed.

Lemma two_workers_queueing n k : 0 <= k <= 1000 -> queueing (Native n) two_workers [0] k (Global ([[]; []], 0)).
Proof.
  intros Hk. destruct two_workers_serving as [H1 H2 H3 H4]. split; try done.
  - destruct H4 as (G1 & G2 & G3). split; [done|]. split; [|done]. simpl. unfold INT_MAX. lia.
  - split; [by exists n|]. split; [exact two_workers_global|done].
Qed.

(** The loop of worker 1 submits to its own queue. *)
Lemma two_workers_loop_queueing k : 0 <= k <= 1000 -> queueing (OnLoop 1) two_workers [0] k (Local 1 [] []).
Proof.
  intros Hk. destruct (two_workers_queueing 0 k Hk) as [H1 H2 H3 H4 _]. split; try done.
  split; [done|]. exists (Worker 0). split; [done|apply Worker_holds].
Qed.

Lemma three_waiting_suspended t : t ∈ [3; 5]%nat -> exists o, rd tasks three_waiting !! t = Some o /\ suspended o.
Proof. intros [-> |[-> |Ht]%elem_of_cons]%elem_of_cons; [by eexists..|by apply not_elem_of_nil in Ht]. Qed.

(** Once from outside, once by the loop of worker 1. *)
Example Wake_wakes_in_order_witness :
  wp (Wake (Native 0) 9 2) (fun _ v' =>
    submitted (Native 0) three_waiting v' [0] 2 (Global ([[]; []], 0)) [3; 5]%nat /\
    exists l', MpmcQueue.repr 9 (rd mem v') l' /\ MpmcQueue.items l' = []) three_waiting /\
  wp (Wake (OnLoop 1) 9 2) (fun _ v' =>
    queueing (OnLoop 1) v' [] 0 (Local 1 [] [3; 5]%nat)) three_waiting.
Proof.
  split.
  - eapply wp_mono; [apply (Wake_wakes_in_order (Native 0) three_waiting 9 [(3%nat, false); (4%nat, true); (5%nat, false)] 2 [0] 2
           (Global ([[]; []], 0)))|].
    + exact three_waiting_repr.
    + exact three_waiting_suspended.
    + eapply queueing_same; [apply same_sched_heaps|]. apply two_workers_queueing. lia.
    + by vm_compute.
    + by vm_compute.
    + intros [] v' (H1 & _ & H2). by split.
  - eapply wp_mono; [apply (Wake_wakes_in_order (OnLoop 1) three_waiting 9 [(3%nat, false); (4%nat, true); (5%nat, false)] 2 [0] 2
           (Local 1 [] []))|].
    + exact three_waiting_repr.
    + exact three_waiting_suspended.
    + eapply queueing_same; [apply same_sched_heaps|]. apply two_workers_loop_queueing. lia.
    + by vm_compute.
    + by vm_compute.
    + intros [] v' (H1 & _). exact (sb_queueing _ _ _ _ _ _ _ H1).
Defined.

(** Waking when nobody waits. *)
Lemma Wake_nobody v self b n : MpmcQueue.repr b (rd mem v) [] ->
  wp (Wake self b n) (fun _ v' => exists m, v' = wr mem m v) v.
Proof.
  intros H. unfold Wake. apply wp_pause_bind, wp_loop_once. unfold wake_round. destruct (0 <? n).
  - apply wp_zoom_bind; [apply _|]. eapply wp_mono; [by apply MpmcQueue.PopMultipleFromHead_repr|].
    intros out m (-> & _). change (MpmcQueue.items []) with (@nil ptr). rewrite take_nil. apply wp_ret. by exists m.
  - apply wp_ret. exists (rd mem v). by rewrite wr_rd.
Qed.

End Butex.
