(* ===== verification/Mutex.v ===== *)
(** * Mutexes

    Model of [Mutex] and [Mutex::LockAwaiter] ([src/bthread/sync/mutex.cpp],
    [include/bthread/sync/mutex.hpp]).  The native mutex is its owner;
    [Worker::Current()] decides which of the two mechanisms a caller uses. *)

From Stdlib Require Import ZArith Lia.
From stdpp Require Import base numbers list gmap relations option.
From S2P Require Import Prelude Mpsc SharedMpsc WorkStealing Task TaskGroup Timer Mpmc Platform.
From S2P Require Import World Workers Scheduler Butex.

Open Scope Z_scope.

Module Mutex.
Import World World.Worker Workers Scheduler.

Definition LOCKED : Z := 1.
Definition HAS_WAITERS : Z := 2.

Section Operations.
Context (self : who) (m : ptr).

(** [waiter_queue_.Push], [waiter_queue_.Pop]. *)
Definition enqueue_waiter (task : ptr) : prog world unit := zoom (waiter_queue_ m) (MpscQueue.Push task).
Definition dequeue_waiter : prog world (option ptr) := zoom (waiter_queue_ m) MpscQueue.Pop.

(** The butex, created by the first that needs it. *)
Definition create_butex : prog world unit :=
  b <- get mutexes m Mutex.butex_ ;;
  match b with
  | Some _ => Ret tt
  | None =>
      new_butex <- Task.alloc mem Task.butexes Task.new_Butex ;;
      c <- cas_on mutexes m Mutex.butex_ None (Some new_butex) ;;
      if c.1 : bool then Ret tt else Task.free mem Task.butexes new_butex
  end.

Definition is_locked (state : Z) : bool := negb (Z.land state LOCKED =? 0).
Definition has_waiters (state : Z) : bool := negb (Z.land state HAS_WAITERS =? 0).

(** Taking a lock that appears free: whether it succeeded. *)
Definition try_acquire (state : Z) : prog world bool :=
  c <- cas_on mutexes m Mutex.state_ state (Z.lor LOCKED (Z.land state HAS_WAITERS)) ;; Ret c.1.

(** A round, with [first_wait]. *)
Definition lock_round (first_wait : bool) : prog world (bool + unit) :=
  state <- get mutexes m Mutex.state_ ;;
  if negb (is_locked state) then
    a <- try_acquire state ;; Ret (if a : bool then inr tt else inl first_wait)
  else
    marked <- (if has_waiters state then Ret true
               else c <- cas_on mutexes m Mutex.state_ state (Z.lor state HAS_WAITERS) ;; Ret c.1) ;;
    if negb marked then Ret (inl first_wait)
    else
      butex <- get mutexes m Mutex.butex_ ;;
      state <- get mutexes m Mutex.state_ ;;
      if negb (is_locked state) then
        a <- try_acquire state ;; Ret (if a : bool then inr tt else inl first_wait)
      else
        match butex with
        | None => undefined
        | Some b =>
            generation <- Butex.value b ;;
            result <- Butex.Wait self b generation None (negb first_wait) ;;
            Ret (if result =? Platform.ECANCELED then inr tt else inl false)
        end.

Definition lock_bthread : prog world unit :=
  state <- get mutexes m Mutex.state_ ;;
  fast <- (if state =? 0 then c <- cas_on mutexes m Mutex.state_ 0 LOCKED ;; Ret c.1 else Ret false) ;;
  if fast : bool then Ret tt
  else create_butex ;;; loop true lock_round.

(** The native mutex. *)
Definition native_lock : prog world unit :=
  act (fun v => match v_mutexes v !! m with
                | Some o => match World.Mutex.m_native o with
                            | None => Go tt (wr mutexes (<[m := wr Mutex.native (Some self) o]> (v_mutexes v)) v)
                            | Some _ => Block
                            end
                | None => Bad
                end).
Definition native_trylock : prog world bool :=
  c <- cas_on mutexes m Mutex.native None (Some self) ;; Ret c.1.
(** Undefined for a thread that does not own it. *)
Definition native_unlock : prog world unit :=
  act (fun v => match v_mutexes v !! m with
                | Some o => if decide (World.Mutex.m_native o = Some self)
                            then Go tt (wr mutexes (<[m := wr Mutex.native None o]> (v_mutexes v)) v)
                            else Bad
                | None => Bad
                end).

Definition lock_pthread : prog world unit :=
  native_lock ;;;
  modify mutexes m Mutex.state_ (fun s => Z.lor s LOCKED) ;;;
  Ret tt.

Definition lock : prog world unit :=
  w <- Current self ;;
  match w with Some _ => lock_bthread | None => lock_pthread end.

Definition try_lock : prog world bool :=
  w <- Current self ;;
  match w with
  | Some _ => c <- cas_on mutexes m Mutex.state_ 0 LOCKED ;; Ret c.1
  | None => native_trylock
  end.

(** [state_.fetch_and(~LOCKED)]. *)
Definition clear_LOCKED : prog world Z := modify mutexes m Mutex.state_ (fun s => Z.ldiff s LOCKED).

(** Waking one of those that wait on the butex, if there is a butex. *)
Definition wake_one : prog world unit :=
  butex <- get mutexes m Mutex.butex_ ;;
  match butex with
  | Some b => v <- Butex.value b ;; Butex.set_value b (i32 (v + 1)) ;;; Butex.Wake self b 1
  | None => Ret tt
  end.

Definition unlock_pthread : prog world unit :=
  old_state <- clear_LOCKED ;;
  (if has_waiters old_state then wake_one else Ret tt) ;;;
  native_unlock.

Definition unlock : prog world unit :=
  w <- Current self ;;
  match w with
  | None => unlock_pthread
  | Some _ =>
      waiter <- dequeue_waiter ;;
      match waiter with
      | Some t =>
          set tasks t Task.state Task.READY ;;;
          set tasks t Task.waiting_sync None ;;;
          Submit self t
      | None =>
          pending <- get mutexes m Mutex.pending_wake_ ;;
          if 0 <? pending then clear_LOCKED ;;; Ret tt
          else
            old_state <- clear_LOCKED ;;
            if has_waiters old_state then
              modify mutexes m Mutex.pending_wake_ (fun n => u32 (n + 1)) ;;;
              wake_one ;;;
              modify mutexes m Mutex.pending_wake_ (fun n => u32 (n - 1)) ;;;
              Ret tt
            else Ret tt
      end
  end.

(** ** The awaiter *)

Definition LockAwaiter_await_ready : prog world bool := try_lock.

(** Whether the coroutine stays suspended; [None] is the exception. *)
Definition LockAwaiter_await_suspend : prog world (option bool) :=
  meta <- current_coro_meta self ;;
  match meta with
  | None => Ret None
  | Some meta =>
      got <- try_lock ;;
      if got : bool then Ret (Some false)
      else
        modify mutexes m Mutex.state_ (fun s => Z.lor s HAS_WAITERS) ;;;
        got <- try_lock ;;
        if got : bool then
          modify mutexes m Mutex.state_ (fun s => Z.ldiff s HAS_WAITERS) ;;;
          Ret (Some false)
        else
          set tasks meta Task.state Task.SUSPENDED ;;;
          set tasks meta Task.waiting_sync (Some m) ;;;
          enqueue_waiter meta ;;;
          Ret (Some true)
  end.

End Operations.

(** The constructor and the destructor. *)
Definition new_Mutex : prog world ptr :=
  act (fun v => let p := rd (sub mem Task.brk) v in
                Go p (wr (sub mem Task.brk) (1 + p)%nat
                       (wr mutexes (<[p := Mutex.Mutex]> (v_mutexes v)) v))).
Definition delete_Mutex (m : ptr) : prog world unit :=
  b <- get mutexes m Mutex.butex_ ;;
  (match b with Some b => Task.free mem Task.butexes b | None => Ret tt end) ;;;
  act (fun v => match World.Mutex.m_native <$> v_mutexes v !! m with
                | Some None => Go tt (wr mutexes (delete m (v_mutexes v)) v)
                | Some (Some _) | None => Bad
                end).

(** ** One bthread at a time *)

(** Task [t] is executed by a worker. *)
Definition executing (v : world) (t : ptr) : Prop := is_Some (worker_on v t).

Lemma Current_executing {A} v t (g : option ptr -> prog world A) Q : executing v t ->
  (forall w, wp (g (Some w)) Q v) -> wp (w <- Current (OnStack t) ;; g w) Q v.
Proof. intros [w Hw] H. unfold Current. apply wp_act_bind. by rewrite Hw. Qed.

(** The mutex [m] with the state [s]. *)
Definition with_state (m : ptr) (o : World.Mutex.mutex) (s : Z) (v : world) : world :=
  wr mutexes (<[m := wr Mutex.state_ s o]> (v_mutexes v)) v.

Lemma lock_free v m o t : v_mutexes v !! m = Some o -> executing v t -> World.Mutex.m_state_ o = 0 ->
  wp (lock (OnStack t) m) (fun _ v' => v' = with_state m o LOCKED v) v.
Proof.
  intros Ho Ht Hs. unfold lock. apply Current_executing; [done|]. intros w. unfold lock_bthread.
  eapply wp_get_bind; [exact Ho|]. simpl. rewrite Hs. simpl. apply wp_assoc.
  eapply wp_cas_on_bind; [exact Ho|]. simpl. rewrite decide_True by done. by wp_go.
Qed.

Lemma lock_by_pthread v m o n : v_mutexes v !! m = Some o -> World.Mutex.m_native o = None ->
  wp (lock (Native n) m) (fun _ v' => v' =
    with_state m (wr Mutex.native (Some (Native n)) o) (Z.lor (World.Mutex.m_state_ o) LOCKED) v) v.
Proof.
  intros Ho Hn. unfold lock. apply wp_ret_bind. unfold lock_pthread, native_lock. apply wp_act_bind.
  rewrite Ho, Hn. eapply wp_modify_bind; [apply lookup_insert_eq|]. wp_go. by rewrite insert_insert_eq.
Qed.

Lemma unlock_by_pthread v m o n : v_mutexes v !! m = Some o -> World.Mutex.m_native o = Some (Native n) ->
  has_waiters (World.Mutex.m_state_ o) = false ->
  wp (unlock (Native n) m) (fun _ v' => v' =
    with_state m (wr Mutex.native None o) (Z.ldiff (World.Mutex.m_state_ o) LOCKED) v) v.
Proof.
  intros Ho Hn Hw. unfold unlock. apply wp_ret_bind. unfold unlock_pthread, clear_LOCKED.
  eapply wp_modify_bind; [exact Ho|]. simpl. rewrite Hw. apply wp_ret_bind. unfold native_unlock.
  apply wp_act_last. simpl. rewrite lookup_insert_eq. simpl. rewrite decide_True by done.
  by rewrite insert_insert_eq.
Qed.

(** No coroutine waits for [m]. *)
Definition no_waiters (m : ptr) (v : world) : Prop := v_waiter_queues v m = (None, None).

Lemma dequeue_nobody {A} v m (g : option ptr -> prog world A) Q : no_waiters m v ->
  wp (g None) Q v -> wp (r <- dequeue_waiter m ;; g r) Q v.
Proof.
  intros Hn H. unfold dequeue_waiter. apply wp_zoom_bind; [apply _|]. unfold MpscQueue.Pop. apply wp_loop_once.
  apply wp_load_bind. change (rd MpscQueue.tail_ (rd (waiter_queue_ m) v)) with (v_waiter_queues v m).2.
  rewrite Hn. apply wp_ret. by rewrite wr_rd.
Qed.

(** A bthread that locks a free mutex has it LOCKED, try_lock then fails, and
    unlock restores the state as it was. *)
Theorem uncontended_lock_and_unlock v m o t (Ho : v_mutexes v !! m = Some o) (Ht : executing v t)
    (Hs : World.Mutex.m_state_ o = 0) (Hp : World.Mutex.m_pending_wake_ o = 0) (Hn : no_waiters m v) :
  wp (lock (OnStack t) m) (fun _ v1 =>
    World.Mutex.m_state_ <$> v_mutexes v1 !! m = Some LOCKED /\
    wp (got <- try_lock (OnStack t) m ;; unlock (OnStack t) m ;;; Ret got)
       (fun got v2 => got = false /\ v2 = v) v1) v.
Proof.
  eapply wp_mono; [by apply (lock_free v m o t)|]. intros [] v1 ->.
  assert (H1 : v_mutexes (with_state m o LOCKED v) !! m = Some (wr Mutex.state_ LOCKED o)) by apply lookup_insert_eq.
  split; [by rewrite H1|]. unfold try_lock. apply wp_assoc, Current_executing; [exact Ht|]. intros w.
  apply wp_assoc. eapply wp_cas_on_bind; [exact H1|]. rewrite decide_False by done. apply wp_ret_bind.
  unfold unlock. apply wp_assoc, Current_executing; [exact Ht|]. intros w'. apply wp_assoc.
  apply dequeue_nobody; [exact Hn|]. eapply wp_get_bind; [exact H1|].
  match goal with |- context [rd Mutex.pending_wake_ ?x] =>
    change (rd Mutex.pending_wake_ x) with (World.Mutex.m_pending_wake_ o) end.
  rewrite Hp. change (0 <? 0) with false. cbv iota. unfold clear_LOCKED. apply wp_assoc. eapply wp_modify_bind; [exact H1|]. simpl. wp_go. split; [done|].
  unfold with_state. simpl. rewrite insert_insert_eq. rewrite insert_id; [by destruct v|].
  rewrite Ho. f_equal. destruct o. simpl in *. by subst.
Qed.

(** ** With threads that are not bthreads *)

(** A thread outside the runtime locks a mutex that a bthread holds, unlocks
    it, and a second bthread then locks it too. *)
Theorem exclusion_fails_with_a_pthread v m o t1 t2 n (Ho : v_mutexes v !! m = Some o)
    (H1 : executing v t1) (H2 : executing v t2) (Hs : World.Mutex.m_state_ o = 0)
    (Hn : World.Mutex.m_native o = None) :
  wp (lock (OnStack t1) m ;;; lock (Native n) m ;;; unlock (Native n) m ;;; lock (OnStack t2) m)
     (fun _ v' => v' = with_state m o LOCKED v) v.
Proof.
  apply wp_bind. eapply wp_mono; [by apply (lock_free v m o t1)|]. intros [] v1 ->.
  apply wp_bind. eapply wp_mono; [apply (lock_by_pthread _ m _ n (lookup_insert_eq _ _ _)); exact Hn|].
  intros [] v2 ->. unfold with_state. simpl. rewrite insert_insert_eq.
  apply wp_bind. eapply wp_mono; [by apply (unlock_by_pthread _ m _ n (lookup_insert_eq _ _ _))|].
  intros [] v3 ->. unfold with_state. simpl. rewrite insert_insert_eq.
  eapply wp_mono; [by apply (lock_free _ m _ t2 (lookup_insert_eq _ _ _))|].
  intros [] v4 ->. unfold with_state. simpl. rewrite insert_insert_eq. do 2 f_equal.
  destruct o. simpl in *. by subst.
Qed.

(** After a contended lock is released and nobody waits any more, try_lock
    still fails although the mutex is free. *)
Theorem after_contention_try_lock_fails v m o t b (Ho : v_mutexes v !! m = Some o) (Ht : executing v t)
    (Hs : World.Mutex.m_state_ o = Z.lor LOCKED HAS_WAITERS) (Hp : World.Mutex.m_pending_wake_ o = 0)
    (Hn : no_waiters m v) (Hb : World.Mutex.m_butex_ o = Some b) (Hq : MpmcQueue.repr b (rd mem v) []) :
  wp (unlock (OnStack t) m ;;; try_lock (OnStack t) m) (fun got v' =>
    got = false /\ exists o', v_mutexes v' !! m = Some o' /\ is_locked (World.Mutex.m_state_ o') = false) v.
Proof.
  unfold unlock. apply wp_assoc, Current_executing; [exact Ht|]. intros w. apply wp_assoc, dequeue_nobody; [exact Hn|].
  apply wp_assoc. eapply wp_get_bind; [exact Ho|]. simpl. rewrite Hp. simpl. apply wp_assoc. unfold clear_LOCKED.
  eapply wp_modify_bind; [exact Ho|]. simpl. rewrite Hs. simpl. apply wp_assoc.
  eapply wp_modify_bind; [apply lookup_insert_eq|]. simpl. rewrite insert_insert_eq, Hp.
  apply wp_assoc. unfold wake_one. apply wp_assoc. eapply wp_get_bind; [apply lookup_insert_eq|]. simpl. rewrite Hb.
  pose proof (MpmcQueue.repr_butex _ _ _ Hq) as (ob & Hob & Hh & Htl).
  apply wp_assoc. eapply wp_get_bind; [exact Hob|]. apply wp_assoc. eapply wp_set_bind; [exact Hob|].
  apply wp_bind. eapply wp_mono; [apply Butex.Wake_nobody|].
  { split; [|done|constructor]. eexists. split; [apply lookup_insert_eq|]. done. }
  intros [] v1 [mm ->]. apply wp_assoc. eapply wp_modify_bind; [apply lookup_insert_eq|]. apply wp_ret_bind.
  unfold try_lock. apply Current_executing; [exact Ht|]. intros w'.
  eapply wp_cas_on_bind; [apply lookup_insert_eq|]. rewrite decide_False by done. apply wp_ret. split; [done|].
  eexists. split; [apply lookup_insert_eq|]. done.
Qed.

(** Once the scheduler is shut down, lock of a held mutex returns at once
    without having it. *)
Theorem lock_after_shutdown_does_not_lock v m o t w x b bo (Ho : v_mutexes v !! m = Some o)
    (Hw : worker_on v t = Some w) (Hx : v_workers v !! w = Some x) (Hc : w_current_task_ x = Some t)
    (Hty : Task.m_type <$> rd tasks v !! t = Some Task.BTHREAD)
    (Hs : World.Mutex.m_state_ o = Z.lor LOCKED HAS_WAITERS) (Hb : World.Mutex.m_butex_ o = Some b)
    (Hbo : rd butexes v !! b = Some bo) (Hr : v_running_ v = false) :
  wp (lock (OnStack t) m) (fun _ v' => v' = v) v.
Proof.
  unfold lock. apply Current_executing; [by eexists|]. intros w0. unfold lock_bthread.
  eapply wp_get_bind; [exact Ho|]. simpl. rewrite Hs. simpl. apply wp_ret_bind. unfold create_butex.
  apply wp_assoc. eapply wp_get_bind; [exact Ho|]. simpl. rewrite Hb. apply wp_ret_bind, wp_loop_once.
  unfold lock_round. eapply wp_get_bind; [exact Ho|]. simpl. rewrite Hs. simpl. apply wp_ret_bind. simpl.
  eapply wp_get_bind; [exact Ho|]. simpl. eapply wp_get_bind; [exact Ho|]. simpl. rewrite Hs, Hb. simpl.
  unfold Butex.value. eapply wp_get_bind; [exact Hbo|]. unfold Butex.Wait. apply wp_assoc.
  unfold Current. apply wp_act_bind. rewrite Hw. apply wp_assoc.
  eapply wp_on_load_bind; [exact Hx|]. simpl. rewrite Hc. apply wp_assoc.
  destruct (rd tasks v !! t) as [tk|] eqn:Htk; [|done]. injection Hty as Hty.
  eapply wp_get_bind; [exact Htk|]. simpl. rewrite Hty. rewrite decide_True by done. apply wp_assoc, wp_load_bind.
  simpl. rewrite Hr. simpl. by wp_go.
Qed.

(** ** Instances

    Tasks 3 and 4 run on the two workers; the mutex is at address 20. *)
Definition two_running : world :=
  wr mutexes {[20%nat := World.Mutex.Mutex]}
    (wr tasks (<[3%nat := wr Task.state Task.RUNNING Task.new_TaskMeta]>
                {[4%nat := wr Task.state Task.RUNNING Task.new_TaskMeta]})
      (wr workers (<[1%nat := wr context (Some 3%nat) (wr current_task_ (Some 3%nat) (Worker 0))]>
                     {[2%nat := wr context (Some 4%nat) (wr current_task_ (Some 4%nat) (Worker 1))]})
        two_workers)).

Example uncontended_lock_and_unlock_witness :
  wp (lock (OnStack 3) 20) (fun _ v1 =>
    World.Mutex.m_state_ <$> v_mutexes v1 !! 20%nat = Some LOCKED /\
    wp (got <- try_lock (OnStack 3) 20 ;; unlock (OnStack 3) 20 ;;; Ret got)
       (fun got v2 => got = false /\ v2 = two_running) v1) two_running.
Proof.
  apply (uncontended_lock_and_unlock two_running 20 World.Mutex.Mutex 3); try reflexivity. by eexists.
Defined.

Example exclusion_fails_with_a_pthread_witness :
  wp (lock (OnStack 3) 20 ;;; lock (Native 0) 20 ;;; unlock (Native 0) 20 ;;; lock (OnStack 4) 20)
     (fun _ v' => v' = with_state 20 World.Mutex.Mutex LOCKED two_running) two_running.
Proof.
  apply (exclusion_fails_with_a_pthread two_running 20 World.Mutex.Mutex 3 4 0); try reflexivity; by eexists.
Defined.

(** Task 3 holds the mutex, the waiters have gone. *)
Definition after_contention : world :=
  wr butexes {[9%nat := Task.new_Butex]}
    (wr mutexes {[20%nat := World.Mutex.MkMutex (Z.lor LOCKED HAS_WAITERS) 0 None (Some 9%nat)]} two_running).

Example after_contention_try_lock_fails_witness :
  wp (unlock (OnStack 3) 20 ;;; try_lock (OnStack 3) 20) (fun got v' =>
    got = false /\ exists o', v_mutexes v' !! 20%nat = Some o' /\ is_locked (World.Mutex.m_state_ o') = false)
    after_contention.
Proof.
  apply (after_contention_try_lock_fails after_contention 20
           (World.Mutex.MkMutex (Z.lor LOCKED HAS_WAITERS) 0 None (Some 9%nat)) 3 9); try reflexivity;
    [by eexists|]. split; [by eexists|done|constructor].
Defined.

Example lock_after_shutdown_does_not_lock_witness :
  wp (lock (OnStack 4) 20) (fun _ v' => v' = wr running_ false after_contention) (wr running_ false after_contention).
Proof.
  apply (lock_after_shutdown_does_not_lock (wr running_ false after_contention) 20
           (World.Mutex.MkMutex (Z.lor LOCKED HAS_WAITERS) 0 None (Some 9%nat)) 4 2
           (wr context (Some 4%nat) (wr current_task_ (Some 4%nat) (Worker 1))) 9 Task.new_Butex); reflexivity.
Defined.

(** ** An unlock that wakes nobody

    Task 3 holds the mutex; tasks 4 and 5 wait for it. *)
Definition two_contenders : world :=
  wr mutexes {[20%nat := World.Mutex.MkMutex (Z.lor LOCKED HAS_WAITERS) 0 None (Some 9%nat)]}
    (wr butexes {[9%nat := Task.MkButex (Some 4%nat) (Some 5%nat) 0]}
      (wr tasks (<[3%nat := wr Task.state Task.RUNNING Task.new_TaskMeta]>
                  (<[4%nat := Butex.waiting_task (Some 5%nat) false]>
                    {[5%nat := Butex.waiting_task None false]})) Butex.one_running)).

(** What task [t], suspended in [lock], does when it is resumed. *)
Definition goes_on_locking (t m : ptr) : prog world unit :=
  resumed t ;;;
  r <- Butex.leave_wait t ;;
  if r =? Platform.ECANCELED then Ret tt else loop false (lock_round (OnStack t) m).

Definition is_ready_for (w t : ptr) (v : world) : bool := bool_decide (Butex.finds w v = Some (Some t)).

(** There is an interleaving of two unlocks in which the second finds
    pending_wake_ set and wakes nobody: the mutex is free, a bthread is
    suspended on it, and no worker finds it. *)
Theorem an_unlock_may_wake_nobody :
  exists ts v, reachable ([unlock (OnStack 3) 20 ;;; Ret 0;
                           goes_on_locking 4 20 ;;; unlock (OnStack 4) 20 ;;; Ret 0;
                           Butex.picks_and_runs 2], two_contenders) (ts, v) /\
    take 2 (Prelude.result <$> ts) = [Some 0; Some 0] /\
    (exists o, v_mutexes v !! 20%nat = Some o /\ is_locked (World.Mutex.m_state_ o) = false) /\
    Butex.is_suspended 5 v = true /\
    wp (PickTask 1) (fun r _ => r = None) v /\ wp (PickTask 2) (fun r _ => r = None) v.
Proof.
  destruct (drive_results_reachable
    (fun v => (v_mutexes v !! 20%nat, Butex.is_suspended 5 v, Butex.finds 1 v, Butex.finds 2 v)) 2000
    [Until 0 (is_ready_for 2 4); All 2; All 1; All 0]
    ([unlock (OnStack 3) 20 ;;; Ret 0; goes_on_locking 4 20 ;;; unlock (OnStack 4) 20 ;;; Ret 0;
      Butex.picks_and_runs 2], two_contenders)
    [Some 0; Some 0; None] [false; false; false]
    (Some (World.Mutex.MkMutex HAS_WAITERS 0 None (Some 9%nat)), true, Some None, Some None))
    as (ts & v & Hr & H1 & _ & Ho); [vm_compute; reflexivity|].
  cbv beta in Ho. apply pair_equal_spec in Ho as [Ho H5]. apply pair_equal_spec in Ho as [Ho H4].
  apply pair_equal_spec in Ho as [H2 H3]. exists ts, v. split; [exact Hr|]. split; [rewrite H1; reflexivity|].
  split; [eexists; split; [exact H2|reflexivity]|]. split; [exact H3|].
  split; [exact (Butex.finds_ok _ _ _ H4)|exact (Butex.finds_ok _ _ _ H5)].
Qed.

End Mutex.
