(* ===== verification/Event.v ===== *)
(** * Events

    Model of [Event] and [Event::WaitAwaiter] ([src/bthread/sync/event.cpp],
    [include/bthread/sync/event.hpp]). *)

From Stdlib Require Import ZArith Lia.
From stdpp Require Import base numbers list gmap relations option.
From S2P Require Import Prelude Mpsc SharedMpsc WorkStealing Task TaskGroup Timer Mpmc Platform.
From S2P Require Import World Workers Scheduler Butex Mutex.

Open Scope Z_scope.

Module Event.
Import World World.Worker Workers Scheduler.

Section Operations.
Context (self : who) (e : ptr).

Definition is_set : prog world bool := get events e Event.set_.

Definition enqueue_waiter (task : ptr) : prog world unit := zoom (waiter_queue_ e) (MpscQueue.Push task).
Definition dequeue_waiter : prog world (option ptr) := zoom (waiter_queue_ e) MpscQueue.Pop.

(** [if (auto_reset_) state_.store(false)]. *)
Definition consume : prog world unit :=
  a <- get events e Event.auto_reset_ ;;
  if a : bool then set events e Event.set_ false else Ret tt.

(** The suspension of the current task of [w]: whether there is one. *)
Definition suspend_on (w : ptr) : prog world bool :=
  task <- on w (load current_task_) ;;
  match task with
  | None => Ret false
  | Some t =>
      set tasks t Task.state Task.SUSPENDED ;;;
      set tasks t Task.waiting_sync (Some e) ;;;
      enqueue_waiter t ;;;
      SuspendCurrent self w ;;;
      Ret true
  end.

Definition wait : prog world unit :=
  s <- get events e Event.set_ ;;
  if s : bool then consume
  else
    w <- Current self ;;
    match w with
    | Some w => suspend_on w ;;; Ret tt
    | None =>
        loop tt (fun _ =>
          s <- get events e Event.set_ ;;
          if s : bool then Ret (inr tt) else pause ;;; Ret (inl tt)) ;;;
        consume
    end.

(** [timeout] in milliseconds; the clock counts nanoseconds. *)
Definition wait_for (timeout : Z) : prog world bool :=
  s <- get events e Event.set_ ;;
  if s : bool then consume ;;; Ret true
  else
    now <- load (sub coroutines Coroutines.steady_clock) ;;
    timeout_ns <- int64 (timeout * 1000000) ;;
    deadline <- int64 (now + timeout_ns) ;;
    w <- Current self ;;
    match w with
    | Some w => suspend_on w
    | None =>
        r <- loop tt (fun _ =>
          s <- get events e Event.set_ ;;
          if s : bool then Ret (inr true)
          else
            now <- load (sub coroutines Coroutines.steady_clock) ;;
            if now >=? deadline then Ret (inr false) else pause ;;; Ret (inl tt)) ;;
        if r : bool then consume ;;; Ret true else Ret false
    end.

(** Making a waiter ready. *)
Definition wake_waiter (t : ptr) : prog world unit :=
  set tasks t Task.state Task.READY ;;;
  set tasks t Task.waiting_sync None ;;;
  Submit self t.

Definition wake_all_waiters : prog world unit :=
  loop tt (fun _ =>
    waiter <- dequeue_waiter ;;
    match waiter with
    | None => Ret (inr tt)
    | Some t => wake_waiter t ;;; Ret (inl tt)
    end).

(** [set] and [reset]. *)
Definition set_event : prog world unit := set events e Event.set_ true ;;; wake_all_waiters.
Definition reset_event : prog world unit := set events e Event.set_ false.

Definition WaitAwaiter_await_ready : prog world bool := is_set.

(** [None] is the exception. *)
Definition WaitAwaiter_await_suspend : prog world (option bool) :=
  meta <- current_coro_meta self ;;
  match meta with
  | None => Ret None
  | Some meta =>
      s <- is_set ;;
      if s : bool then Ret (Some false)
      else
        set tasks meta Task.state Task.SUSPENDED ;;;
        set tasks meta Task.waiting_sync (Some e) ;;;
        enqueue_waiter meta ;;;
        Ret (Some true)
  end.

End Operations.
(** ** Waking all waiters *)

(** What waking does to a task. *)
Definition readied (o : Task.TaskMeta) : Task.TaskMeta :=
  wr Task.state Task.READY (wr Task.waiting_sync None o).

Lemma wake_waiter_ready self v t o idle k p : rd tasks v !! t = Some o -> queueing self v idle k p -> 0 < k ->
  place_fits p [t] = true ->
  wp (wake_waiter self t) (fun _ v' => submitted self v v' idle k p [t] /\
    rd tasks v' = <[t := readied o]> (rd tasks v) /\ same_sync v v') v.
Proof.
  intros Ho Hq Hk Hfit. unfold wake_waiter. eapply wp_set_bind; [exact Ho|].
  eapply wp_set_bind; [rewrite rd_wr; apply lookup_insert_eq|]. rewrite rd_wr, wr_wr, insert_insert_eq.
  match goal with |- wp _ _ ?s => pose proof (Butex.same_sched_tasks v _ : same_sched v s) as E end.
  eapply wp_mono.
  { eapply (Submit_submits self _ t _ idle k p); [by eapply queueing_same|exact Hk|rewrite rd_wr; apply lookup_insert_eq|exact Hfit]. }
  intros [] v' (H1 & H2 & H3 & H4 & _). split; [by eapply submitted_same|]. split; [|exact H4].
  rewrite H2, rd_wr, insert_insert_eq. by destruct o.
Qed.

(** [done] have been taken from the queue of [e] and made ready since [v];
    [rest] are still there. *)
Record woken_all (self : who) (e : ptr) (v : world) (idle : list Z) (k : Z) (p : place) (done rest : list ptr)
    (v' : world) : Prop := {
  wo_submitted : submitted self v v' idle k p done;
  wo_tasks : forall t o, rd tasks v !! t = Some o ->
    rd tasks v' !! t = Some (if decide (t ∈ done) then readied o else o);
  wo_queue : MpscQueue.repr (rd (waiter_queue_ e) v') rest;
  wo_events : v_events v' = v_events v;
  wo_conds : v_conds v' = v_conds v;
}.

Lemma woken_start self e v idle k p l : queueing self v idle k p -> MpscQueue.repr (rd (waiter_queue_ e) v) l ->
  woken_all self e v idle k p [] l v.
Proof. intros H Hl. split; try done. by apply submitted_nil. Qed.

Lemma same_sched_waiters e v q : same_sched v (wr (waiter_queue_ e) q v).
Proof. by split_and!. Qed.

Lemma woken_one self e v idle k p done t rest v' o : woken_all self e v idle k p done (t :: rest) v' ->
  t ∉ done -> rd tasks v !! t = Some o -> Z.of_nat (length done) < k -> place_fits p (done ++ [t]) = true ->
  wp (r <- dequeue_waiter e ;; match r with None => Ret (inr tt) | Some t => wake_waiter self t ;;; Ret (inl tt) end)
     (fun r v'' => r = inl tt /\ woken_all self e v idle k p (done ++ [t]) rest v'') v'.
Proof.
  intros [H1 H2 H3 H4 H5] Ht Ho Hk Hfit. unfold dequeue_waiter. apply wp_zoom_bind; [apply _|].
  eapply wp_mono; [by apply MpscQueue.mpsc_pop_repr|]. intros r q (-> & Hq & _). simpl in Hq.
  apply place_fits_app in Hfit as [_ Hfit].
  specialize (H2 _ _ Ho) as Ho'. rewrite decide_False in Ho' by done.
  pose proof (same_sched_waiters e v' q) as E. apply wp_bind. eapply wp_mono.
  { apply (wake_waiter_ready self (wr (waiter_queue_ e) q v') t o (drop (length done) idle)
      (k - Z.of_nat (length done)) (place_add p done)); [exact Ho'| |lia|exact Hfit].
    eapply queueing_same; [exact E|apply (sb_queueing _ _ _ _ _ _ _ H1)]. }
  intros [] v2 (G1 & G2 & S1 & S2 & S3 & S4 & S5 & _). apply wp_ret. split; [done|]. split.
  - eapply submitted_app; [exact H1|]. by eapply submitted_same.
  - intros p' x Hp. rewrite G2. destruct (decide (p' = t)) as [->|Hne].
    + rewrite lookup_insert_eq, decide_True by set_solver. congruence.
    + rewrite lookup_insert_ne by done. change (rd tasks (wr (waiter_queue_ e) q v')) with (rd tasks v').
      rewrite (H2 _ _ Hp). f_equal.
      destruct (decide (p' ∈ done)); [by rewrite decide_True by set_solver|by rewrite decide_False by set_solver].
  - assert (Eq : rd (waiter_queue_ e) v2 = q).
    { transitivity (rd (waiter_queue_ e) (wr (waiter_queue_ e) q v')); [|apply rd_wr].
      unfold waiter_queue_. cbn [rd]. by rewrite S4, S5. }
    by rewrite Eq.
  - rewrite S1. exact H4.
  - rewrite S2. exact H5.
Qed.

(** The loop of [wake_all_waiters] and [notify_all]. *)
Lemma wake_all_ok self e v idle k p l :
  queueing self v idle k p -> MpscQueue.repr (rd (waiter_queue_ e) v) l ->
  (forall t, t ∈ l -> is_Some (rd tasks v !! t)) -> Z.of_nat (length l) <= k -> place_fits p l = true ->
  wp (wake_all_waiters self e) (fun _ v' => woken_all self e v idle k p l [] v') v.
Proof.
  intros Hq Hl Ht Hk Hfit. unfold wake_all_waiters.
  pose proof (MpscQueue.repr_nodup _ _ Hl) as Hnd.
  assert (Hgen : forall rest done v', l = done ++ rest -> woken_all self e v idle k p done rest v' ->
    wp (loop tt (fun _ => r <- dequeue_waiter e ;;
          match r with None => Ret (inr tt) | Some t => wake_waiter self t ;;; Ret (inl tt) end))
       (fun _ v'' => woken_all self e v idle k p l [] v'') v'); [|by apply (Hgen l [] v); [|apply woken_start]].
  induction rest as [|t rest IH]; intros done v' E H; apply wp_loop_once.
  - unfold dequeue_waiter. apply wp_zoom_bind; [apply _|].
    eapply wp_mono; [by apply MpscQueue.mpsc_pop_repr; apply (wo_queue _ _ _ _ _ _ _ _ _ H)|].
    intros r q (-> & Hr & _). apply wp_ret. rewrite app_nil_r in E. subst l. destruct H as [H1 H2 H3 H4 H5].
    split; try done; [|by rewrite rd_wr].
    eapply submitted_same; [reflexivity|exact H1|apply same_sched_waiters].
  - destruct (Ht t) as [o Ho]; [rewrite E; set_solver|]. subst l. rewrite cons_middle, app_assoc in *.
    eapply wp_mono; [apply (woken_one self e v idle k p done t rest v' o H)|].
    + apply list.NoDup_app in Hnd as [Hnd _]. apply list.NoDup_app in Hnd as (_ & Hnd & _).
      intros Hin. apply (Hnd t Hin). by left.
    + exact Ho.
    + rewrite !length_app in Hk. simpl in Hk. lia.
    + by apply place_fits_app in Hfit as [? _].
    + intros r v2 [-> H2]. by apply (IH (done ++ [t])).
Qed.

Lemma set_event_ok self e o v idle k p l (He : v_events v !! e = Some o) (Hq : queueing self v idle k p)
    (Hl : MpscQueue.repr (rd (waiter_queue_ e) v) l) (Ht : forall t, t ∈ l -> is_Some (rd tasks v !! t))
    (Hk : Z.of_nat (length l) <= k) (Hfit : place_fits p l = true) :
  wp (set_event self e) (fun _ v' => submitted self v v' idle k p l /\
    (forall t o, rd tasks v !! t = Some o -> rd tasks v' !! t = Some (if decide (t ∈ l) then readied o else o)) /\
    MpscQueue.repr (rd (waiter_queue_ e) v') [] /\
    v_events v' = <[e := wr Event.set_ true o]> (v_events v)) v.
Proof.
  unfold set_event. eapply wp_set_bind; [exact He|].
  match goal with |- wp _ _ ?s => set (v1 := s) end.
  assert (E : same_sched v v1) by by split_and!.
  eapply wp_mono; [apply (wake_all_ok self e v1 idle k p l); [by eapply queueing_same|exact Hl|exact Ht|done..]|].
  intros [] v' [H1 H2 H3 H4 _]. split; [by eapply submitted_same|]. split; [exact H2|]. split; [exact H3|exact H4].
Qed.

(** C22: Called by anyone (a thread outside the runtime, the loop of a worker
    or a bthread), when there is room for the waiters where the caller queues
    tasks, set() of a manual-reset event makes every waiter ready, queues each
    once in order of arrival, wakes an idle worker for each while there are
    any, empties the queue of waiters and leaves the event set. *)
Theorem set_wakes_everyone self e o v idle k p l (He : v_events v !! e = Some o)
    (Hmanual : Event.e_auto_reset_ o = false) (Hq : queueing self v idle k p)
    (Hl : MpscQueue.repr (rd (waiter_queue_ e) v) l) (Ht : forall t, t ∈ l -> is_Some (rd tasks v !! t))
    (Hk : Z.of_nat (length l) <= k) (Hfit : place_fits p l = true) :
  wp (set_event self e) (fun _ v' => submitted self v v' idle k p l /\
    (forall t o, rd tasks v !! t = Some o -> rd tasks v' !! t = Some (if decide (t ∈ l) then readied o else o)) /\
    MpscQueue.repr (rd (waiter_queue_ e) v') [] /\
    v_events v' = <[e := Event.MkEvent true false]> (v_events v)) v.
Proof.
  assert (E : Event.MkEvent true false = wr Event.set_ true o) by (destruct o; simpl in *; by subst).
  rewrite E. by apply set_event_ok.
Qed.

(** set() of an auto-reset event makes every waiter ready and leaves the event
    set. *)
Theorem set_does_not_reset self e v idle k p l (He : v_events v !! e = Some (Event.MkEvent false true))
    (Hq : queueing self v idle k p)
    (Hl : MpscQueue.repr (rd (waiter_queue_ e) v) l) (Ht : forall t, t ∈ l -> is_Some (rd tasks v !! t))
    (Hk : Z.of_nat (length l) <= k) (Hfit : place_fits p l = true) :
  wp (set_event self e) (fun _ v' => submitted self v v' idle k p l /\
    v_events v' !! e = Some (Event.MkEvent true true)) v.
Proof.
  eapply wp_mono; [by apply (set_event_ok self e (Event.MkEvent false true) v idle k p l)|].
  intros [] v' (H & _ & _ & E). split; [exact H|]. rewrite E. apply lookup_insert_eq.
Qed.

Lemma same_sched_events v x : same_sched v (wr events x v).
Proof. by split_and!. Qed.

(** ** Instances and races

    A manual-reset event at address 30; tasks 4 and 5 wait for it. *)
Definition two_waiting : world :=
  wr events {[30%nat := Event.Event false false]}
    (wr (waiter_queue_ 30) (MpscQueue.Mpsc (Some 5%nat) (Some 4%nat) {[4%nat := 5%nat]})
      (wr tasks (<[4%nat := wr Task.state Task.SUSPENDED Task.new_TaskMeta]>
                  {[5%nat := wr Task.state Task.SUSPENDED Task.new_TaskMeta]}) two_workers)).

Lemma two_waiting_repr : MpscQueue.repr (rd (waiter_queue_ 30) two_waiting) [4%nat; 5%nat].
Proof.
  split; [done|done|by apply (bool_decide_unpack (NoDup [4; 5]%nat)); vm_compute|].
  intros [|[|k]] x Hx; [by injection Hx as <-..|done].
Qed.

Lemma two_waiting_sched : same_sched two_workers two_waiting.
Proof. etrans; [apply Butex.same_sched_tasks|]. etrans; [apply same_sched_waiters|apply same_sched_events]. Qed.

Lemma two_waiting_queueing n k : 0 <= k <= 1000 -> queueing (Native n) two_waiting [0] k (Global ([[]; []], 0)).
Proof.
  intros Hk. eapply queueing_same; [exact two_waiting_sched|]. by apply Butex.two_workers_queueing.
Qed.

Lemma two_waiting_live t : t ∈ [4; 5]%nat -> is_Some (rd tasks two_waiting !! t).
Proof. intros [-> |[-> |Ht]%elem_of_cons]%elem_of_cons; [by eexists..|by apply not_elem_of_nil in Ht]. Qed.

Example set_wakes_everyone_witness :
  wp (set_event (Native 0) 30) (fun _ v' =>
    queueing (Native 0) v' [] 3 (Global ([[4]; [5]]%nat, 2)) /\
    (Task.m_state <$> rd tasks v' !! 4%nat = Some Task.READY) /\
    MpscQueue.repr (rd (waiter_queue_ 30) v') [] /\
    v_events v' !! 30%nat = Some (Event.Event true false)) two_waiting.
Proof.
  eapply wp_mono; [apply (set_wakes_everyone (Native 0) 30 (Event.Event false false) two_waiting [0] 5
    (Global ([[]; []], 0)) [4; 5]%nat)|].
  - reflexivity.
  - reflexivity.
  - apply two_waiting_queueing. lia.
  - exact two_waiting_repr.
  - exact two_waiting_live.
  - by vm_compute.
  - by vm_compute.
  - intros [] v' ([H1 _] & H2 & H3 & H4). split; [exact H1|].
    split; [by rewrite (H2 4%nat (wr Task.state Task.SUSPENDED Task.new_TaskMeta) eq_refl)|].
    split; [exact H3|]. by rewrite H4.
Defined.

(** Task 3 runs and nobody waits. *)
Definition unset_event : world := wr events {[30%nat := Event.Event false false]} Butex.one_running.

(** There is an interleaving in which set() runs between the check of the
    state and the waiter entering the queue: the event is set and the waiter
    suspended forever. *)
Theorem a_set_before_the_waiter_is_queued_is_lost :
  exists ts v, reachable ([wait (OnStack 3) 30 ;;; Ret 0; set_event (Native 0) 30 ;;; Ret 0], unset_event) (ts, v) /\
    Prelude.result <$> ts = [None; Some 0] /\
    v_events v !! 30%nat = Some (Event.Event true false) /\
    Butex.is_suspended 3 v = true /\ Butex.is_executed 3 v = false /\
    wp (PickTask 1) (fun r _ => r = None) v /\ wp (PickTask 2) (fun r _ => r = None) v.
Proof.
  destruct (drive_results_reachable
    (fun v => (v_events v !! 30%nat, Butex.is_suspended 3 v, Butex.is_executed 3 v, Butex.finds 1 v, Butex.finds 2 v))
    2000 [Steps 0 1; All 1; All 0]
    ([wait (OnStack 3) 30 ;;; Ret 0; set_event (Native 0) 30 ;;; Ret 0], unset_event)
    [None; Some 0] [false; false] (Some (Event.Event true false), true, false, Some None, Some None))
    as (ts & v & Hr & H1 & _ & Ho); [vm_compute; reflexivity|].
  cbv beta in Ho. apply pair_equal_spec in Ho as [Ho H6]. apply pair_equal_spec in Ho as [Ho H5].
  apply pair_equal_spec in Ho as [Ho H4]. apply pair_equal_spec in Ho as [H2 H3].
  exists ts, v. split; [exact Hr|]. split; [exact H1|]. split; [exact H2|]. split; [exact H3|]. split; [exact H4|].
  split; [exact (Butex.finds_ok _ _ _ H5)|exact (Butex.finds_ok _ _ _ H6)].
Qed.

(** Task 3 is in the queue of the event but still running when it is made ready. *)
Definition in_queue (e t : ptr) (v : world) : bool := bool_decide (MpscQueue.mtail (rd (waiter_queue_ e) v) = Some t).

(** There is an interleaving in which a waiter is woken and picked by another
    worker while it is still on its stack. *)
Theorem a_queued_waiter_may_be_run_before_it_is_suspended :
  exists ts v p, reachable ([wait (OnStack 3) 30 ;;; Ret 0; set_event (Native 0) 30 ;;; Ret 0;
                             Butex.picks_and_runs 2], unset_event) (ts, v) /\
    Butex.is_executed 3 v = true /\ ts !! 2%nat = Some p /\ is_bad p v = true.
Proof.
  destruct (drive_results_reachable (Butex.is_executed 3) 2000 [Until 0 (in_queue 30 3); All 1; All 2]
    ([wait (OnStack 3) 30 ;;; Ret 0; set_event (Native 0) 30 ;;; Ret 0; Butex.picks_and_runs 2], unset_event)
    [None; Some 0; None] [false; false; true] true)
    as (ts & v & Hr & H1 & H2 & Ho); [vm_compute; reflexivity|].
  assert (H3 : ((fun p => is_bad p v) <$> ts) !! 2%nat = Some true) by (rewrite H2; reflexivity).
  apply list_lookup_fmap_Some in H3 as (p & Hp & H3). exists ts, v, p.
  split; [exact Hr|]. split; [exact Ho|]. split; [exact H3|]. by rewrite Hp.
Qed.

End Event.
