(* ===== verification/Cond.v ===== *)
(** * Condition variables

    Model of [CondVar] and [CondVar::WaitAwaiter] ([src/bthread/sync/cond.cpp],
    [include/bthread/sync/cond.hpp]). *)

From Stdlib Require Import ZArith Lia.
From stdpp Require Import base numbers list gmap relations option.
From S2P Require Import Prelude Mpsc SharedMpsc WorkStealing Task TaskGroup Timer Mpmc Platform.
From S2P Require Import World Workers Scheduler Butex Mutex Event.

Open Scope Z_scope.

Module CondVar.
Import World World.Worker Workers Scheduler.

Section Operations.
Context (self : who) (c : ptr).

Definition enqueue_waiter (task : ptr) : prog world unit := zoom (waiter_queue_ c) (MpscQueue.Push task).
Definition dequeue_waiter : prog world (option ptr) := zoom (waiter_queue_ c) MpscQueue.Pop.

(** Going to sleep on the native condition variable: the native mutex, which
    the caller owns, is released at the same time. *)
Definition native_sleep (m : ptr) : prog world unit :=
  act (fun v => match v_conds v !! c, v_mutexes v !! m with
                | Some o, Some x =>
                    if decide (World.Mutex.m_native x = Some self)
                    then Go tt (wr conds (<[c := wr CondVar.waiting (S (CondVar.c_waiting o)) o]> (v_conds v))
                               (wr mutexes (<[m := wr Mutex.native None x]> (v_mutexes v)) v))
                    else Bad
                | _, _ => Bad
                end).

(** Waking up: by a signal, or without one (a spurious wakeup, or the end of the
    time if the wait is [timed]); whether the time was not over. *)
Definition native_wakeup (timed : bool) : prog world bool :=
  Act (fun sp v => match v_conds v !! c with
                   | Some o =>
                       let n := pred (CondVar.c_waiting o) in
                       if sp then
                         Go (negb timed) (wr conds (<[c := wr CondVar.waiting n
                                            (wr CondVar.signals (Nat.min n (CondVar.c_signals o)) o)]> (v_conds v)) v)
                       else
                         match CondVar.c_signals o with
                         | O => Block
                         | S k => Go true (wr conds (<[c := wr CondVar.waiting n (wr CondVar.signals k o)]>
                                            (v_conds v)) v)
                         end
                   | None => Bad
                   end) Ret.

(** [pthread_cond_signal] and [pthread_cond_broadcast]. *)
Definition native_signal : prog world unit :=
  act (fun v => match v_conds v !! c with
                | Some o => Go tt (wr conds (<[c := wr CondVar.signals
                                     (Nat.min (CondVar.c_waiting o) (S (CondVar.c_signals o))) o]> (v_conds v)) v)
                | None => Bad
                end).
Definition native_broadcast : prog world unit :=
  act (fun v => match v_conds v !! c with
                | Some o => Go tt (wr conds (<[c := wr CondVar.signals (CondVar.c_waiting o) o]> (v_conds v)) v)
                | None => Bad
                end).

(** [pthread_cond_wait] and [pthread_cond_timedwait]. *)
Definition native_wait (m : ptr) (timed : bool) : prog world bool :=
  native_sleep m ;;;
  r <- native_wakeup timed ;;
  Mutex.native_lock self m ;;;
  Ret r.

Definition wait_pthread (m : ptr) : prog world unit := native_wait m false ;;; Ret tt.

Definition wait (m : ptr) : prog world unit :=
  w <- Current self ;;
  match w with
  | Some w =>
      Mutex.unlock self m ;;;
      task <- on w (load current_task_) ;;
      (match task with
       | Some t =>
           set tasks t Task.state Task.SUSPENDED ;;;
           set tasks t Task.waiting_sync (Some c) ;;;
           enqueue_waiter t ;;;
           SuspendCurrent self w
       | None => Ret tt
       end) ;;;
      Mutex.lock self m
  | None => wait_pthread m
  end.

Definition wait_for (m : ptr) : prog world bool :=
  w <- Current self ;;
  match w with
  | Some _ => wait m ;;; Ret true
  | None => native_wait m true
  end.

Definition notify_one : prog world unit :=
  waiter <- dequeue_waiter ;;
  match waiter with
  | Some t => Event.wake_waiter self t
  | None => native_signal
  end.

Definition notify_all : prog world unit :=
  loop tt (fun _ =>
    waiter <- dequeue_waiter ;;
    match waiter with
    | None => Ret (inr tt)
    | Some t => Event.wake_waiter self t ;;; Ret (inl tt)
    end) ;;;
  native_broadcast.

Definition WaitAwaiter_await_ready : prog world bool := Ret false.

(** [None] is the exception. *)
Definition WaitAwaiter_await_suspend (m : ptr) : prog world (option bool) :=
  meta <- current_coro_meta self ;;
  match meta with
  | None => Ret None
  | Some meta =>
      Mutex.unlock self m ;;;
      set tasks meta Task.state Task.SUSPENDED ;;;
      set tasks meta Task.waiting_sync (Some c) ;;;
      enqueue_waiter meta ;;;
      Ret (Some true)
  end.

Definition WaitAwaiter_await_resume (m : ptr) : prog world unit :=
  loop tt (fun _ =>
    got <- Mutex.try_lock self m ;;
    if got : bool then Ret (inr tt) else pause ;;; Ret (inl tt)).

End Operations.
(** ** Notifying *)

(** C21: Called by anyone (a thread outside the runtime, the loop of a worker
    or a bthread), when there is room for the waiters where the caller queues
    tasks, notify_all() makes every queued waiter ready, queues each once in
    order of arrival, wakes an idle worker for each while there are any,
    empties the queue of waiters and lets every native waiter go. *)
Theorem notify_all_wakes_everyone self c o v idle k p l (Hc : v_conds v !! c = Some o) (Hq : queueing self v idle k p)
    (Hl : MpscQueue.repr (rd (waiter_queue_ c) v) l) (Ht : forall t, t ∈ l -> is_Some (rd tasks v !! t))
    (Hk : Z.of_nat (length l) <= k) (Hfit : place_fits p l = true) :
  wp (notify_all self c) (fun _ v' => submitted self v v' idle k p l /\
    (forall t o, rd tasks v !! t = Some o ->
       rd tasks v' !! t = Some (if decide (t ∈ l) then Event.readied o else o)) /\
    MpscQueue.repr (rd (waiter_queue_ c) v') [] /\
    v_conds v' = <[c := wr CondVar.signals (CondVar.c_waiting o) o]> (v_conds v)) v.
Proof.
  unfold notify_all. apply wp_bind. eapply wp_mono; [exact (Event.wake_all_ok self c v idle k p l Hq Hl Ht Hk Hfit)|].
  intros [] v' [H1 H2 H3 _ H5]. unfold native_broadcast. apply wp_act_last. rewrite H5, Hc.
  split; [eapply submitted_same; [reflexivity|exact H1|by split_and!]|]. split; [exact H2|].
  split; [exact H3|reflexivity].
Qed.

(** ** Instances and races *)

Definition with_cond (v : world) : world :=
  wr conds {[40%nat := CondVar.CondVar]} (wr (waiter_queue_ 40) (MpscQueue.Mpsc (Some 5%nat) (Some 4%nat)
    {[4%nat := 5%nat]}) v).

Lemma same_sched_conds v x : same_sched v (wr conds x v).
Proof. by split_and!. Qed.

Lemma with_cond_sched v : same_sched v (with_cond v).
Proof. unfold with_cond. etrans; [apply (Event.same_sched_waiters 40 v)|apply same_sched_conds]. Qed.

Lemma with_cond_tasks v : rd tasks (with_cond v) = rd tasks v.
Proof. reflexivity. Qed.

Example notify_all_wakes_everyone_witness :
  wp (notify_all (Native 0) 40) (fun _ v' =>
    queueing (Native 0) v' [] 3 (Global ([[4]; [5]]%nat, 2)) /\
    (Task.m_state <$> rd tasks v' !! 4%nat = Some Task.READY) /\
    MpscQueue.repr (rd (waiter_queue_ 40) v') [] /\
    v_conds v' !! 40%nat = Some CondVar.CondVar) (with_cond Event.two_waiting).
Proof.
  eapply wp_mono; [apply (notify_all_wakes_everyone (Native 0) 40 CondVar.CondVar (with_cond Event.two_waiting) [0] 5
    (Global ([[]; []], 0)) [4; 5]%nat)|].
  - reflexivity.
  - eapply queueing_same; [apply with_cond_sched|apply (Event.two_waiting_queueing 0 5); lia].
  - split; [reflexivity|reflexivity|by apply (bool_decide_unpack (NoDup [4; 5]%nat)); vm_compute|].
    intros [|[|k]] x Hx; [injection Hx as <-; reflexivity..|done].
  - intros t. rewrite with_cond_tasks. apply Event.two_waiting_live.
  - by vm_compute.
  - by vm_compute.
  - intros [] v' ([H1 _] & H2 & H3 & H4). split; [exact H1|].
    split; [by rewrite (H2 4%nat (wr Task.state Task.SUSPENDED Task.new_TaskMeta)
      (eq_trans (f_equal (lookup 4%nat) (with_cond_tasks _)) eq_refl))|].
    split; [exact H3|]. by rewrite H4.
Defined.

(** Task 3 holds the mutex at address 20. *)
Definition holding_task : world :=
  wr conds {[40%nat := CondVar.CondVar]}
    (wr mutexes {[20%nat := wr Mutex.state_ Mutex.LOCKED World.Mutex.Mutex]} Butex.one_running).

Definition is_free (m : ptr) (v : world) : bool :=
  bool_decide (World.Mutex.m_state_ <$> v_mutexes v !! m = Some 0).

(** There is an interleaving in which notify_one() runs between the unlocking
    of the mutex and the waiter entering the queue: the waiter is suspended
    forever. *)
Theorem a_notification_between_unlock_and_sleep_is_lost :
  exists ts v, reachable ([wait (OnStack 3) 40 20 ;;; Ret 0; notify_one (Native 0) 40 ;;; Ret 0], holding_task) (ts, v) /\
    Prelude.result <$> ts = [None; Some 0] /\
    is_free 20 v = true /\ Butex.is_suspended 3 v = true /\ Butex.is_executed 3 v = false /\
    wp (PickTask 1) (fun r _ => r = None) v /\ wp (PickTask 2) (fun r _ => r = None) v.
Proof.
  destruct (drive_results_reachable
    (fun v => (is_free 20 v, Butex.is_suspended 3 v, Butex.is_executed 3 v, Butex.finds 1 v, Butex.finds 2 v))
    2000 [Until 0 (is_free 20); All 1; All 0]
    ([wait (OnStack 3) 40 20 ;;; Ret 0; notify_one (Native 0) 40 ;;; Ret 0], holding_task)
    [None; Some 0] [false; false] (true, true, false, Some None, Some None))
    as (ts & v & Hr & H1 & _ & Ho); [vm_compute; reflexivity|].
  cbv beta in Ho. apply pair_equal_spec in Ho as [Ho H6]. apply pair_equal_spec in Ho as [Ho H5].
  apply pair_equal_spec in Ho as [Ho H4]. apply pair_equal_spec in Ho as [H2 H3].
  exists ts, v. split; [exact Hr|]. split; [exact H1|]. split; [exact H2|]. split; [exact H3|]. split; [exact H4|].
  split; [exact (Butex.finds_ok _ _ _ H5)|exact (Butex.finds_ok _ _ _ H6)].
Qed.

(** A thread waits on the condition variable, a bthread wants the mutex in order
    to notify it. *)
Definition waiter_and_notifier : list (prog world Z) :=
  [Mutex.lock (Native 0) 20 ;;; wait (Native 0) 40 20 ;;; Ret 0;
   Mutex.lock (OnStack 3) 20 ;;; notify_one (OnStack 3) 40 ;;; Mutex.unlock (OnStack 3) 20 ;;; Ret 0].

Definition free_mutex : world :=
  wr conds {[40%nat := CondVar.CondVar]} (wr mutexes {[20%nat := World.Mutex.Mutex]} Butex.one_running).

Definition waiter_then_notifier : conf world Z := drive 2000 [All 0; All 1] (waiter_and_notifier, free_mutex).

(** While a thread outside the runtime waits on the condition variable the
    native mutex is free but the LOCKED bit set, so a bthread that wants to
    notify it blocks on the mutex: both are stuck. *)
Theorem a_bthread_cannot_lock_while_a_pthread_waits :
  exists ts v, reachable (waiter_and_notifier, free_mutex) (ts, v) /\
    is_stuck v <$> ts = [true; true] /\
    World.Mutex.m_native <$> v_mutexes v !! 20%nat = Some None /\
    Butex.is_suspended 3 v = true /\ Butex.is_executed 3 v = false.
Proof.
  exists waiter_then_notifier.1, waiter_then_notifier.2. split; [rewrite <- surjective_pairing; apply drive_reachable|].
  split; [vm_compute; reflexivity|]. split; [vm_compute; reflexivity|]. split; vm_compute; reflexivity.
Qed.

End CondVar.
