(* ===== verification/CoroTask.v ===== *)
(** * Promises and handles of coroutines

    Model of [include/coro/coroutine.h]: the promise types [TaskPromise<T>],
    [TaskPromise<void>], [SafeTaskPromise<T>] and [SafeTaskPromise<void>], and
    the objects [Task<T>], [Task<void>], [SafeTask<T>] and [SafeTask<void>]
    that own a coroutine.  The instances that [Scheduler::Spawn] is compiled
    for have [T = int].  A handle is the address of the frame; using a frame
    that was destroyed, or through a handle of another promise type, is
    undefined behaviour. *)

From Stdlib Require Import ZArith Lia String.
From stdpp Require Import base numbers list gmap relations option strings.
From S2P Require Import Prelude Mpsc SharedMpsc WorkStealing Task TaskGroup Timer Platform.
From S2P Require Import Result FramePool World Workers Scheduler.

Open Scope Z_scope.

Module CoroTask.
Import World World.Worker Workers Scheduler.

(** ** Memory for frames *)

Definition GetGlobalFramePool : prog world unit :=
  call_once (sub coroutines Coroutines.pool_once) (zoom frame_pool_ (FramePool.Init (8 * 1024) 32)).

Definition operator_new (size : Z) : prog world (option ptr) :=
  GetGlobalFramePool ;;; zoom frame_pool_ (FramePool.Allocate size).
Definition operator_delete (p : ptr) : prog world unit :=
  GetGlobalFramePool ;;; zoom frame_pool_ (FramePool.Deallocate (Some p)).

(** [handle.destroy()]: the coroutine must be suspended. *)
Definition destroy (h : ptr) : prog world unit :=
  act (fun v => if decide (worker_on v h = None) then
                  match rd frames v !! h with
                  | Some _ => Go tt (wr frames (delete h (rd frames v)) v)
                  | None => Bad
                  end
                else Bad) ;;;
  operator_delete h.

(** [handle.done()]. *)
Definition done (h : ptr) : prog world bool := get frames h Frame.done.

(** [handle.promise()] for a handle of promise type [k]: reading and writing a
    member. *)
Definition of_kind (k : kind) (o : Frame.frame) : bool :=
  bool_decide (Frame.kind_of (Frame.f_promise_ o) = k).
Definition promise_get {B} (k : kind) (h : ptr) (f : field Frame.frame B) : prog world B :=
  act (fun v => match rd frames v !! h with
                | Some o => if of_kind k o then Go (rd f o) v else Bad
                | None => Bad
                end).
Definition promise_set {B} (k : kind) (h : ptr) (f : field Frame.frame B) (x : B) : prog world unit :=
  act (fun v => match rd frames v !! h with
                | Some o => if of_kind k o then Go tt (wr frames (<[h := wr f x o]> (rd frames v)) v) else Bad
                | None => Bad
                end).

(** The members that depend on the promise type. *)
Definition update_promise {B} (h : ptr) (g : Frame.promise -> option (B * Frame.promise)) : prog world B :=
  act (fun v => match rd frames v !! h with
                | Some o => match g (Frame.f_promise_ o) with
                            | Some (b, p) => Go b (wr frames (<[h := wr Frame.promise_ p o]> (rd frames v)) v)
                            | None => Bad
                            end
                | None => Bad
                end).

(** ** What the promise types and the task types have in common *)

Section Promise.
Context (k : kind).

Definition set_awaiter (self : who) (h awaiting : ptr) : prog world unit :=
  promise_set k h Frame.awaiter_ (Some awaiting) ;;;
  meta <- current_coro_meta self ;;
  promise_set k h Frame.awaiter_meta_ meta.

Definition set_meta (h m : ptr) : prog world unit := promise_set k h Frame.meta_ (Some m).
Definition meta (h : ptr) : prog world (option ptr) := promise_get k h Frame.meta_.

(** [FinalAwaiter::await_suspend], on worker [w]; [None] is the no-op coroutine. *)
Definition FinalAwaiter_await_suspend (w h : ptr) : prog world (option ptr) :=
  awaiter <- promise_get k h Frame.awaiter_ ;;
  match awaiter with
  | None => Ret None
  | Some _ =>
      m <- promise_get k h Frame.awaiter_meta_ ;;
      (match m with
       | Some _ =>
           m <- promise_get k h Frame.awaiter_meta_ ;;
           on w (store current_coro_meta_ m)
       | None => Ret tt
       end) ;;;
      promise_get k h Frame.awaiter_
  end.
End Promise.

Section Handle.
Context (k : kind).

(** A task object is its [handle_]. *)
Definition delete_Task (handle_ : option ptr) : prog world unit :=
  match handle_ with Some h => destroy h | None => Ret tt end.

(** [*this = std::move(other)] for two objects: the new handles of both. *)
Definition move_assign (same : bool) (this other : option ptr) : prog world (option ptr * option ptr) :=
  if same then Ret (this, other)
  else delete_Task this ;;; Ret (other, None).

Definition is_done (handle_ : option ptr) : prog world bool :=
  match handle_ with Some h => done h | None => Ret false end.

Definition release (handle_ : option ptr) : option ptr := None.

Definition await_ready (handle_ : option ptr) : prog world bool :=
  match handle_ with Some h => done h | None => Ret false end.

Definition await_suspend (self : who) (handle_ : option ptr) (awaiting : ptr) : prog world unit :=
  match handle_ with Some h => set_awaiter k self h awaiting | None => undefined end.
End Handle.

(** ** [TaskPromise<T>] and [Task<T>] *)

Module PromiseT.
Definition FinalAwaiter_await_suspend := FinalAwaiter_await_suspend TaskInt.
Definition set_awaiter := set_awaiter TaskInt.
Definition set_meta := set_meta TaskInt.
Definition meta := meta TaskInt.

Definition TaskPromise : Frame.promise := Frame.TaskPromise 0 None.

Definition return_value (h : ptr) (value : Z) : prog world unit :=
  update_promise h (fun p => match p with
    | Frame.TaskPromise _ e => Some (tt, Frame.TaskPromise value e)
    | _ => None
    end).
Definition unhandled_exception (h : ptr) (x : Result.exception) : prog world unit :=
  update_promise h (fun p => match p with
    | Frame.TaskPromise r _ => Some (tt, Frame.TaskPromise r (Some x))
    | _ => None
    end).
Definition get_result (h : ptr) : prog world (Result.throws Z) :=
  update_promise h (fun p => match p with
    | Frame.TaskPromise r (Some x) => Some (inr x, p)
    | Frame.TaskPromise r None => Some (inl r, p)
    | _ => None
    end).
End PromiseT.

Module HandleT.
Definition delete_Task := delete_Task.
Definition move_assign := move_assign.
Definition is_done := is_done.
Definition release := release.

Definition get (handle_ : option ptr) : prog world (Result.throws Z) :=
  match handle_ with
  | None => Ret (inr (Result.StdException "Task has no handle"))
  | Some h =>
      d <- done h ;;
      if d : bool then PromiseT.get_result h
      else Ret (inr (Result.StdException "Task not completed"))
  end.

Definition await_ready := await_ready.
Definition await_suspend := await_suspend TaskInt.
Definition await_resume := get.
End HandleT.

(** ** [TaskPromise<void>] and [Task<void>] *)

Module PromiseVoid.
Definition FinalAwaiter_await_suspend := FinalAwaiter_await_suspend TaskVoid.
Definition set_awaiter := set_awaiter TaskVoid.
Definition set_meta := set_meta TaskVoid.
Definition meta := meta TaskVoid.

Definition TaskPromise : Frame.promise := Frame.TaskPromiseVoid None.

Definition return_void (h : ptr) : prog world unit :=
  update_promise h (fun p => match p with
    | Frame.TaskPromiseVoid _ => Some (tt, p)
    | _ => None
    end).
Definition unhandled_exception (h : ptr) (x : Result.exception) : prog world unit :=
  update_promise h (fun p => match p with
    | Frame.TaskPromiseVoid _ => Some (tt, Frame.TaskPromiseVoid (Some x))
    | _ => None
    end).
Definition get_result (h : ptr) : prog world (Result.throws unit) :=
  update_promise h (fun p => match p with
    | Frame.TaskPromiseVoid (Some x) => Some (inr x, p)
    | Frame.TaskPromiseVoid None => Some (inl tt, p)
    | _ => None
    end).
End PromiseVoid.

Module HandleVoid.
Definition delete_Task := delete_Task.
Definition move_assign := move_assign.
Definition is_done := is_done.
Definition release := release.

Definition get (handle_ : option ptr) : prog world (Result.throws unit) :=
  match handle_ with
  | None => Ret (inr (Result.StdException "Task has no handle"))
  | Some h =>
      d <- done h ;;
      if d : bool then PromiseVoid.get_result h
      else Ret (inr (Result.StdException "Task not completed"))
  end.

Definition await_ready := await_ready.
Definition await_suspend := await_suspend TaskVoid.
Definition await_resume := get.
End HandleVoid.

(** What is caught becomes an error. *)
Definition error_of (x : Result.exception) : Result.Error :=
  match x with
  | Result.StdException what => Result.MkError (-3) what
  | Result.OtherException _ => Result.MkError (-4) "unknown exception"
  end.

(** An [Error] that was moved from: its message is left empty. *)
Definition moved (e : Result.Error) : Result.Error := Result.MkError (Result.code e) "".

(** ** [SafeTaskPromise<T>] and [SafeTask<T>] *)

Module SafePromiseT.
Definition FinalAwaiter_await_suspend := FinalAwaiter_await_suspend SafeTaskInt.
Definition set_awaiter := set_awaiter SafeTaskInt.
Definition set_meta := set_meta SafeTaskInt.
Definition meta := meta SafeTaskInt.

Definition SafeTaskPromise : Frame.promise := Frame.SafeTaskPromise Result.uninitialized.

Definition set_result (h : ptr) (r : Result.Result Z) : prog world unit :=
  update_promise h (fun p => match p with
    | Frame.SafeTaskPromise _ => Some (tt, Frame.SafeTaskPromise r)
    | _ => None
    end).
Definition return_value (h : ptr) (value : Z) : prog world unit := set_result h (Result.Value value).
Definition return_error (h : ptr) (e : Result.Error) : prog world unit := set_result h (Result.Failure e).
Definition unhandled_exception (h : ptr) (x : Result.exception) : prog world unit :=
  set_result h (Result.Failure (error_of x)).
(** [std::move(result_)]. *)
Definition get_result (h : ptr) : prog world (Result.Result Z) :=
  update_promise h (fun p => match p with
    | Frame.SafeTaskPromise (Result.Value v) => Some (Result.Value v, p)
    | Frame.SafeTaskPromise (Result.Failure e) =>
        Some (Result.Failure e, Frame.SafeTaskPromise (Result.Failure (moved e)))
    | _ => None
    end).
End SafePromiseT.

Module SafeHandleT.
Definition delete_Task := delete_Task.
Definition move_assign := move_assign.
Definition is_done := is_done.
Definition release := release.

Definition get (handle_ : option ptr) : prog world (Result.Result Z) :=
  match handle_ with
  | None => Ret (Result.Failure (Result.MkError (-1) "Task has no handle"))
  | Some h =>
      d <- done h ;;
      if d : bool then SafePromiseT.get_result h
      else Ret (Result.Failure (Result.MkError (-2) "Task not completed"))
  end.

Definition await_ready := await_ready.
Definition await_suspend := await_suspend SafeTaskInt.
Definition await_resume := get.
End SafeHandleT.

(** ** [SafeTaskPromise<void>] and [SafeTask<void>] *)

Module SafePromiseVoid.
Definition FinalAwaiter_await_suspend := FinalAwaiter_await_suspend SafeTaskVoid.
Definition set_awaiter := set_awaiter SafeTaskVoid.
Definition set_meta := set_meta SafeTaskVoid.
Definition meta := meta SafeTaskVoid.

Definition SafeTaskPromise : Frame.promise := Frame.SafeTaskPromiseVoid Result.Void.Success.

Definition return_result (h : ptr) (r : Result.Void.Result) : prog world unit :=
  update_promise h (fun p => match p with
    | Frame.SafeTaskPromiseVoid _ => Some (tt, Frame.SafeTaskPromiseVoid r)
    | _ => None
    end).
(** [co_return VoidSuccess{}]. *)
Definition return_success (h : ptr) : prog world unit := return_result h Result.Void.Success.
Definition return_error (h : ptr) (e : Result.Error) : prog world unit :=
  return_result h (Result.Void.Failure e).
Definition unhandled_exception (h : ptr) (x : Result.exception) : prog world unit :=
  return_result h (Result.Void.Failure (error_of x)).
(** [std::move(result_)]. *)
Definition get_result (h : ptr) : prog world Result.Void.Result :=
  update_promise h (fun p => match p with
    | Frame.SafeTaskPromiseVoid r =>
        Some (r, Frame.SafeTaskPromiseVoid
                   (Result.Void.MkResult (Result.Void.has_error_ r) (moved (Result.Void.error_ r))))
    | _ => None
    end).
End SafePromiseVoid.

Module SafeHandleVoid.
Definition delete_Task := delete_Task.
Definition move_assign := move_assign.
Definition is_done := is_done.
Definition release := release.

Definition get (handle_ : option ptr) : prog world Result.Void.Result :=
  match handle_ with
  | None => Ret (Result.Void.Failure (Result.MkError (-1) "Task has no handle"))
  | Some h =>
      d <- done h ;;
      if d : bool then SafePromiseVoid.get_result h
      else Ret (Result.Void.Failure (Result.MkError (-2) "Task not completed"))
  end.

Definition await_ready := await_ready.
Definition await_suspend := await_suspend SafeTaskVoid.
Definition await_resume := get.
End SafeHandleVoid.

End CoroTask.
