(* ===== verification/CoroScheduler.v ===== *)
(** * Sleeping, yielding and the metadata of coroutines

    Model of [src/coro/scheduler.cpp]: the thread that wakes sleeping
    coroutines, the awaiters of [sleep] and [yield], and [CoroutineScheduler].
    A [std::multimap] is the list of its entries in order; the steady clock
    counts nanoseconds in a signed 64-bit word. *)

From Stdlib Require Import ZArith Lia Sorted.
From stdpp Require Import base numbers list gmap relations option sorting.
From S2P Require Import Prelude Mpsc SharedMpsc WorkStealing Task TaskGroup Timer Platform.
From S2P Require Import World Workers Scheduler Butex.

Open Scope Z_scope.

Module CoroScheduler.
Import World World.Worker Workers Scheduler.

Definition sleep_mutex : field world bool := sub coroutines Coroutines.sleep_mutex.
Definition sleep_queue_ : field world (list (Z * ptr)) := sub coroutines Coroutines.sleep_queue_.
Definition sleep_thread_running_ : field world bool := sub coroutines Coroutines.sleep_thread_running_.
Definition sleep_thread_ : field world thread_state := sub coroutines Coroutines.sleep_thread_.
Definition sleep_init_once_ : field world once := sub coroutines Coroutines.sleep_init_once_.
Definition steady_clock : field world Z := sub coroutines Coroutines.steady_clock.
Definition meta_pool_ : field world (list ptr) := sub coroutines Coroutines.meta_pool_.
Definition meta_mutex_ : field world bool := sub coroutines Coroutines.meta_mutex_.

(** [sleep_queue_.emplace]: behind the entries with the same time. *)
Fixpoint emplace (e : Z * ptr) (q : list (Z * ptr)) : list (Z * ptr) :=
  match q with
  | [] => [e]
  | x :: q' => if e.1 <? x.1 then e :: x :: q' else x :: emplace e q'
  end.

(** [sleep_cv.wait_for]: another thread may take the mutex meanwhile; the wait
    may end at any time. *)
Definition sleep_cv_wait : prog world unit :=
  unlock sleep_mutex ;;; pause ;;; lock sleep_mutex.

Section Thread.
Context (self : who).

(** The loop that wakes the coroutines whose time has come. *)
Definition wake_round (now : Z) : prog world (unit + unit) :=
  q <- load sleep_queue_ ;;
  match q with
  | [] => Ret (inr tt)
  | (t, meta) :: _ =>
      if t <=? now then
        set tasks meta Task.state Task.READY ;;;
        Submit self meta ;;;
        fetch sleep_queue_ tail ;;;
        Ret (inl tt)
      else Ret (inr tt)
  end.

(** A round of the thread. *)
Definition sleep_round : prog world (unit + unit) :=
  running <- load sleep_thread_running_ ;;
  if running : bool then
    lock sleep_mutex ;;;
    q <- load sleep_queue_ ;;
    match q with
    | [] => sleep_cv_wait ;;; unlock sleep_mutex ;;; Ret (inl tt)
    | _ :: _ =>
        now <- load steady_clock ;;
        loop tt (fun _ => wake_round now) ;;;
        q <- load sleep_queue_ ;;
        (match q with
         | [] => Ret tt
         | (next_time, _) :: _ =>
             now <- load steady_clock ;;
             if 0 <? next_time - now then sleep_cv_wait else Ret tt
         end) ;;;
        unlock sleep_mutex ;;;
        Ret (inl tt)
    end
  else Ret (inr tt).

(** The thread, once it was created. *)
Definition sleep_thread : prog world unit :=
  act (fun v => if decide (rd sleep_thread_ v = Started) then Go tt v else Block) ;;;
  loop tt (fun _ => sleep_round) ;;;
  store sleep_thread_ Exited.

(** Assigning to a thread object that is joinable ends the program. *)
Definition StartSleepThread : prog world unit :=
  running <- exchange sleep_thread_running_ true ;;
  if running : bool then Ret tt
  else act (fun v => if decide (rd sleep_thread_ v = NoThread) then Go tt (wr sleep_thread_ Started v) else Bad).

(** ** The awaiters *)

Definition SleepAwaiter_await_ready : prog world bool := Ret false.

Definition INT64_MAX : Z := 2 ^ 63 - 1.
Definition INT64_MIN : Z := - 2 ^ 63.

(** [now + duration_], in nanoseconds. *)
Definition wake_time (now ms : Z) : prog world Z :=
  if (INT64_MIN <=? now + ms * 1000000) && (now + ms * 1000000 <=? INT64_MAX) &&
     (INT64_MIN <=? ms * 1000000) && (ms * 1000000 <=? INT64_MAX)
  then Ret (now + ms * 1000000) else undefined.

Definition SleepAwaiter_await_suspend (duration_ : Z) : prog world bool :=
  meta <- current_coro_meta self ;;
  match meta with
  | None => pause ;;; Ret false
  | Some meta =>
      set tasks meta Task.state Task.SUSPENDED ;;;
      now <- load steady_clock ;;
      t <- wake_time now duration_ ;;
      lock sleep_mutex ;;;
      fetch sleep_queue_ (emplace (t, meta)) ;;;
      unlock sleep_mutex ;;;
      call_once sleep_init_once_ StartSleepThread ;;;
      Ret true
  end.

Definition YieldAwaiter_await_ready : prog world bool := Ret false.

Definition YieldAwaiter_await_suspend : prog world bool :=
  meta <- current_coro_meta self ;;
  match meta with
  | None => Ret false
  | Some meta =>
      set tasks meta Task.state Task.READY ;;;
      Submit self meta ;;;
      Ret true
  end.

(** ** [CoroutineScheduler] *)

Definition Init : prog world unit := Scheduler.Init.

(** The destructor does the same. *)
Definition Shutdown : prog world unit :=
  running <- load sleep_thread_running_ ;;
  if running : bool then
    store sleep_thread_running_ false ;;;
    joinable <- load sleep_thread_ ;;
    match joinable with
    | NoThread => Ret tt
    | Started | Exited =>
        act (fun v => match rd sleep_thread_ v with
                      | Exited => Go tt (wr sleep_thread_ NoThread v)
                      | Started => Block
                      | NoThread => Bad
                      end)
    end
  else Ret tt.

Definition running : prog world bool := load running_.

Definition EnqueueCoroutine (meta : ptr) : prog world unit := Submit self meta.

(** [new CoroutineMeta()]. *)
Definition new_CoroutineMeta : prog world ptr :=
  p <- Task.alloc mem Task.tasks (wr Task.type Task.COROUTINE Task.new_TaskMeta) ;;
  act (fun v => Go p (wr coros (<[p := Coro.CoroutineMeta]> (rd coros v)) v)).

(** [meta->next.store(nullptr)]. *)
Definition clear_next (p : ptr) : prog world unit :=
  act (fun v => Go tt (wr (sub mem Task.next) (delete p (rd (sub mem Task.next) v)) v)).

(** The next entry of the pool that is not in use. *)
Definition find_meta (l : list ptr) : prog world (list ptr + option ptr) :=
  match l with
  | [] => Ret (inr None)
  | meta :: l =>
      s <- get tasks meta Task.state ;;
      unused <- (if decide (s = Task.FINISHED) then Ret true
                 else h <- get coros meta Coro.handle ;; Ret (bool_decide (h = None))) ;;
      Ret (if unused : bool then inr (Some meta) else inl l)
  end.

Definition AllocMeta : prog world ptr :=
  lock meta_mutex_ ;;;
  pool <- load meta_pool_ ;;
  found <- loop pool find_meta ;;
  match found with
  | Some meta =>
      set tasks meta Task.state Task.READY ;;;
      set coros meta Coro.cancel_requested false ;;;
      set tasks meta Task.waiting_sync None ;;;
      clear_next meta ;;;
      set tasks meta Task.owner_worker None ;;;
      unlock meta_mutex_ ;;;
      Ret meta
  | None =>
      meta <- new_CoroutineMeta ;;
      fetch meta_pool_ (fun l => l ++ [meta]) ;;;
      unlock meta_mutex_ ;;;
      Ret meta
  end.

Definition FreeMeta (meta : ptr) : prog world unit :=
  lock meta_mutex_ ;;;
  set tasks meta Task.state Task.FINISHED ;;;
  set coros meta Coro.handle None ;;;
  unlock meta_mutex_.

Definition worker_count : prog world Z := load worker_count_.
End Thread.

(** ** The queue of sleeping coroutines *)

#[export] Instance sleep_queue_ok : FieldOk sleep_queue_.
Proof. apply sub_ok; [apply _|apply Coroutines.sleep_queue__ok]. Qed.

Definition earlier (a b : Z * ptr) : Prop := a.1 <= b.1.

#[local] Instance earlier_trans : Transitive earlier.
Proof. intros a b c H1 H2. unfold earlier in *. lia. Qed.

(** An entry goes behind those that are due no later, and in front of the
    others. *)
Lemma emplace_spec e q : StronglySorted earlier q ->
  StronglySorted earlier (emplace e q) /\
  exists l1 l2, q = l1 ++ l2 /\ emplace e q = l1 ++ e :: l2 /\
    Forall (fun x => x.1 <= e.1) l1 /\ Forall (fun x => e.1 < x.1) l2.
Proof.
  induction 1 as [|x q Hq IH Hx]; simpl.
  - split; [by repeat constructor|]. by exists [], [].
  - destruct (Z.ltb_spec e.1 x.1) as [Hlt|Hge].
    + split.
      * constructor; [by constructor|]. constructor; [unfold earlier; lia|].
        eapply Forall_impl; [exact Hx|]. unfold earlier. intros y Hy. simpl in Hy. lia.
      * exists [], (x :: q). split_and!; [done..|]. constructor; [done|].
        eapply Forall_impl; [exact Hx|]. unfold earlier. intros y Hy. simpl in Hy. lia.
    + destruct IH as (IH & l1 & l2 & -> & E & H1 & H2). split.
      * constructor; [done|]. rewrite E. apply Forall_app in Hx as [Ha Hb].
        apply Forall_app. split; [done|]. by constructor.
      * exists (x :: l1), l2. rewrite E. split_and!; [done..| |done]. by constructor.
Qed.

Lemma same_sched_coroutines v r : same_sched v (wr coroutines r v).
Proof. by split_and!. Qed.

(** The same, whatever the new state looks like. *)
Lemma same_sched_but_coroutines v v' : wr coroutines (v_coroutines v') v = v' -> same_sched v v'.
Proof. intros <-. apply same_sched_coroutines. Qed.

(** An entry that is due is taken and submitted. *)
Lemma wake_round_due self v now idle k p t m q o :
  queueing self v idle k p -> rd sleep_queue_ v = (t, m) :: q -> t <= now -> rd tasks v !! m = Some o -> 0 < k ->
  place_fits p [m] = true ->
  wp (wake_round self now) (fun r v' => r = inl tt /\ submitted self v v' idle k p [m] /\
    v_coroutines v' = v_coroutines (wr sleep_queue_ q v) /\
    rd tasks v' = <[m := wr Task.state Task.READY o]> (rd tasks v)) v.
Proof.
  intros Hq Es Hle Ho Hk Hfit. unfold wake_round. apply wp_load_bind. rewrite Es.
  rewrite (proj2 (Z.leb_le t now)) by lia. eapply wp_set_bind; [exact Ho|].
  set (v1 := wr tasks (<[m := wr Task.state Task.READY o]> (rd tasks v)) v).
  assert (Ho1 : rd tasks v1 !! m = Some (wr Task.state Task.READY o))
    by (unfold v1; rewrite rd_wr; apply lookup_insert_eq).
  pose proof (Butex.same_sched_tasks v _ : same_sched v v1) as E1.
  apply wp_bind. eapply wp_mono.
  { apply (Submit_submits self v1 m (wr Task.state Task.READY o) idle k p);
      [by eapply queueing_same|exact Hk|exact Ho1|exact Hfit]. }
  intros [] v2 (Q2 & T2 & _ & S2 & _ & _). apply wp_fetch_bind, wp_ret.
  destruct S2 as (_ & _ & _ & _ & _ & S2). split; [done|].
  split; [eapply submitted_same; [exact E1|exact Q2|apply same_sched_coroutines]|]. split.
  - assert (E2 : rd sleep_queue_ v2 = (t, m) :: q).
    { change (Coroutines.r_sleep_queue_ (v_coroutines v2) = (t, m) :: q). by rewrite S2. }
    rewrite E2. simpl. by rewrite S2.
  - change (rd tasks v2 = <[m := wr Task.state Task.READY o]> (rd tasks v)). rewrite T2.
    unfold v1. by rewrite rd_wr, insert_insert_eq.
Qed.

(** Otherwise the loop ends. *)
Lemma wake_round_none self v now : (forall e, head (rd sleep_queue_ v) = Some e -> now < e.1) ->
  wp (wake_round self now) (fun r v' => r = inr tt /\ v' = v) v.
Proof.
  intros H. unfold wake_round. apply wp_load_bind. destruct (rd sleep_queue_ v) as [|[t m] q]; [by apply wp_ret|].
  specialize (H _ eq_refl). simpl in H. rewrite (proj2 (Z.leb_gt t now)) by lia. by apply wp_ret.
Qed.

(** The loop takes the entries that are due, in order, and submits each. *)
Lemma wake_due self v now idle k p due rest :
  queueing self v idle k p -> rd sleep_queue_ v = due ++ rest ->
  Forall (fun e => e.1 <= now) due -> (forall e, head rest = Some e -> now < e.1) ->
  (forall t, t ∈ due.*2 -> is_Some (rd tasks v !! t)) -> Z.of_nat (length due) <= k ->
  place_fits p due.*2 = true ->
  wp (loop tt (fun _ => wake_round self now)) (fun _ v' => submitted self v v' idle k p due.*2 /\
    v_coroutines v' = v_coroutines (wr sleep_queue_ rest v) /\
    (forall t, t ∈ due.*2 -> Task.m_state <$> rd tasks v' !! t = Some Task.READY) /\
    (forall t o, rd tasks v !! t = Some o -> t ∉ due.*2 -> rd tasks v' !! t = Some o)) v.
Proof.
  revert v idle k p; induction due as [|[t m] due IH]; intros v idle k p Hq Es Hdue Hrest Ht Hk Hfit;
    apply wp_loop_once.
  - eapply wp_mono; [apply wake_round_none; by rewrite Es|]. intros r v' [-> ->].
    split; [by apply submitted_nil|]. split; [|split; [by intros t Ht'%not_elem_of_nil|done]].
    change (rd sleep_queue_ v = rest) in Es. by rewrite <- Es, wr_rd.
  - apply Forall_cons in Hdue as [Hle Hdue]. destruct (Ht m) as [o Ho]; [by left|].
    change (((t, m) :: due).*2) with ([m] ++ due.*2) in *.
    apply place_fits_app in Hfit as [Hf1 Hf2]. cbn [length] in Hk.
    eapply wp_mono; [apply (wake_round_due self v now idle k p t m (due ++ rest) o Hq Es Hle Ho); [lia|exact Hf1]|].
    intros r v3 (-> & Q3 & S3 & T3). eapply wp_mono.
    { apply (IH v3 _ _ _ (sb_queueing _ _ _ _ _ _ _ Q3)).
      - change (Coroutines.r_sleep_queue_ (v_coroutines v3) = due ++ rest). by rewrite S3.
      - done.
      - done.
      - intros t' Ht'. rewrite T3. destruct (decide (t' = m)) as [->|Hne];
          [rewrite lookup_insert_eq; by eexists|rewrite lookup_insert_ne by done; apply Ht; by right].
      - cbn [length]. lia.
      - exact Hf2. }
    intros [] v4 (Q4 & S4 & R4 & O4). split; [by eapply submitted_app|].
    split; [rewrite S4; simpl; by rewrite S3|]. split.
    + intros t' [->|Ht']%elem_of_cons; [|by apply R4].
      destruct (decide (m ∈ due.*2)) as [Hin|Hout]; [by apply R4|].
      change (Task.m_state <$> rd tasks v4 !! m = Some Task.READY).
      rewrite (O4 m (wr Task.state Task.READY o)); [done|by rewrite T3, lookup_insert_eq|done].
    + intros t' o' Ho' Hnot. apply O4; [|intros Hin; apply Hnot; by right].
      rewrite T3, lookup_insert_ne; [done|]. intros ->. apply Hnot. by left.
Qed.

(** ** A round of the sleep thread *)

(** The entries that are due at [now], and those that are not. *)
Fixpoint split_due (now : Z) (q : list (Z * ptr)) : list (Z * ptr) * list (Z * ptr) :=
  match q with
  | [] => ([], [])
  | e :: q' => if e.1 <=? now then let (due, rest) := split_due now q' in (e :: due, rest) else ([], q)
  end.

Lemma split_due_spec now q :
  q = (split_due now q).1 ++ (split_due now q).2 /\
  Forall (fun e => e.1 <= now) (split_due now q).1 /\
  (forall e, head (split_due now q).2 = Some e -> now < e.1).
Proof.
  induction q as [|e q (E & H1 & H2)]; simpl; [done|]. destruct (Z.leb_spec e.1 now) as [Hle|Hgt].
  - destruct (split_due now q) as [due rest]. simpl in *. split; [by f_equal|]. split; [by constructor|done].
  - simpl. split; [done|]. split; [constructor|]. intros e' [= <-]. lia.
Qed.

(** In a queue in order, what is not taken is due later. *)
Lemma split_due_rest now q : StronglySorted earlier q -> Forall (fun e => now < e.1) (split_due now q).2.
Proof.
  intros Hs. destruct (split_due_spec now q) as (E & _ & H). rewrite E in Hs.
  apply StronglySorted_app in Hs as (_ & _ & Hs).
  destruct (split_due now q).2 as [|e rest]; [done|]. specialize (H e eq_refl).
  apply StronglySorted_inv in Hs as [_ Hs]. constructor; [done|].
  eapply Forall_impl; [exact Hs|]. unfold earlier. intros x Hx. simpl in Hx. lia.
Qed.

(** C23: A round of the sleep thread, with the mutex free and room for them
    where it queues tasks, makes every coroutine whose wake time has come
    READY, queues each once in order of the wake times, takes an idle worker
    off the registry and wakes it for each while there are any, leaves exactly
    the later ones in the queue of sleepers and every other task unchanged,
    and releases the mutex. *)
Theorem sleep_round_wakes_expired self v idle k p (Hq : queueing self v idle k p)
    (Hrun : rd sleep_thread_running_ v = true) (Hmx : rd sleep_mutex v = false)
    (Hs : StronglySorted earlier (rd sleep_queue_ v))
    (Ht : forall t, t ∈ (rd sleep_queue_ v).*2 -> is_Some (rd tasks v !! t)) :
  let (due, rest) := split_due (rd steady_clock v) (rd sleep_queue_ v) in
  Z.of_nat (length due) <= k -> place_fits p due.*2 = true ->
  wp (sleep_round self) (fun r v' => r = inl tt /\ submitted self v v' idle k p due.*2 /\
    (forall t, t ∈ due.*2 -> Task.m_state <$> rd tasks v' !! t = Some Task.READY) /\
    (forall t o, rd tasks v !! t = Some o -> t ∉ due.*2 -> rd tasks v' !! t = Some o) /\
    rd sleep_queue_ v' = rest /\ Forall (fun e => rd steady_clock v < e.1) rest /\
    rd sleep_mutex v' = false) v.
Proof.
  set (now := rd steady_clock v). pose proof (split_due_spec now (rd sleep_queue_ v)) as (E & H1 & H2).
  pose proof (split_due_rest now _ Hs) as H3.
  destruct (split_due now (rd sleep_queue_ v)) as [due rest] eqn:Esp. simpl in E, H1, H2, H3. intros Hk Hfit.
  unfold sleep_round. apply wp_load_bind. rewrite Hrun. apply wp_lock_bind; [exact Hmx|].
  set (v1 := wr sleep_mutex true v). apply wp_load_bind.
  change (rd sleep_queue_ v1) with (rd sleep_queue_ v).
  pose proof (same_sched_coroutines v _ : same_sched v v1) as E1.
  destruct (rd sleep_queue_ v) as [|e q] eqn:Eq.
  - simpl in Esp. injection Esp as <- <-. unfold sleep_cv_wait. wp_go. apply wp_lock_bind; [done|]. wp_go.
    split; [done|]. split.
    { eapply submitted_same; [reflexivity|by apply submitted_nil|by apply same_sched_but_coroutines]. }
    by split_and!; [intros t Ht'%not_elem_of_nil|..].
  - apply wp_load_bind. apply wp_bind. eapply wp_mono.
    { apply (wake_due self v1 now idle k p due rest); [by eapply queueing_same| |done..| |done|done].
      - exact E.
      - intros t Hin. apply Ht. assert (E' : e :: q = due ++ rest) by (rewrite <- Eq; exact E).
        rewrite E', fmap_app. apply elem_of_app. by left. }
    intros [] v2 (Q2 & S2 & R2 & O2). apply wp_load_bind.
    assert (E2 : rd sleep_queue_ v2 = rest).
    { change (Coroutines.r_sleep_queue_ (v_coroutines v2) = rest). by rewrite S2. }
    assert (Hend : forall v3, v_group v3 = v_group v2 -> same_sched v2 v3 -> rd sleep_queue_ v3 = rest ->
      wp (unlock sleep_mutex ;;; Ret (inl tt) : prog world (unit + unit)) (fun r v' => r = inl tt /\
        submitted self v v' idle k p due.*2 /\
        (forall t, t ∈ due.*2 -> Task.m_state <$> rd tasks v' !! t = Some Task.READY) /\
        (forall t o, rd tasks v !! t = Some o -> t ∉ due.*2 -> rd tasks v' !! t = Some o) /\
        rd sleep_queue_ v' = rest /\ Forall (fun e => now < e.1) rest /\ rd sleep_mutex v' = false) v3).
    { intros v3 Eg Q3 E3. apply wp_store_bind, wp_ret. split; [done|].
      split; [eapply submitted_same; [exact E1|exact Q2|etrans; [exact Q3|apply same_sched_coroutines]]|].
      match goal with |- context [rd tasks ?s] => change (rd tasks s) with (Task.mem_tasks (TaskGroup.g_mem (v_group v3))) end.
      rewrite Eg. split; [exact R2|]. split; [exact O2|]. split; [exact E3|by split]. }
    rewrite E2. destruct rest as [|[nt nm] rest]; [apply wp_ret_bind; by apply Hend|].
    apply wp_assoc, wp_load_bind. destruct (0 <? nt - rd steady_clock v2); [|apply wp_ret_bind; by apply Hend].
    unfold sleep_cv_wait. apply wp_assoc, wp_store_bind, wp_assoc, wp_pause_bind, wp_lock_bind; [done|].
    apply Hend; [done|by apply same_sched_but_coroutines|exact E2].
Qed.

(** C24: A coroutine that sleeps is SUSPENDED and enters the queue of sleepers
    with the time now + duration, behind those due no later and before those
    due later; the queue stays sorted, and the sleep thread is started if it
    was not before. *)
Theorem sleeping_enqueues v w x meta o ms (Hx : v_workers v !! w = Some x) (Hm : w_current_coro_meta_ x = Some meta)
    (Ho : rd tasks v !! meta = Some o) (Hmx : rd sleep_mutex v = false)
    (Hs : StronglySorted earlier (rd sleep_queue_ v))
    (Honce : rd sleep_init_once_ v = Called \/
       rd sleep_init_once_ v = NotCalled /\ rd sleep_thread_running_ v = false /\ rd sleep_thread_ v = NoThread)
    (Hms : 0 <= ms) (Hc : 0 <= rd steady_clock v) (Hfit : rd steady_clock v + ms * 1000000 <= INT64_MAX) :
  wp (SleepAwaiter_await_suspend (OnLoop w) ms) (fun r v' => r = true /\
    rd tasks v' = <[meta := wr Task.state Task.SUSPENDED o]> (rd tasks v) /\
    StronglySorted earlier (rd sleep_queue_ v') /\
    (exists l1 l2, rd sleep_queue_ v = l1 ++ l2 /\
       rd sleep_queue_ v' = l1 ++ (rd steady_clock v + ms * 1000000, meta) :: l2 /\
       Forall (fun e => e.1 <= rd steady_clock v + ms * 1000000) l1 /\
       Forall (fun e => rd steady_clock v + ms * 1000000 < e.1) l2) /\
    rd sleep_init_once_ v' = Called /\ rd sleep_mutex v' = false /\
    (rd sleep_init_once_ v = NotCalled -> rd sleep_thread_ v' = Started)) v.
Proof.
  set (t := rd steady_clock v + ms * 1000000) in *. unfold SleepAwaiter_await_suspend, current_coro_meta.
  apply wp_assoc, wp_ret_bind. eapply wp_on_load_bind; [exact Hx|]. simpl (rd current_coro_meta_ x). rewrite Hm.
  eapply wp_set_bind; [exact Ho|]. set (v1 := wr tasks _ v). apply wp_load_bind.
  change (rd steady_clock v1) with (rd steady_clock v).
  unfold wake_time, INT64_MIN. fold t.
  rewrite (proj2 (Z.leb_le _ t)) by (unfold t; lia). rewrite (proj2 (Z.leb_le t _)) by lia.
  rewrite (proj2 (Z.leb_le _ (ms * 1000000))) by lia. rewrite (proj2 (Z.leb_le (ms * 1000000) _)) by lia.
  simpl andb. cbv iota. apply wp_ret_bind, wp_lock_bind; [exact Hmx|]. apply wp_fetch_bind, wp_store_bind.
  set (v2 := wr sleep_mutex false _).
  destruct (emplace_spec (t, meta) _ Hs) as (Hs' & Hl).
  assert (E2 : rd sleep_queue_ v2 = emplace (t, meta) (rd sleep_queue_ v)) by done.
  assert (T2 : rd tasks v2 = <[meta := wr Task.state Task.SUSPENDED o]> (rd tasks v))
    by exact (rd_wr (v := tasks) v _).
  unfold call_once. apply wp_bind, wp_act_bind. change (rd sleep_init_once_ v2) with (rd sleep_init_once_ v).
  destruct Honce as [Eo|(Eo & Er & Et)]; rewrite Eo.
  - apply wp_ret, wp_ret. split; [done|]. split; [exact T2|]. rewrite E2. split; [exact Hs'|]. split; [exact Hl|].
    split; [exact Eo|]. by split.
  - unfold StartSleepThread. apply wp_assoc, wp_exchange_bind.
    match goal with |- context [if ?b then _ else _] => change b with (rd sleep_thread_running_ v) end. rewrite Er.
    apply wp_act_bind.
    match goal with |- context [decide (?a = NoThread)] => change a with (rd sleep_thread_ v) end.
    rewrite Et, decide_True by done. apply wp_store, wp_ret. split; [done|]. split; [exact T2|].
    split; [exact Hs'|]. split; [exact Hl|]. by split.
Qed.

(** ** Witnesses *)

(** A worker runs the coroutine 7; coroutines 8 and 9 sleep. *)
Definition sleepers : world :=
  wr workers (<[1%nat := wr current_coro_meta_ (Some 7%nat) (Worker 0)]> {[2%nat := Worker 1]})
  (wr tasks (<[7%nat := Task.new_TaskMeta]> (<[8%nat := Task.new_TaskMeta]> {[9%nat := Task.new_TaskMeta]}))
  (wr sleep_queue_ [(1000, 8%nat); (3000000, 9%nat)]
  (wr steady_clock 2000 two_workers))).

Lemma sleeping_enqueues_witness :
  wp (SleepAwaiter_await_suspend (OnLoop 1) 1) (fun r v' => r = true /\ StronglySorted earlier (rd sleep_queue_ v') /\
    rd sleep_thread_ v' = Started) sleepers.
Proof.
  eapply wp_mono; [apply (sleeping_enqueues sleepers 1 (wr current_coro_meta_ (Some 7%nat) (Worker 0)) 7 Task.new_TaskMeta 1)|].
  - reflexivity.
  - reflexivity.
  - reflexivity.
  - reflexivity.
  - unfold earlier. repeat constructor; simpl; lia.
  - right. by split_and!.
  - lia.
  - by vm_compute.
  - by vm_compute.
  - intros r v' (H1 & _ & H2 & _ & _ & _ & H3). split; [exact H1|]. split; [exact H2|]. apply H3. reflexivity.
Defined.

Lemma sleepers_up_queueing : queueing (Native 5) (wr sleep_thread_running_ true (wr sleep_queue_ [(1000, 8%nat); (3000000, 9%nat)]
    (wr steady_clock 2000 two_workers))) [0] 10 (Global ([[]; []], 0)).
Proof.
  apply (queueing_same (Native 5) two_workers); [by apply same_sched_but_coroutines|].
  apply Butex.two_workers_queueing. lia.
Qed.

Lemma sleep_round_wakes_expired_witness :
  wp (sleep_round (Native 5)) (fun r v' => r = inl tt /\
    queueing (Native 5) v' [] 9 (Global ([[8]; []]%nat, 1)) /\
    Task.m_state <$> rd tasks v' !! 8%nat = Some Task.READY /\ rd sleep_queue_ v' = [(3000000, 9%nat)])
    (wr tasks (<[8%nat := Task.new_TaskMeta]> {[9%nat := Task.new_TaskMeta]})
      (wr sleep_thread_running_ true (wr sleep_queue_ [(1000, 8%nat); (3000000, 9%nat)] (wr steady_clock 2000 two_workers)))).
Proof.
  set (v := wr tasks _ _).
  assert (H := sleep_round_wakes_expired (Native 5) v [0] 10 (Global ([[]; []], 0))).
  assert (E : split_due (rd steady_clock v) (rd sleep_queue_ v) = ([(1000, 8%nat)], [(3000000, 9%nat)])) by reflexivity.
  rewrite E in H. eapply wp_mono; [apply H|].
  - eapply queueing_same; [apply Butex.same_sched_tasks|apply sleepers_up_queueing].
  - reflexivity.
  - reflexivity.
  - change (StronglySorted earlier [(1000, 8%nat); (3000000, 9%nat)]). unfold earlier. repeat constructor; simpl; lia.
  - change (forall t, t ∈ [8%nat; 9%nat] -> is_Some (rd tasks v !! t)).
    intros t [-> |[-> |Ht%not_elem_of_nil]%elem_of_cons]%elem_of_cons; [| |done]; exists Task.new_TaskMeta; vm_compute; reflexivity.
  - by vm_compute.
  - reflexivity.
  - intros r v' (H1 & [H2 _] & H3 & _ & H4 & _). split; [exact H1|]. split; [exact H2|].
    split; [apply H3; by left|exact H4].
Defined.

(** ** Metadata that is handed out twice *)

(** [AllocMeta] takes the entry for one in use only when it has a handle. *)
Definition in_use (v : world) (m : ptr) : Prop :=
  exists o c, rd tasks v !! m = Some o /\ rd coros v !! m = Some c /\
    Task.m_state o <> Task.FINISHED /\ Coro.k_handle c <> None.

Lemma find_in_use {A} v l l' (g : option ptr -> prog world A) Q : Forall (in_use v) l ->
  wp (found <- loop l' find_meta ;; g found) Q v -> wp (found <- loop (l ++ l') find_meta ;; g found) Q v.
Proof.
  intros Hl H. induction Hl as [|m l (o & c & Ho & Hc & Hs & Hh) Hl IH]; [exact H|]. simpl.
  apply wp_loop. unfold find_meta. eapply wp_get_bind; [exact Ho|]. simpl (rd Task.state o).
  rewrite decide_False by done. apply wp_assoc. eapply wp_get_bind; [exact Hc|]. apply wp_ret_bind.
  change (rd Coro.handle c) with (Coro.k_handle c). rewrite bool_decide_eq_false_2 by done. apply wp_ret. exact IH.
Qed.

(** When all metadata of the pool is in use, two calls of AllocMeta before the
    handle is set return the same metadata. *)
Theorem AllocMeta_hands_out_one_meta_twice v (Hmx : rd meta_mutex_ v = false)
    (Hl : Forall (in_use v) (rd meta_pool_ v))
    (Hf : Forall (fun m => m <> Task.mem_brk (rd mem v)) (rd meta_pool_ v)) :
  wp (a <- AllocMeta ;; b <- AllocMeta ;; Ret (a, b)) (fun r v' =>
    r.1 = r.2 /\ r.1 = Task.mem_brk (rd mem v) /\ rd meta_pool_ v' = rd meta_pool_ v ++ [r.1]) v.
Proof.
  set (p := Task.mem_brk (rd mem v)) in *. set (l := rd meta_pool_ v) in *.
  unfold AllocMeta. apply wp_assoc, wp_lock_bind; [exact Hmx|]. set (v1 := wr meta_mutex_ true v).
  apply wp_assoc, wp_load_bind. change (rd meta_pool_ v1) with l. rewrite <- (app_nil_r l). apply wp_assoc.
  apply find_in_use; [exact Hl|]. apply wp_loop. apply wp_ret, wp_assoc. unfold new_CoroutineMeta.
  apply wp_assoc, wp_act_bind. simpl Task.mem_brk. apply wp_act_bind. apply wp_assoc, wp_fetch_bind.
  apply wp_assoc, wp_store_bind, wp_ret_bind, wp_assoc.
  set (v2 := wr meta_mutex_ false _).
  assert (Et : rd tasks v2 = <[p := wr Task.type Task.COROUTINE Task.new_TaskMeta]> (rd tasks v)) by done.
  assert (Ec : rd coros v2 = <[p := Coro.CoroutineMeta]> (rd coros v)) by done.
  assert (Ep : rd meta_pool_ v2 = l ++ [p]) by done.
  apply wp_lock_bind; [done|]. set (v3 := wr meta_mutex_ true v2). apply wp_assoc, wp_load_bind.
  change (rd meta_pool_ v3) with (rd meta_pool_ v2). rewrite Ep. apply wp_assoc. apply find_in_use.
  { apply list.Forall_forall. intros m Hm. pose proof (proj1 (list.Forall_forall _ _) Hf m Hm) as Hne.
    destruct (proj1 (list.Forall_forall _ _) Hl m Hm) as (o & c & Ho & Hc & Hs & Hh).
    exists o, c. split; [|split; [|done]].
    - change (rd tasks v2 !! m = Some o). rewrite Et, lookup_insert_ne; done.
    - change (rd coros v2 !! m = Some c). rewrite Ec, lookup_insert_ne; done. }
  apply wp_loop. unfold find_meta.
  assert (Ho : rd tasks v3 !! p = Some (wr Task.type Task.COROUTINE Task.new_TaskMeta))
    by (change (rd tasks v3) with (rd tasks v2); rewrite Et; apply lookup_insert_eq).
  eapply wp_get_bind; [exact Ho|]. apply wp_assoc.
  eapply wp_get_bind; [change (rd coros v3) with (rd coros v2); rewrite Ec; apply lookup_insert_eq|].
  apply wp_ret_bind, wp_ret, wp_assoc.
  eapply wp_set_bind; [exact Ho|]. apply wp_assoc. eapply wp_set_bind; [exact (eq_trans (f_equal (lookup p) Ec) (lookup_insert_eq _ _ _))|].
  apply wp_assoc. eapply wp_set_bind; [apply lookup_insert_eq|]. apply wp_assoc, wp_act_bind, wp_assoc.
  eapply wp_set_bind; [apply lookup_insert_eq|]. apply wp_assoc, wp_store_bind, wp_ret_bind, wp_ret.
  split; [done|]. split; [done|]. rewrite app_nil_r. exact Ep.
Qed.

Lemma AllocMeta_hands_out_one_meta_twice_witness :
  wp (a <- AllocMeta ;; b <- AllocMeta ;; Ret (a, b)) (fun r v' => r.1 = r.2) (World.Scheduler 1 []).
Proof.
  eapply wp_mono; [apply (AllocMeta_hands_out_one_meta_twice (World.Scheduler 1 [])); [reflexivity|constructor|constructor]|].
  intros r v' [H _]. exact H.
Defined.

(** ** Sleeping after a shutdown *)

(** The first sleep starts the thread; [Shutdown] ends it; the coroutine run by
    worker 1 goes to sleep. *)
Definition sleeps_after_shutdown : prog world bool :=
  call_once sleep_init_once_ StartSleepThread ;;; Shutdown ;;; SleepAwaiter_await_suspend (OnLoop 1) 5.
Definition sleep_cast : list (prog world bool) := [sleeps_after_shutdown; sleep_thread (Native 1) ;;; Ret false].
Definition asleep_for_good : conf world bool :=
  drive 100 [Steps 0 4; Steps 1 4; Steps 0 5; All 1; All 0] (sleep_cast, wr sleep_queue_ [] sleepers).

(** There is an execution in which a coroutine that sleeps after
    CoroutineScheduler::Shutdown is SUSPENDED in the queue of sleepers while
    there is no sleep thread, and since the once_flag is set none is ever
    started. *)
Theorem sleep_after_shutdown_never_wakes :
  exists ts v, reachable (sleep_cast, wr sleep_queue_ [] sleepers) (ts, v) /\
    result <$> ts = [Some true; Some false] /\
    Task.m_state <$> rd tasks v !! 7%nat = Some Task.SUSPENDED /\
    rd sleep_queue_ v = [(5002000, 7%nat)] /\
    rd sleep_thread_ v = NoThread /\ rd sleep_thread_running_ v = false /\ rd sleep_init_once_ v = Called.
Proof.
  exists asleep_for_good.1, asleep_for_good.2.
  split; [rewrite <- surjective_pairing; apply drive_reachable|].
  split_and!; vm_compute; reflexivity.
Qed.

End CoroScheduler.
