(* ===== verification/Coroutine.v ===== *)
(** * Running coroutines

    What the compiler makes of a coroutine that uses the types of
    [include/coro/coroutine.h], [Scheduler::Spawn]
    ([src/bthread/core/scheduler.cpp]), the functions of [namespace coro] in
    [include/bthread/core/scheduler.hpp] and [spawn_coro]
    ([include/bthread/api/spawn.hpp]).

    A coroutine that was created is a thread of the pool that waits until a
    worker executes its frame.  At a [co_await] that suspends it gives the
    worker back with the awaiter; the worker then runs [await_suspend] of the
    awaiter, as C++ does, when the coroutine counts as suspended and another
    worker may already resume it. *)

From Stdlib Require Import ZArith Lia String.
From stdpp Require Import base numbers list gmap relations option strings.
From S2P Require Import Prelude Mpsc SharedMpsc WorkStealing Task TaskGroup Timer Platform.
From S2P Require Import Result FramePool World Workers Scheduler Butex Mutex Event Cond.
From S2P Require Import CoroTask CoroScheduler.

Open Scope Z_scope.

Module Coroutine.
Import World World.Worker Workers Scheduler.

(** ** Creation *)

(** The constructor of the promise. *)
Definition new_promise (k : kind) : Frame.promise :=
  match k with
  | TaskInt => CoroTask.PromiseT.TaskPromise
  | TaskVoid => CoroTask.PromiseVoid.TaskPromise
  | SafeTaskInt => CoroTask.SafePromiseT.SafeTaskPromise
  | SafeTaskVoid => CoroTask.SafePromiseVoid.SafeTaskPromise
  end.

Definition get_return_object (h : ptr) : option ptr := Some h.
(** [initial_suspend] is [std::suspend_always]: nothing of the body runs. *)
Definition new_frame (k : kind) (serial : nat) (body arg : Z) : Frame.frame :=
  Frame.MkFrame (new_promise k) None None None serial body arg false false.

(** Calling the coroutine [body], whose frame takes [size] bytes. *)
Definition create (k : kind) (body arg size : Z) : prog world (option ptr) :=
  block <- CoroTask.operator_new size ;;
  match block with
  | None => undefined
  | Some h =>
      act (fun v =>
        let n := Coroutines.r_created (v_coroutines v) in
        Go (get_return_object h)
          (wr (sub coroutines Coroutines.created) (S n)
          (wr frames (<[h := new_frame k n body arg]> (rd frames v)) v)))
  end.

(** ** Resuming *)

(** [handle.resume()]: undefined unless the coroutine is suspended, and not at
    its end. *)
Definition switch_to (w h : ptr) : prog world unit :=
  act (fun v => if decide (worker_on v h = None) then
                  match rd frames v !! h, v_workers v !! w with
                  | Some o, Some x =>
                      if Frame.f_done o then Bad
                      else Go tt (wr workers (<[w := wr context (Some h) x]> (v_workers v)) v)
                  | _, _ => Bad
                  end
                else Bad) ;;;
  act (fun v => match v_workers v !! w with
                | Some x => if decide (w_context x = None) then Go tt v else Block
                | None => Bad
                end).

(** A boolean result of [await_suspend], or the exception it throws, which the
    coroutine that is resumed throws again: what runs next. *)
Definition next_of_bool (h : ptr) (suspended : option bool) : prog world (option ptr) :=
  match suspended with
  | Some true => Ret None
  | Some false => Ret (Some h)
  | None => set frames h Frame.thrown true ;;; Ret (Some h)
  end.

(** [await_suspend], on [w], of the awaiter at which [h] is suspended. *)
Definition await_suspend (w h : ptr) (s : suspension) : prog world (option ptr) :=
  let self := OnLoop w in
  match s with
  | AwaitTask k task => CoroTask.await_suspend k self (Some task) h ;;; Ret None
  | Yielding => b <- CoroScheduler.YieldAwaiter_await_suspend self ;; next_of_bool h (Some b)
  | Sleeping ms => b <- CoroScheduler.SleepAwaiter_await_suspend self ms ;; next_of_bool h (Some b)
  | Locking m => b <- Mutex.LockAwaiter_await_suspend self m ;; next_of_bool h b
  | WaitingFor e => b <- Event.WaitAwaiter_await_suspend self e ;; next_of_bool h b
  | WaitingOn c m => b <- CondVar.WaitAwaiter_await_suspend self c m ;; next_of_bool h b
  | FinalSuspend =>
      p <- get frames h Frame.promise_ ;;
      CoroTask.FinalAwaiter_await_suspend (Frame.kind_of p) w h
  end.

Definition resume (w h : ptr) : prog world unit :=
  loop h (fun h =>
    switch_to w h ;;;
    s <- on w (load suspending) ;;
    next <- await_suspend w h s ;;
    Ret (match next with Some h' => inl h' | None => inr tt end)).

(** ** The thread of a coroutine *)

(** The frame of the coroutine number [n] if a worker executes it. *)
Definition executed (v : world) (n : nat) : option (ptr * Frame.frame) :=
  head (filter (fun p => Frame.f_serial p.2 = n /\ worker_on v p.1 <> None) (map_to_list (rd frames v))).

(** The coroutine gives the worker back. *)
Definition give_back (h : ptr) (s : suspension) : prog world unit :=
  act (fun v => match worker_on v h with
                | Some w =>
                    match v_workers v !! w, rd frames v !! h with
                    | Some x, Some o =>
                        Go tt (wr workers (<[w := wr suspending s (wr context None x)]> (v_workers v))
                              (wr frames (<[h := wr Frame.done (bool_decide (s = FinalSuspend)) o]>
                                            (rd frames v)) v))
                    | _, _ => Bad
                    end
                | None => Bad
                end).

(** Suspended until a worker executes the frame; whether to throw then. *)
Definition suspend (n : nat) (h : ptr) (s : suspension) : prog world bool :=
  give_back h s ;;;
  act (fun v => match executed v n with
                | Some (_, o) => Go (Frame.f_thrown o) (wr frames (<[h := wr Frame.thrown false o]> (rd frames v)) v)
                | None => Block
                end).

Section Await.
Context (n : nat) (h : ptr).

Definition co_await (k : kind) (task : option ptr) : prog world unit :=
  ready <- CoroTask.await_ready task ;;
  if ready : bool then Ret tt
  else
    match task with
    | Some t => suspend n h (AwaitTask k t) ;;; Ret tt
    | None => undefined
    end.

Definition await_T (task : option ptr) : prog world (Result.throws Z) :=
  co_await TaskInt task ;;; CoroTask.HandleT.await_resume task.
Definition await_void (task : option ptr) : prog world (Result.throws unit) :=
  co_await TaskVoid task ;;; CoroTask.HandleVoid.await_resume task.
Definition await_safe_T (task : option ptr) : prog world (Result.Result Z) :=
  co_await SafeTaskInt task ;;; CoroTask.SafeHandleT.await_resume task.
Definition await_safe_void (task : option ptr) : prog world Result.Void.Result :=
  co_await SafeTaskVoid task ;;; CoroTask.SafeHandleVoid.await_resume task.

Definition yield : prog world unit :=
  ready <- CoroScheduler.YieldAwaiter_await_ready ;;
  if ready : bool then Ret tt else suspend n h Yielding ;;; Ret tt.
Definition sleep (ms : Z) : prog world unit :=
  ready <- CoroScheduler.SleepAwaiter_await_ready ;;
  if ready : bool then Ret tt else suspend n h (Sleeping ms) ;;; Ret tt.

(** Whether the awaiter did not throw. *)
Definition lock_async (m : ptr) : prog world bool :=
  ready <- Mutex.LockAwaiter_await_ready (OnStack h) m ;;
  if ready : bool then Ret true else thrown <- suspend n h (Locking m) ;; Ret (negb thrown).
Definition wait_event (e : ptr) : prog world bool :=
  ready <- Event.WaitAwaiter_await_ready e ;;
  if ready : bool then Ret true else thrown <- suspend n h (WaitingFor e) ;; Ret (negb thrown).
Definition wait_cond (c m : ptr) : prog world bool :=
  ready <- CondVar.WaitAwaiter_await_ready ;;
  thrown <- (if ready : bool then Ret false else suspend n h (WaitingOn c m)) ;;
  if thrown : bool then Ret false
  else CondVar.WaitAwaiter_await_resume (OnStack h) m ;;; Ret true.
End Await.

(** How a body ends. *)
Inductive completion :=
| co_return (value : Z)
| co_return_void
| co_return_success
| co_return_result (r : Result.Void.Result)
| co_return_error (e : Result.Error)
| unhandled (x : Result.exception).

Definition finish (h : ptr) (c : completion) : prog world unit :=
  p <- get frames h Frame.promise_ ;;
  match Frame.kind_of p, c with
  | TaskInt, co_return v => CoroTask.PromiseT.return_value h v
  | TaskInt, unhandled x => CoroTask.PromiseT.unhandled_exception h x
  | TaskVoid, co_return_void => CoroTask.PromiseVoid.return_void h
  | TaskVoid, unhandled x => CoroTask.PromiseVoid.unhandled_exception h x
  | SafeTaskInt, co_return v => CoroTask.SafePromiseT.return_value h v
  | SafeTaskInt, co_return_error e => CoroTask.SafePromiseT.return_error h e
  | SafeTaskInt, unhandled x => CoroTask.SafePromiseT.unhandled_exception h x
  | SafeTaskVoid, co_return_success => CoroTask.SafePromiseVoid.return_success h
  | SafeTaskVoid, co_return_result r => CoroTask.SafePromiseVoid.return_result h r
  | SafeTaskVoid, co_return_error e => CoroTask.SafePromiseVoid.return_error h e
  | SafeTaskVoid, unhandled x => CoroTask.SafePromiseVoid.unhandled_exception h x
  | _, _ => undefined
  end.

Section User.
(** The bodies of the user: the coroutine function at an address, applied to an
    argument, run by coroutine number [n] in frame [h]. *)
Context (user : nat -> ptr -> Z -> Z -> prog world completion).

Definition coroutine (n : nat) : prog world unit :=
  h <- act (fun v => match executed v n with
                     | Some (h, _) => Go h v
                     | None => Block
                     end) ;;
  body <- get frames h Frame.body ;;
  arg <- get frames h Frame.arg ;;
  c <- user n h body arg ;;
  finish h c ;;;
  give_back h FinalSuspend.
End User.

(** ** Spawning *)

Section Spawn.
Context (self : who) (k : kind).

(** For a task of kind [k]; the task returned is the same. *)
Definition Spawn (task : option ptr) : prog world (option ptr) :=
  ready <- load initialized_ ;;
  (if ready : bool then Ret tt else Init) ;;;
  meta <- CoroScheduler.new_CoroutineMeta ;;
  set coros meta Coro.handle task ;;;
  set tasks meta Task.state Task.READY ;;;
  (match task with
   | Some h => CoroTask.set_meta k h meta
   | None => undefined
   end) ;;;
  Submit self meta ;;;
  Ret task.

Definition co_spawn (task : option ptr) : prog world (option ptr) := Spawn task.

(** The task object is given up, so nobody destroys the frame. *)
Definition co_spawn_detached (task : option ptr) : prog world unit :=
  spawned <- Spawn task ;;
  CoroTask.delete_Task (CoroTask.release spawned).

(** The handle of a [bthread::Task]: the metadata. *)
Definition spawn_coro (task : option ptr) : prog world (option ptr) :=
  ready <- load initialized_ ;;
  (if ready : bool then Ret tt else Init) ;;;
  spawned <- Spawn task ;;
  result <- (match spawned with
             | Some h => CoroTask.meta k h
             | None => undefined
             end) ;;
  CoroTask.delete_Task (CoroTask.release spawned) ;;;
  Ret result.
End Spawn.

(** ** Who executes what *)

(** After switching to [t], and after [t] has given the worker back. *)
Lemma worker_on_switch v t w x y v' : worker_on v t = None -> v_workers v !! w = Some x ->
  w_context y = Some t -> v_workers v' = <[w := y]> (v_workers v) -> worker_on v' t = Some w.
Proof.
  intros Hn Hx Hy E. apply (worker_on_unique v' t w y); [rewrite E; apply lookup_insert_eq|done|].
  intros w' x' Hx' Hc. rewrite E in Hx'. destruct (decide (w' = w)) as [|Hne]; [done|].
  rewrite lookup_insert_ne in Hx' by done. by destruct (proj1 (worker_on_None v t) Hn w' x' Hx').
Qed.

(** ** What a coroutine returns is what the awaiter gets *)

(** What [get] gives, for the four task types. *)
Inductive outcome :=
| Returns (value : Z)
| ReturnsVoid
| Throws (x : Result.exception)
| Gives (r : Result.Result Z)
| GivesVoid (r : Result.Void.Result).

Definition of_throws {T} (f : T -> outcome) (r : Result.throws T) : outcome :=
  match r with inl v => f v | inr x => Throws x end.

Definition get (k : kind) (handle_ : option ptr) : prog world outcome :=
  match k with
  | TaskInt => r <- CoroTask.HandleT.get handle_ ;; Ret (of_throws Returns r)
  | TaskVoid => r <- CoroTask.HandleVoid.get handle_ ;; Ret (of_throws (fun _ => ReturnsVoid) r)
  | SafeTaskInt => r <- CoroTask.SafeHandleT.get handle_ ;; Ret (Gives r)
  | SafeTaskVoid => r <- CoroTask.SafeHandleVoid.get handle_ ;; Ret (GivesVoid r)
  end.

(** What is promised for a body that ends with [c]. *)
Definition promised (k : kind) (c : completion) : option outcome :=
  match k, c with
  | TaskInt, co_return v => Some (Returns v)
  | TaskInt, unhandled x | TaskVoid, unhandled x => Some (Throws x)
  | TaskVoid, co_return_void => Some ReturnsVoid
  | SafeTaskInt, co_return v => Some (Gives (Result.Value v))
  | SafeTaskInt, co_return_error e => Some (Gives (Result.Failure e))
  | SafeTaskInt, unhandled (Result.StdException what) =>
      Some (Gives (Result.Failure (Result.MkError (-3) what)))
  | SafeTaskInt, unhandled (Result.OtherException _) =>
      Some (Gives (Result.Failure (Result.MkError (-4) "unknown exception")))
  | SafeTaskVoid, co_return_success => Some (GivesVoid Result.Void.Success)
  | SafeTaskVoid, co_return_result r => Some (GivesVoid r)
  | SafeTaskVoid, co_return_error e => Some (GivesVoid (Result.Void.Failure e))
  | SafeTaskVoid, unhandled (Result.StdException what) =>
      Some (GivesVoid (Result.Void.Failure (Result.MkError (-3) what)))
  | SafeTaskVoid, unhandled (Result.OtherException _) =>
      Some (GivesVoid (Result.Void.Failure (Result.MkError (-4) "unknown exception")))
  | _, _ => None
  end.

(** The promise at the end. *)
Definition final_promise (k : kind) (c : completion) : Frame.promise :=
  match k, c with
  | TaskInt, co_return v => Frame.TaskPromise v None
  | TaskInt, unhandled x => Frame.TaskPromise 0 (Some x)
  | TaskVoid, unhandled x => Frame.TaskPromiseVoid (Some x)
  | SafeTaskInt, co_return v => Frame.SafeTaskPromise (Result.Value v)
  | SafeTaskInt, co_return_error e => Frame.SafeTaskPromise (Result.Failure e)
  | SafeTaskInt, unhandled x => Frame.SafeTaskPromise (Result.Failure (CoroTask.error_of x))
  | SafeTaskVoid, co_return_result r => Frame.SafeTaskPromiseVoid r
  | SafeTaskVoid, co_return_error e => Frame.SafeTaskPromiseVoid (Result.Void.Failure e)
  | SafeTaskVoid, unhandled x => Frame.SafeTaskPromiseVoid (Result.Void.Failure (CoroTask.error_of x))
  | _, _ => new_promise k
  end.

Lemma kind_of_new k : Frame.kind_of (new_promise k) = k.
Proof. by destruct k. Qed.

Lemma kind_of_final k c : Frame.kind_of (final_promise k c) = k.
Proof. by destruct k, c. Qed.

(** The frame [o] of [h] replaced. *)
Definition with_frame (h : ptr) (o : Frame.frame) (v : world) : world :=
  wr frames (<[h := o]> (rd frames v)) v.

Lemma with_frame_lookup h o v : rd frames (with_frame h o v) !! h = Some o.
Proof. unfold with_frame. rewrite rd_wr. apply lookup_insert_eq. Qed.

Lemma wp_update {B} h o v (g : Frame.promise -> option (B * Frame.promise)) Q : rd frames v !! h = Some o ->
  match g (Frame.f_promise_ o) with
  | Some (b, p) => Q b (with_frame h (wr Frame.promise_ p o) v)
  | None => False
  end -> wp (CoroTask.update_promise h g) Q v.
Proof.
  intros Ho H. unfold CoroTask.update_promise. apply wp_act_last. rewrite Ho.
  by destruct (g (Frame.f_promise_ o)) as [[b p]|].
Qed.

Lemma finish_ok v h o k c r : rd frames v !! h = Some o -> Frame.f_promise_ o = new_promise k ->
  promised k c = Some r ->
  wp (finish h c) (fun _ v' => v' = with_frame h (wr Frame.promise_ (final_promise k c) o) v) v.
Proof.
  intros Ho Hp Hr. unfold finish. eapply wp_get_bind; [exact Ho|].
  change (rd Frame.promise_ o) with (Frame.f_promise_ o). rewrite Hp, kind_of_new.
  destruct k, c as [z| | |r0|e|[what|n]]; try done; (eapply wp_update; [exact Ho|]; rewrite Hp; done).
Qed.

Lemma done_ok v h o : rd frames v !! h = Some o ->
  wp (CoroTask.done h) (fun r v' => r = Frame.f_done o /\ v' = v) v.
Proof. intros Ho. unfold CoroTask.done. apply wp_act_last. by rewrite Ho. Qed.

Lemma get_final v h o k c r : rd frames v !! h = Some o -> Frame.f_promise_ o = final_promise k c ->
  Frame.f_done o = true -> promised k c = Some r -> wp (get k (Some h)) (fun r' _ => r' = r) v.
Proof.
  intros Ho Hp Hd Hr.
  destruct k, c as [z| | |r0|e|[what|n]]; try done; injection Hr as <-;
    (unfold get; apply wp_bind; simpl CoroTask.HandleT.get; apply wp_bind;
     (eapply wp_mono; [by apply done_ok|]); intros d v' [-> ->]; rewrite Hd;
     (eapply wp_update; [exact Ho|]); rewrite Hp; by apply wp_ret).
Qed.

Lemma give_back_ok v w x h o s : worker_on v h = Some w -> v_workers v !! w = Some x -> rd frames v !! h = Some o ->
  wp (give_back h s) (fun _ v' =>
    v' = wr workers (<[w := wr suspending s (wr context None x)]> (v_workers v))
           (with_frame h (wr Frame.done (bool_decide (s = FinalSuspend)) o) v)) v.
Proof. intros Hw Hx Ho. unfold give_back. apply wp_act_last. by rewrite Hw, Hx, Ho. Qed.

(** C16: When the body of a coroutine has ended, its frame is at the final
    suspension point, its worker has control again, and get() of its task
    gives exactly what the body returned or threw: the value or the exception
    for a Task, the value or an error (code -3 or -4 for an exception) for a
    SafeTask. *)
Theorem get_gives_what_was_returned v w x h o k c r (Ho : rd frames v !! h = Some o)
    (Hp : Frame.f_promise_ o = new_promise k) (Hw : worker_on v h = Some w) (Hx : v_workers v !! w = Some x)
    (Hr : promised k c = Some r) :
  wp (finish h c ;;; give_back h FinalSuspend)
     (fun _ v' => (exists y, v_workers v' !! w = Some y /\ w_context y = None /\ w_suspending y = FinalSuspend) /\
        (exists o', rd frames v' !! h = Some o' /\ Frame.f_done o' = true /\
           Frame.f_awaiter_ o' = Frame.f_awaiter_ o /\ Frame.f_awaiter_meta_ o' = Frame.f_awaiter_meta_ o) /\
        wp (get k (Some h)) (fun r' _ => r' = r) v') v.
Proof.
  apply wp_bind. eapply wp_mono; [by eapply finish_ok|]. intros [] v1 ->.
  eapply wp_mono; [eapply give_back_ok; [exact Hw|exact Hx|apply with_frame_lookup]|]. intros [] v2 ->.
  set (o2 := wr Frame.done _ _). set (v2 := wr workers _ _).
  assert (H2 : rd frames v2 !! h = Some o2) by exact (with_frame_lookup h o2 _).
  split; [eexists; split; [apply lookup_insert_eq|done]|]. split; [by exists o2|].
  by apply (get_final v2 h o2 k c r H2).
Qed.

(** C37: get() of a coroutine that has not ended, or of a task without a
    handle, throws for a Task and gives an error with code -2 or -1 for a
    SafeTask, and changes nothing. *)
Theorem get_before_the_end v h o k (Ho : rd frames v !! h = Some o) (Hk : Frame.kind_of (Frame.f_promise_ o) = k)
    (Hd : Frame.f_done o = false) :
  wp (a <- get k (Some h) ;; b <- get k None ;; Ret (a, b)) (fun r v' => v' = v /\
    r = match k with
        | TaskInt | TaskVoid => (Throws (Result.StdException "Task not completed"),
                                 Throws (Result.StdException "Task has no handle"))
        | SafeTaskInt => (Gives (Result.Failure (Result.MkError (-2) "Task not completed")),
                          Gives (Result.Failure (Result.MkError (-1) "Task has no handle")))
        | SafeTaskVoid => (GivesVoid (Result.Void.Failure (Result.MkError (-2) "Task not completed")),
                           GivesVoid (Result.Void.Failure (Result.MkError (-1) "Task has no handle")))
        end) v.
Proof.
  destruct k; unfold get; apply wp_bind, wp_bind; (apply wp_bind; eapply wp_mono; [by apply done_ok|]);
    intros d v' [-> ->]; rewrite Hd; apply wp_ret, wp_ret, wp_bind, wp_ret_bind, wp_ret, wp_ret; by split.
Qed.

(** ** Awaiting *)

Lemma promise_get_bind {A B} v k h o (f : field Frame.frame B) (g : B -> prog world A) Q : rd frames v !! h = Some o ->
  Frame.kind_of (Frame.f_promise_ o) = k -> wp (g (rd f o)) Q v -> wp (y <- CoroTask.promise_get k h f ;; g y) Q v.
Proof.
  intros Ho Hk H. unfold CoroTask.promise_get. apply wp_act_bind. rewrite Ho.
  unfold CoroTask.of_kind. by rewrite bool_decide_eq_true_2.
Qed.

Lemma promise_set_bind {A B} v k h o (f : field Frame.frame B) x (g : unit -> prog world A) Q :
  rd frames v !! h = Some o -> Frame.kind_of (Frame.f_promise_ o) = k ->
  wp (g tt) Q (with_frame h (wr f x o) v) -> wp (y <- CoroTask.promise_set k h f x ;; g y) Q v.
Proof.
  intros Ho Hk H. unfold CoroTask.promise_set. apply wp_act_bind. rewrite Ho.
  unfold CoroTask.of_kind. by rewrite bool_decide_eq_true_2.
Qed.

Lemma promise_set_last {B} v k h o (f : field Frame.frame B) x (Q : unit -> world -> Prop) :
  rd frames v !! h = Some o -> Frame.kind_of (Frame.f_promise_ o) = k ->
  Q tt (with_frame h (wr f x o) v) -> wp (CoroTask.promise_set k h f x) Q v.
Proof.
  intros Ho Hk H. unfold CoroTask.promise_set. apply wp_act_last. rewrite Ho.
  unfold CoroTask.of_kind. by rewrite bool_decide_eq_true_2.
Qed.

(** The frame of a coroutine that [h], with metadata [m], awaits. *)
Definition awaited (h : ptr) (m : option ptr) (o : Frame.frame) : Frame.frame :=
  wr Frame.awaiter_meta_ m (wr Frame.awaiter_ (Some h) o).

(** Awaiting a task records the awaiter and its metadata in the promise of the
    awaited coroutine and gives control back to the worker, and does nothing
    else: a coroutine that was not spawned is not started by being awaited. *)
Theorem awaiting_starts_nothing v w x h task o k (Hx : v_workers v !! w = Some x) (Ho : rd frames v !! task = Some o)
    (Hk : Frame.kind_of (Frame.f_promise_ o) = k) :
  wp (await_suspend w h (AwaitTask k task))
     (fun next v' => next = None /\ v' = with_frame task (awaited h (w_current_coro_meta_ x) o) v) v.
Proof.
  unfold await_suspend, CoroTask.await_suspend, CoroTask.set_awaiter.
  apply wp_assoc. eapply promise_set_bind; [exact Ho|exact Hk|].
  apply wp_assoc. unfold current_coro_meta. apply wp_assoc, wp_ret_bind.
  eapply wp_on_load_bind; [exact Hx|]. change (rd current_coro_meta_ x) with (w_current_coro_meta_ x).
  eapply promise_set_bind; [apply with_frame_lookup|done|]. apply wp_ret. split; [done|].
  unfold with_frame, awaited. by rewrite rd_wr, wr_wr, insert_insert_eq.
Qed.

(** C25: At its end a coroutine that is awaited hands its worker to the
    awaiter, with the metadata the awaiter had if there was any; one that is
    not awaited gives the worker back and changes nothing. *)
Theorem the_end_resumes_the_awaiter v w x h o (Hx : v_workers v !! w = Some x) (Ho : rd frames v !! h = Some o) :
  wp (await_suspend w h FinalSuspend) (fun next v' => next = Frame.f_awaiter_ o /\
    v' = match Frame.f_awaiter_ o, Frame.f_awaiter_meta_ o with
         | Some _, Some m => wr workers (<[w := wr current_coro_meta_ (Some m) x]> (v_workers v)) v
         | _, _ => v
         end) v.
Proof.
  unfold await_suspend. eapply wp_get_bind; [exact Ho|]. change (rd Frame.promise_ o) with (Frame.f_promise_ o).
  unfold CoroTask.FinalAwaiter_await_suspend. eapply promise_get_bind; [exact Ho|done|].
  change (rd Frame.awaiter_ o) with (Frame.f_awaiter_ o). destruct (Frame.f_awaiter_ o) as [a|] eqn:Ea;
    [|by apply wp_ret].
  assert (Hend : forall v', rd frames v' = rd frames v ->
    wp (CoroTask.promise_get (Frame.kind_of (Frame.f_promise_ o)) h Frame.awaiter_)
       (fun next v2 => next = Some a /\ v2 = v') v').
  { intros v' E. unfold CoroTask.promise_get. apply wp_act_last. rewrite E, Ho. unfold CoroTask.of_kind.
    rewrite bool_decide_eq_true_2 by done. by split. }
  eapply promise_get_bind; [exact Ho|done|]. change (rd Frame.awaiter_meta_ o) with (Frame.f_awaiter_meta_ o).
  destruct (Frame.f_awaiter_meta_ o) as [m|] eqn:Em; [|apply wp_ret_bind; by apply Hend].
  apply wp_assoc. eapply promise_get_bind; [exact Ho|done|].
  change (rd Frame.awaiter_meta_ o) with (Frame.f_awaiter_meta_ o). rewrite Em.
  eapply wp_on_bind; [exact Hx|]. apply wp_store. by apply Hend.
Qed.

(** ** Creating and destroying *)

#[export] Instance pool_once_ok : FieldOk (sub coroutines Coroutines.pool_once).
Proof. apply sub_ok; [apply _|]. split; [done..|by intros []]. Qed.

(** The pool is set up: its free blocks are [l], those of [held] are in use. *)
Record pool_ready (v : world) (l held : list ptr) : Prop := {
  pr_once : rd (sub coroutines Coroutines.pool_once) v = Called;
  pr_repr : FramePool.repr (rd frame_pool_ v) l held;
  pr_mutex : FramePool.p_mutex_ (rd frame_pool_ v) = false;
  pr_frames : forall h, is_Some (rd frames v !! h) -> h ∈ held;
}.

Lemma pool_is_ready v : rd (sub coroutines Coroutines.pool_once) v = Called ->
  wp CoroTask.GetGlobalFramePool (fun _ v' => v' = v) v.
Proof.
  intros Ho. unfold CoroTask.GetGlobalFramePool, call_once. apply wp_act_bind. rewrite Ho. by apply wp_ret.
Qed.

(** Creating a coroutine whose frame is larger than a block of the pool is
    undefined: operator new returns null. *)
Theorem a_large_frame_is_undefined v l held k body arg size (Hp : pool_ready v l held)
    (Hs : FramePool.p_block_size_ (rd frame_pool_ v) < size) :
  goes_wrong (create k body arg size) v.
Proof.
  destruct Hp as [H1 H2 H3 _]. unfold create.
  apply (wrong_bind _ _ _ (fun r v' => r = None /\ v' = v)).
  - unfold CoroTask.operator_new. apply wp_bind. eapply wp_mono; [by apply pool_is_ready|]. intros [] v' ->.
    apply wp_zoom; [apply _|]. eapply wp_mono; [by apply (FramePool.Allocate_gives_a_block _ l held size)|].
    intros r p. rewrite (proj2 (Z.ltb_lt _ _)) by done. simpl orb. cbv iota. intros [-> ->].
    split; [done|]. apply (wr_rd (v := frame_pool_)).
  - intros r v' [-> ->]. apply wrong_act. done.
Qed.

(** C20: Creating a coroutine whose frame is not larger than a block of the
    frame pool takes for the frame a block of the pool that no other frame
    has, builds the promise there, and runs nothing of the body: no task and
    no worker changes. (A larger frame is undefined behaviour:
    a_large_frame_is_undefined.) *)
Theorem create_makes_a_frame v l held k body arg size (Hp : pool_ready v l held)
    (Hs : size <= FramePool.p_block_size_ (rd frame_pool_ v)) (Hz : FramePool.p_block_size_ (rd frame_pool_ v) <> 0) :
  wp (create k body arg size) (fun r v' => exists h, r = Some h /\ (h ∉ held) /\
    pool_ready v' (tail l) (h :: held) /\
    rd frames v' = <[h := new_frame k (Coroutines.r_created (v_coroutines v)) body arg]> (rd frames v) /\
    rd tasks v' = rd tasks v /\ v_workers v' = v_workers v) v.
Proof.
  destruct Hp as [H1 H2 H3 H4]. unfold create, CoroTask.operator_new.
  apply wp_assoc, wp_bind. eapply wp_mono; [by apply pool_is_ready|]. intros [] v' ->.
  apply wp_zoom_bind; [apply _|]. eapply wp_mono; [by apply (FramePool.Allocate_gives_a_block _ l held size)|].
  intros r p. rewrite (proj2 (Z.ltb_ge _ _)), (proj2 (Z.eqb_neq _ _)) by done. simpl orb. cbv iota.
  intros (h & b & -> & Hr & Hm & _ & _ & Hnew & Hold). apply wp_act_last.
  assert (Hh : h ∉ held).
  { destruct l as [|h' l]; [by apply Hnew|]. specialize (Hold ltac:(done)). injection Hold as ->.
    intros Hin. apply (FramePool.repr_free _ _ _ h H2 Hin). by left. }
  exists h. split; [done|]. split; [exact Hh|]. split; [|done].
  match goal with |- pool_ready ?s _ _ => assert (E : rd frame_pool_ s = p) by exact (rd_wr (v := frame_pool_) v p) end.
  split; [exact H1|by rewrite E|by rewrite E|].
  - intros h' Hh'. change (is_Some (<[h := new_frame k (Coroutines.r_created (v_coroutines v)) body arg]> (rd frames v) !! h')) in Hh'.
    destruct (decide (h' = h)) as [->|Hne]; [by left|]. rewrite lookup_insert_ne in Hh' by done. right. by apply H4.
Qed.

(** C40: Destroying the task of a coroutine that no worker is running removes
    its frame, and no other, and puts the block in front of the free list of
    the frame pool; no task changes. *)
Theorem destroy_frees_the_frame v l held h o (Hp : pool_ready v l (h :: held)) (Ho : rd frames v !! h = Some o)
    (Hw : worker_on v h = None) :
  wp (CoroTask.delete_Task (Some h)) (fun _ v' => pool_ready v' (h :: l) held /\
    rd frames v' = delete h (rd frames v) /\ rd tasks v' = rd tasks v) v.
Proof.
  destruct Hp as [H1 H2 H3 H4]. unfold CoroTask.delete_Task, CoroTask.destroy.
  apply wp_act_bind. rewrite decide_True by done. rewrite Ho.
  set (v1 := wr frames (delete h (rd frames v)) v). unfold CoroTask.operator_delete.
  apply wp_bind. eapply wp_mono; [by apply (pool_is_ready v1)|]. intros [] v' ->. apply wp_zoom; [apply _|].
  eapply wp_mono; [apply (FramePool.Deallocate_takes_it_back _ l held h); [exact H2|exact H3]|].
  intros [] p [Hr Hm]. split; [|done].
  assert (E : rd frame_pool_ (wr frame_pool_ p v1) = p) by apply rd_wr.
  split; [exact H1|by rewrite E|by rewrite E|].
  - intros h' Hh'. change (is_Some (delete h (rd frames v) !! h')) in Hh'.
    destruct (decide (h' = h)) as [->|Hne]; [rewrite lookup_delete_eq in Hh'; by destruct Hh'|].
    rewrite lookup_delete_ne in Hh' by done. apply H4 in Hh' as [|]%elem_of_cons; done.
Qed.

(** ** Spawning *)

(** C19: Spawned by anyone (a thread outside the runtime, the loop of a worker
    or a bthread), when there is room in the queue it goes to, a coroutine
    gets READY metadata of type COROUTINE with its handle, its promise names
    the metadata, and the metadata is queued once, at the end of the next
    shard of the global queue or of the queue of the worker of the caller; if
    a worker is idle, the last registered one is taken off the registry and
    woken; no other frame or task changes, and no worker gets another context
    to run, so nothing of the coroutine runs. *)
Theorem Spawn_queues_a_coroutine self v h o k idle j p (Hq : queueing self v idle j p) (Hj : 0 < j)
    (Ho : rd frames v !! h = Some o) (Hk : Frame.kind_of (Frame.f_promise_ o) = k)
    (Hfit : place_fits p [Task.mem_brk (rd mem v)] = true) :
  let m := Task.mem_brk (rd mem v) in
  wp (Spawn self k (Some h)) (fun r v' => r = Some h /\
    rd tasks v' = <[m := wr Task.type Task.COROUTINE Task.new_TaskMeta]> (rd tasks v) /\
    rd coros v' = <[m := Coro.MkCoro (Some h) false]> (rd coros v) /\
    rd frames v' = <[h := wr Frame.meta_ (Some m) o]> (rd frames v) /\
    submitted self v v' idle j p [m] /\
    (forall w, w_context <$> v_workers v' !! w = w_context <$> v_workers v !! w)) v.
Proof.
  intros m. unfold Spawn. apply wp_load_bind. change (rd initialized_ v) with (v_initialized_ v).
  rewrite (q_init _ _ _ _ _ Hq). apply wp_ret_bind.
  unfold CoroScheduler.new_CoroutineMeta. apply wp_assoc, wp_act_bind. fold m. apply wp_act_bind.
  set (v1 := wr coros _ _).
  assert (T1 : rd tasks v1 = <[m := wr Task.type Task.COROUTINE Task.new_TaskMeta]> (rd tasks v)) by done.
  assert (E1 : same_sched v v1).
  { etrans; [|apply CoroScheduler.same_sched_coroutines]. by apply Butex.same_sched_mem. }
  eapply wp_set_bind; [apply lookup_insert_eq|]. set (v2 := wr coros _ v1).
  assert (C2 : rd coros v2 = <[m := Coro.MkCoro (Some h) false]> (rd coros v)).
  { change (<[m := Coro.MkCoro (Some h) false]> (<[m := Coro.CoroutineMeta]> (rd coros v)) =
            <[m := Coro.MkCoro (Some h) false]> (rd coros v)). apply insert_insert_eq. }
  eapply wp_set_bind; [exact (eq_trans (f_equal (lookup m) T1) (lookup_insert_eq _ _ _))|].
  set (v3 := wr tasks _ v2). assert (E3 : same_sched v v3).
  { etrans; [exact E1|]. etrans; [|apply Butex.same_sched_tasks]. apply CoroScheduler.same_sched_coroutines. }
  assert (T3 : rd tasks v3 = <[m := wr Task.type Task.COROUTINE Task.new_TaskMeta]> (rd tasks v)).
  { unfold v3. rewrite rd_wr. change (rd tasks v2) with (rd tasks v1). rewrite T1. apply insert_insert_eq. }
  apply wp_bind. eapply promise_set_last; [exact Ho|exact Hk|]. set (v4 := with_frame h _ v3).
  assert (E4 : same_sched v v4) by (etrans; [exact E3|apply CoroScheduler.same_sched_coroutines]).
  apply wp_bind. eapply wp_mono.
  { apply (Submit_submits self v4 m (wr Task.type Task.COROUTINE Task.new_TaskMeta) idle j p);
      [by eapply queueing_same|exact Hj| |exact Hfit].
    change (rd tasks v4) with (rd tasks v3). rewrite T3. apply lookup_insert_eq. }
  intros [] v5 (Q5 & T5 & _ & (_ & _ & _ & _ & _ & S5) & _). apply wp_ret. split; [done|]. split.
  { rewrite T5. change (rd tasks v4) with (rd tasks v3). rewrite T3. apply insert_insert_eq. }
  assert (Q : submitted self v v5 idle j p [m]) by by eapply submitted_same.
  split; [|split; [|split; [exact Q|intros w; exact (woke_context _ _ _ _ w (sb_woke _ _ _ _ _ _ _ Q))]]].
  - change (Coroutines.r_coros (v_coroutines v5) = <[m := Coro.MkCoro (Some h) false]> (rd coros v)).
    rewrite S5. exact C2.
  - change (Coroutines.r_frames (v_coroutines v5) = <[h := wr Frame.meta_ (Some m) o]> (rd frames v)).
    by rewrite S5.
Qed.

(** ** Witnesses *)

(** A world with a frame pool and frames. *)
Definition with_pool (p : FramePool.pool) (fs : gmap ptr Frame.frame) (v : world) : world :=
  wr (sub coroutines Coroutines.pool_once) Called (wr frame_pool_ p (wr frames fs v)).

Lemma same_sched_with_pool p fs v : same_sched v (with_pool p fs v).
Proof. by split_and!. Qed.

(** The frame pool has no block yet. *)
Definition pooled : world := with_pool (FramePool.Pool 8192 [] None false ∅ 20%nat) ∅ two_workers.

Lemma pooled_ready : pool_ready pooled [] [].
Proof.
  split; [reflexivity| |reflexivity|].
  - change (rd frame_pool_ pooled) with (FramePool.Pool 8192 [] None false ∅ 20%nat).
    split; simpl; try done; [apply NoDup_nil_2|intros ? []%not_elem_of_nil..].
  - intros h [o Ho]. change (rd frames pooled) with (∅ : gmap ptr Frame.frame) in Ho. by rewrite lookup_empty in Ho.
Qed.

Lemma a_large_frame_is_undefined_witness : goes_wrong (create TaskVoid 1 0 8193) pooled.
Proof. by apply (a_large_frame_is_undefined pooled [] [] TaskVoid 1 0 8193 pooled_ready). Defined.

Lemma create_makes_a_frame_witness :
  wp (create TaskInt 1 41 100) (fun r v' => exists h, r = Some h /\
    rd frames v' !! h = Some (new_frame TaskInt 0 1 41)) pooled.
Proof.
  eapply wp_mono; [apply (create_makes_a_frame pooled [] [] TaskInt 1 41 100 pooled_ready); by vm_compute|].
  intros r v' (h & H1 & _ & _ & H2 & _). exists h. split; [exact H1|]. rewrite H2. apply lookup_insert_eq.
Defined.

(** Coroutine 20 has just been created, nobody runs it. *)
Definition one_created : world :=
  with_pool (FramePool.Pool 8192 [20%nat] None false {[20%nat := FramePool.Block 8192 None]} 21%nat)
    {[20%nat := new_frame TaskInt 0 1 41]} two_workers.

Lemma one_created_ready : pool_ready one_created [] [20%nat].
Proof.
  split; [reflexivity| |reflexivity|].
  - change (rd frame_pool_ one_created) with
      (FramePool.Pool 8192 [20%nat] None false {[20%nat := FramePool.Block 8192 None]} 21%nat).
    split; simpl; try done.
    + apply NoDup_singleton.
    + intros b ->%list_elem_of_singleton. exists (FramePool.Block 8192 None). split; [apply lookup_singleton_eq|done].
    + intros b ->%list_elem_of_singleton. lia.
  - intros h [o Ho]. change (rd frames one_created) with ({[20%nat := new_frame TaskInt 0 1 41]} : gmap ptr Frame.frame) in Ho.
    apply lookup_singleton_Some in Ho as [<- _]. by left.
Qed.

Lemma one_created_frame : rd frames one_created !! 20%nat = Some (new_frame TaskInt 0 1 41).
Proof. reflexivity. Qed.

Lemma destroy_frees_the_frame_witness :
  wp (CoroTask.delete_Task (Some 20%nat)) (fun _ v' => pool_ready v' [20%nat] []) one_created.
Proof.
  eapply wp_mono; [apply (destroy_frees_the_frame one_created [] [] 20 (new_frame TaskInt 0 1 41) one_created_ready)|].
  - exact one_created_frame.
  - by vm_compute.
  - intros [] v' [H _]. exact H.
Defined.

Lemma Spawn_queues_a_coroutine_witness :
  wp (Spawn (Native 0) TaskInt (Some 20%nat)) (fun r v' => r = Some 20%nat /\
    rd coros v' !! 21%nat = Some (Coro.MkCoro (Some 20%nat) false) /\
    queueing (Native 0) v' [] 9 (Global ([[21%nat]; []], 1))) one_created /\
  wp (Spawn (OnLoop 1) TaskInt (Some 20%nat)) (fun r v' =>
    queueing (OnLoop 1) v' [] 9 (Local 1 [] [21%nat])) one_created.
Proof.
  split.
  - eapply wp_mono; [apply (Spawn_queues_a_coroutine (Native 0) one_created 20 (new_frame TaskInt 0 1 41) TaskInt [0] 10
      (Global ([[]; []], 0)))|].
    + eapply queueing_same; [apply same_sched_with_pool|]. apply Butex.two_workers_queueing. lia.
    + lia.
    + exact one_created_frame.
    + reflexivity.
    + reflexivity.
    + intros r v' (H1 & _ & H2 & _ & [H3 _] & _). split; [exact H1|]. split; [|exact H3].
      rewrite H2. apply lookup_insert_eq.
  - eapply wp_mono; [apply (Spawn_queues_a_coroutine (OnLoop 1) one_created 20 (new_frame TaskInt 0 1 41) TaskInt [0] 10
      (Local 1 [] []))|].
    + eapply queueing_same; [apply same_sched_with_pool|]. apply Butex.two_workers_loop_queueing. lia.
    + lia.
    + exact one_created_frame.
    + reflexivity.
    + reflexivity.
    + intros r v' (_ & _ & _ & _ & [H _] & _). exact H.
Defined.

(** Worker 1 executes coroutine 20, on behalf of metadata 21; coroutine 22,
    with metadata 23, awaits it. *)
Definition runner : worker := wr current_coro_meta_ (Some 21%nat) (wr context (Some 20%nat) (Worker 0)).
Definition running_frame : Frame.frame :=
  awaited 22 (Some 23%nat) (wr Frame.meta_ (Some 21%nat) (new_frame SafeTaskInt 0 1 41)).
Definition one_running : world :=
  wr workers (<[1%nat := runner]> {[2%nat := Worker 1]}) (wr frames {[20%nat := running_frame]} two_workers).

Lemma one_running_frame : rd frames one_running !! 20%nat = Some running_frame.
Proof. reflexivity. Qed.
Lemma one_running_worker : v_workers one_running !! 1%nat = Some runner.
Proof. reflexivity. Qed.
Lemma one_running_on : worker_on one_running 20%nat = Some 1%nat.
Proof. vm_compute. reflexivity. Qed.

Lemma get_gives_what_was_returned_witness :
  wp (finish 20 (unhandled (Result.StdException "boom")) ;;; give_back 20 FinalSuspend)
     (fun _ v' => wp (get SafeTaskInt (Some 20%nat))
        (fun r _ => r = Gives (Result.Failure (Result.MkError (-3) "boom"))) v') one_running.
Proof.
  eapply wp_mono; [apply (get_gives_what_was_returned one_running 1 runner 20 running_frame SafeTaskInt)|].
  - exact one_running_frame.
  - reflexivity.
  - exact one_running_on.
  - exact one_running_worker.
  - reflexivity.
  - intros [] v' (_ & _ & H). exact H.
Defined.

Lemma get_before_the_end_witness :
  wp (a <- get SafeTaskInt (Some 20%nat) ;; b <- get SafeTaskInt None ;; Ret (a, b)) (fun r _ =>
    r.1 = Gives (Result.Failure (Result.MkError (-2) "Task not completed"))) one_running.
Proof.
  eapply wp_mono; [apply (get_before_the_end one_running 20 running_frame SafeTaskInt); [exact one_running_frame|reflexivity..]|].
  by intros r v' [_ ->].
Defined.

Lemma awaiting_starts_nothing_witness :
  wp (await_suspend 1 24 (AwaitTask SafeTaskInt 20)) (fun next v' => next = None /\
    v' = with_frame 20 (awaited 24 (Some 21%nat) running_frame) one_running) one_running.
Proof.
  apply (awaiting_starts_nothing one_running 1 runner 24 20 running_frame SafeTaskInt);
    [exact one_running_worker|exact one_running_frame|reflexivity].
Defined.

Lemma the_end_resumes_the_awaiter_witness :
  wp (await_suspend 1 20 FinalSuspend) (fun next v' => next = Some 22%nat /\
    v' = wr workers (<[1%nat := wr current_coro_meta_ (Some 23%nat) runner]> (v_workers one_running)) one_running) one_running.
Proof.
  apply (the_end_resumes_the_awaiter one_running 1 runner 20 running_frame); [exact one_running_worker|exact one_running_frame].
Defined.

End Coroutine.
