(* ===== verification/Runtime.v ===== *)
(** * The main loop of the workers

    Model of [Worker::Run], [RunCoroutine], [HandleTaskAfterRun] and
    [HandleFinishedBthread] ([src/bthread/core/worker.cpp]), of [BthreadEntry]
    ([src/bthread/core/task_meta.cpp]) and of [bthread_exit]
    ([src/bthread.cpp]).  The loop of a worker and the code of each bthread are
    threads of the pool; [SwapTo] and [SwapFrom] pass control between them. *)

From Stdlib Require Import ZArith Lia.
From stdpp Require Import base numbers list gmap relations option.
From S2P Require Import Prelude Mpsc SharedMpsc WorkStealing Task TaskGroup Timer Mpmc Platform.
From S2P Require Import World Workers Scheduler Butex CoroTask Coroutine.

Open Scope Z_scope.

Module Runtime.
Import World World.Worker Workers Scheduler.

(** ** Coroutines *)

(** [handle && !handle.done()], [handle && handle.done()]. *)
Definition handle_is (meta : ptr) (finished : bool) : prog world bool :=
  h <- get coros meta Coro.handle ;;
  match h with
  | None => Ret false
  | Some h => d <- CoroTask.done h ;; Ret (Bool.eqb d finished)
  end.

(** [handle.resume()]. *)
Definition resume (w meta : ptr) : prog world unit :=
  h <- get coros meta Coro.handle ;;
  match h with
  | Some h => Coroutine.resume w h
  | None => undefined
  end.

Definition RunCoroutine (w meta : ptr) : prog world unit :=
  on w (store current_coro_meta_ (Some meta)) ;;;
  set tasks meta Task.state Task.RUNNING ;;;
  go <- handle_is meta false ;;
  (if go : bool then resume w meta else Ret tt) ;;;
  on w (store current_coro_meta_ None) ;;;
  done <- handle_is meta true ;;
  if done : bool then set tasks meta Task.state Task.FINISHED else Ret tt.

(** ** After a task has run *)

(** [self] is the loop of [w]. *)
Definition HandleFinishedBthread (w task : ptr) : prog world unit :=
  n <- get tasks task Task.join_waiters ;;
  jb <- (if 0 <? n then get tasks task Task.join_butex else Ret None) ;;
  (match jb with
   | Some b =>
       v <- Butex.value b ;;
       Butex.set_value b (i32 (v + 1)) ;;;
       jb <- get tasks task Task.join_butex ;;
       Butex.WakeButex (OnLoop w) jb INT_MAX
   | None => Ret tt
   end) ;;;
  last <- Task.Release tasks task ;;
  if last : bool then ReleaseTaskMeta w (Some task) else Ret tt.

Definition HandleTaskAfterRun (w : ptr) (task : option ptr) : prog world unit :=
  match task with
  | None => undefined
  | Some task =>
      state <- get tasks task Task.state ;;
      match state with
      | Task.FINISHED =>
          type <- get tasks task Task.type ;;
          if decide (type = Task.BTHREAD) then HandleFinishedBthread w task else Ret tt
      | Task.SUSPENDED | Task.READY | Task.RUNNING => Ret tt
      end
  end.

(** ** The loop *)

(** Running a task that was picked. *)
Definition run_task (w task : ptr) : prog world unit :=
  on w (store current_task_ (Some task)) ;;;
  set tasks task Task.state Task.RUNNING ;;;
  set tasks task Task.owner_worker (Some w) ;;;
  type <- get tasks task Task.type ;;
  match type with
  | Task.BTHREAD => RunBthread w task
  | Task.COROUTINE => RunCoroutine w task
  end.

Definition TASKS_PER_CHECK : Z := 10.
Definition MAX_DRAIN : Z := 100.

(** A round, with [task_count]. *)
Definition run_round (w : ptr) (task_count : Z) : prog world (Z + unit) :=
  stop <- on w IsStopped ;;
  if stop : bool then Ret (inr tt)
  else
    task <- PickTask w ;;
    match task with
    | None =>
        stop <- on w IsStopped ;;
        if stop : bool then Ret (inr tt)
        else
          WaitForTask w ;;;
          stop <- on w IsStopped ;;
          Ret (if stop : bool then inr tt else inl task_count)
    | Some task =>
        run_task w task ;;;
        completed_task <- on w (load current_task_) ;;
        on w (store current_task_ None) ;;;
        let task_count := task_count + 1 in
        if TASKS_PER_CHECK <=? task_count then
          stop <- on w IsStopped ;;
          HandleTaskAfterRun w completed_task ;;;
          Ret (if stop : bool then inr tt else inl 0)
        else HandleTaskAfterRun w completed_task ;;; Ret (inl task_count)
    end.

(** What is left after the stop. *)
Definition drain_round (w : ptr) (drain_count : Z) : prog world (Z + unit) :=
  if drain_count <? MAX_DRAIN then
    task <- PickTask w ;;
    match task with
    | None => Ret (inr tt)
    | Some task =>
        run_task w task ;;;
        current <- on w (load current_task_) ;;
        HandleTaskAfterRun w current ;;;
        on w (store current_task_ None) ;;;
        Ret (inl (drain_count + 1))
    end
  else Ret (inr tt).

Definition Run (w : ptr) : prog world unit :=
  WorkerReady ;;;
  loop 0 (run_round w) ;;;
  loop 0 (drain_round w) ;;;
  on w (store current_task_ None).

(** The thread of [w]. *)
Definition worker_thread (w : ptr) : prog world unit :=
  act (fun v => match w_thread <$> v_workers v !! w with
                | Some Started => Go tt v
                | Some _ | None => Block
                end) ;;;
  Run w ;;;
  on w (store thread Exited).

(** ** The code of a bthread *)

(** [Worker::Current()->current_task()] if it is a bthread. *)
Definition current_bthread (w : option ptr) : prog world (option ptr) :=
  match w with
  | None => Ret None
  | Some w =>
      base_task <- on w (load current_task_) ;;
      match base_task with
      | None => Ret None
      | Some task =>
          type <- get tasks task Task.type ;;
          Ret (if decide (type = Task.BTHREAD) then Some task else None)
      end
  end.

Definition bthread_exit (self : who) (retval : Z) : prog world unit :=
  w <- Current self ;;
  task <- current_bthread w ;;
  match w, task with
  | Some w, Some task =>
      set tasks task Task.result retval ;;;
      set tasks task Task.state Task.FINISHED ;;;
      SuspendCurrent self w
  | _, _ => Ret tt
  end.

Section User.
(** The functions of the user: the function at an address, applied to an
    argument, executed by a bthread. *)
Context (user : who -> Z -> Z -> prog world Z).

Definition BthreadEntry (task : ptr) : prog world unit :=
  fn <- get tasks task Task.fn ;;
  arg <- get tasks task Task.arg ;;
  match fn with
  | None => undefined
  | Some fn =>
      r <- user (OnStack task) fn arg ;;
      set tasks task Task.result r ;;;
      r <- get tasks task Task.result ;;
      bthread_exit (OnStack task) r
  end.

(** A context made by [MakeContext] starts at the entry; one that has been
    started does not start again. *)
Definition start (task : ptr) : prog world unit :=
  act (fun v => match v_made v !! task with
                | Some true => Go tt (wr made (<[task := false]> (v_made v)) v)
                | Some false | None => Bad
                end).

(** What is executed on the stack of [task]. *)
Definition bthread (task : ptr) : prog world unit :=
  resumed task ;;;
  loop tt (fun _ => start task ;;; BthreadEntry task ;;; Ret (inl tt)).
End User.

(** ** The end of a bthread *)

Lemma Release_ok v t o : rd tasks v !! t = Some o ->
  wp (Task.Release tasks t) (fun r v' => r = (Task.m_ref_count o =? 1) /\
    v' = wr tasks (<[t := wr Task.ref_count (i32 (Task.m_ref_count o - 1)) o]> (rd tasks v)) v) v.
Proof. intros Ho. unfold Task.Release. eapply wp_modify_bind; [exact Ho|]. by apply wp_ret. Qed.

(** When a bthread ends that nobody joins, the worker drops its reference, and
    caches the task exactly when that was the last reference. *)
Theorem HandleFinishedBthread_without_joiners v w x t o l (Ho : rd tasks v !! t = Some o)
    (Hx : v_workers v !! w = Some x) (Hl : cached x l) (Hroom : Z.of_nat (length l) < TASK_CACHE_SIZE)
    (Hj : Task.m_join_waiters o <= 0) :
  wp (HandleFinishedBthread w t) (fun _ v' =>
    rd tasks v' = <[t := wr Task.ref_count (i32 (Task.m_ref_count o - 1)) o]> (rd tasks v) /\
    exists x', v_workers v' !! w = Some x' /\
      cached x' (if Task.m_ref_count o =? 1 then l ++ [t] else l)) v.
Proof.
  unfold HandleFinishedBthread. eapply wp_get_bind; [exact Ho|]. simpl (rd Task.join_waiters o).
  rewrite (proj2 (Z.ltb_ge 0 _)) by lia. apply wp_ret_bind, wp_ret_bind.
  apply wp_bind. eapply wp_mono; [by apply Release_ok|]. intros r v1 [-> ->].
  destruct (Task.m_ref_count o =? 1).
  - unfold ReleaseTaskMeta. eapply wp_on_load_bind; [exact Hx|]. simpl (rd task_cache_count_ x).
    destruct Hl as (H1 & H2 & H3 & H4). rewrite H1. rewrite (proj2 (Z.ltb_lt _ _)) by lia.
    eapply wp_on; [exact Hx|]. eapply wp_mono; [apply (push_task_ok x l t); [by split|done]|].
    intros [] x' Hx'. split; [exact (rd_wr (v := tasks) v _)|]. exists x'. split; [apply lookup_insert_eq|exact Hx'].
  - apply wp_ret. split; [exact (rd_wr (v := tasks) v _)|]. by exists x.
Qed.

Example HandleFinishedBthread_without_joiners_witness :
  wp (HandleFinishedBthread 1 3) (fun _ v' =>
    rd tasks v' = {[3%nat := wr Task.ref_count (-1) (wr Task.state Task.RUNNING Task.new_TaskMeta)]} /\
    exists x', v_workers v' !! 1%nat = Some x' /\ cached x' []) Butex.one_running.
Proof.
  eapply wp_mono.
  - apply (HandleFinishedBthread_without_joiners Butex.one_running 1
             (wr context (Some 3%nat) (wr current_task_ (Some 3%nat) (Worker 0))) 3
             (wr Task.state Task.RUNNING Task.new_TaskMeta) []); try reflexivity.
    by split_and!.
  - intros r v' [H1 H2]. split; [rewrite H1; reflexivity|exact H2].
Defined.

(** ** Two workers and one task

    Task 3, with two references, is in the queue of worker 0; it waits for
    butex 9 and then ends. *)
Definition ready_task : world :=
  wr tasks {[3%nat := wr Task.ref_count 2 Task.new_TaskMeta]}
    (wr butexes {[9%nat := Task.new_Butex; 10%nat := Task.new_Butex]}
      (wr workers (<[1%nat := wr local_queue_ (WorkStealingQueue.holding [3%nat]) (Worker 0)]> {[2%nat := Worker 1]})
        (wr idle_head_ (-1) two_workers))).

Definition one_round (w : ptr) : prog world Z := r <- run_round w 0 ;; Ret 0.

Definition waits_and_ends (t b : ptr) : prog world Z :=
  resumed t ;;; Butex.waits t b ;;; bthread_exit (OnStack t) 7 ;;; Ret 0.

Definition finished_twice : conf world Z :=
  drive 2000 [All 0; All 1; All 2; All 3; All 1; All 3; All 0]
    ([one_round 1; waits_and_ends 3 9; Butex.changes_and_wakes 0 9 1; one_round 2], ready_task).

(** There is an interleaving in which two workers both handle the end of a
    task that was suspended on one and resumed on the other: the task with two
    references is in the cache although its creator has not released it. *)
Theorem a_finished_task_may_be_released_twice :
  exists ts v, reachable ([one_round 1; waits_and_ends 3 9; Butex.changes_and_wakes 0 9 1; one_round 2], ready_task)
                 (ts, v) /\
    Task.m_ref_count <$> rd tasks ready_task !! 3%nat = Some 2 /\
    (exists x, v_workers v !! 1%nat = Some x /\ cached x [3%nat]).
Proof.
  exists finished_twice.1, finished_twice.2.
  split; [rewrite <- surjective_pairing; apply drive_reachable|]. split; [reflexivity|].
  assert (E : (fun x => (w_task_cache_count_ x, w_task_cache_ x)) <$> v_workers finished_twice.2 !! 1%nat =
              Some (1, [Some 3%nat; None; None; None])) by (vm_compute; reflexivity).
  destruct (v_workers finished_twice.2 !! 1%nat) as [x|]; [|discriminate E]. injection E as E1 E2.
  exists x. split; [reflexivity|]. unfold cached. rewrite E1, E2. by split_and!.
Qed.

(** ** Timeouts *)

Definition waits_for (t b : ptr) (us : Z) : prog world Z := Butex.Wait (OnStack t) b 0 (Some (0, us * 1000)) false.

(** The loop of a worker, the callback made by the timer thread. *)
Definition runs (w : ptr) : prog world Z := loop 0 (run_round w) ;;; Ret 0.
Definition times_out (t : ptr) : prog world Z := Butex.TimeoutCallback (Native 1) t ;;; Ret 0.

Definition waits_twice (t b1 b2 : ptr) : prog world (Z * Z) :=
  resumed t ;;; r1 <- waits_for t b1 100 ;; r2 <- Butex.waits t b2 ;; Ret (r1, r2).

Definition in_pair (p : prog world Z) : prog world (Z * Z) := r <- p ;; Ret (r, r).

(** The wait for butex 9 times out; that for butex 10 has no timeout and is woken. *)
Definition timed_out_once : conf world (Z * Z) :=
  drive 3000 [All 0; All 1; All 2; All 0; All 1; All 3; All 0; All 1]
    ([in_pair (runs 1); waits_twice 3 9 10; in_pair (times_out 3); in_pair (Butex.changes_and_wakes 0 10 1)],
     ready_task).

(** There is an execution in which a bthread whose wait timed out waits again,
    without a timeout, is woken, and is told again that the wait timed out:
    the flag is never reset. *)
Theorem a_timeout_is_remembered :
  exists ts v, reachable ([in_pair (runs 1); waits_twice 3 9 10; in_pair (times_out 3);
                           in_pair (Butex.changes_and_wakes 0 10 1)], ready_task) (ts, v) /\
    Prelude.result <$> ts !! 1%nat = Some (Some (Platform.ETIMEDOUT, Platform.ETIMEDOUT)) /\
    Prelude.result <$> ts !! 3%nat = Some (Some (0, 0)).
Proof.
  exists timed_out_once.1, timed_out_once.2. split; [rewrite <- surjective_pairing; apply drive_reachable|].
  split; vm_compute; reflexivity.
Qed.

(** ** The end of a worker *)

Lemma nothing_queued_alive v w id : nothing_queued v w id -> exists x, v_workers v !! w = Some x.
Proof. intros [_ Hw (o & x & Ho & Hx & _) _ _ _]. exists x. congruence. Qed.

Lemma Stop_nothing v w id : nothing_queued v w id ->
  wp (Stop w) (fun _ v' => nothing_queued v' w id /\ exists x, v_workers v' !! w = Some x /\ w_stop_flag_ x = 1) v.
Proof.
  intros H. destruct (nothing_queued_alive _ _ _ H) as [x Hx]. unfold Stop.
  eapply wp_on_bind; [exact Hx|]. apply wp_store. eapply wp_on_bind; [apply lookup_insert_eq|]. apply wp_store.
  eapply wp_on_bind; [apply lookup_insert_eq|]. apply wp_fetch. apply wp_act_last. simpl. rewrite !insert_insert_eq.
  split; [|by rewrite lookup_insert_eq; eexists].
  apply (nothing_queued_member v w x); [exact H|exact Hx|done|]. intros b l []. by split.
Qed.

(** When nothing is queued anywhere and the worker has been stopped, its main
    loop and the drain behind it end: Run returns, without a current task. *)
Theorem a_stopped_worker_leaves_its_loop v w id (H : nothing_queued v w id) :
  wp (Stop w ;;; Run w) (fun _ v' => exists x, v_workers v' !! w = Some x /\ w_current_task_ x = None) v.
Proof.
  apply wp_bind. eapply wp_mono; [by apply Stop_nothing|]. intros [] v1 (H1 & x & Hx & Hstop).
  unfold Run, WorkerReady. apply wp_assoc, wp_fetch_bind, wp_ret_bind.
  set (v2 := wr workers_ready_ _ v1). assert (H2 : nothing_queued v2 w id) by (destruct H1; by split).
  apply wp_bind, wp_loop_once. unfold run_round, IsStopped. eapply wp_on_bind; [exact Hx|].
  apply wp_load_bind, wp_ret. simpl rd. rewrite Hstop. simpl negb. cbv iota. apply wp_ret.
  set (v3 := wr workers _ v2).
  assert (H3 : nothing_queued v3 w id) by (apply (nothing_queued_member v2 w x); done).
  apply wp_bind, wp_loop_once. unfold drain_round. change (0 <? MAX_DRAIN) with true. cbv iota.
  apply wp_bind. eapply wp_mono; [by apply (PickTask_nothing v3 w id)|]. intros r v4 [-> [y Hy]]. apply wp_ret.
  eapply wp_on; [exact Hy|]. apply wp_store. eexists. split; [apply lookup_insert_eq|done].
Qed.

Lemma global_workers v ws : rd global_queue_ (wr workers ws v) = rd global_queue_ v.
Proof. reflexivity. Qed.

Example a_stopped_worker_leaves_its_loop_witness :
  wp (Stop 1 ;;; Run 1) (fun _ v' => exists x, v_workers v' !! 1%nat = Some x /\ w_current_task_ x = None)
    (wr workers (<[1%nat := Worker 0]> {[2%nat := Worker 1]}) two_workers).
Proof.
  apply (a_stopped_worker_leaves_its_loop _ 1 0). split.
  - by vm_compute.
  - reflexivity.
  - exists 1%nat, (Worker 0). split_and!; [reflexivity..|]. apply Worker_holds.
  - intros k Hk Hne. change (0 <= k < 2) in Hk. assert (k = 1) as -> by lia.
    exists [], 2%nat, (Worker 1). split_and!; [reflexivity..|]. apply Worker_holds.
  - exists [[]; []]. rewrite global_workers. split; [exact two_workers_global|].
    intros l [-> |[-> |Hl]%elem_of_cons]%elem_of_cons; [done..|by apply not_elem_of_nil in Hl].
  - by vm_compute.
Defined.

End Runtime.
