(* ===== verification/Api.v ===== *)
(** * The public interface

    Model of the functions of [src/bthread.cpp], of [Task::join] and
    [Task::detach] ([src/bthread/core/task.cpp], [include/bthread/core/task.hpp]),
    of [spawn] and its companions ([include/bthread/api/spawn.hpp]) and of
    [bthread_once] ([src/bthread/api/once.cpp]).  [self] is the caller. *)

From Stdlib Require Import ZArith Lia.
From stdpp Require Import base numbers list gmap relations option.
From S2P Require Import Prelude Mpsc SharedMpsc WorkStealing Task TaskGroup Timer Mpmc Platform.
From S2P Require Import World Workers Scheduler Butex Runtime.

Open Scope Z_scope.

Module Api.
Import World World.Worker Workers Scheduler Runtime.

Definition BTHREAD_STACK_SIZE_DEFAULT : Z := 1024 * 1024.

(** [MakeContext(&task->context, ...)]: the context will start at the entry. *)
Definition MakeContext (task : ptr) : prog world unit :=
  act (fun v => Go tt (wr made (<[task := true]> (v_made v)) v)).

Definition EncodeId (task : ptr) : prog world Z :=
  slot <- get tasks task Task.slot_index ;;
  gen <- get tasks task Task.generation ;;
  Ret (TaskGroup.EncodeId slot gen).

(** [if (task->Release())]: back to the worker's cache or to the pool. *)
Definition release_reference (self : who) (task : ptr) : prog world unit :=
  last <- Task.Release tasks task ;;
  if last : bool then
    w <- Current self ;;
    match w with
    | Some w => ReleaseTaskMeta w (Some task)
    | None => zoom group (TaskGroup.DeallocTaskMeta (Some task))
    end
  else Ret tt.

Section Caller.
Context (self : who).

(** The stack of a new bthread: whether it has one. *)
Definition set_up_stack (task : ptr) (stack_size : Z) : prog world bool :=
  stack <- get tasks task Task.stack ;;
  match stack with
  | Some _ => Ret true
  | None =>
      w <- Current self ;;
      stack <- (match w with
                | Some w => AcquireStack w stack_size
                | None => zoom vm_ (Platform.AllocateStack stack_size)
                end) ;;
      set tasks task Task.stack stack ;;;
      match stack with
      | None => zoom group (TaskGroup.DeallocTaskMeta (Some task)) ;;; Ret false
      | Some _ => set tasks task Task.stack_size stack_size ;;; Ret true
      end
  end.

(** What a new bthread starts with. *)
Definition initialise (t : ptr) (f arg : Z) : prog world unit :=
  set tasks t Task.fn (Some f) ;;;
  set tasks t Task.arg arg ;;;
  set tasks t Task.result 0 ;;;
  set tasks t Task.state Task.READY ;;;
  set tasks t Task.ref_count 2 ;;;
  set tasks t Task.join_waiters 0 ;;;
  set tasks t Task.join_butex None ;;;
  MakeContext t.

(** [attr]: the stack size it asks for.  The result and, if it is 0, the id
    stored in [*tid]. *)
Definition bthread_create (tid : bool) (attr : option Z) (fn : option Z) (arg : Z) : prog world (Z * Z) :=
  match tid, fn with
  | true, Some f =>
      Init ;;;
      w <- Current self ;;
      task <- (match w with Some w => AcquireTaskMeta w | None => Ret None end) ;;
      task <- (match task with
               | Some _ => Ret task
               | None => zoom group TaskGroup.AllocTaskMeta
               end) ;;
      match task with
      | None => Ret (Platform.EAGAIN, 0)
      | Some t =>
          ok <- set_up_stack t (default BTHREAD_STACK_SIZE_DEFAULT attr) ;;
          if negb ok then Ret (Platform.ENOMEM, 0)
          else
            initialise t f arg ;;;
            id <- EncodeId t ;;
            EnqueueTask self t ;;;
            Ret (0, id)
      end
  | _, _ => Ret (Platform.EINVAL, 0)
  end.

(** The butex the joiners wait on, created by the first of them. *)
Definition get_join_butex (task : ptr) : prog world (option ptr) :=
  jb <- get tasks task Task.join_butex ;;
  (match jb with
   | Some _ => Ret tt
   | None =>
       new_butex <- Task.alloc mem Task.butexes Task.new_Butex ;;
       c <- cas_on tasks task Task.join_butex None (Some new_butex) ;;
       if c.1 : bool then Ret tt else Task.free mem Task.butexes new_butex
   end) ;;;
  get tasks task Task.join_butex.

(** The result and the value returned by the bthread. *)
Definition bthread_join (tid : Z) : prog world (Z * Z) :=
  task <- zoom group (TaskGroup.DecodeId tid) ;;
  match task with
  | None => Ret (Platform.ESRCH, 0)
  | Some task =>
      w <- Current self ;;
      current <- current_bthread w ;;
      if decide (current = Some task) then Ret (Platform.EDEADLK, 0)
      else
        join_butex <- get_join_butex task ;;
        match join_butex with
        | None => undefined
        | Some b =>
            generation <- Butex.value b ;;
            state <- get tasks task Task.state ;;
            if decide (state = Task.FINISHED) then
              r <- get tasks task Task.result ;;
              release_reference self task ;;;
              Ret (0, r)
            else
              modify tasks task Task.join_waiters (fun n => i32 (n + 1)) ;;;
              Butex.Wait self b generation None false ;;;
              modify tasks task Task.join_waiters (fun n => i32 (n - 1)) ;;;
              r <- get tasks task Task.result ;;
              release_reference self task ;;;
              Ret (0, r)
        end
  end.

Definition bthread_detach (tid : Z) : prog world Z :=
  task <- zoom group (TaskGroup.DecodeId tid) ;;
  match task with
  | None => Ret Platform.ESRCH
  | Some task =>
      n <- modify tasks task Task.ref_count (fun n => i32 (n - 1)) ;;
      (if n =? 1 then zoom group (TaskGroup.DeallocTaskMeta (Some task)) else Ret tt) ;;;
      Ret 0
  end.

Definition bthread_self : prog world Z :=
  w <- Current self ;;
  task <- current_bthread w ;;
  match task with Some t => EncodeId t | None => Ret 0 end.

Definition bthread_yield : prog world Z :=
  w <- Current self ;;
  match w with
  | None => pause ;;; Ret 0
  | Some w => YieldCurrent self w
  end.

(** ** Timers and configuration *)

Definition bthread_timer_add (callback : option Z) (arg : Z) (delay : option (Z * Z)) : prog world Z :=
  match callback, delay with
  | Some cb, Some _ => Init ;;; on_timer (Timer.Schedule cb arg delay)
  | _, _ => Ret (-1)
  end.

Definition bthread_timer_cancel (timer_id : Z) : prog world Z :=
  if timer_id <? 0 then Ret Platform.EINVAL
  else
    cancelled <- on_timer (Timer.Cancel timer_id) ;;
    Ret (if cancelled : bool then 0 else Platform.ESRCH).

Definition bthread_set_worker_count (count : Z) : prog world Z :=
  if count <=? 0 then Ret Platform.EINVAL
  else
    n <- load worker_count_ ;;
    if 0 <? n then Ret Platform.EBUSY
    else store configured_count_ count ;;; Ret 0.

Definition bthread_get_worker_count : prog world Z := load worker_count_.

Definition bthread_shutdown : prog world unit := Shutdown self.

(** ** Task handles *)

(** [is_done] and [is_running] of a handle holding [meta]. *)
Definition is_done (meta : option ptr) : prog world bool :=
  match meta with
  | None => Ret true
  | Some m => s <- get tasks m Task.state ;; Ret (bool_decide (s = Task.FINISHED))
  end.
Definition is_running (meta : option ptr) : prog world bool :=
  match meta with
  | None => Ret false
  | Some m => s <- get tasks m Task.state ;; Ret (bool_decide (s = Task.RUNNING))
  end.
Definition id (meta : option ptr) : prog world Z :=
  match meta with
  | None => Ret 0
  | Some m =>
      gen <- get tasks m Task.generation ;;
      slot <- get tasks m Task.slot_index ;;
      Ret (Z.lor (u64 (Z.shiftl gen 32)) slot)
  end.

(** [delete] of a [CoroutineMeta]. *)
Definition delete_CoroutineMeta (m : ptr) : prog world unit :=
  Task.free mem Task.tasks m ;;;
  act (fun v => Go tt (wr coros (delete m (rd coros v)) v)).

(** The release in [join] and [detach] of a handle. *)
Definition release_handle (m : ptr) : prog world unit :=
  last <- Task.Release tasks m ;;
  if last : bool then zoom group (TaskGroup.DeallocTaskMeta (Some m)) else Ret tt.

(** [join] and [detach] leave the handle empty. *)
Definition join (meta : option ptr) : prog world unit :=
  match meta with
  | None => Ret tt
  | Some m =>
      type <- get tasks m Task.type ;;
      match type with
      | Task.BTHREAD =>
          state <- get tasks m Task.state ;;
          if decide (state = Task.FINISHED) then release_handle m
          else
            modify tasks m Task.join_waiters (fun n => i32 (n + 1)) ;;;
            join_butex <- get tasks m Task.join_butex ;;
            (match join_butex with
             | Some b =>
                 generation <- Butex.value b ;;
                 Butex.Wait self b generation None false ;;;
                 Ret tt
             | None => Ret tt
             end) ;;;
            modify tasks m Task.join_waiters (fun n => i32 (n - 1)) ;;;
            release_handle m
      | Task.COROUTINE =>
          loop tt (fun _ =>
            d <- is_done meta ;; if d : bool then Ret (inr tt) else pause ;;; Ret (inl tt)) ;;;
          delete_CoroutineMeta m
      end
  end.

Definition detach (meta : option ptr) : prog world unit :=
  match meta with
  | None => Ret tt
  | Some m =>
      type <- get tasks m Task.type ;;
      match type with
      | Task.BTHREAD => release_handle m
      | Task.COROUTINE => Ret tt
      end
  end.

(** ** Spawning *)

Definition SPAWN_STACK_SIZE : Z := 1024 * 1024.

(** [fn] and [arg] are the wrapper and its closure; [None] is the exception. *)
Definition spawn (fn arg : Z) : prog world (option ptr) :=
  ready <- load initialized_ ;;
  (if ready : bool then Ret tt else Init) ;;;
  meta <- zoom group TaskGroup.AllocTaskMeta ;;
  match meta with
  | None => Ret None
  | Some m =>
      set tasks m Task.fn (Some fn) ;;;
      set tasks m Task.arg arg ;;;
      set tasks m Task.state Task.READY ;;;
      stack <- get tasks m Task.stack ;;
      (match stack with
       | Some _ => Ret tt
       | None =>
           stack <- zoom vm_ (Platform.AllocateStack SPAWN_STACK_SIZE) ;;
           set tasks m Task.stack stack ;;;
           set tasks m Task.stack_size SPAWN_STACK_SIZE
       end) ;;;
      MakeContext m ;;;
      EncodeId m ;;;
      EnqueueTask self m ;;;
      Ret (Some m)
  end.

Definition spawn_bthread (fn arg : Z) : prog world (option ptr) := spawn fn arg.

(** Whether it did not throw. *)
Definition spawn_detached (fn arg : Z) : prog world bool :=
  meta <- spawn fn arg ;;
  match meta with
  | None => Ret false
  | Some _ => detach meta ;;; Ret true
  end.

Definition current_task_id : prog world Z :=
  w <- Current self ;;
  match w with
  | None => Ret 0
  | Some w => t <- on w (load current_task_) ;; id t
  end.

Definition yield : prog world unit :=
  w <- Current self ;;
  match w with
  | Some w => YieldCurrent self w ;;; Ret tt
  | None => pause
  end.

End Caller.

(** [once] is not looked at: [flag] is the function's own. *)
Definition bthread_once (flag : field world once) (once : ptr) (init_routine : prog world unit) : prog world Z :=
  call_once flag init_routine ;;; Ret 0.

(** ** Creating *)

Lemma Init_called v : v_init_once_ v = Called -> wp Init (fun _ v' => v' = v) v.
Proof. intros H. unfold Init, call_once. apply wp_act_bind. simpl. rewrite H. by apply wp_ret. Qed.

Lemma same_sched_group v g : Task.mem_next (TaskGroup.g_mem g) = Task.mem_next (rd mem v) ->
  same_sched v (wr group g v).
Proof. intros E. split_and!; try done. simpl. by rewrite E. Qed.

(** [v'] is [v] with [m'] instead of [m] at [t] (and perhaps other stacks and
    contexts). *)
Record looks (t : ptr) (m m' : Task.TaskMeta) (v v' : world) : Prop := {
  lo_updated : TaskGroup.updated t m m' (rd group v) (rd group v');
  lo_sched : same_sched v v';
}.

Lemma lo_now t m m' v v' : looks t m m' v v' -> rd tasks v' !! t = Some m'.
Proof.
  intros [U _]. change (rd TaskGroup.heap (rd group v') !! t = Some m').
  rewrite (TaskGroup.up_heap _ _ _ _ _ U). apply lookup_insert_eq.
Qed.

Lemma looks_trans t m m' m'' v v' v'' : looks t m m' v v' -> looks t m' m'' v' v'' -> looks t m m'' v v''.
Proof. intros [] []. split; [by eapply TaskGroup.updated_trans|by etrans]. Qed.

Lemma looks_set t m m' v : rd tasks v !! t = Some m -> Task.m_slot_index m' = Task.m_slot_index m ->
  Task.m_generation m' = Task.m_generation m -> looks t m m' v (wr tasks (<[t := m']> (rd tasks v)) v).
Proof. intros H1 H2 H3. split; [by split|]. apply Butex.same_sched_tasks. Qed.

Lemma looks_step t m m1 m2 v v1 v2 : looks t m m1 v v1 -> Task.m_slot_index m2 = Task.m_slot_index m1 ->
  Task.m_generation m2 = Task.m_generation m1 -> v2 = wr tasks (<[t := m2]> (rd tasks v1)) v1 -> looks t m m2 v v2.
Proof. intros H E1 E2 ->. eapply looks_trans; [exact H|]. apply looks_set; [by eapply lo_now|done..]. Qed.

(** A stack can be had for a task that has none. *)
Definition stack_available (v : world) (o : Task.TaskMeta) (size : Z) : Prop :=
  Task.m_stack o = None ->
  exists base rest, Platform.vm_answers (v_vm_ v) = Some base :: rest /\ Platform.fits base size.

Definition with_stack (s z : Z) (o : Task.TaskMeta) : Task.TaskMeta :=
  wr Task.stack (Some s) (wr Task.stack_size z o).

Lemma set_up_stack_ok v n t o size : rd tasks v !! t = Some o -> stack_available v o size ->
  wp (set_up_stack (Native n) t size) (fun r v' => r = true /\ exists s z, looks t o (with_stack s z o) v v') v.
Proof.
  intros Ho Hs. unfold set_up_stack. eapply wp_get_bind; [exact Ho|].
  change (rd Task.stack o) with (Task.m_stack o). destruct (Task.m_stack o) as [s|] eqn:Es.
  - apply wp_ret. split; [done|]. exists s, (Task.m_stack_size o).
    assert (E : with_stack s (Task.m_stack_size o) o = o) by (destruct o; simpl in *; by subst).
    rewrite E. split; [|done]. split; try done. by rewrite insert_id.
  - destruct (Hs Es) as (base & rest & Ha & Hf). apply wp_ret_bind. apply wp_zoom_bind; [apply _|].
    eapply wp_mono; [by apply (Platform.AllocateStack_run _ base size rest)|]. intros r m [-> ->].
    set (m := Platform.Vm _ _).
    assert (L : looks t o o v (wr vm_ m v)).
    { split; [|by split_and!]. split; try done. by rewrite insert_id. }
    eapply wp_set_bind; [exact Ho|]. eapply wp_set_bind; [rewrite rd_wr; apply lookup_insert_eq|].
    rewrite rd_wr, wr_wr, insert_insert_eq. apply wp_ret. split; [done|].
    exists (Platform.top_of base size), size. by eapply looks_step; [exact L|..].
Qed.

Definition initialised (f arg : Z) (o : Task.TaskMeta) : Task.TaskMeta :=
  wr Task.join_butex None (wr Task.join_waiters 0 (wr Task.ref_count 2 (wr Task.state Task.READY
    (wr Task.result 0 (wr Task.arg arg (wr Task.fn (Some f) o)))))).

Lemma initialise_ok v t o f arg : rd tasks v !! t = Some o ->
  wp (initialise t f arg) (fun _ v' => looks t o (initialised f arg o) v v' /\ v_made v' !! t = Some true) v.
Proof.
  intros Ho. unfold initialise. eapply wp_set_bind; [exact Ho|].
  do 6 (eapply wp_set_bind; [rewrite rd_wr; apply lookup_insert_eq|]; rewrite rd_wr, wr_wr, insert_insert_eq).
  match goal with |- wp _ _ (wr tasks (<[t := ?x]> _) _) => change x with (initialised f arg o) end.
  pose proof (looks_set t o (initialised f arg o) v Ho eq_refl eq_refl) as L. revert L.
  generalize (wr tasks (<[t := initialised f arg o]> (rd tasks v)) v). intros v1 L.
  apply wp_act_last. split; [|apply lookup_insert_eq]. destruct L as [U Q].
  split; [exact U|]. etrans; [exact Q|]. by split_and!.
Qed.

(** A task as [bthread_create] leaves it. *)
Definition started (f arg s z : Z) (o : Task.TaskMeta) : Task.TaskMeta :=
  initialised f arg (with_stack s z o).

Lemma started_ready f arg s z o : wr Task.state Task.READY (started f arg s z o) = started f arg s z o.
Proof. by destruct o. Qed.

Lemma updated_tasks t m m' v v' : rd tasks v !! t = Some m -> rd tasks v' = <[t := m']> (rd tasks v) ->
  same_pool v v' -> Task.m_slot_index m' = Task.m_slot_index m -> Task.m_generation m' = Task.m_generation m ->
  TaskGroup.updated t m m' (rd group v) (rd group v').
Proof.
  intros H1 H2 (E1 & E2 & E3 & E4 & E5) H3 H4. split; try done.
  change (rd mem v) with (TaskGroup.g_mem (rd group v)) in E5.
  change (rd mem v') with (TaskGroup.g_mem (rd group v')) in E5. by rewrite E5.
Qed.

(** C6: Called by a thread outside the runtime, once the runtime is started,
    with a task in the pool, a stack to be had and room in the global queue,
    bthread_create returns 0 and an identifier that decodes to a task taken
    from the pool, which has a stack, the function and the argument, reference
    count 2 and state READY, whose context is made, and which is queued once
    at the end of the next shard of the global queue; if a worker is idle, the
    last registered one is taken off the registry and woken. *)
Theorem bthread_create_queues_a_task v n attr f arg x l idle k p
    (t := TaskGroup.slot_task (v_group v) x) (o := TaskGroup.slot_content (v_group v) x)
    (Hi : v_init_once_ v = Called) (Hp : TaskGroup.pool_ok (v_group v) (x :: l))
    (Hs : stack_available v o (default BTHREAD_STACK_SIZE_DEFAULT attr))
    (Hq : queueing (Native n) v idle k p) (Hk : 0 < k) (Hfit : place_fits p [t] = true) :
  wp (bthread_create (Native n) true attr (Some f) arg) (fun r v' => exists id s z,
    r = (0, id) /\ TaskGroup.decode (v_group v') id = Some t /\
    rd tasks v' !! t = Some (started f arg s z o) /\ v_made v' !! t = Some true /\
    TaskGroup.pool_ok (v_group v') l /\ submitted (Native n) v v' idle k p [t]) v.
Proof.
  unfold bthread_create. apply wp_bind. eapply wp_mono; [by apply Init_called|]. intros [] v0 ->.
  do 2 apply wp_ret_bind. apply wp_bind, wp_zoom; [apply _|].
  eapply wp_mono; [apply wp_and; [by eapply TaskGroup.AllocTaskMeta_pops|by eapply TaskGroup.AllocTaskMeta_memory]|].
  intros r g1 [(p' & Hr & Hp1 & _ & Hd1 & _) (-> & _ & Hh1 & (_ & Hn1 & _) & _)].
  injection Hr as <-. change (rd group v) with (v_group v) in *. fold t o in Hh1, Hd1 |- *.
  set (v1 := wr group g1 v).
  assert (H1 : rd tasks v1 !! t = Some o).
  { change (rd TaskGroup.heap g1 !! t = Some o). rewrite Hh1. apply lookup_insert_eq. }
  apply wp_bind. eapply wp_mono; [by apply set_up_stack_ok|]. intros r v2 (-> & s & z & L2). simpl negb. cbv iota.
  apply wp_bind. eapply wp_mono; [eapply initialise_ok, (lo_now _ _ _ _ _ L2)|].
  intros [] v3 [L3 Hm]. pose proof (looks_trans _ _ _ _ _ _ _ L2 L3) as L.
  pose proof (lo_now _ _ _ _ _ L) as H3.
  assert (E : same_sched v v3) by (etrans; [exact (same_sched_group v g1 Hn1)|exact (lo_sched _ _ _ _ _ L)]).
  unfold EncodeId. apply wp_bind. eapply wp_get_bind; [exact H3|]. eapply wp_get_bind; [exact H3|]. apply wp_ret.
  apply wp_bind. eapply wp_mono.
  { apply (Submit_submits (Native n) v3 t (started f arg s z o) idle k p); [|exact Hk|exact H3|exact Hfit].
    by eapply queueing_same. }
  intros [] v4 (Q1 & Q2 & _ & _ & Q3 & Q4). apply wp_ret.
  exists (TaskGroup.EncodeId x (TaskGroup.gen_of (v_group v) x)), s, z.
  assert (U : TaskGroup.updated t o (started f arg s z o) (rd group v1) (rd group v4)).
  { eapply TaskGroup.updated_trans; [exact (lo_updated _ _ _ _ _ L)|].
    rewrite started_ready in Q2. eapply updated_tasks; [exact H3|exact Q2|exact Q3|done|done]. }
  split; [done|]. split; [exact (eq_trans (TaskGroup.decode_updated _ _ _ _ _ _ U) Hd1)|].
  split; [rewrite Q2, started_ready; apply lookup_insert_eq|]. split; [by rewrite Q4|].
  split; [exact (TaskGroup.pool_ok_updated _ _ _ _ _ _ U Hp1)|by eapply submitted_same].
Qed.

(** ** A runtime that has started *)

(** Two workers, no task yet, and memory for one stack. *)
Definition started_runtime : world :=
  wr init_once_ Called (wr vm_ (Platform.Vm ∅ [Some 65536]) (wr tasks ∅ two_workers)).

Lemma same_sched_init v c m : same_sched v (wr init_once_ c (wr vm_ m v)).
Proof. by split_and!. Qed.

Lemma started_runtime_queueing n k : 0 <= k <= 1000 ->
  queueing (Native n) started_runtime [0] k (Global ([[]; []], 0)).
Proof.
  intros Hk. eapply queueing_same; [apply same_sched_init|]. eapply queueing_same; [apply Butex.same_sched_tasks|by apply Butex.two_workers_queueing].
Qed.

Lemma started_runtime_pool :
  TaskGroup.pool_ok (v_group started_runtime) (0 :: (Z.of_nat <$> seq 1 (Z.to_nat TaskGroup.POOL_SIZE - 1))).
Proof. rewrite <- TaskGroup.all_slots. exact (TaskGroup.TaskGroup_ok Task.no_memory eq_refl). Qed.

Lemma first_slot : TaskGroup.slot_task (v_group started_runtime) 0 = 1%nat.
Proof. vm_compute. reflexivity. Qed.

Lemma stack_for_the_first o : stack_available started_runtime o BTHREAD_STACK_SIZE_DEFAULT.
Proof. intros _. exists 65536, []. split; [reflexivity|]. by vm_compute. Qed.

Example bthread_create_queues_a_task_witness :
  wp (bthread_create (Native 0) true None (Some 7) 42) (fun r v' => r.1 = 0 /\
    TaskGroup.decode (v_group v') r.2 = Some 1%nat /\
    Task.m_arg <$> rd tasks v' !! 1%nat = Some 42 /\
    queueing (Native 0) v' [] 0 (Global ([[1%nat]; []], 1))) started_runtime.
Proof.
  eapply wp_mono.
  - apply (bthread_create_queues_a_task started_runtime 0 None 7 42 0
             (Z.of_nat <$> seq 1 (Z.to_nat TaskGroup.POOL_SIZE - 1)) [0] 1 (Global ([[]; []], 0))).
    + reflexivity.
    + exact started_runtime_pool.
    + apply stack_for_the_first.
    + apply started_runtime_queueing. lia.
    + lia.
    + rewrite first_slot. reflexivity.
  - rewrite first_slot. intros r v' (id & s & z & -> & H1 & H2 & _ & _ & [H3 _]).
    split; [reflexivity|]. split; [exact H1|]. split; [rewrite H2; reflexivity|]. exact H3.
Defined.

(** ** Joining *)

Lemma get_join_butex_ok v t o : rd tasks v !! t = Some o ->
  (forall b, Task.m_join_butex o = Some b -> is_Some (rd butexes v !! b)) ->
  wp (get_join_butex t) (fun r v' => exists b, r = Some b /\ is_Some (rd butexes v' !! b) /\
    rd tasks v' !! t = Some (wr Task.join_butex (Some b) o) /\
    TaskGroup.updated t o (wr Task.join_butex (Some b) o) (rd group v) (rd group v')) v.
Proof.
  intros Ho Hb. unfold get_join_butex. eapply wp_get_bind; [exact Ho|].
  change (rd Task.join_butex o) with (Task.m_join_butex o). destruct (Task.m_join_butex o) as [b|] eqn:Ej.
  - apply wp_ret_bind. 
    assert (E : wr Task.join_butex (Some b) o = o) by (destruct o; simpl in *; by subst).
    apply wp_act_last. rewrite Ho. exists b. change (rd Task.join_butex o) with (Task.m_join_butex o).
    rewrite Ej, E. split; [done|]. split; [by apply Hb|]. split; [exact Ho|]. split; try done. by rewrite insert_id.
  - unfold Task.alloc. apply wp_bind, wp_act_bind. set (b := Task.mem_brk (rd mem v)). set (v1 := wr mem _ v).
    assert (H1 : rd tasks v1 = rd tasks v) by done.
    eapply wp_cas_on_bind; [rewrite H1; exact Ho|]. rewrite decide_True by exact Ej. apply wp_ret. rewrite H1.
    set (v2 := wr tasks _ v1).
    assert (H2 : rd tasks v2 = <[t := wr Task.join_butex (Some b) o]> (rd tasks v)) by apply rd_wr.
    apply wp_act_last. rewrite H2, lookup_insert_eq. exists b. split; [done|].
    split; [change (rd butexes v2) with (<[b := Task.new_Butex]> (rd butexes v)); rewrite lookup_insert_eq; by eexists|].
    split; [rewrite H2; apply lookup_insert_eq|]. split; try done.
    change (Task.mem_brk (TaskGroup.g_mem (rd group v2))) with (S b). unfold b. apply Nat.le_succ_diag_r.
Qed.

(** C7: Called by a thread outside the runtime for a bthread that has ended
    and whose only reference is the joiner, bthread_join returns 0 with its
    result and gives the slot back to the pool; joining the same identifier
    again returns ESRCH. (A joiner on a worker caches the task instead,
    without a new generation.) *)
Theorem bthread_join_of_a_finished_task v n t o x l (tid := TaskGroup.EncodeId x (TaskGroup.gen_of (v_group v) x))
    (Hp : TaskGroup.pool_ok (v_group v) l) (Hx : 0 <= x < TaskGroup.POOL_SIZE) (Hxl : x ∉ l)
    (Ht : TaskGroup.g_task_pool (v_group v) !! Z.to_nat x = Some (Some t)) (Ho : rd tasks v !! t = Some o)
    (Hf : Task.m_state o = Task.FINISHED) (Hr : Task.m_ref_count o = 1)
    (Hb : forall b, Task.m_join_butex o = Some b -> is_Some (rd butexes v !! b)) :
  wp (bthread_join (Native n) tid) (fun r v' => r = (0, Task.m_result o) /\
    TaskGroup.pool_ok (v_group v') (x :: l) /\
    wp (bthread_join (Native n) tid) (fun r _ => r = (Platform.ESRCH, 0)) v') v.
Proof.
  destruct (TaskGroup.gen_slot _ _ x Hp Hx) as (g & Hg & Hgw).
  assert (Ed : TaskGroup.decode (v_group v) tid = Some t).
  { unfold tid. rewrite (TaskGroup.decode_slot _ l) by (unfold TaskGroup.gen_of; rewrite ?Hg; done).
    by rewrite Ht, Z.eqb_refl. }
  unfold bthread_join at 1. apply wp_bind, wp_zoom; [apply _|].
  eapply wp_mono; [by eapply TaskGroup.DecodeId_decode|]. intros r g1 [-> ->].
  change (rd group v) with (v_group v). rewrite Ed.
  assert (Ev : wr group (v_group v) v = v) by by destruct v. rewrite Ev. clear Ev.
  do 2 apply wp_ret_bind. rewrite decide_False by done. apply wp_bind.
  eapply wp_mono; [by eapply get_join_butex_ok|]. intros r v1 (b & -> & [bx Hbx] & H1 & U).
  set (o1 := wr Task.join_butex (Some b) o) in *.
  unfold Butex.value. eapply wp_get_bind; [exact Hbx|]. eapply wp_get_bind; [exact H1|].
  change (rd Task.state o1) with (Task.m_state o). rewrite decide_True by done.
  eapply wp_get_bind; [exact H1|]. apply wp_bind. unfold release_reference. apply wp_bind.
  eapply wp_mono; [by apply Runtime.Release_ok|]. intros r v2 [-> E2].
  change (Task.m_ref_count o1) with (Task.m_ref_count o) in *. rewrite Hr in *. simpl. apply wp_ret_bind.
  set (o2 := wr Task.ref_count (i32 (1 - 1)) o1) in *.
  assert (U2 : TaskGroup.updated t o o2 (v_group v) (v_group v2)).
  { eapply TaskGroup.updated_trans; [exact U|]. rewrite E2. split; done. }
  pose proof (TaskGroup.pool_ok_updated _ _ _ _ _ _ U2 Hp) as Hp2.
  apply wp_zoom; [apply _|]. eapply wp_mono.
  { apply (TaskGroup.DeallocTaskMeta_frees (v_group v2) l x t Hp2 Hx); [|exact Hxl|].
    - by rewrite (TaskGroup.up_pool _ _ _ _ _ U2).
    - intros m b' Hm Hj.
      assert (E : rd TaskGroup.heap (v_group v2) !! t = Some o2).
      { rewrite (TaskGroup.up_heap _ _ _ _ _ U2). apply lookup_insert_eq. }
      assert (m = o2) as -> by congruence. assert (b' = b) as -> by (unfold o2, o1 in Hj; simpl in Hj; congruence).
      change (is_Some (rd butexes v2 !! b)). rewrite E2. exists bx. exact Hbx. }
  intros u g2 (P1 & _ & P3 & _). apply wp_ret. split; [reflexivity|]. split; [exact P1|].
  unfold bthread_join. apply wp_bind, wp_zoom; [apply _|].
  eapply wp_mono; [by eapply TaskGroup.DecodeId_decode|]. intros r g3 [-> ->].
  change (rd group (wr group g2 v2)) with g2. unfold TaskGroup.gen_of in P3.
  rewrite (TaskGroup.up_gens _ _ _ _ _ U2) in P3. unfold tid, TaskGroup.gen_of. rewrite P3. by apply wp_ret.
Qed.

(** The first task, when it has ended with 42. *)
Example bthread_join_of_a_finished_task_witness : exists v,
  wp (bthread_join (Native 0) (TaskGroup.EncodeId 0 1)) (fun r v' => r = (0, 42) /\
    wp (bthread_join (Native 0) (TaskGroup.EncodeId 0 1)) (fun r _ => r = (Platform.ESRCH, 0)) v') v.
Proof.
  destruct TaskGroup.first_task as (g & t & _ & H & Ht & Hj & Hg).
  destruct (TaskGroup.ok_meta _ _ H 0%nat t Ht) as (m & Hm & Hs & Hgen).
  set (o := wr Task.result 42 (wr Task.ref_count 1 (wr Task.state Task.FINISHED (wr Task.join_butex None m)))).
  set (g' := wr TaskGroup.heap (<[t := o]> (rd TaskGroup.heap g)) g).
  assert (U : TaskGroup.updated t m o g g') by (by split).
  exists (wr group g' started_runtime). eapply wp_mono.
  - assert (E : TaskGroup.EncodeId 0 1 = TaskGroup.EncodeId 0 (TaskGroup.gen_of g' 0)).
    { f_equal. change (TaskGroup.gen_of g' 0) with (TaskGroup.gen_of g 0). by rewrite Hg. }
    rewrite E.
    apply (bthread_join_of_a_finished_task (wr group g' started_runtime) 0 t o 0
             (Z.of_nat <$> seq 1 (Z.to_nat TaskGroup.POOL_SIZE - 1))).
    + exact (TaskGroup.pool_ok_updated _ _ _ _ _ _ U H).
    + by vm_compute.
    + intros (k & Hk & Hin)%list_elem_of_fmap. apply elem_of_seq in Hin. lia.
    + exact Ht.
    + apply lookup_insert_eq.
    + reflexivity.
    + reflexivity.
    + discriminate.
  - intros r v' (H1 & _ & H2). split; [exact H1|].
    assert (E : TaskGroup.gen_of (v_group (wr group g' started_runtime)) 0 = 1) by exact Hg.
    rewrite E in H2. exact H2.
Defined.

(** ** Handles that do not wait

    [spawn] leaves the reference count and the join butex as they are. *)

(** Task::join of a bthread task that is not finished and has no join butex
    (spawn never makes one) does not wait: it returns at once, having done
    nothing but decrement the reference count. *)
Theorem join_of_a_spawned_task_does_not_wait v self t o (Ho : rd tasks v !! t = Some o)
    (Hty : Task.m_type o = Task.BTHREAD) (Hst : Task.m_state o <> Task.FINISHED)
    (Hjb : Task.m_join_butex o = None) (Hr : Task.m_ref_count o <> 1)
    (Hjw : INT_MIN <= Task.m_join_waiters o < INT_MAX) :
  wp (join self (Some t)) (fun _ v' =>
    v' = wr tasks (<[t := wr Task.ref_count (i32 (Task.m_ref_count o - 1)) o]> (rd tasks v)) v) v.
Proof.
  unfold join. eapply wp_get_bind; [exact Ho|]. change (rd Task.type o) with (Task.m_type o). rewrite Hty.
  eapply wp_get_bind; [exact Ho|]. change (rd Task.state o) with (Task.m_state o). rewrite decide_False by done.
  eapply wp_modify_bind; [exact Ho|]. change (rd Task.join_waiters o) with (Task.m_join_waiters o).
  rewrite (i32_small (Task.m_join_waiters o + 1)) by (unfold INT_MIN, INT_MAX in *; lia).
  eapply wp_get_bind; [rewrite rd_wr; apply lookup_insert_eq|].
  match goal with |- context [rd Task.join_butex ?x] => change (rd Task.join_butex x) with (Task.m_join_butex o) end.
  rewrite Hjb. apply wp_ret_bind.
  eapply wp_modify_bind; [rewrite rd_wr; apply lookup_insert_eq|]. rewrite (rd_wr (v := tasks)), (wr_wr (v := tasks)), insert_insert_eq.
  match goal with |- wp _ _ (wr tasks (<[t := ?x]> _) _) =>
    assert (E : x = o) by (destruct o; simpl in *; f_equal; rewrite i32_small by (unfold INT_MIN, INT_MAX in *; lia);
                           lia); rewrite E end.
  unfold release_handle. apply wp_bind. eapply wp_mono.
  { apply (Runtime.Release_ok _ t o). rewrite rd_wr. apply lookup_insert_eq. }
  intros r v' [-> ->]. rewrite (proj2 (Z.eqb_neq _ _)) by done. apply wp_ret.
  by rewrite (rd_wr (v := tasks)), (wr_wr (v := tasks)), insert_insert_eq.
Qed.

Example join_of_a_spawned_task_does_not_wait_witness :
  wp (join (Native 0) (Some 3%nat)) (fun _ v' =>
    v' = wr tasks (<[3%nat := wr Task.ref_count (-1) Task.new_TaskMeta]> (rd tasks two_workers)) two_workers) two_workers.
Proof. by apply (join_of_a_spawned_task_does_not_wait two_workers (Native 0) 3 Task.new_TaskMeta). Defined.

(** Two calls of bthread_once with different control variables run only the
    first routine: the flag is that of the function. *)
Theorem bthread_once_runs_one_routine v flag (Hflag : FieldOk flag) once1 once2 (init1 init2 : prog world unit)
    (Hfl : rd flag v = NotCalled) (Q : world -> Prop)
    (H1 : wp init1 (fun _ v' => Q v') (wr flag InProgress v)) :
  wp (bthread_once flag once1 init1 ;;; bthread_once flag once2 init2)
     (fun r v' => r = 0 /\ exists v1, Q v1 /\ v' = wr flag Called v1) v.
Proof.
  unfold bthread_once, call_once. apply wp_bind, wp_bind, wp_act_bind. rewrite Hfl.
  apply wp_bind. eapply wp_mono; [exact H1|]. intros [] v1 HQ. apply wp_store. apply wp_ret.
  apply wp_bind, wp_act_bind. rewrite rd_wr. apply wp_ret, wp_ret. split; [done|]. by exists v1.
Qed.

Example bthread_once_runs_one_routine_witness :
  wp (bthread_once init_once_ 1 (store running_ true) ;;; bthread_once init_once_ 2 (store running_ false))
     (fun r v' => r = 0 /\ exists v1, v_running_ v1 = true /\ v' = wr init_once_ Called v1) (Scheduler 2 []).
Proof.
  apply (bthread_once_runs_one_routine (Scheduler 2 []) init_once_) with (Q := fun v => v_running_ v = true).
  - split; [done..|by intros []].
  - reflexivity.
  - apply wp_store. reflexivity.
Defined.

(** ** Creating, running and joining *)

(** The functions of the user: adding two numbers. *)
Definition adds (self : who) (fn arg : Z) : prog world Z := Ret (fn + arg).

Definition creates_and_joins (f arg : Z) : prog world (Z * Z) :=
  r <- bthread_create (Native 0) true None (Some f) arg ;; bthread_join (Native 0) r.2.

Definition code_of {A} (t : ptr) (dummy : A) : prog world A := bthread adds t ;;; Ret dummy.

(** The creator, the loop of worker 0 and the code of the new bthread. *)
Definition cast : list (prog world (Z * Z)) :=
  [creates_and_joins 7 42; in_pair (one_round 1); code_of 1 (0, 0)].

(** From a started runtime there is an execution of the creator, the loop of a
    worker and the code of the bthread in which the creator blocks in
    bthread_join, the worker picks the task, switches to it, handles its end
    and wakes the joiner, and bthread_join returns 0 with what the function
    returned; the identifier is then dead. *)
Theorem a_created_bthread_runs_and_is_joined :
  exists ts v, reachable (cast, started_runtime) (ts, v) /\
    Prelude.result <$> ts !! 0%nat = Some (Some (0, 49)) /\
    Prelude.result <$> ts !! 1%nat = Some (Some (0, 0)) /\
    TaskGroup.decode (v_group v) (TaskGroup.EncodeId 0 1) = None.
Proof.
  destruct (drive_results_reachable (fun v => TaskGroup.decode (v_group v) (TaskGroup.EncodeId 0 1)) 3000
    [All 0; All 1; All 2; All 1; All 0] (cast, started_runtime)
    [Some (0, 49); Some (0, 0); None] [false; false; false] None)
    as (ts & v & Hr & H1 & _ & H2); [vm_compute; reflexivity|].
  exists ts, v. split; [exact Hr|].
  assert (E : forall i, Prelude.result <$> ts !! i = [Some (0, 49); Some (0, 0); None] !! i)
    by (intros i; rewrite <- H1; symmetry; apply list_lookup_fmap).
  rewrite !E. split; [reflexivity|]. split; [reflexivity|exact H2].
Qed.

(** ** A join that nobody ends

    The joiner has seen the bthread running when this ends; there is no joiner
    to wake yet. *)
Definition joins (tid : Z) : prog world (Z * Z) := bthread_join (Native 1) tid.
Definition creates : prog world (Z * Z) := bthread_create (Native 0) true None (Some 7) 42.

Definition joined_late : list (prog world (Z * Z)) :=
  [creates; in_pair (one_round 1); code_of 1 (0, 0); joins (TaskGroup.EncodeId 0 1)].
Definition after_a_late_join : conf world (Z * Z) :=
  drive 3000 [All 0; Steps 3 8; All 1; All 2; All 1; All 3] (joined_late, started_runtime).

(** There is an interleaving in which the joiner reads the state before the
    bthread ends and announces itself after the worker has looked for joiners:
    the bthread is FINISHED, nobody will change the butex again, and the
    joiner blocks in the futex. *)
Theorem a_join_may_miss_the_end :
  exists ts v p, reachable (joined_late, started_runtime) (ts, v) /\
    ts !! 3%nat = Some p /\ is_stuck v p = true /\
    Prelude.result <$> ts !! 1%nat = Some (Some (0, 0)) /\
    Task.m_state <$> rd tasks v !! 1%nat = Some Task.FINISHED /\
    Task.m_join_waiters <$> rd tasks v !! 1%nat = Some 1.
Proof.
  assert (E : match after_a_late_join.1 !! 3%nat with Some p => is_stuck after_a_late_join.2 p | None => false end = true)
    by (vm_compute; reflexivity).
  destruct (after_a_late_join.1 !! 3%nat) as [p|] eqn:Ep; [|discriminate E].
  exists after_a_late_join.1, after_a_late_join.2, p.
  split; [rewrite <- surjective_pairing; apply drive_reachable|]. split; [exact Ep|]. split; [exact E|].
  split; [vm_compute; reflexivity|]. split; vm_compute; reflexivity.
Qed.

End Api.
