(* ===== verification/TaskHandle.v ===== *)
(** * Task handles as objects

    Model of the class [bthread::Task] and of [TaskResult]
    ([include/bthread/core/task.hpp]), of the functions of
    [include/bthread/api/config.hpp], and of what is left to do for the
    metadata: [TaskMeta::resume] and the destructor of the task pool.  The
    operations on the metadata are those of Api.v; here are the objects that
    hold it, and who owns it when handles are moved. *)

From Stdlib Require Import ZArith Lia String.
From stdpp Require Import base numbers list gmap relations option strings.
From S2P Require Import Prelude Task TaskGroup Platform Result World Workers Scheduler Api.

Open Scope Z_scope.

Module TaskHandle.
Import World World.Worker Workers Scheduler.

(** The members of a handle; [result_ptr_] is a shared pointer that nothing
    sets. *)
Record handle := Handle { meta_ : option ptr; result_ptr_ : option ptr }.

#[export] Instance handle_eq_dec : EqDecision handle.
Proof. solve_decision. Defined.

Definition Task : handle := Handle None None.

(** [Task(std::move(other))]: the new handle, and what [other] becomes. *)
Definition move_construct (other : handle) : handle * handle :=
  (Handle (meta_ other) (result_ptr_ other), Handle None None).

(** [*this = std::move(other)]; [same] says that they are one object.  The type
    of the task that is given up is read, and nothing is done with it. *)
Definition move_assign (same : bool) (this other : handle) : prog world (handle * handle) :=
  if same then Ret (this, other)
  else
    (match meta_ this with
     | Some m => get tasks m Task.type ;;; Ret tt
     | None => Ret tt
     end) ;;;
    Ret (Handle (meta_ other) (result_ptr_ other), Handle None None).

Definition set_meta (this : handle) (m : option ptr) : handle := Handle m (result_ptr_ this).
Definition get_meta (this : handle) : option ptr := meta_ this.

(** ** Questions *)

Definition valid (this : handle) : bool := bool_decide (is_Some (meta_ this)).
Definition type (this : handle) : prog world Task.TaskType :=
  match meta_ this with
  | None => Ret Task.BTHREAD
  | Some m => get tasks m Task.type
  end.

(** [get<T>()]. *)
Definition get (T : Type) (this : handle) : prog world (Result.throws T) :=
  match meta_ this with
  | None => Ret (inr (Result.StdException "Task has no handle"))
  | Some m =>
      d <- Api.is_done (meta_ this) ;;
      if d : bool then
        t <- Prelude.get tasks m Task.type ;;
        if decide (t = Task.COROUTINE) then Ret (inr (Result.StdException "Not implemented"))
        else Ret (inr (Result.StdException "get() only works for coroutine tasks"))
      else Ret (inr (Result.StdException "Task not completed"))
  end.

(** ** Waiting and giving up: the handle afterwards *)

Definition join (self : who) (this : handle) : prog world handle :=
  Api.join self (meta_ this) ;;; Ret (set_meta this None).
Definition detach (this : handle) : prog world handle :=
  Api.detach (meta_ this) ;;; Ret (set_meta this None).

(** ** [TaskResult<T>]; for [void] there is no value *)

Record TaskResult (T : Type) := MkTaskResult { value : T; exception : option Result.exception }.
Arguments MkTaskResult {T}.
Arguments value {T}.
Arguments exception {T}.

Definition has_exception {T} (r : TaskResult T) : bool := bool_decide (exception r <> None).
Definition get_value {T} (r : TaskResult T) : Result.throws T :=
  match exception r with
  | Some x => inr x
  | None => inl (value r)
  end.

(** ** [config.hpp] *)

Definition worker_count : prog world Z := load worker_count_.
Definition set_worker_count (count : Z) : prog world unit := store configured_count_ count.
Definition init : prog world unit := Init.
Definition shutdown (self : who) : prog world unit := Shutdown self.

(** ** Metadata *)

(** [TaskMeta::resume]: it looks at the state, and does nothing. *)
Definition resume (m : ptr) : prog world unit := Prelude.get tasks m Task.state ;;; Ret tt.

(** The destructor of the pool. *)
Definition delete_task (m : ptr) : prog world unit :=
  stack <- Prelude.get tasks m Task.stack ;;
  (match stack with
   | Some _ =>
       size <- Prelude.get tasks m Task.stack_size ;;
       zoom vm_ (Platform.DeallocateStack stack size)
   | None => Ret tt
   end) ;;;
  Task.free mem Task.tasks m.

Definition delete_TaskGroup : prog world unit :=
  loop 0 (fun i =>
    if i <? TaskGroup.POOL_SIZE then
      meta <- zoom group (load_at TaskGroup.task_pool_ i) ;;
      (match meta with Some m => delete_task m | None => Ret tt end) ;;;
      Ret (inl (i + 1))
    else Ret (inr tt)).

(** ** What the result of a task is *)

(** Task::get<T>() throws for every handle, and changes nothing: for a
    coroutine that has ended it throws "Not implemented", and only then. *)
Theorem get_never_returns (T : Type) this v
    (Hl : forall m, meta_ this = Some m -> is_Some (rd tasks v !! m)) :
  wp (get T this) (fun r v' => v' = v /\ exists what, r = inr (Result.StdException what) /\
    (what = "Not implemented" <-> exists m o, meta_ this = Some m /\ rd tasks v !! m = Some o /\
       Task.m_state o = Task.FINISHED /\ Task.m_type o = Task.COROUTINE)) v.
Proof.
  unfold get. destruct (meta_ this) as [m|] eqn:E.
  2: { apply wp_ret. split; [done|]. eexists. split; [done|]. split; [done|]. by intros (m & o & ? & _). }
  destruct (Hl m eq_refl) as [o Ho]. unfold Api.is_done. apply wp_assoc. eapply wp_get_bind; [exact Ho|].
  apply wp_ret_bind. change (rd Task.state o) with (Task.m_state o).
  assert (Q : forall what, what <> "Not implemented"%string -> ~ (Task.m_state o = Task.FINISHED /\ Task.m_type o = Task.COROUTINE) ->
    (what = "Not implemented"%string <-> exists m' o', Some m = Some m' /\ rd tasks v !! m' = Some o' /\
       Task.m_state o' = Task.FINISHED /\ Task.m_type o' = Task.COROUTINE)).
  { intros what Hw Hn. split; [done|]. intros (m' & o' & [= <-] & Ho' & H). rewrite Ho in Ho'. by injection Ho' as <-. }
  case_bool_decide as Hs.
  - eapply wp_get_bind; [exact Ho|]. change (rd Task.type o) with (Task.m_type o).
    destruct (decide (Task.m_type o = Task.COROUTINE)) as [Ht|Ht]; apply wp_ret; (split; [done|]); eexists;
      (split; [done|]); [|by apply Q; [|intros []]]. split; [|done]. intros _. by exists m, o.
  - apply wp_ret. split; [done|]. eexists. split; [done|]. by apply Q; [|intros []].
Qed.

(** ** Who owns a task *)

(** A program that moves handles around: assigning the [j]th to the [i]th,
    constructing a new one from the [j]th. *)
Inductive op := MoveAssign (i j : nat) | MoveConstruct (j : nat).

Fixpoint client (os : list op) (hs : list handle) : prog world (list handle) :=
  match os with
  | [] => Ret hs
  | MoveAssign i j :: os =>
      match hs !! i, hs !! j with
      | Some this, Some other =>
          r <- move_assign (bool_decide (i = j)) this other ;;
          client os (<[i := r.1]> (<[j := r.2]> hs))
      | _, _ => client os hs
      end
  | MoveConstruct j :: os =>
      match hs !! j with
      | Some other => let r := move_construct other in client os (<[j := r.2]> hs ++ [r.1])
      | None => client os hs
      end
  end.

Definition meta_at (hs : list handle) (i : nat) : option ptr := hs !! i ≫= meta_.

(** Every task is in one handle, and alive. *)
Record owned_once (v : world) (hs : list handle) : Prop := {
  own_once : forall i j m, meta_at hs i = Some m -> meta_at hs j = Some m -> i = j;
  own_live : forall i m, meta_at hs i = Some m -> is_Some (rd tasks v !! m);
}.

Lemma meta_at_insert hs i h k : (i < length hs)%nat ->
  meta_at (<[i := h]> hs) k = if decide (k = i) then meta_ h else meta_at hs k.
Proof.
  intros Hi. unfold meta_at. case_decide as H; [subst k; by rewrite list_lookup_insert_eq|].
  by rewrite list_lookup_insert_ne.
Qed.

Lemma meta_at_app hs h k : meta_at (hs ++ [h]) k = if decide (k = length hs) then meta_ h else meta_at hs k.
Proof.
  unfold meta_at. case_decide as H; [subst k; by rewrite list_lookup_middle|].
  destruct (decide (k < length hs)%nat); [by rewrite lookup_app_l|].
  rewrite (lookup_ge_None_2 (hs ++ [h])) by (rewrite length_app; simpl; lia). by rewrite lookup_ge_None_2 by lia.
Qed.

(** Moving a task from one place to another keeps it owned once. *)
Lemma owned_once_move v hs hs' (f : nat -> option nat) : owned_once v hs ->
  (forall k m, meta_at hs' k = Some m -> exists k', f k = Some k' /\ meta_at hs k' = Some m) ->
  (forall a b c, f a = Some c -> f b = Some c -> a = b) -> owned_once v hs'.
Proof.
  intros [H1 H2] Hf Hinj. split.
  - intros i j m (i' & Ei & Hi)%Hf (j' & Ej & Hj)%Hf. assert (i' = j') as <- by by eapply H1. by eapply Hinj.
  - intros i m (i' & _ & Hi)%Hf. by eapply H2.
Qed.

Lemma moved_assign v hs i j this other : owned_once v hs -> hs !! i = Some this -> hs !! j = Some other -> i <> j ->
  owned_once v (<[i := (move_construct other).1]> (<[j := (move_construct other).2]> hs)).
Proof.
  intros H Hi Hj Hne. pose proof (lookup_lt_Some _ _ _ Hi). pose proof (lookup_lt_Some _ _ _ Hj).
  apply (owned_once_move v hs _ (fun k => if decide (k = i) then Some j else if decide (k = j) then None else Some k)); [exact H| |].
  - intros k m. rewrite meta_at_insert, meta_at_insert by (rewrite ?length_insert; done).
    repeat case_decide; simpl; [|done|by exists k]. intros Hm. exists j. split; [done|]. unfold meta_at. by rewrite Hj.
  - intros a b c. simpl. repeat case_decide; congruence.
Qed.

(** C38: Whatever a program does to handles by constructing and assigning them
    from one another, assigning a handle to itself included, the state of the
    runtime does not change, every task stays in at most one handle, and no
    handle gets a task that none had. *)
Theorem moving_keeps_one_owner v os hs (H : owned_once v hs) :
  wp (client os hs) (fun hs' v' => v' = v /\ owned_once v hs' /\
    forall k m, meta_at hs' k = Some m -> exists k', meta_at hs k' = Some m) v.
Proof.
  revert hs H; induction os as [|[i j|j] os IH]; intros hs H; simpl.
  - apply wp_ret. split; [done|]. split; [done|]. by eauto.
  - destruct (hs !! i) as [this|] eqn:Hi; [|by apply IH]. destruct (hs !! j) as [other|] eqn:Hj; [|by apply IH].
    unfold move_assign. case_bool_decide as Hne.
    + subst j. rewrite Hi in Hj. injection Hj as <-. apply wp_ret_bind. simpl. rewrite list_insert_insert_eq.
      rewrite list_insert_id by done. by apply IH.
    + assert (H' := moved_assign v hs i j this other H Hi Hj Hne).
      apply wp_assoc. apply wp_bind. apply (wp_mono _ (fun _ v' => v' = v)).
      { destruct (meta_ this) as [m|] eqn:Em; [|by apply wp_ret].
        destruct (own_live _ _ H i m) as [o Ho]; [unfold meta_at; by rewrite Hi|].
        eapply wp_get_bind; [exact Ho|]. by apply wp_ret. }
      intros [] v' ->. apply wp_ret_bind. eapply wp_mono; [by apply IH|].
      intros hs' v' (-> & Ho & Hs). split; [done|]. split; [done|]. intros k m (k' & Hk)%Hs.
      simpl in Hk. rewrite meta_at_insert, meta_at_insert in Hk by (rewrite ?length_insert; by eapply lookup_lt_Some).
      repeat case_decide; simpl in Hk; [|done|by exists k']. exists j. unfold meta_at. by rewrite Hj.
  - destruct (hs !! j) as [other|] eqn:Hj; [|by apply IH]. pose proof (lookup_lt_Some _ _ _ Hj) as Hl.
    assert (E : forall k m, meta_at (<[j:=Handle None None]> hs ++ [Handle (meta_ other) (result_ptr_ other)]) k = Some m ->
      exists k', (if decide (k = length hs) then Some j else if decide (k = j) then None else Some k) = Some k' /\
                 meta_at hs k' = Some m).
    { intros k m. rewrite meta_at_app, length_insert, meta_at_insert by done. repeat case_decide; simpl; [|done|by exists k].
      intros Hm. exists j. split; [done|]. unfold meta_at. by rewrite Hj. }
    eapply wp_mono; [apply IH|].
    + eapply owned_once_move; [exact H|exact E|]. intros a b c. simpl. repeat case_decide; congruence.
    + intros hs' v' (-> & Ho & Hs). split; [done|]. split; [done|]. intros k m (k' & (k'' & _ & Hk)%E)%Hs. by exists k''.
Qed.

(** Assigning to a handle that has a task changes nothing of that task, which
    no handle has any more: it is neither joined nor detached. *)
Theorem assignment_drops_a_task this other v m o (Hm : meta_ this = Some m) (Ho : rd tasks v !! m = Some o)
    (Hne : meta_ other <> Some m) :
  wp (move_assign false this other) (fun r v' => v' = v /\ meta_ r.1 <> Some m /\ meta_ r.2 <> Some m) v.
Proof.
  unfold move_assign. rewrite Hm. apply wp_assoc. eapply wp_get_bind; [exact Ho|]. apply wp_ret_bind, wp_ret. done.
Qed.

(** ** The end of the pool *)

Definition slot (v : world) (i : nat) : option ptr := mjoin (TaskGroup.g_task_pool (rd group v) !! i).

Lemma delete_task_frees v m (H : Task.m_stack <$> rd tasks v !! m = Some None) :
  wp (delete_task m) (fun _ v' => TaskGroup.g_task_pool (rd group v') = TaskGroup.g_task_pool (rd group v) /\
    rd tasks v' = delete m (rd tasks v)) v.
Proof.
  destruct (rd tasks v !! m) as [o|] eqn:Ho; [|done]. injection H as H. unfold delete_task.
  eapply wp_get_bind; [exact Ho|]. change (rd Task.stack o) with (Task.m_stack o). rewrite H. apply wp_ret_bind.
  unfold Task.free. apply wp_act_last. change (rd Task.tasks (rd mem v)) with (rd tasks v). by rewrite Ho.
Qed.

(** The destructor of the task pool returns after POOL_SIZE rounds and leaves
    none of the tasks, when they own no stacks. *)
Theorem delete_TaskGroup_frees v (Hlen : Z.of_nat (length (TaskGroup.g_task_pool (rd group v))) = TaskGroup.POOL_SIZE)
    (Hlive : forall i m, slot v i = Some m -> Task.m_stack <$> rd tasks v !! m = Some None)
    (Honce : forall i j m, slot v i = Some m -> slot v j = Some m -> i = j) :
  wp delete_TaskGroup (fun _ v' => forall i m, slot v i = Some m -> rd tasks v' !! m = None) v.
Proof.
  apply (wp_loop_inv (fun j v' => 0 <= j <= TaskGroup.POOL_SIZE /\
      TaskGroup.g_task_pool (rd group v') = TaskGroup.g_task_pool (rd group v) /\
      forall i m, slot v i = Some m -> rd tasks v' !! m = if decide (Z.of_nat i < j) then None else rd tasks v !! m)
    (fun j _ => Z.to_nat (TaskGroup.POOL_SIZE - j))).
  - split; [done|]. split; [done|]. intros i m _. by rewrite decide_False by lia.
  - intros j v' (Hj & Hp & Ht). destruct (Z.ltb_spec j TaskGroup.POOL_SIZE) as [Hlt|Hge].
    + destruct (lookup_lt_is_Some_2 (TaskGroup.g_task_pool (rd group v)) (Z.to_nat j)) as [x Hx]; [lia|].
      apply wp_zoom_bind; [apply _|]. unfold load_at. apply wp_act_last.
      change (rd TaskGroup.task_pool_ (rd group v')) with (TaskGroup.g_task_pool (rd group v')).
      rewrite Hp, Hx, (proj2 (Z.leb_le _ _)) by lia. rewrite wr_rd. apply wp_bind. destruct x as [m|].
      * assert (Hm : slot v (Z.to_nat j) = Some m) by (unfold slot; by rewrite Hx).
        pose proof (Ht _ _ Hm) as E. rewrite decide_False in E by lia.
        eapply wp_mono; [apply (delete_task_frees v' m); rewrite E; by eapply Hlive|].
        intros [] v2 [Hp2 Ht2]. apply wp_ret. split; [|lia]. split; [lia|]. split; [by rewrite Hp2|].
        intros i m' Hi. rewrite Ht2. destruct (decide (m' = m)) as [->|Hne].
        { rewrite lookup_delete_eq, decide_True; [done|]. rewrite (Honce _ _ _ Hi Hm). lia. }
        rewrite lookup_delete_ne by done. rewrite (Ht i m' Hi). assert (i <> Z.to_nat j) by congruence.
        repeat case_decide; done || lia.
      * apply wp_ret, wp_ret. split; [|lia]. split; [lia|]. split; [done|].
        intros i m Hi. rewrite (Ht i m Hi). assert (i <> Z.to_nat j) by (intros ->; unfold slot in Hi; by rewrite Hx in Hi).
        repeat case_decide; done || lia.
    + apply wp_ret. intros i m Hi. rewrite (Ht i m Hi), decide_True; [done|].
      unfold slot in Hi. destruct (TaskGroup.g_task_pool (rd group v) !! i) eqn:Ei; [|done]. apply lookup_lt_Some in Ei. lia.
Qed.

(** ** Instances *)

Definition ended_coroutine : world :=
  wr tasks {[7%nat := wr Task.type Task.COROUTINE (wr Task.state Task.FINISHED Task.new_TaskMeta)]} two_workers.

Lemma get_never_returns_witness :
  wp (get Z (Handle (Some 7%nat) None)) (fun r _ => r = inr (Result.StdException "Not implemented")) ended_coroutine.
Proof.
  eapply wp_mono; [apply get_never_returns; intros m [= <-]; by eexists|].
  intros r v' (-> & what & -> & _ & H). rewrite H; [done|]. by exists 7%nat, (wr Task.type Task.COROUTINE (wr Task.state Task.FINISHED Task.new_TaskMeta)).
Defined.

Definition two_handles : list handle := [Handle (Some 7%nat) None; Task; Handle (Some 8%nat) None].
Definition with_two_tasks : world := wr tasks (<[7%nat := Task.new_TaskMeta]> {[8%nat := Task.new_TaskMeta]}) two_workers.

Lemma two_handles_owned : owned_once with_two_tasks two_handles.
Proof.
  split.
  - intros [|[|[|i]]] [|[|[|j]]] m; unfold meta_at; simpl; intros; simplify_eq; done.
  - intros [|[|[|i]]] m; unfold meta_at; simpl; intros; simplify_eq; by eexists.
Qed.

Lemma moving_keeps_one_owner_witness :
  wp (client [MoveAssign 1 0; MoveConstruct 2; MoveAssign 1 1; MoveAssign 3 1] two_handles)
     (fun hs v' => v' = with_two_tasks /\ owned_once with_two_tasks hs) with_two_tasks.
Proof.
  eapply wp_mono; [apply (moving_keeps_one_owner _ _ _ two_handles_owned)|]. by intros hs v' (-> & H & _).
Defined.

Lemma assignment_drops_a_task_witness :
  wp (move_assign false (Handle (Some 7%nat) None) (Handle (Some 8%nat) None))
     (fun r v' => v' = with_two_tasks /\ meta_ r.1 <> Some 7%nat /\ meta_ r.2 <> Some 7%nat) with_two_tasks.
Proof. by apply (assignment_drops_a_task _ _ _ 7%nat Task.new_TaskMeta). Defined.

(** A pool with one task. *)
Definition one_task_pool : world :=
  wr group (wr TaskGroup.task_pool_ (<[3%nat := Some 7%nat]> (replicate (Z.to_nat TaskGroup.POOL_SIZE) None))
              (rd group with_two_tasks)) with_two_tasks.

Lemma one_task_table : TaskGroup.g_task_pool (rd group one_task_pool) =
  <[3%nat := Some 7%nat]> (replicate (Z.to_nat TaskGroup.POOL_SIZE) None).
Proof. reflexivity. Qed.

Lemma one_task_slot i m : slot one_task_pool i = Some m -> i = 3%nat /\ m = 7%nat.
Proof.
  unfold slot. rewrite one_task_table. destruct (decide (i = 3%nat)) as [->|Hne].
  - rewrite list_lookup_insert_eq by (rewrite length_replicate; vm_compute; lia). by intros [= <-].
  - rewrite list_lookup_insert_ne by done. intros H. exfalso.
    destruct (replicate (Z.to_nat TaskGroup.POOL_SIZE) None !! i) as [x|] eqn:E; [|done].
    by apply lookup_replicate in E as [-> _].
Qed.

Lemma delete_TaskGroup_frees_witness :
  wp delete_TaskGroup (fun _ v' => forall i m, slot one_task_pool i = Some m -> rd tasks v' !! m = None) one_task_pool.
Proof.
  apply delete_TaskGroup_frees.
  - rewrite one_task_table, length_insert, length_replicate. reflexivity.
  - by intros i m [-> ->]%one_task_slot.
  - by intros i j m [-> _]%one_task_slot [-> _]%one_task_slot.
Defined.

End TaskHandle.
