(* ===== verification/CoroRun.v ===== *)
(** * Executions of coroutines

    Complete executions of the runtime with coroutines: the creator, the loops
    of the workers, the sleep thread and the coroutines of
    [include/coro/coroutine.h] run on [src/bthread/core/worker.cpp] and
    [src/coro/scheduler.cpp].  They show what the parts do together: results
    that arrive, and interleavings in which the code loses a coroutine or
    touches memory that was freed. *)

From Stdlib Require Import ZArith Lia String.
From stdpp Require Import base numbers list gmap relations option strings.
From S2P Require Import Prelude Mpsc SharedMpsc WorkStealing Task TaskGroup Timer Platform.
From S2P Require Import Result FramePool World Workers Scheduler Butex Mutex Event Cond.
From S2P Require Import CoroTask CoroScheduler Coroutine Runtime Api.

Open Scope Z_scope.

Module CoroRun.
Import World World.Worker Workers Scheduler Coroutine Runtime.

(** ** The program of the user *)

(** The bodies: 1 sleeps for 100 ms and returns its argument plus one; 2 awaits
    the task at its argument and returns the double; 3 returns its argument
    plus one; 4 locks and unlocks the mutex at its argument. *)
Definition bodies (n : nat) (h : ptr) (body arg : Z) : prog world completion :=
  if body =? 1 then sleep n h 100 ;;; Ret (co_return (arg + 1))
  else if body =? 2 then
    r <- await_T n h (Some (Z.to_nat arg)) ;;
    Ret (match r with inl x => co_return (x * 2) | inr e => unhandled e end)
  else if body =? 3 then Ret (co_return (arg + 1))
  else
    lock_async n h (Z.to_nat arg) ;;;
    Mutex.unlock (OnStack h) (Z.to_nat arg) ;;;
    Ret co_return_void.

(** Two workers that are up, with nothing queued. *)
Definition idle_runtime : world :=
  wr workers (<[1%nat := Worker 0]> {[2%nat := Worker 1]}) Api.started_runtime.

(** Threads that return nothing of interest. *)
Definition silent {A} (p : prog world A) : prog world (option ptr * option ptr) := p ;;; Ret (None, None).
Definition worker_round (w : ptr) : prog world (option ptr * option ptr) := silent (run_round w 0).
Definition body_of (n : nat) : prog world (option ptr * option ptr) := silent (coroutine bodies n).

(** What can be read off a coroutine, its metadata and the workers. *)
Definition frame_at (h : ptr) (v : world) : option (Frame.promise * bool * option ptr) :=
  (fun o => (Frame.f_promise_ o, Frame.f_done o, Frame.f_awaiter_ o)) <$> rd frames v !! h.
Definition meta_at (m : ptr) (v : world) : option (Task.TaskType * Task.TaskState) :=
  (fun o => (Task.m_type o, Task.m_state o)) <$> rd tasks v !! m.
Definition contexts (v : world) : list (option ptr) :=
  (fun p => w_context p.2) <$> map_to_list (v_workers v).

(** ** Spawn, sleep, return and join *)

Definition spawns_and_joins : prog world (option ptr * option ptr) :=
  c <- create TaskInt 1 41 100 ;;
  m <- spawn_coro (Native 0) TaskInt c ;;
  Api.join (Native 0) m ;;;
  Ret (c, m).

(** The creator, two rounds of worker 1, the sleep thread, the coroutine and
    the clock. *)
Definition cast : list (prog world (option ptr * option ptr)) :=
  [spawns_and_joins; worker_round 1; silent (CoroScheduler.sleep_thread (Native 1)); worker_round 1; body_of 0;
   silent (store CoroScheduler.steady_clock 100000000)].
Definition slept_and_joined : conf world (option ptr * option ptr) :=
  drive 800 [Until 0 (fun v => bool_decide (v_idle_head_ v = -1)); Steps 0 12; All 1; All 4; All 1; Steps 2 30; All 5;
             Steps 2 30; All 3; All 4; All 3; Steps 0 100] (cast, idle_runtime).

(** From a started runtime there is an execution of the creator, the loop of a
    worker, the sleep thread and the coroutine in which the coroutine is
    spawned, suspends in sleep, is woken when its time has come, returns 42
    and is joined: join returns, the metadata is freed and the promise holds
    42. *)
Theorem a_spawned_coroutine_sleeps_and_is_joined :
  exists ts v, reachable (cast, idle_runtime) (ts, v) /\
    Prelude.result <$> ts !! 0%nat = Some (Some (Some 32%nat, Some 33%nat)) /\
    frame_at 32 v = Some (Frame.TaskPromise 42 None, true, None) /\
    meta_at 33 v = None /\ rd CoroScheduler.sleep_queue_ v = [].
Proof.
  exists slept_and_joined.1, slept_and_joined.2.
  split; [rewrite <- surjective_pairing; apply drive_reachable|]. split_and!; vm_compute; reflexivity.
Qed.

(** ** A coroutine that awaits another *)

Definition spawns_a_pair : prog world (option ptr * option ptr) :=
  c <- create TaskInt 3 41 100 ;;
  p <- create TaskInt 2 (Z.of_nat (default 0%nat c)) 100 ;;
  m <- spawn_coro (Native 0) TaskInt p ;;
  c <- co_spawn (Native 0) TaskInt c ;;
  Ret (c, m).

Definition pair_cast (w1 w2 : ptr) : list (prog world (option ptr * option ptr)) :=
  [spawns_a_pair; worker_round w1; worker_round w2; body_of 0; body_of 1].
Definition awaited_on_one_worker : conf world (option ptr * option ptr) :=
  drive 1000 [All 0; All 1; All 4; All 1; All 2; All 3; All 2; All 4; All 2] (pair_cast 1 1, idle_runtime).

Lemma join_diverges m v s : meta_at m v = Some (Task.COROUTINE, s) -> s <> Task.FINISHED ->
  diverges (Api.join (Native 0) (Some m)) v.
Proof.
  unfold meta_at. destruct (rd tasks v !! m) as [o|] eqn:Ho; [|done]. intros [= Ht <-] Hs.
  unfold Api.join. eapply (diverges_bind _ _ _ (fun t v' => t = Task.COROUTINE /\ v' = v)).
  { unfold Prelude.get. apply wp_act_last. by rewrite Ho. }
  intros t v' [-> ->]. apply diverges_bind_left. apply (diverges_loop (fun _ v' => v' = v)); [done|].
  intros [] v' ->. unfold Api.is_done. apply wp_assoc. eapply wp_get_bind; [exact Ho|]. apply wp_ret_bind.
  change (rd Task.state o) with (Task.m_state o). rewrite bool_decide_eq_false_2 by done.
  apply wp_pause_bind, wp_ret. by exists tt.
Qed.

(** There is an execution in which a coroutine awaits another, is resumed by
    its end on the same worker and returns the right value, and its metadata
    stays RUNNING for good, because the worker finishes the metadata of the
    other one: joining the awaiter never returns. *)
Theorem a_coroutine_that_awaited_is_never_finished :
  exists ts v, reachable (pair_cast 1 1, idle_runtime) (ts, v) /\
    Prelude.result <$> ts = [Some (Some 32%nat, Some 33%nat); Some (None, None); Some (None, None);
                             Some (None, None); Some (None, None)] /\
    frame_at 32 v = Some (Frame.TaskPromise 42 None, true, Some 31%nat) /\
    frame_at 31 v = Some (Frame.TaskPromise 84 None, true, None) /\
    meta_at 34 v = Some (Task.COROUTINE, Task.FINISHED) /\
    meta_at 33 v = Some (Task.COROUTINE, Task.RUNNING) /\
    diverges (Api.join (Native 0) (Some 33%nat)) v.
Proof.
  exists awaited_on_one_worker.1, awaited_on_one_worker.2.
  split; [rewrite <- surjective_pairing; apply drive_reachable|].
  assert (E : meta_at 33 awaited_on_one_worker.2 = Some (Task.COROUTINE, Task.RUNNING)) by (vm_compute; reflexivity).
  split_and!; [vm_compute; reflexivity..|exact E|by apply (join_diverges 33 _ _ E)].
Qed.

(** The awaited coroutine ends between await_ready and await_suspend. *)
Definition ended_in_between : conf world (option ptr * option ptr) :=
  drive 1000 [All 0; All 1; Steps 4 4; All 2; All 3; All 2; All 4; All 1] (pair_cast 1 2, idle_runtime).

(** There is an interleaving in which the awaited coroutine ends on another
    worker after the awaiter has found it unfinished and before the awaiter is
    recorded: the awaiter waits forever for a coroutine that is done. *)
Theorem a_completion_before_set_awaiter_is_lost :
  exists ts v p, reachable (pair_cast 1 2, idle_runtime) (ts, v) /\
    ts !! 4%nat = Some p /\ is_stuck v p = true /\
    Prelude.result <$> take 4 ts = [Some (Some 32%nat, Some 33%nat); Some (None, None); Some (None, None); Some (None, None)] /\
    frame_at 32 v = Some (Frame.TaskPromise 42 None, true, Some 31%nat) /\
    frame_at 31 v = Some (Frame.TaskPromise 0 None, false, None) /\
    contexts v = [None; None] /\ v_total_count v = 0.
Proof.
  assert (E : match ended_in_between.1 !! 4%nat with Some p => is_stuck ended_in_between.2 p | None => false end = true)
    by (vm_compute; reflexivity).
  destruct (ended_in_between.1 !! 4%nat) as [p|] eqn:Ep; [|done].
  exists ended_in_between.1, ended_in_between.2, p.
  split; [rewrite <- surjective_pairing; apply drive_reachable|]. split; [exact Ep|]. split; [exact E|].
  split_and!; vm_compute; reflexivity.
Qed.

(** ** Memory that is freed too early *)

Definition spawns_and_joins_quick : prog world (option ptr * option ptr) :=
  c <- create TaskInt 3 41 100 ;;
  m <- spawn_coro (Native 0) TaskInt c ;;
  Api.join (Native 0) m ;;;
  Ret (c, m).
Definition quick_cast : list (prog world (option ptr * option ptr)) :=
  [spawns_and_joins_quick; worker_round 1; body_of 0].

(** There is an interleaving in which join sees the coroutine FINISHED and
    deletes its metadata before the worker that ran it reads the state of the
    same metadata. *)
Theorem join_deletes_the_metadata_too_early :
  exists ts v p, reachable (quick_cast, idle_runtime) (ts, v) /\
    ts !! 1%nat = Some p /\ is_bad p v = true /\
    Prelude.result <$> ts !! 0%nat = Some (Some (Some 32%nat, Some 33%nat)) /\ meta_at 33 v = None.
Proof.
  set (l := [Until 0 (fun v => bool_decide (v_idle_head_ v = -1)); Steps 0 12; All 1; All 2;
             Until 1 (fun v => bool_decide (meta_at 33 v = Some (Task.COROUTINE, Task.FINISHED))); Steps 0 20; All 1]).
  destruct (drive_results_reachable (meta_at 33) 1000 l (quick_cast, idle_runtime)
    [Some (Some 32%nat, Some 33%nat); None; Some (None, None)] [false; true; false] None)
    as (ts & v & Hr & H1 & H2 & H3); [vm_compute; reflexivity|].
  assert (Ep : (fun p => is_bad p v) <$> ts !! 1%nat = Some true) by by rewrite <- list_lookup_fmap, H2.
  destruct (ts !! 1%nat) as [p|] eqn:E; [|done]. exists ts, v, p. split; [exact Hr|]. split; [exact E|].
  split; [by injection Ep|]. split; [by rewrite <- list_lookup_fmap, H1|exact H3].
Qed.

(** [coro::co_spawn(task());] as a statement: the task object that is returned
    is destroyed at once. *)
Definition discards_a_task : prog world (option ptr * option ptr) :=
  c <- create TaskInt 3 41 100 ;;
  c <- co_spawn (Native 0) TaskInt c ;;
  CoroTask.delete_Task c ;;;
  Ret (c, None).
Definition discard_cast : list (prog world (option ptr * option ptr)) :=
  [discards_a_task; worker_round 1; body_of 0].

(** There is an execution in which a task is spawned and the task object that
    co_spawn returns is discarded: the frame is destroyed while the metadata
    is queued, and the worker that picks it touches the destroyed frame. *)
Theorem a_discarded_task_is_resumed_after_its_end :
  exists ts v p, reachable (discard_cast, idle_runtime) (ts, v) /\
    ts !! 1%nat = Some p /\ is_bad p v = true /\
    Prelude.result <$> ts !! 0%nat = Some (Some (Some 32%nat, None)) /\ frame_at 32 v = None.
Proof.
  destruct (drive_results_reachable (frame_at 32) 1000 [All 0; All 1] (discard_cast, idle_runtime)
    [Some (Some 32%nat, None); None; None] [false; true; false] None)
    as (ts & v & Hr & H1 & H2 & H3); [vm_compute; reflexivity|].
  assert (Ep : (fun p => is_bad p v) <$> ts !! 1%nat = Some true) by by rewrite <- list_lookup_fmap, H2.
  destruct (ts !! 1%nat) as [p|] eqn:E; [|done]. exists ts, v, p. split; [exact Hr|]. split; [exact E|].
  split; [by injection Ep|]. split; [by rewrite <- list_lookup_fmap, H1|exact H3].
Qed.

(** ** A coroutine that waits for a free mutex *)

Definition spawns_two_lockers : prog world (option ptr * option ptr) :=
  m <- Mutex.new_Mutex ;;
  a <- create TaskVoid 4 (Z.of_nat m) 100 ;;
  b <- create TaskVoid 4 (Z.of_nat m) 100 ;;
  spawn_coro (Native 0) TaskVoid a ;;;
  mb <- spawn_coro (Native 0) TaskVoid b ;;
  Ret (Some m, mb).
Definition lock_cast : list (prog world (option ptr * option ptr)) :=
  [spawns_two_lockers; worker_round 1; worker_round 2; body_of 0; body_of 1].

(** The holder unlocks after the last attempt of the other to take the mutex
    and before the other is queued. *)
Definition unlocked_in_between : conf world (option ptr * option ptr) :=
  drive 1000 [All 0; All 1; Steps 3 6; All 2; All 4;
              Until 2 (fun v => bool_decide (World.Mutex.m_state_ <$> v_mutexes v !! 1%nat = Some 3)); Steps 2 1;
              All 3; All 1; All 2; All 4] (lock_cast, idle_runtime).

(** There is an interleaving in which a coroutine waits in lock_async for a
    mutex that nobody holds: the holder has unlocked, found no waiter and
    ended. *)
Theorem a_coroutine_may_wait_for_a_free_mutex :
  exists ts v p, reachable (lock_cast, idle_runtime) (ts, v) /\
    ts !! 4%nat = Some p /\ is_stuck v p = true /\
    Prelude.result <$> take 4 ts = [Some (Some 1%nat, Some 35%nat); Some (None, None); Some (None, None); Some (None, None)] /\
    meta_at 35 v = Some (Task.COROUTINE, Task.SUSPENDED) /\
    World.Mutex.m_state_ <$> v_mutexes v !! 1%nat = Some Mutex.HAS_WAITERS /\
    contexts v = [None; None] /\ v_total_count v = 0.
Proof.
  assert (E : match unlocked_in_between.1 !! 4%nat with Some p => is_stuck unlocked_in_between.2 p | None => false end = true)
    by (vm_compute; reflexivity).
  destruct (unlocked_in_between.1 !! 4%nat) as [p|] eqn:Ep; [|done].
  exists unlocked_in_between.1, unlocked_in_between.2, p.
  split; [rewrite <- surjective_pairing; apply drive_reachable|]. split; [exact Ep|]. split; [exact E|].
  split_and!; vm_compute; reflexivity.
Qed.

End CoroRun.
