(* ===== verification/Exclusion.v ===== *)
(** * Mutual exclusion

    [Mutex] (Mutex.v) among bthreads, which may wait on condition variables
    (Cond.v) while they hold it, under every interleaving with each other and
    with any other threads that leave the mutex alone, as long as the scheduler
    is running.  The scheduler itself, and notifying, are shown to leave it
    alone. *)

From Stdlib Require Import ZArith Lia.
From stdpp Require Import base numbers list gmap relations option.
From S2P Require Import Prelude Concurrency Mpsc SharedMpsc WorkStealing Task TaskGroup Timer Mpmc.
From S2P Require Import Platform World Workers Scheduler Butex Mutex Event Cond.

Open Scope Z_scope.

Module Exclusion.
Import World World.Worker Workers Scheduler Mutex.Mutex.

(** ** What the rest of the runtime does to a mutex: nothing *)

Section Frame.
Context (m : ptr).

Definition lock_state (v : world) : option Z := World.Mutex.m_state_ <$> v_mutexes v !! m.
Definition is_running (v : world) : Prop := v_running_ v = true.
Definition untouched (v v' : world) : Prop := lock_state v' = lock_state v /\ is_running v'.

Lemma untouched_refl v : is_running v -> untouched v v.
Proof. by split. Qed.

Abbreviation frame p := (keeps is_running untouched p (fun _ => True)).

Lemma frame_act {B} (f : world -> eff world B) :
  (forall v b v', is_running v -> f v = Go b v' -> untouched v v') -> frame (act f).
Proof. apply keeps_act_of. Qed.

Lemma frame_loop {X B} (i : X) (body : X -> prog world (X + B)) : (forall i, frame (body i)) -> frame (loop i body).
Proof.
  intros H. apply keeps_while. intros j. eapply keeps_mono; [apply H|]. by intros [].
Qed.

Lemma frame_on {A} w (p : prog worker A) : frame (on w p).
Proof. apply keeps_zoom_at. by split. Qed.

Lemma frame_mem {A} (p : prog Task.memory A) : frame (zoom mem p).
Proof. apply keeps_zoom. by split. Qed.

Lemma frame_group {A} (p : prog TaskGroup.group A) : frame (zoom group p).
Proof. apply keeps_zoom. by split. Qed.

Lemma frame_global {A} (p : prog SharedMPSCQueue.shared A) : frame (zoom global_queue_ p).
Proof. apply keeps_zoom. by split. Qed.

Lemma frame_waiters {A} q (p : prog MpscQueue.mpsc A) : frame (zoom (waiter_queue_ q) p).
Proof. apply keeps_zoom. by split. Qed.

Lemma frame_timer {A} (p : prog Timer.timer A) : frame (zoom_opt timer_thread_ p).
Proof. apply keeps_zoom_opt. by split. Qed.

Lemma frame_butex {A} q (v : field Task.Butex Z) (p : prog Z A) : frame (zoom_at butexes q v p).
Proof. apply keeps_zoom_at. by split. Qed.

(** A field that is not the mutexes. *)
Definition harmless {B} (f : field world B) : Prop := forall v x, is_running v -> untouched v (wr f x v).

End Frame.

Create HintDb frame.

Ltac frame_prim :=
  match goal with
  | |- keeps _ _ (Ret _) _ => apply keeps_ret; try done
  | |- keeps _ _ pause _ => by apply keeps_pause, untouched_refl
  | |- keeps _ _ (int64 _) _ => by apply keeps_int64
  | |- keeps _ _ Platform.FutexWake _ => by apply keeps_pause, untouched_refl
  | |- keeps _ _ (on _ _) _ => apply frame_on
  | |- keeps _ _ (zoom mem _) _ => apply frame_mem
  | |- keeps _ _ (zoom group _) _ => apply frame_group
  | |- keeps _ _ (zoom global_queue_ _) _ => apply frame_global
  | |- keeps _ _ (zoom (waiter_queue_ _) _) _ => apply frame_waiters
  | |- keeps _ _ (zoom_opt timer_thread_ _) _ => apply frame_timer
  | |- keeps _ _ (zoom_at butexes _ _ _) _ => apply frame_butex
  | |- keeps _ _ (load _) _ => by apply keeps_load, untouched_refl
  | |- keeps _ _ (get _ _ _) _ => by apply keeps_get, untouched_refl
  | |- keeps _ _ (store running_ true) _ => by apply frame_act; intros v b v' _ [= _ <-]
  | |- keeps _ _ (store _ _) _ => by apply keeps_write; [apply untouched_refl|]
  | |- keeps _ _ (fetch _ _) _ => by apply keeps_write; [apply untouched_refl|]
  | |- keeps _ _ (exchange _ _) _ => by apply keeps_write; [apply untouched_refl|]
  | |- keeps _ _ (cas _ _ _) _ => by apply keeps_write; [apply untouched_refl|]
  | |- keeps _ _ (cas_weak _ _ _) _ => by apply keeps_write; [apply untouched_refl|]
  | |- keeps _ _ (Prelude.lock _) _ => by apply keeps_lock
  | |- keeps _ _ (Prelude.unlock _) _ => by unfold Prelude.unlock; apply keeps_write; [apply untouched_refl|]
  | |- keeps _ _ (load_at _ _) _ => by apply keeps_array; [apply untouched_refl|]
  | |- keeps _ _ (store_at _ _ _) _ => by apply keeps_array; [apply untouched_refl|]
  | |- keeps _ _ (fetch_at _ _ _) _ => by apply keeps_array; [apply untouched_refl|]
  | |- keeps _ _ (set _ _ _ _) _ => by apply keeps_object; [apply untouched_refl|]
  | |- keeps _ _ (modify _ _ _ _) _ => by apply keeps_object; [apply untouched_refl|]
  | |- keeps _ _ (cas_on _ _ _ _ _) _ => by apply keeps_object; [apply untouched_refl|]
  | |- keeps _ _ undefined _ => by apply frame_act
  | |- keeps _ _ (act _) _ =>
      apply frame_act; let v := fresh "v" in let E := fresh "E" in
      intros v ? ? ? E; simpl in E; repeat case_match; simplify_eq/=; by split
  | |- keeps _ _ (bind _ _) _ => eapply (keeps_bind _ _ _ _ _ (fun _ => True)); [|intros ? _]
  | |- keeps _ _ (loop _ _) _ => apply frame_loop; intros ?
  | |- keeps _ _ (if _ then _ else _) _ => case_match
  | |- keeps _ _ (match _ with _ => _ end) _ => case_match
  end.
Ltac frame := repeat (frame_prim || solve [auto 1 with frame nocore]).

Section Runtime.
Context (m : ptr).
Abbreviation frame p := (keeps is_running (untouched m) p (fun _ => True)).

Lemma frame_Current self : frame (Current self).
Proof. unfold Current. destruct self; frame. Qed.
#[local] Hint Resolve frame_Current : frame.

Lemma frame_Trace a b c d e : frame (Trace a b c d e).
Proof. unfold Trace. frame. Qed.
#[local] Hint Resolve frame_Trace : frame.

Lemma frame_WakeUp w : frame (WakeUp w).
Proof. unfold WakeUp, trace_worker. frame. Qed.
#[local] Hint Resolve frame_WakeUp : frame.

Lemma frame_PopIdleWorker : frame PopIdleWorker.
Proof. unfold PopIdleWorker. frame. Qed.
#[local] Hint Resolve frame_PopIdleWorker : frame.

Lemma frame_WakeIdleWorkers n : frame (WakeIdleWorkers n).
Proof. unfold WakeIdleWorkers. frame. Qed.
#[local] Hint Resolve frame_WakeIdleWorkers : frame.

Lemma frame_Init : frame Init.
Proof. unfold Init, call_once, StartWorkers, new_Worker. frame. Qed.
#[local] Hint Resolve frame_Init : frame.

Lemma frame_Submit self t : frame (Submit self t).
Proof. unfold Submit. frame. Qed.
#[local] Hint Resolve frame_Submit : frame.

Lemma frame_EnqueueTask self t : frame (EnqueueTask self t).
Proof. apply frame_Submit. Qed.
#[local] Hint Resolve frame_EnqueueTask : frame.

Lemma frame_on_timer {A} (p : prog Timer.timer A) : frame (on_timer p).
Proof. unfold on_timer, GetTimerThread, call_once. frame. Qed.
#[local] Hint Resolve frame_on_timer : frame.

Lemma frame_SuspendCurrent self w : frame (SuspendCurrent self w).
Proof. unfold SuspendCurrent, SwapFrom, resumed. frame. Qed.
#[local] Hint Resolve frame_SuspendCurrent : frame.

Lemma frame_Wake self b n : frame (Butex.Wake self b n).
Proof. unfold Butex.Wake, Butex.wake_round, Butex.wake_waiter, for_each. frame. Qed.
#[local] Hint Resolve frame_Wake : frame.
End Runtime.

(** ** The lock *)

Section Lock.
Context (m : ptr).
Abbreviation frame p := (keeps is_running (untouched m) p (fun _ => True)).

(** The owner, and what is known about it. *)
Abbreviation cfg := (world * option nat)%type.
Definition Inv (c : cfg) : Prop :=
  is_running c.1 /\ exists s, lock_state m c.1 = Some s /\ is_locked s = bool_decide (is_Some c.2).
Definition Guar (i : nat) (c c' : cfg) : Prop :=
  c'.2 = c.2 \/ (c.2 = None /\ c'.2 = Some i) \/ (c.2 = Some i /\ c'.2 = None).
Definition owns (i : nat) (c : cfg) : Prop := c.2 = Some i.
Definition any (c : cfg) : Prop := True.

Lemma Guar_refl i c : Inv c -> Guar i c c.
Proof. by left. Qed.

Lemma stable_owns i : stable Inv Guar i (owns i).
Proof. unfold owns. intros j c c' Hne _ Ho [Hg|[[Hg _]|[Hg _]]] _; congruence. Qed.

Lemma stable_any i : stable Inv Guar i any.
Proof. by intros j c c'. Qed.

Abbreviation triple i P p Q := (rg Inv Guar i P (forgive p) Q).

Lemma triple_bind {A B} i P (p : prog world A) (g : A -> prog world B) R Q :
  triple i P p R -> (forall a, triple i (R a) (g a) Q) -> triple i P (bind p g) Q.
Proof. intros H Hg. rewrite forgive_bind. by eapply rg_bind. Qed.

Lemma triple_ret {A} i (a : A) P Q : stable Inv Guar i P -> (forall c, P c -> Q a c) -> triple i P (Ret a) Q.
Proof. intros Hst H. apply rg_ret; [done|]. by intros c _ ?%H. Qed.

(** A step that leaves the mutex alone. *)
Lemma triple_frame {A} i (P : cfg -> Prop) (p : prog world A) Φ : stable Inv Guar i P ->
  (forall v v' γ, P (v, γ) -> P (v', γ)) -> keeps is_running (untouched m) p Φ ->
  triple i P p (fun a c => Φ a /\ P c).
Proof.
  intros Hst HP H. eapply rg_keeps; [apply Guar_refl|by intros v γ [Hr _]| |exact Hst|exact H].
  intros v v' γ [Hr (s & Hs & Hl)] HPv [E Hr']. split; [|split; [by left|by eapply HP]].
  split; [exact Hr'|]. exists s. split; [exact (eq_trans E Hs)|exact Hl].
Qed.

Lemma triple_skip {A B} i (P : cfg -> Prop) (p : prog world A) (g : A -> prog world B) Q Φ :
  stable Inv Guar i P -> (forall v v' γ, P (v, γ) -> P (v', γ)) -> keeps is_running (untouched m) p Φ ->
  (forall a, Φ a -> triple i P (g a) Q) -> triple i P (bind p g) Q.
Proof.
  intros Hst HP H Hg. eapply triple_bind; [by eapply triple_frame|]. intros a c n HI [HΦ HPc]. by apply Hg.
Qed.

Lemma triple_loop {X B} i (x : X) (body : X -> prog world (X + B)) P R :
  stable Inv Guar i P -> (forall b, stable Inv Guar i (R b)) ->
  (forall x, triple i P (body x) (fun r c => match r with inl _ => P c | inr b => R b c end)) ->
  triple i P (loop x body) R.
Proof.
  intros Hst HR H. apply (rg_while Inv Guar Guar_refl i (fun _ => P) (fun x => forgive (body x)) x R); done.
Qed.

Lemma set_state v o s : v_mutexes v !! m = Some o ->
  lock_state m (wr mutexes (<[m := wr Mutex.state_ s o]> (v_mutexes v)) v) = Some s.
Proof. intros Ho. unfold lock_state. simpl. by rewrite lookup_insert_eq. Qed.

(** Compare-and-swaps on the state of the lock. *)
Lemma triple_acquire i e n : is_locked e = false -> is_locked n = true ->
  triple i any (cas_on mutexes m Mutex.state_ e n) (fun r c => r.1 = true -> owns i c).
Proof.
  intros He Hn. apply (rg_act Inv Guar i _ _ any (fun r c => r.1 = true -> owns i c)); [apply stable_any| |].
  2: { intros r. apply rg_ret; [|done]. intros j c c' Hne HI Ho HG HI' Hr. exact (stable_owns i j c c' Hne HI (Ho Hr) HG HI'). }
  intros sp v γ [Hr (s & Hs & Hl)] _. cbn [rd mutexes]. unfold lock_state in Hs. simpl in Hs, Hl.
  destruct (v_mutexes v !! m) as [o|] eqn:Ho; [|done]. injection Hs as Hs.
  case_decide as Hd; simpl in Hd.
  - exists (Some i). assert (γ = None) as ->.
    { destruct γ; [|done]. rewrite <- Hs, Hd, He in Hl. done. }
    split; [right; left; by split|]. split; [|done]. split; [exact Hr|]. exists n.
    split; [by apply set_state|]. done.
  - exists γ. split; [by left|]. split; [|done]. split; [exact Hr|]. exists s. split; [|done].
    unfold lock_state. simpl. rewrite Ho. simpl. by rewrite Hs.
Qed.

Lemma frame_mark e n : is_locked n = is_locked e -> forall i,
  triple i any (cas_on mutexes m Mutex.state_ e n) (fun _ => any).
Proof.
  intros He i. apply (rg_act Inv Guar i _ _ any (fun _ => any)); [apply stable_any| |].
  2: { intros r. by apply rg_ret; [apply stable_any|]. }
  intros sp v γ [Hr (s & Hs & Hl)] _. cbn [rd mutexes]. unfold lock_state in Hs. simpl in Hs, Hl.
  destruct (v_mutexes v !! m) as [o|] eqn:Ho; [|done]. injection Hs as Hs.
  case_decide as Hd; simpl in Hd; exists γ; (split; [by left|]; split; [|done]; split; [exact Hr|]).
  - exists n. split; [by apply set_state|]. by rewrite He, <- Hd, Hs.
  - exists s. split; [|done]. unfold lock_state. simpl. rewrite Ho. simpl. by rewrite Hs.
Qed.

Lemma triple_clear i : triple i (owns i) (clear_LOCKED m) (fun _ => any).
Proof.
  apply (rg_act Inv Guar i _ _ (owns i) (fun _ => any)); [apply stable_owns| |].
  2: { intros r. by apply rg_ret; [apply stable_any|]. }
  intros sp v γ [Hr (s & Hs & Hl)] Hγ. unfold owns in Hγ. simpl in Hγ. subst γ. cbn [rd mutexes].
  unfold lock_state in Hs. simpl in Hs, Hl. destruct (v_mutexes v !! m) as [o|] eqn:Ho; [|done].
  exists None. split; [right; right; by split|]. split; [|done]. split; [exact Hr|].
  eexists. split; [by apply set_state|]. unfold is_locked. simpl. rewrite Z.land_ldiff. done.
Qed.

End Lock.

Lemma is_locked_acquired s : is_locked (Z.lor LOCKED s) = true.
Proof.
  unfold is_locked. rewrite Z.land_lor_distr_l.
  destruct (Z.eqb_spec (Z.lor (Z.land LOCKED LOCKED) (Z.land s LOCKED)) 0) as [E|]; [|done].
  by apply Z.lor_eq_0_iff in E as [E _].
Qed.

Lemma is_locked_marked s : is_locked (Z.lor s HAS_WAITERS) = is_locked s.
Proof. unfold is_locked. rewrite Z.land_lor_distr_l. by rewrite Z.lor_0_r. Qed.

Section Waiting.
Context (m : ptr).
#[local] Hint Resolve frame_Current frame_EnqueueTask frame_on_timer frame_SuspendCurrent frame_Wake : frame.

Lemma frame_enter_wait self b e t p :
  keeps is_running (untouched m) (Butex.enter_wait self b e None t p) (fun r => r = None \/ r = Some 0).
Proof. unfold Butex.enter_wait, Butex.set_timeout, Butex.value. frame; by auto. Qed.

Lemma keeps_running_bind {A} (g : bool -> prog world A) Φ :
  keeps is_running (untouched m) (g true) Φ ->
  keeps is_running (untouched m) (x <- load running_ ;; g x) Φ.
Proof.
  intros H. eapply (keeps_bind _ _ _ _ _ (fun r => r = true)); [|by intros a ->].
  apply keeps_one. intros sp v r v' Hr [= <- <-]. by split.
Qed.

Lemma frame_wait_pthread b e :
  keeps is_running (untouched m) (Butex.wait_pthread b e None) (fun r => r <> Platform.ECANCELED).
Proof.
  apply keeps_one. intros sp v r v' Hr E. simpl in E. repeat case_match; simplify_eq/=; by split.
Qed.

Lemma frame_leave_wait t :
  keeps is_running (untouched m) (Butex.leave_wait t) (fun r => r <> Platform.ECANCELED).
Proof. unfold Butex.leave_wait. repeat ((apply keeps_running_bind; simpl) || frame_prim); by case_match. Qed.

Lemma frame_Wait self b e p :
  keeps is_running (untouched m) (Butex.Wait self b e None p) (fun r => r <> Platform.ECANCELED).
Proof.
  unfold Butex.Wait. eapply (keeps_bind _ _ _ _ _ (fun _ => True)); [apply frame_Current|].
  intros [w|] _; [|apply frame_wait_pthread].
  eapply (keeps_bind _ _ _ _ _ (fun _ => True)); [apply frame_on|]. intros [t|] _; [|apply frame_wait_pthread].
  eapply (keeps_bind _ _ _ _ _ (fun _ => True)); [frame|]. intros ty _.
  destruct (decide (ty = Task.BTHREAD)); [|apply frame_wait_pthread]. apply keeps_running_bind. simpl.
  eapply keeps_bind; [apply frame_enter_wait|]. intros r [-> | ->].
  - eapply (keeps_bind _ _ _ _ _ (fun _ => True)); [apply frame_SuspendCurrent|]. intros _ _. apply frame_leave_wait.
  - by apply keeps_ret.
Qed.

(** The other members of a mutex. *)
Lemma untouched_member {B} q o (f : field World.Mutex.mutex B) x v :
  (forall o x, World.Mutex.m_state_ (wr f x o) = World.Mutex.m_state_ o) -> is_running v ->
  v_mutexes v !! q = Some o -> untouched m v (wr mutexes (<[q := wr f x o]> (v_mutexes v)) v).
Proof.
  intros Hf Hr Ho. split; [|exact Hr]. unfold lock_state. simpl.
  destruct (decide (q = m)) as [->|Hne]; [rewrite lookup_insert_eq, Ho; simpl; by rewrite Hf|].
  by rewrite lookup_insert_ne.
Qed.

Lemma frame_member {B} q (f : field World.Mutex.mutex B) :
  (forall o x, World.Mutex.m_state_ (wr f x o) = World.Mutex.m_state_ o) ->
  (forall g, keeps is_running (untouched m) (modify mutexes q f g) (fun _ => True)) /\
  (forall `{EqDecision B} e n, keeps is_running (untouched m) (cas_on mutexes q f e n) (fun _ => True)).
Proof.
  intros Hf. split; [intros g|intros ? e n]; apply frame_act; intros v b v' Hr E; simpl in E;
    repeat case_match; simplify_eq; by (apply untouched_member || apply untouched_refl).
Qed.

Lemma frame_create_butex : keeps is_running (untouched m) (create_butex m) (fun _ => True).
Proof. unfold create_butex, Task.alloc, Task.free. frame; by apply frame_member. Qed.

Lemma frame_wake_one self : keeps is_running (untouched m) (wake_one self m) (fun _ => True).
Proof. unfold wake_one, Butex.value, Butex.set_value. frame. Qed.

Lemma frame_native_unlock self : keeps is_running (untouched m) (native_unlock self m) (fun _ => True).
Proof.
  apply frame_act. intros v b v' Hr E. simpl in E. repeat case_match; simplify_eq.
  by eapply (untouched_member _ _ Mutex.native None).
Qed.

#[local] Hint Resolve frame_Submit : frame.

Lemma frame_notify_one self c : keeps is_running (untouched m) (CondVar.notify_one self c) (fun _ => True).
Proof. unfold CondVar.notify_one, CondVar.dequeue_waiter, CondVar.native_signal, Event.wake_waiter. frame. Qed.

Lemma frame_notify_all self c : keeps is_running (untouched m) (CondVar.notify_all self c) (fun _ => True).
Proof. unfold CondVar.notify_all, CondVar.dequeue_waiter, CondVar.native_broadcast, Event.wake_waiter. frame. Qed.

(** What a waiter does between unlocking and locking again. *)
Lemma frame_suspend_on self c w t : keeps is_running (untouched m)
  (set tasks t Task.state Task.SUSPENDED ;;; set tasks t Task.waiting_sync (Some c) ;;;
   CondVar.enqueue_waiter c t ;;; SuspendCurrent self w) (fun _ => True).
Proof. unfold CondVar.enqueue_waiter. frame. Qed.
End Waiting.

#[local] Arguments forgive : simpl never.

Section Exclusive.
Context (m : ptr).
Abbreviation triple i P p Q := (rg (Inv m) Guar i P (forgive p) Q).

Lemma any_stays (v v' : world) (γ : option nat) : any (v, γ) -> any (v', γ).
Proof. done. Qed.
Lemma owns_stays i (v v' : world) γ : owns i (v, γ) -> owns i (v', γ).
Proof. done. Qed.

Lemma triple_pre {A} i (P P' : world * option nat -> Prop) (p : prog world A) Q :
  (forall c, P c -> P' c) -> triple i P' p Q -> triple i P p Q.
Proof. intros H. apply rg_pre. intros c _. apply H. Qed.

Lemma triple_undefined {A} i P (Q : A -> world * option nat -> Prop) : stable (Inv m) Guar i P ->
  triple i P undefined Q.
Proof. intros Hst. apply (rg_act (Inv m) Guar i _ _ P (fun _ _ => False)); [done|done|]. by intros b c n _ []. Qed.

(** What a round of [lock_bthread], and the loop, leave behind. *)
Definition acquired {X} i (r : X + unit) (c : world * option nat) : Prop :=
  match r with inl _ => any c | inr _ => owns i c end.

Lemma stable_acquired {X} i (r : X + unit) : stable (Inv m) Guar i (acquired i r).
Proof. destruct r; [apply stable_any|apply stable_owns]. Qed.

Lemma triple_try_acquire i s (fw : bool) : is_locked s = false ->
  triple i any (a <- try_acquire m s ;; Ret (if a : bool then inr tt else inl fw)) (acquired i).
Proof.
  intros Hs. unfold try_acquire. eapply triple_bind.
  - eapply triple_bind; [eapply triple_acquire; [exact Hs|apply is_locked_acquired]|].
    intros r. apply (triple_ret m i _ _ (fun a c => a = true -> owns i c)); [|done].
    intros j c c' Hne HI Ho HG HI' Hr. exact (stable_owns m i j c c' Hne HI (Ho Hr) HG HI').
  - intros [].
    + eapply triple_pre; [intros c Hc; exact (Hc eq_refl)|]. by apply triple_ret; [apply stable_owns|].
    + eapply (triple_pre _ _ any); [done|]. by apply triple_ret; [apply stable_any|].
Qed.

Lemma triple_lock_round i self fw : triple i any (lock_round self m fw) (acquired i).
Proof.
  pose proof (stable_any m i) as St. unfold lock_round.
  eapply triple_skip; [exact St|apply any_stays|by apply keeps_get, untouched_refl|]. intros s _.
  destruct (is_locked s) eqn:Es; simpl; [|by apply triple_try_acquire].
  eapply (triple_bind m i _ _ _ (fun _ => any)).
  { destruct (has_waiters s); [by apply triple_ret|].
    eapply triple_bind; [apply frame_mark, is_locked_marked|]. intros r. by apply triple_ret. }
  intros []; simpl; [|by apply triple_ret].
  eapply triple_skip; [exact St|apply any_stays|by apply keeps_get, untouched_refl|]. intros b _.
  eapply triple_skip; [exact St|apply any_stays|by apply keeps_get, untouched_refl|]. intros s' _.
  destruct (is_locked s') eqn:Es'; simpl; [|by apply triple_try_acquire].
  destruct b as [b|].
  - eapply triple_skip; [exact St|apply any_stays|by apply keeps_get, untouched_refl|]. intros g _.
    eapply triple_skip; [exact St|apply any_stays|apply frame_Wait|]. intros r Hr.
    apply Z.eqb_neq in Hr. rewrite Hr. by apply triple_ret.
  - by apply triple_undefined.
Qed.
End Exclusive.

Section Sessions.
Context (m : ptr).
Abbreviation triple i P p Q := (rg (Inv m) Guar i P (forgive p) Q).
Abbreviation frame p := (keeps is_running (untouched m) p (fun _ => True)).

(** A bthread runs on a worker. *)
Lemma keeps_Current t : keeps is_running (untouched m) (Current (OnStack t)) (fun w => w <> None).
Proof.
  unfold Current. apply keeps_one. intros sp v r v' Hr E. repeat case_match; simplify_eq.
  by split; [apply untouched_refl|].
Qed.

Lemma triple_on_worker {A} i t (P : world * option nat -> Prop) (g : option ptr -> prog world A) Q :
  stable (Inv m) Guar i P -> (forall v v' γ, P (v, γ) -> P (v', γ)) ->
  (forall w, triple i P (g (Some w)) Q) -> triple i P (w <- Current (OnStack t) ;; g w) Q.
Proof.
  intros Hst HP H. eapply triple_skip; [exact Hst|exact HP|apply keeps_Current|]. by intros [w|] Hw.
Qed.

Lemma triple_lock i t : triple i any (lock (OnStack t) m) (fun _ => owns i).
Proof.
  pose proof (stable_any m i) as St. unfold lock. apply triple_on_worker; [exact St|done|]. intros _.
  unfold lock_bthread.
  eapply triple_skip; [exact St|apply any_stays|by apply keeps_get, untouched_refl|]. intros s _.
  eapply (triple_bind m i _ _ _ (fun a c => a = true -> owns i c)).
  - destruct (s =? 0); [|by apply triple_ret].
    eapply triple_bind; [by apply triple_acquire|]. intros r.
    apply (triple_ret m i _ _ (fun a c => a = true -> owns i c)); [|done].
    intros j c c' Hne HI Ho HG HI' Hr. exact (stable_owns m i j c c' Hne HI (Ho Hr) HG HI').
  - intros [].
    + eapply triple_pre; [intros c Hc; exact (Hc eq_refl)|]. by apply triple_ret; [apply stable_owns|].
    + eapply (triple_pre _ _ _ any); [done|].
      eapply triple_skip; [exact St|apply any_stays|apply frame_create_butex|]. intros _ _.
      apply triple_loop; [exact St|intros []; apply stable_owns|]. intros fw.
      eapply rg_post; [|apply triple_lock_round]. by intros [] c _.
Qed.

Lemma triple_try_lock i t : triple i any (try_lock (OnStack t) m) (fun a c => a = true -> owns i c).
Proof.
  pose proof (stable_any m i) as St. unfold try_lock. apply triple_on_worker; [exact St|done|]. intros _.
  eapply triple_bind; [by apply triple_acquire|]. intros r.
  apply (triple_ret m i _ _ (fun a c => a = true -> owns i c)); [|done].
  intros j c c' Hne HI Ho HG HI' Hr. exact (stable_owns m i j c c' Hne HI (Ho Hr) HG HI').
Qed.

Lemma triple_any {A} i (P : world * option nat -> Prop) (p : prog world A) : stable (Inv m) Guar i P ->
  (forall v v' γ, P (v, γ) -> P (v', γ)) -> frame p -> triple i P p (fun _ => any).
Proof. intros Hst HP H. eapply rg_post; [|eapply triple_frame; [exact Hst|exact HP|exact H]]. done. Qed.

Lemma triple_unlock i t : triple i (owns i) (unlock (OnStack t) m) (fun _ => any).
Proof.
  pose proof (stable_any m i) as St. pose proof (stable_owns m i) as So.
  unfold unlock. apply triple_on_worker; [exact So|apply owns_stays|]. intros _.
  eapply triple_skip; [exact So|apply owns_stays|apply frame_waiters|]. intros [w|] _.
  - apply triple_any; [exact So|apply owns_stays|].
    eapply (keeps_bind _ _ _ _ _ (fun _ => True)); [frame|]. intros _ _.
    eapply (keeps_bind _ _ _ _ _ (fun _ => True)); [frame|]. intros _ _. apply frame_Submit.
  - eapply triple_skip; [exact So|apply owns_stays|by apply keeps_get, untouched_refl|]. intros n _.
    destruct (0 <? n).
    + eapply triple_bind; [apply triple_clear|]. intros r. by apply triple_ret.
    + eapply triple_bind; [apply triple_clear|]. intros s. destruct (has_waiters s); [|by apply triple_ret].
      apply triple_any; [exact St|done|].
      eapply (keeps_bind _ _ _ _ _ (fun _ => True)); [by apply frame_member|]. intros _ _.
      eapply (keeps_bind _ _ _ _ _ (fun _ => True)); [apply frame_wake_one|]. intros _ _.
      eapply (keeps_bind _ _ _ _ _ (fun _ => True)); [by apply frame_member|]. intros _ _. by apply keeps_ret.
Qed.

(** Waiting on a condition variable: the mutex is held before and after. *)
Lemma triple_wait i t c : triple i (owns i) (CondVar.wait (OnStack t) c m) (fun _ => owns i).
Proof.
  pose proof (stable_any m i) as St. pose proof (stable_owns m i) as So.
  unfold CondVar.wait. apply triple_on_worker; [exact So|apply owns_stays|]. intros w.
  eapply triple_bind; [apply triple_unlock|]. intros r.
  eapply triple_skip; [exact St|apply any_stays|apply frame_on|]. intros task _.
  eapply triple_skip; [exact St|apply any_stays| |intros _ _; apply triple_lock].
  destruct task as [t'|]; [apply frame_suspend_on|by apply keeps_ret].
Qed.

Lemma triple_wait_for i t c : triple i (owns i) (CondVar.wait_for (OnStack t) c m) (fun _ => owns i).
Proof.
  pose proof (stable_owns m i) as So.
  unfold CondVar.wait_for. apply triple_on_worker; [exact So|apply owns_stays|]. intros w.
  eapply triple_bind; [apply triple_wait|]. intros r. by apply triple_ret.
Qed.

(** What a bthread does with the mutex: sections executed under the lock, after
    [lock] or, if it succeeds, [try_lock].  A section is a sequence of pieces of
    code that leave the mutex alone and of waits on condition variables. *)
Inductive step := Work (p : prog world unit) | WaitOn (c : ptr) | WaitFor (c : ptr).
Inductive session := Locked (section : list step) | Tried (section : list step).

Definition section_of (x : session) : list step := match x with Locked l | Tried l => l end.

(** The pieces of code leave the mutex alone. *)
Definition fair (x : step) : Prop := match x with Work p => frame p | WaitOn _ | WaitFor _ => True end.

Definition do_step (t : ptr) (x : step) : prog world unit :=
  match x with
  | Work p => p
  | WaitOn c => CondVar.wait (OnStack t) c m
  | WaitFor c => CondVar.wait_for (OnStack t) c m ;;; Ret tt
  end.

Fixpoint do_section (t : ptr) (l : list step) : prog world unit :=
  match l with
  | [] => unlock (OnStack t) m
  | x :: l => do_step t x ;;; do_section t l
  end.

Definition do_session (t : ptr) (x : session) : prog world unit :=
  match x with
  | Locked l => lock (OnStack t) m ;;; do_section t l
  | Tried l =>
      got <- try_lock (OnStack t) m ;;
      if got : bool then do_section t l else Ret tt
  end.

(** Sessions, and then the lock taken once more: returning [true] is being
    inside. *)
Fixpoint client (t : ptr) (xs : list session) : prog world bool :=
  match xs with
  | [] => lock (OnStack t) m ;;; Ret true
  | x :: xs => do_session t x ;;; client t xs
  end.

Lemma triple_step i t x : fair x -> triple i (owns i) (do_step t x) (fun _ => owns i).
Proof.
  intros H. destruct x as [p|c|c]; simpl.
  - eapply rg_post; [|eapply triple_frame; [apply stable_owns|apply owns_stays|exact H]]. by intros [] d _ [_ Hd].
  - apply triple_wait.
  - eapply triple_bind; [apply triple_wait_for|]. intros r. by apply triple_ret; [apply stable_owns|].
Qed.

Lemma triple_section i t l : Forall fair l -> triple i (owns i) (do_section t l) (fun _ => any).
Proof.
  intros H. induction H as [|x l Hx _ IH]; simpl; [apply triple_unlock|].
  eapply triple_bind; [by apply triple_step|]. intros r. exact IH.
Qed.

Lemma triple_session i t x : Forall fair (section_of x) -> triple i any (do_session t x) (fun _ => any).
Proof.
  intros H. destruct x as [l|l]; simpl.
  - eapply triple_bind; [apply triple_lock|]. intros r. by apply triple_section.
  - eapply triple_bind; [apply triple_try_lock|]. intros [].
    + eapply triple_pre; [intros c Hc; exact (Hc eq_refl)|]. by apply triple_section.
    + eapply (triple_pre _ _ _ any); [done|]. by apply triple_ret; [apply stable_any|].
Qed.

Lemma triple_client i t xs : Forall (fun x => Forall fair (section_of x)) xs ->
  triple i any (client t xs) (fun r c => r = true -> owns i c).
Proof.
  intros H. induction H as [|x xs Hx _ IH]; simpl.
  - eapply triple_bind; [apply triple_lock|]. intros r. by apply triple_ret; [apply stable_owns|].
  - eapply triple_bind; [by apply triple_session|]. intros r. exact IH.
Qed.

(** The threads: bthreads using the mutex, and threads that leave it alone. *)
Definition participant (p : prog world bool) : Prop :=
  (exists t xs, p = client t xs /\ Forall (fun x => Forall fair (section_of x)) xs) \/
  keeps is_running (untouched m) p (fun r => r = false).

(** C1: In every interleaving of any number of bthreads that take and release
    a mutex any number of times with lock, try_lock and unlock and that wait
    on condition variables while they hold it (contended waits, wake-ups and
    context switches included), with any other threads that leave that mutex
    alone and do not shut the scheduler down, at most one bthread holds the
    mutex at a time, and while it does the LOCKED bit is set. *)
Theorem mutual_exclusion v s ps ts v' (Hr : v_running_ v = true) (Hs : lock_state m v = Some s)
    (Hfree : is_locked s = false) (Hps : Forall participant ps) (H : reachable (ps, v) (ts, v')) :
  (forall i j, Prelude.result <$> ts !! i = Some (Some true) -> Prelude.result <$> ts !! j = Some (Some true) -> i = j) /\
  (forall i, Prelude.result <$> ts !! i = Some (Some true) -> exists s, lock_state m v' = Some s /\ is_locked s = true).
Proof.
  destruct (rg_partial_adequacy (Inv m) Guar ps (fun i r c => r = true -> owns i c) v None ts v')
    as (γ & [_ (s' & Hs' & Hl)] & HQ).
  - split; [exact Hr|]. exists s. by split.
  - intros i p Hp. rewrite Forall_lookup in Hps. exists any. split; [done|].
    destruct (Hps i p Hp) as [(t & xs & -> & Hxs)|Hk]; [by apply triple_client|].
    eapply rg_post; [|eapply triple_frame; [apply stable_any|apply any_stays|exact Hk]].
    by intros a c _ [-> _].
  - exact H.
  - split.
    + intros i j Hi Hj. pose proof (HQ i true Hi eq_refl) as Oi. pose proof (HQ j true Hj eq_refl) as Oj.
      unfold owns in *. simpl in *. congruence.
    + intros i Hi. pose proof (HQ i true Hi eq_refl) as Oi. unfold owns in Oi. simpl in *. subst γ. by exists s'.
Qed.
End Sessions.

(** A bthread that notifies, one that may wait, and a thread that submits a task
    meanwhile. *)
Definition three_participants : list (prog world bool) :=
  [client 20 3 [Locked [Work (CondVar.notify_all (OnStack 3) 30)]; Tried [Work pause]];
   client 20 4 [Locked [Work pause]; Tried [WaitOn 30]]; Submit (Native 0) 5 ;;; Ret false].

Lemma three_participants_ok : Forall (participant 20) three_participants.
Proof.
  assert (Hp : fair 20 (Work pause)) by (apply keeps_pause, untouched_refl).
  assert (Hn : fair 20 (Work (CondVar.notify_all (OnStack 3) 30))) by apply frame_notify_all.
  apply list.Forall_cons; split; [|apply list.Forall_cons; split; [|apply list.Forall_cons; split; [right|by apply list.Forall_nil]]].
  - left. eexists 3%nat, _. split; [reflexivity|].
    repeat (apply list.Forall_cons; split); try (by apply list.Forall_nil); done.
  - left. eexists 4%nat, _. split; [reflexivity|].
    repeat (apply list.Forall_cons; split); try (by apply list.Forall_nil); done.
  - eapply keeps_bind; [apply frame_Submit|]. intros _ _. by apply keeps_ret.
Qed.

Definition with_condition : world := wr conds {[30%nat := World.CondVar.CondVar]} Mutex.two_running.

Definition after_their_sessions : conf world bool :=
  drive 2000 [All 0; All 1; All 2] (three_participants, with_condition).

Example mutual_exclusion_witness :
  Prelude.result <$> after_their_sessions.1 !! 0%nat = Some (Some true) /\
  (forall i j, Prelude.result <$> after_their_sessions.1 !! i = Some (Some true) ->
               Prelude.result <$> after_their_sessions.1 !! j = Some (Some true) -> i = j).
Proof.
  split; [vm_compute; reflexivity|].
  refine (proj1 (mutual_exclusion 20 with_condition 0 three_participants after_their_sessions.1
            after_their_sessions.2 eq_refl eq_refl eq_refl three_participants_ok _)).
  rewrite <- surjective_pairing. apply drive_reachable.
Defined.

End Exclusion.
