(* ===== verification/Monitor.v ===== *)
(** * Programs whose variables are protected by a mutex

    The variables of a client program are next to the state of the runtime.
    Threads change them only while they hold a given [Mutex]; what a thread knows
    of them while it holds the mutex is stable, and so is what no other thread
    can make false.  The rules are those of Exclusion.v for [lock], [unlock] and
    [wait], moved into the larger state. *)

From Stdlib Require Import ZArith Lia.
From stdpp Require Import base numbers list gmap relations option.
From S2P Require Import Prelude Concurrency Task World Workers Scheduler Mutex Cond Exclusion.

Open Scope Z_scope.

Module Monitor.
Import World Exclusion.

Section Monitor.
(** The program, its variables, and ghost data. *)
Context {W Y X : Type} (runtime : field W world) `{!FieldOk runtime} (data : W -> Y) (m : ptr).
Hypothesis data_moved : forall v w, data (wr runtime v w) = data w.

(** What is always true of the variables, and what thread [i] may do to them
    while it holds the mutex. *)
Context (D : Y * X -> Prop) (change : nat -> Y * X -> Y * X -> Prop).

Abbreviation cfg := (W * (option nat * X))%type.
Abbreviation inner := (inside runtime).
Definition local (c : cfg) : Y * X := (data c.1, c.2.2).

Definition Inv (c : cfg) : Prop := Exclusion.Inv m (inner c) /\ D (local c).
Definition acts (i : nat) (c c' : cfg) : Prop :=
  local c' = local c \/ (c.2.1 = Some i /\ change i (local c) (local c')).
Definition Guar (i : nat) (c c' : cfg) : Prop := Exclusion.Guar i (inner c) (inner c') /\ acts i c c'.

(** What a thread knows without the mutex, and with it. *)
Definition here (K : Y * X -> Prop) (c : cfg) : Prop := K (local c).
Definition held (i : nat) (K : Y * X -> Prop) (c : cfg) : Prop := c.2.1 = Some i /\ K (local c).

(** No other thread can make [K] false. *)
Definition private (i : nat) (K : Y * X -> Prop) : Prop :=
  forall j y y', j <> i -> D y -> K y -> change j y y' -> K y'.

Lemma Guar_same i c : Inv c -> Guar i c c.
Proof. intros [H _]. split; [by apply (Exclusion.Guar_refl m)|by left]. Qed.

Lemma stable_here i K : private i K -> stable Inv Guar i (here K).
Proof.
  intros HK j c c' Hne [_ HD] H [_ [E|[_ Hc]]] _; unfold here in *; [by rewrite E|by eapply HK].
Qed.

Lemma stable_held i K : stable Inv Guar i (held i K).
Proof.
  intros j c c' Hne _ [Ho H] [Hg Ha] _. split.
  - destruct Hg as [E|[[E _]|[E _]]]; unfold inside in E; simpl in E; congruence.
  - destruct Ha as [E|[E _]]; [by rewrite E|congruence].
Qed.

Abbreviation triple i P p Q := (rg Inv Guar i P (forgive p) Q).

Lemma monitor_bind i {A B} P (p : prog W A) (g : A -> prog W B) R Q :
  triple i P p R -> (forall a, triple i (R a) (g a) Q) -> triple i P (bind p g) Q.
Proof. intros H Hg. rewrite forgive_bind. by eapply rg_bind. Qed.

Lemma monitor_post i {A} P (p : prog W A) (Q Q' : A -> cfg -> Prop) :
  triple i P p Q -> (forall a c, Q a c -> Q' a c) -> triple i P p Q'.
Proof. intros H HQ. eapply rg_post; [|exact H]. intros a c _. apply HQ. Qed.

(** ** The operations of the runtime *)

Lemma monitor_runtime i {A} P (p : prog world A) Q K : private i K ->
  rg (Exclusion.Inv m) Exclusion.Guar i P (forgive p) Q ->
  triple i (fun c => P (inner c) /\ here K c) (zoom runtime p) (fun a c => Q a (inner c) /\ here K c).
Proof.
  intros HK H. assert (Em : forall c d, local (moved runtime c d) = local c).
  { intros c d. unfold local, moved. simpl. by rewrite data_moved. }
  rewrite forgive_zoom.
  apply (rg_zoom runtime (Exclusion.Inv m) Exclusion.Guar Inv Guar);
    [by intros c []|by intros j c c' []| |by apply stable_here| |exact H].
  - intros j c d [_ HD] Hg HI. assert (E : inner (moved runtime c d) = d).
    { unfold inside, moved. simpl. rewrite rd_wr. by destruct d. }
    split; split; rewrite ?E, ?Em; [done..|]. left. apply Em.
  - intros c d _ Hc _. unfold here. by rewrite Em.
Qed.

Lemma monitor_lock i t K : private i K ->
  triple i (here K) (zoom runtime (Mutex.lock (OnStack t) m)) (fun _ => held i K).
Proof.
  intros HK. apply (rg_pre Inv Guar i _ (fun c => any (inner c) /\ here K c)); [done|].
  eapply monitor_post; [apply (monitor_runtime i any _ (fun _ => owns i) K HK), triple_lock|]. by intros a c.
Qed.

Lemma monitor_unlock i t K : private i K ->
  triple i (held i K) (zoom runtime (Mutex.unlock (OnStack t) m)) (fun _ => here K).
Proof.
  intros HK. apply (rg_pre Inv Guar i _ (fun c => owns i (inner c) /\ here K c)); [done|].
  eapply monitor_post; [apply (monitor_runtime i (owns i) _ (fun _ => any) K HK), triple_unlock|]. by intros a c [_ ?].
Qed.

Lemma monitor_wait i t cv K : private i K ->
  triple i (held i K) (zoom runtime (CondVar.wait (OnStack t) cv m)) (fun _ => held i K).
Proof.
  intros HK. apply (rg_pre Inv Guar i _ (fun c => owns i (inner c) /\ here K c)); [done|].
  eapply monitor_post; [apply (monitor_runtime i (owns i) _ (fun _ => owns i) K HK), triple_wait|]. by intros a c.
Qed.

Abbreviation frame p := (keeps is_running (untouched m) p (fun _ => True)).

(** An operation that leaves the mutex alone, without it and with it. *)
Lemma monitor_frame i {A} (p : prog world A) K : private i K -> frame p ->
  triple i (here K) (zoom runtime p) (fun _ => here K).
Proof.
  intros HK Hp. apply (rg_pre Inv Guar i _ (fun c => any (inner c) /\ here K c)); [done|].
  eapply monitor_post; [apply (monitor_runtime i any _ (fun _ c => True /\ any c) K HK); eapply triple_frame;
    [apply stable_any|apply any_stays|exact Hp]|]. by intros a c [_ ?].
Qed.

Lemma monitor_frame_held i {A} (p : prog world A) K : private i K -> frame p ->
  triple i (held i K) (zoom runtime p) (fun _ => held i K).
Proof.
  intros HK Hp. apply (rg_pre Inv Guar i _ (fun c => owns i (inner c) /\ here K c)); [done|].
  eapply monitor_post; [apply (monitor_runtime i (owns i) _ (fun _ c => True /\ owns i c) K HK); eapply triple_frame;
    [apply stable_owns|apply owns_stays|exact Hp]|]. by intros a c [[_ ?] ?].
Qed.

(** ** Looking at the variables, and changing them *)

Lemma monitor_ret i {A} (a : A) K : private i K -> triple i (here K) (Ret a) (fun _ => here K).
Proof. intros HK. by apply rg_ret; [apply stable_here|]. Qed.

Lemma monitor_ret_held i {A} (a : A) K : triple i (held i K) (Ret a) (fun _ => held i K).
Proof. by apply rg_ret; [apply stable_held|]. Qed.

Lemma monitor_look i {B} (f : W -> eff W B) K K' : private i K -> (forall b, private i (K' b)) ->
  (forall w x, D (data w, x) -> K (data w, x) ->
     match f w with Go b w' => w' = w /\ K' b (data w, x) | Block | Bad => True end) ->
  triple i (here K) (act f) (fun b => here (K' b)).
Proof.
  intros HK HK' Hf. apply (rg_act Inv Guar i _ _ _ (fun b => here (K' b))); [by apply stable_here| |].
  2: { intros b. by apply rg_ret; [apply stable_here|]. }
  intros _ w γ HI Hk. pose proof (Hf w γ.2 (proj2 HI) Hk) as H. destruct (f w) as [b w'| |]; [|done..].
  destruct H as [-> H]. exists γ. split; [by apply Guar_same|]. by split.
Qed.

(** With the mutex: the variables stay, or change as thread [i] may do. *)
Lemma monitor_step i {B} (f : W -> eff W B) K K' :
  (forall w x, D (data w, x) -> K (data w, x) ->
     match f w with
     | Go b w' => rd runtime w' = rd runtime w /\ exists x', D (data w', x') /\ K' b (data w', x') /\
         ((data w', x') = (data w, x) \/ change i (data w, x) (data w', x'))
     | Block | Bad => True
     end) ->
  triple i (held i K) (act f) (fun b => held i (K' b)).
Proof.
  intros Hf. apply (rg_act Inv Guar i _ _ _ (fun b => held i (K' b))); [apply stable_held| |].
  2: { intros b. by apply rg_ret; [apply stable_held|]. }
  intros _ w [o x] [HI HD] [Ho Hk]. simpl in Ho. subst o.
  pose proof (Hf w x HD Hk) as H. destruct (f w) as [b w'| |]; [|done..].
  destruct H as (Er & x' & HD' & HK' & Hs). exists (Some i, x').
  assert (E : inner (w', (Some i, x')) = inner (w, (Some i, x))) by (unfold inside; simpl; by rewrite Er).
  split; [split|split]; [|unfold acts, local; simpl; by destruct Hs as [Hs|Hs]; [left|right]| |by split].
  - rewrite E. by apply (Exclusion.Guar_refl m).
  - split; [by rewrite E|done].
Qed.

(** A loop without the mutex, and one with it. *)
Lemma monitor_while i {J B} (Inv0 : J -> Y * X -> Prop) (body : J -> prog W (J + B)) j R :
  (forall j, private i (Inv0 j)) -> (forall b, private i (R b)) ->
  (forall j, triple i (here (Inv0 j)) (body j) (fun r => here (match r with inl j => Inv0 j | inr b => R b end))) ->
  triple i (here (Inv0 j)) (loop j body) (fun b => here (R b)).
Proof.
  intros HI HR Hb.
  apply (rg_while Inv Guar Guar_same i (fun j => here (Inv0 j)) _ j (fun b => here (R b)));
    [intros; by apply stable_here..|]. intros j'. eapply monitor_post; [apply Hb|]. by intros [] c.
Qed.

Lemma monitor_while_held i {J B} (Inv0 : J -> Y * X -> Prop) (body : J -> prog W (J + B)) j R :
  (forall j, triple i (held i (Inv0 j)) (body j) (fun r => held i (match r with inl j => Inv0 j | inr b => R b end))) ->
  triple i (held i (Inv0 j)) (loop j body) (fun b => held i (R b)).
Proof.
  intros Hb.
  apply (rg_while Inv Guar Guar_same i (fun j => held i (Inv0 j)) _ j (fun b => held i (R b)));
    [intros; apply stable_held..|]. intros j'. eapply monitor_post; [apply Hb|]. by intros [] c.
Qed.

(** ** Every interleaving *)

Lemma monitor_adequacy {A} (ps : list (prog W A)) (Q : nat -> A -> Y * X -> Prop) s w x ts w' :
  is_running (rd runtime w) -> lock_state m (rd runtime w) = Some s -> Mutex.is_locked s = false -> D (data w, x) ->
  (forall i p, ps !! i = Some p -> exists K, K (data w, x) /\ triple i (here K) p (fun a => here (Q i a))) ->
  reachable (ps, w) (ts, w') ->
  exists x', D (data w', x') /\ forall i a, Prelude.result <$> ts !! i = Some (Some a) -> Q i a (data w', x').
Proof.
  intros Hr Hs Hfree HD Hps H.
  destruct (rg_partial_adequacy Inv Guar ps (fun i a => here (Q i a)) w (None, x) ts w') as ([o x'] & [_ HD'] & HQ);
    [| |exact H|].
  - split; [|done]. split; [exact Hr|]. by exists s.
  - intros i p Hp. destruct (Hps i p Hp) as (K & HK & Ht). by exists (here K).
  - by exists x'.
Qed.
End Monitor.

(** Running a program of the runtime, as a thread of the client. *)
Lemma monitor_others {W} (runtime : field W world) m (others : list (prog world unit)) i p :
  Forall (fun q => keeps is_running (untouched m) q (fun _ => True)) others ->
  (zoom runtime <$> others) !! i = Some p ->
  exists q, p = zoom runtime q /\ keeps is_running (untouched m) q (fun _ => True).
Proof.
  intros H (q & -> & Hq)%list_lookup_fmap_Some. exists q. split; [done|].
  rewrite Forall_lookup in H. by eapply H.
Qed.
End Monitor.
