(* ===== verification/Demo.v ===== *)
(** * Clients: a counter under a mutex, and a flag to wait for

    Demos 2 and 3 of [demo/demo.cpp]: bthreads that increment a shared counter,
    which is not atomic, under a [Mutex], and bthreads that wait on a [CondVar]
    until another one has set a flag.  The globals of the program are next to the
    state of the runtime; the proofs are by the rules of Monitor.v. *)

From Stdlib Require Import ZArith Lia.
From stdpp Require Import base numbers list gmap relations option.
From S2P Require Import Prelude Concurrency Task World Workers Scheduler Butex Mutex Cond Api Exclusion Monitor.

Open Scope Z_scope.

Module Demo.
Import World Exclusion Monitor.

(** The runtime, and the variables of the demos: the counter, the flag, and what
    the arguments of the tasks point to. *)
Record program := Program {
  d_runtime : world;
  d_shared_counter : Z;
  d_ready : bool;
  d_args : gmap ptr Z;
}.
Definition Program_eta (d : program) : program := Program (d_runtime d) (d_shared_counter d) (d_ready d) (d_args d).
Definition runtime : field program world := ltac:(lens Program_eta d_runtime).
Definition shared_counter : field program Z := ltac:(lens Program_eta d_shared_counter).
Definition ready : field program bool := ltac:(lens Program_eta d_ready).
Definition args : field program (gmap ptr Z) := ltac:(lens Program_eta d_args).

#[export] Instance runtime_ok : FieldOk runtime.
Proof. lens_ok. Qed.

(** [*static_cast<int*>(arg)]. *)
Definition int_at (arg : ptr) : prog program Z :=
  act (fun d => match d_args d !! arg with Some n => Go n d | None => Bad end).

Section Counter.
Context (counter_mutex : ptr).

(** [shared_counter++]: a load and a store; the overflow is undefined. *)
Definition increment : prog program unit :=
  c <- load shared_counter ;;
  if c =? INT_MAX then undefined else store shared_counter (c + 1).

(** A round of the loop of [increment_task], in the bthread [t]. *)
Definition increment_round (t : ptr) : prog program unit :=
  zoom runtime (Mutex.lock (OnStack t) counter_mutex) ;;;
  increment ;;;
  zoom runtime (Mutex.unlock (OnStack t) counter_mutex).

Definition increment_task (t arg : ptr) : prog program unit :=
  iterations <- int_at arg ;;
  loop 0 (fun i =>
    if i <? iterations then increment_round t ;;; Ret (inl (i + 1)) else Ret (inr tt)).
End Counter.

Section Flag.
Context (cond_mutex cond_var : ptr).

(** [while (!ready) cond_var.wait(cond_mutex)], in the bthread [t]. *)
Definition wait_until_ready (t : ptr) : prog program unit :=
  loop tt (fun _ =>
    r <- load ready ;;
    if r : bool then Ret (inr tt)
    else zoom runtime (CondVar.wait (OnStack t) cond_var cond_mutex) ;;; Ret (inl tt)).

Definition waiter_task (t arg : ptr) : prog program unit :=
  id <- int_at arg ;;
  zoom runtime (Mutex.lock (OnStack t) cond_mutex) ;;;
  wait_until_ready t ;;;
  zoom runtime (Mutex.unlock (OnStack t) cond_mutex).

Definition signaler_task (t : ptr) : prog program unit :=
  loop 0 (fun i =>
    if i <? 3 then zoom runtime (Api.bthread_yield (OnStack t)) ;;; Ret (inl (i + 1)) else Ret (inr tt)) ;;;
  zoom runtime (Mutex.lock (OnStack t) cond_mutex) ;;;
  store ready true ;;;
  zoom runtime (CondVar.notify_all (OnStack t) cond_var) ;;;
  zoom runtime (Mutex.unlock (OnStack t) cond_mutex).
End Flag.

(** The variables that are not the runtime's. *)
Definition globals (d : program) : Z * bool * gmap ptr Z := (d_shared_counter d, d_ready d, d_args d).

Lemma globals_moved v d : globals (wr runtime v d) = globals d.
Proof. done. Qed.
#[export] Hint Resolve globals_moved runtime_ok : core.

(** ** How far each task is *)

Definition total (l : list Z) : Z := foldr Z.add 0 l.

Lemma total_insert l i n x : l !! i = Some n -> total (<[i := n + x]> l) = total l + x.
Proof.
  revert i; induction l as [|y l IH]; intros [|i]; simpl; [done..| |].
  - intros [= ->]. lia.
  - intros H. rewrite (IH i H). lia.
Qed.

Section CounterProof.
Context (m : ptr) (given : gmap ptr Z) (k : nat).

Abbreviation state := (Z * bool * gmap ptr Z * list Z)%type.

(** The counter is what the tasks have added, a ghost list. *)
Definition counted_up (y : state) : Prop :=
  let '(z, _, a, x) := y in z = total x /\ length x = k /\ a = given.
(** Thread [i] adds one. *)
Definition adds (i : nat) (y y' : state) : Prop :=
  exists n, y.2 !! i = Some n /\ y'.2 = <[i := n + 1]> y.2.
(** Thread [i] has added [n]; it also sees the counter. *)
Definition added (i : nat) (n : Z) (y : state) : Prop := y.2 !! i = Some n.
Definition sees (i : nat) (n z : Z) (y : state) : Prop := added i n y /\ y.1.1.1 = z.

Lemma private_added i n : private counted_up adds i (added i n).
Proof.
  intros j y y' Hne _ Ha (n' & _ & E). unfold added in *. by rewrite E, list_lookup_insert_ne.
Qed.
#[local] Hint Resolve private_added : core.

Abbreviation triple i P p Q :=
  (rg (Inv runtime globals m counted_up) (Guar runtime globals adds) i P (forgive p) Q).
Abbreviation here := (here globals).
Abbreviation held := (held globals).
Abbreviation monitor_bind := (monitor_bind runtime globals m counted_up adds).

Lemma triple_increment i n : triple i (held i (added i n)) increment (fun _ => held i (added i (n + 1))).
Proof.
  unfold increment. apply monitor_bind with (R := fun z => held i (sees i n z)).
  - apply monitor_step. intros d x HD Ha. split; [done|]. exists x. split; [exact HD|]. split; [by split|by left].
  - intros z. destruct (z =? INT_MAX).
    + apply (monitor_step runtime globals m counted_up adds i _ _ (fun _ => added i (n + 1))). done.
    + apply (monitor_step runtime globals m counted_up adds i _ _ (fun _ => added i (n + 1))).
      intros d x (Ht & Hl & Hg) [Ha Hz]. split; [done|]. unfold added in Ha. simpl in *. subst z.
      exists (<[i := n + 1]> x). split; [|split; [|right; by exists n]].
      * rewrite (total_insert x i n 1 Ha), Ht, length_insert. by repeat split.
      * unfold added. simpl. rewrite list_lookup_insert_eq; [done|by eapply lookup_lt_Some].
Qed.

Lemma triple_round i n t : triple i (here (added i n)) (increment_round m t) (fun _ => here (added i (n + 1))).
Proof.
  unfold increment_round. eapply monitor_bind; [apply monitor_lock; auto|]. intros ?.
  eapply monitor_bind; [apply triple_increment|]. intros ?. apply monitor_unlock; auto.
Qed.

Lemma triple_int_at i arg n K : private counted_up adds i K -> given !! arg = Some n ->
  triple i (here K) (int_at arg) (fun z => here (fun y => z = n /\ K y)).
Proof.
  intros HK Hn. apply monitor_look; [done|..].
  - intros z j y y' Hne HD [-> Hk] Hc. split; [done|by eapply HK].
  - intros d x (_ & _ & Hg) Hk. simpl in Hg. by rewrite Hg, Hn.
Qed.

Lemma triple_task i t arg n : given !! arg = Some n ->
  triple i (here (added i 0)) (increment_task m t arg) (fun _ => here (added i (Z.max 0 n))).
Proof.
  intros Hn. unfold increment_task. eapply monitor_bind; [apply (triple_int_at i arg n); auto|]. intros z.
  set (J := fun x (y : state) => (z = n /\ 0 <= x <= Z.max 0 n) /\ added i x y).
  eapply rg_pre; [|apply (monitor_while runtime globals m counted_up adds i J _ 0 (fun _ => added i (Z.max 0 n)))].
  - intros c _ [-> Ha]. split; [lia|done].
  - intros x j y y' Hne HD [Hx Ha] Hc. split; [done|by eapply private_added].
  - auto.
  - intros x c k' HI [[-> Hx] Ha]. revert c k' HI Ha. change (triple i (here (added i x))
      (if x <? n then increment_round m t ;;; Ret (inl (x + 1)) else Ret (inr tt))
      (fun r => here (match r with inl j => J j | inr _ => added i (Z.max 0 n) end))).
    destruct (Z.ltb_spec x n) as [Hlt|Hge].
    + eapply monitor_bind; [apply triple_round|]. intros ?. apply rg_ret; [apply stable_here; auto|].
      intros c _ Ha. split; [lia|done].
    + apply rg_ret; [apply stable_here; auto|]. intros c _ Ha. by replace (Z.max 0 n) with x by lia.
Qed.
End CounterProof.

(** C2: In every interleaving of any number of bthreads that run
    increment_task of the demo, each incrementing the shared counter (a plain
    load and store) its own number of times under the mutex, with any other
    threads that leave the mutex alone and do not shut the scheduler down, no
    increment is lost: when all the tasks have returned the counter is the sum
    of their numbers of iterations. *)
Theorem the_counter_is_exact m s d bs ns others ts d' (Hr : v_running_ (d_runtime d) = true)
    (Hs : lock_state m (d_runtime d) = Some s) (Hfree : Mutex.is_locked s = false) (Hz : d_shared_counter d = 0)
    (Hargs : Forall2 (fun b n => d_args d !! b.2 = Some n) bs ns)
    (Hothers : Forall (fun q => keeps is_running (untouched m) q (fun _ => True)) others)
    (H : reachable (((fun b => increment_task m b.1 b.2) <$> bs) ++ (zoom runtime <$> others), d) (ts, d')) :
  (forall i, (i < length bs)%nat -> Prelude.result <$> ts !! i = Some (Some tt)) ->
  d_shared_counter d' = total (Z.max 0 <$> ns).
Proof.
  intros Hdone. pose proof (Forall2_length Hargs) as Hlen.
  set (k := length bs). set (Q := fun (i : nat) (_ : unit) y => forall n, ns !! i = Some n -> added i (Z.max 0 n) y).
  destruct (monitor_adequacy runtime globals m (counted_up (d_args d) k) adds
    (((fun b => increment_task m b.1 b.2) <$> bs) ++ (zoom runtime <$> others)) Q s d (replicate k 0) ts d')
    as (x & HI & HQ); [exact Hr|exact Hs|exact Hfree| | |exact H|].
  - simpl. rewrite Hz, length_replicate. split; [|done]. unfold total. by induction k.
  - intros i p [Hp|[Hi Hp]]%lookup_app_Some.
    + apply list_lookup_fmap_Some in Hp as ([t arg] & -> & Hb).
      destruct (Forall2_lookup_l _ _ _ _ _ Hargs Hb) as (n & Hn & Ha). exists (added i 0). split.
      { apply lookup_replicate_2. by eapply lookup_lt_Some. }
      eapply monitor_post; [by apply triple_task|]. intros [] c Hc n' Hn'. rewrite Hn in Hn'. by injection Hn' as <-.
    + rewrite length_fmap in Hi. apply (monitor_others _ m) in Hp as (q & -> & Hq); [|exact Hothers].
      exists (fun _ => True). split; [done|].
      eapply monitor_post; [apply monitor_frame; auto; by intros j y y'|]. intros a c _ n Hn%lookup_lt_Some. unfold k in *. lia.
  - destruct HI as (Ht & Hl & _). rewrite Ht. f_equal. apply list_eq. intros i.
    destruct (decide (i < k)%nat) as [Hi|Hi].
    + destruct (lookup_lt_is_Some_2 ns i) as [n Hn]; [unfold k in *; lia|].
      specialize (HQ i tt (Hdone i Hi) n Hn). unfold added in HQ. simpl in HQ.
      by rewrite HQ, list_lookup_fmap, Hn.
    + rewrite !lookup_ge_None_2; [done|rewrite length_fmap; unfold k in *; lia|unfold k in *; lia].
Qed.

(** Two tasks, of two and of three iterations, on two workers, and a thread that
    submits a task meanwhile. *)
Definition two_tasks : list (ptr * ptr) := [(3%nat, 50%nat); (4%nat, 51%nat)].
Definition with_spare : world :=
  wr tasks (<[5%nat := Task.new_TaskMeta]> (rd tasks Mutex.two_running)) Mutex.two_running.
Definition before : program := Program with_spare 0 false (<[50%nat := 2]> {[51%nat := 3]}).
Definition meanwhile : list (prog world unit) := [Scheduler.Submit (Native 0) 5].
Definition counted : conf program unit :=
  drive 3000 [Steps 0 14; All 2; All 1; All 0]
    (((fun b => increment_task 20 b.1 b.2) <$> two_tasks) ++ (zoom runtime <$> meanwhile), before).

Example the_counter_is_exact_witness :
  Prelude.result <$> counted.1 !! 0%nat = Some (Some tt) /\ d_shared_counter counted.2 = 5.
Proof.
  split; [vm_compute; reflexivity|].
  refine (the_counter_is_exact 20 0 before two_tasks [2; 3] meanwhile counted.1 counted.2 eq_refl eq_refl eq_refl eq_refl
            _ _ _ _).
  - constructor; [reflexivity|]. constructor; [reflexivity|]. constructor.
  - apply list.Forall_cons; split; [apply frame_Submit|by apply list.Forall_nil].
  - rewrite <- surjective_pairing. apply drive_reachable.
  - intros [|[|i]] Hi; [vm_compute; reflexivity|vm_compute; reflexivity|simpl in Hi; lia].
Defined.

(** ** The flag *)

Section FlagProof.
Context (m cv : ptr) (given : gmap ptr Z).

Abbreviation state := (Z * bool * gmap ptr Z * unit)%type.
Definition same_args (y : state) : Prop := y.1.2 = given.
(** A thread that changes something leaves the flag set. *)
Definition sets (i : nat) (y y' : state) : Prop := y'.1.1.2 = true.
Definition is_set (y : state) : Prop := y.1.1.2 = true.
Definition anything (y : state) : Prop := True.

Lemma private_is_set i : private same_args sets i is_set.
Proof. by intros j y y' _ _ _ H. Qed.
Lemma private_anything i : private same_args sets i anything.
Proof. by intros j y y'. Qed.
#[local] Hint Resolve private_is_set private_anything : core.

Abbreviation triple i P p Q :=
  (rg (Inv runtime globals m same_args) (Guar runtime globals sets) i P (forgive p) Q).
Abbreviation here := (here globals).
Abbreviation held := (held globals).
Abbreviation monitor_bind := (monitor_bind runtime globals m same_args sets).

Lemma triple_wait_until_ready i t :
  triple i (held i anything) (wait_until_ready m cv t) (fun _ => held i is_set).
Proof.
  apply (monitor_while_held runtime globals m same_args sets i (fun _ => anything) _ tt (fun _ => is_set)).
  intros []. apply monitor_bind with (R := fun r => held i (fun y => r = true -> is_set y)).
  - apply monitor_step. intros d [] HD _. split; [done|]. exists tt. split; [exact HD|]. split; [|by left].
    by intros H.
  - intros [|].
    + apply rg_ret; [apply stable_held|]. intros c _ [Ho H]. split; [done|by apply H].
    + eapply rg_pre; [|eapply monitor_bind; [apply (monitor_wait runtime globals m) with (K := anything); auto|]].
      * by intros c _ [Ho _].
      * intros ?. by apply rg_ret; [apply stable_held|].
Qed.

Lemma triple_waiter i t arg n : given !! arg = Some n ->
  triple i (here anything) (waiter_task m cv t arg) (fun _ => here is_set).
Proof.
  intros Hn. unfold waiter_task. eapply monitor_bind with (R := fun _ => here anything).
  - apply monitor_look; auto. intros d x Hg _. unfold same_args in Hg. simpl in Hg. by rewrite Hg, Hn.
  - intros ?. eapply monitor_bind; [apply (monitor_lock runtime globals m) with (K := anything); auto|]. intros ?.
    eapply monitor_bind; [apply triple_wait_until_ready|]. intros ?. apply monitor_unlock; auto.
Qed.

(** A yield leaves the mutex alone. *)
Lemma frame_bthread_yield self : keeps is_running (untouched m) (Api.bthread_yield self) (fun _ => True).
Proof.
  pose proof (frame_Current m self) as HC. pose proof (frame_SuspendCurrent m self) as HS.
  unfold Api.bthread_yield, Scheduler.YieldCurrent. frame; eauto.
Qed.

Lemma triple_signaler i t : triple i (here anything) (signaler_task m cv t) (fun _ => here is_set).
Proof.
  unfold signaler_task. eapply monitor_bind with (R := fun _ => here anything).
  - apply (monitor_while runtime globals m same_args sets i (fun _ => anything) _ 0 (fun _ => anything)); auto.
    intros x. destruct (x <? 3); [|by apply rg_ret; [apply stable_here; auto|]].
    eapply monitor_bind; [apply (monitor_frame runtime globals m) with (K := anything);
      [auto..|apply frame_bthread_yield]|].
    intros ?. by apply rg_ret; [apply stable_here; auto|].
  - intros ?. eapply monitor_bind; [apply (monitor_lock runtime globals m) with (K := anything); auto|]. intros ?.
    eapply monitor_bind with (R := fun _ => held i is_set).
    { apply monitor_step. intros d [] HD _. split; [done|]. exists tt. split; [exact HD|]. split; [done|by right]. }
    intros ?. eapply monitor_bind; [apply (monitor_frame_held runtime globals m) with (K := is_set);
      [auto..|apply frame_notify_all]|].
    intros ?. apply monitor_unlock; auto.
Qed.
End FlagProof.

(** C3: In every interleaving of any number of waiters and signalers of demo 3
    with any other threads that leave the mutex alone and do not shut the
    scheduler down, no waiter returns, and no signaler, before the flag is
    set. *)
Theorem nobody_passes_before_ready m cv s d ws ss others ps d' (Hr : v_running_ (d_runtime d) = true)
    (Hs : lock_state m (d_runtime d) = Some s) (Hfree : Mutex.is_locked s = false)
    (Hargs : Forall (fun b : ptr * ptr => is_Some (d_args d !! b.2)) ws)
    (Hothers : Forall (fun q => keeps is_running (untouched m) q (fun _ => True)) others)
    (H : reachable (((fun b => waiter_task m cv b.1 b.2) <$> ws) ++ (signaler_task m cv <$> ss) ++
                    (zoom runtime <$> others), d) (ps, d')) :
  forall i, (i < length ws + length ss)%nat -> Prelude.result <$> ps !! i = Some (Some tt) -> d_ready d' = true.
Proof.
  intros i Hi Hdone.
  destruct (monitor_adequacy runtime globals m (same_args (d_args d)) sets
    (((fun b => waiter_task m cv b.1 b.2) <$> ws) ++ (signaler_task m cv <$> ss) ++ (zoom runtime <$> others))
    (fun i _ y => (i < length ws + length ss)%nat -> is_set y) s d tt ps d')
    as (x & _ & HQ); [exact Hr|exact Hs|exact Hfree|done| |exact H|by apply (HQ i tt)].
  intros j p [Hp|[Hj [Hp|[Hj' Hp]]%lookup_app_Some]]%lookup_app_Some; exists anything; (split; [done|]).
  - apply list_lookup_fmap_Some in Hp as ([t arg] & -> & Hb). rewrite Forall_lookup in Hargs.
    destruct (Hargs j _ Hb) as [n Hn]. eapply monitor_post; [by eapply triple_waiter|]. by intros a c Hc _.
  - apply list_lookup_fmap_Some in Hp as (t & -> & Hb).
    eapply monitor_post; [apply triple_signaler|]. by intros a c Hc _.
  - apply (monitor_others _ m) in Hp as (q & -> & Hq); [|exact Hothers].
    eapply monitor_post; [apply monitor_frame; auto; apply private_anything|].
    intros a c _ Hlt. rewrite length_fmap in Hj; do 2 rewrite length_fmap in Hj'. lia.
Qed.

(** A waiter on one worker, the signaler on another, and a thread that submits a
    task meanwhile. *)
Definition at_the_flag : program :=
  Program (wr conds {[40%nat := World.CondVar.CondVar]} with_spare) 0 false {[50%nat := 1]}.
Definition waiter_and_signaler : list (prog program unit) :=
  ((fun b => waiter_task 20 40 b.1 b.2) <$> [(3%nat, 50%nat)]) ++ (signaler_task 20 40 <$> [4%nat]) ++
  (zoom runtime <$> meanwhile).
Definition signalled_first : conf program unit :=
  drive 3000 [Steps 0 1; All 2; All 1; All 0] (waiter_and_signaler, at_the_flag).

Example nobody_passes_before_ready_witness :
  Prelude.result <$> signalled_first.1 !! 0%nat = Some (Some tt) /\ d_ready signalled_first.2 = true.
Proof.
  split; [vm_compute; reflexivity|].
  refine (nobody_passes_before_ready 20 40 0 at_the_flag [(3%nat, 50%nat)] [4%nat] meanwhile signalled_first.1
            signalled_first.2 eq_refl eq_refl eq_refl _ _ _ 0%nat _ _).
  - apply list.Forall_cons; split; [by eexists|by apply list.Forall_nil].
  - apply list.Forall_cons; split; [apply frame_Submit|by apply list.Forall_nil].
  - rewrite <- surjective_pairing. apply drive_reachable.
  - simpl. lia.
  - vm_compute. reflexivity.
Defined.

(** There is an execution of demo 3 in which the signaler sets the flag and
    notifies while the waiter, which has found the flag not set and released
    the mutex, is not in the queue yet: the waiter is suspended for good; the
    workers find only the task submitted meanwhile. *)
Theorem demo_condition_may_hang :
  exists ts d, reachable (waiter_and_signaler, at_the_flag) (ts, d) /\
    Prelude.result <$> ts = [None; Some tt; Some tt] /\ d_ready d = true /\
    CondVar.is_free 20 (d_runtime d) = true /\
    Butex.is_suspended 3 (d_runtime d) = true /\ Butex.is_executed 3 (d_runtime d) = false /\
    wp (Scheduler.PickTask 1) (fun r _ => r = Some 5%nat) (d_runtime d) /\
    wp (Scheduler.PickTask 2) (fun r _ => r = Some 5%nat) (d_runtime d).
Proof.
  set (free := fun d => CondVar.is_free 20 (d_runtime d)).
  destruct (drive_results_reachable
    (fun d => ((d_ready d, free d, Butex.is_suspended 3 (d_runtime d)),
               (Butex.is_executed 3 (d_runtime d), Butex.finds 1 (d_runtime d), Butex.finds 2 (d_runtime d))))
    2000 [Steps 0 1; Until 0 (fun d => negb (free d)); Until 0 free; All 2; All 1; All 0]
    (waiter_and_signaler, at_the_flag)
    [None; Some tt; Some tt] [false; false; false] ((true, true, true), (false, Some (Some 5%nat), Some (Some 5%nat))))
    as (ts & d & Hr & H1 & _ & [[[H2 H3]%pair_equal_spec H4]%pair_equal_spec
                                [[H5 H6]%pair_equal_spec H7]%pair_equal_spec]%pair_equal_spec);
    [vm_compute; reflexivity|].
  exists ts, d. split; [exact Hr|]. split; [exact H1|]. split; [exact H2|]. split; [exact H3|].
  split; [exact H4|]. split; [exact H5|].
  split; [exact (Butex.finds_ok _ _ _ H6)|exact (Butex.finds_ok _ _ _ H7)].
Qed.

End Demo.
