(* ===== verification/DemoRun.v ===== *)
(** * The demo programs

    [demo/demo.cpp] and [demo/yield_demo.cpp] as whole programs, and executions
    of them on the whole runtime from the constructor of the scheduler on: the
    main thread, the loops of the workers, the timer thread and the code of the
    bthreads are threads of the pool.  What is printed is not modelled, but
    [demo_mutex] returns the counter and the value expected, which it prints. *)

From Stdlib Require Import ZArith Lia.
From stdpp Require Import base numbers list gmap relations option.
From S2P Require Import Prelude Task TaskGroup Timer Platform World Workers Scheduler Butex Mutex Cond Runtime Api Demo.

Open Scope Z_scope.

Module DemoRun.
Import World World.Worker Workers Scheduler Demo.

(** The addresses of the functions, and of the global objects. *)
Definition hello_task_fn : Z := 1.
Definition increment_task_fn : Z := 2.
Definition waiter_task_fn : Z := 3.
Definition signaler_task_fn : Z := 4.
Definition yield_task_fn : Z := 5.
Definition detached_task_fn : Z := 6.
Definition timer_callback_fn : Z := 7.
Definition mutex_wait_task_fn : Z := 8.
Definition counter_mutex : ptr := 20.
Definition cond_mutex : ptr := 21.
Definition g_mutex : ptr := 22.
Definition cond_var : ptr := 40.

(** ** The tasks *)

Definition hello_task : prog program unit := pause.

(** [n] times [bthread_yield()]. *)
Definition yields (self : who) (n : Z) : prog program unit :=
  loop 0 (fun i => if i <? n then zoom runtime (Api.bthread_yield self) ;;; Ret (inl (i + 1)) else Ret (inr tt)).

Definition yield_task (t arg : ptr) : prog program unit :=
  id <- int_at arg ;;
  yields (OnStack t) 5.

Definition detached_task (t arg : ptr) : prog program unit :=
  id <- int_at arg ;;
  yields (OnStack t) 3.

(** [mutex_wait_task] of [yield_demo.cpp]; the work is a [pause]. *)
Definition mutex_wait_task (t arg : ptr) : prog program unit :=
  id <- int_at arg ;;
  zoom runtime (Mutex.lock (OnStack t) g_mutex) ;;;
  pause ;;;
  zoom runtime (Mutex.unlock (OnStack t) g_mutex).

(** Every task returns [nullptr]. *)
Definition functions (t : ptr) (fn arg : Z) : prog program Z :=
  let arg := Z.to_nat arg in
  (if fn =? hello_task_fn then hello_task
   else if fn =? increment_task_fn then increment_task counter_mutex t arg
   else if fn =? waiter_task_fn then waiter_task cond_mutex cond_var t arg
   else if fn =? signaler_task_fn then signaler_task cond_mutex cond_var t
   else if fn =? yield_task_fn then yield_task t arg
   else if fn =? detached_task_fn then detached_task t arg
   else if fn =? mutex_wait_task_fn then mutex_wait_task t arg
   else undefined) ;;;
  Ret 0.

(** [Runtime.BthreadEntry] and [Runtime.bthread] with the functions of the
    program. *)
Definition BthreadEntry (t : ptr) : prog program unit :=
  fn <- zoom runtime (get tasks t Task.fn) ;;
  arg <- zoom runtime (get tasks t Task.arg) ;;
  match fn with
  | None => undefined
  | Some fn =>
      r <- functions t fn arg ;;
      zoom runtime (set tasks t Task.result r ;;;
                    r <- get tasks t Task.result ;;
                    Runtime.bthread_exit (OnStack t) r)
  end.
Definition bthread (t : ptr) : prog program unit :=
  zoom runtime (resumed t) ;;;
  loop tt (fun _ => zoom runtime (Runtime.start t) ;;; BthreadEntry t ;;; Ret (inl tt)).

(** ** The demos *)

Section Main.
Context (self : who).

(** The array of arguments of a demo starts here. *)
Definition args_at (i : Z) : ptr := Z.to_nat (50 + i).
Definition set_arg (i x : Z) : prog program unit := fetch args (<[args_at i := x]>) ;;; Ret tt.

Definition create (fn arg : Z) : prog program Z :=
  r <- zoom runtime (Api.bthread_create self true None (Some fn) arg) ;; Ret r.2.
Definition join (tid : Z) : prog program unit := zoom runtime (Api.bthread_join self tid) ;;; Ret tt.

(** [for (i = 0; i < n; ++i) bthread_create(&tids[i], nullptr, fn, &args[i])],
    the arguments being [arg i]. *)
Definition create_all (n fn : Z) (arg : Z -> Z) : prog program (list Z) :=
  loop (0, []) (fun '(i, tids) =>
    if i <? n then
      set_arg i (arg i) ;;;
      tid <- create fn (Z.of_nat (args_at i)) ;;
      Ret (inl (i + 1, tids ++ [tid]))
    else Ret (inr tids)).
(** Joining the bthreads of an array. *)
Definition join_all (tids : list Z) : prog program unit :=
  loop tids (fun tids => match tids with [] => Ret (inr tt) | tid :: tids => join tid ;;; Ret (inl tids) end).

Definition demo_basic : prog program unit :=
  tid1 <- create hello_task_fn 1 ;;
  tid2 <- create hello_task_fn 2 ;;
  join tid1 ;;;
  join tid2.

(** The numbers of threads and of iterations are 4 and 1000 in the demo. *)
Definition demo_mutex (num_threads iterations : Z) : prog program (Z * Z) :=
  store shared_counter 0 ;;;
  tids <- create_all num_threads increment_task_fn (fun _ => iterations) ;;
  join_all tids ;;;
  c <- load shared_counter ;;
  Ret (c, num_threads * iterations).

(** The number of waiters is 3 in the demo. *)
Definition demo_condition (num_waiters : Z) : prog program unit :=
  store ready false ;;;
  waiters <- create_all num_waiters waiter_task_fn (fun i => i + 1) ;;
  signaler <- create signaler_task_fn 0 ;;
  join_all waiters ;;;
  join signaler.

Definition demo_yield : prog program unit :=
  tids <- create_all 2 yield_task_fn (fun i => i + 1) ;;
  join_all tids.

Definition demo_detach : prog program unit :=
  set_arg 0 42 ;;;
  tid <- create detached_task_fn (Z.of_nat (args_at 0)) ;;
  zoom runtime (Api.bthread_detach tid) ;;;
  yields self 5.
(** The calls of [timer_callback], which increments [timer_count]. *)
Definition timer_count : prog program Z :=
  act (fun d => Go (match v_timer_thread_ (d_runtime d) with
                    | Some t => Z.of_nat (length (filter (fun call => call.1 = timer_callback_fn) (Timer.t_fired t)))
                    | None => 0
                    end) d).

(** [timer_count = 0] is left out: the demo runs once. *)
Definition demo_timer : prog program unit :=
  loop 0 (fun i =>
    if i <? 3 then
      set_arg i (i + 1) ;;;
      zoom runtime (Api.bthread_timer_add (Some timer_callback_fn) (Z.of_nat (args_at i))
                      (Some (0, (i + 1) * 100000000))) ;;;
      Ret (inl (i + 1))
    else Ret (inr tt)) ;;;
  loop 0 (fun i =>
    n <- timer_count ;;
    if (i <? 500) && (n <? 3) then zoom runtime (Api.bthread_yield self) ;;; Ret (inl (i + 1)) else Ret (inr tt)).

(** What [main] does, in order; demo 2 has 4 threads of 1000 iterations.  The
    result is what demo 2 prints. *)
Definition demos (iterations : Z) : prog program (Z * Z) :=
  demo_basic ;;;
  printed <- demo_mutex 4 iterations ;;
  demo_condition 3 ;;;
  demo_yield ;;;
  demo_timer ;;;
  demo_detach ;;;
  Ret printed.

Definition main : prog program (Z * Z) :=
  printed <- demos 1000 ;;
  zoom runtime (Api.bthread_shutdown self) ;;;
  Ret printed.

(** [demo_mutex_switch] of [yield_demo.cpp], up to bthread_shutdown, and the
    whole of it. *)
Definition mutex_switch : prog program unit :=
  zoom runtime (Api.bthread_set_worker_count 1) ;;;
  zoom runtime (Mutex.lock self g_mutex) ;;;
  tids <- create_all 4 mutex_wait_task_fn (fun i => i + 1) ;;
  yields self 3 ;;;
  zoom runtime (Mutex.unlock self g_mutex) ;;;
  join_all tids.
Definition demo_mutex_switch : prog program unit :=
  mutex_switch ;;;
  zoom runtime (Api.bthread_shutdown self).
End Main.

(** ** Executions *)

(** The stacks are where [mmap] puts them. *)
Definition stacks : list (option Z) := (fun i => Some (65536 + 16777216 * i)) <$> [0; 1; 2; 3; 4; 5; 6; 7].
Definition at_start : program :=
  Program
    (wr conds {[cond_var := World.CondVar.CondVar]}
      (wr mutexes (<[counter_mutex := World.Mutex.Mutex]>
                     (<[g_mutex := World.Mutex.Mutex]> {[cond_mutex := World.Mutex.Mutex]}))
        (World.Scheduler 2 stacks)))
    0 false ∅.

(** The threads of the process besides the main thread: the workers, the timer
    thread, time, and the code of the bthreads. *)
Definition worker_thread {A} (w : ptr) (a : A) : prog program A := zoom runtime (Runtime.worker_thread w) ;;; Ret a.
Definition timer_thread {A} (a : A) : prog program A :=
  zoom runtime (
    act (fun v => match v_timer_thread_ v with
                  | Some t => if Timer.t_running t then Go tt v else Block
                  | None => Block
                  end) ;;;
    zoom_opt timer_thread_ Timer.TimerThreadMain) ;;;
  Ret a.
Definition time_passes {A} (us : Z) (a : A) : prog program A :=
  zoom runtime (
    act (fun v => match v_timer_thread_ v with Some t => Go tt v | None => Block end) ;;;
    zoom_opt timer_thread_ (fetch Timer.now (fun t => t + us) ;;; Ret tt)) ;;;
  Ret a.
Definition code {A} (t : ptr) (a : A) : prog program A := bthread t ;;; Ret a.
Definition cast {A} (main : prog program A) (a : A) (workers bthreads : list ptr) : list (prog program A) :=
  [main; timer_thread a; time_passes 300000 a] ++
  ((fun w => worker_thread w a) <$> workers) ++ ((fun t => code t a) <$> bthreads).

Definition workers : list ptr := [1; 2]%nat.
Definition bthreads : list ptr := [3; 4; 7; 8; 13; 14]%nat.
Definition everybody : list (stretch program) := Prelude.All <$> [0; 3; 4; 5; 6; 7; 8; 9; 10]%nat.
Definition timers_added (d : program) : bool :=
  match v_timer_thread_ (d_runtime d) with Some t => Timer.t_next_id t =? 3 | None => false end.
Definition fired (d : program) : list (Z * Z) :=
  match v_timer_thread_ (d_runtime d) with Some t => Timer.t_fired t | None => [] end.
Definition schedule : list (stretch program) :=
  concat (replicate 13 everybody) ++ [Until 0 timers_added; All 2; Steps 1 200; All 0].
Definition program_threads (iterations : Z) : list (prog program (Z * Z)) :=
  cast (demos (Native 0) iterations) (0, 0) workers bthreads.

(** From the constructor of the scheduler on a machine with two processors
    there is an execution of the demos of main in which the first
    bthread_create starts the workers, every bthread is created, run by a
    worker, suspended and woken where it has to wait, and joined, the tasks
    are recycled from one demo to the next, the three timers fire, and the
    main thread gets to the end; demo 2, with its 4 threads of 1000
    increments, prints 4000 of 4000. *)
Theorem the_demos_run :
  exists ts d, reachable (program_threads 1000, at_start) (ts, d) /\
    Prelude.result <$> ts !! 0%nat = Some (Some (4000, 4000)) /\
    fired d = [(timer_callback_fn, 50); (timer_callback_fn, 52); (timer_callback_fn, 51)].
Proof.
  destruct (drive_results_reachable fired (Z.to_nat 20000) schedule (program_threads 1000, at_start)
    ([Some (4000, 4000); None; Some (0, 0)] ++ replicate 8 None) (replicate 11 false)
    [(timer_callback_fn, 50); (timer_callback_fn, 52); (timer_callback_fn, 51)])
    as (ts & d & Hr & H1 & _ & H2); [vm_compute; reflexivity|].
  exists ts, d. split; [exact Hr|]. split; [|exact H2].
  rewrite <- list_lookup_fmap, H1. reflexivity.
Qed.

(** ** [yield_demo.cpp] *)

Definition yield_threads : list (prog program unit) :=
  cast (mutex_switch (Native 0)) tt [1%nat] [2; 3; 4; 5]%nat.
Definition workers_exist (d : program) : bool := bool_decide (v_workers (d_runtime d) <> ∅).
Definition four_queued (d : program) : bool :=
  SharedMpsc.SharedMPSCQueue.total (rd global_queue_ (d_runtime d)) =? 4.
Definition worker_and_bthreads : list (stretch program) := Prelude.All <$> [3; 4; 5; 6; 7]%nat.

(** The main thread has created the bthreads and holds the mutex. *)
Definition all_wait : conf program unit :=
  drive 3000 ([Until 0 workers_exist; All 0; All 3; Until 0 four_queued; Steps 0 4] ++
              concat (replicate 6 worker_and_bthreads)) (yield_threads, at_start).
Definition all_done : conf program unit :=
  drive 3000 (concat (replicate 10 (All 0 :: worker_and_bthreads))) all_wait.

Definition state_of (t : ptr) (d : program) : option Task.TaskState := Task.m_state <$> rd tasks (d_runtime d) !! t.
Definition holder (d : program) : option (option who) := World.Mutex.m_native <$> v_mutexes (d_runtime d) !! g_mutex.

(** What yield_demo.cpp is there to show: there is an execution in which the
    only worker has run all four bthreads up to the mutex, each of them
    suspended, while the main thread holds it, and from there, the mutex
    handed on, the main thread joins them all. *)
Theorem one_worker_serves_the_waiters :
  exists ts d ts' d', reachable (yield_threads, at_start) (ts, d) /\
    (forall t, t ∈ [2; 3; 4; 5]%nat -> state_of t d = Some Task.SUSPENDED) /\
    holder d = Some (Some (Native 0)) /\
    reachable (ts, d) (ts', d') /\ Prelude.result <$> ts' !! 0%nat = Some (Some tt).
Proof.
  exists all_wait.1, all_wait.2, all_done.1, all_done.2. rewrite <- !surjective_pairing.
  split; [apply drive_reachable|]. split; [|split; [vm_compute; reflexivity|]].
  - assert (E : (fun t => state_of t all_wait.2) <$> [2; 3; 4; 5]%nat = replicate 4 (Some Task.SUSPENDED))
      by (vm_compute; reflexivity).
    intros t Ht. apply (list_elem_of_fmap_2 (fun t => state_of t all_wait.2)) in Ht. rewrite E in Ht.
    by apply elem_of_replicate in Ht as [-> _].
  - split; [apply drive_reachable|vm_compute; reflexivity].
Qed.

End DemoRun.
